(* ===== verification/_CoqProject ===== *)
-Q . S2P
Prelude.v
StringView.v
HttpHeader.v
HttpRequest.v
HttpResponse.v
Net.v
HttpFraming.v
Pipeline.v
ModuleAbi.v
ConfigText.v
Guard.v
HeaderGuard.v
HostGuard.v
RouteConfig.v
RouteTable.v
Router.v
FsPath.v
StaticFiles.v
Double.v
RateLimit.v
Base64.v
JsonClaims.v
JwtAuth.v
Cors.v
RuleLanguages.v
Environment.v
Machine.v
Protection.v
CommandLine.v
ModuleConfig.v
DynamicModule.v
Shipped.v
WorkQueue.v
Server.v
ConnectionHandler.v
Tls.v
StreamFactory.v
Totality.v
Listener.v
Startup.v
Calendar.v
Logs.v
Session.v
SessionStreams.v
ServerRun.v
Tests.v
Deployment.v
