(* ===== verification/Prelude.v ===== *)
(** * Garcon: a verification library for the HTTP server

    Garcon is a small HTTP/1.x server in C++.  A listener accepts connections and
    puts them into a bounded queue; a pool of workers takes them out.  A worker
    reads header blocks from a connection, parses each into a request, sends the
    request through an ordered pipeline of modules (shared libraries behind a C
    ABI) and writes the response back.  The modules shipped with the server guard,
    limit, authenticate, route and annotate requests by rules read from
    configuration files.  This development models the server from the bytes of a
    connection up to the accept loop, with its start: the command line, the module
    directory, the loading of modules, TLS and the listener.  Every definition
    follows the source function of the same name.

    ** How C++ is read

    - A [std::string] or [std::string_view] is the list of its chars ([bytes]);
      [StringView] has [substr], [find], indexing and the rest with the exceptions
      they throw and undefined behaviour where the standard leaves it.
    - A computation is an [outcome]: a value ([Ret]), an exception ([Throw]),
      undefined behaviour ([Undef]) or a loop that has used up its fuel
      ([Diverge]).  [try_catch] handles exceptions only.  "The call returns" is
      [returns], "it returns or throws" is [defined]; neither holds of [Undef] or
      [Diverge].
    - A computation with state is a [prog] over a world; the state survives an
      exception.
    - [std::size_t] is [nat] where the sizes are lengths of strings and containers
      in memory, and [Z] modulo [2 ^ 64] where they come from the command line.  An
      [int] or [long long] that is computed with ([parse_status_code],
      [json_digits]) is a [Z] whose overflow is [Undef]; a left shift wraps.
    - [double] is the binary64 of [SpecFloat], rounding to nearest even ([Double]).
    - [std::expected] is [expected], [std::optional] is [option], an enum is an
      inductive type, a class is the record of its members.
    - Character classes are those of the "C" locale.

    ** Parts and files

    - [Prelude], [StringView]: the reading of C++ above, and the lemmas that turn
      index loops (trimming, cutting at a delimiter, decimal integers) into
      functions on lists.
    - [HttpHeader], [HttpRequest] ([src/http/header.h], [src/http/request.*]):
      header fields, the request grammar, header access, connection reuse.
      [parse] maps to [request::parse].
    - [HttpResponse] ([src/http/response.*]): header validation and update,
      [serialize].
    - [Net] ([src/net]): the class [NetStream] is [net::stream]; [socket_*] and
      [plain_*] are [net::socket] and [net::plain_stream] over the class
      [SocketApi] of system calls, whose laws are what POSIX documents.
    - [HttpFraming] ([src/http/buffer.*], [src/http/framing.*]): the receive buffer
      and [read_header_block] over any [NetStream].
    - [Pipeline] ([src/app/request_pipeline.cpp]): module results and
      [request_pipeline::handle] over modules that share a world.
    - [ModuleAbi] ([include/garcon], [src/app/dynamic_module.cpp]): both sides of a
      call through the C ABI; [loaded] makes a pipeline module of a C++ module.
    - [ConfigText]: the configuration text the modules share, and the class
      [RuleSyntax] of rule languages with their laws.  [Guard]: the interface of
      the modules that only reject.  [RouteConfig]: the route language.
      [RuleLanguages]: the theorem on the languages of all modules.
    - [HeaderGuard], [HostGuard], [RouteTable], [Router], [Cors], [RateLimit],
      [JwtAuth] ([lib]): one module each; [handle] is the module's [handle],
      [<name>_module] its constructor.
    - [Double]: arithmetic on [double] and what is known of its rounding, for the
      token buckets of [RateLimit].  [RateWorld] is the clock, the buckets, and
      what other threads do between the two locked sections of a request.
    - [Base64], [JsonClaims]: the decoder and the textual claim search of
      [JwtAuth]; [JwtWorld] is the HMAC of the crypto library and the clock.
    - [FsPath]: [std::filesystem] paths and the class [FileSystem] of the calls
      that ask the file system, with the laws of canonical paths;
      [StaticFiles] ([lib/static_files]): the module that serves files.
    - [Environment]: the calls of the start-up code on the file system and the
      machine, each with its throwing and its error-code form.
    - [CommandLine] ([src/app/command_line.cpp], [src/server_config.h]): from the
      arguments to the configuration.
    - [ModuleConfig] ([src/app/module_config.cpp]): from the module directory to
      the list of modules.
    - [DynamicModule] ([src/app/dynamic_module.cpp], [create_request_handler] of
      [src/server.cpp], [create] and [destroy] of [include/garcon/module_cpp.h]):
      from that list to the pipeline, over the class [DynamicLinker].
    - [Shipped] ([lib/*/module.cpp]): the eight module libraries and what they
      export.
    - [Protection]: the modules composed; which files the rules of the restricting
      modules protect, and which targets they do not see.  [Machine] is one world
      with all the classes of the modules, for the examples.
    - [Totality]: the modules composed once more; what makes the pipeline answer.
    - [WorkQueue] ([src/app/work_queue.cpp], [src/app/ip_connection_limiter.cpp]):
      the objects the threads share, one function per locked section, with the
      [notification]s that an operation of the queue sends.
    - [Server] ([src/server.cpp], [src/app/worker_pool.cpp]): the accept loop, the
      worker loop and the shutdown as steps of interleaved threads.  A worker that
      finds the queue empty is asleep until a notification reaches it ([notify]:
      [notify_one] wakes one sleeper that the system chooses, [notify_all] every one),
      the pool asks it to stop, or it wakes without a cause ([ev_wake]).  [push],
      [try_push] and [pop] notify after they unlocked the queue, so the notification
      of [try_push] is a step of its own ([ev_notify]); [close] notifies under the
      lock, in the same step.
    - [ConnectionHandler] ([src/app/connection_handler.cpp]): what a worker does
      with a connection, over any stream and any handler; a stream is a handle on
      the system, made by the parameter [create] and ended by [destroy].
    - [Tls] ([src/tls]): the context and the TLS stream, another [NetStream], over
      the class [OpenSsl] with the laws its manual pages state.
    - [StreamFactory] ([src/app/default_stream_factory.cpp]): [create_stream] and
      [delete_stream], the [create] and [destroy] of the server.
    - [Listener] ([src/net/listener.cpp]): the constructor and [accept], whose
      results are the accept events of [Server], over the class [ListenerApi].
    - [Startup] ([src/main.cpp], the constructor of [src/server.cpp]): the order in
      which the parts are built and destroyed, and the exit codes.
    - [Calendar], [Logs] ([src/app/access_log.cpp], [src/app/runtime_events.cpp],
      [log_startup] of [src/server.cpp]): the calendar in the timestamp of an access
      line, the lines of both logs and the readers that specify them.
    - [Session], [SessionStreams]: a specification of a whole session in bytes
      ([replies], [wire]) over the class [Peer], with its two instances: plain
      streams, and the TLS streams of [Tls].
    - [ServerRun] ([server::run]): the steps of [Server] together with the calls on
      the accepted sockets, which the accept loop drops and the workers serve with
      [handle_connection].
    - [Tests] ([src/tests]): the unit tests as bools, and requests of the smoke
      tests with the modules and configurations of [src/modules.d].
    - [Deployment]: the start on the whole of [src/modules.d], and requests for
      files from bytes to bytes.

    A connection goes through them as follows: [Server] admits it ([WorkQueue]) and
    a worker calls [handle_connection], which uses a [NetStream] ([Net]) through
    [read_header_block] ([HttpFraming]), [parse] ([HttpRequest]), the request
    handler ([pipeline_handle] of [Pipeline] over [loaded] modules of [ModuleAbi])
    and [serialize] ([HttpResponse]).  Before that, [main] ([Startup]) calls
    [parse] of [CommandLine] for the configuration and [server_new] for the
    listener, the pipeline ([create_request_handler] over
    [load_configured_modules]) and the stream factory.

    ** What the theorems show

    - A connection: whatever happens, [handle_connection] carries out a
      conversation of the specification [conversation]: one request at a time,
      answered in order, logged before it is sent, closed when it has to be
      ([connection_conversation]); it comes to an end ([connection_returns]); what
      HTTPS adds to the answers ([https_hsts]).  Over the streams of the server
      it ends, its socket is closed once and its TLS state is freed before that
      ([connection_resources]).  A peer that sends its requests one at a time
      receives exactly the answers computed from its texts ([session_replies]),
      over the streams of the factory too ([factory_session]), and can tell them
      apart ([wire_read_back]).
    - Logs: the access log is read back line by line and accounts for every answer
      ([access_log_accounts]); the diagnostics are read back likewise
      ([diagnostics_read_back]).
    - Requests: [parse] accepts exactly the text of well-formed requests
      ([parse_accepts]) and says which defect it found ([parse_errors]);
      the header block is the bytes up to the first blank line, however they are
      cut into reads ([read_header_block_spec], [framing_chunk_independent]); when
      the connection is kept ([keep_alive_decision]).
    - Responses: what a receiver finds in a serialized response
      ([serialize_framing]), header updates ([header_updates]), and the gap left by
      the unchecked reason phrase ([reason_adds_header]); both kinds of stream send
      the bytes they are given ([streams_deliver]).
    - Pipeline and ABI: the first module that does not pass decides
      ([pipeline_refines_spec]); a module behind the ABI behaves as in process
      ([loaded_module_transparent]).
    - Modules: each decides as its rules say, alone and inside the pipeline
      ([header_guard_gate], [host_guard_decision], [route_table_first_match],
      [router_match], [router_first_match], [cors_grants], [cors_decision]).  A
      file that is served lies below the document root ([static_containment],
      [static_mapping]); what the other answers are ([static_refusals]).  Every
      configuration that loads gives well-formed rules, and every well-formed rule
      list is the meaning of a configuration ([rule_languages];
      [status_code_exact] for the integers in them).
    - Modules together: a request for a file below a directory, written with single
      slashes, gets to the static files only when the rules for the directory let
      it ([guarded_directory]); a slash more in front of the target and no rule is
      asked ([doubled_slash_bypass]).  The shipped modules answer every request
      ([shipped_pipeline_answers]), and a connection they serve ends with its socket
      released ([shipped_connection]).
    - Rate limits: the buckets stay within their bounds and all conversions are
      defined under any interference ([rate_limit_bounds]); while the clock stands
      still the burst is exact ([rate_limit_burst]).
    - Tokens: which tokens are accepted ([jwt_token_decision]), what that means for
      the requests that get through ([jwt_gate]) and for the others
      ([jwt_refusals]); the decoder ([base64url_roundtrip]) and the claims
      ([json_claims_roundtrip]).
    - Start: which arguments are accepted and what they mean
      ([command_line_grammar], [command_line_type]); which modules are loaded, in
      which order ([module_directory]), and the pipeline they make
      ([server_pipeline]); the lifetimes of libraries and instances
      ([library_lifetimes]); the TLS context is fully set up and checked
      ([tls_context_checked]); the listener is open or nothing is
      ([listener_opens]), and it reports errors by kind ([accept_classifies]); the
      server has what its arguments say ([server_starts]), and [main] ends with 0
      or 1 ([main_exit]).  On the shipped configuration the server gets the eight
      modules in order ([default_start]), the files below [api] are behind the key
      and the limiter ([default_api_files]), except for a doubled slash
      ([default_session]), and every request is answered ([default_answers]).
    - Threads: under every schedule the bounds of the queue, of the workers and of
      the connections per address hold ([admission_bounds]), permits are given back
      exactly ([permits_exact]), the queue is first in first out and loses nothing
      ([work_queue_fifo]), no thread is stuck and no wake-up is lost while a
      connection waits, without counting on wake-ups that nothing causes, and none
      waits for ever ([server_progress]), one address can hold exactly 8 of the
      workers, or all if there are fewer ([client_share]), and a shutdown ends, with every queued connection
      served ([shutdown_drains]).  Every accepted socket is open exactly while a
      thread or the queue has it, and is closed once ([sockets_accounted]);
      [run_covers] shows that the log does not restrict the schedules.
    - Tests: the unit tests pass ([unit_tests_pass]) and the smoke tests give the
      answers they expect ([default_modules_smoke], [router_smoke],
      [keep_alive_smoke], [rate_limit_smoke]), those about overload the same
      rejections ([ip_limit_smoke], [concurrency_smoke]); what happens
      to a request body ([body_read_as_request]).

    ** Fuel and measures

    A loop over indices of a string has the length of the string plus one as fuel,
    which the definition passes itself; its lemma shows that [Diverge] does not
    occur.  The loop over the arguments has one more than their number
    ([command_line_grammar]).  The read loop of the framing has [max_bytes + 1],
    since every read that goes on commits a byte; the loops around [recv] and
    [send] have the bytes left to send plus the interruptions still pending, which
    [SocketApiLaws] takes to be finitely many ([ListenerApiLaws] for [accept]); a
    TLS write takes at least one byte.  The request loop of a connection
    takes its fuel as an argument: [connection_returns] shows that one more than
    the bytes the peer will ever send ([FiniteStream]) is enough.
    [shutdown_drains] bounds the number of steps by a weight of the acceptor and
    the workers ([shutdown_measure]), and [server_progress] those between two
    arrivals by [work_left].

    ** What is not modelled

    Operations of classes, with laws where the code relies on them: the system
    calls, OpenSSL, HMAC, the clock, the file system, the dynamic linker and the
    code of foreign module libraries.  [server::run] is a parameter of [main];
    [ServerRun] runs its steps from the sizes with which the server starts.  The
    locks have no state: a locked section is one function, or one step.  So a call
    of [Logs.log] writes its whole line at once, as the mutex of the access log makes
    it, and the bucket sections of [RateLimit] are whole.  The
    lines about the modules that are being loaded are left out, as are the
    disposition of SIGPIPE, memory exhaustion and the storage duration of views:
    they are copied before the storage they point into can change.  Accessors that
    return a member are the fields of the records; constructors that only keep
    their arguments and the move operations of unique pointers have no definition
    of their own.  [RateWorld] has the buckets of one module instance, so at most
    one module of a pipeline is taken to be a rate limiter. *)

From stdpp Require Export base list strings gmap.
From Stdlib Require Export Ascii ZArith Lia.

(** ** Bytes

    A [std::string] or [std::string_view] is the list of its chars.  String
    literals are read as byte lists. *)

Abbreviation bytes := (list ascii).

Definition of_string (s : string) : bytes := String.list_ascii_of_string s.
Coercion of_string : string >-> list.

(** The unsigned value of a char. *)
Definition code (c : ascii) : Z := Z.of_N (N_of_ascii c).

Definition char_of (z : Z) : ascii := ascii_of_N (Z.to_N (z mod 256)%Z).

(** [lo <= c && c <= hi] on chars. *)
Definition in_range (lo hi c : ascii) : bool :=
  (code lo <=? code c)%Z && (code c <=? code hi)%Z.

(** ** Outcomes of C++ code

    A call returns a value, throws, has undefined behaviour, or does not
    return within the fuel its loop was given. *)

Inductive exn :=
  | runtime_error (what : bytes)
  | invalid_argument (what : bytes)
  | out_of_range.

Inductive outcome (A : Type) :=
  | Ret (a : A)
  | Throw (e : exn)
  | Undef
  | Diverge.
Arguments Ret {A} a.
Arguments Throw {A} e.
Arguments Undef {A}.
Arguments Diverge {A}.

#[export] Instance outcome_ret : MRet outcome := @Ret.
#[export] Instance outcome_bind : MBind outcome := λ A B f m,
  match m with
  | Ret a => f a
  | Throw e => Throw e
  | Undef => Undef
  | Diverge => Diverge
  end.
#[export] Instance outcome_fmap : FMap outcome := λ A B f m,
  match m with
  | Ret a => Ret (f a)
  | Throw e => Throw e
  | Undef => Undef
  | Diverge => Diverge
  end.

(** [try { m } catch (const std::exception& e) { h(e) }] *)
Definition try_catch {A} (m : outcome A) (h : exn → outcome A) : outcome A :=
  match m with
  | Throw e => h e
  | _ => m
  end.

(** [std::expected<A, E>] *)
Inductive expected (A E : Type) :=
  | Expect (a : A)
  | Unexpected (e : E).
Arguments Expect {A E} a.
Arguments Unexpected {A E} e.

(** ** The outcome monad *)

Section Outcome.
Context {A B : Type}.
Implicit Types (m : outcome A) (f : A → outcome B).

Lemma bind_ret (a : A) f : Ret a ≫= f = f a.
Proof. reflexivity. Qed.

Lemma bind_ret_inv m f (b : B) :
  m ≫= f = Ret b → ∃ a, m = Ret a ∧ f a = Ret b.
Proof. destruct m; naive_solver. Qed.

Lemma fmap_ret (a : A) (g : A → B) : g <$> Ret a = Ret (g a).
Proof. reflexivity. Qed.
End Outcome.

Lemma bind_assoc {A B C} (m : outcome A) (f : A → outcome B) (g : B → outcome C) :
  (m ≫= f) ≫= g = m ≫= (λ a, f a ≫= g).
Proof. by destruct m. Qed.

Lemma bind_ext {A B} (m : outcome A) (f g : A → outcome B) :
  (∀ a, m = Ret a → f a = g a) → m ≫= f = m ≫= g.
Proof. destruct m; simpl; naive_solver. Qed.

(** A call that yields a value: no exception, no undefined behaviour, and the
    loops stop. *)
Definition returns {A} (m : outcome A) : Prop := ∃ a, m = Ret a.

Lemma returns_ret {A} (a : A) : returns (Ret a).
Proof. by exists a. Qed.

Lemma returns_bind {A B} (m : outcome A) (f : A → outcome B) :
  returns m → (∀ a, m = Ret a → returns (f a)) → returns (m ≫= f).
Proof. intros [a ->] H. by apply H. Qed.

(** A call that yields a value or throws: it stops and has defined behaviour. *)
Definition defined {A} (m : outcome A) : Prop := m ≠ Undef ∧ m ≠ Diverge.

Lemma defined_ret {A} (a : A) : defined (Ret a).
Proof. done. Qed.

Lemma defined_throw {A} e : defined (@Throw A e).
Proof. done. Qed.

Lemma defined_bind {A B} (m : outcome A) (f : A → outcome B) :
  defined m → (∀ a, m = Ret a → defined (f a)) → defined (m ≫= f).
Proof. intros [H1 H2] Hf. destruct m; try done. by apply Hf. Qed.

(** Code that also changes a state [W]; the state survives an exception. *)
Definition prog (W A : Type) : Type := W → outcome A * W.

#[export] Instance prog_ret {W} : MRet (prog W) := λ A a w, (Ret a, w).
#[export] Instance prog_bind {W} : MBind (prog W) := λ A B f m w,
  match m w with
  | (Ret a, w) => f a w
  | (Throw e, w) => (Throw e, w)
  | (Undef, w) => (Undef, w)
  | (Diverge, w) => (Diverge, w)
  end.

(** Code that does not touch the state. *)
Definition lift {W A} (m : outcome A) : prog W A := λ w, (m, w).

(** A call without a result. *)
Definition effect {W} (call : W → W) : prog W unit := λ w, (Ret tt, call w).

(** An exception of [m] runs [cleanup], as the destructors of a constructor that
    fails do. *)
Definition on_throw {W A} (m : prog W A) (cleanup : W → W) : prog W A := λ w,
  match m w with
  | (Throw e, w) => (Throw e, cleanup w)
  | r => r
  end.

Lemma prog_bind_ret {W A B} (m : prog W A) (f : A → prog W B) w a w' :
  m w = (Ret a, w') → (m ≫= f) w = f a w'.
Proof. unfold mbind, prog_bind. by intros ->. Qed.

Lemma prog_bind_inv {W A B} (m : prog W A) (f : A → prog W B) w b w' :
  (m ≫= f) w = (Ret b, w') → ∃ a w1, m w = (Ret a, w1) ∧ f a w1 = (Ret b, w').
Proof. unfold mbind, prog_bind. destruct (m w) as [[] ?]; naive_solver. Qed.

Lemma on_throw_ret {W A} (m : prog W A) cleanup w a w' :
  on_throw m cleanup w = (Ret a, w') → m w = (Ret a, w').
Proof. unfold on_throw. by destruct (m w) as [[] ?]. Qed.

Lemma lift_bind {W A B} (a : A) (f : A → prog W B) (w : W) : (lift (Ret a) ≫= f) w = f a w.
Proof. reflexivity. Qed.

(** From a world in [P] the program returns or throws, and ends in [P]. *)
Definition stays {W A} (P : W → Prop) (m : prog W A) : Prop :=
  ∀ w, P w → defined (m w).1 ∧ P (m w).2.

Lemma stays_ret {W A} (P : W → Prop) (a : A) : stays P (mret a : prog W A).
Proof. by intros w Hw. Qed.

Lemma stays_lift {W A} (P : W → Prop) (o : outcome A) : defined o → stays P (lift o : prog W A).
Proof. by intros Ho w Hw. Qed.

Lemma stays_bind {W A B} (P : W → Prop) (m : prog W A) (f : A → prog W B) :
  stays P m → (∀ a, stays P (f a)) → stays P (m ≫= f).
Proof.
  intros Hm Hf w Hw. destruct (Hm w Hw) as [[Hu Hd] Hw1]. unfold mbind, prog_bind.
  destruct (m w) as [[a|e| |] w1]; try done. by apply Hf.
Qed.

Create HintDb stays.
#[export] Hint Resolve stays_ret stays_lift stays_bind : stays.

(** A call whose result decides what is added to a log. *)
Definition watch {W E A} (events : A → list E) (call : W → A * W) : W * list E → A * (W * list E) :=
  λ '(w, t), let '(a, w) := call w in (a, (w, t ++ events a)).

Create HintDb cpp.
Create Rewrite HintDb cpp.
#[export] Hint Resolve returns_ret defined_ret defined_throw : cpp.
#[export] Hint Rewrite @bind_ret @fmap_ret : cpp.

(** Split a hypothesis [m ≫= f = Ret b] into the value of [m] and the rest. *)
Ltac inv_bind H :=
  let a := fresh "a" in let Ha := fresh "Ha" in
  apply bind_ret_inv in H as (a & Ha & H).

(** ** Bytes and chars *)

Definition all_chars : list ascii := char_of <$> seqZ 0 256.

Lemma elem_of_all_chars c : c ∈ all_chars.
Proof.
  assert (H : ∀ c, bool_decide (c ∈ all_chars) = true)
    by (intros [[] [] [] [] [] [] [] []]; vm_compute; reflexivity).
  by eapply bool_decide_eq_true, H.
Qed.

(** A boolean fact about every char is checked on the 256 of them. *)
Lemma char_forall (P : ascii → bool) :
  forallb P all_chars = true → ∀ c, P c = true.
Proof.
  intros H c. rewrite forallb_forall in H.
  apply H, list_elem_of_In, elem_of_all_chars.
Qed.

(** [c] is a variable of the goal [P c = true]. *)
Ltac by_chars c := revert c; apply char_forall; vm_compute; reflexivity.

Lemma char_impl (P Q : ascii → bool) :
  forallb (λ c, implb (P c) (Q c)) all_chars = true → ∀ c, P c = true → Q c = true.
Proof.
  intros H c HP. pose proof (char_forall _ H c) as Hc. simpl in Hc. by rewrite HP in Hc.
Qed.

(** [P c = true → Q c = true] by enumeration. *)
Ltac by_char_impl := apply char_impl; vm_compute; reflexivity.

Lemma code_range c : (0 ≤ code c < 256)%Z.
Proof.
  unfold code. pose proof (N_ascii_bounded c). lia.
Qed.

Lemma char_of_code c : char_of (code c) = c.
Proof.
  unfold char_of. rewrite Z.mod_small by apply code_range.
  unfold code. rewrite N2Z.id. apply ascii_N_embedding.
Qed.

Lemma code_char_of z : code (char_of z) = (z mod 256)%Z.
Proof.
  unfold code, char_of. pose proof (Z.mod_pos_bound z 256).
  rewrite N_ascii_embedding by lia. lia.
Qed.

Lemma code_inj c d : code c = code d → c = d.
Proof. intros H. by rewrite <- (char_of_code c), H, char_of_code. Qed.

Lemma forallb_Forall {A} (p : A → bool) l : forallb p l = true ↔ Forall (λ x, p x = true) l.
Proof. rewrite forallb_forall, List.Forall_forall. done. Qed.

(** ** Lists

    [lstrip], [rstrip] and [strip] remove chars at the ends; [search] is the
    position of a first occurrence; [split_on] cuts at a delimiter.  They are
    the reference definitions the index loops of the code are compared with. *)

Fixpoint lstrip (p : ascii → bool) (s : bytes) : bytes :=
  match s with
  | [] => []
  | c :: s' => if p c then lstrip p s' else s
  end.

Definition rstrip (p : ascii → bool) (s : bytes) : bytes := reverse (lstrip p (reverse s)).

Definition strip (p : ascii → bool) (s : bytes) : bytes := rstrip p (lstrip p s).

Fixpoint prefixb (p s : bytes) : bool :=
  match p, s with
  | [], _ => true
  | c :: p', d :: s' => Ascii.eqb c d && prefixb p' s'
  | _ :: _, [] => false
  end.

Fixpoint search (p s : bytes) : option nat :=
  if prefixb p s then Some 0 else
  match s with
  | [] => None
  | _ :: s' => S <$> search p s'
  end.

Fixpoint split_on (d : ascii) (s : bytes) : list bytes :=
  match s with
  | [] => [[]]
  | c :: s' =>
      if Ascii.eqb c d then [] :: split_on d s'
      else match split_on d s' with
           | [] => [[c]]
           | p :: ps => (c :: p) :: ps
           end
  end.

Fixpoint join (d : ascii) (ps : list bytes) : bytes :=
  match ps with
  | [] => []
  | [p] => p
  | p :: ps' => p ++ d :: join d ps'
  end.

Lemma lstrip_drop p s : lstrip p s = drop (length s - length (lstrip p s)) s ∧
  length (lstrip p s) ≤ length s.
Proof.
  induction s as [|c s [IH IHl]]; simpl; [done|].
  destruct (p c); simpl.
  - split; [|lia]. rewrite Nat.sub_succ_l by done. done.
  - by rewrite Nat.sub_diag.
Qed.

Lemma lstrip_app p u v : Forall (λ c, p c = true) u → lstrip p (u ++ v) = lstrip p v.
Proof. induction 1 as [|c u Hc _ IH]; simpl; [done|]. by rewrite Hc. Qed.

Lemma lstrip_id p s : (∀ c, head s = Some c → p c = false) → lstrip p s = s.
Proof. destruct s as [|c s]; simpl; [done|]. intros H. by rewrite H. Qed.

Lemma lstrip_head p s c : head (lstrip p s) = Some c → p c = false.
Proof. induction s as [|d s IH]; simpl; [done|]. destruct (p d) eqn:?; naive_solver. Qed.

Lemma lstrip_split p s : ∃ u, s = u ++ lstrip p s ∧ Forall (λ c, p c = true) u.
Proof.
  induction s as [|c s (u & Hu & HF)]; simpl; [by exists []|].
  destruct (p c) eqn:Hc; [|by exists []].
  exists (c :: u). split; [simpl; congruence|by constructor].
Qed.

Lemma rstrip_app p u v : Forall (λ c, p c = true) v → rstrip p (u ++ v) = rstrip p u.
Proof.
  intros H. unfold rstrip. rewrite reverse_app, lstrip_app; [done|].
  by rewrite Forall_reverse.
Qed.

Lemma rstrip_id p s : (∀ c, last s = Some c → p c = false) → rstrip p s = s.
Proof.
  intros H. unfold rstrip. rewrite lstrip_id; [apply reverse_involutive|].
  intros c. rewrite head_reverse. apply H.
Qed.

Lemma rstrip_last p s c : last (rstrip p s) = Some c → p c = false.
Proof. unfold rstrip. rewrite last_reverse. apply lstrip_head. Qed.

Lemma rstrip_split p s : ∃ v, s = rstrip p s ++ v ∧ Forall (λ c, p c = true) v.
Proof.
  destruct (lstrip_split p (reverse s)) as (u & Hu & HF).
  exists (reverse u). rewrite Forall_reverse. split; [|done].
  unfold rstrip. by rewrite <- reverse_app, <- Hu, reverse_involutive.
Qed.

(** [trimmed p s]: neither end of [s] satisfies [p]. *)
Definition trimmed (p : ascii → bool) (s : bytes) : Prop :=
  (∀ c, head s = Some c → p c = false) ∧ (∀ c, last s = Some c → p c = false).

Lemma strip_trimmed p s : trimmed p (strip p s).
Proof.
  split; intros c Hc; [|by eapply rstrip_last].
  unfold strip in Hc. destruct (rstrip_split p (lstrip p s)) as (v & Hv & _).
  apply (lstrip_head p s). rewrite Hv. by destruct (rstrip p (lstrip p s)).
Qed.

Lemma strip_split p s : ∃ u v, s = u ++ strip p s ++ v ∧
  Forall (λ c, p c = true) u ∧ Forall (λ c, p c = true) v.
Proof.
  destruct (lstrip_split p s) as (u & Hu & HFu).
  destruct (rstrip_split p (lstrip p s)) as (v & Hv & HFv).
  exists u, v. unfold strip. by rewrite <- Hv.
Qed.

Lemma strip_id p s : trimmed p s → strip p s = s.
Proof. intros [H1 H2]. unfold strip. rewrite lstrip_id by done. by apply rstrip_id. Qed.

Lemma strip_pad p u s v :
  Forall (λ c, p c = true) u → Forall (λ c, p c = true) v → trimmed p s →
  strip p (u ++ s ++ v) = s.
Proof.
  intros Hu Hv [Hh Hl]. unfold strip. rewrite lstrip_app by done.
  destruct s as [|c s]; simpl.
  - rewrite <- (app_nil_r v), lstrip_app by done. done.
  - rewrite (Hh c) by done.
    change (c :: s ++ v) with ((c :: s) ++ v). by rewrite rstrip_app, rstrip_id.
Qed.

Lemma strip_strip p s : strip p (strip p s) = strip p s.
Proof. apply strip_id, strip_trimmed. Qed.

Lemma strip_sublist p s c : c ∈ strip p s → c ∈ s.
Proof.
  destruct (strip_split p s) as (u & v & Hs & _). intros Hc. rewrite Hs.
  rewrite !elem_of_app. auto.
Qed.

(** *** Prefixes and first occurrences *)

Lemma prefixb_spec p s : prefixb p s = true ↔ p `prefix_of` s.
Proof.
  revert s. induction p as [|c p IH]; intros s; simpl; [split; [intros _; apply prefix_nil|done]|].
  destruct s as [|d s]; [split; [done|by intros H%prefix_nil_inv]|].
  rewrite andb_true_iff, IH, Ascii.eqb_eq. split.
  - intros [-> H]. by apply prefix_cons.
  - intros H. split; [by eapply prefix_cons_inv_1|by eapply prefix_cons_inv_2].
Qed.

Lemma prefixb_app p s : prefixb p (p ++ s) = true.
Proof. apply prefixb_spec. by exists s. Qed.

Lemma search_split p s i :
  search p s = Some i → s = take i s ++ p ++ drop (i + length p) s.
Proof.
  revert i. induction s as [|c s IH]; intros i; simpl.
  - destruct (prefixb p []) eqn:Hp; [|done]. intros [= <-].
    apply prefixb_spec, prefix_nil_inv in Hp. by subst.
  - destruct (prefixb p (c :: s)) eqn:Hp.
    + intros [= <-]. apply prefixb_spec in Hp as [k Hk]. simpl.
      rewrite Hk at 2. by rewrite drop_app_length.
    + destruct (search p s) as [j|] eqn:Hs; [|done]. intros [= <-]. simpl.
      f_equal. by apply IH.
Qed.

Lemma search_length p s i : search p s = Some i → i + length p ≤ length s.
Proof.
  revert i. induction s as [|c s IH]; intros i; simpl.
  - destruct (prefixb p []) eqn:Hp; [|done]. intros [= <-].
    apply prefixb_spec, prefix_nil_inv in Hp. by subst.
  - destruct (prefixb p (c :: s)) eqn:Hp.
    + intros [= <-]. by apply prefixb_spec, prefix_length in Hp.
    + destruct (search p s) as [j|]; [|done]. intros [= <-].
      specialize (IH j eq_refl). lia.
Qed.

(** A first occurrence stays the first when the string is extended. *)
Lemma prefixb_extend p s t : prefixb p s = true → prefixb p (s ++ t) = true.
Proof. rewrite !prefixb_spec. intros H. by apply prefix_app_r. Qed.

Lemma search_extend p s t i : search p s = Some i → search p (s ++ t) = Some i.
Proof.
  revert i. induction s as [|c s IH]; intros i.
  - simpl. destruct (prefixb p []) eqn:Hp; [|done]. intros [= <-].
    apply (prefixb_extend _ _ t) in Hp. simpl in Hp. destruct t; simpl; by rewrite Hp.
  - cbn [search app]. destruct (prefixb p (c :: s)) eqn:Hp.
    + intros [= <-]. apply (prefixb_extend _ _ t) in Hp. simpl in Hp. simpl. by rewrite Hp.
    + destruct (search p s) as [j|] eqn:Hs; [|done]. intros [= <-].
      destruct (prefixb p (c :: s ++ t)) eqn:Hp'; [|by rewrite (IH j)].
      apply prefixb_spec in Hp' as [k Hk]. pose proof (search_length _ _ _ Hs) as Hl.
      exfalso. rewrite (proj2 (prefixb_spec p (c :: s))) in Hp; [done|].
      exists (drop (length p) (c :: s)).
      rewrite <- (take_drop (length p) (c :: s)) at 1. f_equal.
      apply (f_equal (take (length p))) in Hk. rewrite take_app_length in Hk.
      transitivity (take (length p) ((c :: s) ++ t)); [|exact Hk].
      symmetry. apply (take_app_le (c :: s)). simpl. lia.
Qed.

(** A needle whose first char is not in [a] is first found after [a]. *)
Lemma search_app c p a b : c ∉ a → search (c :: p) (a ++ (c :: p) ++ b) = Some (length a).
Proof.
  induction a as [|d a IH]; intros Ha.
  - change ([] ++ (c :: p) ++ b) with ((c :: p) ++ b).
    pose proof (prefixb_app (c :: p) b) as H. simpl in *. by rewrite H.
  - apply not_elem_of_cons in Ha as [Hne Ha]. simpl in *.
    apply Ascii.eqb_neq in Hne. by rewrite Hne, IH by done.
Qed.

Lemma search_char_None c s : search [c] s = None ↔ c ∉ s.
Proof.
  induction s as [|d s IH]; simpl; [split; [intros _; apply not_elem_of_nil|done]|].
  rewrite not_elem_of_cons. destruct (Ascii.eqb_spec c d) as [->|Hne]; simpl; [by intuition|].
  rewrite <- IH. destruct (search [c] s); simpl; intuition congruence.
Qed.

Lemma search_char_Some c s i :
  search [c] s = Some i → (c ∉ take i s) ∧ s = take i s ++ c :: drop (S i) s.
Proof.
  intros H. split; [|rewrite (search_split _ _ _ H) at 1; simpl; (by rewrite Nat.add_1_r)].
  revert i H. induction s as [|d s IH]; intros i; simpl; [done|].
  destruct (Ascii.eqb_spec c d) as [->|Hne]; simpl; [intros [= <-]; apply not_elem_of_nil|].
  destruct (search [c] s) as [j|]; [|done]. intros [= <-]. simpl.
  apply not_elem_of_cons. split; [done|]. by apply IH.
Qed.

(** A needle occurs only where its first char does. *)
Lemma search_char_le c p s i :
  search (c :: p) s = Some i → ∃ j, search [c] s = Some j ∧ j ≤ i.
Proof.
  intros H. destruct (search [c] s) as [j|] eqn:Hj.
  - exists j. split; [done|]. apply search_char_Some in Hj as [Hnot _].
    destruct (decide (j ≤ i)) as [|Hlt]; [done|]. exfalso. apply Hnot.
    apply search_split in H. rewrite H, take_app_ge by (rewrite length_take; lia).
    rewrite length_take. apply elem_of_app; right.
    replace (j - i `min` length s) with (S (j - i `min` length s - 1)) by lia.
    simpl. constructor.
  - exfalso. apply search_char_None in Hj. apply Hj.
    apply search_split in H. rewrite H. set_solver.
Qed.

(** *** Cutting at a delimiter *)

Lemma split_on_cons d s : ∃ p ps, split_on d s = p :: ps.
Proof.
  destruct s as [|c s]; simpl; [eauto|]. destruct (Ascii.eqb c d); [eauto|].
  destruct (split_on d s); eauto.
Qed.

Lemma split_on_app d a b : d ∉ a → split_on d (a ++ d :: b) = a :: split_on d b.
Proof.
  induction a as [|c a IH]; simpl; [by rewrite Ascii.eqb_refl|].
  rewrite not_elem_of_cons. intros [Hne Ha].
  rewrite (proj2 (Ascii.eqb_neq c d)) by done. by rewrite IH.
Qed.

Lemma split_on_none d a : d ∉ a → split_on d a = [a].
Proof.
  induction a as [|c a IH]; simpl; [done|].
  rewrite not_elem_of_cons. intros [Hne Ha].
  rewrite (proj2 (Ascii.eqb_neq c d)) by done. by rewrite IH.
Qed.

Lemma join_cons d p ps : ps ≠ [] → join d (p :: ps) = p ++ d :: join d ps.
Proof. by destruct ps. Qed.

Lemma join_split_on d s : join d (split_on d s) = s.
Proof.
  induction s as [|c s IH]; simpl; [done|].
  destruct (split_on_cons d s) as (p & ps & Hs). rewrite Hs in *.
  destruct (Ascii.eqb_spec c d) as [->|]; simpl; [by f_equal|].
  rewrite <- IH. by destruct ps.
Qed.

Lemma split_on_join d ps :
  ps ≠ [] → Forall (λ p, d ∉ p) ps → split_on d (join d ps) = ps.
Proof.
  intros Hne HF. induction HF as [|p ps Hp HF IH]; [done|].
  destruct ps as [|q ps]; [by apply split_on_none|].
  rewrite join_cons, split_on_app by done. by rewrite IH.
Qed.

Lemma split_on_Forall d s : Forall (λ p, d ∉ p) (split_on d s).
Proof.
  induction s as [|c s IH]; simpl; [constructor; [apply not_elem_of_nil|done]|].
  destruct (Ascii.eqb_spec c d); [constructor; [apply not_elem_of_nil|done]|].
  destruct (split_on d s) as [|p ps].
  - constructor; [|done]. by apply not_elem_of_cons; split; [|apply not_elem_of_nil].
  - inversion_clear IH. constructor; [|done]. by apply not_elem_of_cons.
Qed.

(** *** Updates by index *)

Lemma elem_of_insert_inv {A} (l : list A) i x y : y ∈ <[i := x]> l → y = x ∨ y ∈ l.
Proof.
  intros [j Hj]%list_elem_of_lookup_1. destruct (decide (i = j)) as [<-|Hne].
  - left. destruct (decide (i < length l)) as [Hlt|Hge].
    + rewrite list_lookup_insert_eq in Hj by done. congruence.
    + rewrite list_insert_ge in Hj by lia. apply lookup_lt_Some in Hj. lia.
  - rewrite list_lookup_insert_ne in Hj by done. right. by eapply list_elem_of_lookup_2.
Qed.

(** The references are used through their lemmas, not by unfolding. *)
#[global] Arguments search : simpl never.
#[global] Arguments split_on : simpl never.
#[global] Arguments strip : simpl never.
#[global] Arguments code : simpl never.
#[global] Arguments char_of : simpl never.
#[global] Arguments in_range : simpl never.
