(* ===== verification/StringView.v ===== *)
(** * [std::string_view] and [std::string]

    The operations of the standard string types the server uses, with the
    exceptions and the undefined behaviour of out-of-range positions, and the
    index loops (trimming, cutting at a delimiter) that every component of the
    server repeats.  Each loop is compared with its reference definition of
    [Prelude]: the loop stops, never reads out of range, and returns what the
    reference returns. *)

From S2P Require Import Prelude.

Implicit Types (s : bytes) (pos n begin fuel : nat) (c d : ascii).

(** ** The library operations *)

(** [s[i]]: undefined behaviour out of range. *)
Definition char_at s (i : nat) : outcome ascii :=
  match s !! i with
  | Some c => Ret c
  | None => Undef
  end.

(** [s.substr(pos, n)]: throws when [pos > s.size()], clips [n]. *)
Definition substr s pos n : outcome bytes :=
  if pos <=? length s then Ret (take n (drop pos s)) else Throw out_of_range.

(** [s.substr(pos)] *)
Definition substr_from s pos : outcome bytes := substr s pos (length s).

(** [s.find(needle, pos)]; [None] is [npos]. *)
Definition find s needle pos : option nat :=
  if pos <=? length s then Nat.add pos <$> search needle (drop pos s) else None.

(** [s.find(c, pos)] *)
Definition find_char s c pos : option nat := find s [c] pos.

(** [s.rfind(c)]: the last occurrence. *)
Definition rfind_char s c : option nat :=
  (λ i, length s - S i) <$> search [c] (reverse s).

(** [a == b] on strings. *)
Definition bytes_eqb (a b : bytes) : bool := bool_decide (a = b).

Definition nul : ascii := "000".

(** What C code reads from [s.c_str()]: the text before the first null char. *)
Fixpoint c_str s : bytes :=
  match s with
  | [] => []
  | c :: s => if Ascii.eqb c nul then [] else c :: c_str s
  end.

(** ** Char classes of the "C" locale *)

Definition is_space c : bool := in_range "009" "013" c || Ascii.eqb c " ".
Definition to_upper c : ascii :=
  if in_range "a" "z" c then char_of (code c - 32) else c.
Definition to_lower c : ascii :=
  if in_range "A" "Z" c then char_of (code c + 32) else c.

(** ** Trimming: two loops over indices *)

(** [while (begin < value.size() && p(value[begin])) ++begin;] *)
Fixpoint scan_right fuel (p : ascii → bool) s begin : outcome nat :=
  match fuel with
  | O => Diverge
  | S fuel =>
      if begin <? length s then
        c ← char_at s begin;
        if p c then scan_right fuel p s (S begin) else Ret begin
      else Ret begin
  end.

(** [while (end > begin && p(value[end - 1])) --end;] *)
Fixpoint scan_left fuel (p : ascii → bool) s begin (end_ : nat) : outcome nat :=
  match fuel with
  | O => Diverge
  | S fuel =>
      if begin <? end_ then
        c ← char_at s (end_ - 1);
        if p c then scan_left fuel p s begin (end_ - 1) else Ret end_
      else Ret end_
  end.

(** [value.substr(begin, end - begin)] after both loops. *)
Definition trim_by (p : ascii → bool) s : outcome bytes :=
  begin ← scan_right (S (length s)) p s 0;
  end_ ← scan_left (S (length s)) p s begin (length s);
  substr s begin (end_ - begin).

(** The config code's [trim], with [std::isspace]. *)
Definition trim s : outcome bytes := trim_by is_space s.

(** ** Cutting at a delimiter

    [while (begin <= text.size()) { end = text.find(d, begin) or text.size();
    ...body(text.substr(begin, end - begin))...; if (end == text.size()) break;
    begin = end + 1; }] with a body that updates a state or returns early. *)
Section EachPiece.
Context {S R : Type} (body : S → bytes → outcome (S + R)) (after : S → outcome R).

Fixpoint each_piece_from fuel (text : bytes) d (begin : nat) (st : S) : outcome R :=
  match fuel with
  | O => Diverge
  | Datatypes.S fuel =>
      if begin <=? length text then
        let end_ := default (length text) (find_char text d begin) in
        piece ← substr text begin (end_ - begin);
        r ← body st piece;
        match r with
        | inr r => Ret r
        | inl st =>
            if end_ =? length text then after st
            else each_piece_from fuel text d (end_ + 1) st
        end
      else after st
  end.

Definition each_piece (text : bytes) d (st : S) : outcome R :=
  each_piece_from (Datatypes.S (length text)) text d 0 st.

(** The reference: a fold over the pieces, with early exit. *)
Fixpoint fold_pieces (ps : list bytes) (st : S) : outcome R :=
  match ps with
  | [] => after st
  | p :: ps =>
      r ← body st p;
      match r with
      | inr r => Ret r
      | inl st => fold_pieces ps st
      end
  end.
End EachPiece.

(** [split_fields(value, delimiter)] *)
Definition split_fields s d : outcome (list bytes) :=
  each_piece (λ fields piece, field ← trim piece; Ret (inl (fields ++ [field]))) Ret s d [].

(** ** The loops meet their references *)

Lemma substr_ret s pos n : pos ≤ length s → substr s pos n = Ret (take n (drop pos s)).
Proof. intros H. unfold substr. by rewrite (proj2 (Nat.leb_le _ _)). Qed.

Lemma substr_from_ret s pos : pos ≤ length s → substr_from s pos = Ret (drop pos s).
Proof.
  intros H. unfold substr_from. rewrite substr_ret by done.
  rewrite take_ge; [done|]. rewrite length_drop. lia.
Qed.

Lemma char_at_ret s i c : s !! i = Some c → char_at s i = Ret c.
Proof. unfold char_at. by intros ->. Qed.

Lemma scan_right_spec p s fuel begin :
  length s < fuel + begin → begin ≤ length s →
  scan_right fuel p s begin = Ret (length s - length (lstrip p (drop begin s))).
Proof.
  revert begin. induction fuel as [|fuel IH]; intros begin Hf Hb; [lia|]. simpl.
  destruct (Nat.ltb_spec begin (length s)) as [Hlt|Hge].
  - destruct (lookup_lt_is_Some_2 s begin Hlt) as [c Hc].
    rewrite (char_at_ret _ _ c) by done. autorewrite with cpp.
    rewrite (drop_S s c begin) by done. simpl. destruct (p c).
    + rewrite IH by lia. done.
    + simpl. rewrite length_drop. f_equal. lia.
  - rewrite drop_ge by lia. simpl. f_equal. lia.
Qed.

Lemma lstrip_reverse_snoc p u c :
  lstrip p (reverse (u ++ [c])) = if p c then lstrip p (reverse u) else reverse (u ++ [c]).
Proof. rewrite reverse_app. simpl. by destruct (p c). Qed.

Lemma scan_left_spec p s fuel begin (e : nat) :
  e < fuel + begin → begin ≤ e → e ≤ length s →
  scan_left fuel p s begin e
  = Ret (begin + length (rstrip p (take (e - begin) (drop begin s)))).
Proof.
  revert e. induction fuel as [|fuel IH]; intros e Hf Hb He; [lia|]. simpl.
  destruct (Nat.ltb_spec begin e) as [Hlt|Hge].
  - destruct (lookup_lt_is_Some_2 s (e - 1)) as [c Hc]; [lia|].
    rewrite (char_at_ret _ _ c) by done. autorewrite with cpp.
    assert (Ht : take (e - begin) (drop begin s) = take (e - 1 - begin) (drop begin s) ++ [c]).
    { replace (e - begin) with (S (e - 1 - begin)) by lia. apply take_S_r.
      rewrite lookup_drop, <- Hc. f_equal. lia. }
    unfold rstrip. rewrite Ht, lstrip_reverse_snoc. destruct (p c).
    + rewrite IH by lia. done.
    + rewrite reverse_involutive, <- Ht, length_take, length_drop. f_equal. lia.
  - replace (e - begin) with 0 by lia. simpl. f_equal. lia.
Qed.

Theorem trim_by_ret p s : trim_by p s = Ret (strip p s).
Proof.
  unfold trim_by. rewrite scan_right_spec by lia. autorewrite with cpp. rewrite drop_0.
  destruct (lstrip_drop p s) as [Hd Hl].
  set (b := length s - length (lstrip p s)) in *.
  rewrite scan_left_spec by (unfold b; lia). autorewrite with cpp.
  rewrite <- Hd, take_ge by (unfold b; lia).
  destruct (rstrip_split p (lstrip p s)) as (v & Hv & _).
  assert (Hlen : length (rstrip p (lstrip p s)) ≤ length (lstrip p s)).
  { rewrite Hv at 2. rewrite length_app. lia. }
  rewrite substr_ret by (unfold b; lia). f_equal.
  replace (b + _ - b) with (length (rstrip p (lstrip p s))) by lia.
  rewrite <- Hd. unfold strip. set (r := rstrip p (lstrip p s)) in *.
  transitivity (take (length r) (r ++ v)); [by rewrite <- Hv|apply take_app_length].
Qed.

Lemma trim_ret s : trim s = Ret (strip is_space s).
Proof. apply trim_by_ret. Qed.

Lemma bytes_eqb_nil s : bytes_eqb s [] = false ↔ s ≠ [].
Proof. unfold bytes_eqb. by rewrite bool_decide_eq_false. Qed.

Lemma find_drop s needle pos :
  pos ≤ length s → find s needle pos = Nat.add pos <$> search needle (drop pos s).
Proof. intros H. unfold find. by rewrite (proj2 (Nat.leb_le _ _)). Qed.

Section EachPieceSpec.
Context {S R : Type} (body : S → bytes → outcome (S + R)) (after : S → outcome R).

Lemma each_piece_from_spec fuel text d begin st :
  length text < fuel + begin → begin ≤ length text →
  each_piece_from body after fuel text d begin st
  = fold_pieces body after (split_on d (drop begin text)) st.
Proof.
  revert begin st. induction fuel as [|fuel IH]; intros begin st Hf Hb; [lia|]. simpl.
  rewrite (proj2 (Nat.leb_le begin (length text))) by done.
  unfold find_char. rewrite find_drop by done.
  destruct (search [d] (drop begin text)) as [i|] eqn:Hs; simpl.
  - pose proof (search_length _ _ _ Hs) as Hl. simpl in Hl. rewrite length_drop in Hl.
    apply search_char_Some in Hs as [Hnot Hsplit].
    rewrite substr_ret by done. autorewrite with cpp.
    replace (begin + i - begin) with i by lia.
    assert (Hp : split_on d (drop begin text)
      = take i (drop begin text) :: split_on d (drop (Datatypes.S i) (drop begin text)))
      by (rewrite Hsplit at 1; by apply split_on_app).
    rewrite Hp. simpl.
    apply bind_ext. intros [st'|r] _; [|done].
    rewrite (proj2 (Nat.eqb_neq _ _)) by lia. rewrite IH by lia.
    rewrite drop_drop. do 2 f_equal. f_equal. lia.
  - apply search_char_None in Hs.
    rewrite substr_ret by done. autorewrite with cpp.
    rewrite split_on_none by done. rewrite take_ge by (rewrite length_drop; lia). simpl.
    apply bind_ext. intros [st'|r] _; [|done]. by rewrite Nat.eqb_refl.
Qed.

Theorem each_piece_spec text d st :
  each_piece body after text d st = fold_pieces body after (split_on d text) st.
Proof. unfold each_piece. rewrite each_piece_from_spec by lia. by rewrite drop_0. Qed.

Lemma fold_pieces_returns ps st :
  (∀ st p, returns (body st p)) → (∀ st, returns (after st)) →
  returns (fold_pieces body after ps st).
Proof.
  intros Hb Ha. revert st. induction ps as [|p ps IH]; intros st; simpl; [apply Ha|].
  apply returns_bind; [apply Hb|]. intros [st'|r] _; [apply IH|apply returns_ret].
Qed.

Lemma fold_pieces_defined ps st :
  (∀ st p, defined (body st p)) → (∀ st, defined (after st)) →
  defined (fold_pieces body after ps st).
Proof.
  intros Hb Ha. revert st. induction ps as [|p ps IH]; intros st; simpl; [apply Ha|].
  apply defined_bind; [apply Hb|]. intros [st'|r] _; [apply IH|apply defined_ret].
Qed.
End EachPieceSpec.

(** A body that only appends a pure image of the piece: the loop is a [map]. *)
Lemma fold_pieces_map {A R} (f : bytes → A) (g : list A → outcome R) ps acc :
  fold_pieces (λ acc p, Ret (inl (acc ++ [f p]))) g ps acc = g (acc ++ (f <$> ps)).
Proof.
  revert acc. induction ps as [|p ps IH]; intros acc; simpl; [by rewrite app_nil_r|].
  rewrite IH. by rewrite <- app_assoc.
Qed.

Lemma fold_pieces_ext {S R} (b1 b2 : S → bytes → outcome (S + R)) g ps st :
  (∀ st p, b1 st p = b2 st p) → fold_pieces b1 g ps st = fold_pieces b2 g ps st.
Proof.
  intros H. revert st. induction ps as [|p ps IH]; intros st; simpl; [done|].
  rewrite H. apply bind_ext. intros [?|?] _; auto.
Qed.

Theorem split_fields_ret s d : split_fields s d = Ret (strip is_space <$> split_on d s).
Proof.
  unfold split_fields. rewrite each_piece_spec.
  rewrite (fold_pieces_ext _ (λ acc p, Ret (inl (acc ++ [strip is_space p]))))
    by (intros; by rewrite trim_ret).
  exact (fold_pieces_map (strip is_space) Ret (split_on d s) []).
Qed.

#[export] Hint Rewrite trim_ret split_fields_ret trim_by_ret : cpp.

(** ** Decimal integers *)

Definition is_digit c : bool := in_range "0" "9" c.
Definition digit_value c : Z := (code c - code "0")%Z.
Definition digit_char (z : Z) : ascii := char_of (z + code "0")%Z.

(** [INT_MAX] of the 32-bit [int]. *)
Definition int_max : Z := 2147483647.

Fixpoint decimal_from fuel (z : Z) (acc : bytes) : bytes :=
  match fuel with
  | O => acc
  | S fuel =>
      if (z <? 10)%Z then digit_char z :: acc
      else decimal_from fuel (z / 10)%Z (digit_char (z mod 10)%Z :: acc)
  end.

(** [std::to_string] and [operator<<] of an integer. *)
Definition to_string (z : Z) : bytes :=
  if (z <? 0)%Z then "-"%char :: decimal_from (S (Z.to_nat (Z.log2 (- z)))) (- z) []
  else decimal_from (S (Z.to_nat (Z.log2 z))) z [].

(** [v = v * 10 + (ch - '0')] over the chars, on an [int]: a char that is not
    a digit throws [bad], an overflow is undefined behaviour. *)
Fixpoint parse_int_digits (bad : exn) s (v : Z) : outcome Z :=
  match s with
  | [] => Ret v
  | c :: s =>
      if negb (is_digit c) then Throw bad else
      let v := (v * 10 + digit_value c)%Z in
      if (v <=? int_max)%Z then parse_int_digits bad s v else Undef
  end.

(** The number a digit string denotes. *)
Definition decimal_value s : Z := foldl (λ v c, v * 10 + digit_value c)%Z 0%Z s.

Lemma digit_value_range c : is_digit c = true → (0 ≤ digit_value c ≤ 9)%Z.
Proof.
  unfold is_digit, in_range, digit_value. rewrite andb_true_iff, !Z.leb_le.
  change (code "9") with (code "0" + 9)%Z. lia.
Qed.

Lemma digit_char_spec z : (0 ≤ z ≤ 9)%Z →
  is_digit (digit_char z) = true ∧ digit_value (digit_char z) = z.
Proof.
  intros Hz. unfold is_digit, in_range, digit_value, digit_char.
  rewrite code_char_of. change (code "9") with 57%Z. change (code "0") with 48%Z.
  rewrite Z.mod_small by lia. rewrite andb_true_iff, !Z.leb_le. lia.
Qed.

Lemma foldl_digits_app a b v :
  foldl (λ v c, v * 10 + digit_value c)%Z v (a ++ b)
  = foldl (λ v c, v * 10 + digit_value c)%Z (foldl (λ v c, v * 10 + digit_value c)%Z v a) b.
Proof. apply foldl_app. Qed.

Lemma foldl_digits_mono s v :
  (0 ≤ v)%Z → Forall (λ c, is_digit c = true) s →
  (v ≤ foldl (λ v c, v * 10 + digit_value c) v s)%Z.
Proof.
  intros Hv H. revert v Hv. induction H as [|c s Hc _ IH]; intros v Hv; simpl; [lia|].
  apply digit_value_range in Hc. specialize (IH (v * 10 + digit_value c)%Z). lia.
Qed.

Lemma parse_int_digits_ret bad s v :
  (0 ≤ v)%Z → Forall (λ c, is_digit c = true) s →
  (foldl (λ v c, v * 10 + digit_value c) v s ≤ int_max)%Z →
  parse_int_digits bad s v = Ret (foldl (λ v c, v * 10 + digit_value c)%Z v s).
Proof.
  intros Hv H. revert v Hv. induction H as [|c s Hc Hs IH]; intros v Hv Hmax; [done|].
  simpl in *. rewrite Hc. simpl. apply digit_value_range in Hc.
  pose proof (foldl_digits_mono s (v * 10 + digit_value c)%Z ltac:(lia) Hs).
  rewrite (proj2 (Z.leb_le _ _)) by lia. apply IH; [lia|done].
Qed.

Lemma parse_int_digits_inv bad s (v n : Z) :
  parse_int_digits bad s v = Ret n →
  Forall (λ c, is_digit c = true) s ∧ n = foldl (λ v c, v * 10 + digit_value c)%Z v s ∧
  (v ≤ int_max → n ≤ int_max)%Z.
Proof.
  revert v. induction s as [|c s IH]; intros v; simpl.
  - intros [= <-]. by split_and!.
  - destruct (is_digit c) eqn:Hc; simpl; [|done].
    destruct (Z.leb_spec (v * 10 + digit_value c) int_max); [|done].
    intros (HF & -> & Hle)%IH. split_and!; [by constructor|done|intros; by apply Hle].
Qed.

(** Digits that overflow the [int] are undefined behaviour. *)
Lemma parse_int_digits_overflow bad s v :
  (0 ≤ v)%Z → Forall (λ c, is_digit c = true) s →
  (int_max < foldl (λ v c, v * 10 + digit_value c) v s)%Z →
  (v ≤ int_max)%Z → parse_int_digits bad s v = Undef.
Proof.
  intros Hv H. revert v Hv. induction H as [|c s Hc Hs IH]; intros v Hv Hmax Hle; simpl in *; [lia|].
  rewrite Hc. simpl. apply digit_value_range in Hc.
  destruct (Z.leb_spec (v * 10 + digit_value c) int_max); [|done].
  apply IH; [lia|done|lia].
Qed.

Lemma parse_int_digits_bad bad s v :
  ¬ Forall (λ c, is_digit c = true) s →
  parse_int_digits bad s v = Throw bad ∨ parse_int_digits bad s v = Undef.
Proof.
  revert v. induction s as [|c s IH]; intros v H; simpl; [by destruct H|].
  destruct (is_digit c) eqn:Hc; simpl; [|by left].
  destruct (_ <=? _)%Z; [|by right]. apply IH. intros Hs. apply H. by constructor.
Qed.

Lemma decimal_from_spec fuel z acc :
  (0 ≤ z < 2 ^ Z.of_nat fuel)%Z → (0 < fuel) →
  ∃ ds, decimal_from fuel z acc = ds ++ acc ∧ Forall (λ c, is_digit c = true) ds ∧
        decimal_value ds = z ∧ ds ≠ [].
Proof.
  revert z acc. induction fuel as [|fuel IH]; intros z acc Hz Hf; [lia|]. cbn [decimal_from].
  destruct (Z.ltb_spec z 10) as [Hlt|Hge].
  - destruct (digit_char_spec z ltac:(lia)) as [Hd Hv].
    exists [digit_char z]. split_and!; [done|by repeat constructor| |done].
    unfold decimal_value. simpl. lia.
  - rewrite Nat2Z.inj_succ, Z.pow_succ_r in Hz by lia.
    pose proof (Z.mod_pos_bound z 10 ltac:(lia)). pose proof (Z.div_mod z 10 ltac:(lia)).
    destruct (digit_char_spec (z mod 10) ltac:(lia)) as [Hd Hv].
    destruct (IH (z / 10)%Z (digit_char (z mod 10) :: acc)) as (ds & Heq & HF & Hval & Hne).
    { split; [by apply Z.div_pos; lia|]. apply Z.div_lt_upper_bound; lia. }
    { destruct fuel; [simpl in Hz; lia|lia]. }
    exists (ds ++ [digit_char (z mod 10)]). split_and!.
    + by rewrite Heq, <- app_assoc.
    + apply Forall_app. by repeat constructor.
    + unfold decimal_value in *. rewrite foldl_digits_app, Hval. simpl. lia.
    + by destruct ds.
Qed.

Theorem to_string_value z : (0 ≤ z)%Z →
  Forall (λ c, is_digit c = true) (to_string z) ∧ decimal_value (to_string z) = z ∧
  to_string z ≠ [].
Proof.
  intros Hz. unfold to_string. rewrite (proj2 (Z.ltb_ge _ _)) by lia.
  destruct (decimal_from_spec (S (Z.to_nat (Z.log2 z))) z []) as (ds & -> & ? & ? & ?); [|lia|].
  - split; [lia|]. destruct (decide (z = 0)%Z) as [->|]; [done|].
    rewrite Nat2Z.inj_succ, Z2Nat.id by apply Z.log2_nonneg. apply Z.log2_spec. lia.
  - by rewrite app_nil_r.
Qed.

#[global] Arguments substr : simpl never.
#[global] Arguments substr_from : simpl never.
#[global] Arguments char_at : simpl never.
#[global] Arguments find : simpl never.
#[global] Arguments find_char : simpl never.
#[global] Arguments rfind_char : simpl never.
#[global] Arguments trim_by : simpl never.
#[global] Arguments trim : simpl never.
#[global] Arguments each_piece : simpl never.
#[global] Arguments split_fields : simpl never.
#[global] Arguments is_space : simpl never.
#[global] Arguments to_upper : simpl never.
#[global] Arguments to_lower : simpl never.
#[global] Arguments is_digit : simpl never.
#[global] Arguments to_string : simpl never.

(** The chars of a printed integer. *)
Lemma to_string_chars z : Forall (λ c, is_digit c || Ascii.eqb c "-" = true) (to_string z).
Proof.
  assert (Hd : ∀ n : Z, (0 ≤ n)%Z → Forall (λ c, is_digit c || Ascii.eqb c "-" = true) (to_string n)).
  { intros n [HF _]%to_string_value. eapply Forall_impl; [exact HF|]. by intros c ->. }
  destruct (decide (0 ≤ z)%Z); [by apply Hd|]. unfold to_string.
  rewrite (proj2 (Z.ltb_lt _ _)) by lia. constructor; [by vm_compute|].
  specialize (Hd (- z)%Z ltac:(lia)). unfold to_string in Hd.
  by rewrite (proj2 (Z.ltb_ge _ _)) in Hd by lia.
Qed.
