(* ===== verification/HttpHeader.v ===== *)
(** * HTTP header fields ([src/http/header.h])

    The header representation shared by requests and responses, and the
    ASCII-only case-insensitive comparison of names. *)

From S2P Require Import Prelude.
From S2P Require Import StringView.

Record header_field := HeaderField {
  hname : bytes;
  hvalue : bytes;
}.

#[export] Instance header_field_eq_dec : EqDecision header_field.
Proof. solve_decision. Defined.

Definition ascii_lower (ch : ascii) : ascii :=
  if in_range "A" "Z" ch then char_of (code ch - code "A" + code "a")%Z else ch.

(** The loop over both views, which have the same size. *)
Fixpoint iequals_loop (left right : bytes) : bool :=
  match left, right with
  | l :: left', r :: right' =>
      if negb (bool_decide (ascii_lower l = ascii_lower r)) then false
      else iequals_loop left' right'
  | _, _ => true
  end.

Definition header_name_equals (left right : bytes) : bool :=
  if negb (length left =? length right) then false else iequals_loop left right.

(** [std::find_if(headers.begin(), headers.end(), name matches)] *)
Definition find_by_name (headers : list header_field) (name : bytes) : option header_field :=
  List.find (λ header, header_name_equals (hname header) name) headers.

(** ** Names are compared up to ASCII case *)

Definition lowercase (s : bytes) : bytes := ascii_lower <$> s.

Theorem header_name_equals_spec left right :
  header_name_equals left right = true ↔ lowercase left = lowercase right.
Proof.
  unfold header_name_equals, lowercase. revert right.
  induction left as [|l left IH]; intros [|r right]; [done|done|done|].
  specialize (IH right). rewrite !fmap_cons. simpl.
  destruct (length left =? length right); simpl in *.
  - case_bool_decide as Hc; simpl.
    + rewrite IH, Hc. split; [by intros ->|by intros [= ?]].
    + split; [done|by intros [= ?]].
  - split; [done|]. intros [= _ H]. by apply IH.
Qed.

Definition name_equiv (a b : bytes) : Prop := lowercase a = lowercase b.

#[export] Instance name_equiv_dec : RelDecision name_equiv.
Proof. intros a b. unfold name_equiv. apply _. Defined.

#[export] Instance name_equiv_equivalence : Equivalence name_equiv.
Proof. split; [by intros ?|by intros ???|intros ?????; by etrans]. Qed.

(** Lookups do not see the case of the name. *)
#[export] Instance header_name_equals_proper :
  Proper (name_equiv ==> name_equiv ==> eq) header_name_equals.
Proof.
  intros a a' Ha b b' Hb. apply eq_true_iff_eq. rewrite !header_name_equals_spec.
  unfold name_equiv in *. by rewrite Ha, Hb.
Qed.

#[export] Instance find_by_name_proper headers :
  Proper (name_equiv ==> eq) (find_by_name headers).
Proof.
  intros a b Hab. unfold find_by_name. induction headers as [|h hs IH]; simpl; [done|].
  rewrite Hab. by rewrite IH.
Qed.

Lemma find_by_name_Some headers name h :
  find_by_name headers name = Some h → h ∈ headers ∧ name_equiv (hname h) name.
Proof.
  intros [Hin Heq]%List.find_some. split; [by apply list_elem_of_In|].
  by apply header_name_equals_spec.
Qed.

Lemma find_by_name_None headers name :
  find_by_name headers name = None ↔ Forall (λ h, ¬ name_equiv (hname h) name) headers.
Proof.
  unfold find_by_name. induction headers as [|h hs IH]; simpl; [split; [by constructor|done]|].
  rewrite Forall_cons, <- IH. unfold name_equiv. rewrite <- header_name_equals_spec.
  destruct (header_name_equals (hname h) name); split;
    [done|by intros [[] _]|by intros ?; split|by intros [_ ?]].
Qed.

Lemma find_by_name_app h1 h2 name :
  find_by_name (h1 ++ h2) name
  = match find_by_name h1 name with Some h => Some h | None => find_by_name h2 name end.
Proof.
  unfold find_by_name. induction h1 as [|h h1 IH]; simpl; [done|].
  by destruct (header_name_equals _ _).
Qed.
