(* ===== verification/HttpRequest.v ===== *)
(** * HTTP request parsing ([src/http/request.h], [src/http/request.cpp]) *)

From S2P Require Import Prelude.
From S2P Require Import StringView.
From S2P Require Import HttpHeader.

(** ** Data *)

Inductive request_parse_error :=
  | malformed_request_line
  | invalid_method
  | invalid_target
  | invalid_version
  | invalid_header.

Record request := Request {
  version_major : Z;
  version_minor : Z;
  method : bytes;
  target : bytes;
  request_headers : list header_field;
}.

(** [request r;] with the default member initializers. *)
Definition default_request : request := Request 1 1 [] [] [].

Definition find_header (r : request) (name : bytes) : option header_field :=
  find_by_name (request_headers r) name.

Definition header_value (r : request) (name : bytes) : option bytes :=
  match find_header r name with
  | None => None
  | Some header => Some (hvalue header)
  end.

Definition header_equals (r : request) (name value : bytes) : bool :=
  match find_header r name with
  | None => false
  | Some header => bytes_eqb (hvalue header) value
  end.

(** ** Char and token checks *)

Definition is_alpha (ch : ascii) : bool := in_range "A" "Z" ch || in_range "a" "z" ch.

Definition is_digit (ch : ascii) : bool := in_range "0" "9" ch.

Definition token_punctuation : bytes := "!#$%&'*+-.^_`|~".

Definition is_token_char (ch : ascii) : bool :=
  if bool_decide (ch ∈ token_punctuation) then true else is_alpha ch || is_digit ch.

Definition is_valid_method (m : bytes) : bool :=
  match m with [] => false | _ => forallb is_token_char m end.

Definition is_valid_target (t : bytes) : bool :=
  match t with
  | [] => false
  | c :: _ =>
      if negb (Ascii.eqb c "/") then false else
      forallb (λ ch,
        negb ((code ch <=? 32)%Z || (127 <=? code ch)%Z) &&
        negb (Ascii.eqb ch "#" || Ascii.eqb ch "\")) t
  end.

Definition is_valid_version (v : bytes) : bool :=
  bytes_eqb v "HTTP/1.0" || bytes_eqb v "HTTP/1.1".

(** [std::from_chars] on a one-char view, required to consume it: an [int]
    with an optional minus sign, so a single char must be a digit. *)
Definition parse_component (component : bytes) : option Z :=
  match component with
  | [c] => if is_digit c then Some (digit_value c) else None
  | _ => None
  end.

(** [Some (major, minor)] when the C++ function returns [true] with its two
    out-parameters set. *)
Definition parse_version (version : bytes) : outcome (option (Z * Z)) :=
  if negb (length version =? 8) then Ret None else
  prefix ← substr version 0 5;
  if negb (bytes_eqb prefix "HTTP/") then Ret None else
  dot ← char_at version 6;
  if negb (Ascii.eqb dot ".") then Ret None else
  major_view ← substr version 5 1;
  minor_view ← substr version 7 1;
  Ret (major ← parse_component major_view; minor ← parse_component minor_view;
       Some (major, minor)).

Definition is_optional_whitespace (ch : ascii) : bool := Ascii.eqb ch " " || Ascii.eqb ch "009".

Definition trim_optional_whitespace (value : bytes) : outcome bytes :=
  trim_by is_optional_whitespace value.

Definition is_valid_header_name (name : bytes) : bool :=
  match name with [] => false | _ => forallb is_token_char name end.

Definition is_valid_header_value (value : bytes) : bool :=
  forallb (λ ch, Ascii.eqb ch "009" || negb ((code ch <? 32)%Z || (code ch =? 127)%Z)) value.

(** The file's own copy of the comparison of [header.h]. *)
Definition ascii_iequals (left right : bytes) : bool :=
  if negb (length left =? length right) then false else iequals_loop left right.

(** [Some header] when the C++ function returns [true]. *)
Definition parse_header_line (line : bytes) : outcome (option header_field) :=
  match line with
  | [] => Ret None
  | front :: _ =>
      if is_optional_whitespace front then Ret None else
      match find_char line ":" 0 with
      | None | Some O => Ret None
      | Some colon =>
          name ← substr line 0 colon;
          rest ← substr_from line (colon + 1);
          value ← trim_optional_whitespace rest;
          if negb (is_valid_header_name name) || negb (is_valid_header_value value)
          then Ret None
          else Ret (Some (HeaderField name value))
      end
  end.

(** ** Connection reuse *)

Definition connection_token_present (r : request) (token : bytes) : outcome bool :=
  match header_value r "Connection" with
  | None => Ret false
  | Some value =>
      each_piece (λ _ piece,
          part ← trim_optional_whitespace piece;
          if ascii_iequals part token then Ret (inr true) else Ret (inl tt))
        (λ _, Ret false) value "," tt
  end.

Definition keep_alive_requested (r : request) : outcome bool :=
  if (version_major r =? 1)%Z && (version_minor r =? 0)%Z then
    connection_token_present r "keep-alive"
  else if (version_major r =? 1)%Z && (version_minor r =? 1)%Z then
    negb <$> connection_token_present r "close"
  else Ret false.

Definition version_string (r : request) : bytes :=
  "HTTP/" ++ to_string (version_major r) ++ "." ++ to_string (version_minor r).

(** ** The parser *)

Definition CRLF : bytes := ["013"%char; "010"%char].

Definition push_header (r : request) (h : header_field) : request :=
  Request (version_major r) (version_minor r) (method r) (target r) (request_headers r ++ [h]).

(** [while (line_begin <= header_block.size()) ...] *)
Fixpoint parse_headers (fuel : nat) (header_block : bytes) (line_begin : nat) (r : request)
    : outcome (expected request request_parse_error) :=
  match fuel with
  | O => Diverge
  | S fuel =>
      if line_begin <=? length header_block then
        match find header_block CRLF line_begin with
        | None => Ret (Unexpected invalid_header)
        | Some line_end =>
            if line_end =? line_begin then Ret (Expect r) else
            line ← substr header_block line_begin (line_end - line_begin);
            header ← parse_header_line line;
            match header with
            | None => Ret (Unexpected invalid_header)
            | Some header =>
                parse_headers fuel header_block (line_end + 2) (push_header r header)
            end
        end
      else Ret (Expect r)
  end.

Definition parse (header_block : bytes) : outcome (expected request request_parse_error) :=
  match find header_block CRLF 0 with
  | None => Ret (Unexpected malformed_request_line)
  | Some eol =>
      line ← substr header_block 0 eol;
      match find_char line " " 0 with
      | None => Ret (Unexpected malformed_request_line)
      | Some sp1 =>
          match find_char line " " (sp1 + 1) with
          | None => Ret (Unexpected malformed_request_line)
          | Some sp2 =>
              match find_char line " " (sp2 + 1) with
              | Some _ => Ret (Unexpected malformed_request_line)
              | None =>
                  method ← substr line 0 sp1;
                  target ← substr line (sp1 + 1) (sp2 - (sp1 + 1));
                  version ← substr_from line (sp2 + 1);
                  if negb (is_valid_method method) then Ret (Unexpected invalid_method) else
                  if negb (is_valid_target target) then Ret (Unexpected invalid_target) else
                  if negb (is_valid_version version) then Ret (Unexpected invalid_version) else
                  numbers ← parse_version version;
                  match numbers with
                  | None => Ret (Unexpected invalid_version)
                  | Some (major, minor) =>
                      parse_headers (S (length header_block)) header_block (eol + 2)
                        (Request major minor method target [])
                  end
              end
          end
      end
  end.

(** ** The grammar *)

Definition is_ows (s : bytes) : Prop := Forall (λ c, is_optional_whitespace c = true) s.

(** A well-formed header field: a token, and a value without control chars and
    without white space at its ends. *)
Definition wf_header (h : header_field) : Prop :=
  is_valid_header_name (hname h) = true ∧ is_valid_header_value (hvalue h) = true ∧
  trimmed is_optional_whitespace (hvalue h).

(** The lines that denote a header field: optional white space surrounds the
    value. *)
Definition header_line_of (line : bytes) (h : header_field) : Prop :=
  ∃ u v, line = hname h ++ ":" ++ u ++ hvalue h ++ v ∧ is_ows u ∧ is_ows v.

Definition wf_request (r : request) : Prop :=
  is_valid_method (method r) = true ∧ is_valid_target (target r) = true ∧
  version_major r = 1%Z ∧ (version_minor r = 0 ∨ version_minor r = 1)%Z ∧
  Forall wf_header (request_headers r).

Definition request_line (r : request) : bytes :=
  method r ++ " " ++ target r ++ " " ++ version_string r.

(** Header lines, each ended by CRLF. *)
Definition header_block_lines (lines : list bytes) : bytes :=
  concat ((λ l, l ++ CRLF) <$> lines).

(** The blocks that denote the request [r]; [rest] is what follows the blank line. *)
Definition denotes (block : bytes) (r : request) : Prop :=
  ∃ lines rest,
    block = request_line r ++ CRLF ++ header_block_lines lines ++ CRLF ++ rest ∧
    Forall2 header_line_of lines (request_headers r).

(** ** A reference parser on suffixes *)

(** [s] cut at the first occurrence of [p]. *)
Definition cut (p s : bytes) : option (bytes * bytes) :=
  match search p s with
  | Some i => Some (take i s, drop (i + length p) s)
  | None => None
  end.

Definition header_of_line (line : bytes) : option header_field :=
  match cut [":"%char] line with
  | None => None
  | Some (name, rest) =>
      let value := strip is_optional_whitespace rest in
      if is_valid_header_name name && is_valid_header_value value
      then Some (HeaderField name value) else None
  end.

Fixpoint headers_ref (fuel : nat) (block : bytes) (r : request)
    : expected request request_parse_error :=
  match fuel, cut CRLF block with
  | S fuel, Some ([], _) => Expect r
  | S fuel, Some (line, block) =>
      match header_of_line line with
      | Some h => headers_ref fuel block (push_header r h)
      | None => Unexpected invalid_header
      end
  | _, _ => Unexpected invalid_header
  end.

Definition parse_ref (block : bytes) : expected request request_parse_error :=
  match cut CRLF block with
  | Some (line, rest) =>
      match split_on " " line with
      | [m; t; v] =>
          if negb (is_valid_method m) then Unexpected invalid_method
          else if negb (is_valid_target t) then Unexpected invalid_target
          else match parse_component (drop 7 v) with
               | Some minor =>
                   if is_valid_version v
                   then headers_ref (S (length rest)) rest (Request 1 minor m t [])
                   else Unexpected invalid_version
               | None => Unexpected invalid_version
               end
      | _ => Unexpected malformed_request_line
      end
  | None => Unexpected malformed_request_line
  end.

(** ** The index parser computes the reference *)

Lemma token_char_not_ows c : is_token_char c = true → negb (is_optional_whitespace c) = true.
Proof. revert c. by_char_impl. Qed.

Lemma token_char_not_colon c : is_token_char c = true → negb (Ascii.eqb c ":") = true.
Proof. revert c. by_char_impl. Qed.

Lemma find_0 s needle : find s needle 0 = search needle s.
Proof. rewrite find_drop, drop_0 by lia. by destruct (search needle s). Qed.

Lemma valid_name_tokens name :
  is_valid_header_name name = true → name ≠ [] ∧ Forall (λ c, is_token_char c = true) name.
Proof. destruct name; [done|]. intros H%forallb_Forall. done. Qed.

Lemma valid_name_front c name :
  is_valid_header_name (c :: name) = true → is_optional_whitespace c = false.
Proof.
  intros [_ H]%valid_name_tokens. inversion_clear H as [|?? Hc _].
  by apply token_char_not_ows, negb_true_iff in Hc.
Qed.

#[local] Arguments is_optional_whitespace : simpl never.
#[local] Arguments is_valid_header_name : simpl never.

Lemma parse_header_line_ret line : parse_header_line line = Ret (header_of_line line).
Proof.
  unfold parse_header_line, header_of_line, cut, find_char. rewrite find_0.
  destruct line as [|c line]; [done|].
  destruct (search [":"%char] (c :: line)) as [[|i]|] eqn:Hs;
    [by destruct (is_optional_whitespace c)| |by destruct (is_optional_whitespace c)].
  pose proof (search_length _ _ _ Hs) as Hl. simpl in Hl.
  rewrite substr_ret, substr_from_ret, drop_0 by (simpl; lia).
  unfold trim_optional_whitespace. autorewrite with cpp. simpl.
  destruct (is_valid_header_name (c :: take i line)) eqn:Hn; simpl.
  - rewrite (valid_name_front c (take i line)) by done.
    by destruct (is_valid_header_value _).
  - by destruct (is_optional_whitespace c).
Qed.

Lemma parse_headers_ret fuel block lb r :
  length block < fuel + lb → lb ≤ length block →
  parse_headers fuel block lb r = Ret (headers_ref fuel (drop lb block) r).
Proof.
  revert lb r. induction fuel as [|fuel IH]; intros lb r Hf Hlb; [lia|]. simpl.
  rewrite (proj2 (Nat.leb_le _ _)), find_drop by done. unfold cut.
  destruct (search CRLF (drop lb block)) as [i|] eqn:Hs; simpl; [|done].
  pose proof (search_length _ _ _ Hs) as Hl. rewrite length_drop in Hl. simpl in Hl.
  destruct i as [|i].
  { rewrite Nat.add_0_r, Nat.eqb_refl. done. }
  rewrite (proj2 (Nat.eqb_neq _ _)), substr_ret by lia. autorewrite with cpp.
  replace (lb + S i - lb) with (S i) by lia.
  destruct (take (S i) (drop lb block)) as [|c line] eqn:Htk.
  { apply (f_equal length) in Htk. rewrite length_take, length_drop, length_nil in Htk. lia. }
  rewrite parse_header_line_ret. autorewrite with cpp.
  destruct (header_of_line (c :: line)) as [h|]; [|done].
  rewrite IH by lia. do 2 f_equal. rewrite drop_drop. f_equal. lia.
Qed.

Lemma headers_ref_fuel f1 f2 block r :
  length block < f1 → length block < f2 → headers_ref f1 block r = headers_ref f2 block r.
Proof.
  revert f2 block r. induction f1 as [|f1 IH]; intros f2 block r H1 H2; [lia|].
  destruct f2 as [|f2]; [lia|]. simpl.
  destruct (cut CRLF block) as [[[|c line] rest]|] eqn:Hc; [done| |done].
  destruct (header_of_line (c :: line)); [|done].
  unfold cut in Hc. destruct (search CRLF block) as [i|] eqn:Hs; [|done].
  apply search_length in Hs. simpl in *. injection Hc as _ <-.
  apply IH; rewrite length_drop; lia.
Qed.

Lemma find_char_next d s i :
  search [d] s = Some i →
  find_char s d (i + 1) = Nat.add (i + 1) <$> search [d] (drop (S i) s).
Proof.
  intros H. apply search_length in H. simpl in H. unfold find_char.
  rewrite find_drop by lia. by rewrite Nat.add_1_r.
Qed.

Lemma split_on_search d s :
  split_on d s = match search [d] s with
                 | Some i => take i s :: split_on d (drop (S i) s)
                 | None => [s]
                 end.
Proof.
  destruct (search [d] s) as [i|] eqn:Hs.
  - apply search_char_Some in Hs as [Hnot Hs]. rewrite Hs at 1. by apply split_on_app.
  - by apply split_on_none, search_char_None.
Qed.

Lemma is_valid_version_cases v :
  is_valid_version v = true → v = "HTTP/1.0" ∨ v = "HTTP/1.1".
Proof.
  unfold is_valid_version, bytes_eqb. rewrite orb_true_iff, !bool_decide_eq_true. done.
Qed.

Theorem parse_ret block : parse block = Ret (parse_ref block).
Proof.
  unfold parse, parse_ref, cut. rewrite find_0.
  destruct (search CRLF block) as [eol|] eqn:Hs; [|done].
  pose proof (search_length _ _ _ Hs) as Hl. simpl in Hl.
  rewrite substr_ret, drop_0 by lia. autorewrite with cpp.
  set (line := take eol block). rewrite (split_on_search " " line).
  unfold find_char at 1. rewrite find_0.
  destruct (search [" "%char] line) as [sp1|] eqn:H1; [|done].
  pose proof (search_length _ _ _ H1) as Hl1. simpl in Hl1.
  rewrite find_char_next by done. rewrite (split_on_search " " (drop (S sp1) line)).
  destruct (search [" "%char] (drop (S sp1) line)) as [j|] eqn:H2; [|done].
  pose proof (search_length _ _ _ H2) as Hl2. rewrite length_drop in Hl2. simpl in Hl2.
  rewrite (split_on_search " " (drop (S j) _)), drop_drop.
  change (Nat.add (sp1 + 1) <$> Some j) with (Some (sp1 + 1 + j)). cbv beta iota.
  unfold find_char. rewrite find_drop by lia.
  replace (sp1 + 1 + j + 1) with (S sp1 + S j) by lia.
  destruct (search [" "%char] (drop (S sp1 + S j) line)) as [k|] eqn:H3;
    cbv beta iota.
  { by destruct (split_on_cons " " (drop (S k) (drop (S sp1 + S j) line))) as (? & ? & ->). }
  rewrite !substr_ret, substr_from_ret, drop_0 by lia. autorewrite with cpp.
  replace (sp1 + 1 + j - (sp1 + 1)) with j by lia. rewrite Nat.add_1_r.
  set (m := take sp1 line). set (t := take j _). set (v := drop _ line).
  destruct (is_valid_method m); [|done]. destruct (is_valid_target t); [|done]. simpl.
  destruct (is_valid_version v) eqn:Hv.
  - assert (Hh : ∀ minor, parse_headers (S (length block)) block (eol + 2)
      (Request 1 minor m t []) = Ret (headers_ref (S (length (drop (eol + 2) block)))
        (drop (eol + 2) block) (Request 1 minor m t []))).
    { intros minor. rewrite parse_headers_ret by lia. f_equal.
      apply headers_ref_fuel; rewrite ?length_drop; lia. }
    apply is_valid_version_cases in Hv as [-> | ->]; apply Hh.
  - by destruct (parse_component _).
Qed.

(** ** The parser accepts exactly the grammar *)

Lemma cut_app c p a b : c ∉ a → cut (c :: p) (a ++ (c :: p) ++ b) = Some (a, b).
Proof.
  intros Hc. unfold cut. rewrite search_app by done.
  rewrite take_app_length, <- drop_drop, drop_app_length, drop_app_length. done.
Qed.

Lemma cut_char_app c a b : c ∉ a → cut [c] (a ++ c :: b) = Some (a, b).
Proof. apply (cut_app c []). Qed.

Lemma cut_Some p s a b : cut p s = Some (a, b) → s = a ++ p ++ b.
Proof.
  unfold cut. destruct (search p s) as [i|] eqn:Hs; [|done]. intros [= <- <-].
  by apply search_split.
Qed.

Lemma token_char_not_cr c : is_token_char c = true → negb (Ascii.eqb c "013") = true.
Proof. revert c. by_char_impl. Qed.

Lemma ows_not_cr c : is_optional_whitespace c = true → negb (Ascii.eqb c "013") = true.
Proof. revert c. by_char_impl. Qed.

Lemma value_char_not_cr c :
  Ascii.eqb c "009" || negb ((code c <? 32)%Z || (code c =? 127)%Z) = true →
  negb (Ascii.eqb c "013") = true.
Proof. revert c. by_char_impl. Qed.

Lemma target_char_not_cr_sp c :
  negb ((code c <=? 32)%Z || (127 <=? code c)%Z) && negb (Ascii.eqb c "#" || Ascii.eqb c "\")
  = true → negb (Ascii.eqb c "013") && negb (Ascii.eqb c " ") = true.
Proof. revert c. by_char_impl. Qed.

Lemma token_char_not_sp c : is_token_char c = true → negb (Ascii.eqb c " ") = true.
Proof. revert c. by_char_impl. Qed.

(** A char that a class excludes does not occur in a string of the class. *)
Lemma class_excludes (P : ascii → bool) d s :
  (∀ c, P c = true → negb (Ascii.eqb c d) = true) → Forall (λ c, P c = true) s → d ∉ s.
Proof.
  intros H HF Hin. rewrite Forall_forall in HF. specialize (H d (HF d Hin)).
  by rewrite Ascii.eqb_refl in H.
Qed.

Lemma header_line_no_cr line h : wf_header h → header_line_of line h → "013"%char ∉ line.
Proof.
  intros ([_ Hn]%valid_name_tokens & Hv%forallb_Forall & _) (u & v & -> & Hu & Hv').
  rewrite !not_elem_of_app. split_and!.
  - by apply (class_excludes _ _ _ token_char_not_cr).
  - by apply not_elem_of_cons; split; [|apply not_elem_of_nil].
  - by apply (class_excludes _ _ _ ows_not_cr).
  - by apply (class_excludes _ _ _ value_char_not_cr).
  - by apply (class_excludes _ _ _ ows_not_cr).
Qed.

Theorem header_of_line_spec line h :
  header_of_line line = Some h ↔ wf_header h ∧ header_line_of line h.
Proof.
  unfold header_of_line. split.
  - destruct (cut _ line) as [[name rest]|] eqn:Hc; [|done].
    apply cut_Some in Hc. simpl.
    destruct (is_valid_header_name name) eqn:Hn; [|done].
    destruct (is_valid_header_value _) eqn:Hv; [|done]. intros [= <-].
    split; [split_and!; [done|done|apply strip_trimmed]|].
    destruct (strip_split is_optional_whitespace rest) as (u & v & Hr & ? & ?).
    exists u, v. split; [|done]. simpl. by rewrite Hc, <- Hr.
  - intros [(Hn & Hv & Ht) (u & v & -> & Hu & Hv')]. destruct h as [name value]. simpl in *.
    rewrite cut_char_app.
    + rewrite strip_pad by done. by rewrite Hn, Hv.
    + apply valid_name_tokens in Hn as [_ Hn].
      by apply (class_excludes _ _ _ token_char_not_colon).
Qed.

Definition push_headers (r : request) (hs : list header_field) : request :=
  Request (version_major r) (version_minor r) (method r) (target r) (request_headers r ++ hs).

Lemma push_headers_nil r : push_headers r [] = r.
Proof. destruct r. unfold push_headers. simpl. by rewrite app_nil_r. Qed.

Lemma push_headers_cons r h hs : push_headers (push_header r h) hs = push_headers r (h :: hs).
Proof. unfold push_headers, push_header. simpl. by rewrite <- app_assoc. Qed.

Lemma headers_ref_sound fuel block r r' :
  headers_ref fuel block r = Expect r' →
  ∃ lines rest hs, block = header_block_lines lines ++ CRLF ++ rest ∧
    r' = push_headers r hs ∧ Forall2 header_line_of lines hs ∧ Forall wf_header hs.
Proof.
  revert block r. induction fuel as [|fuel IH]; intros block r; simpl; [done|].
  destruct (cut CRLF block) as [[line rest]|] eqn:Hc; [|done].
  apply cut_Some in Hc. destruct line as [|c line].
  - intros [= <-]. exists [], rest, []. rewrite push_headers_nil. split_and!; done.
  - destruct (header_of_line (c :: line)) as [h|] eqn:Hh; [|done].
    apply header_of_line_spec in Hh as [Hwf Hline].
    intros (lines & rest' & hs & -> & -> & HF & HW)%IH.
    exists ((c :: line) :: lines), rest', (h :: hs). rewrite push_headers_cons.
    split_and!; [|done|by constructor|by constructor].
    rewrite Hc. unfold header_block_lines. rewrite fmap_cons. cbn [concat].
    by rewrite <- !app_assoc.
Qed.

Lemma headers_ref_complete fuel lines rest hs r :
  length (header_block_lines lines ++ CRLF ++ rest) < fuel →
  Forall2 header_line_of lines hs → Forall wf_header hs →
  headers_ref fuel (header_block_lines lines ++ CRLF ++ rest) r = Expect (push_headers r hs).
Proof.
  intros Hf HF. revert fuel r Hf.
  induction HF as [|line h lines hs Hline HF IH]; intros fuel r Hf HW.
  - destruct fuel as [|fuel]; [simpl in Hf; lia|]. by rewrite push_headers_nil.
  - destruct fuel as [|fuel]; [simpl in Hf; lia|]. inversion_clear HW as [|?? Hwf HW'].
    assert (Hcut : cut CRLF (header_block_lines (line :: lines) ++ CRLF ++ rest)
      = Some (line, header_block_lines lines ++ CRLF ++ rest)).
    { unfold header_block_lines. rewrite fmap_cons. cbn [concat]. rewrite <- !app_assoc.
      apply cut_app. by eapply header_line_no_cr. }
    cbn [headers_ref]. rewrite Hcut.
    destruct line as [|c line].
    { destruct Hline as (u & v & He & _). by destruct Hwf as ([? _]%valid_name_tokens & _),
        (hname h). }
    rewrite (proj2 (header_of_line_spec (c :: line) h)) by done.
    rewrite IH, push_headers_cons; [done| |done].
    apply cut_Some in Hcut. rewrite Hcut, length_app, (length_app CRLF) in Hf.
    change (length CRLF) with 2 in Hf. lia.
Qed.

Lemma version_string_valid r :
  version_major r = 1%Z → (version_minor r = 0 ∨ version_minor r = 1)%Z →
  is_valid_version (version_string r) = true ∧
  parse_component (drop 7 (version_string r)) = Some (version_minor r) ∧
  ("013"%char ∉ version_string r) ∧ (" "%char ∉ version_string r).
Proof.
  unfold version_string. intros -> [-> | ->];
    split_and!; try (apply (bool_decide_eq_false_1 _)); vm_compute; reflexivity.
Qed.

(** A well-formed request line is cut back into its three parts. *)
Lemma request_line_parts r :
  is_valid_method (method r) = true → is_valid_target (target r) = true →
  (" "%char ∉ version_string r) → ("013"%char ∉ version_string r) →
  split_on " " (request_line r) = [method r; target r; version_string r] ∧
  ("013"%char ∉ request_line r).
Proof.
  intros Hm Ht Hv Hv'.
  assert (Hmt : Forall (λ c, is_token_char c = true) (method r)).
  { by destruct (valid_name_tokens (method r)) as [_ ?]. }
  assert (Htt : Forall (λ c, negb (Ascii.eqb c "013") && negb (Ascii.eqb c " ") = true) (target r)).
  { destruct (target r) as [|c t]; [done|]. unfold is_valid_target in Ht.
    destruct (negb (Ascii.eqb c "/")); [done|]. apply forallb_Forall in Ht.
    eapply Forall_impl; [exact Ht|]. intros x. apply target_char_not_cr_sp. }
  unfold request_line. split.
  - change (of_string " ") with [" "%char]. simpl.
    rewrite split_on_app by by apply (class_excludes _ _ _ token_char_not_sp).
    rewrite split_on_app; [by rewrite split_on_none|].
    eapply class_excludes, Htt. by intros c [_ ?]%andb_true_iff.
  - rewrite !not_elem_of_app. split_and!; try (apply (bool_decide_eq_false_1 _); reflexivity); [| |done].
    + by apply (class_excludes _ _ _ token_char_not_cr).
    + eapply class_excludes, Htt. by intros c [? _]%andb_true_iff.
Qed.

Lemma headers_ref_error fuel rest r e :
  headers_ref fuel rest r = Unexpected e → e = invalid_header.
Proof.
  revert rest r. induction fuel as [|fuel IH]; intros rest r; cbn [headers_ref]; [by intros [= <-]|].
  destruct (cut CRLF rest) as [[[|c l] rest']|]; [by intros ?| |by intros [= <-]].
  destruct (header_of_line (c :: l)); [apply IH|by intros [= <-]].
Qed.

#[local] Arguments headers_ref : simpl never.

Lemma parse_ref_sound block r : parse_ref block = Expect r → wf_request r ∧ denotes block r.
Proof.
  unfold parse_ref. destruct (cut CRLF block) as [[line rest]|] eqn:Hc; [|done].
  apply cut_Some in Hc.
  destruct (split_on " " line) as [|m [|t [|v []]]] eqn:Hsp; try done.
  assert (Hline : line = m ++ " " ++ t ++ " " ++ v).
  { rewrite <- (join_split_on " " line), Hsp. done. }
  destruct (is_valid_method m) eqn:Hm; [|done].
  destruct (is_valid_target t) eqn:Ht; [|done]. simpl.
  destruct (parse_component (drop 7 v)) as [minor|] eqn:Hp; [|done].
  destruct (is_valid_version v) eqn:Hv; [|done].
  intros (lines & rest' & hs & -> & -> & HF & HW)%headers_ref_sound.
  assert (Hminor : (minor = 0 ∨ minor = 1)%Z ∧
    version_string (Request 1 minor m t hs) = v).
  { apply is_valid_version_cases in Hv as [-> | ->]; vm_compute in Hp; injection Hp as <-;
      (split; [auto|reflexivity]). }
  destruct Hminor as [Hminor Hvs].
  split; [done|]. exists lines, rest'. split; [|done].
  rewrite Hc, Hline. unfold request_line, push_headers. simpl.
  unfold version_string in *. simpl in *. rewrite Hvs. by rewrite <- !app_assoc.
Qed.

Lemma parse_ref_complete block r : wf_request r → denotes block r → parse_ref block = Expect r.
Proof.
  intros (Hm & Ht & Hmaj & Hmin & HW) (lines & rest & -> & HF).
  destruct (version_string_valid r Hmaj Hmin) as (Hv & Hp & Hcr & Hsp).
  destruct (request_line_parts r Hm Ht Hsp Hcr) as [Hparts Hnocr].
  unfold parse_ref. change CRLF with ("013"%char :: ["010"%char]) at 1 2.
  rewrite cut_app by done. rewrite Hparts, Hm, Ht, Hp, Hv. cbn [negb].
  rewrite (headers_ref_complete _ _ _ (request_headers r)) by (done || lia).
  unfold push_headers. simpl. rewrite <- Hmaj. by destruct r.
Qed.

(** C2: the request parser accepts exactly the blocks that denote a well-formed
    request, and returns that request: a request line of a token, an
    origin-form target without control chars, and HTTP/1.0 or HTTP/1.1, header
    lines with their values trimmed, and a blank line. *)
Theorem parse_accepts block r :
  parse block = Ret (Expect r) ↔ wf_request r ∧ denotes block r.
Proof.
  rewrite parse_ret. split.
  - intros [= H]. by apply parse_ref_sound.
  - intros [Hwf Hd]. by rewrite (parse_ref_complete _ _ Hwf Hd).
Qed.

(** A concrete block: two header fields, one with white space around its value. *)
Definition sample_block : bytes :=
  ("GET /hello HTTP/1.1" : bytes) ++ CRLF ++ ("Host: localhost" : bytes) ++ CRLF ++
  ("Connection:   keep-alive " : bytes) ++ CRLF ++ CRLF.

Definition sample_request : request :=
  Request 1 1 "GET" "/hello"
    [HeaderField "Host" "localhost"; HeaderField "Connection" "keep-alive"].

Example parse_sample : parse sample_block = Ret (Expect sample_request).
Proof. vm_compute. reflexivity. Qed.

(** ** Errors *)

(** The first line of the block has exactly three parts [m], [t], [v]. *)
Definition request_line_parts_of (block m t v : bytes) : Prop :=
  ∃ line rest, cut CRLF block = Some (line, rest) ∧ split_on " " line = [m; t; v].

(** C29: the parser always returns: it never reads out of range, no [substr]
    throws, and its loop stops.  An error says what is wrong with the first
    offending part: the request line is checked before the method, the method
    before the target, the target before the version, and the header fields
    come last. *)
Theorem parse_errors block :
  ∃ e, parse block = Ret e ∧
  match e with
  | Expect r => wf_request r ∧ denotes block r
  | Unexpected malformed_request_line => ¬ ∃ m t v, request_line_parts_of block m t v
  | Unexpected invalid_method =>
      ∃ m t v, request_line_parts_of block m t v ∧ is_valid_method m = false
  | Unexpected invalid_target =>
      ∃ m t v, request_line_parts_of block m t v ∧
        is_valid_method m = true ∧ is_valid_target t = false
  | Unexpected invalid_version =>
      ∃ m t v, request_line_parts_of block m t v ∧
        is_valid_method m = true ∧ is_valid_target t = true ∧
        v ≠ "HTTP/1.0" ∧ v ≠ "HTTP/1.1"
  | Unexpected invalid_header =>
      (∃ m t v, request_line_parts_of block m t v ∧ is_valid_method m = true ∧
        is_valid_target t = true ∧ (v = "HTTP/1.0" ∨ v = "HTTP/1.1")) ∧
      ¬ ∃ r, wf_request r ∧ denotes block r
  end.
Proof.
  exists (parse_ref block). rewrite parse_ret. split; [done|].
  destruct (parse_ref block) as [r|e] eqn:Href; [by apply parse_ref_sound|].
  assert (Hno : ¬ ∃ r, wf_request r ∧ denotes block r).
  { intros (r & ? & ?). by rewrite (parse_ref_complete block r) in Href. }
  unfold parse_ref in Href. unfold request_line_parts_of.
  destruct (cut CRLF block) as [[line rest]|]; [|injection Href as <-; by intros (?&?&?&?&?&?&?)].
  destruct (split_on " " line) as [|m [|t [|v [|? ?]]]] eqn:Hsp;
    try (injection Href as <-; intros (?&?&?&?&?&[= <- <-]&?); congruence).
  assert (Hparts : ∃ line' rest', Some (line, rest) = Some (line', rest') ∧
    split_on " " line' = [m; t; v]) by eauto.
  destruct (is_valid_method m) eqn:Hm; [|injection Href as <-; eauto 10].
  destruct (is_valid_target t) eqn:Ht; [|injection Href as <-; eauto 10]. cbn [negb] in Href.
  destruct (is_valid_version v) eqn:Hv.
  - apply is_valid_version_cases in Hv.
    assert (He : e = invalid_header); [|subst; eauto 12].
    destruct (parse_component (drop 7 v)) as [minor|] eqn:Hp.
    + by eapply headers_ref_error.
    + by destruct Hv as [-> | ->].
  - assert (He : e = invalid_version) by (destruct (parse_component _); congruence). subst e.
    unfold is_valid_version, bytes_eqb in Hv. apply orb_false_iff in Hv as [H0 H1].
    apply bool_decide_eq_false in H0. apply bool_decide_eq_false in H1. eauto 12.
Qed.

(** ** Connection reuse *)

(** The trimmed, comma-separated parts of the first [Connection] header. *)
Definition connection_tokens (r : request) : list bytes :=
  match header_value r "Connection" with
  | None => []
  | Some value => strip is_optional_whitespace <$> split_on "," value
  end.

Lemma ascii_iequals_spec left right :
  ascii_iequals left right = true ↔ name_equiv left right.
Proof. exact (header_name_equals_spec left right). Qed.

Lemma connection_token_present_ret r token :
  connection_token_present r token
  = Ret (existsb (λ part, ascii_iequals part token) (connection_tokens r)).
Proof.
  unfold connection_token_present, connection_tokens.
  destruct (header_value r "Connection") as [value|]; [|done].
  rewrite each_piece_spec. induction (split_on "," value) as [|p ps IH]; [done|].
  rewrite fmap_cons. cbn [fold_pieces existsb]. unfold trim_optional_whitespace.
  autorewrite with cpp. destruct (ascii_iequals _ token); [done|]. exact IH.
Qed.

Lemma keep_alive_ret r : ∃ b, keep_alive_requested r = Ret b.
Proof.
  unfold keep_alive_requested. rewrite !connection_token_present_ret. autorewrite with cpp.
  repeat case_match; by eexists.
Qed.

(** A connection is kept open by HTTP/1.0 only when the first
    [Connection] header lists the token [keep-alive], and by HTTP/1.1 unless it
    lists [close]; tokens are compared up to case, and the check never throws. *)
Theorem keep_alive_decision r :
  ∃ b, keep_alive_requested r = Ret b ∧
  (b = true ↔
   (version_major r = 1%Z ∧ version_minor r = 0%Z ∧
    Exists (λ part, name_equiv part "keep-alive") (connection_tokens r)) ∨
   (version_major r = 1%Z ∧ version_minor r = 1%Z ∧
    ¬ Exists (λ part, name_equiv part "close") (connection_tokens r))).
Proof.
  assert (Hex : ∀ tok, existsb (λ part, ascii_iequals part tok) (connection_tokens r) = true ↔
    Exists (λ part, name_equiv part tok) (connection_tokens r)).
  { intros tok. rewrite existsb_exists, List.Exists_exists.
    split; intros (x & ? & ?); exists x; by rewrite ascii_iequals_spec in *. }
  unfold keep_alive_requested. rewrite !connection_token_present_ret. autorewrite with cpp.
  destruct (Z.eqb_spec (version_major r) 1) as [->|?]; simpl; [|eexists; split; [done|intuition congruence]].
  destruct (Z.eqb_spec (version_minor r) 0) as [->|?]; simpl.
  { eexists; split; [done|]. rewrite Hex. intuition congruence. }
  destruct (Z.eqb_spec (version_minor r) 1) as [->|?]; simpl; [|eexists; split; [done|intuition congruence]].
  eexists; split; [done|]. rewrite negb_true_iff, <- not_true_iff_false, Hex. intuition congruence.
Qed.
