(* ===== verification/HttpResponse.v ===== *)
(** * HTTP responses ([src/http/response.h], [src/http/response.cpp]) *)

From S2P Require Import Prelude.
From S2P Require Import StringView.
From S2P Require Import HttpHeader.
From S2P Require Import HttpRequest.

(** ** Data *)

Inductive connection_policy := close | keep_alive.

#[export] Instance connection_policy_eq_dec : EqDecision connection_policy.
Proof. solve_decision. Defined.

Record response := Response {
  status : Z;
  reason : bytes;
  content_type : bytes;
  response_headers : list header_field;
  body : bytes;
  content_length : option Z;
}.

(** [http::response response;] with the default member initializers. *)
Definition default_response : response := Response 200 "OK" [] [] [] None.

Definition with_headers (r : response) (hs : list header_field) : response :=
  Response (status r) (reason r) (content_type r) hs (body r) (content_length r).

(** ** Validation *)

Definition is_token_char (ch : ascii) : bool :=
  if bool_decide (ch ∈ token_punctuation) then true
  else in_range "A" "Z" ch || in_range "a" "z" ch || in_range "0" "9" ch.

Definition valid_header_name (name : bytes) : bool :=
  match name with [] => false | _ => forallb is_token_char name end.

(** [value.find_first_of("\r\n") == npos] *)
Definition valid_header_value (value : bytes) : bool :=
  forallb (λ c, negb (Ascii.eqb c "013" || Ascii.eqb c "010")) value.

Definition validate_header (name value : bytes) : outcome unit :=
  if negb (valid_header_name name) then
    Throw (invalid_argument "invalid response header name")
  else if negb (valid_header_value value) then
    Throw (invalid_argument "invalid response header value")
  else Ret tt.

Definition is_reserved_header (name : bytes) (content_type_written : bool) : bool :=
  if header_name_equals name "Connection" then true
  else if header_name_equals name "Content-Length" then true
  else if content_type_written && header_name_equals name "Content-Type" then true
  else false.

(** ** Header access *)

Definition response_find_header (r : response) (name : bytes) : option header_field :=
  find_by_name (response_headers r) name.

Definition add_header (r : response) (name value : bytes) : outcome response :=
  _ ← validate_header name value;
  Ret (with_headers r (response_headers r ++ [HeaderField name value])).

(** [it->value = value] at the first header the name matches; [None] when
    there is none. *)
Fixpoint set_first (hs : list header_field) (name value : bytes) : option (list header_field) :=
  match hs with
  | [] => None
  | h :: hs =>
      if header_name_equals (hname h) name then Some (HeaderField (hname h) value :: hs)
      else cons h <$> set_first hs name value
  end.

Definition set_header (r : response) (name value : bytes) : outcome response :=
  _ ← validate_header name value;
  match set_first (response_headers r) name value with
  | Some hs => Ret (with_headers r hs)
  | None => add_header r name value
  end.

(** ** Serialization *)

Definition policy_text (policy : connection_policy) : bytes :=
  match policy with keep_alive => "keep-alive" | close => "close" end.

(** One iteration of the loop over the custom headers. *)
Definition header_text (content_type_written : bool) (header : header_field) : bytes :=
  if is_reserved_header (hname header) content_type_written then []
  else if negb (valid_header_name (hname header)) || negb (valid_header_value (hvalue header))
  then []
  else hname header ++ ": " ++ hvalue header ++ CRLF.

Definition serialize (r : response) (policy : connection_policy) : bytes :=
  let wire_body_size := default (Z.of_nat (length (body r))) (content_length r) in
  let content_type_written :=
    negb (bytes_eqb (content_type r) []) && valid_header_value (content_type r) in
  "HTTP/1.1 " ++ to_string (status r) ++ " " ++ reason r ++ CRLF ++
  "Connection: " ++ policy_text policy ++ CRLF ++
  "Content-Length: " ++ to_string wire_body_size ++ CRLF ++
  (if content_type_written then "Content-Type: " ++ content_type r ++ CRLF else []) ++
  concat (header_text content_type_written <$> response_headers r) ++
  CRLF ++ body r.

(** [response::text] *)
Definition text (s : Z) (r msg : bytes) : response :=
  Response s r "text/plain; charset=utf-8" [] msg None.

(** ** What a receiver reads

    [decode] reads lines up to the blank line; the rest is the body. *)
Fixpoint read_head (fuel : nat) (s : bytes) : option (list bytes * bytes) :=
  match fuel, cut CRLF s with
  | S _, Some ([], rest) => Some ([], rest)
  | S fuel, Some (line, rest) =>
      match read_head fuel rest with
      | Some (lines, b) => Some (line :: lines, b)
      | None => None
      end
  | _, _ => None
  end.

Definition decode (s : bytes) : option (list bytes * bytes) := read_head (S (length s)) s.

Definition status_line (r : response) : bytes :=
  "HTTP/1.1 " ++ to_string (status r) ++ " " ++ reason r.

Definition field_line (h : header_field) : bytes := hname h ++ ": " ++ hvalue h.

Definition content_type_written (r : response) : bool :=
  negb (bytes_eqb (content_type r) []) && valid_header_value (content_type r).

Definition accepted (r : response) (h : header_field) : Prop :=
  is_reserved_header (hname h) (content_type_written r) = false ∧
  valid_header_name (hname h) = true ∧ valid_header_value (hvalue h) = true.

#[export] Instance accepted_dec r h : Decision (accepted r h).
Proof. unfold accepted. apply _. Defined.

Definition wire_length (r : response) : Z :=
  default (Z.of_nat (length (body r))) (content_length r).

(** The header fields of the serialized response. *)
Definition head_fields (r : response) (policy : connection_policy) : list header_field :=
  [HeaderField "Connection" (policy_text policy);
   HeaderField "Content-Length" (to_string (wire_length r))] ++
  (if content_type_written r then [HeaderField "Content-Type" (content_type r)] else []) ++
  filter (accepted r) (response_headers r).

Definition head_lines (r : response) (policy : connection_policy) : list bytes :=
  status_line r :: (field_line <$> head_fields r policy).

Lemma header_text_accepted r h :
  header_text (content_type_written r) h
  = if decide (accepted r h) then field_line h ++ CRLF else [].
Proof.
  unfold header_text, field_line. case_decide as Ha.
  - destruct Ha as (-> & -> & ->). simpl. by rewrite <- app_assoc.
  - unfold accepted in Ha. destruct (is_reserved_header _ _); [done|].
    destruct (valid_header_name _); [|done]. destruct (valid_header_value _); [|done].
    by destruct Ha.
Qed.

Lemma concat_header_text r hs :
  concat (header_text (content_type_written r) <$> hs)
  = header_block_lines (field_line <$> filter (accepted r) hs).
Proof.
  induction hs as [|h hs IH]; [done|]. rewrite filter_cons, fmap_cons. cbn [concat].
  rewrite IH, header_text_accepted. by case_decide.
Qed.

Lemma header_block_lines_cons l ls :
  header_block_lines (l :: ls) = l ++ CRLF ++ header_block_lines ls.
Proof. unfold header_block_lines. rewrite fmap_cons. cbn [concat]. by rewrite <- app_assoc. Qed.

Lemma header_block_lines_app l1 l2 :
  header_block_lines (l1 ++ l2) = header_block_lines l1 ++ header_block_lines l2.
Proof. unfold header_block_lines. by rewrite fmap_app, concat_app. Qed.

Lemma serialize_lines r p :
  serialize r p = header_block_lines (head_lines r p) ++ CRLF ++ body r.
Proof.
  unfold serialize, head_lines, head_fields, status_line. rewrite !fmap_app.
  fold (content_type_written r). rewrite concat_header_text. fold (wire_length r).
  set (cl := to_string _). set (st := to_string _).
  destruct (content_type_written r);
    rewrite ?fmap_cons, ?fmap_nil; cbn [app];
    rewrite !header_block_lines_cons; unfold field_line at 1 2; cbn [hname hvalue];
    rewrite ?header_block_lines_cons; unfold field_line at 1; cbn [hname hvalue];
    by rewrite <- !app_assoc.
Qed.

(** A line a receiver cannot take for two, nor for the blank line. *)
Definition single_line (l : bytes) : Prop :=
  l ≠ [] ∧ ("013"%char ∉ l) ∧ ("010"%char ∉ l).

Lemma read_head_lines lines b fuel :
  Forall (λ l, l ≠ [] ∧ ("013"%char ∉ l)) lines → length lines < fuel →
  read_head fuel (header_block_lines lines ++ CRLF ++ b) = Some (lines, b).
Proof.
  intros HF. revert fuel. induction HF as [|l ls [Hne Hcr] HF IH]; intros fuel Hf.
  - destruct fuel; [simpl in Hf; lia|]. reflexivity.
  - destruct fuel as [|fuel]; [simpl in Hf; lia|]. cbn [read_head].
    rewrite header_block_lines_cons, <- !app_assoc.
    change CRLF with ("013"%char :: ["010"%char]) at 1 2. rewrite cut_app by done.
    rewrite IH by (simpl in Hf; lia). by destruct l.
Qed.

Lemma decode_lines lines b :
  Forall (λ l, l ≠ [] ∧ ("013"%char ∉ l)) lines →
  decode (header_block_lines lines ++ CRLF ++ b) = Some (lines, b).
Proof.
  intros HF. apply read_head_lines; [done|].
  assert (Hl : length lines ≤ length (header_block_lines lines)).
  { clear. induction lines as [|l ls IH]; [simpl; lia|].
    rewrite header_block_lines_cons, !length_app. simpl. lia. }
  rewrite length_app. lia.
Qed.

Lemma token_char_no_break c :
  is_token_char c = true → negb (Ascii.eqb c "013" || Ascii.eqb c "010") = true.
Proof. revert c. by_char_impl. Qed.

Lemma number_char_no_break c :
  is_digit c || Ascii.eqb c "-" = true → negb (Ascii.eqb c "013" || Ascii.eqb c "010") = true.
Proof. revert c. by_char_impl. Qed.

Lemma no_break_excludes s :
  Forall (λ c, negb (Ascii.eqb c "013" || Ascii.eqb c "010") = true) s →
  ("013"%char ∉ s) ∧ ("010"%char ∉ s).
Proof.
  intros HF. split; (eapply class_excludes, HF);
    intros c [? ?]%negb_true_iff%orb_false_iff; by apply negb_true_iff.
Qed.

Lemma single_line_app a b :
  ("013"%char ∉ a) ∧ ("010"%char ∉ a) → ("013"%char ∉ b) ∧ ("010"%char ∉ b) → a ++ b ≠ [] →
  single_line (a ++ b).
Proof. unfold single_line. rewrite !not_elem_of_app. tauto. Qed.

Lemma field_line_single h :
  valid_header_name (hname h) = true → valid_header_value (hvalue h) = true →
  single_line (field_line h).
Proof.
  destruct h as [[|c n] v]; [done|]. cbn [hname hvalue].
  intros Hn%forallb_Forall Hv%forallb_Forall. apply single_line_app; [| |done].
  - apply no_break_excludes. eapply Forall_impl; [exact Hn|]. apply token_char_no_break.
  - rewrite !not_elem_of_app. destruct (no_break_excludes v Hv).
    split; (split; [apply (bool_decide_eq_false_1 _); reflexivity|done]).
Qed.

Lemma to_string_no_break z : ("013"%char ∉ to_string z) ∧ ("010"%char ∉ to_string z).
Proof.
  apply no_break_excludes. eapply Forall_impl; [apply to_string_chars|].
  apply number_char_no_break.
Qed.

Lemma no_break_valid_value v :
  ("013"%char ∉ v) ∧ ("010"%char ∉ v) → valid_header_value v = true.
Proof.
  intros [H1 H2]. apply forallb_Forall, Forall_forall. intros c Hc.
  apply negb_true_iff, orb_false_iff. split; apply Ascii.eqb_neq; by intros ->.
Qed.

(** Every field of the head has a token for its name and a one-line value. *)
Lemma head_fields_valid r p :
  Forall (λ h, valid_header_name (hname h) = true ∧ valid_header_value (hvalue h) = true)
    (head_fields r p).
Proof.
  unfold head_fields. rewrite !Forall_app. split_and!.
  - constructor; [by destruct p|]. constructor; [|done]. split; [done|].
    apply no_break_valid_value, to_string_no_break.
  - destruct (content_type_written r) eqn:Hct; [|done].
    constructor; [|done]. by apply andb_true_iff in Hct as [_ ?].
  - apply Forall_forall. intros h [Ha _]%list_elem_of_filter. by destruct Ha as (_ & ? & ?).
Qed.

(** At most one field of the head has a reserved name. *)
Lemma filter_reserved_none r name hs :
  (∀ n, name_equiv n name → is_reserved_header n (content_type_written r) = true) →
  filter (λ h, name_equiv (hname h) name) (filter (accepted r) hs) = [].
Proof.
  intros Hres. induction hs as [|h hs IH]; [done|]. rewrite filter_cons.
  case_decide as Ha; [|done]. rewrite filter_cons_False; [done|].
  intros Hn%Hres. by destruct Ha as [? _]; congruence.
Qed.

Lemma reserved_connection r n :
  name_equiv n "Connection" → is_reserved_header n (content_type_written r) = true.
Proof. intros H%header_name_equals_spec. unfold is_reserved_header. by rewrite H. Qed.

Lemma reserved_content_length r n :
  name_equiv n "Content-Length" → is_reserved_header n (content_type_written r) = true.
Proof.
  intros H%header_name_equals_spec. unfold is_reserved_header. rewrite H.
  by destruct (header_name_equals n "Connection").
Qed.

(** The head is read line by line, and what follows it is the body. *)
Lemma serialize_framed r p :
  ("013"%char ∉ reason r) → ("010"%char ∉ reason r) →
  Forall single_line (head_lines r p) ∧ decode (serialize r p) = Some (head_lines r p, body r).
Proof.
  intros Hcr Hlf.
  assert (Hs : Forall single_line (head_lines r p)).
  { constructor.
    - destruct (to_string_no_break (status r)). unfold single_line, status_line.
      rewrite !not_elem_of_app.
      split_and!; try done; apply (bool_decide_eq_false_1 _); reflexivity.
    - apply Forall_fmap. eapply Forall_impl; [apply (head_fields_valid r p)|].
      intros h [? ?]. by apply field_line_single. }
  split; [done|]. rewrite serialize_lines. apply decode_lines. eapply Forall_impl; [exact Hs|].
  by intros l (? & ? & _).
Qed.

(** C4: when the reason phrase has neither CR nor LF (the program writes it as it
    is, and does not look), a receiver reads from the serialized response exactly the status line, the fields of [head_fields],
    each a token name and a one-line value, and the body.  There is exactly one
    [Connection] field, with the policy, and exactly one [Content-Length]
    field, with the explicit length or the size of the body; the custom headers
    that are neither reserved nor malformed are kept in order. *)
Theorem serialize_framing r p :
  ("013"%char ∉ reason r) → ("010"%char ∉ reason r) →
  decode (serialize r p)
    = Some (status_line r :: (field_line <$> head_fields r p), body r) ∧
  Forall single_line (head_lines r p) ∧
  filter (λ h, name_equiv (hname h) "Connection") (head_fields r p)
    = [HeaderField "Connection" (policy_text p)] ∧
  filter (λ h, name_equiv (hname h) "Content-Length") (head_fields r p)
    = [HeaderField "Content-Length" (to_string (wire_length r))] ∧
  filter (accepted r) (response_headers r)
    = drop (if content_type_written r then 3 else 2) (head_fields r p).
Proof.
  intros Hcr Hlf. destruct (serialize_framed r p Hcr Hlf) as [Hs Hd].
  split_and!; [exact Hd|done| | |].
  - unfold head_fields. rewrite !filter_app, filter_reserved_none by apply reserved_connection.
    by destruct (content_type_written r).
  - unfold head_fields. rewrite !filter_app, filter_reserved_none by apply reserved_content_length.
    by destruct (content_type_written r).
  - unfold head_fields. by destruct (content_type_written r).
Qed.

Definition sample_response : response :=
  Response 200 "OK" "text/plain"
    [HeaderField "X-Test" "1"; HeaderField "connection" "upgrade";
     HeaderField "X-Bad" (("a" : bytes) ++ CRLF ++ ("Evil: 1" : bytes))]
    "hi" None.

Lemma serialize_framing_witness :
  decode (serialize sample_response keep_alive)
  = Some (["HTTP/1.1 200 OK" : bytes; "Connection: keep-alive" : bytes; "Content-Length: 2" : bytes;
           "Content-Type: text/plain" : bytes; "X-Test: 1" : bytes], "hi" : bytes).
Proof.
  destruct (serialize_framing sample_response keep_alive) as [H _].
  - apply (bool_decide_eq_false_1 _). reflexivity.
  - apply (bool_decide_eq_false_1 _). reflexivity.
  - rewrite H. vm_compute. reflexivity.
Defined.

(** The reason phrase is written as it is. *)
Definition with_reason (r : response) (x : bytes) : response :=
  Response (status r) x (content_type r) (response_headers r) (body r) (content_length r).

(** A line break in the reason phrase is not rejected: whatever follows it
    is read as header lines, so a response without custom headers can carry any
    header. *)
Theorem reason_adds_header r p h :
  ("013"%char ∉ reason r) → ("010"%char ∉ reason r) →
  valid_header_name (hname h) = true → valid_header_value (hvalue h) = true →
  decode (serialize (with_reason r (reason r ++ CRLF ++ field_line h)) p)
  = Some (status_line r :: field_line h :: (field_line <$> head_fields r p), body r).
Proof.
  intros Hcr Hlf Hn Hv.
  destruct (serialize_framed r p Hcr Hlf) as [HF _].
  apply Forall_cons in HF as [Hst HF].
  rewrite serialize_lines. unfold head_lines, status_line. cbn [with_reason status reason body].
  change (head_fields (with_reason r _) p) with (head_fields r p).
  replace (header_block_lines _) with
    (header_block_lines (status_line r :: field_line h :: (field_line <$> head_fields r p)))
    by (rewrite !header_block_lines_cons; unfold status_line; by rewrite <- !app_assoc).
  apply decode_lines. constructor; [by destruct Hst as (?&?&?)|].
  constructor; [by destruct (field_line_single h Hn Hv) as (?&?&?)|].
  eapply Forall_impl; [exact HF|]. by intros l (?&?&?).
Qed.

Lemma reason_adds_header_witness :
  decode (serialize (with_reason (text 200 "OK" "x")
    (("OK" : bytes) ++ CRLF ++ ("Set-Cookie: a=b" : bytes))) close)
  = Some (["HTTP/1.1 200 OK" : bytes; "Set-Cookie: a=b" : bytes; "Connection: close" : bytes;
           "Content-Length: 1" : bytes; "Content-Type: text/plain; charset=utf-8" : bytes], "x" : bytes).
Proof.
  pose proof (reason_adds_header (text 200 "OK" "x") close (HeaderField "Set-Cookie" "a=b")) as H.
  etransitivity; [|etransitivity; [apply H|]].
  - reflexivity.
  - apply (bool_decide_eq_false_1 _). reflexivity.
  - apply (bool_decide_eq_false_1 _). reflexivity.
  - reflexivity.
  - reflexivity.
  - vm_compute. reflexivity.
Defined.

(** ** Custom headers as a map from names to values *)

Definition response_header_value (r : response) (name : bytes) : option bytes :=
  hvalue <$> response_find_header r name.

Lemma set_first_lookup hs n v hs' n' :
  set_first hs n v = Some hs' →
  hvalue <$> find_by_name hs' n'
  = if decide (name_equiv n' n) then Some v else hvalue <$> find_by_name hs n'.
Proof.
  revert hs'. induction hs as [|h hs IH]; intros hs'; [done|]. simpl.
  destruct (header_name_equals (hname h) n) eqn:Heq.
  - intros [= <-]. apply header_name_equals_spec in Heq. unfold find_by_name. simpl.
    destruct (header_name_equals (hname h) n') eqn:Heq'; simpl; [|].
    + apply header_name_equals_spec in Heq'. rewrite decide_True; [done|]. unfold name_equiv in *. congruence.
    + rewrite decide_False; [done|]. intros H.
      assert (name_equiv (hname h) n') as H'%header_name_equals_spec; [|congruence].
      unfold name_equiv in *. congruence.
  - destruct (set_first hs n v) as [hs''|] eqn:Hs; [|done]. intros [= <-].
    unfold find_by_name in *. simpl.
    destruct (header_name_equals (hname h) n') eqn:Heq'; [|by apply IH].
    apply header_name_equals_spec in Heq'. rewrite decide_False; [done|].
    intros H. assert (name_equiv (hname h) n) as H'%header_name_equals_spec; [|congruence].
    unfold name_equiv in *. congruence.
Qed.

Lemma set_first_None hs n v :
  set_first hs n v = None → find_by_name hs n = None.
Proof.
  unfold find_by_name. induction hs as [|h hs IH]; simpl; [done|].
  destruct (header_name_equals (hname h) n); [done|].
  destruct (set_first hs n v); [done|]. intros _. by apply IH.
Qed.

Definition valid_header (name value : bytes) : bool :=
  valid_header_name name && valid_header_value value.

Lemma validate_header_spec n v :
  validate_header n v = Ret tt ∧ valid_header n v = true ∨
  (∃ e, validate_header n v = Throw e) ∧ valid_header n v = false.
Proof.
  unfold validate_header, valid_header.
  destruct (valid_header_name n); simpl; [|right; eauto].
  destruct (valid_header_value v); simpl; [by left|right; eauto].
Qed.

(** [set_header] and [add_header] throw exactly on a malformed name or
    value.  Otherwise a lookup after [set_header] finds the new value under
    every spelling of the name and is unchanged under the other names, and
    after [add_header] it finds the first value given to the name. *)
Theorem header_updates r n v :
  if valid_header n v then
    (∃ r', set_header r n v = Ret r' ∧ ∀ n', response_header_value r' n'
       = if decide (name_equiv n' n) then Some v else response_header_value r n') ∧
    (∃ r', add_header r n v = Ret r' ∧ ∀ n', response_header_value r' n'
       = match response_header_value r n' with
         | Some v' => Some v'
         | None => if decide (name_equiv n' n) then Some v else None
         end)
  else ∃ e, set_header r n v = Throw e ∧ add_header r n v = Throw e.
Proof.
  unfold set_header, add_header.
  destruct (validate_header_spec n v) as [[-> ->]|[[e ->] ->]]; [|by exists e]. simpl.
  assert (Hadd : ∀ n', hvalue <$> find_by_name (response_headers r ++ [HeaderField n v]) n'
    = match response_header_value r n' with
      | Some v' => Some v'
      | None => if decide (name_equiv n' n) then Some v else None
      end).
  { intros n'. rewrite find_by_name_app. unfold response_header_value, response_find_header.
    destruct (find_by_name _ n'); [done|]. unfold find_by_name. simpl.
    destruct (header_name_equals n n') eqn:H; case_decide as Hd; try done.
    - by apply header_name_equals_spec in H.
    - symmetry in Hd. apply header_name_equals_spec in Hd. congruence. }
  split; [|eexists; split; [done|]; apply Hadd].
  destruct (set_first (response_headers r) n v) as [hs|] eqn:Hs.
  - eexists; split; [done|]. intros n'. by apply set_first_lookup.
  - eexists; split; [done|]. intros n'. unfold response_header_value at 1, response_find_header.
    cbn [with_headers response_headers]. rewrite Hadd. case_decide as Hd.
    + unfold response_header_value, response_find_header. rewrite Hd.
      by rewrite (set_first_None _ _ _ Hs).
    + by destruct (response_header_value r n').
Qed.

(** [set_header] of a new name appends. *)
Lemma set_header_new r n v :
  valid_header_name n = true → valid_header_value v = true →
  Forall (λ h, header_name_equals (hname h) n = false) (response_headers r) →
  set_header r n v = Ret (with_headers r (response_headers r ++ [HeaderField n v])).
Proof.
  intros Hn Hv HF. unfold set_header, add_header, validate_header. rewrite Hn, Hv.
  cbn [negb]. rewrite !bind_ret.
  assert (Hs : set_first (response_headers r) n v = None); [|by rewrite Hs].
  induction HF as [|h hs Hh _ IH]; simpl; [done|]. by rewrite Hh, IH.
Qed.

Lemma add_header_ret r n v :
  valid_header_name n = true → valid_header_value v = true →
  add_header r n v = Ret (with_headers r (response_headers r ++ [HeaderField n v])).
Proof. intros Hn Hv. unfold add_header, validate_header. by rewrite Hn, Hv. Qed.
