(* ===== verification/Net.v ===== *)
(** * Transport ([src/net])

    The status types of [net/io.h], the stream interface of [net/stream.h] as a
    type class with the laws the HTTP layer relies on, and the implementation of
    the interface by [net::plain_stream] over [net::socket].  The system calls
    are parameters: [SocketApi] names them and [SocketApiLaws] states what POSIX
    documents about them. *)

From S2P Require Import Prelude.

Module IoStatus.
Inductive t := ok | closed | timeout | error.
#[global] Instance eq_dec : EqDecision t.
Proof. solve_decision. Defined.
End IoStatus.

Record read_result := ReadResult {
  rr_status : IoStatus.t;
  bytes_read : nat;
}.

(** ** The stream interface

    A read is given the size of the span and returns, next to its result, the
    bytes it wrote at the start of the span. *)
Class NetStream (S : Type) := {
  is_valid : S → bool;
  set_receive_timeout : Z → S → bool * S;
  set_send_timeout : Z → S → bool * S;
  handshake : S → outcome (IoStatus.t * S);
  recv_some : nat → S → outcome (read_result * bytes * S);
  send_all : bytes → S → outcome (IoStatus.t * S);
}.

Class NetStreamLaws (S : Type) `{!NetStream S} : Prop := {
  handshake_returns s : returns (handshake s);
  recv_some_returns n s : returns (recv_some n s);
  send_all_returns data s : returns (send_all data s);
  recv_some_ok n s rr data s' :
    recv_some n s = Ret (rr, data, s') → rr_status rr = IoStatus.ok →
    length data = bytes_read rr ∧ 0 < bytes_read rr ≤ n;
  recv_some_none n s rr data s' :
    recv_some n s = Ret (rr, data, s') → rr_status rr ≠ IoStatus.ok → data = [];
}.

#[export] Hint Resolve handshake_returns recv_some_returns send_all_returns : cpp.

(** A predicate that every call on a stream keeps. *)
Class StreamInvariant {S : Type} `{!NetStream S} (P : S → Prop) : Prop := {
  keeps_receive_timeout t s : P s → P (set_receive_timeout t s).2;
  keeps_send_timeout t s : P s → P (set_send_timeout t s).2;
  keeps_handshake s st s' : handshake s = Ret (st, s') → P s → P s';
  keeps_recv_some n s rr data s' : recv_some n s = Ret (rr, data, s') → P s → P s';
  keeps_send_all data s st s' : send_all data s = Ret (st, s') → P s → P s';
}.

(** ** The system calls of [net::socket] *)

(** The values of [errno] that the code names, and the others. *)
Inductive errno :=
  | EINTR
  | EAGAIN
  | EWOULDBLOCK
  | EBADF
  | EFAULT
  | EINVAL
  | ENOTSOCK
  | EOPNOTSUPP
  | errno_other (n : Z).

Record timeval := Timeval { tv_sec : Z; tv_usec : Z }.

Inductive timeout_option := SO_RCVTIMEO | SO_SNDTIMEO.

(** [interrupts w] counts the signals that will interrupt calls from the state
    [w] on, and [outgoing fd w] is what was sent on [fd] so far: neither is
    visible to the program. *)
Class SocketApi (W : Type) := {
  sys_recv : Z → nat → W → (errno + bytes) * W;
  sys_send : Z → bytes → W → (errno + nat) * W;
  sys_setsockopt : Z → timeout_option → timeval → W → bool * W;
  sys_shutdown_write : Z → W → W;
  sys_close : Z → W → W;
  interrupts : W → nat;
  outgoing : Z → W → bytes;
}.

Class SocketApiLaws (W : Type) `{!SocketApi W} : Prop := {
  sys_recv_bound fd n w data w' : sys_recv fd n w = (inr data, w') → length data ≤ n;
  sys_recv_interrupted fd n w w' :
    sys_recv fd n w = (inl EINTR, w') → interrupts w' < interrupts w;
  sys_send_progress fd data w n w' :
    sys_send fd data w = (inr n, w') →
    n ≤ length data ∧ interrupts w' ≤ interrupts w ∧
    outgoing fd w' = outgoing fd w ++ take n data;
  sys_send_failed fd data w e w' :
    sys_send fd data w = (inl e, w') →
    outgoing fd w' = outgoing fd w ∧ (e = EINTR → interrupts w' < interrupts w);
}.

(** ** [net::socket] *)

Record socket := Socket {
  sock_fd : Z;
  peer_address : bytes;
}.

(** [socket::socket()]: owns no descriptor. *)
Definition empty_socket : socket := Socket (-1) [].

(** [socket::socket(fd, peer_address)]: owns the descriptor. *)
Definition socket_new (fd : Z) (peer : bytes) : socket := Socket fd peer.

Definition socket_is_valid (s : socket) : bool := (0 <=? sock_fd s)%Z.

(** The move constructor: the new socket and what is left of the old one, whose
    moved-from address is unspecified by the standard (empty in libstdc++). *)
Definition socket_move (o : socket) : socket * socket :=
  (Socket (sock_fd o) (peer_address o), Socket (-1) []).

(** [to_timeval]: [duration_cast] truncates toward zero. *)
Definition to_timeval (timeout_ms : Z) : timeval :=
  let timeout := if (timeout_ms <? 0)%Z then 0%Z else timeout_ms in
  let secs := Z.quot timeout 1000 in
  let usecs := ((timeout - secs * 1000) * 1000)%Z in
  Timeval secs usecs.

Definition status_from_errno (error : errno) : IoStatus.t :=
  match error with
  | EAGAIN | EWOULDBLOCK => IoStatus.timeout
  | _ => IoStatus.error
  end.

Section Socket.
Context {W : Type} `{!SocketApi W}.

Definition socket_close (s : socket) (w : W) : socket * W :=
  if (0 <=? sock_fd s)%Z then
    let w := sys_shutdown_write (sock_fd s) w in
    let w := sys_close (sock_fd s) w in
    (Socket (-1) (peer_address s), w)
  else (s, w).

(** The destructor. *)
Definition socket_delete (s : socket) (w : W) : W := (socket_close s w).2.

(** [*this = std::move(o)] for two different sockets: this one, what is left
    of [o], and the system. *)
Definition socket_assign (this o : socket) (w : W) : socket * socket * W :=
  let '(this, w) := socket_close this w in
  (Socket (sock_fd o) (peer_address o), Socket (-1) [], w).

Definition socket_set_receive_timeout (s : socket) (timeout : Z) (w : W) : bool * W :=
  sys_setsockopt (sock_fd s) SO_RCVTIMEO (to_timeval timeout) w.

Definition socket_set_send_timeout (s : socket) (timeout : Z) (w : W) : bool * W :=
  sys_setsockopt (sock_fd s) SO_SNDTIMEO (to_timeval timeout) w.

(** The [for (;;)] of [recv_some], which retries interrupted calls. *)
Fixpoint recv_loop (fuel : nat) (fd : Z) (size : nat) (w : W)
    : outcome (read_result * bytes * W) :=
  match fuel with
  | O => Diverge
  | S fuel =>
      let '(rc, w) := sys_recv fd size w in
      match rc with
      | inl EINTR => recv_loop fuel fd size w
      | inr ((_ :: _) as data) => Ret (ReadResult IoStatus.ok (length data), data, w)
      | inr [] => Ret (ReadResult IoStatus.closed 0, [], w)
      | inl error => Ret (ReadResult (status_from_errno error) 0, [], w)
      end
  end.

Definition socket_recv_some (s : socket) (size : nat) (w : W) :=
  recv_loop (S (interrupts w)) (sock_fd s) size w.

(** [while (sent < data.size())] of [send_all]. *)
Fixpoint send_loop (fuel : nat) (fd : Z) (data : bytes) (sent : nat) (w : W)
    : outcome (IoStatus.t * W) :=
  match fuel with
  | O => Diverge
  | S fuel =>
      if sent <? length data then
        let '(rc, w) := sys_send fd (drop sent data) w in
        match rc with
        | inl EINTR => send_loop fuel fd data sent w
        | inr O => Ret (IoStatus.closed, w)
        | inl error => Ret (status_from_errno error, w)
        | inr n => send_loop fuel fd data (sent + n) w
        end
      else Ret (IoStatus.ok, w)
  end.

Definition socket_send_all (s : socket) (data : bytes) (w : W) :=
  send_loop (S (length data + interrupts w)) (sock_fd s) data 0 w.

(** The overload for texts sends their chars. *)
Definition socket_send_all_text (s : socket) (text : bytes) (w : W) := socket_send_all s text w.

(** *** [net::plain_stream]: the stream owns the socket *)

(** The constructor takes the socket over. *)
Definition plain_stream_new (client : socket) : socket := (socket_move client).1.

Definition plain_close (s : socket * W) : socket * W := socket_close s.1 s.2.

Definition plain_is_valid (s : socket * W) : bool := socket_is_valid s.1.
Definition plain_set_receive_timeout (timeout : Z) (s : socket * W) : bool * (socket * W) :=
  let '(ok, w) := socket_set_receive_timeout s.1 timeout s.2 in (ok, (s.1, w)).
Definition plain_set_send_timeout (timeout : Z) (s : socket * W) : bool * (socket * W) :=
  let '(ok, w) := socket_set_send_timeout s.1 timeout s.2 in (ok, (s.1, w)).
Definition plain_handshake (s : socket * W) : outcome (IoStatus.t * (socket * W)) :=
  Ret (IoStatus.ok, s).
Definition plain_recv_some (size : nat) (s : socket * W)
    : outcome (read_result * bytes * (socket * W)) :=
  '(rr, data, w) ← socket_recv_some s.1 size s.2; Ret (rr, data, (s.1, w)).
Definition plain_send_all (data : bytes) (s : socket * W)
    : outcome (IoStatus.t * (socket * W)) :=
  '(st, w) ← socket_send_all s.1 data s.2; Ret (st, (s.1, w)).

#[export] Instance plain_stream : NetStream (socket * W) := {|
  is_valid := plain_is_valid;
  set_receive_timeout := plain_set_receive_timeout;
  set_send_timeout := plain_set_send_timeout;
  handshake := plain_handshake;
  recv_some := plain_recv_some;
  send_all := plain_send_all;
|}.
End Socket.

(** A closed stream is not valid, and closing it again makes no system call. *)
Lemma plain_close_once {W} `{!SocketApi W} (s : socket * W) :
  plain_is_valid (plain_close s) = false ∧ plain_close (plain_close s) = plain_close s.
Proof.
  destruct s as [[fd peer] w]. unfold plain_is_valid, plain_close, socket_is_valid, socket_close. cbn.
  destruct (0 <=? fd)%Z eqn:Hfd; cbn; [done|]. by rewrite Hfd.
Qed.

(** ** The socket meets the stream interface *)

Section SocketLaws.
Context {W : Type} `{!SocketApi W, !SocketApiLaws W}.

Lemma recv_loop_spec fuel fd size w :
  interrupts w < fuel →
  ∃ rr data w', recv_loop fuel fd size w = Ret (rr, data, w') ∧
    (rr_status rr = IoStatus.ok → length data = bytes_read rr ∧ 0 < bytes_read rr ≤ size) ∧
    (rr_status rr ≠ IoStatus.ok → data = []).
Proof.
  revert w. induction fuel as [|fuel IH]; intros w Hf; [lia|]. simpl.
  destruct (sys_recv fd size w) as [[e|data] w'] eqn:Hr.
  - destruct e; [|by eexists _, _, _..]. apply IH.
    apply sys_recv_interrupted in Hr. lia.
  - apply sys_recv_bound in Hr. destruct data as [|c data]; [by eexists _, _, _|].
    exists (ReadResult IoStatus.ok (length (c :: data))), (c :: data), w'.
    cbn [rr_status bytes_read]. split_and!; [done|intros _|done].
    simpl in *. lia.
Qed.

Lemma send_loop_spec fuel fd data sent w :
  interrupts w + (length data - sent) < fuel → sent ≤ length data →
  ∃ st w' k, send_loop fuel fd data sent w = Ret (st, w') ∧ sent + k ≤ length data ∧
    outgoing fd w' = outgoing fd w ++ take k (drop sent data) ∧
    (st = IoStatus.ok ↔ sent + k = length data).
Proof.
  revert sent w. induction fuel as [|fuel IH]; intros sent w Hf Hs; [lia|]. simpl.
  destruct (Nat.ltb_spec sent (length data)).
  2: { exists IoStatus.ok, w, 0. rewrite take_0, app_nil_r.
       split_and!; [done|lia|done|]. split; [lia|done]. }
  destruct (sys_send fd (drop sent data) w) as [[e|n] w1] eqn:Hw.
  - apply sys_send_failed in Hw as [Hout Hint]. destruct e.
    { rewrite <- Hout. apply IH; [|done]. specialize (Hint eq_refl). lia. }
    all: eexists _, w1, 0; rewrite take_0, app_nil_r; split_and!; [done|lia|done|];
      split; [done|lia].
  - apply sys_send_progress in Hw as (Hn & Hint & Hout). rewrite length_drop in Hn.
    destruct n as [|n].
    { exists IoStatus.closed, w1, 0. split_and!; [done|lia|done|]. split; [done|lia]. }
    destruct (IH (sent + S n) w1) as (st & w' & k & Heq & Hk & Hout' & Hst); [lia..|].
    exists st, w', (S n + k). split_and!; [done|lia| |rewrite Hst; lia].
    rewrite Hout', Hout, <- app_assoc. f_equal.
    rewrite <- drop_drop, take_take_drop. done.
Qed.

#[export] Instance plain_stream_laws : NetStreamLaws (socket * W).
Proof.
  assert (Hrecv : ∀ n (s : socket * W), ∃ rr data w',
    recv_some n s = Ret (rr, data, (s.1, w')) ∧
    (rr_status rr = IoStatus.ok → length data = bytes_read rr ∧ 0 < bytes_read rr ≤ n) ∧
    (rr_status rr ≠ IoStatus.ok → data = [])).
  { intros n s. destruct (recv_loop_spec (S (interrupts s.2)) (sock_fd s.1) n s.2)
      as (rr & data & w' & Heq & ?); [lia|]. exists rr, data, w'. split; [|done].
    change (recv_some n s) with (plain_recv_some n s).
    unfold plain_recv_some, socket_recv_some. by rewrite Heq. }
  split.
  - intros s. apply returns_ret.
  - intros n s. destruct (Hrecv n s) as (? & ? & ? & -> & _). apply returns_ret.
  - intros data s. destruct (send_loop_spec (S (length data + interrupts s.2)) (sock_fd s.1)
      data 0 s.2) as (st & w' & k & Heq & _); [lia..|].
    change (send_all data s) with (plain_send_all data s).
    unfold plain_send_all, socket_send_all. rewrite Heq. apply returns_ret.
  - intros n s rr data s' Heq. destruct (Hrecv n s) as (? & ? & ? & Heq' & ? & _).
    rewrite Heq' in Heq. by injection Heq as <- <- _.
  - intros n s rr data s' Heq. destruct (Hrecv n s) as (? & ? & ? & Heq' & _ & ?).
    rewrite Heq' in Heq. by injection Heq as <- <- _.
Qed.

(** [socket::send_all] returns; what it added to the outgoing bytes is a prefix of
    the data, whatever partial writes and interruptions happen, and it reports [ok]
    exactly when the prefix is the whole of the data. *)
Lemma socket_send_all_delivers (s : socket) data w :
  ∃ st w' k, socket_send_all s data w = Ret (st, w') ∧ k ≤ length data ∧
    outgoing (sock_fd s) w' = outgoing (sock_fd s) w ++ take k data ∧
    (st = IoStatus.ok ↔ k = length data).
Proof.
  destruct (send_loop_spec (S (length data + interrupts w)) (sock_fd s) data 0 w)
    as (st & w' & k & ? & ? & ? & ?); [lia..|].
  exists st, w', k. by rewrite drop_0 in *.
Qed.
End SocketLaws.

(** ** A scripted system, which the laws hold of *)
Module ScriptedApi.
Record t := Script {
  to_recv : list (errno + bytes);
  to_send : list (errno + nat);
  out : bytes;
}.

Definition is_interrupt {A} (r : errno + A) : bool :=
  match r with inl EINTR => true | _ => false end.

Definition recv (_ : Z) (n : nat) (w : t) : (errno + bytes) * t :=
  match to_recv w with
  | [] => (inr [], w)
  | r :: rs =>
      (match r with inl e => inl e | inr data => inr (take n data) end,
       Script rs (to_send w) (out w))
  end.

Definition send (_ : Z) (data : bytes) (w : t) : (errno + nat) * t :=
  match to_send w with
  | [] => (inr (length data), Script (to_recv w) [] (out w ++ data))
  | inl e :: rs => (inl e, Script (to_recv w) rs (out w))
  | inr n :: rs =>
      let n := n `min` length data in
      (inr n, Script (to_recv w) rs (out w ++ take n data))
  end.

Definition count (w : t) : nat :=
  length (List.filter is_interrupt (to_recv w)) + length (List.filter is_interrupt (to_send w)).

#[global] Instance api : SocketApi t := {|
  sys_recv := recv;
  sys_send := send;
  sys_setsockopt _ _ _ w := (true, w);
  sys_shutdown_write _ w := w;
  sys_close _ w := w;
  interrupts := count;
  outgoing _ := out;
|}.

#[global] Instance laws : SocketApiLaws t.
Proof.
  split.
  - intros fd n [[|[e|d] rs] ss o] data w'; cbn; intros [= <- <-]; [simpl; lia|].
    rewrite length_take. lia.
  - intros fd n [[|[[]|d] rs] ss o] w'; cbn; intros [= <-]. unfold count. simpl. lia.
  - intros fd data [rs [|[e|n] ss] o] k w'; cbn; intros [= <- <-]; simpl.
    + rewrite firstn_all. split_and!; [lia|done|done].
    + unfold count. simpl. split_and!; [lia|lia|done].
  - intros fd data [rs [|[e|n] ss] o] e' w'; cbn; intros [= <- <-]; simpl.
    split; [done|]. intros ->. unfold count. simpl. lia.
Qed.
End ScriptedApi.
