(* ===== verification/HttpFraming.v ===== *)
(** * Receive buffer and framing ([src/http/buffer.*], [src/http/framing.*]) *)

From S2P Require Import Prelude.
From S2P Require Import StringView.
From S2P Require Import HttpRequest.
From S2P Require Import Net.

(** ** [http::buffer] *)

Record buffer := Buffer {
  buf_data : bytes;
  buf_size : nat;
}.

Definition empty_buffer : buffer := Buffer [] 0.

(** The default [min_free] of [write_span]. *)
Definition default_min_free : nat := Z.to_nat 2048.

(** The buffer after a possible growth (new elements are zero), and the size of
    the span, which starts at [buf_size]. *)
Definition write_span (b : buffer) (min_free : nat) : buffer * nat :=
  let data :=
    if length (buf_data b) <? buf_size b + min_free
    then buf_data b ++ replicate (buf_size b + min_free - length (buf_data b)) "000"%char
    else buf_data b in
  (Buffer data (buf_size b), length data - buf_size b).

Definition commit (b : buffer) (n : nat) : buffer :=
  let size := buf_size b + n in
  let size := if length (buf_data b) <? size then length (buf_data b) else size in
  Buffer (buf_data b) size.

Definition as_string_view (b : buffer) : bytes := take (buf_size b) (buf_data b).

(** A read stores [bs] at the start of the free span: undefined behaviour when
    it does not fit. *)
Definition store (b : buffer) (bs : bytes) : outcome buffer :=
  if buf_size b + length bs <=? length (buf_data b) then
    Ret (Buffer (take (buf_size b) (buf_data b) ++ bs
                 ++ drop (buf_size b + length bs) (buf_data b)) (buf_size b))
  else Undef.

(** ** [http::read_header_block] *)

Module HeaderReadError.
Inductive t := closed | timeout | too_large | io_error.
#[global] Instance eq_dec : EqDecision t.
Proof. solve_decision. Defined.
End HeaderReadError.

Definition header_end : bytes := CRLF ++ CRLF.

Definition find_header_end (v : bytes) : option nat :=
  match find v header_end 0 with
  | None => None
  | Some p => Some (p + 4)
  end.

(** [garcon::config::max_request_header_bytes] *)
Definition max_request_header_bytes : nat := Z.to_nat (64 * 1024).

Section Framing.
Context {S : Type} `{!NetStream S}.

(** The [for (;;)] loop: the result, and the stream and the buffer after it. *)
Fixpoint read_header_loop (fuel : nat) (s : S) (b : buffer) (max_bytes : nat)
    : outcome (expected bytes HeaderReadError.t * S * buffer) :=
  match fuel with
  | O => Diverge
  | Datatypes.S fuel =>
      let view := as_string_view b in
      match find_header_end view with
      | Some end_ => block ← substr view 0 end_; Ret (Expect block, s, b)
      | None =>
          if max_bytes <=? length view then
            Ret (Unexpected HeaderReadError.too_large, s, b)
          else
            let '(b, out_size) := write_span b default_min_free in
            '(rc, written, s) ← recv_some out_size s;
            b ← store b written;
            match rr_status rc with
            | IoStatus.closed => Ret (Unexpected HeaderReadError.closed, s, b)
            | IoStatus.timeout => Ret (Unexpected HeaderReadError.timeout, s, b)
            | IoStatus.error => Ret (Unexpected HeaderReadError.io_error, s, b)
            | IoStatus.ok => read_header_loop fuel s (commit b (bytes_read rc)) max_bytes
            end
      end
  end.

Definition read_header_block (s : S) (b : buffer) (max_bytes : nat) :=
  read_header_loop (Datatypes.S max_bytes) s b max_bytes.
End Framing.

(** Framing only makes calls on the stream. *)
Lemma read_header_loop_keeps {S : Type} `{!NetStream S} (P : S → Prop) `{!StreamInvariant P}
    fuel s b max_bytes r s' b' :
  read_header_loop fuel s b max_bytes = Ret (r, s', b') → P s → P s'.
Proof.
  revert s b. induction fuel as [|fuel IH]; intros s b; [done|]. cbn [read_header_loop].
  destruct (find_header_end (as_string_view b)) as [e|].
  { intros H. inv_bind H. by injection H as _ -> _. }
  destruct (max_bytes <=? length (as_string_view b)); [by intros [= _ -> _]|].
  destruct (write_span b default_min_free) as [b1 n]. intros H HP.
  inv_bind H. destruct a as [[rc written] s1]. inv_bind H.
  assert (HP1 : P s1) by exact (keeps_recv_some _ _ _ _ _ Ha HP).
  destruct (rr_status rc); [by eapply IH|by injection H as _ <- _..].
Qed.

(** ** The buffer *)

Definition buffer_wf (b : buffer) : Prop := buf_size b ≤ length (buf_data b).

Lemma as_string_view_length b : buffer_wf b → length (as_string_view b) = buf_size b.
Proof. intros H. unfold as_string_view. rewrite length_take. unfold buffer_wf in H. lia. Qed.

Lemma write_span_spec b n :
  buffer_wf b →
  let '(b', size) := write_span b n in
  buffer_wf b' ∧ as_string_view b' = as_string_view b ∧ buf_size b' = buf_size b ∧
  n ≤ size ∧ buf_size b' + size = length (buf_data b') ∧
  length (buf_data b') = Nat.max (length (buf_data b)) (buf_size b + n).
Proof.
  intros H. unfold write_span, buffer_wf, as_string_view in *. simpl.
  destruct (Nat.ltb_spec (length (buf_data b)) (buf_size b + n)).
  - rewrite length_app, length_replicate, take_app_le by done. split_and!; [lia|done|done|lia..].
  - split_and!; [lia|done|done|lia..].
Qed.

(** Storing bytes that fit and committing them appends them to the view. *)
Lemma store_commit_spec b bs :
  buf_size b + length bs ≤ length (buf_data b) →
  ∃ b', store b bs = Ret b' ∧ as_string_view b' = as_string_view b ∧ buffer_wf b' ∧
    length (buf_data b') = length (buf_data b) ∧
    as_string_view (commit b' (length bs)) = as_string_view b ++ bs ∧
    buffer_wf (commit b' (length bs)) ∧ buf_size (commit b' (length bs)) = buf_size b + length bs ∧
    length (buf_data (commit b' (length bs))) = length (buf_data b).
Proof.
  intros H. unfold store. rewrite (proj2 (Nat.leb_le _ _)) by done. eexists. split; [done|].
  unfold commit, as_string_view, buffer_wf. simpl.
  set (data := take _ _ ++ _).
  assert (Hl : length data = length (buf_data b)).
  { unfold data. rewrite !length_app, length_take, length_drop. lia. }
  rewrite Hl, (proj2 (Nat.ltb_ge _ _)) by lia.
  assert (Ht : length (take (buf_size b) (buf_data b)) = buf_size b) by (rewrite length_take; lia).
  split_and!; [|lia|done| |lia|lia|done].
  - unfold data. rewrite take_app_le by lia. rewrite take_ge; [done|lia].
  - unfold data. rewrite app_assoc, take_app_le by (rewrite length_app; lia).
    apply take_ge. rewrite length_app. lia.
Qed.

(** ** Framing against the bytes the stream delivered *)

(** [receives s bs s']: successful reads lead from [s] to [s'] and deliver [bs]. *)
Inductive receives {S : Type} `{!NetStream S} : S → bytes → S → Prop :=
  | receives_nil s : receives s [] s
  | receives_more n s rc data s1 bs s2 :
      recv_some n s = Ret (rc, data, s1) → rr_status rc = IoStatus.ok →
      receives s1 bs s2 → receives s (data ++ bs) s2.

(** The status a failed read is reported as. *)
Definition read_error (st : IoStatus.t) : option HeaderReadError.t :=
  match st with
  | IoStatus.ok => None
  | IoStatus.closed => Some HeaderReadError.closed
  | IoStatus.timeout => Some HeaderReadError.timeout
  | IoStatus.error => Some HeaderReadError.io_error
  end.

(** The outcome of framing, in terms of the view of the buffer at the end: a
    header block is the bytes up to the first blank line, [too_large] means the
    limit was reached without one, and the other errors are those of the last
    read [s1] to [s']. *)
Definition framed {S : Type} `{!NetStream S} (max_bytes : nat) (view : bytes)
    (r : expected bytes HeaderReadError.t) (s1 s' : S) : Prop :=
  match r with
  | Expect block =>
      s1 = s' ∧ ∃ i, search header_end view = Some i ∧ block = take (i + 4) view
  | Unexpected HeaderReadError.too_large =>
      s1 = s' ∧ search header_end view = None ∧ max_bytes ≤ length view
  | Unexpected e =>
      search header_end view = None ∧ length view < max_bytes ∧
      ∃ n rc data, recv_some n s1 = Ret (rc, data, s') ∧ read_error (rr_status rc) = Some e
  end.

Section FramingSpec.
Context {S : Type} `{!NetStream S, !NetStreamLaws S}.

Lemma receives_app (s1 s2 s3 : S) a b :
  receives s1 a s2 → receives s2 b s3 → receives s1 (a ++ b) s3.
Proof.
  induction 1; intros; [done|]. rewrite <- app_assoc. eapply receives_more; eauto.
Qed.

Lemma read_header_loop_spec fuel (s : S) b max :
  buffer_wf b → max - buf_size b < fuel → length (buf_data b) ≤ max + 2047 →
  ∃ r s1 s' b' received, read_header_loop fuel s b max = Ret (r, s', b') ∧
    receives s received s1 ∧ as_string_view b' = as_string_view b ++ received ∧
    framed max (as_string_view b') r s1 s' ∧ length (buf_data b') ≤ max + 2047.
Proof.
  revert s b. induction fuel as [|fuel IH]; intros s b Hwf Hf Hmem; [lia|].
  cbn [read_header_loop]. unfold find_header_end. rewrite find_0.
  pose proof (as_string_view_length b Hwf) as Hlen.
  destruct (search header_end (as_string_view b)) as [i|] eqn:Hs.
  { pose proof (search_length _ _ _ Hs) as Hl. rewrite substr_ret, drop_0 by lia.
    eexists (Expect _), s, s, b, []. rewrite app_nil_r.
    split_and!; [done|constructor|done| |done]. split; [done|]. eauto. }
  destruct (Nat.leb_spec max (length (as_string_view b))).
  { eexists (Unexpected _), s, s, b, []. rewrite app_nil_r.
    split_and!; [done|constructor|done|done|done]. }
  pose proof (write_span_spec b default_min_free Hwf) as Hspan.
  destruct (write_span b default_min_free) as [b1 size].
  destruct Hspan as (Hwf1 & Hview1 & Hsize1 & Hmin & Hfit & Hgrow).
  change default_min_free with 2048 in Hmin, Hgrow.
  destruct (recv_some_returns size s) as [[[rc data] s1] Hr]. rewrite Hr. autorewrite with cpp.
  destruct (decide (rr_status rc = IoStatus.ok)) as [Hok|Hnok].
  - destruct (recv_some_ok _ _ _ _ _ Hr Hok) as [Hn Hpos].
    destruct (store_commit_spec b1 data) as (b2 & -> & _ & _ & _ & Hv & Hwf2 & Hs2 & Hd2); [lia|].
    autorewrite with cpp. rewrite Hok, <- Hn.
    destruct (IH s1 (commit b2 (length data))) as (r & s2 & s' & b' & recvd & -> & Hrec & Hview & Hfr & Hm);
      [done|lia|lia|].
    exists r, s2, s', b', (data ++ recvd). split_and!; [done| | |done|done].
    + by eapply receives_more.
    + by rewrite Hview, Hv, Hview1, app_assoc.
  - rewrite (recv_some_none _ _ _ _ _ Hr Hnok) in *.
    destruct (store_commit_spec b1 []) as (b2 & -> & Hv & Hwf2 & Hd2 & _); [simpl; lia|].
    autorewrite with cpp.
    assert (Hfr : ∀ e, read_error (rr_status rc) = Some e → e ≠ HeaderReadError.too_large →
      framed max (as_string_view b2) (Unexpected e) s s1).
    { intros e He Hne. rewrite Hv, Hview1.
      assert (search header_end (as_string_view b) = None ∧
        length (as_string_view b) < max ∧ ∃ n rc data, recv_some n s = Ret (rc, data, s1) ∧
          read_error (rr_status rc) = Some e) by (split_and!; [done|done|eauto]).
      by destruct e. }
    destruct (rr_status rc); [done|..]; eexists (Unexpected _), s, s1, b2, [];
      rewrite app_nil_r;
      (split_and!; [reflexivity|apply receives_nil|congruence|by apply Hfr|lia]).
Qed.

(** Reading into a fresh buffer. *)
Lemma read_header_block_fresh (s : S) max :
  1 ≤ max →
  ∃ r s1 s' b', read_header_block s empty_buffer max = Ret (r, s', b') ∧
    receives s (as_string_view b') s1 ∧ framed max (as_string_view b') r s1 s' ∧
    length (buf_data b') ≤ max + 2047.
Proof.
  intros Hmax.
  destruct (read_header_loop_spec (Datatypes.S max) s empty_buffer max)
    as (r & s1 & s' & b' & received & Heq & Hrec & Hview & Hfr & Hm); [unfold buffer_wf; simpl; lia..|].
  exists r, s1, s', b'. change (as_string_view b' = received) in Hview. subst received.
  by split_and!.
Qed.

(** C9: reading a header block into a fresh buffer returns.  What the stream
    delivered is the view of the buffer; the block is the bytes up to and
    including the first blank line; [too_large] is reported only when the
    limit is reached without a blank line, and a failed read as such.  The
    buffer never holds more than the limit plus one read. *)
Theorem read_header_block_spec (s : S) max :
  1 ≤ max →
  ∃ r s1 s' b', read_header_block s empty_buffer max = Ret (r, s', b') ∧
    receives s (as_string_view b') s1 ∧ framed max (as_string_view b') r s1 s' ∧
    length (buf_data b') ≤ max + 2047.
Proof. apply read_header_block_fresh. Qed.
End FramingSpec.

(** How the bytes arrive does not matter: when two streams deliver bytes of
    which one is a beginning of the other and both yield a header block, it is
    the same block. *)
Theorem framing_chunk_independent {S1 S2 : Type}
    `{!NetStream S1, !NetStreamLaws S1, !NetStream S2, !NetStreamLaws S2}
    (s1 s1' : S1) (s2 s2' : S2) max1 max2 b1 b2 h1 h2 :
  1 ≤ max1 → 1 ≤ max2 →
  read_header_block s1 empty_buffer max1 = Ret (Expect h1, s1', b1) →
  read_header_block s2 empty_buffer max2 = Ret (Expect h2, s2', b2) →
  as_string_view b1 `prefix_of` as_string_view b2 →
  h1 = h2.
Proof.
  intros Hm1 Hm2 H1 H2 [rest Hp].
  destruct (read_header_block_fresh s1 max1 Hm1) as (r1 & ? & ? & ? & E1 & _ & F1 & _).
  destruct (read_header_block_fresh s2 max2 Hm2) as (r2 & ? & ? & ? & E2 & _ & F2 & _).
  rewrite H1 in E1. injection E1 as <- <- <-. rewrite H2 in E2. injection E2 as <- <- <-.
  destruct F1 as (_ & i & Hi & ->), F2 as (_ & j & Hj & ->).
  rewrite Hp in *. pose proof (search_length _ _ _ Hi) as Hl. simpl in Hl.
  rewrite (search_extend _ _ _ _ Hi) in Hj. injection Hj as <-.
  by rewrite take_app_le by lia.
Qed.

(** Concrete streams: the same request in two chunks and in three. *)
Definition two_chunks : socket * ScriptedApi.t :=
  (Socket 3 [],
   ScriptedApi.Script [inr ("GET / HTTP/1.1" : bytes); inl EINTR;
                       inr (CRLF ++ ("Host: a" : bytes) ++ header_end)] [] "").

Definition three_chunks : socket * ScriptedApi.t :=
  (Socket 4 [],
   ScriptedApi.Script [inr ("GET / " : bytes); inr (("HTTP/1.1" : bytes) ++ ["013"%char]);
                       inr (["010"%char] ++ ("Host: a" : bytes) ++ header_end ++ "GET")] [] "").

Definition two_chunks_block : bytes :=
  ("GET / HTTP/1.1" : bytes) ++ CRLF ++ ("Host: a" : bytes) ++ header_end.

Definition framing_result {S} (m : outcome (expected bytes HeaderReadError.t * S * buffer)) :=
  '(r, _, b) ← m; Ret (r, as_string_view b).

Lemma read_header_block_spec_witness :
  framing_result (read_header_block two_chunks empty_buffer 100)
  = Ret (Expect two_chunks_block, two_chunks_block).
Proof.
  destruct (read_header_block_spec two_chunks 100) as (r & s1 & s' & b' & Heq & _); [lia|].
  vm_compute in Heq. injection Heq as <- <- <-. vm_compute. reflexivity.
Defined.

Lemma framing_chunk_independent_witness :
  ∃ s1 b1 s2 b2 h1 h2,
    read_header_block two_chunks empty_buffer 100 = Ret (Expect h1, s1, b1) ∧
    read_header_block three_chunks empty_buffer 100 = Ret (Expect h2, s2, b2) ∧ h1 = h2.
Proof.
  destruct (read_header_block two_chunks empty_buffer 100) as [[[[h1|] s1] b1]| | |] eqn:E1;
    vm_compute in E1; [|discriminate..].
  destruct (read_header_block three_chunks empty_buffer 100) as [[[[h2|] s2] b2]| | |] eqn:E2;
    vm_compute in E2; [|discriminate..].
  exists s1, b1, s2, b2, h1, h2. injection E1 as <- <- <-. injection E2 as <- <- <-.
  split_and!; [reflexivity|reflexivity|].
  eapply (framing_chunk_independent two_chunks _ three_chunks _ 100 100);
    [lia|lia|vm_compute; reflexivity|vm_compute; reflexivity|].
  vm_compute. by exists ("GET" : bytes).
Defined.
