(* ===== verification/Pipeline.v ===== *)
(** * The ordered request pipeline ([src/app/request_module.h],
    [src/app/request_pipeline.cpp])

    Modules may keep a state ([rate_limit] does), so a module is a program over
    a world [W] shared by the pipeline. *)

From S2P Require Import Prelude.
From S2P Require Import StringView.
From S2P Require Import HttpHeader.
From S2P Require Import HttpRequest.
From S2P Require Import HttpResponse.

(** ** Module results *)

(** [std::variant<pass_result, respond_result, upgrade_result, error_result>] *)
Inductive module_result :=
  | pass_result (headers : list header_field)
  | respond_result (resp : response)
  | upgrade_result (headers : list header_field)
  | error_result (headers : list header_field).

Definition module_pass : module_result := pass_result [].
Definition module_respond (r : response) : module_result := respond_result r.
Definition module_upgrade : module_result := upgrade_result [].
Definition module_error : module_result := error_result [].

Definition add_response_header (m : module_result) (name value : bytes) : module_result :=
  let header := HeaderField name value in
  match m with
  | respond_result r => respond_result (with_headers r (response_headers r ++ [header]))
  | pass_result hs => pass_result (hs ++ [header])
  | upgrade_result hs => upgrade_result (hs ++ [header])
  | error_result hs => error_result (hs ++ [header])
  end.

(** ** The pipeline *)

(** [app::request_module] *)
Record request_module (W : Type) := RequestModule {
  module_name : bytes;
  module_handle : request → prog W module_result;
}.
Arguments RequestModule {W}.
Arguments module_name {W}.
Arguments module_handle {W}.

Definition append_response_headers (r : response) (hs : list header_field) : response :=
  with_headers r (response_headers r ++ hs).

Definition finalize_response (r : response) (pending : list header_field) : response :=
  append_response_headers r pending.

Definition upgrade_response : response :=
  text 501 "Not Implemented" ("connection upgrade not implemented" ++ ["010"%char]).
Definition error_response : response :=
  text 500 "Internal Server Error" ("module error" ++ ["010"%char]).
Definition not_found_response : response :=
  text 404 "Not Found" ("not found" ++ ["010"%char]).

(** The visitor of [request_pipeline::handle]: the response, if the result is
    final, and the pending headers after it. *)
Definition visit_result (m : module_result) (pending : list header_field)
    : option response * list header_field :=
  match m with
  | pass_result hs => (None, pending ++ hs)
  | respond_result r => (Some (finalize_response r pending), pending)
  | upgrade_result hs =>
      let pending := pending ++ hs in (Some (finalize_response upgrade_response pending), pending)
  | error_result hs =>
      let pending := pending ++ hs in (Some (finalize_response error_response pending), pending)
  end.

Section Pipeline.
Context {W : Type}.
Implicit Types (modules : list (request_module W)) (m : request_module W).

(** [add_module]: a null pointer is rejected. *)
Definition add_module modules (m : option (request_module W))
    : outcome (list (request_module W)) :=
  match m with
  | None => Throw (invalid_argument "request pipeline module must not be null")
  | Some m => Ret (modules ++ [m])
  end.

Fixpoint handle_from modules (req : request) (pending : list header_field) : prog W response :=
  match modules with
  | [] => mret (finalize_response not_found_response pending)
  | m :: modules =>
      result ← module_handle m req;
      match visit_result result pending with
      | (Some r, _) => mret r
      | (None, pending) => handle_from modules req pending
      end
  end.

Definition pipeline_handle modules (req : request) : prog W response :=
  handle_from modules req [].

(** ** What the pipeline promises

    [passes ms req w hs w']: every module of [ms] is called once, in order,
    passes, and together they contribute the headers [hs]. *)
Inductive passes : list (request_module W) → request → W → list header_field → W → Prop :=
  | passes_nil req w : passes [] req w [] w
  | passes_cons m ms req w hs w1 hs' w' :
      module_handle m req w = (Ret (pass_result hs), w1) →
      passes ms req w1 hs' w' → passes (m :: ms) req w (hs ++ hs') w'.

(** The response a final result stands for, before the pending headers. *)
Definition final_response (r : module_result) : option response :=
  match r with
  | pass_result _ => None
  | respond_result r => Some r
  | upgrade_result hs => Some upgrade_response
  | error_result hs => Some error_response
  end.

(** The headers a final result adds to the pending ones. *)
Definition final_headers (r : module_result) : list header_field :=
  match r with
  | pass_result hs | upgrade_result hs | error_result hs => hs
  | respond_result _ => []
  end.

(** The first module that does not pass decides; later modules are not
    called.  When every module passes, the answer is 404. *)
Inductive pipeline_spec modules (req : request) (w : W) : response → W → Prop :=
  | spec_decided before m after hs w1 res r w' :
      modules = before ++ m :: after → passes before req w hs w1 →
      module_handle m req w1 = (Ret res, w') → final_response res = Some r →
      pipeline_spec modules req w
        (with_headers r (response_headers r ++ hs ++ final_headers res)) w'
  | spec_not_found hs w' :
      passes modules req w hs w' →
      pipeline_spec modules req w (with_headers not_found_response hs) w'.

Lemma handle_from_decided before m after req pending w hs w1 res r w' :
  passes before req w hs w1 → module_handle m req w1 = (Ret res, w') →
  final_response res = Some r →
  handle_from (before ++ m :: after) req pending w
  = (Ret (with_headers r (response_headers r ++ (pending ++ hs) ++ final_headers res)), w').
Proof.
  intros Hp. revert pending. induction Hp as [req w|m0 ms req w hs w1 hs' w2 Hm Hp IH];
    intros pending Hres Hfin; simpl.
  - rewrite (prog_bind_ret _ _ _ _ _ Hres), app_nil_r.
    destruct res; simpl in *; try done; injection Hfin as <-; by rewrite ?app_nil_r.
  - rewrite (prog_bind_ret _ _ _ _ _ Hm). simpl. rewrite IH by done. by rewrite !app_assoc.
Qed.

Lemma handle_from_not_found modules req pending w hs w' :
  passes modules req w hs w' →
  handle_from modules req pending w
  = (Ret (with_headers not_found_response (pending ++ hs)), w').
Proof.
  intros Hp. revert pending. induction Hp as [req w|m ms req w hs w1 hs' w2 Hm Hp IH];
    intros pending; simpl.
  - by rewrite app_nil_r.
  - rewrite (prog_bind_ret _ _ _ _ _ Hm). simpl. rewrite IH. by rewrite app_assoc.
Qed.

Lemma handle_from_passes before after req pending w hs w1 :
  passes before req w hs w1 →
  handle_from (before ++ after) req pending w = handle_from after req (pending ++ hs) w1.
Proof.
  intros Hp. revert pending. induction Hp as [req w|m ms req w hs w1 hs' w2 Hm Hp IH];
    intros pending; simpl; [by rewrite app_nil_r|].
  rewrite (prog_bind_ret _ _ _ _ _ Hm). simpl. by rewrite IH, app_assoc.
Qed.

Lemma handle_from_inv modules req pending w r w' :
  handle_from modules req pending w = (Ret r, w') →
  (∃ before m after hs w1 res r0, modules = before ++ m :: after ∧
    passes before req w hs w1 ∧ module_handle m req w1 = (Ret res, w') ∧
    final_response res = Some r0) ∨
  (∃ hs, passes modules req w hs w').
Proof.
  revert pending w. induction modules as [|m ms IH]; intros pending w; simpl.
  { intros [= <- <-]. right. exists []. constructor. }
  intros (res & w1 & Hm & Hrest)%prog_bind_inv.
  destruct res as [hs|r0|hs|hs]; simpl in Hrest.
  2-4: injection Hrest as <- <-; left; eexists [], m, ms, [], w, _, _;
       split_and!; [done|constructor|exact Hm|done].
  apply IH in Hrest as [(before & m' & after & hs' & w2 & res & r0 & -> & Hp & ? & ?)|[hs' Hp]].
  - left. exists (m :: before), m', after, (hs ++ hs'), w2, res, r0.
    split_and!; [done|by econstructor|done|done].
  - right. exists (hs ++ hs'). by econstructor.
Qed.

(** C3: the pipeline answers exactly what its specification allows: the
    first module that does not pass decides the response, the headers of the
    modules before it are appended in order, later modules are not called,
    and the answer is 404 when every module passes. *)
Theorem pipeline_refines_spec modules req w r w' :
  pipeline_handle modules req w = (Ret r, w') ↔ pipeline_spec modules req w r w'.
Proof.
  unfold pipeline_handle. split.
  - intros H. destruct (handle_from_inv _ _ _ _ _ _ H)
      as [(before & m & after & hs & w1 & res & r0 & -> & Hp & Hm & Hf)|[hs Hp]].
    + rewrite (handle_from_decided _ _ _ _ _ _ _ _ _ _ _ Hp Hm Hf) in H.
      injection H as <-. by eapply spec_decided.
    + rewrite (handle_from_not_found _ _ _ _ _ _ Hp) in H. injection H as <-.
      by apply spec_not_found.
  - intros [before m after hs w1 res r0 w'' -> Hp Hm Hf|hs w'' Hp].
    + by rewrite (handle_from_decided _ _ _ _ _ _ _ _ _ _ _ Hp Hm Hf).
    + by rewrite (handle_from_not_found _ _ _ _ _ _ Hp).
Qed.

(** What the modules after a deciding one are does not matter. *)
Lemma pipeline_after before m after after' req w hs w1 res r w' :
  passes before req w hs w1 → module_handle m req w1 = (Ret res, w') →
  final_response res = Some r →
  pipeline_handle (before ++ m :: after) req w = pipeline_handle (before ++ m :: after') req w.
Proof.
  intros Hp Hm Hf. unfold pipeline_handle.
  by rewrite !(handle_from_decided _ _ _ _ _ _ _ _ _ _ _ Hp Hm Hf).
Qed.
End Pipeline.
