(* ===== verification/ModuleAbi.v ===== *)
(** * The module ABI ([include/garcon/module_abi.h], [include/garcon/module_cpp.h],
    [src/app/dynamic_module.cpp])

    A C++ module answers with a [result]; the exported C function publishes it in
    the views of the exchange, and the host copies the views back.  The views
    point into thread-local storage that lives until the next call on the thread;
    the host copies them before that, so a view is modelled by the bytes it shows
    ([None] is the null view of a zero-initialized exchange). *)

From S2P Require Import Prelude.
From S2P Require Import StringView.
From S2P Require Import HttpHeader.
From S2P Require Import HttpRequest.
From S2P Require Import HttpResponse.
From S2P Require Import Pipeline.

(** ** The C types *)

Definition string_view : Type := option bytes.

Record header_view := HeaderView { hv_name : string_view; hv_value : string_view }.

Record request_view := RequestView {
  rv_method : string_view;
  rv_target : string_view;
  rv_headers : list header_view;
}.

Record response_view := ResponseView {
  pv_status : Z;
  pv_reason : string_view;
  pv_content_type : string_view;
  pv_headers : list header_view;
  pv_body : string_view;
  pv_content_length : Z;
  pv_has_content_length : Z;
}.

Record exchange := Exchange { ex_request : request_view; ex_response : response_view }.

(** [.response = {}] *)
Definition zero_response_view : response_view := ResponseView 0 None None [] None 0 0.

Definition GARCON_MODULE_PASS : Z := 0.
Definition GARCON_MODULE_RESPOND : Z := 1.
Definition GARCON_MODULE_UPGRADE : Z := 2.
Definition GARCON_MODULE_ERROR : Z := 3.

(** ** The C++ side of a module *)

(** [garcon::module::outcome] *)
Inductive module_outcome := mo_pass | mo_respond | mo_upgrade | mo_error.

Definition outcome_code (o : module_outcome) : Z :=
  match o with
  | mo_pass => GARCON_MODULE_PASS
  | mo_respond => GARCON_MODULE_RESPOND
  | mo_upgrade => GARCON_MODULE_UPGRADE
  | mo_error => GARCON_MODULE_ERROR
  end.

(** [garcon::module::result] *)
Record result := Result {
  next : module_outcome;
  response_value : option response;
  result_headers : list header_field;
}.

Definition result_pass : result := Result mo_pass None [].
Definition result_respond (r : response) : result := Result mo_respond (Some r) [].
Definition result_upgrade : result := Result mo_upgrade None [].
Definition result_error : result := Result mo_error None [].

Definition result_add_header (r : result) (name value : bytes) : result :=
  Result (next r) (response_value r) (result_headers r ++ [HeaderField name value]).

(** [garcon::module::module]: the virtual [handle]. *)
Definition cpp_module (W : Type) : Type := request → prog W result.

(** [http_terminal_module::handle] *)
Definition http_terminal_handle {W} (handle_http : request → prog W response) : cpp_module W :=
  λ req, r ← handle_http req; mret (result_respond r).

(** ** [garcon::module::detail] *)

Definition to_abi_view (value : bytes) : string_view := Some value.

(** [assign(view.data ? view.data : "", view.size)] *)
Definition view_bytes (v : string_view) : bytes := default [] v.

Definition to_http_request (v : request_view) : request :=
  Request 1 1 (view_bytes (rv_method v)) (view_bytes (rv_target v))
    ((λ h, HeaderField (view_bytes (hv_name h)) (view_bytes (hv_value h))) <$> rv_headers v).

Definition publish_response_headers (hs : list header_field) (v : response_view) : response_view :=
  ResponseView (pv_status v) (pv_reason v) (pv_content_type v)
    ((λ h, HeaderView (to_abi_view (hname h)) (to_abi_view (hvalue h))) <$> hs)
    (pv_body v) (pv_content_length v) (pv_has_content_length v).

Definition publish_response (r : response) (e : exchange) : exchange :=
  let v := ex_response e in
  let v := ResponseView (status r) (to_abi_view (reason r)) (to_abi_view (content_type r))
             (pv_headers v) (pv_body v) (pv_content_length v) (pv_has_content_length v) in
  let v := publish_response_headers (response_headers r) v in
  let v := ResponseView (pv_status v) (pv_reason v) (pv_content_type v) (pv_headers v)
             (to_abi_view (body r))
             (default (Z.of_nat (length (body r))) (content_length r))
             (match content_length r with Some _ => 1 | None => 0 end)%Z in
  Exchange (ex_request e) v.

(** [detail::handle<Module>]: the outcome code and the exchange after the call.
    An exception of the module leaves the exchange as it is. *)
Definition abi_handle {W} (m : cpp_module W) (e : exchange) : W → outcome (Z * exchange) * W :=
  λ w,
  let '(r, w) := m (to_http_request (ex_request e)) w in
  (match r with
   | Ret r =>
       let e :=
         match response_value r with
         | Some resp =>
             publish_response (with_headers resp (response_headers resp ++ result_headers r)) e
         | None =>
             match result_headers r with
             | [] => e
             | hs => Exchange (ex_request e) (publish_response_headers hs (ex_response e))
             end
         end in
       Ret (outcome_code (next r), e)
   | Throw _ => Ret (GARCON_MODULE_ERROR, e)
   | Undef => Undef
   | Diverge => Diverge
   end, w).

(** ** [app::dynamic_module] *)

Definition make_string_view (value : bytes) : string_view := Some value.

Definition copy_string (value : string_view) : bytes :=
  match value with
  | None => []
  | Some s => s
  end.

Definition copy_headers (v : response_view) : list header_field :=
  (λ h, HeaderField (copy_string (hv_name h)) (copy_string (hv_value h))) <$> pv_headers v.

Definition to_http_response (v : response_view) : response :=
  let st := if (pv_status v =? 0)%Z then 200%Z else pv_status v in
  let rs := copy_string (pv_reason v) in
  let rs := if bytes_eqb rs [] then "OK" : bytes else rs in
  Response st rs (copy_string (pv_content_type v)) (copy_headers v) (copy_string (pv_body v))
    (if (pv_has_content_length v =? 0)%Z then None else Some (pv_content_length v)).

Definition with_response_headers (m : module_result) (v : response_view) : module_result :=
  foldl (λ m h, add_response_header m (hname h) (hvalue h)) m (copy_headers v).

(** The C function of a loaded module: the outcome code and the exchange, or an
    exception that crosses the ABI. *)
Definition abi_function (W : Type) : Type := exchange → W → outcome (Z * exchange) * W.

Definition exchange_for (req : request) : exchange :=
  Exchange
    (RequestView (make_string_view (method req)) (make_string_view (target req))
       ((λ h, HeaderView (make_string_view (hname h)) (make_string_view (hvalue h)))
          <$> request_headers req))
    zero_response_view.

(** [switch (result.outcome)] *)
Definition dispatch_outcome (code : Z) (v : response_view) : module_result :=
  if (code =? GARCON_MODULE_PASS)%Z then with_response_headers module_pass v
  else if (code =? GARCON_MODULE_RESPOND)%Z then module_respond (to_http_response v)
  else if (code =? GARCON_MODULE_UPGRADE)%Z then with_response_headers module_upgrade v
  else if (code =? GARCON_MODULE_ERROR)%Z then
    if negb (pv_status v =? 0)%Z then module_respond (to_http_response v)
    else with_response_headers module_error v
  else module_error.

(** [dynamic_module::handle]; [None] is a module without a handle function. *)
Definition dynamic_handle {W} (f : option (abi_function W)) (req : request) : prog W module_result :=
  λ w,
  match f with
  | None => (Ret module_error, w)
  | Some f =>
      let '(r, w) := f (exchange_for req) w in
      (match r with
       | Ret (code, e) => Ret (dispatch_outcome code (ex_response e))
       | Throw _ => Ret module_error
       | Undef => Undef
       | Diverge => Diverge
       end, w)
  end.

(** A C++ module loaded by the host. *)
Definition loaded {W} (name : bytes) (m : cpp_module W) : request_module W :=
  RequestModule name (dynamic_handle (Some (abi_handle m))).

(** ** The adapter is transparent *)

(** The request a module sees: the version is not part of the ABI. *)
Definition abi_request (req : request) : request :=
  Request 1 1 (method req) (target req) (request_headers req).

(** What the host makes of a response: defaults for a zero status and an empty
    reason. *)
Definition normalize (r : response) (hs : list header_field) : response :=
  Response (if (status r =? 0)%Z then 200%Z else status r)
    (if bytes_eqb (reason r) [] then "OK" : bytes else reason r)
    (content_type r) (response_headers r ++ hs) (body r) (content_length r).

(** The in-process result a module's result stands for. *)
Definition adapt (r : result) : module_result :=
  match response_value r with
  | Some resp =>
      let hs := response_headers resp ++ result_headers r in
      match next r with
      | mo_pass => pass_result hs
      | mo_respond => respond_result (normalize resp (result_headers r))
      | mo_upgrade => upgrade_result hs
      | mo_error =>
          if (status resp =? 0)%Z then error_result hs
          else respond_result (normalize resp (result_headers r))
      end
  | None =>
      match next r with
      | mo_pass => pass_result (result_headers r)
      | mo_respond => respond_result (Response 200 "OK" [] (result_headers r) [] None)
      | mo_upgrade => upgrade_result (result_headers r)
      | mo_error => error_result (result_headers r)
      end
  end.

Lemma to_http_request_exchange req :
  to_http_request (ex_request (exchange_for req)) = abi_request req.
Proof.
  unfold to_http_request, abi_request. cbn. f_equal.
  rewrite <- list_fmap_compose. rewrite <- (list_fmap_id (request_headers req)) at 2.
  apply list_fmap_ext. by intros ? [] ?.
Qed.

Lemma copy_headers_views hs v :
  copy_headers (publish_response_headers hs v) = hs.
Proof.
  unfold copy_headers. cbn. rewrite <- list_fmap_compose.
  rewrite <- (list_fmap_id hs) at 2. apply list_fmap_ext. by intros ? [] ?.
Qed.

Lemma foldl_add_headers m hs :
  foldl (λ m h, add_response_header m (hname h) (hvalue h)) m hs
  = match m with
    | respond_result r => respond_result (with_headers r (response_headers r ++ hs))
    | pass_result hs' => pass_result (hs' ++ hs)
    | upgrade_result hs' => upgrade_result (hs' ++ hs)
    | error_result hs' => error_result (hs' ++ hs)
    end.
Proof.
  revert m. induction hs as [|[n v] hs IH]; intros m; simpl.
  - destruct m as [|[]| |]; unfold with_headers; simpl; by rewrite app_nil_r.
  - rewrite IH. destruct m; simpl; by rewrite <- app_assoc.
Qed.

Lemma copy_headers_published r e :
  copy_headers (ex_response (publish_response r e)) = response_headers r.
Proof. exact (copy_headers_views (response_headers r) zero_response_view). Qed.

Lemma to_http_response_published r e :
  to_http_response (ex_response (publish_response r e)) = normalize r [].
Proof.
  unfold to_http_response, normalize. rewrite copy_headers_published, app_nil_r. cbn.
  by destruct (content_length r).
Qed.

Lemma dispatch_published r e o :
  dispatch_outcome (outcome_code o) (ex_response (publish_response r e))
  = match o with
    | mo_pass => pass_result (response_headers r)
    | mo_respond => respond_result (normalize r [])
    | mo_upgrade => upgrade_result (response_headers r)
    | mo_error => if (status r =? 0)%Z then error_result (response_headers r)
                  else respond_result (normalize r [])
    end.
Proof.
  unfold dispatch_outcome, with_response_headers.
  rewrite copy_headers_published, to_http_response_published, !foldl_add_headers.
  change (pv_status (ex_response (publish_response r e))) with (status r).
  destruct o; simpl; try done. by destruct (status r =? 0)%Z.
Qed.

Lemma loaded_handle {W} name (m : cpp_module W) req w :
  module_handle (loaded name m) req w
  = let '(r, w') := m (abi_request req) w in
    (match r with
     | Ret r => Ret (adapt r)
     | Throw _ => Ret (error_result [])
     | Undef => Undef
     | Diverge => Diverge
     end, w').
Proof.
  unfold loaded. cbn [module_handle]. unfold dynamic_handle, abi_handle.
  rewrite to_http_request_exchange.
  destruct (m (abi_request req) w) as [[[o resp hs]|e| |] w'] eqn:Hm; try done.
  cbn [response_value next result_headers]. unfold adapt. cbn [response_value next result_headers].
  destruct resp as [resp|].
  - rewrite dispatch_published. cbn [with_headers response_headers status].
    unfold normalize. cbn [with_headers response_headers status reason content_type body content_length].
    rewrite app_nil_r. by destruct o.
  - destruct hs as [|h hs].
    + by destruct o.
    + pose proof (copy_headers_views (h :: hs) zero_response_view) as Hh.
      unfold dispatch_outcome, with_response_headers, to_http_response.
      cbn [ex_response exchange_for]. rewrite Hh, !foldl_add_headers. by destruct o.
Qed.

(** C37: calling a loaded module is calling the module: it sees the request
    without its version, its result arrives as [adapt] says (pending headers
    and response fields unchanged, a zero status and an empty reason replaced),
    its state changes are kept, and an exception becomes the module-error
    outcome. *)
Theorem loaded_module_transparent {W} name (m : cpp_module W) req w :
  module_handle (loaded name m) req w
  = let '(r, w') := m (abi_request req) w in
    (match r with
     | Ret r => Ret (adapt r)
     | Throw _ => Ret (error_result [])
     | Undef => Undef
     | Diverge => Diverge
     end, w').
Proof. apply loaded_handle. Qed.
