(* ===== verification/ConfigText.v ===== *)
(** * Configuration text shared by the modules ([lib/*/*_module.cpp],
    [key_value_config] of [include/garcon/module_cpp.h])

    Every policy module has its own copy of the same helpers in an anonymous
    namespace: trimming, cutting into fields, the loop over the lines of the
    configuration, status codes, and method and target patterns.  They are
    defined once here; the module files name their copies. *)

From S2P Require Import Prelude.
From S2P Require Import StringView.

(** ** Lines *)

Definition newline : ascii := "010".

(** [!line.empty() && line.front() != '#'] *)
Definition is_content_line (line : bytes) : bool :=
  match line with
  | [] => false
  | c :: _ => negb (Ascii.eqb c "#")
  end.

(** [line.substr(0, prefix.size()) == prefix] *)
Definition starts_with (prefix line : bytes) : bool :=
  bytes_eqb (take (length prefix) line) prefix.

(** The loop of [parse_rules] and [parse_routes]: every line is trimmed, and
    the ones that hold a rule are parsed. *)
Definition parse_rule_lines {A} (is_rule_line : bytes → bool) (parse_line : bytes → outcome A)
    (config_text : bytes) : outcome (list A) :=
  each_piece (λ rules raw_line,
      line ← trim raw_line;
      if is_content_line line && is_rule_line line then
        rule ← parse_line line; Ret (inl (rules ++ [rule]))
      else Ret (inl rules))
    Ret config_text newline [].

(** ** Patterns *)

Inductive pattern_kind := pk_exact | pk_prefix.

#[export] Instance pattern_kind_eq_dec : EqDecision pattern_kind.
Proof. solve_decision. Defined.

(** A trailing [*] is removed and makes a prefix pattern. *)
Definition classify_target_pattern (pattern : bytes) : pattern_kind * bytes :=
  match last pattern with
  | Some c =>
      if Ascii.eqb c "*" then (pk_prefix, take (length pattern - 1) pattern)
      else (pk_exact, pattern)
  | None => (pk_exact, pattern)
  end.

Definition method_matches (pattern actual : bytes) : bool :=
  bytes_eqb pattern "*" || bytes_eqb pattern actual.

(** [actual.substr(0, pattern.size()) == pattern] *)
Definition target_matches (kind : pattern_kind) (pattern actual : bytes) : bool :=
  match kind with
  | pk_exact => bytes_eqb pattern actual
  | pk_prefix => bytes_eqb (take (length pattern) actual) pattern
  end.

(** ** Status codes; [who] starts the messages of the module *)

Definition parse_status_code (who value : bytes) : outcome Z :=
  match value with
  | [] => Throw (runtime_error (who ++ ": empty status code"))
  | _ =>
      status ← parse_int_digits (runtime_error (who ++ ": invalid status code")) value 0;
      if (status <? 100)%Z || (999 <? status)%Z
      then Throw (runtime_error (who ++ ": status code out of range"))
      else Ret status
  end.

(** ** [key_value_config::get] *)

Definition key_value_get (text key : bytes) : outcome (option bytes) :=
  each_piece (λ _ raw_line,
      line ← trim raw_line;
      if is_content_line line then
        match find_char line "=" 0 with
        | None => Ret (inl tt)
        | Some equals =>
            name ← substr line 0 equals;
            found_key ← trim name;
            if bytes_eqb found_key key then
              rest ← substr_from line (equals + 1);
              value ← trim rest;
              Ret (inr (Some value))
            else Ret (inl tt)
        end
      else Ret (inl tt))
    (λ _, Ret None) text newline tt.

(** ** References *)

(** The trimmed lines that hold a rule. *)
Definition rule_lines (is_rule_line : bytes → bool) (text : bytes) : list bytes :=
  List.filter (λ l, is_content_line l && is_rule_line l)
    (strip is_space <$> split_on newline text).

Lemma parse_rule_lines_ret {A} is_rule_line (parse_line : bytes → outcome A) text :
  parse_rule_lines is_rule_line parse_line text = mapM parse_line (rule_lines is_rule_line text).
Proof.
  unfold parse_rule_lines, rule_lines. rewrite each_piece_spec.
  assert (H : ∀ ps acc, fold_pieces (λ rules raw_line,
      line ← trim raw_line;
      if is_content_line line && is_rule_line line then
        rule ← parse_line line; Ret (inl (rules ++ [rule]))
      else Ret (inl rules)) Ret ps acc
    = rules ← mapM parse_line (List.filter (λ l, is_content_line l && is_rule_line l)
        (strip is_space <$> ps)); Ret (acc ++ rules)).
  { induction ps as [|p ps IH]; intros acc; simpl; [by rewrite app_nil_r|].
    rewrite trim_ret. simpl. destruct (_ && _); simpl; [|apply IH].
    destruct (parse_line _) as [a| | |]; simpl; try done. rewrite IH.
    destruct (mapM parse_line _); simpl; try done. by rewrite <- app_assoc. }
  rewrite H. by destruct (mapM parse_line _).
Qed.

Lemma starts_with_spec prefix line : starts_with prefix line = true ↔ prefix `prefix_of` line.
Proof.
  unfold starts_with, bytes_eqb. rewrite bool_decide_eq_true. split.
  - intros H. exists (drop (length prefix) line). rewrite <- H at 1. by rewrite take_drop.
  - intros [k ->]. by rewrite take_app_length.
Qed.

Lemma target_matches_spec kind pattern actual :
  target_matches kind pattern actual = true ↔
  match kind with
  | pk_exact => actual = pattern
  | pk_prefix => pattern `prefix_of` actual
  end.
Proof.
  destruct kind; simpl; [unfold bytes_eqb; rewrite bool_decide_eq_true; naive_solver|].
  apply (starts_with_spec pattern actual).
Qed.

Lemma method_matches_spec pattern actual :
  method_matches pattern actual = true ↔ pattern = "*" ∨ pattern = actual.
Proof. unfold method_matches, bytes_eqb. by rewrite orb_true_iff, !bool_decide_eq_true. Qed.

(** The text of a pattern, as the configuration writes it. *)
Definition pattern_text (kind : pattern_kind) (pattern : bytes) : bytes :=
  match kind with pk_exact => pattern | pk_prefix => pattern ++ "*" end.

Lemma classify_pattern_text kind pattern :
  (kind = pk_exact → last pattern ≠ Some "*"%char) →
  classify_target_pattern (pattern_text kind pattern) = (kind, pattern).
Proof.
  intros H. unfold classify_target_pattern. destruct kind; simpl.
  - specialize (H eq_refl). destruct (last pattern) as [c|]; [|done].
    destruct (Ascii.eqb_spec c "*"); [congruence|done].
  - rewrite last_snoc. simpl. rewrite length_app. simpl.
    replace (length pattern + 1 - 1) with (length pattern) by lia. by rewrite take_app_length.
Qed.

(** A status code is read exactly: digits in range, an exception otherwise, and
    undefined behaviour only when the digits overflow the [int]. *)
Lemma parse_status_code_cases who value :
  match parse_status_code who value with
  | Ret s => value ≠ [] ∧ Forall (λ c, is_digit c = true) value ∧ s = decimal_value value ∧
             (100 ≤ s ≤ 999)%Z
  | Throw _ => value = [] ∨ ¬ Forall (λ c, is_digit c = true) value ∨
               (decimal_value value < 100)%Z ∨ (999 < decimal_value value)%Z
  | Undef => ∃ k, Forall (λ c, is_digit c = true) (take k value) ∧
                  (int_max < decimal_value (take k value))%Z
  | Diverge => False
  end.
Proof.
  assert (Hdig : ∀ bad s v pre, (0 ≤ v ≤ int_max)%Z → decimal_value pre = v →
    Forall (λ c, is_digit c = true) pre →
    match parse_int_digits bad s v with
    | Ret n => Forall (λ c, is_digit c = true) s ∧ n = decimal_value (pre ++ s)
    | Throw _ => ¬ Forall (λ c, is_digit c = true) s
    | Undef => ∃ k, Forall (λ c, is_digit c = true) (pre ++ take k s) ∧
                    (int_max < decimal_value (pre ++ take k s))%Z
    | Diverge => False
    end).
  { intros bad s. induction s as [|c s IH]; intros v pre Hv Hpre HF; simpl.
    { by rewrite app_nil_r. }
    destruct (is_digit c) eqn:Hc; simpl; [|intros HF'; apply Forall_cons in HF' as [? _]; congruence].
    pose proof (digit_value_range c Hc).
    assert (Hval : decimal_value (pre ++ [c]) = (v * 10 + digit_value c)%Z).
    { unfold decimal_value in *. by rewrite foldl_digits_app, Hpre. }
    assert (HF' : Forall (λ c, is_digit c = true) (pre ++ [c])) by (apply Forall_app; auto).
    destruct (Z.leb_spec (v * 10 + digit_value c) int_max).
    - specialize (IH (v * 10 + digit_value c)%Z (pre ++ [c]) ltac:(lia) Hval HF').
      destruct (parse_int_digits bad s _); [| |destruct IH as (k & ? & ?)|done].
      + destruct IH as [? ->]. rewrite <- app_assoc. split; [by constructor|done].
      + intros HF2. apply Forall_cons in HF2 as [_ HF2]. done.
      + exists (S k). simpl. by rewrite <- app_assoc in *.
    - exists 1. simpl. rewrite firstn_O, Hval. done. }
  unfold parse_status_code. destruct value as [|c value]; [by left|].
  specialize (Hdig (runtime_error (who ++ ": invalid status code")) (c :: value) 0%Z []
    ltac:(by vm_compute) eq_refl (Forall_nil_2 _)).
  destruct (parse_int_digits _ (c :: value) 0) as [n| | |]; simpl; [| |done|done].
  - destruct Hdig as [HF ->]. cbn [app]. destruct (_ || _) eqn:Hr.
    + right. right. apply orb_true_iff in Hr. lia.
    + apply orb_false_iff in Hr. split_and!; [done|done|done|lia..].
  - right. by left.
Qed.

(** ** The text of rules

    A rule is written [key field|field|...]; [rule_line] writes it, and the
    lemmas below say when writing and reading are inverse. *)

(** A text that can be a field: it survives trimming and both cuts. *)
Definition wf_field (f : bytes) : Prop :=
  trimmed is_space f ∧ ("|"%char ∉ f) ∧ (newline ∉ f).

#[export] Instance wf_field_dec f : Decision (wf_field f).
Proof.
  refine (cast_if (decide (strip is_space f = f ∧ ("|"%char ∉ f) ∧ (newline ∉ f)))).
  - destruct a as (Hs & ? & ?). split; [|done]. rewrite <- Hs. apply strip_trimmed.
  - intros (Ht & ? & ?). destruct n. split; [by apply strip_id|done].
Defined.

Definition rule_line (key : bytes) (fields : list bytes) : bytes := key ++ join "|" fields.

(** A key such as [rule=]: it starts a content line and is not a space. *)
Definition wf_key (key : bytes) : Prop :=
  key ≠ [] ∧ wf_field key ∧ is_content_line key = true.

Lemma last_app_cases {A} (a b : list A) x :
  last (a ++ b) = Some x → last b = Some x ∨ (b = [] ∧ last a = Some x).
Proof.
  destruct b as [|y b]; [rewrite app_nil_r; by right|].
  rewrite last_app_cons. by left.
Qed.

Lemma last_join d fields c :
  last (join d fields) = Some c → c = d ∨ ∃ f, f ∈ fields ∧ last f = Some c.
Proof.
  induction fields as [|f fields IH]; [done|].
  destruct fields as [|g fields]; [simpl; right; exists f; by split; [left|]|].
  rewrite join_cons by done. intros [H|[H _]]%last_app_cases; [|done].
  destruct (join d (g :: fields)) as [|y ys] eqn:Hj; [simpl in H; left; congruence|].
  rewrite last_cons_cons in H. destruct (IH H) as [->|(f' & ? & ?)]; [by left|].
  right. exists f'. split; [by right|done].
Qed.

Lemma not_elem_of_join (x d : ascii) fields :
  x ≠ d → Forall (λ f, x ∉ f) fields → x ∉ join d fields.
Proof.
  intros Hne H. induction H as [|f fields Hf HF IH]; [apply not_elem_of_nil|].
  destruct fields as [|g fields]; [done|]. rewrite join_cons by done.
  rewrite not_elem_of_app, not_elem_of_cons. done.
Qed.

Lemma rule_line_ok key fields :
  wf_key key → Forall wf_field fields →
  trimmed is_space (rule_line key fields) ∧ (newline ∉ rule_line key fields) ∧
  is_content_line (rule_line key fields) = true ∧ starts_with key (rule_line key fields) = true.
Proof.
  intros (Hne & ([Hh Hl] & _ & Hnl) & Hc) HF. unfold rule_line. split_and!.
  - split; intros c Hlast.
    + apply Hh. by destruct key.
    + apply last_app_cases in Hlast as [Hlast|[_ Hlast]]; [|by apply Hl].
      apply last_join in Hlast as [->|(f & Hf & Hlast)]; [by vm_compute|].
      rewrite Forall_forall in HF. apply HF in Hf as [[_ Hfl] _]. by apply Hfl.
  - rewrite not_elem_of_app. split; [done|]. apply not_elem_of_join; [done|].
    eapply Forall_impl; [exact HF|]. by intros f (_ & _ & ?).
  - by destruct key.
  - apply starts_with_spec. by eexists.
Qed.

(** Writing lines and reading them back. *)
Lemma rule_lines_join is_rule lines :
  Forall (λ l, trimmed is_space l ∧ (newline ∉ l) ∧ is_content_line l = true ∧ is_rule l = true)
    lines →
  rule_lines is_rule (join newline lines) = lines.
Proof.
  intros HF. unfold rule_lines. destruct lines as [|l0 ls0]; [done|]. rewrite split_on_join.
  - clear -HF. induction HF as [|l lines (Ht & _ & Hc & Hr) _ IH]; [done|].
    rewrite fmap_cons. cbn [List.filter]. rewrite strip_id by done.
    rewrite Hc, Hr. cbn. by f_equal.
  - done.
  - eapply Forall_impl; [exact HF|]. by intros l (_ & ? & _).
Qed.

Lemma split_on_elem d s p x : p ∈ split_on d s → x ∈ p → x ∈ s.
Proof.
  rewrite <- (join_split_on d s) at 2. generalize (split_on d s). intros ps Hp Hx.
  induction ps as [|q ps IH]; [by apply not_elem_of_nil in Hp|].
  destruct ps as [|q' ps].
  - apply list_elem_of_singleton in Hp as ->. done.
  - rewrite join_cons by done. rewrite elem_of_app, elem_of_cons.
    apply elem_of_cons in Hp as [->|Hp]; [by left|]. right. right. by apply IH.
Qed.

(** What a line of the loop is known to be. *)
Lemma rule_lines_elem is_rule text l :
  l ∈ rule_lines is_rule text →
  trimmed is_space l ∧ (newline ∉ l) ∧ is_content_line l = true ∧ is_rule l = true.
Proof.
  unfold rule_lines. rewrite list_elem_of_In, List.filter_In, <- list_elem_of_In.
  intros [Hl [Hc Hr]%andb_prop].
  apply list_elem_of_fmap in Hl as (p & -> & Hp). split_and!; [apply strip_trimmed| |done|done].
  pose proof (split_on_Forall newline text) as HF. rewrite Forall_forall in HF.
  intros Hin%strip_sublist. by apply (HF p).
Qed.

(** The fields of a line without newlines are well formed. *)
Lemma fields_wf s : newline ∉ s → Forall wf_field (strip is_space <$> split_on "|" s).
Proof.
  intros Hs. rewrite Forall_fmap. rewrite Forall_forall. intros p Hp. split_and!.
  - apply strip_trimmed.
  - pose proof (split_on_Forall "|" s) as HF. rewrite Forall_forall in HF.
    intros Hin%strip_sublist. by apply (HF p).
  - intros Hin%strip_sublist. apply Hs. by eapply split_on_elem.
Qed.

Lemma split_fields_join_by d fields :
  fields ≠ [] → Forall (λ f, trimmed is_space f ∧ (d ∉ f)) fields →
  split_fields (join d fields) d = Ret fields.
Proof.
  intros Hne HF. rewrite split_fields_ret, split_on_join; [f_equal|done|].
  - clear Hne. induction HF as [|f fields (Ht & _) _ IH]; [done|].
    by rewrite fmap_cons, strip_id, IH.
  - eapply Forall_impl; [exact HF|]. by intros f (_ & ?).
Qed.

Lemma split_fields_join fields :
  fields ≠ [] → Forall wf_field fields → split_fields (join "|" fields) "|" = Ret fields.
Proof.
  intros Hne HF. apply split_fields_join_by; [done|].
  eapply Forall_impl; [exact HF|]. by intros f (? & ? & _).
Qed.

(** A list inside a field: the non-empty pieces between commas. *)
Definition list_items (field : bytes) : list bytes :=
  List.filter (λ f, negb (bytes_eqb f [])) (strip is_space <$> split_on "," field).

Definition wf_item (f : bytes) : Prop := f ≠ [] ∧ wf_field f ∧ (","%char ∉ f).

Lemma list_items_wf field : wf_field field → Forall wf_item (list_items field).
Proof.
  intros (_ & Hb & Hn). apply Forall_forall. intros f. unfold list_items.
  rewrite list_elem_of_In, List.filter_In, <- list_elem_of_In.
  intros [(p & -> & Hp)%list_elem_of_fmap Hne].
  pose proof (split_on_Forall "," field) as HF. rewrite Forall_forall in HF.
  split; [intros Heq; by rewrite Heq in Hne|].
  split; [split; [apply strip_trimmed|]|by intros ?%strip_sublist; apply (HF p)].
  split; intros Hin%strip_sublist; [apply Hb|apply Hn]; by eapply split_on_elem.
Qed.

Lemma list_items_join items :
  items ≠ [] → Forall wf_item items → list_items (join "," items) = items.
Proof.
  intros Hne HF. unfold list_items. rewrite split_on_join; [|done|].
  - clear Hne. induction HF as [|f items (Hf & (Ht & _) & _) _ IH]; [done|].
    rewrite fmap_cons, strip_id by done. cbn [List.filter].
    unfold bytes_eqb at 1. rewrite bool_decide_eq_false_2 by done. cbn. by f_equal.
  - eapply Forall_impl; [exact HF|]. by intros f (_ & _ & ?).
Qed.

Lemma join_items_wf items : items ≠ [] → Forall wf_item items → wf_field (join "," items).
Proof.
  intros Hne HF. rewrite Forall_forall in HF. split_and!.
  - split; intros c Hc.
    + destruct items as [|f items]; [done|]. destruct (HF f) as (Hf & ([Hh _] & _) & _); [left|].
      destruct f as [|x f]; [done|]. apply Hh. destruct items; [done|].
      rewrite join_cons in Hc by done. exact Hc.
    + apply last_join in Hc as [->|(f & Hf & Hl)]; [|by destruct (HF f Hf) as (_ & ([_ ?] & _) & _); auto].
      by vm_compute.
  - apply not_elem_of_join; [done|]. apply Forall_forall. intros f Hf. by apply HF.
  - apply not_elem_of_join; [done|]. apply Forall_forall. intros f Hf. by apply HF.
Qed.

Lemma mapM_outcome_Forall2 {A B} (f : A → outcome B) l k :
  mapM f l = Ret k ↔ Forall2 (λ x y, f x = Ret y) l k.
Proof.
  revert k. induction l as [|x l IH]; intros k; simpl.
  - split; [by intros [= <-]|]. by intros ->%Forall2_nil_inv_l.
  - split.
    + intros H. inv_bind H. inv_bind H. injection H as <-. constructor; [done|by apply IH].
    + intros (y & k' & Hy & Hk & ->)%Forall2_cons_inv_l. rewrite Hy. simpl.
      apply IH in Hk. by rewrite Hk.
Qed.

(** *** The interface of a rule language

    A module that reads its configuration with the loop over rule lines
    promises that what a line parses to is well formed, and that a well-formed
    rule is read back from its fields. *)

Class RuleSyntax (A : Type) := {
  rule_key : bytes;
  rule_parse : bytes → outcome A;
  rule_fields : A → list bytes;
  rule_wf : A → Prop;
}.

Class RuleSyntaxLaws (A : Type) `{RuleSyntax A} := {
  rule_key_wf : wf_key rule_key;
  rule_parse_wf fields rule :
    newline ∉ fields → rule_parse (rule_key ++ fields) = Ret rule → rule_wf rule;
  rule_fields_wf rule : rule_wf rule → rule_fields rule ≠ [] ∧ Forall wf_field (rule_fields rule);
  rule_parse_fields rule : rule_wf rule → rule_parse (rule_line rule_key (rule_fields rule)) = Ret rule;
}.

Section RuleText.
Context {A} `{RuleSyntaxLaws A}.

Definition rules_text (rules : list A) : bytes :=
  join newline ((λ r, rule_line rule_key (rule_fields r)) <$> rules).

Definition rules_parse (text : bytes) : outcome (list A) :=
  parse_rule_lines (starts_with rule_key) rule_parse text.

Lemma rules_parse_wf text rules : rules_parse text = Ret rules → Forall rule_wf rules.
Proof.
  unfold rules_parse. rewrite parse_rule_lines_ret, mapM_outcome_Forall2. intros HF.
  apply Forall_forall. intros r Hr.
  apply list_elem_of_lookup in Hr as [i Hi].
  destruct (Forall2_lookup_r _ _ _ _ _ HF Hi) as (l & Hl & Hp).
  apply list_elem_of_lookup_2, rule_lines_elem in Hl as (_ & Hnl & _ & Hs).
  apply starts_with_spec in Hs as [fs ->]. eapply rule_parse_wf; [|exact Hp].
  by apply not_elem_of_app in Hnl as [_ ?].
Qed.

Lemma rules_parse_text rules : Forall rule_wf rules → rules_parse (rules_text rules) = Ret rules.
Proof.
  intros HF. unfold rules_parse, rules_text. rewrite parse_rule_lines_ret, rule_lines_join.
  - apply mapM_outcome_Forall2. rewrite Forall2_fmap_l. apply Forall_Forall2_diag.
    eapply Forall_impl; [exact HF|]. intros r. apply rule_parse_fields.
  - rewrite Forall_fmap. eapply Forall_impl; [exact HF|]. intros r Hr. simpl.
    apply rule_line_ok; [apply rule_key_wf|]. by apply rule_fields_wf.
Qed.

(** The rule lists a configuration can give are the well-formed ones, and
    each is given by its own text. *)
Lemma rules_parse_image rules :
  ((∃ text, rules_parse text = Ret rules) ↔ Forall rule_wf rules) ∧
  (Forall rule_wf rules → rules_parse (rules_text rules) = Ret rules).
Proof.
  split; [split|]; [intros [text Ht]; by eapply rules_parse_wf| |apply rules_parse_text].
  intros HF. exists (rules_text rules). by apply rules_parse_text.
Qed.
End RuleText.

(** *** Patterns and status codes as fields *)

Definition wf_status (s : Z) : Prop := (100 ≤ s ≤ 999)%Z.

Lemma digits_wf_field s : s ≠ [] → Forall (λ c, is_digit c = true) s → wf_field s.
Proof.
  intros Hne HF. rewrite Forall_forall in HF.
  assert (Hsp : ∀ c, is_digit c = true → negb (is_space c) = true) by by_char_impl.
  split_and!; [split| |].
  - intros c Hc. apply negb_true_iff, Hsp, HF. destruct s; [done|]. injection Hc as ->. left.
  - intros c Hc. apply negb_true_iff, Hsp, HF. by apply last_Some_elem_of.
  - intros Hin%HF. done.
  - intros Hin%HF. done.
Qed.

Lemma status_field s : wf_status s → wf_field (to_string s).
Proof.
  intros Hs. destruct (to_string_value s) as (HF & _ & Hne); [unfold wf_status in Hs; lia|].
  by apply digits_wf_field.
Qed.

Lemma parse_status_text who s : wf_status s → parse_status_code who (to_string s) = Ret s.
Proof.
  intros Hs. unfold wf_status in Hs.
  destruct (to_string_value s) as (HF & Hv & Hne); [lia|]. unfold parse_status_code.
  destruct (to_string s) as [|c ds] eqn:Ht; [done|]. rewrite <- Ht in *.
  unfold decimal_value in Hv.
  rewrite parse_int_digits_ret; [|lia|done|rewrite Hv; unfold int_max; lia].
  rewrite Hv. simpl. by destruct (Z.ltb_spec s 100), (Z.ltb_spec 999 s); try lia.
Qed.

Lemma parse_status_range who value s : parse_status_code who value = Ret s → wf_status s.
Proof.
  intros H. pose proof (parse_status_code_cases who value) as Hs. rewrite H in Hs.
  by destruct Hs as (_ & _ & _ & ?).
Qed.

(** The target pattern of a rule, kept as kind and text. *)
Definition wf_target (kind : pattern_kind) (pattern : bytes) : Prop :=
  pattern ≠ [] ∧ wf_field (pattern_text kind pattern) ∧
  (kind = pk_exact → last pattern ≠ Some "*"%char).

Lemma classify_wf field kind pattern :
  wf_field field → classify_target_pattern field = (kind, pattern) → pattern ≠ [] →
  wf_target kind pattern.
Proof.
  unfold classify_target_pattern. intros Hf.
  destruct (last field) as [c|] eqn:Hl; [|by apply last_None in Hl as ->; intros [= <- <-]].
  destruct (Ascii.eqb_spec c "*") as [->|Hne]; intros [= <- <-] Hpne; split_and!; try done.
  - simpl. apply last_Some in Hl as [p ->].
    rewrite length_app in *. simpl in *. replace (length p + 1 - 1) with (length p) in * by lia.
    by rewrite take_app_length.
  - intros _. rewrite Hl. congruence.
Qed.

Lemma wf_target_text kind pattern :
  wf_target kind pattern → classify_target_pattern (pattern_text kind pattern) = (kind, pattern).
Proof. intros (_ & _ & H). by apply classify_pattern_text. Qed.

(** [fields[i]] of a vector: undefined behaviour out of range. *)
Definition field_at (fields : list bytes) (i : nat) : outcome bytes :=
  match fields !! i with
  | Some f => Ret f
  | None => Undef
  end.

(** [switch (status) { case ...: return ...; default: return ...; }] *)
Fixpoint switch_status (cases : list (Z * string)) (otherwise : string) (status : Z) : bytes :=
  match cases with
  | [] => otherwise
  | (s, phrase) :: cases =>
      if (s =? status)%Z then phrase else switch_status cases otherwise status
  end.

#[global] Arguments parse_status_code : simpl never.
#[global] Arguments parse_rule_lines : simpl never.
#[global] Arguments classify_target_pattern : simpl never.
#[global] Arguments starts_with : simpl never.

Lemma switch_status_nonempty cases otherwise status :
  of_string otherwise ≠ [] → Forall (λ c, of_string (snd c) ≠ []) cases →
  switch_status cases otherwise status ≠ [].
Proof.
  intros Ho HF. induction HF as [|[s p] cases Hp _ IH]; simpl; [done|].
  by destruct (s =? status)%Z.
Qed.

(** [for (const auto& field : fields) if (!field.empty()) out.push_back(parse(field));] *)
Fixpoint push_items {A} (parse : bytes → outcome A) (fields : list bytes) (out : list A)
    : outcome (list A) :=
  match fields with
  | [] => Ret out
  | field :: fields =>
      if negb (bytes_eqb field []) then item ← parse field; push_items parse fields (out ++ [item])
      else push_items parse fields out
  end.

Lemma push_items_ret {A} (parse : bytes → outcome A) fields out :
  push_items parse fields out
  = items ← mapM parse (List.filter (λ f, negb (bytes_eqb f [])) fields); Ret (out ++ items).
Proof.
  revert out. induction fields as [|f fields IH]; intros out; simpl; [by rewrite app_nil_r|].
  destruct (negb (bytes_eqb f [])); simpl; [|apply IH].
  destruct (parse f) as [a| | |]; simpl; try done. rewrite IH.
  destruct (mapM _ _); simpl; try done. by rewrite <- app_assoc.
Qed.

(** A list field: the items, parsed one by one; an empty list is an error. *)
Lemma push_items_list {A} (parse : bytes → outcome A) (f : bytes → A) e field out :
  (∀ v, v ≠ [] → parse v = Ret (f v)) →
  (items ← push_items parse (strip is_space <$> split_on "," field) [];
   match items with [] => Throw e | _ => Ret items end) = Ret out ↔
  out ≠ [] ∧ out = f <$> list_items field.
Proof.
  intros Hf. rewrite push_items_ret. change (List.filter _ _) with (list_items field).
  assert (Hm : mapM parse (list_items field) = Ret (f <$> list_items field)).
  { apply mapM_outcome_Forall2. rewrite Forall2_fmap_r. apply Forall_Forall2_diag.
    apply Forall_forall. intros v. unfold list_items.
    rewrite list_elem_of_In, List.filter_In. intros [_ Hv].
    by apply Hf, bytes_eqb_nil, negb_true_iff. }
  rewrite Hm. simpl. destruct (f <$> list_items field) as [|p l].
  - split; [done|]. by intros [? ->].
  - split; [by intros [= <-]|]. by intros [_ ->].
Qed.

(** A status field is read exactly: a value is returned only for digits that
    denote a number from 100 to 999, an exception is thrown only when the field
    is empty, has another char, or is out of that range, and the behaviour is
    undefined only when the digits of some prefix overflow the [int], which a
    long enough field does. *)
Theorem status_code_exact :
  (∀ who value, match parse_status_code who value with
   | Ret s => value ≠ [] ∧ Forall (λ c, is_digit c = true) value ∧ s = decimal_value value ∧
              (100 ≤ s ≤ 999)%Z
   | Throw _ => value = [] ∨ ¬ Forall (λ c, is_digit c = true) value ∨
                (decimal_value value < 100)%Z ∨ (999 < decimal_value value)%Z
   | Undef => ∃ k, Forall (λ c, is_digit c = true) (take k value) ∧
                   (int_max < decimal_value (take k value))%Z
   | Diverge => False
   end) ∧
  (∀ who value, Forall (λ c, is_digit c = true) value → (int_max < decimal_value value)%Z →
     parse_status_code who value = Undef) ∧
  (∀ who s, wf_status s → parse_status_code who (to_string s) = Ret s).
Proof.
  split; [intros; apply parse_status_code_cases|split; [|intros; by apply parse_status_text]].
  intros who value HF Hmax. unfold parse_status_code.
  destruct value as [|c value]; [by vm_compute in Hmax|].
  unfold decimal_value in Hmax.
  rewrite parse_int_digits_overflow; [done|lia|done|done|by vm_compute].
Qed.

(** ** Targets *)

(** The path of a target: what comes before the query. *)
Definition path_of (target path : bytes) : Prop :=
  ("?"%char ∉ path) ∧ (target = path ∨ ∃ query, target = path ++ "?"%char :: query).

Lemma path_of_unique target a b : path_of target a → path_of target b → a = b.
Proof.
  intros [Ha Ha'] [Hb Hb'].
  assert (H : ∀ p, ("?"%char ∉ p) → (target = p ∨ ∃ q, target = p ++ "?"%char :: q) →
    head (split_on "?" target) = Some p).
  { intros p Hp [->|[q ->]]; [by rewrite split_on_none|by rewrite split_on_app]. }
  pose proof (H a Ha Ha'). pose proof (H b Hb Hb'). congruence.
Qed.

(** [auto q = target.find('?'); if (q != npos) target = target.substr(0, q);] *)
Lemma cut_query_ret target :
  ∃ path, match find_char target "?" 0 with
          | None => Ret target
          | Some q => substr target 0 q
          end = Ret path ∧ path_of target path.
Proof.
  unfold find_char. rewrite find_drop, drop_0 by lia.
  destruct (search ["?"%char] target) as [i|] eqn:Hs; simpl.
  - apply search_char_Some in Hs as [Hnot Hsplit]. rewrite substr_ret, drop_0 by lia.
    exists (take i target). split; [done|]. split; [done|]. right. eauto.
  - apply search_char_None in Hs. exists target. split; [done|]. split; [done|]. by left.
Qed.

(** ** Key-value lines *)

(** The key and the value of a line. *)
Definition line_entry (raw_line : bytes) : option (bytes * bytes) :=
  let line := strip is_space raw_line in
  if is_content_line line then
    (λ i, (strip is_space (take i line), strip is_space (drop (S i) line))) <$> search ["="%char] line
  else None.

(** The value of the first line with a key. *)
Definition config_value (text key : bytes) : option bytes :=
  snd <$> List.find (λ e, bytes_eqb (fst e) key) (omap line_entry (split_on newline text)).

(** A loop over the lines that stops at the first line with a key. *)
Lemma first_entry_loop {R} (found : bytes → outcome (unit + R)) (after : unit → outcome R)
    text key (body : unit → bytes → outcome (unit + R)) :
  (∀ st raw_line, body st raw_line =
     match line_entry raw_line with
     | Some (k, v) => if bytes_eqb k key then found v else Ret (inl tt)
     | None => Ret (inl tt)
     end) →
  (∀ v, found v ≠ Ret (inl tt)) →
  each_piece body after text newline tt
  = match config_value text key with
    | Some v => r ← found v; match r with inr r => Ret r | inl _ => Undef end
    | None => after tt
    end.
Proof.
  intros Hbody Hfound. rewrite each_piece_spec. unfold config_value.
  induction (split_on newline text) as [|p ps IH]; [done|]. cbn [fold_pieces omap list_omap].
  rewrite Hbody. destruct (line_entry p) as [[k v]|]; [|exact IH].
  cbn [List.find fst]. destruct (bytes_eqb k key); [|exact IH]. simpl. specialize (Hfound v).
  destruct (found v) as [[[]|r]| | |]; done.
Qed.

(** The steps of the loop's body. *)
Lemma entry_steps {R} (found : bytes → outcome (unit + R)) key raw_line :
  (line ← trim raw_line;
   if is_content_line line then
     match find_char line "=" 0 with
     | None => Ret (inl tt)
     | Some equals =>
         name ← substr line 0 equals;
         found_key ← trim name;
         if bytes_eqb found_key key then
           rest ← substr_from line (equals + 1);
           value ← trim rest;
           found value
         else Ret (inl tt)
     end
   else Ret (inl tt))
  = match line_entry raw_line with
    | Some (k, v) => if bytes_eqb k key then found v else Ret (inl tt)
    | None => Ret (inl tt)
    end.
Proof.
  rewrite trim_ret, bind_ret. unfold line_entry. set (line := strip is_space raw_line).
  destruct (is_content_line line); [|done]. unfold find_char. rewrite find_drop, drop_0 by lia.
  destruct (search ["="%char] line) as [i|] eqn:Hs; [|done]. cbn [fmap option_fmap option_map].
  apply search_length in Hs. simpl in Hs. change (0 + i) with i.
  rewrite substr_ret, bind_ret, drop_0, trim_ret, bind_ret by lia.
  destruct (bytes_eqb _ key); [|done]. rewrite substr_from_ret by lia.
  rewrite bind_ret, trim_ret, bind_ret. by rewrite Nat.add_1_r.
Qed.

Lemma key_value_get_ret text key : key_value_get text key = Ret (config_value text key).
Proof.
  unfold key_value_get.
  rewrite (first_entry_loop (λ v, Ret (inr (Some v))) _ _ key); [by destruct (config_value text key)| |done].
  intros st raw_line. exact (entry_steps (λ v, Ret (inr (Some v))) key raw_line).
Qed.

#[export] Hint Rewrite key_value_get_ret : cpp.
