(* ===== verification/Guard.v ===== *)
(** * Guards: the interface of the modules that only reject

    [header_guard] and [host_guard] keep an ordered list of rules and answer for
    the first rule that applies to the request and is not satisfied.  [Guard] is
    what such a module offers and [GuardLaws] what it promises: what its loop
    does on a rule.  The theorems of this file are about every module that
    keeps the promise, alone and inside the pipeline. *)

From S2P Require Import Prelude.
From S2P Require Import StringView.
From S2P Require Import HttpHeader.
From S2P Require Import HttpRequest.
From S2P Require Import HttpResponse.
From S2P Require Import Pipeline.
From S2P Require Import ModuleAbi.

Class Guard (R : Type) := {
  guard_handle : list R → request → outcome result;
  guard_applies : R → request → bool;
  guard_satisfied : R → request → bool;
  guard_failure : R → response;
}.

Class GuardLaws (R : Type) `{Guard R} := {
  guard_nil req : guard_handle [] req = Ret result_pass;
  guard_cons r rules req :
    guard_handle (r :: rules) req
    = if guard_applies r req && negb (guard_satisfied r req)
      then Ret (result_respond (guard_failure r)) else guard_handle rules req;
}.

(** A plain-text failure arrives at the host as the module made it. *)
Lemma normalize_text s reason_phrase msg :
  s ≠ 0%Z → reason_phrase ≠ [] →
  normalize (text s reason_phrase msg) [] = text s reason_phrase msg.
Proof.
  intros Hs Hr. unfold normalize, text. cbn [status reason content_type response_headers body content_length].
  rewrite (proj2 (Z.eqb_neq _ _)) by done.
  unfold bytes_eqb. rewrite bool_decide_eq_false_2 by done. done.
Qed.

Section Guards.
Context {R : Type} `{GuardLaws R}.
Implicit Types (rules : list R) (req : request).

(** A rule the request violates. *)
Definition violates req (r : R) : bool := guard_applies r req && negb (guard_satisfied r req).

(** The reference: the first violated rule. *)
Definition first_violated rules req : option R := List.find (violates req) rules.

Lemma guard_handle_ret rules req :
  guard_handle rules req
  = Ret (match first_violated rules req with
         | Some r => result_respond (guard_failure r)
         | None => result_pass
         end).
Proof.
  unfold first_violated, violates. induction rules as [|r rules IH].
  - apply guard_nil.
  - rewrite guard_cons. cbn [List.find]. by destruct (_ && _).
Qed.

Lemma first_violated_None rules req :
  first_violated rules req = None ↔
  Forall (λ r, guard_applies r req = true → guard_satisfied r req = true) rules.
Proof.
  unfold first_violated, violates. induction rules as [|r rules IH]; cbn [List.find].
  { split; [by constructor|done]. }
  rewrite Forall_cons, <- IH.
  destruct (guard_applies r req), (guard_satisfied r req); simpl; split; intuition congruence.
Qed.

Lemma first_violated_Some rules req r :
  first_violated rules req = Some r ↔
  ∃ before after, rules = before ++ r :: after ∧
    guard_applies r req = true ∧ guard_satisfied r req = false ∧
    first_violated before req = None.
Proof.
  unfold first_violated. split.
  - induction rules as [|r0 rules IH]; [done|]. cbn [List.find].
    destruct (violates req r0) eqn:Hv.
    + intros [= ->]. unfold violates in Hv. apply andb_prop in Hv as [Ha Hs%negb_true_iff].
      by exists [], rules.
    + intros (before & after & -> & Ha & Hs & Hb)%IH. exists (r0 :: before), after.
      cbn [List.find]. by rewrite Hv.
  - intros (before & after & -> & Ha & Hs & Hb). induction before as [|r0 before IH]; simpl in *.
    + unfold violates. by rewrite Ha, Hs.
    + destruct (violates req r0); [done|]. by apply IH.
Qed.

(** The decision of a guard: it passes exactly when the request satisfies all
    the rules that apply to it, and otherwise answers with the failure of the
    first one it does not satisfy; it never throws. *)
Lemma guard_decision rules req :
  (guard_handle rules req = Ret result_pass ∧
   Forall (λ r, guard_applies r req = true → guard_satisfied r req = true) rules) ∨
  (∃ before r after, rules = before ++ r :: after ∧
     guard_handle rules req = Ret (result_respond (guard_failure r)) ∧
     guard_applies r req = true ∧ guard_satisfied r req = false ∧
     Forall (λ r, guard_applies r req = true → guard_satisfied r req = true) before).
Proof.
  rewrite guard_handle_ret. destruct (first_violated rules req) as [r|] eqn:Hf.
  - right. apply first_violated_Some in Hf as (before & after & -> & Ha & Hs & Hb).
    exists before, r, after. rewrite first_violated_None in Hb. done.
  - left. by rewrite first_violated_None in Hf.
Qed.

Lemma guard_pass rules req :
  guard_handle rules req = Ret result_pass ↔ first_violated rules req = None.
Proof. rewrite guard_handle_ret. by destruct (first_violated rules req). Qed.

(** The order of the rules matters only for which failure is reported. *)
Lemma guard_pass_permutation rules rules' req :
  rules ≡ₚ rules' →
  guard_handle rules req = Ret result_pass ↔ guard_handle rules' req = Ret result_pass.
Proof.
  intros Hp. rewrite !guard_pass, !first_violated_None. by rewrite Hp.
Qed.

(** A guard as a loaded module. *)
Definition guard_module (name : bytes) rules {W} : request_module W :=
  loaded name (λ req, lift (guard_handle rules req)).

Lemma guard_module_handle {W} name rules req (w : W) :
  module_handle (guard_module name rules) req w
  = (Ret (match first_violated rules (abi_request req) with
          | Some r => respond_result (normalize (guard_failure r) [])
          | None => pass_result []
          end), w).
Proof.
  unfold guard_module. rewrite loaded_handle. unfold lift. rewrite guard_handle_ret.
  by destruct (first_violated _ _).
Qed.

(** A guard in the pipeline is a gate: a request that satisfies its rules is
    answered as if the guard were not there; one that violates a rule gets the
    failure of the first such rule, with the headers of the earlier modules,
    and reaches no later module. *)
Lemma guard_gate {W} name rules before after req (w : W) hs w1 :
  passes before req w hs w1 →
  pipeline_handle (before ++ guard_module name rules :: after) req w
  = match first_violated rules (abi_request req) with
    | None => pipeline_handle (before ++ after) req w
    | Some r => (Ret (finalize_response (normalize (guard_failure r) []) hs), w1)
    end.
Proof.
  intros Hp. unfold pipeline_handle. rewrite !(handle_from_passes _ _ _ _ _ _ _ Hp).
  cbn [handle_from]. rewrite (prog_bind_ret _ _ _ _ _ (guard_module_handle name rules req w1)).
  destruct (first_violated _ _); simpl; [done|]. by rewrite app_nil_r.
Qed.

(** A guard whose failures are plain text with a status and a reason. *)
Lemma guard_gate_text {W} name rules before after req (w : W) hs w1 :
  (∀ r, r ∈ rules → ∃ s reason_phrase msg, s ≠ 0%Z ∧ reason_phrase ≠ [] ∧
     guard_failure r = text s reason_phrase msg) →
  passes before req w hs w1 →
  pipeline_handle (before ++ guard_module name rules :: after) req w
  = match first_violated rules (abi_request req) with
    | None => pipeline_handle (before ++ after) req w
    | Some r => (Ret (with_headers (guard_failure r) hs), w1)
    end.
Proof.
  intros Hf Hp. rewrite (guard_gate _ _ _ _ _ _ _ _ Hp).
  destruct (first_violated _ _) as [r|] eqn:Hv; [|done].
  apply first_violated_Some in Hv as (b & a & -> & _).
  destruct (Hf r) as (s & reason_phrase & msg & Hs & Hr & ->); [set_solver|].
  by rewrite normalize_text.
Qed.
End Guards.
