(* ===== verification/HeaderGuard.v ===== *)
(** * The header guard ([lib/header_guard/header_guard_module.cpp])

    Ordered rules that require a header, with a value or with any value, on the
    requests whose method and target match. *)

From S2P Require Import Prelude.
From S2P Require Import StringView.
From S2P Require Import HttpHeader.
From S2P Require Import HttpRequest.
From S2P Require Import HttpResponse.
From S2P Require Import Pipeline.
From S2P Require Import ModuleAbi.
From S2P Require Import ConfigText.
From S2P Require Import Guard.

(** [header_guard_module::guard_rule] *)
Record guard_rule := GuardRule {
  method_pattern : bytes;
  target_pattern : bytes;
  target_kind : pattern_kind;
  header_name : bytes;
  expected_value : option bytes;
  failure_status : Z;
  failure_body : bytes;
}.

(** ** The configuration *)

Definition trim (value : bytes) : outcome bytes := StringView.trim value.

Definition split_fields (value : bytes) (delimiter : ascii) : outcome (list bytes) :=
  StringView.split_fields value delimiter.

Definition parse_status_code (value : bytes) : outcome Z :=
  ConfigText.parse_status_code "header_guard" value.

Definition reason_phrase_for_status (status : Z) : bytes :=
  switch_status
    [ (200%Z, "OK"); (400%Z, "Bad Request"); (401%Z, "Unauthorized"); (403%Z, "Forbidden");
      (404%Z, "Not Found"); (405%Z, "Method Not Allowed"); (429%Z, "Too Many Requests");
      (500%Z, "Internal Server Error"); (503%Z, "Service Unavailable") ]
    "Unauthorized" status.

Definition is_rule_line (line : bytes) : bool := starts_with "rule=" line.

Definition classify_target_pattern (pattern : bytes) : pattern_kind * bytes :=
  ConfigText.classify_target_pattern pattern.

Definition fail {A} (what : string) : outcome A := Throw (runtime_error what).

Definition parse_rule_line (line : bytes) : outcome guard_rule :=
  text ← substr_from line 5;
  fields ← split_fields text "|";
  if negb (length fields =? 5) && negb (length fields =? 6)
  then fail "header_guard: rule requires 5 or 6 fields" else
  method ← field_at fields 0;
  target_field ← field_at fields 1;
  let '(kind, target) := classify_target_pattern target_field in
  header ← field_at fields 2;
  if bytes_eqb method [] then fail "header_guard: method pattern must not be empty" else
  if bytes_eqb target [] then fail "header_guard: target pattern must not be empty" else
  if bytes_eqb header [] then fail "header_guard: header name must not be empty" else
  '(expected, status_index) ←
     (if length fields =? 6 then v ← field_at fields 3; Ret (Some v, 4) else Ret (None, 3));
  status_field ← field_at fields status_index;
  status ← parse_status_code status_field;
  body ← field_at fields (status_index + 1);
  Ret (GuardRule method target kind header expected status body).

Definition parse_rules (config_text : bytes) : outcome (list guard_rule) :=
  parse_rule_lines is_rule_line parse_rule_line config_text.

(** ** The decision *)

Definition method_matches (pattern actual : bytes) : bool :=
  ConfigText.method_matches pattern actual.

Definition target_matches (kind : pattern_kind) (pattern actual : bytes) : bool :=
  ConfigText.target_matches kind pattern actual.

Definition request_satisfies_rule (rule : guard_rule) (req : request) : bool :=
  match header_value req (header_name rule) with
  | None => false
  | Some actual =>
      match expected_value rule with
      | None => true
      | Some expected => bytes_eqb actual expected
      end
  end.

Definition failure_response (rule : guard_rule) : response :=
  text (failure_status rule) (reason_phrase_for_status (failure_status rule)) (failure_body rule).

(** [header_guard_module::handle]: the loop over [_rules]. *)
Fixpoint handle (rules : list guard_rule) (req : request) : outcome result :=
  match rules with
  | [] => Ret result_pass
  | rule :: rules =>
      if negb (method_matches (method_pattern rule) (method req)) then handle rules req else
      if negb (target_matches (target_kind rule) (target_pattern rule) (target req))
      then handle rules req else
      if request_satisfies_rule rule req then handle rules req else
      Ret (result_respond (failure_response rule))
  end.

(** The constructor and [handle], as the host loads them. *)
Definition header_guard_module {W} (config_text : bytes) : outcome (cpp_module W) :=
  rules ← parse_rules config_text; Ret (λ req, lift (handle rules req)).

(** ** The module is a guard *)

Definition rule_applies (rule : guard_rule) (req : request) : bool :=
  method_matches (method_pattern rule) (method req)
  && target_matches (target_kind rule) (target_pattern rule) (target req).

#[export] Instance header_guard : Guard guard_rule := {
  guard_handle := handle;
  guard_applies := rule_applies;
  guard_satisfied := request_satisfies_rule;
  guard_failure := failure_response;
}.

#[export] Instance header_guard_laws : GuardLaws guard_rule.
Proof.
  split; [done|]. intros rule rules req.
  cbn [guard_handle header_guard handle guard_applies guard_satisfied guard_failure].
  unfold rule_applies. destruct (method_matches _ _), (target_matches _ _ _); simpl; try done.
  by destruct (request_satisfies_rule rule req).
Qed.

(** ** The module has a rule language *)

Definition fields_of (rule : guard_rule) : list bytes :=
  [method_pattern rule; pattern_text (target_kind rule) (target_pattern rule); header_name rule]
  ++ match expected_value rule with Some v => [v] | None => [] end
  ++ [to_string (failure_status rule); failure_body rule].

Definition wf_rule (rule : guard_rule) : Prop :=
  (method_pattern rule ≠ [] ∧ wf_field (method_pattern rule)) ∧
  wf_target (target_kind rule) (target_pattern rule) ∧
  (header_name rule ≠ [] ∧ wf_field (header_name rule)) ∧
  (∀ v, expected_value rule = Some v → wf_field v) ∧
  wf_status (failure_status rule) ∧ wf_field (failure_body rule).

#[export] Instance header_guard_syntax : RuleSyntax guard_rule := {
  rule_key := "rule=";
  rule_parse := parse_rule_line;
  rule_fields := fields_of;
  rule_wf := wf_rule;
}.

Lemma header_guard_parse_rule_line_wf fields rule :
  newline ∉ fields → parse_rule_line (("rule=" : bytes) ++ fields) = Ret rule → wf_rule rule.
Proof.
  intros Hnl. unfold parse_rule_line, split_fields. rewrite substr_from_ret by (simpl; lia).
  cbn [app]. rewrite bind_ret, split_fields_ret, bind_ret.
  change (drop 5 _) with fields. pose proof (fields_wf fields Hnl) as HF.
  destruct (strip is_space <$> split_on "|" fields) as [|m [|t [|h [|f3 [|f4 [|f5 [|]]]]]]];
    try done; intros H; cbn in H; unfold fail, classify_target_pattern, parse_status_code in H;
    destruct (ConfigText.classify_target_pattern t) as [kind target] eqn:Ht;
    destruct (bytes_eqb m []) eqn:Hm; try done;
    destruct (bytes_eqb target []) eqn:Htn; try done;
    destruct (bytes_eqb h []) eqn:Hh; try done;
    cbn in H; inv_bind H; injection H as <-;
    apply bytes_eqb_nil in Hm, Htn, Hh; rewrite !Forall_cons in HF;
    destruct_and?; split_and!; try done;
      first [by apply (classify_wf t)|by intros ? [= <-]|by eapply parse_status_range].
Qed.

Lemma header_guard_fields_of_wf rule : wf_rule rule → fields_of rule ≠ [] ∧ Forall wf_field (fields_of rule).
Proof.
  intros ([_ ?] & (_ & ? & _) & [_ ?] & He & ? & ?). split; [done|].
  unfold fields_of. rewrite !Forall_app, !Forall_cons.
  split_and!; try done; [|by apply status_field].
  destruct (expected_value rule); [|done]. rewrite Forall_singleton. by apply He.
Qed.

Lemma header_guard_parse_rule_line_fields rule :
  wf_rule rule → parse_rule_line (rule_line "rule=" (fields_of rule)) = Ret rule.
Proof.
  intros Hwf. destruct (header_guard_fields_of_wf rule Hwf) as [Hne HF].
  destruct Hwf as ([Hm _] & Ht & [Hh _] & _ & Hs & _).
  unfold parse_rule_line, rule_line, split_fields.
  rewrite substr_from_ret by (simpl; lia). rewrite bind_ret.
  change (drop 5 _) with (join "|" (fields_of rule)).
  rewrite split_fields_join, bind_ret by done.
  apply wf_target_text in Ht as Htt. destruct Ht as [Ht _].
  destruct rule as [m t k h e s b]. unfold fields_of, classify_target_pattern in *.
  cbn [method_pattern target_pattern target_kind header_name expected_value failure_status
    failure_body] in *.
  apply bytes_eqb_nil in Hm, Ht, Hh.
  destruct e as [e|]; cbn; rewrite Htt, Hm, Ht, Hh; cbn; unfold parse_status_code;
    rewrite parse_status_text by done; done.
Qed.

#[export] Instance header_guard_syntax_laws : RuleSyntaxLaws guard_rule.
Proof.
  split.
  - split; [done|split; [|done]]. by apply (bool_decide_eq_true_1 _).
  - exact header_guard_parse_rule_line_wf.
  - exact header_guard_fields_of_wf.
  - exact header_guard_parse_rule_line_fields.
Qed.

(** ** Properties *)

(** The requests a rule is about. *)
Definition covers (rule : guard_rule) (req : request) : Prop :=
  (method_pattern rule = "*" ∨ method_pattern rule = method req) ∧
  match target_kind rule with
  | pk_exact => target req = target_pattern rule
  | pk_prefix => target_pattern rule `prefix_of` target req
  end.

(** The request carries the header, with the expected value if there is one. *)
Definition meets (rule : guard_rule) (req : request) : Prop :=
  ∃ v, header_value req (header_name rule) = Some v ∧
       (∀ e, expected_value rule = Some e → v = e).

Lemma header_guard_rule_applies_spec rule req : rule_applies rule req = true ↔ covers rule req.
Proof.
  unfold rule_applies, covers, method_matches, target_matches.
  by rewrite andb_true_iff, method_matches_spec, target_matches_spec.
Qed.

Lemma request_satisfies_rule_spec rule req :
  request_satisfies_rule rule req = true ↔ meets rule req.
Proof.
  unfold request_satisfies_rule, meets.
  destruct (header_value req (header_name rule)) as [v|]; [|split; [done|by intros (? & ? & _)]].
  destruct (expected_value rule) as [e|]; [|split; [intros _; by exists v|done]].
  unfold bytes_eqb. rewrite bool_decide_eq_true. split.
  - intros ->. exists e. split; [done|]. by intros ? [= <-].
  - intros (? & [= <-] & H). by apply H.
Qed.

(** The header guard passes a request exactly when it meets every rule that
    covers it; otherwise it answers with the status, reason and body of the
    first rule, in configuration order, that covers the request and is not met.
    It never throws and always decides. *)
Theorem header_guard_decision rules req :
  (handle rules req = Ret result_pass ∧
   Forall (λ r, covers r req → meets r req) rules) ∨
  (∃ before r after, rules = before ++ r :: after ∧
     handle rules req = Ret (result_respond (failure_response r)) ∧
     covers r req ∧ ¬ meets r req ∧
     Forall (λ r, covers r req → meets r req) before).
Proof.
  destruct (guard_decision rules req) as [[Hh HF]|(before & r & after & Heq & Hh & Ha & Hs & HF)].
  - left. split; [exact Hh|]. eapply Forall_impl; [exact HF|]. intros r.
    by rewrite <- header_guard_rule_applies_spec, <- request_satisfies_rule_spec.
  - right. exists before, r, after. split_and!; [done|exact Hh| | |].
    + by apply header_guard_rule_applies_spec.
    + rewrite <- request_satisfies_rule_spec. by apply not_true_iff_false.
    + eapply Forall_impl; [exact HF|]. intros r'.
      by rewrite <- header_guard_rule_applies_spec, <- request_satisfies_rule_spec.
Qed.

Lemma failure_is_text rule :
  wf_rule rule → ∃ s reason_phrase msg, s ≠ 0%Z ∧ reason_phrase ≠ [] ∧
    failure_response rule = text s reason_phrase msg.
Proof.
  intros (_ & _ & _ & _ & Hs & _). unfold wf_status in Hs.
  eexists _, _, _. split; [|split; [|done]]; [lia|].
  apply switch_status_nonempty; [done|]. repeat constructor; done.
Qed.

(** C24: a header guard loaded from its configuration is a gate of the
    pipeline: a request that violates no rule is answered as if the guard were
    not there; otherwise the answer is the failure of the first violated rule
    with the headers of the earlier modules, and no later module is called. *)
Theorem header_guard_gate {W} config_text rules before after req (w : W) hs w1 :
  parse_rules config_text = Ret rules → passes before req w hs w1 →
  ∃ m, header_guard_module config_text = Ret m ∧
  pipeline_handle (before ++ loaded "header_guard" m :: after) req w
  = match first_violated rules req with
    | None => pipeline_handle (before ++ after) req w
    | Some r => (Ret (with_headers (failure_response r) hs), w1)
    end.
Proof.
  intros Hparse Hp. exists (λ req, lift (handle rules req)).
  split; [unfold header_guard_module; by rewrite Hparse|].
  pose proof (rules_parse_wf config_text rules Hparse) as HF. rewrite Forall_forall in HF.
  exact (guard_gate_text "header_guard" rules before after req w hs w1
    (λ r Hr, failure_is_text r (HF r Hr)) Hp).
Qed.

(** The rule of [modules.d/08-header-guard.conf]. *)
Definition sample_config : bytes :=
  "# key" ++ [newline] ++ "rule=*|/api/*|X-Garcon-API-Key|dev-key|401|missing key".
Definition sample_rule : guard_rule :=
  GuardRule "*" "/api/" pk_prefix "X-Garcon-API-Key" (Some ("dev-key" : bytes)) 401 "missing key".
Definition sample_request (key : bytes) : request :=
  Request 1 1 "GET" "/api/x" [HeaderField "x-garcon-api-key" key].

Lemma header_guard_gate_witness :
  ∃ m : cpp_module unit, header_guard_module sample_config = Ret m ∧
  pipeline_handle ([] ++ loaded "header_guard" m :: []) (sample_request "bad") tt
  = (Ret (text 401 "Unauthorized" "missing key"), tt).
Proof.
  destruct (header_guard_gate sample_config [sample_rule] [] [] (sample_request "bad") tt [] tt)
    as (m & Hm & Heq); [vm_compute; reflexivity|constructor|].
  exists m. split; [exact Hm|]. rewrite Heq. vm_compute. reflexivity.
Defined.
