(* ===== verification/HostGuard.v ===== *)
(** * The host guard ([lib/host_guard/host_guard_module.cpp])

    Ordered rules that list the values of [Host] allowed on the requests whose
    method and target match. *)

From S2P Require Import Prelude.
From S2P Require Import StringView.
From S2P Require Import HttpHeader.
From S2P Require Import HttpRequest.
From S2P Require Import HttpResponse.
From S2P Require Import Pipeline.
From S2P Require Import ModuleAbi.
From S2P Require Import ConfigText.
From S2P Require Import Guard.

Inductive host_pattern_kind := hk_exact | hk_suffix.

(** [host_guard_module::host_pattern] *)
Record host_pattern := HostPattern { host_kind : host_pattern_kind; host_value : bytes }.

(** [host_guard_module::guard_rule] *)
Record guard_rule := GuardRule {
  method_pattern : bytes;
  target_pattern : bytes;
  target_kind : pattern_kind;
  allowed_hosts : list host_pattern;
  failure_status : Z;
  failure_body : bytes;
}.

(** ** The configuration *)

Definition trim (value : bytes) : outcome bytes := StringView.trim value.

Definition split_fields (value : bytes) (delimiter : ascii) : outcome (list bytes) :=
  StringView.split_fields value delimiter.

Definition ascii_lower (ch : ascii) : ascii :=
  if in_range "A" "Z" ch then char_of (code ch - code "A" + code "a")%Z else ch.

Definition ascii_lowercase (value : bytes) : bytes := ascii_lower <$> value.

Definition ascii_iequals (left right : bytes) : bool :=
  if negb (length left =? length right) then false else iequals_loop left right.

Definition parse_status_code (value : bytes) : outcome Z :=
  ConfigText.parse_status_code "host_guard" value.

Definition reason_phrase_for_status (status : Z) : bytes :=
  switch_status
    [ (200%Z, "OK"); (400%Z, "Bad Request"); (404%Z, "Not Found"); (405%Z, "Method Not Allowed");
      (421%Z, "Misdirected Request"); (429%Z, "Too Many Requests");
      (500%Z, "Internal Server Error"); (503%Z, "Service Unavailable") ]
    "Misdirected Request" status.

Definition is_rule_line (line : bytes) : bool := starts_with "rule=" line.

Definition classify_target_pattern (pattern : bytes) : pattern_kind * bytes :=
  ConfigText.classify_target_pattern pattern.

Definition fail {A} (what : string) : outcome A := Throw (runtime_error what).

Definition parse_host_pattern (value : bytes) : outcome host_pattern :=
  if bytes_eqb value [] then fail "host_guard: host pattern must not be empty" else
  let pattern := ascii_lowercase value in
  if 2 <? length pattern then
    c0 ← char_at pattern 0;
    if Ascii.eqb c0 "*" then
      c1 ← char_at pattern 1;
      if Ascii.eqb c1 "." then Ret (HostPattern hk_suffix (drop 1 pattern))
      else Ret (HostPattern hk_exact pattern)
    else Ret (HostPattern hk_exact pattern)
  else Ret (HostPattern hk_exact pattern).

Definition parse_host_patterns (value : bytes) : outcome (list host_pattern) :=
  fields ← split_fields value ",";
  patterns ← push_items parse_host_pattern fields [];
  match patterns with
  | [] => fail "host_guard: rule requires at least one host pattern"
  | _ => Ret patterns
  end.

Definition parse_rule_line (line : bytes) : outcome guard_rule :=
  text ← substr_from line 5;
  fields ← split_fields text "|";
  if negb (length fields =? 5) then fail "host_guard: rule requires 5 fields" else
  method ← field_at fields 0;
  target_field ← field_at fields 1;
  let '(kind, target) := classify_target_pattern target_field in
  hosts_field ← field_at fields 2;
  hosts ← parse_host_patterns hosts_field;
  if bytes_eqb method [] then fail "host_guard: method pattern must not be empty" else
  if bytes_eqb target [] then fail "host_guard: target pattern must not be empty" else
  status_field ← field_at fields 3;
  status ← parse_status_code status_field;
  body ← field_at fields 4;
  Ret (GuardRule method target kind hosts status body).

Definition parse_rules (config_text : bytes) : outcome (list guard_rule) :=
  parse_rule_lines is_rule_line parse_rule_line config_text.

(** ** The decision *)

Definition method_matches (pattern actual : bytes) : bool :=
  ConfigText.method_matches pattern actual.

Definition target_matches (kind : pattern_kind) (pattern actual : bytes) : bool :=
  ConfigText.target_matches kind pattern actual.

(** [for (i = colon + 1; i < host.size(); ++i)]: only digits. *)
Fixpoint digits_from (fuel : nat) (host : bytes) (i : nat) (numeric_port : bool) : outcome bool :=
  match fuel with
  | O => Diverge
  | S fuel =>
      if i <? length host then
        ch ← char_at host i;
        if in_range "0" "9" ch then digits_from fuel host (i + 1) numeric_port else Ret false
      else Ret numeric_port
  end.

Definition normalize_host_header (value : bytes) : outcome bytes :=
  host ← trim value;
  match host with
  | [] => Ret []
  | front :: _ =>
      if Ascii.eqb front "[" then
        match find_char host "]" 0 with
        | None => Ret (ascii_lowercase host)
        | Some close_ => bracketed ← substr host 0 (close_ + 1); Ret (ascii_lowercase bracketed)
        end
      else
        host ←
          match rfind_char host ":" with
          | Some colon =>
              if bool_decide (find_char host ":" 0 = Some colon) then
                numeric_port ←
                  digits_from (S (length host)) host (colon + 1) (colon + 1 <? length host);
                if (numeric_port : bool) then Ret (take colon host) else Ret host
              else Ret host
          | None => Ret host
          end;
        Ret (ascii_lowercase host)
  end.

Definition host_matches (pattern : host_pattern) (actual_host : bytes) : outcome bool :=
  match host_kind pattern with
  | hk_exact => Ret (ascii_iequals (host_value pattern) actual_host)
  | hk_suffix =>
      if length (host_value pattern) <? length actual_host then
        tail ← substr_from actual_host (length actual_host - length (host_value pattern));
        Ret (bytes_eqb tail (host_value pattern))
      else Ret false
  end.

Fixpoint any_host_matches (patterns : list host_pattern) (host : bytes) : outcome bool :=
  match patterns with
  | [] => Ret false
  | pattern :: patterns =>
      b ← host_matches pattern host;
      if (b : bool) then Ret true else any_host_matches patterns host
  end.

Definition request_satisfies_rule (rule : guard_rule) (req : request) : outcome bool :=
  match header_value req "Host" with
  | None => Ret false
  | Some host =>
      normalized_host ← normalize_host_header host;
      match normalized_host with
      | [] => Ret false
      | _ => any_host_matches (allowed_hosts rule) normalized_host
      end
  end.

Definition failure_response (rule : guard_rule) : response :=
  text (failure_status rule) (reason_phrase_for_status (failure_status rule)) (failure_body rule).

(** [host_guard_module::handle]: the loop over [_rules]. *)
Fixpoint handle (rules : list guard_rule) (req : request) : outcome result :=
  match rules with
  | [] => Ret result_pass
  | rule :: rules =>
      if negb (method_matches (method_pattern rule) (method req)) then handle rules req else
      if negb (target_matches (target_kind rule) (target_pattern rule) (target req))
      then handle rules req else
      satisfied ← request_satisfies_rule rule req;
      if (satisfied : bool) then handle rules req else
      Ret (result_respond (failure_response rule))
  end.

Definition host_guard_module {W} (config_text : bytes) : outcome (cpp_module W) :=
  rules ← parse_rules config_text; Ret (λ req, lift (handle rules req)).

(** ** Host names

    [host_name]: the value of a [Host] field without its port, in lower case.  A
    bracketed address is kept up to its bracket; a port is removed when it is
    the only colon and only digits follow. *)

Definition host_name (value : bytes) : bytes :=
  let host := strip is_space value in
  lowercase
    match host with
    | [] => []
    | front :: _ =>
        if Ascii.eqb front "[" then
          match search ["]"%char] host with
          | Some close_ => take (S close_) host
          | None => host
          end
        else
          match split_on ":" host with
          | [name; port] => if negb (bytes_eqb port []) && forallb (in_range "0" "9") port
                            then name else host
          | _ => host
          end
    end.

Lemma digits_from_ret fuel host i b :
  length host < fuel + i → i ≤ length host →
  digits_from fuel host i b = Ret (forallb (in_range "0" "9") (drop i host) && b).
Proof.
  revert i. induction fuel as [|fuel IH]; intros i Hf Hi; [lia|]. simpl.
  destruct (Nat.ltb_spec i (length host)) as [Hlt|Hge].
  - destruct (lookup_lt_is_Some_2 host i Hlt) as [c Hc].
    rewrite (char_at_ret _ _ c) by done. rewrite bind_ret.
    rewrite (drop_S host c i) by done. cbn [forallb].
    destruct (in_range "0" "9" c); [|done]. rewrite IH by lia. by rewrite Nat.add_1_r.
  - rewrite drop_ge by lia. done.
Qed.

Lemma rfind_char_last d a b : d ∉ b → rfind_char (a ++ d :: b) d = Some (length a).
Proof.
  intros Hd. unfold rfind_char. rewrite reverse_app, reverse_cons, <- app_assoc.
  rewrite (search_app d [] (reverse b) (reverse a)) by (by rewrite elem_of_reverse).
  simpl. rewrite length_reverse, length_app. simpl. f_equal. lia.
Qed.

Lemma rfind_char_none d s : d ∉ s → rfind_char s d = None.
Proof.
  intros Hd. unfold rfind_char. rewrite (proj2 (search_char_None d (reverse s))); [done|].
  by rewrite elem_of_reverse.
Qed.

(** Another occurrence after the first: the last one is elsewhere. *)
Lemma rfind_char_later d a b k : d ∈ b → rfind_char (a ++ d :: b) d = Some k → k ≠ length a.
Proof.
  intros Hd. unfold rfind_char. rewrite reverse_app, reverse_cons, <- app_assoc.
  destruct (search [d] (reverse b)) as [j|] eqn:Hj.
  - pose proof (search_length _ _ _ Hj) as Hl. rewrite (search_extend _ _ _ _ Hj).
    rewrite length_reverse, Nat.add_1_r in Hl. rewrite length_app. intros [= <-]. simpl. lia.
  - apply search_char_None in Hj. by rewrite elem_of_reverse in Hj.
Qed.

Lemma find_char_0 s c : find_char s c 0 = search [c] s.
Proof.
  unfold find_char. rewrite find_drop by lia. rewrite drop_0. by destruct (search [c] s).
Qed.

Lemma search_first d a b : d ∉ a → search [d] (a ++ d :: b) = Some (length a).
Proof. apply (search_app d [] a b). Qed.

Lemma normalize_host_header_ret value : normalize_host_header value = Ret (host_name value).
Proof.
  unfold normalize_host_header, host_name, trim. rewrite trim_ret, bind_ret.
  destruct (strip is_space value) as [|front rest]; [done|].
  set (host := front :: rest). clearbody host. change ascii_lowercase with lowercase.
  destruct (Ascii.eqb front "[").
  { rewrite find_char_0. destruct (search [_] host) as [i|]; [|done].
    rewrite substr_ret by lia. rewrite bind_ret, drop_0. by rewrite Nat.add_1_r. }
  rewrite find_char_0. destruct (search [":"%char] host) as [i|] eqn:Hs.
  - pose proof (search_length _ _ _ Hs) as Hl. simpl in Hl.
    apply search_char_Some in Hs as [Hnot Hsplit].
    assert (Hlen : length (take i host) = i) by (rewrite length_take; lia).
    assert (Hcut : split_on ":" host = take i host :: split_on ":" (drop (S i) host))
      by (rewrite Hsplit at 1; by apply split_on_app).
    destruct (decide (":"%char ∈ drop (S i) host)) as [Hin|Hout].
    + assert (Hsp : ∀ b, split_on ":" (drop (S i) host) ≠ [b]).
      { intros b Hb. pose proof (split_on_Forall ":" (drop (S i) host)) as HF.
        pose proof (join_split_on ":" (drop (S i) host)) as Hj. rewrite Hb in HF, Hj.
        rewrite Forall_singleton in HF. simpl in Hj. by rewrite Hj in HF. }
      rewrite Hcut.
      assert (Hr : ∀ k, rfind_char host ":" = Some k → k ≠ i).
      { intros k Hk. rewrite Hsplit in Hk. rewrite <- Hlen. by eapply rfind_char_later. }
      assert (Hrhs : match take i host :: split_on ":" (drop (S i) host) with
          | [name; port] => if negb (bytes_eqb port []) && forallb (in_range "0" "9") port
                            then name else host
          | _ => host end = host).
      { destruct (split_on ":" (drop (S i) host)) as [|b [|]]; [done|by destruct (Hsp b)|done]. }
      rewrite Hrhs. destruct (rfind_char host ":") as [k|]; [|done].
      rewrite bool_decide_eq_false_2; [done|]. specialize (Hr k eq_refl). congruence.
    + assert (Hr : rfind_char host ":" = Some i)
        by (rewrite Hsplit, rfind_char_last by done; by rewrite Hlen).
      rewrite Hr, Hcut, split_on_none by done.
      rewrite bool_decide_eq_true_2 by done.
      rewrite digits_from_ret by lia. rewrite bind_ret.
      rewrite Nat.add_1_r.
      replace (S i <? length host) with (negb (bytes_eqb (drop (S i) host) [])).
      2: { unfold bytes_eqb. case_bool_decide as Hd; simpl.
           - symmetry. apply Nat.ltb_ge. apply (f_equal length) in Hd.
             rewrite length_drop in Hd. simpl in Hd. lia.
           - symmetry. apply Nat.ltb_lt. destruct (decide (S i < length host)); [done|].
             rewrite drop_ge in Hd by lia. done. }
      rewrite andb_comm. by destruct (_ && _).
  - apply search_char_None in Hs. rewrite rfind_char_none, split_on_none by done. done.
Qed.

(** ** Host patterns *)

Definition host_allowed (pattern : host_pattern) (host : bytes) : bool :=
  match host_kind pattern with
  | hk_exact => bytes_eqb (lowercase (host_value pattern)) (lowercase host)
  | hk_suffix =>
      (length (host_value pattern) <? length host)
      && bytes_eqb (drop (length host - length (host_value pattern)) host) (host_value pattern)
  end.

Lemma host_matches_ret pattern host : host_matches pattern host = Ret (host_allowed pattern host).
Proof.
  unfold host_matches, host_allowed. destruct (host_kind pattern).
  - f_equal. change ascii_iequals with header_name_equals. apply eq_true_iff_eq.
    rewrite header_name_equals_spec. unfold bytes_eqb. by rewrite bool_decide_eq_true.
  - destruct (Nat.ltb_spec (length (host_value pattern)) (length host)); [|done].
    rewrite substr_from_ret by lia. done.
Qed.

Lemma host_allowed_spec pattern host :
  host_allowed pattern host = true ↔
  match host_kind pattern with
  | hk_exact => lowercase host = lowercase (host_value pattern)
  | hk_suffix => ∃ label, label ≠ [] ∧ host = label ++ host_value pattern
  end.
Proof.
  unfold host_allowed. destruct (host_kind pattern).
  - unfold bytes_eqb. rewrite bool_decide_eq_true. done.
  - unfold bytes_eqb. rewrite andb_true_iff, Nat.ltb_lt, bool_decide_eq_true. split.
    + intros [Hl Hd]. exists (take (length host - length (host_value pattern)) host). split.
      * intros Ht. apply (f_equal length) in Ht. rewrite length_take in Ht. simpl in Ht. lia.
      * rewrite <- Hd at 2. by rewrite take_drop.
    + intros (label & Hne & ->). rewrite length_app. split; [destruct label; [done|simpl; lia]|].
      replace (_ + _ - _) with (length label) by lia. by rewrite drop_app_length.
Qed.

Lemma any_host_matches_ret patterns host :
  any_host_matches patterns host = Ret (existsb (λ p, host_allowed p host) patterns).
Proof.
  induction patterns as [|p patterns IH]; simpl; [done|].
  rewrite host_matches_ret. simpl. by destruct (host_allowed p host).
Qed.

(** ** The module is a guard *)

Definition satisfied (rule : guard_rule) (req : request) : bool :=
  match header_value req "Host" with
  | None => false
  | Some value =>
      let host := host_name value in
      negb (bytes_eqb host []) && existsb (λ p, host_allowed p host) (allowed_hosts rule)
  end.

Lemma request_satisfies_rule_ret rule req :
  request_satisfies_rule rule req = Ret (satisfied rule req).
Proof.
  unfold request_satisfies_rule, satisfied. destruct (header_value req "Host") as [v|]; [|done].
  rewrite normalize_host_header_ret, bind_ret.
  destruct (host_name v) as [|c host]; [done|]. by rewrite any_host_matches_ret.
Qed.

Definition rule_applies (rule : guard_rule) (req : request) : bool :=
  method_matches (method_pattern rule) (method req)
  && target_matches (target_kind rule) (target_pattern rule) (target req).

#[export] Instance host_guard : Guard guard_rule := {
  guard_handle := handle;
  guard_applies := rule_applies;
  guard_satisfied := satisfied;
  guard_failure := failure_response;
}.

#[export] Instance host_guard_laws : GuardLaws guard_rule.
Proof.
  split; [done|]. intros rule rules req.
  cbn [guard_handle host_guard handle guard_applies guard_satisfied guard_failure].
  rewrite request_satisfies_rule_ret, bind_ret. unfold rule_applies.
  destruct (method_matches _ _), (target_matches _ _ _); simpl; try done.
  by destruct (satisfied rule req).
Qed.

(** ** The module has a rule language *)

Definition pattern_item (p : host_pattern) : bytes :=
  match host_kind p with
  | hk_exact => host_value p
  | hk_suffix => "*"%char :: host_value p
  end.

(** The shape that the parser reads as a suffix. *)
Definition suffix_shape (v : bytes) : bool := (2 <? length v) && starts_with "*." v.

Definition wf_pattern (p : host_pattern) : Prop :=
  wf_item (pattern_item p) ∧ lowercase (pattern_item p) = pattern_item p ∧
  (host_kind p = hk_suffix ↔ suffix_shape (pattern_item p) = true).

Lemma lowercase_not_elem d s :
  (∀ c, implb (Ascii.eqb (HttpHeader.ascii_lower c) d) (Ascii.eqb c d) = true) →
  d ∉ s → d ∉ lowercase s.
Proof.
  intros H Hd Hin. apply list_elem_of_fmap in Hin as (c & -> & Hc).
  specialize (H c). rewrite Ascii.eqb_refl in H. simpl in H. apply Ascii.eqb_eq in H. congruence.
Qed.

Lemma lowercase_wf_item v : wf_item v → wf_item (lowercase v).
Proof.
  assert (Hsp : ∀ c, Bool.eqb (is_space (HttpHeader.ascii_lower c)) (is_space c) = true)
    by (intros c; by_chars c).
  assert (Hs : ∀ c, is_space c = false → is_space (HttpHeader.ascii_lower c) = false)
    by (intros c; specialize (Hsp c); apply Bool.eqb_prop in Hsp; congruence).
  intros (Hne & ([Hh Hl] & Hb & Hn) & Hc). split; [by destruct v|split; [split; [split|split]|]].
  - intros c. unfold lowercase. destruct v as [|x v]; [done|]. simpl. intros [= <-]. by apply Hs, Hh.
  - intros c. unfold lowercase. rewrite fmap_last. destruct (last v) as [x|]; [|done]. simpl.
    intros [= <-]. by apply Hs, Hl.
  - apply lowercase_not_elem; [|done]. intros c. by_chars c.
  - apply lowercase_not_elem; [|done]. intros c. by_chars c.
  - apply lowercase_not_elem; [|done]. intros c. by_chars c.
Qed.

Lemma lowercase_idemp v : lowercase (lowercase v) = lowercase v.
Proof.
  unfold lowercase. rewrite <- list_fmap_compose. apply list_fmap_ext. intros _ c _. simpl.
  assert (H : ∀ c, Ascii.eqb (HttpHeader.ascii_lower (HttpHeader.ascii_lower c))
    (HttpHeader.ascii_lower c) = true) by (clear; intros c; by_chars c).
  by apply Ascii.eqb_eq, H.
Qed.

(** The pattern a non-empty item is read as. *)
Definition pattern_of (v : bytes) : host_pattern :=
  let v := lowercase v in
  if suffix_shape v then HostPattern hk_suffix (drop 1 v) else HostPattern hk_exact v.

Lemma parse_host_pattern_ret v : v ≠ [] → parse_host_pattern v = Ret (pattern_of v).
Proof.
  intros Hne. unfold parse_host_pattern, pattern_of, suffix_shape, starts_with.
  apply bytes_eqb_nil in Hne as ->. change (ascii_lowercase v) with (lowercase v).
  destruct (lowercase v) as [|c0 [|c1 [|c2 v']]]; try done.
  cbn [length]. change (2 <? _) with true. cbn [andb].
  rewrite (char_at_ret _ 0 c0), bind_ret, (char_at_ret _ 1 c1), bind_ret by done.
  change (take (length _) _) with [c0; c1].
  unfold bytes_eqb. case_bool_decide as Heq.
  - by injection Heq as -> ->.
  - destruct (Ascii.eqb_spec c0 "*") as [->|]; [|done].
    destruct (Ascii.eqb_spec c1 ".") as [->|]; [|done]. by destruct Heq.
Qed.

Lemma pattern_of_item v : pattern_item (pattern_of v) = lowercase v.
Proof.
  unfold pattern_of, suffix_shape. destruct (2 <? _); [|done]. cbn [andb].
  destruct (starts_with "*." (lowercase v)) eqn:Hs; [|done].
  apply starts_with_spec in Hs as [k Hk]. by rewrite Hk.
Qed.

Lemma pattern_of_wf v : wf_item v → wf_pattern (pattern_of v).
Proof.
  intros Hv. unfold wf_pattern. rewrite pattern_of_item.
  split; [by apply lowercase_wf_item|split; [apply lowercase_idemp|]].
  unfold pattern_of. by destruct (suffix_shape (lowercase v)).
Qed.

Lemma pattern_of_wf_item p : wf_pattern p → pattern_of (pattern_item p) = p.
Proof.
  intros (_ & Hl & Hs). unfold pattern_of. rewrite Hl.
  destruct p as [[] v]; unfold pattern_item in *; simpl in *.
  - destruct (suffix_shape v) eqn:E; [|done]. discriminate (proj2 Hs eq_refl).
  - by rewrite (proj1 Hs eq_refl).
Qed.

Lemma parse_host_patterns_ret field ps :
  parse_host_patterns field = Ret ps ↔
  ps ≠ [] ∧ ps = pattern_of <$> list_items field.
Proof.
  unfold parse_host_patterns, split_fields. rewrite split_fields_ret, bind_ret.
  apply (push_items_list parse_host_pattern pattern_of). apply parse_host_pattern_ret.
Qed.

Definition fields_of (rule : guard_rule) : list bytes :=
  [method_pattern rule; pattern_text (target_kind rule) (target_pattern rule);
   join "," (pattern_item <$> allowed_hosts rule);
   to_string (failure_status rule); failure_body rule].

Definition wf_rule (rule : guard_rule) : Prop :=
  (method_pattern rule ≠ [] ∧ wf_field (method_pattern rule)) ∧
  wf_target (target_kind rule) (target_pattern rule) ∧
  (allowed_hosts rule ≠ [] ∧ Forall wf_pattern (allowed_hosts rule)) ∧
  wf_status (failure_status rule) ∧ wf_field (failure_body rule).

#[export] Instance host_guard_syntax : RuleSyntax guard_rule := {
  rule_key := "rule=";
  rule_parse := parse_rule_line;
  rule_fields := fields_of;
  rule_wf := wf_rule;
}.

Lemma host_guard_parse_rule_line_wf fields rule :
  newline ∉ fields → parse_rule_line (("rule=" : bytes) ++ fields) = Ret rule → wf_rule rule.
Proof.
  intros Hnl. unfold parse_rule_line, split_fields. rewrite substr_from_ret by (simpl; lia).
  cbn [app]. rewrite bind_ret, split_fields_ret, bind_ret.
  change (drop 5 _) with fields. pose proof (fields_wf fields Hnl) as HF.
  destruct (strip is_space <$> split_on "|" fields) as [|m [|t [|h [|f3 [|f4 [|]]]]]];
    try done; intros H; cbn in H; unfold fail, classify_target_pattern, parse_status_code in H.
  destruct (ConfigText.classify_target_pattern t) as [kind target] eqn:Ht. inv_bind H.
  destruct (bytes_eqb m []) eqn:Hm; try done.
  destruct (bytes_eqb target []) eqn:Htn; try done.
  inv_bind H. injection H as <-.
  apply bytes_eqb_nil in Hm, Htn. rewrite !Forall_cons in HF. destruct_and?.
  apply parse_host_patterns_ret in Ha as [Hne Heq].
  split; [done|split; [by apply (classify_wf t)|split; [split; [done|]|split; [|done]]]].
  - cbn [allowed_hosts]. rewrite Heq, Forall_fmap. eapply Forall_impl; [by apply list_items_wf|].
    apply pattern_of_wf.
  - by eapply parse_status_range.
Qed.

Lemma wf_patterns_items ps : Forall wf_pattern ps → Forall wf_item (pattern_item <$> ps).
Proof.
  rewrite Forall_fmap. intros HF. eapply Forall_impl; [exact HF|]. by intros p (? & _).
Qed.

Lemma host_guard_fields_of_wf rule : wf_rule rule → fields_of rule ≠ [] ∧ Forall wf_field (fields_of rule).
Proof.
  intros ([_ ?] & (_ & ? & _) & [Hne Hp] & ? & ?). split; [done|].
  unfold fields_of. rewrite !Forall_cons.
  split_and!; try done; [|by apply status_field].
  apply join_items_wf; [by destruct (allowed_hosts rule)|by apply wf_patterns_items].
Qed.

Lemma host_guard_parse_rule_line_fields rule :
  wf_rule rule → parse_rule_line (rule_line "rule=" (fields_of rule)) = Ret rule.
Proof.
  intros Hwf. destruct (host_guard_fields_of_wf rule Hwf) as [Hne HF].
  destruct Hwf as ([Hm _] & Ht & [Hhne Hh] & Hs & _).
  unfold parse_rule_line, rule_line, split_fields.
  rewrite substr_from_ret by (simpl; lia). rewrite bind_ret.
  change (drop 5 _) with (join "|" (fields_of rule)).
  rewrite split_fields_join, bind_ret by done.
  apply wf_target_text in Ht as Htt. destruct Ht as [Ht _].
  destruct rule as [m t k h s b]. unfold fields_of, classify_target_pattern in *.
  cbn [method_pattern target_pattern target_kind allowed_hosts failure_status failure_body] in *.
  apply bytes_eqb_nil in Hm, Ht.
  assert (Hp : parse_host_patterns (join "," (pattern_item <$> h)) = Ret h).
  { apply parse_host_patterns_ret. split; [done|].
    rewrite list_items_join; [|by destruct h|by apply wf_patterns_items].
    rewrite <- list_fmap_compose. rewrite <- (list_fmap_id h) at 1.
    apply list_fmap_ext. intros i p Hi. simpl. symmetry. apply pattern_of_wf_item.
    by eapply Forall_lookup_1. }
  cbn. rewrite Htt, Hp. cbn. rewrite Hm, Ht. unfold parse_status_code.
  by rewrite parse_status_text.
Qed.

#[export] Instance host_guard_syntax_laws : RuleSyntaxLaws guard_rule.
Proof.
  split.
  - split; [done|split; [|done]]. by apply (bool_decide_eq_true_1 _).
  - exact host_guard_parse_rule_line_wf.
  - exact host_guard_fields_of_wf.
  - exact host_guard_parse_rule_line_fields.
Qed.

(** ** Properties *)

Lemma header_char_digit c : in_range "0" "9" c = true → is_space c = false ∧ c ≠ ":"%char.
Proof.
  intros Hc. split.
  - apply negb_true_iff. revert Hc. revert c. by_char_impl.
  - intros ->. done.
Qed.

(** A bare name: what is left when there is nothing to remove. *)
Definition bare_name (name : bytes) : Prop :=
  name ≠ [] ∧ trimmed is_space name ∧ (":"%char ∉ name) ∧ head name ≠ Some "["%char.

Lemma host_name_bare name : bare_name name → host_name name = lowercase name.
Proof.
  intros (Hne & Ht & Hc & Hb). unfold host_name. rewrite strip_id by done. f_equal.
  destruct name as [|x name]; [done|].
  destruct (Ascii.eqb_spec x "[") as [->|]; [done|]. by rewrite split_on_none.
Qed.

Lemma host_name_port name port :
  bare_name name → port ≠ [] → Forall (λ c, in_range "0" "9" c = true) port →
  host_name (name ++ ":"%char :: port) = lowercase name.
Proof.
  intros (Hne & [Hh Hl] & Hc & Hb) Hp HF. unfold host_name. rewrite strip_id.
  - f_equal. destruct name as [|x name]; [done|].
    change ((x :: name) ++ ":"%char :: port) with (x :: name ++ ":"%char :: port).
    cbv beta iota. destruct (Ascii.eqb_spec x "[") as [->|]; [done|].
    change (x :: name ++ ":"%char :: port) with ((x :: name) ++ ":"%char :: port).
    rewrite Forall_forall in HF.
    rewrite split_on_app, split_on_none; [|by intros ?%HF|done].
    rewrite (proj2 (bytes_eqb_nil port) Hp). cbn [negb andb].
    rewrite (proj2 (forallb_Forall _ port)); [done|]. by apply Forall_forall.
  - split; intros c Hx; [apply Hh; by destruct name|].
    rewrite last_app_cons in Hx. rewrite Forall_forall in HF.
    destruct port as [|y port]; [done|]. rewrite last_cons_cons in Hx.
    by apply (header_char_digit c), HF, last_Some_elem_of.
Qed.

(** The host a rule is compared with is [host_name] of the field, for every
    value: the index loops stop and read in range.  A port made of digits is
    dropped, so [name] and [name:port] are the same host, and letter case does
    not matter. *)
Theorem normalize_host_header_spec :
  (∀ value, normalize_host_header value = Ret (host_name value)) ∧
  (∀ name, bare_name name → normalize_host_header name = Ret (lowercase name)) ∧
  (∀ name port, bare_name name → port ≠ [] → Forall (λ c, in_range "0" "9" c = true) port →
     normalize_host_header (name ++ ":"%char :: port) = normalize_host_header name).
Proof.
  split; [intros; apply normalize_host_header_ret|].
  split; intros; rewrite !normalize_host_header_ret; f_equal; [by apply host_name_bare|].
  by rewrite host_name_port, host_name_bare.
Qed.

(** The requests a rule is about. *)
Definition covers (rule : guard_rule) (req : request) : Prop :=
  (method_pattern rule = "*" ∨ method_pattern rule = method req) ∧
  match target_kind rule with
  | pk_exact => target req = target_pattern rule
  | pk_prefix => target_pattern rule `prefix_of` target req
  end.

(** The request names an allowed host: one of the exact hosts of the rule up to
    case, or a host under one of its suffixes. *)
Definition names_allowed_host (rule : guard_rule) (req : request) : Prop :=
  ∃ value p, header_value req "Host" = Some value ∧ host_name value ≠ [] ∧
    p ∈ allowed_hosts rule ∧
    match host_kind p with
    | hk_exact => host_name value = lowercase (host_value p)
    | hk_suffix => ∃ label, label ≠ [] ∧ host_name value = label ++ host_value p
    end.

Lemma satisfied_spec rule req : satisfied rule req = true ↔ names_allowed_host rule req.
Proof.
  unfold satisfied, names_allowed_host.
  destruct (header_value req "Host") as [value|]; [|split; [done|by intros (? & ? & ? & _)]].
  rewrite andb_true_iff, negb_true_iff, bytes_eqb_nil, existsb_exists.
  assert (Hlow : lowercase (host_name value) = host_name value) by apply lowercase_idemp.
  split.
  - intros (Hne & p & Hin%list_elem_of_In & Ha). exists value, p. split_and!; [done..|].
    apply host_allowed_spec in Ha. destruct (host_kind p); [by rewrite Hlow in Ha|done].
  - intros (v & p & [= <-] & Hne & Hin & Hm). split; [done|]. exists p.
    split; [by apply list_elem_of_In|]. apply host_allowed_spec.
    destruct (host_kind p); [by rewrite Hlow|done].
Qed.

Lemma host_guard_rule_applies_spec rule req : rule_applies rule req = true ↔ covers rule req.
Proof.
  unfold rule_applies, covers, method_matches, target_matches.
  by rewrite andb_true_iff, method_matches_spec, target_matches_spec.
Qed.

(** C25: the host guard passes a request exactly when it names an allowed host
    of every rule that covers it; a request without [Host] never satisfies a
    rule.  Otherwise the answer is the failure of the first rule, in
    configuration order, that covers the request and does not allow its host. *)
Theorem host_guard_decision rules req :
  (handle rules req = Ret result_pass ∧
   Forall (λ r, covers r req → names_allowed_host r req) rules) ∨
  (∃ before r after, rules = before ++ r :: after ∧
     handle rules req = Ret (result_respond (failure_response r)) ∧
     covers r req ∧ ¬ names_allowed_host r req ∧
     Forall (λ r, covers r req → names_allowed_host r req) before).
Proof.
  destruct (guard_decision rules req) as [[Hh HF]|(before & r & after & Heq & Hh & Ha & Hs & HF)].
  - left. split; [exact Hh|]. eapply Forall_impl; [exact HF|]. intros r.
    by rewrite <- host_guard_rule_applies_spec, <- satisfied_spec.
  - right. exists before, r, after. split_and!; [done|exact Hh| | |].
    + by apply host_guard_rule_applies_spec.
    + rewrite <- satisfied_spec. by apply not_true_iff_false.
    + eapply Forall_impl; [exact HF|]. intros r'. by rewrite <- host_guard_rule_applies_spec, <- satisfied_spec.
Qed.

