(* ===== verification/RouteConfig.v ===== *)
(** * The route language ([lib/route_table/route_table_module.cpp],
    [lib/router/router_module.cpp])

    Both modules read [route=] lines with the same code; only the name in front
    of their error messages differs. *)

From S2P Require Import Prelude.
From S2P Require Import StringView.
From S2P Require Import HttpHeader.
From S2P Require Import HttpRequest.
From S2P Require Import HttpResponse.
From S2P Require Import ModuleAbi.
From S2P Require Import ConfigText.

(** [route_entry] of both modules. *)
Record route_entry := RouteEntry {
  method_pattern : bytes;
  target_pattern : bytes;
  target_kind : pattern_kind;
  route_outcome : module_outcome;
  route_response : option response;
}.

Definition reason_phrase_for_status (status : Z) : bytes :=
  switch_status
    [ (200%Z, "OK"); (201%Z, "Created"); (202%Z, "Accepted"); (204%Z, "No Content");
      (400%Z, "Bad Request"); (401%Z, "Unauthorized"); (403%Z, "Forbidden");
      (404%Z, "Not Found"); (405%Z, "Method Not Allowed"); (409%Z, "Conflict");
      (429%Z, "Too Many Requests"); (500%Z, "Internal Server Error");
      (501%Z, "Not Implemented"); (503%Z, "Service Unavailable") ]
    "OK" status.

Definition is_route_line (line : bytes) : bool := starts_with "route=" line.

Definition fail {A} (who : bytes) (what : string) : outcome A :=
  Throw (runtime_error (who ++ what)).

Definition parse_route_line (who line : bytes) : outcome route_entry :=
  text ← substr_from line 6;
  fields ← split_fields text "|";
  if length fields <? 3 then fail who ": route requires at least 3 fields" else
  method ← field_at fields 0;
  target_field ← field_at fields 1;
  let '(kind, target) := classify_target_pattern target_field in
  if bytes_eqb method [] then fail who ": route method pattern must not be empty" else
  if bytes_eqb target [] then fail who ": route target pattern must not be empty" else
  action ← field_at fields 2;
  if bytes_eqb action "pass" then Ret (RouteEntry method target kind mo_pass None) else
  if negb (bytes_eqb action "respond") then fail who ": unsupported route action" else
  if negb (length fields =? 6) then fail who ": respond route requires 6 fields" else
  status_field ← field_at fields 3;
  status ← parse_status_code who status_field;
  content_type ← field_at fields 4;
  body ← field_at fields 5;
  Ret (RouteEntry method target kind mo_respond
         (Some (Response status (reason_phrase_for_status status) content_type [] body None))).

(** ** The rule language *)

(** The response of a [respond] route. *)
Definition route_reply (status : Z) (content_type body : bytes) : response :=
  Response status (reason_phrase_for_status status) content_type [] body None.

Definition fields_of (r : route_entry) : list bytes :=
  [method_pattern r; pattern_text (target_kind r) (target_pattern r)]
  ++ match route_response r with
     | None => ["pass" : bytes]
     | Some resp => ["respond" : bytes; to_string (status resp); content_type resp; body resp]
     end.

Definition wf_route (r : route_entry) : Prop :=
  (method_pattern r ≠ [] ∧ wf_field (method_pattern r)) ∧
  wf_target (target_kind r) (target_pattern r) ∧
  ((route_outcome r = mo_pass ∧ route_response r = None) ∨
   (route_outcome r = mo_respond ∧ ∃ s ct b, wf_status s ∧ wf_field ct ∧ wf_field b ∧
      route_response r = Some (route_reply s ct b))).

Definition route_syntax (who : bytes) : RuleSyntax route_entry := {|
  rule_key := "route=";
  rule_parse := parse_route_line who;
  rule_fields := fields_of;
  rule_wf := wf_route;
|}.

Lemma parse_route_line_wf who fields r :
  newline ∉ fields → parse_route_line who (("route=" : bytes) ++ fields) = Ret r → wf_route r.
Proof.
  intros Hnl. unfold parse_route_line. rewrite substr_from_ret by (simpl; lia).
  cbn [app]. rewrite bind_ret, split_fields_ret, bind_ret.
  change (drop 6 _) with fields. pose proof (fields_wf fields Hnl) as HF.
  destruct (strip is_space <$> split_on "|" fields) as [|m [|t [|a rest]]]; try done.
  intros H. unfold fail in H. cbn in H.
  destruct (classify_target_pattern t) as [kind target] eqn:Ht.
  destruct (bytes_eqb m []) eqn:Hm; [done|]. destruct (bytes_eqb target []) eqn:Htn; [done|].
  apply bytes_eqb_nil in Hm, Htn. rewrite !Forall_cons in HF. destruct_and?.
  assert (wf_target kind target) by by apply (classify_wf t).
  destruct (bytes_eqb a _); [injection H as <-; split; [done|split; [done|by left]]|].
  destruct (bytes_eqb a _); [|done].
  destruct rest as [|f3 [|f4 [|f5 [|]]]]; try done. cbn in H. inv_bind H. injection H as <-.
  rewrite !Forall_cons in *. destruct_and?. split; [done|split; [done|right]]. split; [done|].
  eexists _, f4, f5. split; [by eapply parse_status_range|]. done.
Qed.

Lemma route_fields_wf r : wf_route r → fields_of r ≠ [] ∧ Forall wf_field (fields_of r).
Proof.
  intros ([_ ?] & (_ & ? & _) & Ho). split; [done|].
  unfold fields_of. rewrite Forall_app, !Forall_cons. split_and!; [done..|].
  destruct Ho as [[_ ->]|(_ & s & ct & b & ? & ? & ? & ->)].
  - by apply (bool_decide_eq_true_1 _).
  - cbn [status content_type body route_reply]. rewrite !Forall_cons.
    split_and!; try done; [by apply (bool_decide_eq_true_1 _)|by apply status_field].
Qed.

Lemma parse_route_line_fields who r :
  wf_route r → parse_route_line who (rule_line "route=" (fields_of r)) = Ret r.
Proof.
  intros Hwf. destruct (route_fields_wf r Hwf) as [Hne HF].
  destruct Hwf as ([Hm _] & Ht & Ho).
  unfold parse_route_line, rule_line.
  rewrite substr_from_ret by (simpl; lia). rewrite bind_ret.
  change (drop 6 _) with (join "|" (fields_of r)).
  rewrite split_fields_join, bind_ret by done.
  apply wf_target_text in Ht as Htt. destruct Ht as [Ht _].
  destruct r as [m t k o resp]. unfold fields_of in *.
  cbn [method_pattern target_pattern target_kind route_outcome route_response] in *.
  apply bytes_eqb_nil in Hm, Ht.
  destruct Ho as [[-> ->]|(-> & s & ct & b & Hs & _ & _ & ->)]; cbn; rewrite Htt, Hm, Ht; cbn.
  - done.
  - by rewrite parse_status_text.
Qed.

Lemma route_syntax_laws who : @RuleSyntaxLaws route_entry (route_syntax who).
Proof.
  split.
  - split; [done|split; [|done]]. by apply (bool_decide_eq_true_1 _).
  - exact (parse_route_line_wf who).
  - exact route_fields_wf.
  - exact (parse_route_line_fields who).
Qed.

(** The reply of a route arrives at the host as it is. *)
Lemma normalize_reply s ct b :
  wf_status s → normalize (route_reply s ct b) [] = route_reply s ct b.
Proof.
  intros Hs. unfold wf_status in Hs. unfold normalize, route_reply.
  cbn [status reason content_type response_headers body content_length].
  rewrite (proj2 (Z.eqb_neq _ _)) by lia. unfold bytes_eqb. rewrite bool_decide_eq_false_2; [done|].
  apply switch_status_nonempty; [done|]. repeat constructor; done.
Qed.
