(* ===== verification/RouteTable.v ===== *)
(** * The route table ([lib/route_table/route_table_module.cpp])

    Ordered routes; the first one that matches the request answers it or lets it
    pass. *)

From S2P Require Import Prelude.
From S2P Require Import StringView.
From S2P Require Import HttpHeader.
From S2P Require Import HttpRequest.
From S2P Require Import HttpResponse.
From S2P Require Import Pipeline.
From S2P Require Import ModuleAbi.
From S2P Require Import ConfigText.
From S2P Require Import RouteConfig.

(** ** The configuration *)

Definition trim (value : bytes) : outcome bytes := StringView.trim value.

Definition split_fields (value : bytes) (delimiter : ascii) : outcome (list bytes) :=
  StringView.split_fields value delimiter.

Definition parse_status_code (value : bytes) : outcome Z :=
  ConfigText.parse_status_code "route_table" value.

Definition reason_phrase_for_status (status : Z) : bytes :=
  RouteConfig.reason_phrase_for_status status.

Definition is_route_line (line : bytes) : bool := RouteConfig.is_route_line line.

Definition classify_target_pattern (pattern : bytes) : pattern_kind * bytes :=
  ConfigText.classify_target_pattern pattern.

Definition parse_route_line (line : bytes) : outcome route_entry :=
  RouteConfig.parse_route_line "route_table" line.

Definition parse_routes (config_text : bytes) : outcome (list route_entry) :=
  parse_rule_lines is_route_line parse_route_line config_text.

(** ** The decision *)

Definition method_matches (pattern actual : bytes) : bool :=
  ConfigText.method_matches pattern actual.

Definition target_matches (kind : pattern_kind) (pattern actual : bytes) : bool :=
  ConfigText.target_matches kind pattern actual.

(** [route_table_module::handle]: the loop over [_routes]. *)
Fixpoint handle (routes : list route_entry) (req : request) : result :=
  match routes with
  | [] => result_pass
  | route :: routes =>
      if negb (method_matches (method_pattern route) (method req)) then handle routes req else
      if negb (target_matches (target_kind route) (target_pattern route) (target req))
      then handle routes req else
      match route_outcome route with
      | mo_pass => result_pass
      | _ =>
          match route_response route with
          | Some r => result_respond r
          | None => result_error
          end
      end
  end.

Definition route_table_module {W} (config_text : bytes) : outcome (cpp_module W) :=
  routes ← parse_routes config_text; Ret (λ req, lift (Ret (handle routes req))).

#[export] Instance route_table_syntax : RuleSyntax route_entry := route_syntax "route_table".
#[export] Instance route_table_syntax_laws : RuleSyntaxLaws route_entry :=
  route_syntax_laws "route_table".

(** ** Properties *)

(** The requests a route is about. *)
Definition covers (r : route_entry) (req : request) : Prop :=
  (method_pattern r = "*" ∨ method_pattern r = method req) ∧
  match target_kind r with
  | pk_exact => target req = target_pattern r
  | pk_prefix => target_pattern r `prefix_of` target req
  end.

(** The first route that covers the request. *)
Inductive routed : list route_entry → request → option route_entry → Prop :=
  | routed_none req : routed [] req None
  | routed_here r routes req : covers r req → routed (r :: routes) req (Some r)
  | routed_later r routes req o :
      ¬ covers r req → routed routes req o → routed (r :: routes) req o.

Definition reply_of (o : option route_entry) : result :=
  match o with
  | Some r => match route_response r with Some resp => result_respond resp | None => result_pass end
  | None => result_pass
  end.

Definition covers_b (r : route_entry) (req : request) : bool :=
  method_matches (method_pattern r) (method req)
  && target_matches (target_kind r) (target_pattern r) (target req).

Lemma covers_b_spec r req : covers_b r req = true ↔ covers r req.
Proof.
  unfold covers_b, covers, method_matches, target_matches.
  by rewrite andb_true_iff, method_matches_spec, target_matches_spec.
Qed.

#[export] Instance covers_dec r req : Decision (covers r req).
Proof.
  refine (match covers_b r req as b return covers_b r req = b → _ with
    | true => λ H, left (proj1 (covers_b_spec r req) H)
    | false => λ H, right (λ Hc, _) end eq_refl).
  apply covers_b_spec in Hc. congruence.
Defined.

Lemma routed_exists routes req : ∃ o, routed routes req o.
Proof.
  induction routes as [|r routes [o Ho]]; [eexists; constructor|].
  destruct (decide (covers r req)); eexists; [by apply routed_here|by apply routed_later].
Qed.

Lemma routed_elem routes req o r : routed routes req o → o = Some r → r ∈ routes.
Proof.
  induction 1 as [|r' routes req Hc|r' routes req o Hc Hr IH]; intros Heq; [done| |].
  - injection Heq as ->. left.
  - right. by apply IH.
Qed.

Lemma handle_routed routes req o :
  Forall wf_route routes → routed routes req o → handle routes req = reply_of o.
Proof.
  intros HF Hr. revert HF. induction Hr as [req|r routes req Hc|r routes req o Hc Hr IH];
    rewrite ?Forall_cons; intros HF; [done| |]; destruct HF as [Hwf HF];
    rewrite <- covers_b_spec in Hc; unfold covers_b in Hc; cbn [handle].
  - apply andb_prop in Hc as [-> ->]. simpl.
    by destruct Hwf as (_ & _ & [[-> ->]|(-> & s & ct & b & _ & _ & _ & ->)]).
  - destruct (method_matches _ _); [|by apply IH]. destruct (target_matches _ _ _); [done|].
    by apply IH.
Qed.

(** Routes do not look at the version. *)
Lemma handle_abi_request routes req : handle routes (abi_request req) = handle routes req.
Proof. induction routes as [|r routes IH]; [done|]. cbn. by rewrite IH. Qed.

(** In the pipeline, a loaded route table decides by the first route, in
    configuration order, that covers the request: a [respond] route answers with
    its response and the headers of the earlier modules, and no later module is
    called; a [pass] route, or no route, leaves the request to the later modules
    as if the table were not there.  The table never answers with an error. *)
Theorem route_table_first_match {W} config_text routes before after req (w : W) hs w1 o :
  parse_routes config_text = Ret routes → passes before req w hs w1 → routed routes req o →
  ∃ m, route_table_module config_text = Ret m ∧
  pipeline_handle (before ++ loaded "route_table" m :: after) req w
  = match o ≫= route_response with
    | Some r => (Ret (with_headers r hs), w1)
    | None => pipeline_handle (before ++ after) req w
    end.
Proof.
  intros Hparse Hp Ho. exists (λ req, lift (Ret (handle routes req))).
  split; [unfold route_table_module; by rewrite Hparse|].
  pose proof (rules_parse_wf config_text routes Hparse) as HF.
  pose proof (handle_routed routes req o HF Ho) as Hh.
  assert (Hm : module_handle (loaded "route_table" (λ req, lift (Ret (handle routes req)))) req w1
    = (Ret (adapt (reply_of o)), w1))
    by (rewrite loaded_handle, handle_abi_request, Hh; done).
  unfold pipeline_handle. rewrite !(handle_from_passes _ _ _ _ _ _ _ Hp). cbn [handle_from].
  rewrite (prog_bind_ret _ _ _ _ _ Hm).
  destruct o as [r|]; [|simpl; by rewrite app_nil_r].
  assert (Hwf : wf_route r).
  { rewrite Forall_forall in HF. apply HF. by eapply routed_elem. }
  cbn. destruct Hwf as (_ & _ & [[_ Hresp]|(_ & s & ct & b & Hs & _ & _ & Hresp)]);
    rewrite Hresp; cbn.
  - by rewrite app_nil_r.
  - by rewrite normalize_reply.
Qed.

(** The development configuration of [modules.d]. *)
Definition sample_config : bytes :=
  "path=x.so" ++ [newline] ++ "route=GET|/healthz|respond|200|text/plain|ok" ++ [newline] ++
  "route=GET|/api/*|pass".
Definition sample_routes : list route_entry :=
  [ RouteEntry "GET" "/healthz" pk_exact mo_respond (Some (route_reply 200 "text/plain" "ok"));
    RouteEntry "GET" "/api/" pk_prefix mo_pass None ].
Definition sample_request : request := Request 1 1 "GET" "/healthz" [].

Lemma route_table_first_match_witness :
  ∃ m : cpp_module unit, route_table_module sample_config = Ret m ∧
  pipeline_handle ([] ++ loaded "route_table" m :: []) sample_request tt
  = (Ret (route_reply 200 "text/plain" "ok"), tt).
Proof.
  destruct (route_table_first_match sample_config sample_routes [] [] sample_request tt [] tt
    (head sample_routes)) as (m & Hm & Heq).
  - vm_compute. reflexivity.
  - constructor.
  - apply routed_here. apply (bool_decide_eq_true_1 _). vm_compute. reflexivity.
  - exists m. split; [exact Hm|]. rewrite Heq. reflexivity.
Defined.
