(* ===== verification/Router.v ===== *)
(** * The router ([lib/router/router_module.cpp])

    The route language of the route table with [{name}] parameters in the target
    patterns.  The pattern matcher is an index loop; it is shown to decide a
    declarative matching relation. *)

From S2P Require Import Prelude.
From S2P Require Import StringView.
From S2P Require Import HttpHeader.
From S2P Require Import HttpRequest.
From S2P Require Import HttpResponse.
From S2P Require Import Pipeline.
From S2P Require Import ModuleAbi.
From S2P Require Import ConfigText.
From S2P Require Import RouteConfig.

(** ** The configuration *)

Definition trim (value : bytes) : outcome bytes := StringView.trim value.

Definition split_fields (value : bytes) (delimiter : ascii) : outcome (list bytes) :=
  StringView.split_fields value delimiter.

Definition parse_status_code (value : bytes) : outcome Z :=
  ConfigText.parse_status_code "router" value.

Definition reason_phrase_for_status (status : Z) : bytes :=
  RouteConfig.reason_phrase_for_status status.

Definition is_route_line (line : bytes) : bool := RouteConfig.is_route_line line.

Definition classify_target_pattern (pattern : bytes) : pattern_kind * bytes :=
  ConfigText.classify_target_pattern pattern.

Definition parse_route_line (line : bytes) : outcome route_entry :=
  RouteConfig.parse_route_line "router" line.

Definition parse_routes (config_text : bytes) : outcome (list route_entry) :=
  parse_rule_lines is_route_line parse_route_line config_text.


(** ** The matcher *)

Definition method_matches (pattern actual : bytes) : bool :=
  ConfigText.method_matches pattern actual.

Record captured_param := CapturedParam { param_name : bytes; param_value : bytes }.

(** The loop over [param_name], with [out] and [next_upper]. *)
Fixpoint param_header_from (name out : bytes) (next_upper : bool) : bytes :=
  match name with
  | [] => if bytes_eqb out [] then "Param" else out
  | ch :: name =>
      if Ascii.eqb ch "_" then param_header_from name (out ++ ["-"%char]) true
      else if next_upper then param_header_from name (out ++ [to_upper ch]) false
      else param_header_from name (out ++ [ch]) next_upper
  end.

Definition make_route_param_header (name : bytes) : bytes := param_header_from name [] true.

Definition extract_path (target : bytes) : outcome bytes :=
  match find_char target "?" 0 with
  | None => Ret target
  | Some q => substr target 0 q
  end.

Definition not_slash (c : ascii) : bool := negb (Ascii.eqb c "/").

(** The loop over the pattern: the captures and the position reached in the
    path. *)
Fixpoint match_from (fuel : nat) (pattern path : bytes) (p t : nat) (caps : list captured_param)
    : outcome (option (list captured_param * nat)) :=
  match fuel with
  | O => Diverge
  | S fuel =>
      if p <? length pattern then
        c ← char_at pattern p;
        if Ascii.eqb c "{" then
          match find_char pattern "}" (p + 1) with
          | None => Ret None
          | Some close_at =>
              name ← substr pattern (p + 1) (close_at - p - 1);
              let p := close_at + 1 in
              let start_t := t in
              t ← scan_right (S (length path)) not_slash path t;
              value ← substr path start_t (t - start_t);
              if bytes_eqb name [] then Ret None
              else match_from fuel pattern path p t (caps ++ [CapturedParam name value])
          end
        else if length path <=? t then Ret None
        else
          d ← char_at path t;
          if negb (Ascii.eqb c d) then Ret None
          else match_from fuel pattern path (p + 1) (t + 1) caps
      else Ret (Some (caps, t))
  end.

Definition match_target (kind : pattern_kind) (pattern target : bytes)
    : outcome (option (list captured_param)) :=
  path ← extract_path target;
  m ← match_from (S (length pattern)) pattern path 0 0 [];
  match m with
  | None => Ret None
  | Some (caps, t) =>
      let at_end := t =? length path in
      match kind with
      | pk_prefix => Ret (Some caps)
      | pk_exact => if at_end then Ret (Some caps) else Ret None
      end
  end.

(** ** The decision *)

(** The header a captured parameter is published as. *)
Definition param_header (cp : captured_param) : header_field :=
  HeaderField ("X-Garcon-Route-Param-" ++ make_route_param_header (param_name cp)) (param_value cp).

(** [router_module::handle]: the loop over [_routes]. *)
Fixpoint handle (routes : list route_entry) (req : request) : outcome result :=
  match routes with
  | [] => Ret result_pass
  | route :: routes =>
      if negb (method_matches (method_pattern route) (method req)) then handle routes req else
      caps_opt ← match_target (target_kind route) (target_pattern route) (target req);
      match caps_opt with
      | None => handle routes req
      | Some caps =>
          match route_outcome route with
          | mo_pass =>
              Ret (foldl (λ res cp,
                     result_add_header res
                       ("X-Garcon-Route-Param-" ++ make_route_param_header (param_name cp))
                       (param_value cp)) result_pass caps)
          | _ =>
              match route_response route with
              | Some r => Ret (result_respond r)
              | None => Ret result_error
              end
          end
      end
  end.

Definition router_module {W} (config_text : bytes) : outcome (cpp_module W) :=
  routes ← parse_routes config_text; Ret (λ req, lift (handle routes req)).

#[export] Instance router_syntax : RuleSyntax route_entry := route_syntax "router".
#[export] Instance router_syntax_laws : RuleSyntaxLaws route_entry := route_syntax_laws "router".

(** ** Patterns as templates *)

Inductive part := Literal (c : ascii) | Param (name : bytes).

(** A pattern whose braces close and whose names are not empty. *)
Inductive template : bytes → list part → Prop :=
  | template_nil : template [] []
  | template_literal c s ps : c ≠ "{"%char → template s ps → template (c :: s) (Literal c :: ps)
  | template_param name s ps :
      name ≠ [] → ("}"%char ∉ name) → template s ps →
      template ("{"%char :: name ++ "}"%char :: s) (Param name :: ps).

(** [captures ps path caps rest]: the template covers [path] up to [rest]; each
    parameter takes the whole segment up to the next slash. *)
Inductive captures : list part → bytes → list captured_param → bytes → Prop :=
  | captures_nil rest : captures [] rest [] rest
  | captures_literal c ps path caps rest :
      captures ps path caps rest → captures (Literal c :: ps) (c :: path) caps rest
  | captures_param name value ps path caps rest :
      ("/"%char ∉ value) → (path = [] ∨ head path = Some "/"%char) →
      captures ps path caps rest →
      captures (Param name :: ps) (value ++ path) (CapturedParam name value :: caps) rest.

Definition target_covered (kind : pattern_kind) (pattern target : bytes)
    (caps : list captured_param) : Prop :=
  ∃ path ps rest, path_of target path ∧ template pattern ps ∧ captures ps path caps rest ∧
    (kind = pk_prefix ∨ rest = []).

(** *** Segments *)

Lemma not_slash_Forall v : Forall (λ c, not_slash c = true) v ↔ ("/"%char ∉ v).
Proof.
  induction v as [|c v IH]; [split; [intros _; apply not_elem_of_nil|constructor]|].
  rewrite Forall_cons, not_elem_of_cons, IH. unfold not_slash.
  rewrite negb_true_iff, Ascii.eqb_neq. intuition congruence.
Qed.

Lemma segment_split T : ∃ v, T = v ++ lstrip not_slash T ∧ ("/"%char ∉ v) ∧
  (lstrip not_slash T = [] ∨ head (lstrip not_slash T) = Some "/"%char).
Proof.
  destruct (lstrip_split not_slash T) as (v & Hv & HF). exists v.
  split; [done|]. split; [by apply not_slash_Forall|].
  destruct (lstrip not_slash T) as [|c rest] eqn:Hl; [by left|right].
  assert (Hc : not_slash c = false) by (apply (lstrip_head not_slash T); by rewrite Hl).
  unfold not_slash in Hc. apply negb_false_iff, Ascii.eqb_eq in Hc. by subst.
Qed.

Lemma segment_unique v path :
  ("/"%char ∉ v) → (path = [] ∨ head path = Some "/"%char) → lstrip not_slash (v ++ path) = path.
Proof.
  intros Hv Hp. rewrite lstrip_app by by apply not_slash_Forall.
  apply lstrip_id. intros c Hc. destruct Hp as [->|Hp]; [done|].
  rewrite Hp in Hc. by injection Hc as <-.
Qed.

(** The inner loop stops at the end of the segment. *)
Lemma scan_segment path t :
  t ≤ length path →
  ∃ t', scan_right (S (length path)) not_slash path t = Ret t' ∧ t ≤ t' ≤ length path ∧
    drop t' path = lstrip not_slash (drop t path) ∧
    drop t path = take (t' - t) (drop t path) ++ drop t' path.
Proof.
  intros Ht. rewrite scan_right_spec by lia. eexists. split; [done|].
  destruct (lstrip_drop not_slash (drop t path)) as [Hd Hl]. rewrite length_drop in Hd, Hl.
  split; [lia|].
  assert (Heq : drop (length path - length (lstrip not_slash (drop t path))) path
    = lstrip not_slash (drop t path)).
  { rewrite Hd at 2. rewrite drop_drop. f_equal. lia. }
  split; [exact Heq|]. rewrite <- (take_drop (length path - length (lstrip not_slash (drop t path)) - t)
    (drop t path)) at 1. f_equal. rewrite drop_drop. f_equal. lia.
Qed.

(** *** The relations are functions *)

Lemma template_inv s ps :
  template s ps →
  match s with
  | [] => ps = []
  | c :: s =>
      if Ascii.eqb c "{" then
        ∃ name s' ps', s = name ++ "}"%char :: s' ∧ name ≠ [] ∧ ("}"%char ∉ name) ∧
          ps = Param name :: ps' ∧ template s' ps'
      else ∃ ps', ps = Literal c :: ps' ∧ template s ps'
  end.
Proof.
  intros [|c s' ps' Hc H|name s' ps' Hn Hb H]; [done| |].
  - apply Ascii.eqb_neq in Hc. rewrite Hc. by exists ps'.
  - simpl. by exists name, s', ps'.
Qed.

Lemma captures_inv ps path caps rest :
  captures ps path caps rest →
  match ps with
  | [] => caps = [] ∧ rest = path
  | Literal c :: ps => ∃ path', path = c :: path' ∧ captures ps path' caps rest
  | Param name :: ps =>
      ∃ v path' caps', path = v ++ path' ∧ ("/"%char ∉ v) ∧ path' = lstrip not_slash path ∧
        caps = CapturedParam name v :: caps' ∧ captures ps path' caps' rest
  end.
Proof.
  intros [r|c ps' path' caps' r H|name v ps' path' caps' r Hv Hp H]; [done|by exists path'|].
  exists v, path', caps'. by rewrite segment_unique.
Qed.

(** The name of a parameter ends at the first closing brace. *)
Lemma brace_unique (a b s t : bytes) :
  ("}"%char ∉ a) → ("}"%char ∉ b) → a ++ "}"%char :: s = b ++ "}"%char :: t → a = b ∧ s = t.
Proof.
  intros Ha Hb Heq. pose proof (f_equal (split_on "}") Heq) as Hs.
  rewrite !split_on_app in Hs by done. injection Hs as -> _.
  by apply app_inv_head in Heq as [= ->].
Qed.

Lemma template_det s ps ps' : template s ps → template s ps' → ps = ps'.
Proof.
  intros H. revert ps'. induction H as [|c s ps Hc H IH|name s ps Hn Hb H IH];
    intros ps' H'; apply template_inv in H'; [done| |].
  - apply Ascii.eqb_neq in Hc. rewrite Hc in H'. destruct H' as (ps2 & -> & H2).
    by rewrite (IH ps2).
  - simpl in H'. destruct H' as (name' & s' & ps2 & Heq & _ & Hb' & -> & H2).
    destruct (brace_unique _ _ _ _ Hb Hb' Heq) as [-> ->]. by rewrite (IH ps2).
Qed.

Lemma captures_det ps path caps rest caps' rest' :
  captures ps path caps rest → captures ps path caps' rest' → caps = caps' ∧ rest = rest'.
Proof.
  intros H. revert caps' rest'.
  induction H as [rest|c ps path caps rest H IH|name v ps path caps rest Hv Hp H IH];
    intros caps' rest' H'; apply captures_inv in H'.
  - by destruct H' as [-> ->].
  - destruct H' as (path' & [= ->] & H'). by apply IH.
  - destruct H' as (v' & path' & caps2 & Heq & _ & Hl & -> & H2).
    rewrite segment_unique in Hl by done. subst path'. apply app_inv_tail in Heq as ->.
    by destruct (IH _ _ H2) as [-> ->].
Qed.

(** *** The loop meets the relations *)

(** What a run over the suffixes [P] of the pattern and [T] of the path means. *)
Definition match_means (P T path : bytes) (caps : list captured_param)
    (r : option (list captured_param * nat)) : Prop :=
  match r with
  | Some (caps', t') =>
      ∃ ps more, template P ps ∧ captures ps T more (drop t' path) ∧ caps' = caps ++ more ∧
        t' ≤ length path
  | None => ∀ ps more rest, template P ps → ¬ captures ps T more rest
  end.

Lemma match_means_literal c P T path caps r :
  c ≠ "{"%char → match_means P T path caps r → match_means (c :: P) (c :: T) path caps r.
Proof.
  intros Hc. pose proof Hc as Hb. apply Ascii.eqb_neq in Hb. destruct r as [[caps' t']|]; simpl.
  - intros (ps & more & HP & HT & -> & Ht). exists (Literal c :: ps), more.
    split; [by constructor|]. split; [by constructor|done].
  - intros H ps more rest HP HT. apply template_inv in HP. rewrite Hb in HP.
    destruct HP as (ps' & -> & HP). apply captures_inv in HT as (T' & [= <-] & HT).
    by apply (H ps' more rest).
Qed.

Lemma match_means_param name v P T path caps r :
  name ≠ [] → ("}"%char ∉ name) → ("/"%char ∉ v) → (T = [] ∨ head T = Some "/"%char) →
  match_means P T path (caps ++ [CapturedParam name v]) r →
  match_means ("{"%char :: name ++ "}"%char :: P) (v ++ T) path caps r.
Proof.
  intros Hn Hb Hv HT. destruct r as [[caps' t']|]; simpl.
  - intros (ps & more & HP & Hc & -> & Ht).
    exists (Param name :: ps), (CapturedParam name v :: more).
    split; [by constructor|]. split; [by constructor|]. by rewrite <- app_assoc.
  - intros H ps more rest HP Hc. apply template_inv in HP. simpl in HP.
    destruct HP as (name' & P' & ps' & Heq & _ & Hb' & -> & HP).
    destruct (brace_unique _ _ _ _ Hb Hb' Heq) as [<- <-].
    apply captures_inv in Hc as (v' & T' & caps' & _ & _ & Hl & -> & Hc).
    rewrite segment_unique in Hl by done. subst T'. by apply (H ps' caps' rest).
Qed.

(** No template starts with an open brace that does not close, or closes at
    once. *)
Lemma no_template Q : (∀ name P, name ≠ [] → ("}"%char ∉ name) → Q ≠ name ++ "}"%char :: P) →
  ∀ ps, ¬ template ("{"%char :: Q) ps.
Proof.
  intros H ps HP. apply template_inv in HP. simpl in HP.
  destruct HP as (name & P & _ & -> & Hn & Hb & _). by apply (H name P).
Qed.

Lemma match_from_spec fuel pattern path p t caps :
  length pattern < fuel + p → p ≤ length pattern → t ≤ length path →
  ∃ r, match_from fuel pattern path p t caps = Ret r ∧
       match_means (drop p pattern) (drop t path) path caps r.
Proof.
  revert p t caps. induction fuel as [|fuel IH]; intros p t caps Hf Hp Ht; [lia|]. cbn [match_from].
  destruct (Nat.ltb_spec p (length pattern)) as [Hlt|Hge]; cycle 1.
  { exists (Some (caps, t)). split; [done|]. rewrite drop_ge by lia. exists [], [].
    split; [constructor|]. split; [constructor|]. by rewrite app_nil_r. }
  destruct (lookup_lt_is_Some_2 pattern p Hlt) as [c Hc].
  rewrite (char_at_ret pattern p c), bind_ret by done. rewrite (drop_S pattern c p) by done.
  destruct (Ascii.eqb_spec c "{") as [->|Hbrace].
  - unfold find_char. rewrite find_drop, Nat.add_1_r by lia.
    destruct (search ["}"%char] (drop (S p) pattern)) as [i|] eqn:Hs; cbn [fmap option_fmap option_map].
    + pose proof (search_length _ _ _ Hs) as Hl. simpl in Hl. rewrite length_drop in Hl.
      apply search_char_Some in Hs as [Hnot Hsplit]. rewrite drop_drop in Hsplit.
      rewrite (substr_ret pattern (S p)) by lia. rewrite bind_ret.
      replace (S p + i - p - 1) with i by lia.
      set (name := take i (drop (S p) pattern)) in *. rewrite Hsplit.
      destruct (scan_segment path t Ht) as (t' & -> & Ht' & Hd & Hseg).
      rewrite bind_ret, (substr_ret path t) by lia. rewrite bind_ret.
      destruct (bytes_eqb name []) eqn:He.
      * exists None. split; [done|]. intros ps more rest HP _. revert HP. apply no_template.
        intros name' P Hn Hb Heq. apply bool_decide_eq_true in He.
        destruct (brace_unique _ _ _ _ Hnot Hb Heq) as [Hx _]. congruence.
      * apply bytes_eqb_nil in He.
        destruct (IH (S p + i + 1) t'
          (caps ++ [CapturedParam name (take (t' - t) (drop t path))])) as (r & -> & Hr); [lia..|].
        exists r. split; [done|]. destruct (segment_split (drop t path)) as (v & Hv & Hnv & Hend).
        rewrite <- Hd in Hv, Hend. rewrite Hv in Hseg at 1. apply app_inv_tail in Hseg. subst v.
        rewrite Hv. replace (S p + S i) with (S p + i + 1) by lia.
        by apply match_means_param.
    + exists None. split; [done|]. intros ps more rest HP _. revert HP. apply no_template.
      apply search_char_None in Hs. intros name P _ _ Heq. apply Hs. rewrite Heq. set_solver.
  - destruct (Nat.leb_spec (length path) t) as [Hle|Hgt].
    { exists None. split; [done|]. rewrite (drop_ge path) by lia. intros ps more rest HP HT.
      apply template_inv in HP. apply Ascii.eqb_neq in Hbrace. rewrite Hbrace in HP.
      destruct HP as (ps' & -> & _). by apply captures_inv in HT as (? & ? & _). }
    destruct (lookup_lt_is_Some_2 path t Hgt) as [d Hd].
    rewrite (char_at_ret path t d), bind_ret by done. rewrite (drop_S path d t) by done.
    destruct (Ascii.eqb_spec c d) as [<-|Hne].
    + rewrite !Nat.add_1_r. destruct (IH (S p) (S t) caps) as (r & -> & Hr); [lia..|].
      exists r. split; [done|]. by apply match_means_literal.
    + exists None. split; [done|]. intros ps more rest HP HT.
      apply template_inv in HP. apply Ascii.eqb_neq in Hbrace. rewrite Hbrace in HP.
      destruct HP as (ps' & -> & _). by apply captures_inv in HT as (? & [= ] & _).
Qed.

(** *** The match of a target *)

Lemma extract_path_ret target : ∃ path, extract_path target = Ret path ∧ path_of target path.
Proof. exact (cut_query_ret target). Qed.

Lemma target_covered_det kind pattern target caps caps' :
  target_covered kind pattern target caps → target_covered kind pattern target caps' → caps = caps'.
Proof.
  intros (path & ps & rest & Hp & Ht & Hc & _) (path' & ps' & rest' & Hp' & Ht' & Hc' & _).
  rewrite (path_of_unique _ _ _ Hp' Hp), (template_det _ _ _ Ht' Ht) in Hc'.
  by destruct (captures_det _ _ _ _ _ _ Hc Hc').
Qed.

Lemma match_target_ret kind pattern target :
  ∃ r, match_target kind pattern target = Ret r ∧
    match r with
    | Some caps => target_covered kind pattern target caps
    | None => ∀ caps, ¬ target_covered kind pattern target caps
    end.
Proof.
  unfold match_target. destruct (extract_path_ret target) as (path & -> & Hpath).
  rewrite bind_ret.
  destruct (match_from_spec (S (length pattern)) pattern path 0 0 []) as (r & -> & Hr); [lia..|].
  rewrite bind_ret. rewrite !drop_0 in Hr. destruct r as [[caps t]|]; simpl in Hr.
  - destruct Hr as (ps & more & HP & HT & -> & Ht).
    assert (Hex : ∀ caps', target_covered pk_exact pattern target caps' → t = length path).
    { intros caps' (path' & ps' & rest & Hp' & HP' & HT' & [?|Hrest]); [done|].
      rewrite (path_of_unique _ _ _ Hp' Hpath), (template_det _ _ _ HP' HP) in HT'.
      destruct (captures_det _ _ _ _ _ _ HT HT') as [_ Hd]. subst rest.
      apply (f_equal length) in Hd. rewrite length_drop in Hd. simpl in Hd. lia. }
    destruct kind; [|eexists; split; [done|]; exists path, ps, (drop t path); auto].
    destruct (Nat.eqb_spec t (length path)) as [->|Hne]; eexists; (split; [done|]); simpl.
    + exists path, ps, (drop (length path) path). rewrite drop_ge in * by done. auto.
    + intros caps' Hcov. by apply Hne, (Hex caps').
  - exists None. split; [done|]. intros caps (path' & ps & rest & Hp' & HP & HT & _).
    rewrite (path_of_unique _ _ _ Hp' Hpath) in HT. by apply (Hr ps caps rest).
Qed.

(** C38: the matcher of the router always answers, and finds exactly the
    captures of the declarative match: the pattern is a template of literals and
    closed, named parameters, the path is the target up to its query, every
    literal is matched by itself, every parameter takes its whole segment up to
    the next slash, and an exact pattern leaves nothing of the path over. *)
Theorem router_match kind pattern target caps :
  returns (match_target kind pattern target) ∧
  (match_target kind pattern target = Ret (Some caps) ↔ target_covered kind pattern target caps).
Proof.
  destruct (match_target_ret kind pattern target) as (r & -> & Hr).
  split; [apply returns_ret|]. destruct r as [caps'|]; split.
  - by intros [= <-].
  - intros H. by rewrite (target_covered_det _ _ _ _ _ H Hr).
  - done.
  - intros H. by destruct (Hr caps).
Qed.

(** *** Header names *)

(** A word with its first char in upper case. *)
Definition capitalize (word : bytes) : bytes :=
  match word with
  | [] => []
  | c :: word => to_upper c :: word
  end.

(** One step of [split_on]. *)
Lemma split_on_step d c s w ws :
  split_on d s = w :: ws →
  split_on d (c :: s) = if Ascii.eqb c d then [] :: w :: ws else (c :: w) :: ws.
Proof. intros H. unfold split_on at 1. fold (split_on d s). by rewrite H. Qed.

Lemma param_header_from_word name out :
  out ≠ [] →
  param_header_from name out false
  = out ++ match split_on "_" name with
           | w :: ws => join "-" (w :: (capitalize <$> ws))
           | [] => []
           end ∧
  param_header_from name out true = out ++ join "-" (capitalize <$> split_on "_" name).
Proof.
  revert out. induction name as [|c name IH]; intros out Hne; cbn [param_header_from].
  { apply bytes_eqb_nil in Hne. rewrite Hne. unfold split_on. simpl. by rewrite app_nil_r. }
  destruct (split_on_cons "_" name) as (w & ws & Hsp). rewrite (split_on_step _ c _ _ _ Hsp).
  destruct (Ascii.eqb c "_") eqn:Hc.
  - destruct (IH (out ++ ["-"%char])) as [_ IHt]; [by destruct out|].
    rewrite IHt, Hsp, <- app_assoc. split; reflexivity.
  - destruct (IH (out ++ [c])) as [IHf _]; [by destruct out|].
    destruct (IH (out ++ [to_upper c])) as [IHu _]; [by destruct out|].
    rewrite IHf, IHu, Hsp, <- !app_assoc. simpl. by destruct ws.
Qed.

(** The header of a parameter is named after it with every word between
    underscores capitalised and the underscores written as hyphens. *)
Theorem router_header_name name :
  name ≠ [] → make_route_param_header name = join "-" (capitalize <$> split_on "_" name).
Proof.
  intros Hne. unfold make_route_param_header. destruct name as [|c name]; [done|].
  cbn [param_header_from app].
  destruct (split_on_cons "_" name) as (w & ws & Hsp). rewrite (split_on_step _ c _ _ _ Hsp).
  destruct (Ascii.eqb c "_") eqn:Hc.
  - destruct (param_header_from_word name ["-"%char]) as [_ ->]; [done|]. by rewrite Hsp.
  - destruct (param_header_from_word name [to_upper c]) as [-> _]; [done|]. rewrite Hsp.
    by destruct ws.
Qed.

Lemma router_header_name_witness :
  make_route_param_header "item_id" = join "-" (capitalize <$> split_on "_" "item_id").
Proof. apply (router_header_name "item_id"). done. Defined.

(** ** Routing *)

(** The route covers the request, with these captures. *)
Definition covers (r : route_entry) (req : request) (caps : list captured_param) : Prop :=
  (method_pattern r = "*" ∨ method_pattern r = method req) ∧
  target_covered (target_kind r) (target_pattern r) (target req) caps.

(** The first route that covers the request, and its captures. *)
Inductive routed : list route_entry → request → option (route_entry * list captured_param) → Prop :=
  | routed_none req : routed [] req None
  | routed_here r routes req caps : covers r req caps → routed (r :: routes) req (Some (r, caps))
  | routed_later r routes req o :
      (∀ caps, ¬ covers r req caps) → routed routes req o → routed (r :: routes) req o.

(** The headers a [pass] route publishes. *)
Definition param_headers (caps : list captured_param) : list header_field := param_header <$> caps.

Definition reply_of (o : option (route_entry * list captured_param)) : result :=
  match o with
  | Some (r, caps) =>
      match route_response r with
      | Some resp => result_respond resp
      | None => Result mo_pass None (param_headers caps)
      end
  | None => result_pass
  end.

Lemma foldl_param_headers caps res :
  foldl (λ res cp, result_add_header res
    ("X-Garcon-Route-Param-" ++ make_route_param_header (param_name cp)) (param_value cp)) res caps
  = Result (next res) (response_value res) (result_headers res ++ param_headers caps).
Proof.
  revert res. induction caps as [|cp caps IH]; intros [n v hs]; simpl; [by rewrite app_nil_r|].
  rewrite IH. simpl. by rewrite <- app_assoc.
Qed.

Lemma router_routed_exists routes req : ∃ o, routed routes req o.
Proof.
  induction routes as [|r routes [o Ho]]; [eexists; constructor|].
  destruct (method_matches (method_pattern r) (method req)) eqn:Hm.
  - destruct (match_target_ret (target_kind r) (target_pattern r) (target req)) as ([caps|] & _ & H).
    + eexists. apply routed_here. split; [by apply method_matches_spec|exact H].
    + exists o. apply routed_later; [|done]. intros caps [_ Hc]. by apply (H caps).
  - exists o. apply routed_later; [|done]. intros caps [Hc _].
    apply method_matches_spec in Hc. unfold method_matches in Hm. congruence.
Qed.

Lemma router_handle_routed routes req o :
  Forall wf_route routes → routed routes req o → handle routes req = Ret (reply_of o).
Proof.
  intros HF Hr. revert HF. induction Hr as [req|r routes req caps [Hm Ht]|r routes req o Hc Hr IH];
    rewrite ?Forall_cons; intros HF; [done| |]; destruct HF as [Hwf HF]; cbn [handle];
    destruct (match_target_ret (target_kind r) (target_pattern r) (target req)) as (c & Heq & Hcov).
  - apply method_matches_spec in Hm. unfold method_matches. rewrite Hm, Heq. cbn [negb].
    rewrite bind_ret. destruct c as [caps'|]; [|by destruct (Hcov caps)].
    rewrite (target_covered_det _ _ _ _ _ Hcov Ht).
    destruct Hwf as (_ & _ & [[-> Hresp]|(-> & s & ct & b & _ & _ & _ & Hresp)]); simpl;
      rewrite Hresp; [|done]. by rewrite foldl_param_headers.
  - unfold method_matches. destruct (ConfigText.method_matches _ _) eqn:Hm; [|by apply IH].
    cbn [negb]. rewrite Heq, bind_ret. destruct c as [caps|]; [|by apply IH].
    destruct (Hc caps). split; [by apply method_matches_spec|done].
Qed.

Lemma router_abi_request routes req : handle routes (abi_request req) = handle routes req.
Proof.
  induction routes as [|r routes IH]; [done|]. cbn [handle]. rewrite IH.
  by cbn [abi_request method target].
Qed.

Lemma router_routed_elem routes req o r caps : routed routes req o → o = Some (r, caps) → r ∈ routes.
Proof.
  induction 1 as [|r' routes req caps' Hc|r' routes req o Hc Hr IH]; intros Heq; [done| |].
  - injection Heq as -> ->. left.
  - right. by apply IH.
Qed.

(** In the pipeline, a loaded router decides by the first route, in
    configuration order, that covers the request: a [respond] route answers with
    its response and the headers of the earlier modules; a [pass] route lets the
    later modules see the very same request, and its captures are appended, in
    order, to the headers pending for the response; without a route the request
    goes on as if the router were not there. *)
Theorem router_first_match {W} config_text routes before after req (w : W) hs w1 o :
  parse_routes config_text = Ret routes → passes before req w hs w1 → routed routes req o →
  ∃ m, router_module config_text = Ret m ∧
  pipeline_handle (before ++ loaded "router" m :: after) req w
  = match o with
    | Some (r, caps) =>
        match route_response r with
        | Some resp => (Ret (with_headers resp hs), w1)
        | None => handle_from after req (hs ++ param_headers caps) w1
        end
    | None => pipeline_handle (before ++ after) req w
    end.
Proof.
  intros Hparse Hp Ho. exists (λ req, lift (handle routes req)).
  split; [unfold router_module; by rewrite Hparse|].
  pose proof (rules_parse_wf config_text routes Hparse) as HF.
  pose proof (router_handle_routed routes req o HF Ho) as Hh.
  assert (Hm : module_handle (loaded "router" (λ req, lift (handle routes req))) req w1
    = (Ret (adapt (reply_of o)), w1)) by (rewrite loaded_handle, router_abi_request, Hh; done).
  unfold pipeline_handle. rewrite !(handle_from_passes _ _ _ _ _ _ _ Hp). cbn [handle_from].
  rewrite (prog_bind_ret _ _ _ _ _ Hm).
  destruct o as [[r caps]|]; [|simpl; by rewrite app_nil_r].
  assert (Hwf : wf_route r).
  { rewrite Forall_forall in HF. apply HF. apply (router_routed_elem _ _ _ _ _ Ho eq_refl). }
  cbn. destruct Hwf as (_ & _ & [[_ Hresp]|(_ & s & ct & b & Hs & _ & _ & Hresp)]);
    rewrite Hresp; cbn; [done|]. by rewrite normalize_reply.
Qed.

(** Routes in the style of [modules.d/04-router.conf]. *)
Definition sample_config : bytes :=
  "route=GET|/api/{version}/items/{item_id}|pass" ++ [newline] ++
  "route=GET|/hello|respond|200|text/plain|hi".
Definition sample_routes : list route_entry :=
  [ RouteEntry "GET" "/api/{version}/items/{item_id}" pk_exact mo_pass None;
    RouteEntry "GET" "/hello" pk_exact mo_respond (Some (route_reply 200 "text/plain" "hi")) ].
Definition sample_request : request := Request 1 1 "GET" "/api/v2/items/xyz-42?x=1" [].
Definition sample_captures : list captured_param :=
  [ CapturedParam "version" "v2"; CapturedParam "item_id" "xyz-42" ].

Lemma sample_routed :
  routed sample_routes sample_request (head sample_routes ≫= λ r, Some (r, sample_captures)).
Proof.
  apply routed_here. split; [by right|].
  destruct (match_target_ret pk_exact "/api/{version}/items/{item_id}" "/api/v2/items/xyz-42?x=1")
    as (r & Hr & H).
  vm_compute in Hr. injection Hr as <-. exact H.
Qed.

Lemma router_first_match_witness :
  ∃ m : cpp_module unit, router_module sample_config = Ret m ∧
  pipeline_handle ([] ++ loaded "router" m :: []) sample_request tt
  = (Ret (with_headers not_found_response
       [ HeaderField "X-Garcon-Route-Param-Version" "v2";
         HeaderField "X-Garcon-Route-Param-Item-Id" "xyz-42" ]), tt).
Proof.
  destruct (router_first_match sample_config sample_routes [] [] sample_request tt [] tt
    (head sample_routes ≫= λ r, Some (r, sample_captures))) as (m & Hm & Heq).
  - vm_compute. reflexivity.
  - constructor.
  - exact sample_routed.
  - exists m. split; [exact Hm|]. rewrite Heq. vm_compute. reflexivity.
Defined.
