(* ===== verification/FsPath.v ===== *)
(** * Paths and the file system

    The part of [std::filesystem] the server uses: POSIX paths as the strings
    they are, and the calls that ask the file system as the operations of a
    class, with the documented laws of canonical paths.  Other processes may
    change the files between two calls, so every call is a program over a
    world. *)

From S2P Require Import Prelude.
From S2P Require Import StringView.
From S2P Require Import ConfigText.

(** ** [std::filesystem::path] *)

Abbreviation path := bytes.

Definition slash : ascii := "/".
Definition is_slash (c : ascii) : bool := Ascii.eqb c "/".

(** [p.is_absolute()] *)
Definition path_is_absolute (p : path) : bool :=
  match p with
  | c :: _ => is_slash c
  | [] => false
  end.

(** [p.has_filename()] *)
Definition path_has_filename (p : path) : bool :=
  match last p with
  | Some c => negb (is_slash c)
  | None => false
  end.

(** [p /= q] *)
Definition path_append (p q : path) : path :=
  if path_is_absolute q then q
  else if path_has_filename p then p ++ slash :: q
  else p ++ q.

(** The elements of a relative path: an empty one stands for a final slash. *)
Definition names_of (s : bytes) : list bytes :=
  List.filter (λ n, negb (bytes_eqb n [])) (split_on "/" s)
  ++ match last s with
     | Some c => if is_slash c then [[]] else []
     | None => []
     end.

(** What an iterator goes through: the root directory, then the names. *)
Definition path_elements (p : path) : list bytes :=
  if path_is_absolute p then
    [slash] :: (let s := lstrip is_slash p in if bytes_eqb s [] then [] else names_of s)
  else names_of p.

(** [p.filename()] *)
Definition path_filename (p : path) : bytes := default [] (last (split_on "/" p)).

(** [p.extension()] *)
Definition path_extension (p : path) : outcome bytes :=
  let name := path_filename p in
  if bytes_eqb name "." || bytes_eqb name ".." then Ret [] else
  match rfind_char name "." with
  | None | Some O => Ret []
  | Some i => substr_from name i
  end.

(** [p.is_relative()] *)
Definition path_is_relative (p : path) : bool := negb (path_is_absolute p).

(** [p.parent_path()]: the path itself if it has nothing below the root, else
    the longest prefix with one element less. *)
Definition path_parent (p : path) : path :=
  if forallb is_slash p then p else
  let directory := take (length p - length (path_filename p)) p in
  if forallb is_slash directory then directory else rstrip is_slash directory.

(** ** Canonical paths *)

(** A directory entry other than [.] and [..]. *)
Definition valid_name (n : bytes) : Prop :=
  n ≠ [] ∧ (slash ∉ n) ∧ n ≠ "." ∧ n ≠ "..".

#[export] Instance valid_name_dec n : Decision (valid_name n).
Proof. unfold valid_name. apply _. Defined.

(** The absolute path with these names. *)
Definition path_of_names (names : list bytes) : path := slash :: join slash names.

Definition canonical_path (p : path) : Prop :=
  ∃ names, Forall valid_name names ∧ p = path_of_names names.

Lemma names_no_slash names : Forall valid_name names → Forall (λ n, slash ∉ n) names.
Proof. intros H. eapply Forall_impl; [exact H|]. by intros n (_ & ? & _). Qed.

Lemma filter_nonempty names :
  Forall (λ n, n ≠ []) names → List.filter (λ n, negb (bytes_eqb n [])) names = names.
Proof.
  induction 1 as [|n names Hn _ IH]; [done|]. simpl.
  apply bytes_eqb_nil in Hn. by rewrite Hn, IH.
Qed.

Lemma names_of_join names :
  names ≠ [] → Forall valid_name names → names_of (join slash names) = names.
Proof.
  intros Hne HF. pose proof (names_no_slash names HF) as Hs. unfold names_of.
  rewrite split_on_join by done. rewrite filter_nonempty.
  2: { eapply Forall_impl; [exact HF|]. by intros n (? & _). }
  destruct (last (join slash names)) as [c|] eqn:Hl; [|by rewrite app_nil_r].
  destruct (is_slash c) eqn:Hc; [exfalso|by rewrite app_nil_r].
  apply Ascii.eqb_eq in Hc as ->.
  assert (Hlast : ∃ f, f ∈ names ∧ last f = Some slash).
  { clear Hs. induction HF as [|n names Hn HF IH]; [done|].
    destruct names as [|m names]; [exists n; split; [left|exact Hl]|].
    rewrite join_cons in Hl by done. apply last_app_cases in Hl as [Hl|[Hl _]]; [|done].
    destruct (join slash (m :: names)) as [|y ys] eqn:Hj.
    - exfalso. inversion HF as [|? ? (Hm & _) _]; subst. by destruct m, names.
    - rewrite last_cons_cons in Hl. destruct IH as (f & ? & ?); [done|done|].
      exists f. split; [by right|done]. }
  destruct Hlast as (f & Hf & Hfl). rewrite Forall_forall in Hs. apply (Hs f Hf).
  by apply last_Some_elem_of.
Qed.

Lemma elements_of_names names :
  Forall valid_name names → path_elements (path_of_names names) = [slash] :: names.
Proof.
  intros HF. unfold path_elements, path_of_names. simpl.
  destruct names as [|n names]; [done|].
  assert (Hstrip : lstrip is_slash (join slash (n :: names)) = join slash (n :: names)).
  { apply lstrip_id. intros c Hc. inversion HF as [|? ? (Hne & Hs & _) _]; subst.
    destruct n as [|d n]; [done|]. assert (d = c) as -> by (destruct names; simpl in Hc; congruence).
    apply Ascii.eqb_neq. intros ->. apply Hs. left. }
  rewrite Hstrip.
  rewrite (proj2 (bytes_eqb_nil _)).
  2: { inversion HF as [|? ? (Hne & _) _]; subst. by destruct n, names. }
  by rewrite names_of_join.
Qed.

(** ** The calls *)

(** A call that takes a [std::error_code] gives [None] (or [false]) when it sets
    one; the others may throw. *)
Class FileSystem (W : Type) := {
  fs_absolute : path → prog W (option path);
  fs_weakly_canonical : path → prog W (option path);
  fs_canonical : path → prog W (option path);
  fs_is_directory : path → prog W bool;
  fs_directory_entry : path → prog W bool;
  fs_is_regular_file : path → prog W bool;
  fs_file_size : path → prog W N;
  fs_open : path → prog W bool;
  fs_read : path → nat → prog W bytes;
}.

(** A canonical path is absolute and has no [.], [..] or empty name; the weakly
    canonical path of something that exists is canonical. *)
Class FileSystemLaws (W : Type) `{!FileSystem W} : Prop := {
  canonical_is_canonical p w q w' :
    fs_canonical p w = (Ret (Some q), w') → canonical_path q;
  weakly_canonical_directory p w q w1 w2 :
    fs_weakly_canonical p w = (Ret (Some q), w1) → q ≠ [] →
    fs_is_directory q w1 = (Ret true, w2) → canonical_path q;
}.

(** ** A file system in memory *)

Module MapFs.
Inductive node := Directory | File (contents : bytes) | Link (target : list bytes).

Abbreviation t := (list (list bytes * node)).

Fixpoint lookup (fs : t) (names : list bytes) : option node :=
  match fs with
  | [] => None
  | (ns, n) :: fs => if decide (ns = names) then Some n else lookup fs names
  end.

(** The names of an absolute path, links followed at its end. *)
Definition resolve (fs : t) (p : path) : option (list bytes) :=
  let names := tail (path_elements p) in
  if decide (Forall valid_name names) then
    match lookup fs names with
    | Some (Link target) => if decide (Forall valid_name target) then Some target else None
    | Some _ => Some names
    | None => None
    end
  else None.

Definition node_at (fs : t) (p : path) : option node := resolve fs p ≫= lookup fs.

Definition canonical (p : path) : prog t (option path) :=
  λ fs, (Ret (path_of_names <$> resolve fs p), fs).

Definition file_at (fs : t) (p : path) : option bytes :=
  match node_at fs p with
  | Some (File s) => Some s
  | _ => None
  end.

Definition is_directory (fs : t) (p : path) : bool :=
  match node_at fs p with
  | Some Directory => true
  | _ => false
  end.

#[global] Instance api : FileSystem t := {|
  fs_absolute p fs := (Ret (Some p), fs);
  fs_weakly_canonical := canonical;
  fs_canonical := canonical;
  fs_is_directory p fs := (Ret (is_directory fs p), fs);
  fs_directory_entry p fs := (Ret (bool_decide (is_Some (resolve fs p))), fs);
  fs_is_regular_file p fs := (Ret (bool_decide (is_Some (file_at fs p))), fs);
  fs_file_size p fs := (Ret (N.of_nat (length (default [] (file_at fs p)))), fs);
  fs_open p fs := (Ret (bool_decide (is_Some (file_at fs p))), fs);
  fs_read p n fs := (Ret (take n (default [] (file_at fs p))), fs);
|}.
Lemma resolve_valid fs p names : resolve fs p = Some names → Forall valid_name names.
Proof.
  unfold resolve. case_decide as Hv; [|done].
  destruct (lookup fs _) as [[|c|target]|]; [| |case_decide as Ht|]; intros [= <-]; done.
Qed.

Lemma canonical_canonical p fs q fs' : canonical p fs = (Ret (Some q), fs') → canonical_path q.
Proof.
  unfold canonical. destruct (resolve fs p) as [names|] eqn:Hr; [|done]. intros [= <- _].
  exists names. split; [|done]. by apply (resolve_valid fs p).
Qed.

#[global] Instance laws : FileSystemLaws t.
Proof. split; [exact canonical_canonical|]. intros p w q w1 w2 H _ _. by apply canonical_canonical in H. Qed.
End MapFs.
