(* ===== verification/StaticFiles.v ===== *)
(** * Static files ([lib/static_files/static_files.cpp],
    [lib/static_files/static_files_module.cpp])

    Files of one directory are served for [GET] and [HEAD].  The target is mapped
    to a relative path by a loop over its segments; the path is made canonical by
    the file system and has to stay below the root. *)

From S2P Require Import Prelude.
From S2P Require Import StringView.
From S2P Require Import HttpHeader.
From S2P Require Import HttpRequest.
From S2P Require Import HttpResponse.
From S2P Require Import Pipeline.
From S2P Require Import ModuleAbi.
From S2P Require Import ConfigText.
From S2P Require Import FsPath.

(** [garcon::config::max_file_bytes] *)
Definition max_file_bytes : N := 8 * 1024 * 1024.

(** [std::numeric_limits<std::size_t>::max()] *)
Definition size_max : N := 2 ^ 64 - 1.

(** ** From targets to relative paths *)

(** The loop over the segments from [pos]. *)
Fixpoint map_segments (fuel : nat) (target : bytes) (pos : nat) (relative : path)
    (has_component : bool) : outcome (option path) :=
  match fuel with
  | O => Diverge
  | S fuel =>
      if pos <=? length target then
        let next_at := default (length target) (find_char target "/" pos) in
        segment ← substr target pos (next_at - pos);
        if negb (bytes_eqb segment []) then
          if bytes_eqb segment "." || bytes_eqb segment ".."
             || bool_decide (find_char segment nul 0 ≠ None)
          then Ret None
          else map_segments fuel target (next_at + 1) (path_append relative segment) true
        else map_segments fuel target (next_at + 1) relative has_component
      else Ret (if has_component then Some relative else None)
  end.

Definition map_to_relative_path (target : bytes) : outcome (option path) :=
  target ← match find_char target "?" 0 with
           | None => Ret target
           | Some q => substr target 0 q
           end;
  if bytes_eqb target [] then Ret None else
  c ← char_at target 0;
  if negb (Ascii.eqb c "/") then Ret None else
  let target := if bytes_eqb target "/" then "/index.html" : bytes else target in
  map_segments (S (length target)) target 1 [] false.

(** ** Files *)

(** The loop over the elements of both paths. *)
Fixpoint elements_within (root candidate : list bytes) : bool :=
  match root, candidate with
  | r :: root, c :: candidate =>
      if negb (bytes_eqb r c) then false else elements_within root candidate
  | [], _ => true
  | _ :: _, [] => false
  end.

Definition is_within_root (root candidate : path) : bool :=
  elements_within (path_elements root) (path_elements candidate).

Definition guess_content_type (p : path) : outcome bytes :=
  ext ← path_extension p;
  let has e := bytes_eqb ext e in
  Ret (
    if has ".html" || has ".htm" then "text/html; charset=utf-8" : bytes
    else if has ".css" then "text/css; charset=utf-8" : bytes
    else if has ".js" then "text/javascript; charset=utf-8" : bytes
    else if has ".txt" then "text/plain; charset=utf-8" : bytes
    else if has ".png" then "image/png" : bytes
    else if has ".jpg" || has ".jpeg" then "image/jpeg" : bytes
    else if has ".gif" then "image/gif" : bytes
    else if has ".svg" then "image/svg+xml" : bytes
    else "application/octet-stream").

Definition not_found : response := text 404 "Not Found" ("not found" ++ [newline]).
Definition too_large : response :=
  text 413 "Payload Too Large" ("file too large" ++ [newline]).
Definition method_not_allowed : response :=
  text 405 "Method Not Allowed" ("method not allowed" ++ [newline]).

(** ** The service *)

Section Files.
Context {W : Type} `{!FileSystem W}.

Definition read_file_bytes (p : path) (size : N) : prog W (option bytes) :=
  if (size_max <? size)%N then mret None else
  f ← fs_open p;
  if negb f then mret None else
  if (size =? 0)%N then mret (Some []) else
  data ← fs_read p (N.to_nat size);
  if negb (length data =? N.to_nat size) then mret None else mret (Some data).

(** An empty path stands for an error. *)
Definition canonicalize_path (p : path) : prog W path :=
  absolute ← fs_absolute p;
  match absolute with
  | None => mret []
  | Some absolute =>
      canonical ← fs_weakly_canonical absolute;
      mret (default [] canonical)
  end.

Definition resolve_under_root (root relative : path) : prog W (option path) :=
  if bytes_eqb root [] then mret None else
  resolved ← fs_canonical (path_append root relative);
  match resolved with
  | None => mret None
  | Some resolved =>
      if negb (is_within_root root resolved) then mret None else mret (Some resolved)
  end.

(** [serve_file] from the resolved path on. *)
Definition serve_resolved (resolved : path) (include_body : bool) : prog W response :=
  entry ← fs_directory_entry resolved;
  regular ← (if negb entry then mret false else fs_is_regular_file resolved);
  if negb regular then mret not_found else
  file_size ← fs_file_size resolved;
  if (max_file_bytes <? file_size)%N then mret too_large else
  content_type ← lift (guess_content_type resolved);
  let resp := Response 200 "OK" content_type [] [] (Some (Z.of_N file_size)) in
  if include_body then
    content ← read_file_bytes resolved file_size;
    match content with
    | None => mret not_found
    | Some content =>
        mret (Response 200 "OK" content_type [] content (Some (Z.of_N file_size)))
    end
  else mret resp.

Definition serve_file (root : path) (target : bytes) (include_body : bool) : prog W response :=
  relative ← lift (map_to_relative_path target);
  match relative with
  | None => mret not_found
  | Some relative =>
      resolved ← resolve_under_root root relative;
      match resolved with
      | None => mret not_found
      | Some resolved => serve_resolved resolved include_body
      end
  end.

(** [static_files::static_files] *)
Definition static_files (root : path) : prog W path :=
  canonical_root ← canonicalize_path root;
  ok ← (if bytes_eqb canonical_root [] then mret false else fs_is_directory canonical_root);
  if negb ok then
    lift (Throw (invalid_argument
      ("static_files: invalid or non-existent root directory: " ++ root)))
  else mret canonical_root.

(** [static_files::handle] *)
Definition handle (root : path) (req : request) : prog W response :=
  let is_get := bytes_eqb (method req) "GET" in
  let is_head := bytes_eqb (method req) "HEAD" in
  if negb is_get && negb is_head then mret method_not_allowed
  else serve_file root (target req) is_get.

(** [garcon::module::host_context] *)
Record host_context := HostContext { default_document_root : bytes; config_directory : bytes }.

(** [key_value_config::resolve_path] *)
Definition resolve_path (config_text key : bytes) (host : host_context) (fallback : path)
    : outcome path :=
  value ← key_value_get config_text key;
  match value with
  | None | Some [] => Ret fallback
  | Some p =>
      if path_is_absolute p then Ret p
      else if negb (bytes_eqb (config_directory host) [])
      then Ret (path_append (config_directory host) p)
      else Ret p
  end.

Definition static_files_module (host : host_context) (config_text : bytes)
    : prog W (cpp_module W) :=
  root ← lift (resolve_path config_text "root" host
    (if bytes_eqb (default_document_root host) [] then "www" : bytes
     else default_document_root host));
  files ← static_files root;
  mret (http_terminal_handle (handle files)).
End Files.

(** ** Which targets name a file *)

Definition safe_name (n : bytes) : Prop := valid_name n ∧ (nul ∉ n).

#[export] Instance safe_name_dec n : Decision (safe_name n).
Proof. unfold safe_name. apply _. Defined.

(** The names between the slashes. *)
Definition segments (s : bytes) : list bytes :=
  List.filter (λ n, negb (bytes_eqb n [])) (split_on "/" s).

(** The path of the target is absolute, has a name, and none of its names leads
    out of the directory; the root stands for its index. *)
Definition mapped (target : bytes) (relative : path) : Prop :=
  ∃ (path s : bytes), path_of target path ∧
    (if decide (path = [slash]) then s = "index.html" else path = slash :: s) ∧
    segments s ≠ [] ∧ Forall safe_name (segments s) ∧ relative = join slash (segments s).

(** The loop as a function of the pieces. *)
Fixpoint map_pieces (pieces : list bytes) (relative : path) (has_component : bool) : option path :=
  match pieces with
  | [] => if has_component then Some relative else None
  | p :: pieces =>
      if decide (p = []) then map_pieces pieces relative has_component
      else if decide (safe_name p) then map_pieces pieces (path_append relative p) true
      else None
  end.

Lemma segment_rejected p :
  p ≠ [] → (slash ∉ p) →
  bytes_eqb p "." || bytes_eqb p ".." || bool_decide (find_char p nul 0 ≠ None)
  = bool_decide (¬ safe_name p).
Proof.
  intros Hne Hs. unfold bytes_eqb, find_char. rewrite find_drop, drop_0 by lia.
  assert (Hn : (Nat.add 0 <$> search [nul] p ≠ None) ↔ nul ∈ p).
  { pose proof (search_char_None nul p) as H. destruct (search [nul] p); simpl.
    - split; [intros _|done]. destruct (decide (nul ∈ p)) as [|Hn]; [done|by apply H in Hn].
    - split; [done|]. intros Hin. by apply H in Hin. }
  rewrite (bool_decide_ext _ _ Hn). unfold safe_name, valid_name.
  repeat case_bool_decide; cbn; try done; exfalso; tauto.
Qed.

Lemma map_segments_ret fuel target pos relative has :
  length target + 1 < fuel + pos → pos ≤ length target →
  map_segments fuel target pos relative has
  = Ret (map_pieces (split_on "/" (drop pos target)) relative has).
Proof.
  revert pos relative has. induction fuel as [|fuel IH]; intros pos relative has Hf Hp; [lia|].
  cbn [map_segments]. rewrite (proj2 (Nat.leb_le pos (length target))) by done.
  change (find_char target "/" pos) with (find target ["/"%char] pos). rewrite find_drop by done.
  assert (Hstep : ∀ next_at p ps,
    next_at ≤ length target → take (next_at - pos) (drop pos target) = p → (slash ∉ p) →
    split_on "/" (drop pos target) = p :: ps →
    (∀ r h, map_segments fuel target (next_at + 1) r h = Ret (map_pieces ps r h)) →
    (segment ← substr target pos (next_at - pos);
     if negb (bytes_eqb segment []) then
       if bytes_eqb segment "." || bytes_eqb segment ".."
          || bool_decide (find_char segment nul 0 ≠ None)
       then Ret None
       else map_segments fuel target (next_at + 1) (path_append relative segment) true
     else map_segments fuel target (next_at + 1) relative has)
    = Ret (map_pieces (split_on "/" (drop pos target)) relative has)).
  { intros next_at p ps Hn Hpiece Hs -> Hrest. rewrite substr_ret, bind_ret by done.
    rewrite Hpiece. cbn [map_pieces]. destruct (decide (p = [])) as [->|Hne].
    - cbn. apply Hrest.
    - rewrite (proj2 (bytes_eqb_nil p)) by done. cbn [negb]. rewrite segment_rejected by done.
      destruct (decide (safe_name p)).
      + rewrite bool_decide_eq_false_2 by tauto. apply Hrest.
      + by rewrite bool_decide_eq_true_2 by done. }
  destruct (search ["/"%char] (drop pos target)) as [i|] eqn:Hi; cbn [fmap option_fmap option_map default].
  - pose proof (search_length _ _ _ Hi) as Hl. rewrite length_drop in Hl. simpl in Hl.
    apply search_char_Some in Hi as [Hnot Hsplit].
    eapply (Hstep (pos + i)); [lia|done| | |].
    + by replace (pos + i - pos) with i by lia.
    + replace (pos + i - pos) with i by lia. rewrite Hsplit at 1.
      rewrite split_on_app by done. rewrite drop_drop.
      by replace (pos + S i) with (pos + i + 1) by lia.
    + intros r h. apply IH; lia.
  - apply search_char_None in Hi.
    eapply (Hstep (length target)); [lia|done| | |].
    + rewrite take_ge by (rewrite length_drop; lia). done.
    + rewrite take_ge by (rewrite length_drop; lia). by apply split_on_none.
    + intros r h. destruct fuel as [|fuel']; [lia|]. cbn [map_segments].
      by rewrite (proj2 (Nat.leb_gt _ _)) by lia.
Qed.

(** *** The path that is built *)

Lemma join_snoc d ps q : ps ≠ [] → join d (ps ++ [q]) = join d ps ++ d :: q.
Proof.
  induction ps as [|p ps IH]; intros Hne; [done|]. destruct ps as [|r ps]; [done|].
  cbn [app]. rewrite join_cons by done. change (r :: ps ++ [q]) with ((r :: ps) ++ [q]).
  rewrite IH by done. rewrite (join_cons d p (r :: ps)) by done. by rewrite <- app_assoc.
Qed.

Lemma path_append_names names n :
  Forall valid_name names → valid_name n →
  path_append (join slash names) n = join slash (names ++ [n]).
Proof.
  intros HF (Hne & Hs & _). unfold path_append.
  assert (Habs : path_is_absolute n = false).
  { destruct n as [|c n]; [done|]. apply Ascii.eqb_neq. intros ->. apply Hs. left. }
  rewrite Habs. destruct (decide (names = [])) as [->|Hnames]; [done|].
  rewrite join_snoc by done. pose proof (names_of_join names Hnames HF) as Hof.
  unfold path_has_filename. unfold names_of in Hof.
  pose proof (names_no_slash names HF) as Hns.
  rewrite split_on_join, filter_nonempty in Hof; [|
    eapply Forall_impl; [exact HF|]; by intros m (? & _)|done|done].
  destruct (last (join slash names)) as [c|] eqn:Hl.
  - destruct (is_slash c); [exfalso|done].
    apply (f_equal length) in Hof. rewrite length_app in Hof. simpl in Hof. lia.
  - apply last_None in Hl. exfalso. destruct names as [|m names]; [done|].
    inversion HF as [|? ? (Hm & _) _]; subst. by destruct m, names.
Qed.

Lemma map_pieces_names pieces names :
  Forall safe_name names →
  map_pieces pieces (join slash names) (bool_decide (names ≠ []))
  = let all := names ++ List.filter (λ n, negb (bytes_eqb n [])) pieces in
    if decide (all ≠ [] ∧ Forall safe_name all) then Some (join slash all) else None.
Proof.
  revert names. induction pieces as [|p pieces IH]; intros names HF; cbn [map_pieces List.filter].
  - rewrite app_nil_r. cbn zeta. case_bool_decide; case_decide; tauto.
  - destruct (decide (p = [])) as [->|Hne]; [by apply IH|].
    rewrite (proj2 (bytes_eqb_nil p)) by done. cbn [negb].
    destruct (decide (safe_name p)) as [Hp|Hp].
    + rewrite path_append_names; [|by eapply Forall_impl; [exact HF|]; intros m [? _]|apply Hp].
      assert (HF' : Forall safe_name (names ++ [p])) by (apply Forall_app; split; [exact HF|constructor; [exact Hp|constructor]]).
      specialize (IH (names ++ [p]) HF'). rewrite bool_decide_eq_true_2 in IH by by destruct names.
      rewrite IH, <- app_assoc. done.
    + cbn zeta. rewrite decide_False; [done|]. intros [_ H].
      apply Forall_app in H as [_ H]. by inversion H.
Qed.

Lemma map_to_relative_path_ret target :
  ∃ r, map_to_relative_path target = Ret r ∧
    match r with
    | Some relative => mapped target relative
    | None => ∀ relative, ¬ mapped target relative
    end.
Proof.
  unfold map_to_relative_path. destruct (cut_query_ret target) as (path & -> & Hpath).
  rewrite bind_ret.
  assert (Hunique : ∀ relative, mapped target relative → ∃ s : bytes,
    (if decide (path = [slash]) then s = "index.html" else path = slash :: s) ∧
    segments s ≠ [] ∧ Forall safe_name (segments s) ∧ relative = join slash (segments s)).
  { intros relative (path' & s & Hp & H). rewrite (path_of_unique _ _ _ Hp Hpath) in H. by exists s. }
  destruct path as [|c s].
  { exists None. split; [done|]. intros relative (s & H & _)%Hunique. by case_decide. }
  change (bytes_eqb (c :: s) []) with false. rewrite (char_at_ret (c :: s) 0 c), bind_ret by done.
  destruct (Ascii.eqb_spec c "/") as [->|Hc]; cycle 1.
  { exists None. split; [done|]. intros relative (s' & H & _)%Hunique.
    case_decide; simplify_eq. }
  cbn [negb].
  assert (Hs : ∃ s' : bytes, (if decide (slash :: s = [slash]) then s' = "index.html" else slash :: s = slash :: s')
    ∧ (if bytes_eqb (slash :: s) "/" then "/index.html" : bytes else slash :: s) = slash :: s').
  { unfold bytes_eqb. destruct (decide (slash :: s = [slash])) as [->|Hne].
    - by exists ("index.html" : bytes).
    - exists s. rewrite bool_decide_eq_false_2 by done. done. }
  destruct Hs as (s' & Hcase & Heq). unfold slash in Heq at 1 2 3. rewrite Heq.
  rewrite map_segments_ret by (simpl; lia).
  match goal with |- context [drop 1 ?x] => change (drop 1 x) with s' end.
  eexists. split; [done|]. pose proof (map_pieces_names (split_on "/" s') [] ltac:(constructor)) as Hm.
  cbn in Hm. rewrite Hm. fold (segments s').
  destruct (decide (segments s' ≠ [] ∧ Forall safe_name (segments s'))) as [Hd|Hd].
  - exists (slash :: s), s'. split; [exact Hpath|]. split; [exact Hcase|]. by destruct Hd.
  - intros relative (s2 & Hcase2 & Hne & HF & _)%Hunique. apply Hd.
    assert (s2 = s') as -> by (unfold slash in *; repeat case_decide; congruence). done.
Qed.

(** The mapping of a target always answers, and gives a relative path
    exactly for the targets whose path, without the query, is absolute and has a
    name, and none of whose names is a dot, two dots or holds a null byte; the
    path is the names joined by single slashes, and [/] stands for
    [/index.html]. *)
Theorem static_mapping target relative :
  returns (map_to_relative_path target) ∧
  (map_to_relative_path target = Ret (Some relative) ↔ mapped target relative).
Proof.
  destruct (map_to_relative_path_ret target) as (r & -> & Hr). split; [apply returns_ret|].
  destruct r as [relative'|]; split.
  - by intros [= <-].
  - intros (path & s & Hp & Hs & _ & _ & ->).
    destruct Hr as (path' & s' & Hp' & Hs' & _ & _ & ->).
    rewrite (path_of_unique _ _ _ Hp' Hp) in Hs'.
    assert (s' = s) as -> by (repeat case_decide; congruence). done.
  - done.
  - intros H. by destruct (Hr relative).
Qed.

(** ** What is served *)

Lemma elements_within_spec root candidate :
  elements_within root candidate = true ↔ root `prefix_of` candidate.
Proof.
  revert candidate. induction root as [|r root IH]; intros candidate; simpl.
  { split; [intros _; apply prefix_nil|done]. }
  destruct candidate as [|c candidate]; [split; [done|by intros []%prefix_nil_not]|].
  unfold bytes_eqb. case_bool_decide as Hrc; simpl.
  - subst. rewrite IH. split; [by apply prefix_cons|by apply prefix_cons_inv_2].
  - split; [done|]. intros ?%prefix_cons_inv_1. done.
Qed.

(** Below a canonical root are the paths that continue its names: a sibling
    whose name starts with the name of the root is not. *)
Lemma within_canonical root candidate :
  canonical_path root → canonical_path candidate → is_within_root root candidate = true →
  ∃ names below, Forall valid_name (names ++ below) ∧ root = path_of_names names ∧
    candidate = path_of_names (names ++ below).
Proof.
  intros (rn & Hr & ->) (cn & Hc & ->). unfold is_within_root.
  rewrite !elements_of_names by done. rewrite elements_within_spec.
  intros [below ->]%prefix_cons_inv_2. by exists rn, below.
Qed.

(** The parts of a target's answer from a file. *)
Definition file_response (content_type content : bytes) (size : N) : response :=
  Response 200 "OK" content_type [] content (Some (Z.of_N size)).

Section Served.
Context {W : Type} `{!FileSystem W}.

Lemma read_file_bytes_inv p size (w : W) content w' :
  read_file_bytes p size w = (Ret (Some content), w') →
  length content = N.to_nat size ∧
  ∃ w1, fs_open p w = (Ret true, w1) ∧
    if (size =? 0)%N then w' = w1 else fs_read p (N.to_nat size) w1 = (Ret content, w').
Proof.
  unfold read_file_bytes. destruct (size_max <? size)%N; [done|].
  intros (f & w1 & Hopen & H)%prog_bind_inv. destruct f; [|done]. cbn [negb] in H.
  destruct (N.eqb_spec size 0) as [->|Hne]; [injection H as <- <-; by eauto|].
  apply prog_bind_inv in H as (data & w2 & Hread & H).
  destruct (Nat.eqb_spec (length data) (N.to_nat size)) as [Hl|Hl]; [|done].
  injection H as <- <-. eauto.
Qed.

(** A resolved path is served when it is a regular file that is small enough. *)
Lemma serve_resolved_inv resolved include_body (w : W) resp w' :
  serve_resolved resolved include_body w = (Ret resp, w') →
  resp = not_found ∨ resp = too_large ∨
  ∃ w1 w2 w3 size content_type content,
    fs_directory_entry resolved w = (Ret true, w1) ∧
    fs_is_regular_file resolved w1 = (Ret true, w2) ∧
    fs_file_size resolved w2 = (Ret size, w3) ∧ (size ≤ max_file_bytes)%N ∧
    guess_content_type resolved = Ret content_type ∧
    resp = file_response content_type content size ∧
    if include_body then read_file_bytes resolved size w3 = (Ret (Some content), w')
    else content = [] ∧ w' = w3.
Proof.
  unfold serve_resolved. intros (entry & w1 & Hentry & H)%prog_bind_inv.
  apply prog_bind_inv in H as (regular & w2 & Hreg & H).
  destruct regular; [|injection H as <- _; by left]. cbn [negb] in H.
  destruct entry; [|done]. cbn [negb] in Hreg.
  apply prog_bind_inv in H as (size & w3 & Hsize & H).
  destruct (N.ltb_spec max_file_bytes size) as [Hlt|Hle]; [injection H as <- _; by right; left|].
  apply prog_bind_inv in H as (content_type & w4 & Hct & H). unfold lift in Hct.
  injection Hct as Hct <-. destruct include_body.
  - apply prog_bind_inv in H as ([content|] & w5 & Hread & H); injection H as <- <-; [|by left].
    right; right. by exists w1, w2, w3, size, content_type, content.
  - injection H as <- <-. right; right. by exists w1, w2, w3, size, content_type, [].
Qed.

Lemma serve_resolved_200 resolved include_body (w : W) resp w' :
  serve_resolved resolved include_body w = (Ret resp, w') → status resp = 200%Z →
  ∃ w1 w2 w3 size content_type content,
    fs_directory_entry resolved w = (Ret true, w1) ∧
    fs_is_regular_file resolved w1 = (Ret true, w2) ∧
    fs_file_size resolved w2 = (Ret size, w3) ∧ (size ≤ max_file_bytes)%N ∧
    guess_content_type resolved = Ret content_type ∧
    resp = file_response content_type content size ∧
    if include_body then read_file_bytes resolved size w3 = (Ret (Some content), w')
    else content = [] ∧ w' = w3.
Proof. by intros [->|[->|H]]%serve_resolved_inv. Qed.

Lemma serve_file_inv root target include_body (w : W) resp w' :
  serve_file root target include_body w = (Ret resp, w') →
  resp = not_found ∨
  ∃ relative resolved w1, mapped target relative ∧
    fs_canonical (path_append root relative) w = (Ret (Some resolved), w1) ∧
    is_within_root root resolved = true ∧
    serve_resolved resolved include_body w1 = (Ret resp, w').
Proof.
  unfold serve_file, resolve_under_root.
  destruct (map_to_relative_path_ret target) as (r & -> & Hr).
  intros (r' & w0 & [= <- <-] & H)%prog_bind_inv.
  destruct r as [relative|]; [|injection H as <- _; by left].
  apply prog_bind_inv in H as (res & w1 & Hres & H).
  destruct res as [resolved|]; [right|injection H as <- _; by left].
  destruct (bytes_eqb root []); [done|].
  apply prog_bind_inv in Hres as ([q|] & w2 & Hq & Hres); [|done].
  destruct (is_within_root root q) eqn:Hin; [|done]. injection Hres as -> ->. 
  by exists relative, resolved, w1.
Qed.

Lemma handle_inv root req (w : W) resp w' :
  handle root req w = (Ret resp, w') →
  (resp = method_not_allowed ∧ method req ≠ "GET" ∧ method req ≠ "HEAD") ∨
  ((method req = "GET" ∨ method req = "HEAD") ∧
   serve_file root (target req) (bytes_eqb (method req) "GET") w = (Ret resp, w')).
Proof.
  unfold handle, bytes_eqb.
  destruct (decide (method req = "GET")) as [Hg|Hg]; [|destruct (decide (method req = "HEAD")) as [Hh|Hh]].
  - rewrite (bool_decide_eq_true_2 _ Hg). intros H. right. split; [by left|exact H].
  - rewrite (bool_decide_eq_false_2 _ Hg), (bool_decide_eq_true_2 _ Hh). intros H. right.
    split; [by right|exact H].
  - rewrite (bool_decide_eq_false_2 _ Hg), (bool_decide_eq_false_2 _ Hh).
    intros [= <- _]. by left.
Qed.

Lemma static_files_canonical `{!FileSystemLaws W} root (w : W) files_root w' :
  static_files root w = (Ret files_root, w') → canonical_path files_root.
Proof.
  unfold static_files, canonicalize_path.
  intros (canonical_root & w1 & Hroot & H)%prog_bind_inv.
  apply prog_bind_inv in H as (ok & w2 & Hok & H). destruct ok; [|done]. injection H as -> _.
  destruct (bytes_eqb files_root []) eqn:He; [done|]. apply bytes_eqb_nil in He.
  apply prog_bind_inv in Hroot as ([absolute|] & w3 & _ & Hroot); [|by injection Hroot as <-].
  apply prog_bind_inv in Hroot as (canonical & w4 & Hw & Hroot). injection Hroot as <- <-.
  destruct canonical as [q|]; [|done]. by apply (weakly_canonical_directory absolute w3 q w4 w2).
Qed.

(** C12: what the service gives out lies below its root, and is the file.  When a
    service that was set up answers 200, the target maps to a relative path; the file
    system's canonical form of that path below the root continues the names of the
    root, and is a regular file of at most 8 MiB.  The length that is announced is
    the size that the file system gives for this file; a [GET] answer holds exactly
    the bytes read from it, as many as its size, and a [HEAD] answer holds none.
    Each call starts in the state of the system that the one before left, and
    nothing else is asked of it. *)
Theorem static_containment `{!FileSystemLaws W} root (w0 : W) files_root w1 req w resp w' :
  static_files root w0 = (Ret files_root, w1) →
  handle files_root req w = (Ret resp, w') → status resp = 200%Z →
  ∃ relative names below size w2 w3 w4 w5,
    mapped (target req) relative ∧ Forall valid_name (names ++ below) ∧
    files_root = path_of_names names ∧
    fs_canonical (path_append files_root relative) w
      = (Ret (Some (path_of_names (names ++ below))), w2) ∧
    fs_directory_entry (path_of_names (names ++ below)) w2 = (Ret true, w3) ∧
    fs_is_regular_file (path_of_names (names ++ below)) w3 = (Ret true, w4) ∧
    fs_file_size (path_of_names (names ++ below)) w4 = (Ret size, w5) ∧
    (size ≤ max_file_bytes)%N ∧ content_length resp = Some (Z.of_N size) ∧
    guess_content_type (path_of_names (names ++ below)) = Ret (content_type resp) ∧
    (method req = "GET" → length (body resp) = N.to_nat size ∧
      ∃ w6, fs_open (path_of_names (names ++ below)) w5 = (Ret true, w6) ∧
        if (size =? 0)%N then w' = w6
        else fs_read (path_of_names (names ++ below)) (N.to_nat size) w6 = (Ret (body resp), w')) ∧
    (method req = "HEAD" → body resp = [] ∧ w' = w5).
Proof.
  intros Hroot%static_files_canonical H Hok.
  apply handle_inv in H as [(-> & _)|[Hm H]]; [done|].
  apply serve_file_inv in H as [->|(relative & resolved & w2 & Hmap & Hcan & Hin & H)]; [done|].
  apply serve_resolved_200 in H
    as (w3 & w4 & w5 & size & ct & content & Hent & Hreg & Hsize & Hmax & Hct & -> & Hbody); [|done].
  destruct (within_canonical files_root resolved Hroot) as (names & below & HF & -> & ->);
    [by apply (canonical_is_canonical _ _ _ _ Hcan)|done|].
  exists relative, names, below, size, w2, w3, w4, w5. cbn [file_response content_length content_type body].
  do 10 (split; [done|]).
  split; intros Hmeth; rewrite Hmeth in Hbody; [by apply read_file_bytes_inv in Hbody|by destruct Hbody].
Qed.

(** A [HEAD] request gets the answer of the [GET] request without its body:
    the same status, type and length, and the length is that of the body. *)
Theorem static_head_get root req (w : W) resp w' :
  method req = "GET" → handle root req w = (Ret resp, w') → status resp = 200%Z →
  content_length resp = Some (Z.of_nat (length (body resp))) ∧
  ∃ w'', handle root (Request (version_major req) (version_minor req) "HEAD" (target req)
                        (request_headers req)) w
         = (Ret (Response (status resp) (reason resp) (content_type resp)
                   (response_headers resp) [] (content_length resp)), w'').
Proof.
  intros Hm H Hok. apply handle_inv in H as [(-> & _)|[_ H]]; [done|]. rewrite Hm in H.
  change (bytes_eqb _ _) with true in H.
  change (handle root _) with (serve_file root (target req) false). revert H. unfold serve_file.
  intros (relative & w1 & Hrel & H)%prog_bind_inv. rewrite (prog_bind_ret _ _ _ _ _ Hrel).
  destruct relative as [relative|]; [|by injection H as <- _].
  apply prog_bind_inv in H as (resolved & w2 & Hres & H). rewrite (prog_bind_ret _ _ _ _ _ Hres).
  destruct resolved as [resolved|]; [|by injection H as <- _].
  revert H. unfold serve_resolved. intros (entry & w3 & He & H)%prog_bind_inv.
  rewrite (prog_bind_ret _ _ _ _ _ He).
  apply prog_bind_inv in H as (regular & w4 & Hreg & H). rewrite (prog_bind_ret _ _ _ _ _ Hreg).
  destruct regular; [|by injection H as <- _]. cbn [negb] in *.
  apply prog_bind_inv in H as (size & w5 & Hs & H). rewrite (prog_bind_ret _ _ _ _ _ Hs).
  destruct (max_file_bytes <? size)%N; [by injection H as <- _|].
  apply prog_bind_inv in H as (ct & w6 & Hct & H). rewrite (prog_bind_ret _ _ _ _ _ Hct).
  apply prog_bind_inv in H as ([content|] & w7 & Hread & H); injection H as <- _; [|done].
  apply read_file_bytes_inv in Hread as [Hl _]. cbn. split; [|by eexists].
  rewrite Hl. f_equal. lia.
Qed.

(** A method other than [GET] and [HEAD] is answered with 405, and a target
    that names no file with 404, before the file system is asked anything; every
    answer is a file or one of the three fixed refusals. *)
Theorem static_refusals root req (w : W) :
  (method req ≠ "GET" → method req ≠ "HEAD" → handle root req w = (Ret method_not_allowed, w)) ∧
  (method req = "GET" ∨ method req = "HEAD" → (∀ relative, ¬ mapped (target req) relative) →
   handle root req w = (Ret not_found, w)) ∧
  (∀ resp w', handle root req w = (Ret resp, w') →
   resp ∈ [method_not_allowed; not_found; too_large] ∨
   ∃ content_type content size, resp = file_response content_type content size).
Proof.
  split; [|split].
  - intros Hg Hh. unfold handle, bytes_eqb. by rewrite !bool_decide_eq_false_2.
  - intros Hm Hun. unfold handle.
    assert (Hb : negb (bytes_eqb (method req) "GET") && negb (bytes_eqb (method req) "HEAD") = false)
      by (destruct Hm as [-> | ->]; done).
    rewrite Hb. unfold serve_file.
    destruct (map_to_relative_path_ret (target req)) as ([relative|] & -> & Hr); [|done].
    by destruct (Hun relative).
  - intros resp w' H. apply handle_inv in H as [(-> & _)|[_ H]]; [left; left|].
    apply serve_file_inv in H as [->|(relative & resolved & w2 & _ & _ & _ & H)]; [left; right; left|].
    apply serve_resolved_inv in H
      as [->|[->|(? & ? & ? & size & ct & content & _ & _ & _ & _ & _ & -> & _)]];
      [left; right; left|left; right; right; left|right; by exists ct, content, size].
Qed.
End Served.

(** *** A site *)

(** A document root with a page, and a link that leads out of it. *)
Definition site : MapFs.t :=
  let name (s : string) : bytes := s in
  [ ([name "srv"; name "www"], MapFs.Directory);
    ([name "srv"; name "www"; name "index.html"], MapFs.File "<p>hi</p>");
    ([name "srv"; name "www"; name "leak"], MapFs.Link [name "etc"; name "passwd"]);
    ([name "etc"; name "passwd"], MapFs.File "root") ].

Definition get_request (t : bytes) : request := Request 1 1 "GET" t [].
Definition index_response : response := file_response "text/html; charset=utf-8" "<p>hi</p>" 9.

Example site_leak : handle "/srv/www" (get_request "/leak") site = (Ret not_found, site).
Proof. vm_compute. reflexivity. Qed.

Lemma static_containment_witness :
  ∃ relative names below size w2 w3,
    mapped "/?v=1" relative ∧ Forall valid_name (names ++ below) ∧
    ("/srv/www" : bytes) = path_of_names names ∧
    fs_file_size (path_of_names (names ++ below)) w2 = (Ret size, w3) ∧
    content_length index_response = Some (Z.of_N size) ∧
    length (body index_response) = N.to_nat size.
Proof.
  destruct (static_containment "/srv/www" site "/srv/www" site (get_request "/?v=1") site
    index_response site) as (relative & names & below & size & w2 & w3 & w4 & w5 & Hm & HF & Hr & _ & _
      & _ & Hs & _ & Hl & _ & Hget & _).
  - vm_compute. reflexivity.
  - vm_compute. reflexivity.
  - reflexivity.
  - exists relative, names, below, size, w4, w5. repeat split; try done. by apply Hget.
Defined.

Lemma static_head_get_witness :
  content_length index_response = Some (Z.of_nat (length (body index_response))) ∧
  ∃ w'', handle "/srv/www" (Request 1 1 "HEAD" "/index.html" []) site
         = (Ret (file_response "text/html; charset=utf-8" [] 9), w'').
Proof.
  apply (static_head_get "/srv/www" (get_request "/index.html") site index_response site).
  - reflexivity.
  - vm_compute. reflexivity.
  - reflexivity.
Defined.

Lemma static_refusals_witness :
  handle "/srv/www" (Request 1 1 "POST" "/" []) site = (Ret method_not_allowed, site) ∧
  handle "/srv/www" (get_request "/../etc/passwd") site = (Ret not_found, site).
Proof.
  split.
  - apply (static_refusals "/srv/www" (Request 1 1 "POST" "/" []) site); done.
  - apply (static_refusals "/srv/www" (get_request "/../etc/passwd") site); [by left|].
    destruct (map_to_relative_path_ret "/../etc/passwd") as (r & Hr & H).
    vm_compute in Hr. injection Hr as <-. exact H.
Defined.
