(* ===== verification/Double.v ===== *)
(** * Double-precision arithmetic

    The IEEE 754 binary64 operations the rate limiter uses, as the executable
    [SpecFloat] functions of the Standard Library at the parameters of a
    [double], and what their proofs need: the operations on nonnegative numbers
    round to a neighbour, so a bound that is itself a [double] and holds of the
    exact result holds of the computed one. *)

From Stdlib Require Import SpecFloat.
From S2P Require Import Prelude.
From S2P Require Import StringView.

#[local] Open Scope Z_scope.

(** ** The type and its operations *)

Abbreviation double := spec_float.

Definition dprec : Z := 53.
Definition demax : Z := 1024.

Definition dadd (x y : double) : double := SFadd dprec demax x y.
Definition dsub (x y : double) : double := SFsub dprec demax x y.
Definition dmul (x y : double) : double := SFmul dprec demax x y.
Definition ddiv (x y : double) : double := SFdiv dprec demax x y.
Definition dltb (x y : double) : bool := SFltb x y.
Definition dleb (x y : double) : bool := SFleb x y.

(** [static_cast<double>(n)] *)
Definition double_of_int (n : Z) : double := binary_normalize dprec demax n 0 false.

(** [std::min(x, y)] *)
Definition dmin (x y : double) : double := if dltb y x then y else x.

(** [static_cast<int>(x)]: undefined when the truncated value does not fit. *)
Definition int_of_double (x : double) : outcome Z :=
  match x with
  | S754_zero _ => Ret 0
  | S754_finite s m e =>
      let q := if 0 <=? e then Zpos m * 2 ^ e else Zpos m / 2 ^ (- e) in
      let v := if s then - q else q in
      if (- int_max - 1 <=? v) && (v <=? int_max) then Ret v else Undef
  | _ => Undef
  end.

(** ** Nonnegative doubles and their values

    The value is counted in units of the smallest positive double, [2 ^ -1074];
    the value of infinity is the first power of two that overflows. *)

Definition demin : Z := -1074.

Inductive nonneg : double → Prop :=
  | nonneg_zero s : nonneg (S754_zero s)
  | nonneg_infinity : nonneg (S754_infinity false)
  | nonneg_finite m e : bounded dprec demax m e = true → nonneg (S754_finite false m e).

Definition units (x : double) : Z :=
  match x with
  | S754_finite _ m e => Zpos m * 2 ^ (e - demin)
  | S754_infinity _ => 2 ^ (demax - demin)
  | _ => 0
  end.

(** The units of an integer. *)
Definition one_units : Z := 2 ^ 1074.

Definition is_finite (x : double) : Prop :=
  match x with
  | S754_zero _ | S754_finite _ _ _ => True
  | _ => False
  end.

(** ** Digits and exponents *)

Lemma digits_bounds m : 2 ^ (Zpos (digits2_pos m) - 1) ≤ Zpos m < 2 ^ Zpos (digits2_pos m).
Proof.
  induction m as [p IH|p IH|]; simpl digits2_pos; [| |simpl; lia];
    rewrite Pos2Z.inj_succ; unfold Z.succ;
    replace (Zpos (digits2_pos p) + 1 - 1) with (Zpos (digits2_pos p) - 1 + 1) by lia;
    rewrite !Z.pow_add_r by lia; change (2 ^ 1) with 2; [rewrite (Pos2Z.inj_xI p)|rewrite (Pos2Z.inj_xO p)]; lia.
Qed.

Lemma digits_unique m d : 2 ^ (d - 1) ≤ Zpos m < 2 ^ d → Zpos (digits2_pos m) = d.
Proof.
  intros [Hl Hu]. pose proof (digits_bounds m) as [Hl' Hu'].
  assert (Hd : 0 < d) by (destruct (Z.le_gt_cases d 0) as [Hd|]; [|lia];
    destruct (Z.eq_dec d 0) as [->|]; [simpl in Hu; lia|]; rewrite (Z.pow_neg_r 2 d) in Hu by lia; lia).
  assert (Zpos (digits2_pos m) - 1 < d) by (apply (Z.pow_lt_mono_r_iff 2); lia).
  assert (d - 1 < Zpos (digits2_pos m)) by (apply (Z.pow_lt_mono_r_iff 2); lia). lia.
Qed.

Lemma fexp_max e : fexp dprec demax e = Z.max (e - 53) (-1074).
Proof. reflexivity. Qed.

Lemma bounded_spec m e :
  bounded dprec demax m e = true ↔
  -1074 ≤ e ≤ 971 ∧ Zpos m < 2 ^ 53 ∧ (-1074 < e → 2 ^ 52 ≤ Zpos m).
Proof.
  unfold bounded, canonical_mantissa. rewrite andb_true_iff, Z.eqb_eq, Z.leb_le, fexp_max.
  change (demax - dprec) with 971. pose proof (digits_bounds m) as [Hl Hu].
  split.
  - intros [He Hle]. split; [lia|]. split.
    + eapply Z.lt_le_trans; [exact Hu|]. apply Z.pow_le_mono_r; lia.
    + intros Hlt. replace 52 with (Zpos (digits2_pos m) - 1) by lia. exact Hl.
  - intros (He & Hm & Hn). split; [|lia].
    assert (Zpos (digits2_pos m) ≤ 53).
    { assert (Zpos (digits2_pos m) - 1 < 53) by (apply (Z.pow_lt_mono_r_iff 2); lia). lia. }
    destruct (Z.eq_dec e (-1074)) as [->|Hne]; [lia|].
    rewrite (digits_unique m 53) by (split; [apply Hn; lia|exact Hm]). lia.
Qed.

(** ** Rounding

    [rep num den r]: the truncated mantissa and the two sticky bits of [r] say
    where [num / den] lies. *)
Definition rep (num den : Z) (r : shr_record) : Prop :=
  0 ≤ shr_m r ∧
  match shr_r r, shr_s r with
  | false, false => num = shr_m r * den
  | false, true => shr_m r * den < num ∧ 2 * num < 2 * (shr_m r * den) + den
  | true, false => 2 * num = 2 * (shr_m r * den) + den
  | true, true => 2 * (shr_m r * den) + den < 2 * num ∧ num < shr_m r * den + den
  end.

Lemma rep_bounds num den r :
  0 < den → rep num den r → shr_m r * den ≤ num < (shr_m r + 1) * den.
Proof. unfold rep. intros Hd [Hm H]. destruct (shr_r r), (shr_s r); lia. Qed.

Lemma shr_1_rep num den r : 0 < den → rep num den r → rep num (2 * den) (shr_1 r).
Proof.
  unfold rep. destruct r as [m b s]. cbn [shr_m shr_r shr_s]. intros Hd [Hm H].
  destruct m as [|[p|p|]|]; [| | | |lia]; cbn; destruct b, s; cbn in *;
    rewrite ?(Pos2Z.inj_xI p), ?(Pos2Z.inj_xO p) in *; lia.
Qed.

Lemma shr_iter_rep p num den r :
  0 < den → rep num den r → rep num (2 ^ Zpos p * den) (SpecFloat.iter_pos shr_1 p r).
Proof.
  revert den r. induction p as [p IH|p IH|]; intros den r Hd H; cbn [SpecFloat.iter_pos].
  - apply (shr_1_rep num den) in H; [|done]. apply IH in H; [|lia]. apply IH in H; [|nia].
    rewrite (Pos2Z.inj_xI p), Z.pow_add_r, Z.pow_twice_r by lia.
    replace (2 ^ Zpos p * 2 ^ Zpos p * 2 ^ 1 * den) with (2 ^ Zpos p * (2 ^ Zpos p * (2 * den))) by lia.
    exact H.
  - apply IH in H; [|lia]. apply IH in H; [|nia].
    rewrite (Pos2Z.inj_xO p), Z.pow_twice_r.
    by replace (2 ^ Zpos p * 2 ^ Zpos p * den) with (2 ^ Zpos p * (2 ^ Zpos p * den)) by lia.
  - by apply shr_1_rep.
Qed.

(** What was rounded lies between the integers that bound it. *)
Lemma round_enclosure num den r :
  0 < den → rep num den r →
  let k := round_nearest_even (shr_m r) (loc_of_shr_record r) in
  0 ≤ k ∧ (∀ j, num ≤ j * den → k ≤ j) ∧ (∀ j, j * den ≤ num → j ≤ k).
Proof.
  intros Hd H. pose proof (rep_bounds num den r Hd H) as Hb. destruct H as [Hm H].
  destruct r as [m b s]. cbn [shr_m shr_r shr_s loc_of_shr_record] in *.
  assert (Hup : num ≠ m * den → ∀ j, num ≤ j * den → m + 1 ≤ j) by (intros; nia).
  assert (Hlow : ∀ j, j * den ≤ num → j ≤ m) by (intros; nia).
  assert (Hge : ∀ j, num ≤ j * den → m ≤ j) by (intros; nia).
  destruct b, s; cbn [round_nearest_even].
  - split; [lia|]. split; [apply Hup; lia|]. intros j Hj. specialize (Hlow j Hj). lia.
  - destruct (Z.even m); (split; [lia|]).
    + split; [exact Hge|exact Hlow].
    + split; [apply Hup; lia|]. intros j Hj. specialize (Hlow j Hj). lia.
  - split; [lia|]. split; [exact Hge|exact Hlow].
  - split; [lia|]. split; [exact Hge|exact Hlow].
Qed.

(** The number a rounded mantissa makes. *)
Definition dround (k e : Z) : double :=
  let '(mrs, e) := shr_fexp dprec demax k e loc_Exact in
  match shr_m mrs with
  | Z0 => S754_zero false
  | Zpos m => if e <=? demax - dprec then S754_finite false m e else S754_infinity false
  | Zneg _ => S754_nan
  end.

Lemma round_aux_dround m e l :
  binary_round_aux dprec demax false m e l
  = let '(mrs, e') := shr_fexp dprec demax m e l in
    dround (round_nearest_even (shr_m mrs) (loc_of_shr_record mrs)) e'.
Proof. reflexivity. Qed.

Lemma dround_spec k e :
  0 ≤ k ≤ 2 ^ 53 → -1074 ≤ e → (-1074 < e → 2 ^ 52 ≤ k) →
  nonneg (dround k e) ∧
  (is_finite (dround k e) ∧ units (dround k e) = k * 2 ^ (e + 1074) ∨
   dround k e = S754_infinity false ∧ 2 ^ 2098 ≤ k * 2 ^ (e + 1074)).
Proof.
  intros [Hk0 Hk] He Hn. unfold dround, shr_fexp. rewrite fexp_max.
  destruct k as [|m|m]; [| |lia].
  { assert (He' : e = -1074) by lia. subst e. cbn. split; [constructor|]. left. done. }
  cbn [Zdigits2 shr_record_of_loc]. pose proof (digits_bounds m) as [Hl Hu].
  destruct (Z.eq_dec (Zpos m) (2 ^ 53)) as [Htop|Htop].
  - rewrite (digits_unique m 54) by (rewrite Htop; split; reflexivity).
    replace (Z.max (54 + e - 53) (-1074) - e) with 1 by lia. cbn [shr SpecFloat.iter_pos].
    assert (m = Z.to_pos (2 ^ 53)) as -> by (rewrite <- Htop; by rewrite Pos2Z.id).
    change (shr_1 _) with {| shr_m := 2 ^ 52; shr_r := false; shr_s := false |}.
    cbn [shr_m]. change (demax - dprec) with 971. change (2 ^ 52) with (Zpos (Z.to_pos (2 ^ 52))).
    cbv iota. destruct (Z.leb_spec (e + 1) 971) as [Hle|Hgt].
    + split; [constructor; apply bounded_spec; split; [lia|]; by split|]. left. split; [done|].
      cbn [units]. unfold demin. replace (e + 1 - -1074) with (1 + (e + 1074)) by lia.
      rewrite Z.pow_add_r by lia. change (Zpos (Z.to_pos (2 ^ 53))) with (2 * Zpos (Z.to_pos (2 ^ 52))).
      lia.
    + split; [constructor|]. right. split; [done|].
      change (Zpos (Z.to_pos (2 ^ 53))) with (2 ^ 53). rewrite <- Z.pow_add_r by lia.
      apply Z.pow_le_mono_r; lia.
  - assert (Hlt : Zpos m < 2 ^ 53) by lia.
    assert (Hd : Zpos (digits2_pos m) - 1 < 53) by (apply (Z.pow_lt_mono_r_iff 2); lia).
    assert (Hs : shr {| shr_m := Zpos m; shr_r := false; shr_s := false |} e
        (Z.max (Zpos (digits2_pos m) + e - 53) (-1074) - e)
      = ({| shr_m := Zpos m; shr_r := false; shr_s := false |}, e)).
    { unfold shr. destruct (Z.max _ _ - e) eqn:Hz; [done|lia|done]. }
    rewrite Hs. cbn [shr_m]. change (demax - dprec) with 971.
    destruct (Z.leb_spec e 971) as [Hle|Hgt].
    + split; [constructor; apply bounded_spec; split; [lia|]; by split|]. left. done.
    + split; [constructor|]. right. split; [done|]. specialize (Hn ltac:(lia)).
      transitivity (2 ^ 52 * 2 ^ (e + 1074)); [|nia].
      rewrite <- Z.pow_add_r by lia. apply Z.pow_le_mono_r; lia.
Qed.

(** The units of a finite number are a multiple of every smaller power. *)
Lemma units_multiple c e :
  nonneg c → is_finite c → -1074 ≤ e → -1074 < e ∧ units c < 2 ^ 52 * 2 ^ (e + 1074) ∨
  ∃ j, units c = j * 2 ^ (e + 1074).
Proof.
  intros Hc Hf He. destruct Hc as [s| |m ec Hb]; [|done|].
  - right. by exists 0.
  - apply bounded_spec in Hb as (Hec & Hm & _). cbn [units]. unfold demin.
    destruct (Z.le_gt_cases e ec) as [Hle|Hgt].
    + right. exists (Zpos m * 2 ^ (ec - e)). rewrite <- Z.mul_assoc, <- Z.pow_add_r by lia.
      do 2 f_equal. lia.
    + left. split; [lia|].
      assert (2 ^ (1 + (ec - -1074)) ≤ 2 ^ (e + 1074)) by (apply Z.pow_le_mono_r; lia).
      rewrite Z.pow_add_r in H by lia. assert (0 < 2 ^ (ec - -1074)) by lia. nia.
Qed.

Lemma units_overflow c : nonneg c → is_finite c → 0 ≤ units c < 2 ^ 2098.
Proof.
  intros Hc Hf. destruct Hc as [s| |m e Hb]; [done|done|].
  apply bounded_spec in Hb as (He & Hm & _). cbn [units]. unfold demin.
  assert (2 ^ (e - -1074) ≤ 2 ^ 2045) by (apply Z.pow_le_mono_r; lia).
  assert (0 < 2 ^ (e - -1074)) by lia.
  replace (2 ^ 2098) with (2 ^ 53 * 2 ^ 2045) by (by rewrite <- Z.pow_add_r). nia.
Qed.

(** A shift that starts at or below the exponent of the result. *)
Lemma shr_fexp_rep num den mx ex lx :
  0 < den → ex ≤ fexp dprec demax (Zdigits2 mx + ex) → rep num den (shr_record_of_loc mx lx) →
  let n := fexp dprec demax (Zdigits2 mx + ex) - ex in
  ∃ r, shr_fexp dprec demax mx ex lx = (r, ex + n) ∧ rep num (2 ^ n * den) r.
Proof.
  intros Hd He Hr n. unfold shr_fexp. fold n. destruct n as [|p|p] eqn:Hn; [| |lia].
  - exists (shr_record_of_loc mx lx). rewrite Z.add_0_r, Z.pow_0_r, Z.mul_1_l. by split.
  - exists (SpecFloat.iter_pos shr_1 p (shr_record_of_loc mx lx)). split; [done|].
    by apply shr_iter_rep.
Qed.

(** The rounded quotient [k] of [num] by [2 ^ n * den], scaled, is on the same side
    as the quantity of every finite double. *)
Lemma round_sides num den n ex k c :
  0 < den → 0 ≤ n → -4000 ≤ ex → -1074 ≤ ex + n →
  (∀ j, num ≤ j * (2 ^ n * den) → k ≤ j) → (∀ j, j * (2 ^ n * den) ≤ num → j ≤ k) →
  (-1074 < ex + n → 2 ^ 52 * (2 ^ n * den) ≤ num) →
  is_finite (dround k (ex + n)) ∧ units (dround k (ex + n)) = k * 2 ^ (ex + n + 1074) ∨
  dround k (ex + n) = S754_infinity false ∧ 2 ^ 2098 ≤ k * 2 ^ (ex + n + 1074) →
  nonneg c → is_finite c →
  (num * 2 ^ (ex + 4000) ≤ units c * 2 ^ 2926 * den →
   is_finite (dround k (ex + n)) ∧ units (dround k (ex + n)) ≤ units c) ∧
  (units c * 2 ^ 2926 * den ≤ num * 2 ^ (ex + 4000) → units c ≤ units (dround k (ex + n))).
Proof.
  intros Hd Hn0 Hex He' Hup Hlow Hnum Hval Hc Hf.
  pose proof (units_overflow c Hc Hf) as [Hc0 Hcmax].
  assert (Hn : 0 < 2 ^ n) by (apply Z.pow_pos_nonneg; lia).
  assert (Hscale : 2 ^ (ex + n + 1074) * 2 ^ 2926 = 2 ^ n * 2 ^ (ex + 4000)).
  { rewrite <- !Z.pow_add_r by lia. f_equal. lia. }
  assert (HK : 0 < 2 ^ 2926) by lia.
  generalize dependent (2 ^ 2926). intros K Hscale HK.
  assert (HP : 0 < 2 ^ (ex + 4000)) by (apply Z.pow_pos_nonneg; lia).
  assert (HE : 0 < 2 ^ (ex + n + 1074)) by (apply Z.pow_pos_nonneg; lia).
  assert (Hx : units c ≤ k * 2 ^ (ex + n + 1074) → units c ≤ units (dround k (ex + n))).
  { intros Hle. destruct Hval as [[_ ->]|[-> _]]; [exact Hle|]. change (units _) with (2 ^ 2098) at 2. lia. }
  destruct (units_multiple c (ex + n) Hc Hf) as [[Hgt Hsmall]|[j Hj]]; [exact He'| |].
  - specialize (Hnum Hgt). split; intros H.
    + exfalso. assert (2 ^ 52 * (2 ^ n * den) * 2 ^ (ex + 4000) ≤ units c * K * den)
        by (etransitivity; [apply Z.mul_le_mono_nonneg_r; [lia|exact Hnum]|exact H]).
      assert (2 ^ 52 * (2 ^ n * den) * 2 ^ (ex + 4000) = 2 ^ 52 * 2 ^ (ex + n + 1074) * K * den)
        by (transitivity (2 ^ 52 * (2 ^ n * 2 ^ (ex + 4000)) * den); [ring|rewrite <- Hscale; ring]).
      assert (units c * (K * den) < 2 ^ 52 * 2 ^ (ex + n + 1074) * (K * den))
        by (apply Z.mul_lt_mono_pos_r; [by apply Z.mul_pos_pos|done]).
      lia.
    + apply Hx. etransitivity; [apply Z.lt_le_incl, Hsmall|].
      apply Z.mul_le_mono_nonneg_r; [lia|]. by apply Hlow.
  - assert (Heq : units c * K * den = j * (2 ^ n * den) * 2 ^ (ex + 4000)).
    { rewrite Hj. transitivity (j * (2 ^ (ex + n + 1074) * K) * den); [lia|]. rewrite Hscale. lia. }
    rewrite Heq. split; intros H.
    + assert (Hkj : k ≤ j) by (by apply Hup, (Z.mul_le_mono_pos_r _ _ _ HP)).
      assert (k * 2 ^ (ex + n + 1074) ≤ units c)
        by (rewrite Hj; by apply Z.mul_le_mono_nonneg_r; [lia|]).
      destruct Hval as [[Hfin ->]|[_ Hover]]; [by split|lia].
    + apply Hx. rewrite Hj. apply Z.mul_le_mono_nonneg_r; [lia|].
      by apply Hlow, (Z.mul_le_mono_pos_r _ _ _ HP).
Qed.

(** Rounding a positive quantity [num / den * 2 ^ ex]: the result is nonnegative,
    and on the same side as the quantity of every finite double. *)
Lemma round_aux_spec num den mx ex lx :
  0 < den → 0 < mx → -4000 ≤ ex → ex ≤ fexp dprec demax (Zdigits2 mx + ex) →
  rep num den (shr_record_of_loc mx lx) →
  let x := binary_round_aux dprec demax false mx ex lx in
  nonneg x ∧ ∀ c, nonneg c → is_finite c →
    (num * 2 ^ (ex + 4000) ≤ units c * 2 ^ 2926 * den → is_finite x ∧ units x ≤ units c) ∧
    (units c * 2 ^ 2926 * den ≤ num * 2 ^ (ex + 4000) → units c ≤ units x).
Proof.
  intros Hd Hmx Hex He Hr x.
  assert (Hb : mx * den ≤ num < (mx + 1) * den).
  { apply rep_bounds in Hr; [|done]. by destruct lx as [|[]]. }
  destruct mx as [|m|m]; [lia| |lia]. cbn [Zdigits2] in *.
  destruct (shr_fexp_rep num den (Zpos m) ex lx Hd He Hr) as (r & Hshr & Hrep).
  cbn [Zdigits2] in Hshr, Hrep. rewrite fexp_max in He, Hshr, Hrep.
  pose proof (digits_bounds m) as [Hl Hu].
  set (d := Zpos (digits2_pos m)) in *.
  set (n := Z.max (d + ex - 53) (-1074) - ex) in *.
  assert (Hn0 : 0 ≤ n) by lia. assert (He' : -1074 ≤ ex + n) by lia.
  assert (Hn : 0 < 2 ^ n) by (apply Z.pow_pos_nonneg; lia).
  subst x. rewrite round_aux_dround, Hshr.
  destruct (round_enclosure num (2 ^ n * den) r ltac:(nia) Hrep) as (Hk0 & Hup & Hlow).
  set (k := round_nearest_even (shr_m r) (loc_of_shr_record r)) in *.
  assert (Hk53 : k ≤ 2 ^ 53).
  { apply Hup. transitivity (2 ^ d * den); [nia|]. rewrite Z.mul_assoc, <- Z.pow_add_r by lia.
    apply Z.mul_le_mono_nonneg_r; [lia|]. apply Z.pow_le_mono_r; lia. }
  assert (Hnum : -1074 < ex + n → 2 ^ 52 * (2 ^ n * den) ≤ num).
  { intros Hgt. rewrite Z.mul_assoc, <- Z.pow_add_r by lia. replace (52 + n) with (d - 1) by lia. nia. }
  destruct (dround_spec k (ex + n)) as [Hnn Hval]; [lia|lia|intros Hgt; by apply Hlow, Hnum|].
  split; [exact Hnn|]. intros c Hc Hf. by apply (round_sides num den n ex k c).
Qed.

(** ** The operations

    [rounds x num den]: [x] is [num / den] units, rounded: every finite double is
    on the same side of both. *)
Definition rounds (x : double) (num den : Z) : Prop :=
  nonneg x ∧ ∀ c, nonneg c → is_finite c →
    (num ≤ units c * den → is_finite x ∧ units x ≤ units c) ∧
    (units c * den ≤ num → units c ≤ units x).

Lemma rounds_exact x : nonneg x → is_finite x → rounds x (units x) 1.
Proof. intros Hx Hf. split; [done|]. intros c _ _. split; [split; [done|]|]; lia. Qed.

(** A result that is itself a double is exact. *)
Lemma rounds_representable x c num den :
  0 < den → rounds x num den → nonneg c → is_finite c → num = units c * den →
  is_finite x ∧ units x = units c.
Proof.
  intros Hd [_ H] Hc Hf ->. destruct (H c Hc Hf) as [Hu Hl].
  destruct Hu as [Hfin Hle]; [done|]. specialize (Hl ltac:(done)). split; [done|lia].
Qed.

Lemma shl_align_value m e e' :
  -1074 ≤ e → -1074 ≤ e' →
  Zpos (shl_align m e e').1 * 2 ^ ((shl_align m e e').2 + 1074) = Zpos m * 2 ^ (e + 1074) ∧
  (shl_align m e e').2 = Z.min e e'.
Proof.
  intros He He'. unfold shl_align. destruct (e' - e) as [|p|p] eqn:Hd; cbn [fst snd]; [split; lia|split; lia|].
  split; [|lia]. assert (Hm : Zpos (Pos.iter xO m p) = Zpos m * 2 ^ Zpos p).
  { clear. induction p using Pos.peano_ind; [cbn; lia|].
    rewrite Pos.iter_succ, Pos2Z.inj_succ, Z.pow_succ_r by lia.
    rewrite (Pos2Z.inj_xO (Pos.iter xO m p)). lia. }
  rewrite Hm, <- Z.mul_assoc, <- Z.pow_add_r by lia. do 2 f_equal. lia.
Qed.

Lemma binary_round_rounds m e :
  -1074 ≤ e → rounds (binary_round dprec demax false m e) (Zpos m * 2 ^ (e + 1074)) 1.
Proof.
  intros He. unfold binary_round.
  set (e' := fexp dprec demax (Zpos (digits2_pos m) + e)).
  assert (He' : -1074 ≤ e') by (unfold e'; rewrite fexp_max; lia).
  destruct (shl_align_value m e e' He He') as [Hval Hmin].
  destruct (shl_align m e e') as [mz ez] eqn:Hal. cbn [fst snd] in *.
  pose proof (digits_bounds m) as [Hl Hu]. set (d := Zpos (digits2_pos m)) in *.
  assert (Hdz : Zpos (digits2_pos mz) + ez = d + e).
  { assert (Hmz : Zpos mz = Zpos m * 2 ^ (e - ez)).
    { replace (e + 1074) with ((e - ez) + (ez + 1074)) in Hval by lia.
      rewrite (Z.pow_add_r 2 (e - ez)) in Hval by lia.
      assert (0 < 2 ^ (ez + 1074)) by (apply Z.pow_pos_nonneg; lia). nia. }
    assert (0 < 2 ^ (e - ez)) by (apply Z.pow_pos_nonneg; lia).
    enough (Zpos (digits2_pos mz) = d + (e - ez)) by lia. apply digits_unique. rewrite Hmz.
    replace (d + (e - ez) - 1) with (d - 1 + (e - ez)) by lia.
    rewrite !Z.pow_add_r by lia. split; nia. }
  destruct (round_aux_spec (Zpos mz) 1 (Zpos mz) ez loc_Exact) as [Hnn H]; [lia|lia|lia| | |].
  - cbn [Zdigits2]. rewrite Hdz. fold e'. lia.
  - split; cbn; lia.
  - split; [exact Hnn|]. intros c Hc Hf. destruct (H c Hc Hf) as [Hup Hlow].
    replace (ez + 4000) with ((ez + 1074) + 2926) in Hup, Hlow by lia.
    rewrite (Z.pow_add_r 2 (ez + 1074) 2926), Z.mul_assoc, Hval in Hup, Hlow by lia.
    assert (0 < 2 ^ 2926) by lia. split; intros Hle; [apply Hup|apply Hlow]; nia.
Qed.

(** The mantissas of a sum or difference, at the smaller exponent. *)
Lemma aligned_units m e e' :
  -1074 ≤ e → -1074 ≤ e' → e' ≤ e →
  Zpos (shl_align m e e').1 * 2 ^ (e' + 1074) = Zpos m * 2 ^ (e - demin).
Proof.
  intros He He' Hle. destruct (shl_align_value m e e' He He') as [Hval Hmin].
  rewrite Hmin, Z.min_r in Hval by lia. exact Hval.
Qed.

Lemma normalize_rounds m e :
  0 ≤ m → -1074 ≤ e → rounds (binary_normalize dprec demax m e false) (m * 2 ^ (e + 1074)) 1.
Proof.
  intros Hm He. destruct m as [|m|m]; [|by apply binary_round_rounds|lia].
  exact (rounds_exact (S754_zero false) (nonneg_zero false) I).
Qed.

Lemma finite_cases x : nonneg x → is_finite x →
  (∃ s, x = S754_zero s) ∨
  (∃ m e, x = S754_finite false m e ∧ -1074 ≤ e ∧ bounded dprec demax m e = true).
Proof.
  intros [s| |m e Hb] Hf; [by left; exists s|done|].
  right. exists m, e. split; [done|]. split; [|done]. apply bounded_spec in Hb. lia.
Qed.

Lemma dadd_rounds x y :
  nonneg x → is_finite x → nonneg y → is_finite y → rounds (dadd x y) (units x + units y) 1.
Proof.
  intros Hx Hfx Hy Hfy.
  destruct (finite_cases x Hx Hfx) as [[s ->]|(m & e & -> & He & Hb)];
    destruct (finite_cases y Hy Hfy) as [[s' ->]|(m' & e' & -> & He' & Hb')].
  - destruct s, s'; apply (rounds_exact (S754_zero _)); constructor.
  - by apply rounds_exact.
  - cbn [units]. rewrite Z.add_0_r. by apply (rounds_exact (S754_finite false m e)).
  - unfold dadd. cbn [SFadd cond_Zopp units].
    rewrite <- (aligned_units m e (Z.min e e')), <- (aligned_units m' e' (Z.min e e')) by lia.
    rewrite <- Z.mul_add_distr_r. apply normalize_rounds; lia.
Qed.

Lemma dsub_rounds x y :
  nonneg x → is_finite x → nonneg y → is_finite y → units y ≤ units x →
  rounds (dsub x y) (units x - units y) 1.
Proof.
  intros Hx Hfx Hy Hfy Hle.
  destruct (finite_cases x Hx Hfx) as [[s ->]|(m & e & -> & He & Hb)];
    destruct (finite_cases y Hy Hfy) as [[s' ->]|(m' & e' & -> & He' & Hb')].
  - destruct s, s'; apply (rounds_exact (S754_zero _)); constructor.
  - exfalso. cbn [units] in Hle. assert (0 < 2 ^ (e' - demin)) by (apply Z.pow_pos_nonneg; unfold demin; lia).
    lia.
  - cbn [units]. rewrite Z.sub_0_r. by apply (rounds_exact (S754_finite false m e)).
  - unfold dsub. cbn [SFsub cond_Zopp units] in *.
    rewrite <- (aligned_units m e (Z.min e e')), <- (aligned_units m' e' (Z.min e e')) in Hle |- * by lia.
    rewrite <- Z.mul_sub_distr_r. apply normalize_rounds; [|lia].
    assert (0 < 2 ^ (Z.min e e' + 1074)) by (apply Z.pow_pos_nonneg; lia). nia.
Qed.

Lemma digits_mul m m' :
  Zpos (digits2_pos m) + Zpos (digits2_pos m') - 1 ≤ Zpos (digits2_pos (m * m')).
Proof.
  pose proof (digits_bounds m) as [Hl _]. pose proof (digits_bounds m') as [Hl' _].
  pose proof (digits_bounds (m * m')) as [_ Hu].
  assert (2 ^ (Zpos (digits2_pos m) - 1 + (Zpos (digits2_pos m') - 1)) ≤ Zpos (m * m')).
  { rewrite Z.pow_add_r, Pos2Z.inj_mul by lia. apply Z.mul_le_mono_nonneg; lia. }
  enough (Zpos (digits2_pos m) - 1 + (Zpos (digits2_pos m') - 1) < Zpos (digits2_pos (m * m'))) by lia.
  apply (Z.pow_lt_mono_r_iff 2); lia.
Qed.

Lemma bounded_digits m e :
  bounded dprec demax m e = true → -1074 ≤ e ≤ 971 ∧ (-1074 < e → Zpos (digits2_pos m) = 53).
Proof.
  intros (He & Hm & Hn)%bounded_spec. split; [exact He|]. intros Hlt. apply digits_unique.
  split; [by apply Hn|done].
Qed.

(** A product of positive doubles is nonnegative (it may overflow). *)
Lemma dmul_nonneg x y :
  nonneg x → is_finite x → nonneg y → is_finite y → nonneg (dmul x y).
Proof.
  intros Hx Hfx Hy Hfy.
  destruct (finite_cases x Hx Hfx) as [[s ->]|(m & e & -> & _ & Hb%bounded_digits)];
    destruct (finite_cases y Hy Hfy) as [[s' ->]|(m' & e' & -> & _ & Hb'%bounded_digits)];
    [constructor..|].
  unfold dmul. cbn [SFmul xorb]. pose proof (digits_mul m m') as Hd.
  apply (round_aux_spec (Zpos (m * m')) 1); [lia|lia|lia| |split; cbn; lia].
  cbn [Zdigits2]. rewrite fexp_max. destruct Hb as [Hb Hn], Hb' as [Hb' Hn']. lia.
Qed.

Lemma new_location_rep q r den :
  0 ≤ q → 0 ≤ r < den → rep (q * den + r) den (shr_record_of_loc q (new_location den r)).
Proof.
  intros Hq Hr. unfold new_location, new_location_even, new_location_odd.
  destruct (Z.even den) eqn:Heven.
  - destruct (Z.eqb_spec r 0) as [->|Hne]; [split; cbn; lia|].
    destruct (Z.compare_spec (2 * r) den); split; cbn; lia.
  - destruct (Z.eqb_spec r 0) as [->|Hne]; [split; cbn; lia|].
    assert (Hodd : ∃ k, den = 2 * k + 1).
    { rewrite <- Z.negb_odd in Heven. apply negb_false_iff, Z.odd_spec in Heven as [k ->]. by exists k. }
    destruct Hodd as [k Hk].
    destruct (Z.compare_spec (2 * r + 1) den); split; cbn; lia.
Qed.

(** The mantissa of the dividend, shifted left. *)
Lemma shifted_mantissa m s :
  0 ≤ s →
  match s with Z0 => Zpos m | Zpos _ => Z.shiftl (Zpos m) s | Zneg _ => 0 end = Zpos m * 2 ^ s.
Proof. intros Hs. destruct s eqn:Hse; [lia| |lia]. by rewrite Z.shiftl_mul_pow2 by lia. Qed.

(** The exponents of two numbers whose ratio is not too small. *)
Lemma quotient_exponent m1 m2 d1 d2 a b :
  m1 < 2 ^ d1 → 2 ^ (d2 - 1) ≤ m2 → 1 ≤ d1 → 1 ≤ d2 → 0 ≤ a → 0 ≤ b →
  m2 * 2 ^ b ≤ m1 * 2 ^ a * 2 ^ 900 → d2 - 1 + b < d1 + a + 900.
Proof.
  intros Hu1 Hl2 H1 H2 Ha Hb Hratio. apply (Z.pow_lt_mono_r_iff 2); [lia|lia|].
  rewrite (Z.pow_add_r 2 (d2 - 1) b), (Z.pow_add_r 2 (d1 + a) 900), (Z.pow_add_r 2 d1 a) by lia.
  assert (HP : 0 < 2 ^ a) by (apply Z.pow_pos_nonneg; lia).
  assert (m1 * 2 ^ a * 2 ^ 900 < 2 ^ d1 * 2 ^ a * 2 ^ 900)
    by (apply Z.mul_lt_mono_pos_r; [lia|]; by apply Z.mul_lt_mono_pos_r).
  assert (2 ^ (d2 - 1) * 2 ^ b ≤ m2 * 2 ^ b) by (apply Z.mul_le_mono_nonneg_r; lia).
  lia.
Qed.

(** The digits of the integer quotient. *)
Lemma quotient_large m1 m2 d1 d2 s q r :
  2 ^ (d1 - 1) ≤ m1 → 0 < m2 < 2 ^ d2 → 1 ≤ d1 → 0 ≤ d2 → 0 ≤ s → 0 ≤ d1 + s - 1 - d2 →
  m1 * 2 ^ s = m2 * q + r → 0 ≤ r < m2 → 2 ^ (d1 + s - 1 - d2) ≤ q.
Proof.
  intros Hl1 Hu2 H1 H2 Hs He Hqr Hr.
  assert (2 ^ (d1 + s - 1) ≤ m1 * 2 ^ s).
  { replace (d1 + s - 1) with (d1 - 1 + s) by lia. rewrite Z.pow_add_r by lia.
    apply Z.mul_le_mono_nonneg_r; [lia|exact Hl1]. }
  assert (2 ^ (d1 + s - 1) = 2 ^ (d1 + s - 1 - d2) * 2 ^ d2)
    by (rewrite <- Z.pow_add_r by lia; f_equal; lia).
  assert (0 < 2 ^ (d1 + s - 1 - d2)) by (apply Z.pow_pos_nonneg; lia).
  assert (2 ^ (d1 + s - 1 - d2) * m2 < m1 * 2 ^ s) by nia. nia.
Qed.

(** A quotient of positive doubles, away from underflow. *)
Lemma ddiv_rounds x y :
  nonneg x → is_finite x → nonneg y → is_finite y → 0 < units x → 0 < units y →
  units y ≤ units x * 2 ^ 900 →
  rounds (ddiv x y) (units x * 2 ^ 1074) (units y).
Proof.
  intros Hx Hfx Hy Hfy Hx0 Hy0 Hratio.
  destruct (finite_cases x Hx Hfx) as [[s ->]|(m1 & e1 & -> & _ & Hb1)]; [done|].
  destruct (finite_cases y Hy Hfy) as [[s ->]|(m2 & e2 & -> & _ & Hb2)]; [done|].
  apply bounded_digits in Hb1 as [Hb1 _], Hb2 as [Hb2 _].
  cbn [units] in *. unfold demin in *.
  replace (e1 - -1074) with (e1 + 1074) in * by lia.
  replace (e2 - -1074) with (e2 + 1074) in * by lia.
  pose proof (digits_bounds m1) as [Hl1 Hu1]. pose proof (digits_bounds m2) as [Hl2 Hu2].
  unfold ddiv. cbn [SFdiv xorb]. unfold SFdiv_core_binary. cbn [Zdigits2].
  set (d1 := Zpos (digits2_pos m1)) in *. set (d2 := Zpos (digits2_pos m2)) in *.
  assert (HE : d2 - 1 + (e2 + 1074) < d1 + (e1 + 1074) + 900)
    by (apply (quotient_exponent (Zpos m1) (Zpos m2)); (lia || exact Hratio)).
  rewrite fexp_max. set (e' := Z.min (Z.max (d1 + e1 - (d2 + e2) - 53) (-1074)) (e1 - e2)).
  set (s := e1 - e2 - e'). assert (Hs : 0 ≤ s) by lia. rewrite (shifted_mantissa m1 s Hs).
  destruct (Z.div_eucl (Zpos m1 * 2 ^ s) (Zpos m2)) as [q r] eqn:Hdiv.
  pose proof (Z_div_mod (Zpos m1 * 2 ^ s) (Zpos m2) ltac:(lia)) as Hqr. rewrite Hdiv in Hqr.
  destruct Hqr as [Hqr Hr].
  assert (Hq : 2 ^ (d1 + s - 1 - d2) ≤ q) by (apply (quotient_large (Zpos m1) (Zpos m2) d1 d2 s q r); lia).
  assert (0 < 2 ^ (d1 + s - 1 - d2)) by (apply Z.pow_pos_nonneg; lia).
  destruct (round_aux_spec (Zpos m1 * 2 ^ s) (Zpos m2) q e' (new_location (Zpos m2) r))
    as [Hnn H']; [lia|lia|lia| | |].
  - destruct q as [|q|q]; [lia| |lia]. cbn [Zdigits2]. rewrite fexp_max.
    pose proof (digits_bounds q) as [_ Huq].
    assert (d1 + s - 1 - d2 < Zpos (digits2_pos q)) by (apply (Z.pow_lt_mono_r_iff 2); lia). lia.
  - rewrite Hqr. replace (Zpos m2 * q + r) with (q * Zpos m2 + r) by lia.
    apply new_location_rep; lia.
  - split; [exact Hnn|]. intros c Hc Hf. destruct (H' c Hc Hf) as [Hup Hlow].
    assert (Hscale : Zpos m1 * 2 ^ s * 2 ^ (e' + 4000) * 2 ^ (e2 + 1074)
      = Zpos m1 * 2 ^ (e1 + 1074) * 2 ^ 1074 * 2 ^ 2926).
    { rewrite <- !Z.mul_assoc, <- !Z.pow_add_r by lia. do 2 f_equal. lia. }
    assert (HP : 0 < 2 ^ (e2 + 1074)) by (apply Z.pow_pos_nonneg; lia).
    assert (HK : 0 < 2 ^ 2926) by lia.
    revert Hscale HK Hup Hlow. generalize (2 ^ 2926). intros K Hscale HK Hup Hlow.
    split; intros Hle; [apply Hup|apply Hlow]; apply (Z.mul_le_mono_pos_r _ _ _ HP);
      rewrite Hscale; [etransitivity; [apply Z.mul_le_mono_nonneg_r; [lia|exact Hle]|]; lia|].
    etransitivity; [|apply Z.mul_le_mono_nonneg_r; [lia|exact Hle]]. lia.
Qed.

(** ** Comparison and integers *)

Lemma finite_lt m e m' e' :
  bounded dprec demax m e = true → bounded dprec demax m' e' = true → e < e' →
  Zpos m * 2 ^ (e - demin) < Zpos m' * 2 ^ (e' - demin).
Proof.
  intros (He & Hm & _)%bounded_spec (He' & _ & Hn')%bounded_spec Hlt. unfold demin.
  specialize (Hn' ltac:(lia)).
  assert (2 ^ (1 + (e - -1074)) ≤ 2 ^ (e' - -1074)) as Hp by (apply Z.pow_le_mono_r; lia).
  rewrite Z.pow_add_r in Hp by lia. assert (0 < 2 ^ (e - -1074)) by (apply Z.pow_pos_nonneg; lia).
  nia.
Qed.

(** On nonnegative numbers, [<] compares the values. *)
Lemma dltb_units x y : nonneg x → nonneg y → dltb x y = (units x <? units y).
Proof.
  intros Hx Hy. unfold dltb, SFltb.
  assert (Hpos : ∀ m e, bounded dprec demax m e = true → 0 < Zpos m * 2 ^ (e - demin) < 2 ^ 2098).
  { intros m e Hb. pose proof (units_overflow (S754_finite false m e) (nonneg_finite m e Hb) I) as H.
    cbn [units] in H. apply bounded_spec in Hb as (He & _).
    assert (0 < 2 ^ (e - demin)) by (apply Z.pow_pos_nonneg; unfold demin; lia). lia. }
  destruct Hx as [s| |m e Hb], Hy as [s'| |m' e' Hb']; cbn [SFcompare units];
    change (2 ^ (demax - demin)) with (2 ^ 2098); symmetry;
    try match goal with
        | H1 : bounded _ _ _ _ = true, H2 : bounded _ _ _ _ = true |- _ => fail 1
        | H : bounded _ _ ?m ?e = true |- _ => specialize (Hpos m e H)
        end;
    try done; try (apply Z.ltb_ge; lia); try (apply Z.ltb_lt; lia).
  change (Pos.compare_cont Eq m m') with (m ?= m')%positive.
  destruct (Z.compare_spec e e') as [->|Hlt|Hgt].
  - assert (0 < 2 ^ (e' - demin)) by (specialize (Hpos m' e' Hb'); nia).
    destruct (Pos.compare_spec m m') as [->|Hm|Hm]; [apply Z.ltb_ge|apply Z.ltb_lt|apply Z.ltb_ge]; nia.
  - apply Z.ltb_lt. by apply finite_lt.
  - apply Z.ltb_ge, Z.lt_le_incl. by apply finite_lt.
Qed.

Lemma dleb_units x y : nonneg x → nonneg y → dleb x y = (units x <=? units y).
Proof.
  intros Hx Hy. rewrite Z.leb_antisym, <- (dltb_units y x) by done.
  unfold dltb, dleb, SFltb, SFleb.
  destruct Hx as [s| |m e Hb], Hy as [s'| |m' e' Hb']; cbn [SFcompare]; try done.
  change (Pos.compare_cont Eq m m') with (m ?= m')%positive.
  change (Pos.compare_cont Eq m' m) with (m' ?= m)%positive.
  rewrite (Z.compare_antisym e e'), (Pos.compare_antisym m m').
  destruct (e ?= e'); cbn [CompOpp]; try done. by destruct (m ?= m')%positive.
Qed.

(** An integer below [2 ^ 53] is a double. *)
Lemma int_representable n :
  0 ≤ n < 2 ^ 53 → ∃ c, nonneg c ∧ is_finite c ∧ units c = n * one_units.
Proof.
  intros [Hn Hlt]. destruct n as [|p|p]; [by exists (S754_zero false); split; [constructor|]| |lia].
  pose proof (digits_bounds p) as [Hl Hu]. set (d := Zpos (digits2_pos p)) in *.
  assert (Hd : d ≤ 53) by (assert (d - 1 < 53) by (apply (Z.pow_lt_mono_r_iff 2); lia); lia).
  assert (Hm : ∃ m, Zpos m = Zpos p * 2 ^ (53 - d)).
  { exists (Z.to_pos (Zpos p * 2 ^ (53 - d))). apply Z2Pos.id.
    assert (0 < 2 ^ (53 - d)) by (apply Z.pow_pos_nonneg; lia). lia. }
  destruct Hm as [m Hm]. exists (S754_finite false m (d - 53)).
  split; [|split; [done|]].
  - constructor. apply bounded_spec. split; [lia|]. rewrite Hm.
    assert (0 < 2 ^ (53 - d)) by (apply Z.pow_pos_nonneg; lia).
    replace (2 ^ 53) with (2 ^ d * 2 ^ (53 - d)) by (rewrite <- Z.pow_add_r by lia; f_equal; lia).
    replace (2 ^ 52) with (2 ^ (d - 1) * 2 ^ (53 - d)) by (rewrite <- Z.pow_add_r by lia; f_equal; lia).
    split; [|intros _]; nia.
  - cbn [units]. rewrite Hm, <- Z.mul_assoc, <- Z.pow_add_r by (unfold demin; lia).
    unfold one_units, demin. do 2 f_equal. lia.
Qed.

Lemma power_representable p :
  -1074 ≤ p ≤ 1023 → ∃ c, nonneg c ∧ is_finite c ∧ units c = 2 ^ (p + 1074).
Proof.
  intros Hp. destruct (Z.le_gt_cases p (-1023)) as [Hle|Hgt].
  - exists (S754_finite false (Z.to_pos (2 ^ (p + 1074))) (-1074)).
    assert (0 < 2 ^ (p + 1074)) by (apply Z.pow_pos_nonneg; lia).
    split; [|split; [done|]].
    + constructor. apply bounded_spec. rewrite Z2Pos.id by done. split; [lia|]. split; [|lia].
      apply Z.pow_lt_mono_r; lia.
    + cbn [units]. rewrite Z2Pos.id by done. change (-1074 - demin) with 0. lia.
  - exists (S754_finite false (2 ^ 52) (p - 52)). split; [|split; [done|]].
    + constructor. apply bounded_spec. split; [lia|]. by split.
    + cbn [units]. change (Zpos (2 ^ 52)) with (2 ^ 52). unfold demin.
      rewrite <- Z.pow_add_r by lia. f_equal. lia.
Qed.

Lemma double_of_int_rounds n : 0 ≤ n → rounds (double_of_int n) (n * one_units) 1.
Proof. intros Hn. by apply (normalize_rounds n 0). Qed.

Lemma double_of_int_exact n :
  0 ≤ n < 2 ^ 53 →
  nonneg (double_of_int n) ∧ is_finite (double_of_int n) ∧ units (double_of_int n) = n * one_units.
Proof.
  intros Hn. destruct (int_representable n Hn) as (c & Hc & Hf & Hu).
  pose proof (double_of_int_rounds n ltac:(lia)) as Hr.
  destruct (rounds_representable _ c _ 1 Z.lt_0_1 Hr Hc Hf) as [Hfin Heq]; [rewrite Hu; lia|].
  split; [apply Hr|]. split; [done|]. by rewrite Heq.
Qed.

(** Truncation gives the whole units. *)
Lemma int_of_double_ret x :
  nonneg x → is_finite x → units x / one_units ≤ int_max →
  int_of_double x = Ret (units x / one_units).
Proof.
  intros Hx Hf Hle. destruct (finite_cases x Hx Hf) as [[s ->]|(m & e & -> & He & _)]; [done|].
  cbn [int_of_double units] in *. unfold demin, one_units, int_max in *.
  assert (Hq : (if 0 <=? e then Zpos m * 2 ^ e else Zpos m / 2 ^ (- e))
    = Zpos m * 2 ^ (e - -1074) / 2 ^ 1074).
  { destruct (Z.leb_spec 0 e) as [H0|H0].
    - replace (e - -1074) with (e + 1074) by lia. rewrite Z.pow_add_r, Z.mul_assoc by lia.
      rewrite Z.div_mul; [done|]. by apply Z.pow_nonzero.
    - rewrite <- (Z.div_mul_cancel_r (Zpos m) (2 ^ (- e)) (2 ^ (e - -1074))) by
        (apply Z.pow_nonzero; lia).
      rewrite <- Z.pow_add_r by lia. do 2 f_equal. lia. }
  rewrite Hq. assert (0 ≤ Zpos m * 2 ^ (e - -1074) / 2 ^ 1074).
  { apply Z.div_pos; [|lia]. assert (0 < 2 ^ (e - -1074)) by (apply Z.pow_pos_nonneg; lia). lia. }
  cbv zeta. rewrite (proj2 (Z.leb_le _ _)), (proj2 (Z.leb_le _ _)) by lia. done.
Qed.

(** A double below one is at most [1 - 2 ^ -53]. *)
Lemma below_one x :
  nonneg x → is_finite x → units x < one_units → units x ≤ one_units - 2 ^ 1021.
Proof.
  intros Hx Hf Hlt. destruct (finite_cases x Hx Hf) as [[s ->]|(m & e & -> & He & Hb)].
  { cbn. unfold one_units. rewrite <- Z.le_0_sub. lia. }
  cbn [units] in *. unfold demin, one_units in *.
  apply bounded_spec in Hb as (_ & Hm & Hn).
  assert (Hle : e ≤ -53).
  { destruct (Z.le_gt_cases e (-53)); [done|]. exfalso. specialize (Hn ltac:(lia)).
    assert (2 ^ 1022 ≤ 2 ^ (e - -1074)) by (apply Z.pow_le_mono_r; lia).
    assert (2 ^ 1074 = 2 ^ 52 * 2 ^ 1022) by (by rewrite <- Z.pow_add_r). nia. }
  assert (Hp : 2 ^ (e - -1074) ≤ 2 ^ 1021) by (apply Z.pow_le_mono_r; lia).
  assert (2 ^ 1074 = 2 ^ 53 * 2 ^ 1021) by (by rewrite <- Z.pow_add_r).
  assert (0 < 2 ^ (e - -1074)) by (apply Z.pow_pos_nonneg; lia). nia.
Qed.


