(* ===== verification/RateLimit.v ===== *)
(** * The rate limiter ([lib/rate_limit/rate_limit_module.cpp])

    A token bucket per rule and subject, counted in doubles.  The buckets are
    shared by the worker threads under a lock; a request takes the lock twice,
    so other requests may run between its two sections. *)

From Stdlib Require Import SpecFloat.
From S2P Require Import Prelude.
From S2P Require Import StringView.
From S2P Require Import HttpHeader.
From S2P Require Import HttpRequest.
From S2P Require Import HttpResponse.
From S2P Require Import Pipeline.
From S2P Require Import ModuleAbi.
From S2P Require Import ConfigText.
From S2P Require Import Double.

(** ** The configuration *)

Inductive key_kind := kk_global | kk_header.

(** [rate_limit_module::rule] *)
Record rule := Rule {
  method_pattern : bytes;
  target_pattern : bytes;
  target_kind : pattern_kind;
  key_type : key_kind;
  key_name : bytes;
  limit : Z;
  window_seconds : Z;
  burst : Z;
}.

Definition trim (value : bytes) : outcome bytes := StringView.trim value.

Definition split_fields (value : bytes) (delimiter : ascii) : outcome (list bytes) :=
  StringView.split_fields value delimiter.

Definition is_rule_line (line : bytes) : bool := starts_with "rule=" line.

Definition classify_target_pattern (pattern : bytes) : pattern_kind * bytes :=
  ConfigText.classify_target_pattern pattern.

Definition method_matches (pattern actual : bytes) : bool :=
  ConfigText.method_matches pattern actual.

Definition target_matches (kind : pattern_kind) (pattern actual : bytes) : bool :=
  ConfigText.target_matches kind pattern actual.

Definition fail {A} (what : bytes) : outcome A :=
  Throw (runtime_error (("rate_limit: " : bytes) ++ what)).

Definition parse_positive_int (value what : bytes) : outcome Z :=
  if bytes_eqb value [] then fail (what ++ " must not be empty") else
  v ← parse_int_digits (runtime_error (("rate_limit: invalid " : bytes) ++ what)) value 0;
  if (v <=? 0)%Z then fail (what ++ " must be positive") else Ret v.

(** The number and the unit: [60s], [5m], [1h], or seconds. *)
Definition window_parts (value : bytes) : outcome (bytes * Z) :=
  last_char ← char_at value (length value - 1);
  if Ascii.eqb last_char "s" || Ascii.eqb last_char "S" then
    n ← substr value 0 (length value - 1); Ret (n, 1%Z)
  else if Ascii.eqb last_char "m" || Ascii.eqb last_char "M" then
    n ← substr value 0 (length value - 1); Ret (n, 60%Z)
  else if Ascii.eqb last_char "h" || Ascii.eqb last_char "H" then
    n ← substr value 0 (length value - 1); Ret (n, 3600%Z)
  else Ret (value, 1%Z).

Definition parse_window_seconds (value : bytes) : outcome Z :=
  if bytes_eqb value [] then fail "window must not be empty" else
  '(num_part, multiplier) ← window_parts value;
  seconds ← parse_positive_int num_part "window";
  let total := (seconds * multiplier)%Z in
  if (1000000000 <? total)%Z then fail "window too large" else Ret total.

Definition parse_key_spec (spec : bytes) : outcome (key_kind * bytes) :=
  if bytes_eqb spec "global" then Ret (kk_global, []) else
  if (7 <? length spec) && starts_with "header:" spec then
    name ← substr_from spec 7;
    if bytes_eqb name [] then fail "header key name must not be empty"
    else Ret (kk_header, name)
  else
  if negb (bytes_eqb spec []) && bool_decide (find_char spec ":" 0 = None)
  then Ret (kk_header, spec)
  else fail "key must be 'global' or 'header:NAME' (or bare NAME)".

(** The body of the loop over the rule lines. *)
Definition parse_rule_line (line : bytes) : outcome rule :=
  text ← substr_from line 5;
  fields ← split_fields text "|";
  if length fields <? 5
  then fail "rule requires at least 5 fields (method|target|key|limit|window)" else
  method ← field_at fields 0;
  target_field ← field_at fields 1;
  let '(kind, target) := classify_target_pattern target_field in
  if bytes_eqb method [] then fail "method pattern must not be empty" else
  if bytes_eqb target [] then fail "target pattern must not be empty" else
  key_field ← field_at fields 2;
  '(key, name) ← parse_key_spec key_field;
  limit_field ← field_at fields 3;
  limit ← parse_positive_int limit_field "limit";
  window_field ← field_at fields 4;
  window ← parse_window_seconds window_field;
  burst ← match fields !! 5 with
          | None | Some [] => Ret limit
          | Some burst_field => parse_positive_int burst_field "burst"
          end;
  Ret (Rule method target kind key name limit window (if (burst <? limit)%Z then limit else burst)).

(** The constructor. *)
Definition parse_rules (config_text : bytes) : outcome (list rule) :=
  parsed ← parse_rule_lines is_rule_line parse_rule_line config_text;
  match parsed with
  | [] => fail "at least one rule= line is required"
  | _ => Ret parsed
  end.

(** ** The subject of a request *)

Definition ascii_lowercase (v : bytes) : bytes := to_lower <$> v.

(** The loop over the headers. *)
Definition find_header_icase (req : request) (name : bytes) : option bytes :=
  let lower := ascii_lowercase name in
  hvalue <$> List.find (λ h, bytes_eqb (ascii_lowercase (hname h)) lower) (request_headers req).

Definition extract_subject (req : request) (r : rule) : bytes :=
  match key_type r with
  | kk_global => "global"
  | kk_header =>
      match find_header_icase req (key_name r) with
      | None | Some [] => "<anonymous>"
      | Some value => value
      end
  end.

Definition make_rate_limit_response (limit window_seconds retry_after_seconds : Z)
    : outcome response :=
  let resp := text 429 "Too Many Requests" (("rate limit exceeded" : bytes) ++ [newline]) in
  resp ← set_header resp "X-RateLimit-Limit" (to_string limit);
  resp ← set_header resp "Retry-After"
           (to_string (if (0 <? retry_after_seconds)%Z then retry_after_seconds else 1));
  set_header resp "X-RateLimit-Reset" (to_string window_seconds).

(** ** Buckets *)

(** Time points are nanoseconds since the epoch of the clock. *)
Record token_bucket := TokenBucket { tokens : double; last_refill : Z }.

Definition new_bucket : token_bucket := TokenBucket (S754_zero false) 0.

Abbreviation buckets := (gmap bytes token_bucket).

Definition make_state_key (rule_index : nat) (subject : bytes) : bytes :=
  to_string (Z.of_nat rule_index) ++ ":" ++ subject.

(** [duration<double>(now - last_refill).count()]: the difference is a 64-bit
    integer, the quotient by the nanoseconds of a second a [double]. *)
Definition elapsed_seconds (now last : Z) : outcome double :=
  let d := (now - last)%Z in
  if (d <? - 2 ^ 63)%Z || (2 ^ 63 <=? d)%Z then Undef
  else Ret (ddiv (double_of_int d) (double_of_int 1000000000)).

Definition d_zero : double := S754_zero false.
Definition d_one : double := double_of_int 1.
(** The literal [0.999]. *)
Definition d_0_999 : double := ddiv (double_of_int 999) (double_of_int 1000).

Definition rate_per_sec (r : rule) : double :=
  ddiv (double_of_int (limit r))
    (double_of_int (if (0 <? window_seconds r)%Z then window_seconds r else 1%Z)).

(** The bucket after the first visit and the refill. *)
Definition refill (r : rule) (now : Z) (bucket : token_bucket) : outcome token_bucket :=
  let max_tokens := double_of_int (burst r) in
  let bucket := if (last_refill bucket =? 0)%Z then TokenBucket max_tokens now else bucket in
  elapsed ← elapsed_seconds now (last_refill bucket);
  if dltb d_zero elapsed then
    Ret (TokenBucket (dmin (dadd (tokens bucket) (dmul elapsed (rate_per_sec r))) max_tokens) now)
  else Ret bucket.

(** The seconds until there is a token. *)
Definition retry_after_seconds (r : rule) (bucket : token_bucket) : outcome Z :=
  let needed := dsub d_one (tokens bucket) in
  if dltb d_zero (rate_per_sec r) then
    let secs := ddiv needed (rate_per_sec r) in
    retry_after ← int_of_double (dadd secs d_0_999);
    let retry_after := if (retry_after <? 1)%Z then 1%Z else retry_after in
    Ret (if (window_seconds r <? retry_after)%Z then window_seconds r else retry_after)
  else Ret 1%Z.

(** The section of [check_and_consume] under the lock, on the bucket of the
    subject: the bucket it leaves, and when to retry if the request is refused. *)
Definition consume (r : rule) (now : Z) (bucket : token_bucket)
    : outcome (token_bucket * option Z) :=
  bucket ← refill r now bucket;
  if dleb d_one (tokens bucket) then
    Ret (TokenBucket (dsub (tokens bucket) d_one) (last_refill bucket), None)
  else
    retry_after ← retry_after_seconds r bucket;
    Ret (bucket, Some retry_after).

(** ** The module

    The world holds the buckets of the module instance.  [steady_now] reads the
    clock; [other_sections] is what other threads do between the two sections of
    a request. *)
Class RateWorld (W : Type) := {
  get_buckets : W → buckets;
  set_buckets : buckets → W → W;
  steady_now : W → Z * W;
  other_sections : W → W;
}.

Section Module_.
Context {W : Type} `{!RateWorld W}.

Definition check_and_consume (r : rule) (rule_index : nat) (subject : bytes)
    : prog W (option response) :=
  λ w,
  let '(now, w) := steady_now w in
  let skey := make_state_key rule_index subject in
  let m := get_buckets w in
  let bucket := default new_bucket (m !! skey) in
  match consume r now bucket with
  | Ret (bucket, refused) =>
      (match refused with
       | None => Ret None
       | Some retry_after =>
           Some <$> make_rate_limit_response (limit r) (window_seconds r) retry_after
       end, set_buckets (<[skey := bucket]> m) w)
  | Throw e => (Throw e, w)
  | Undef => (Undef, w)
  | Diverge => (Diverge, w)
  end.

(** The second section: the tokens left, as an integer. *)
Definition remaining_text (r : rule) (rule_index : nat) (subject : bytes) : prog W bytes :=
  λ w,
  match get_buckets w !! make_state_key rule_index subject with
  | None => (Ret (to_string (burst r)), w)
  | Some bucket =>
      (rem ← int_of_double (tokens bucket);
       Ret (to_string (if (rem <? 0)%Z then 0%Z else rem)), w)
  end.

(** The answer of a limited request: [X-RateLimit-Limit] is set if it is not
    there. *)
Definition limited_response (r : rule) (resp : response) : outcome response :=
  match response_find_header resp "X-RateLimit-Limit" with
  | Some _ => Ret resp
  | None => set_header resp "X-RateLimit-Limit" (to_string (limit r))
  end.

(** The body of the loop for the first rule that matches. *)
Definition apply_rule (r : rule) (rule_index : nat) (req : request) : prog W result :=
  let subject := extract_subject req r in
  maybe_response ← check_and_consume r rule_index subject;
  match maybe_response with
  | Some resp =>
      resp ← lift (limited_response r resp);
      mret (result_respond resp)
  | None =>
      _ ← (λ w, (Ret tt, other_sections w));
      remaining_str ← remaining_text r rule_index subject;
      mret (result_add_header
             (result_add_header
               (result_add_header result_pass "X-RateLimit-Limit" (to_string (limit r)))
               "X-RateLimit-Remaining" remaining_str)
             "X-RateLimit-Reset" (to_string (window_seconds r)))
  end.

(** [rate_limit_module::handle] on the rules from the index on. *)
Fixpoint handle_from (rule_index : nat) (rules : list rule) (req : request) : prog W result :=
  match rules with
  | [] => mret result_pass
  | r :: rules =>
      if negb (method_matches (method_pattern r) (method req))
      then handle_from (S rule_index) rules req else
      if negb (target_matches (target_kind r) (target_pattern r) (target req))
      then handle_from (S rule_index) rules req else
      apply_rule r rule_index req
  end.

Definition handle (rules : list rule) (req : request) : prog W result := handle_from 0 rules req.

Definition rate_limit_module (config_text : bytes) : outcome (cpp_module W) :=
  rules ← parse_rules config_text; Ret (handle rules).
End Module_.

(** ** The rule language *)

Definition key_text (kind : key_kind) (name : bytes) : bytes :=
  match kind with
  | kk_global => "global"
  | kk_header => "header:" ++ name
  end.

Definition wf_key_spec (kind : key_kind) (name : bytes) : Prop :=
  match kind with
  | kk_global => name = []
  | kk_header => name ≠ [] ∧ wf_field (key_text kk_header name)
  end.

Definition wf_rule (r : rule) : Prop :=
  (method_pattern r ≠ [] ∧ wf_field (method_pattern r)) ∧
  wf_target (target_kind r) (target_pattern r) ∧
  wf_key_spec (key_type r) (key_name r) ∧
  (1 ≤ limit r)%Z ∧ (1 ≤ window_seconds r ≤ 1000000000)%Z ∧ (limit r ≤ burst r ≤ int_max)%Z.

Definition fields_of (r : rule) : list bytes :=
  [method_pattern r; pattern_text (target_kind r) (target_pattern r);
   key_text (key_type r) (key_name r); to_string (limit r); to_string (window_seconds r);
   to_string (burst r)].

#[export] Instance rate_limit_syntax : RuleSyntax rule := {
  rule_key := "rule=";
  rule_parse := parse_rule_line;
  rule_fields := fields_of;
  rule_wf := wf_rule;
}.

Lemma parse_positive_int_range value what v :
  parse_positive_int value what = Ret v → (1 ≤ v ≤ int_max)%Z.
Proof.
  unfold parse_positive_int. destruct (bytes_eqb value []); [done|].
  intros H. inv_bind H. apply parse_int_digits_inv in Ha as (_ & _ & Hle).
  destruct (Z.leb_spec a 0); [done|]. injection H as <-. unfold int_max in *. lia.
Qed.

Lemma parse_positive_int_text what v :
  (1 ≤ v ≤ int_max)%Z → parse_positive_int (to_string v) what = Ret v.
Proof.
  intros Hv. destruct (to_string_value v) as (HF & Hval & Hne); [lia|].
  unfold parse_positive_int. rewrite (proj2 (bytes_eqb_nil _)) by done.
  unfold decimal_value in Hval. rewrite parse_int_digits_ret; [|lia|done|lia].
  rewrite Hval, bind_ret, (proj2 (Z.leb_gt _ _)) by lia. done.
Qed.

Lemma parse_window_range value w : parse_window_seconds value = Ret w → (1 ≤ w ≤ 1000000000)%Z.
Proof.
  unfold parse_window_seconds. destruct (bytes_eqb value []); [done|].
  intros H. inv_bind H. destruct a as [num mult]. inv_bind H.
  apply parse_positive_int_range in Ha0.
  assert (Hmult : (1 ≤ mult)%Z).
  { unfold window_parts in Ha. inv_bind Ha.
    repeat (destruct (_ || _); [inv_bind Ha; injection Ha as <- <-; lia|]).
    injection Ha as <- <-. lia. }
  destruct (Z.ltb_spec 1000000000 (a * mult)); [done|]. injection H as <-. nia.
Qed.

Lemma parse_window_text w :
  (1 ≤ w ≤ 1000000000)%Z → parse_window_seconds (to_string w) = Ret w.
Proof.
  intros Hw. destruct (to_string_value w) as (HF & _ & Hne); [lia|].
  unfold parse_window_seconds. rewrite (proj2 (bytes_eqb_nil _)) by done.
  assert (Hparts : window_parts (to_string w) = Ret (to_string w, 1%Z)).
  { unfold window_parts. destruct (exists_last Hne) as (ds & c & Heq). rewrite Heq in *.
    rewrite length_app. simpl. replace (length ds + 1 - 1) with (length ds) by lia.
    rewrite (char_at_ret _ _ c), bind_ret by (by rewrite lookup_app_r, Nat.sub_diag by lia).
    apply Forall_app in HF as [_ HF]. inversion HF as [|? ? Hc _]; subst.
    assert (Hd : ∀ c, is_digit c = true → negb ((Ascii.eqb c "s" || Ascii.eqb c "S")
      || (Ascii.eqb c "m" || Ascii.eqb c "M") || (Ascii.eqb c "h" || Ascii.eqb c "H")) = true)
      by by_char_impl.
    apply Hd, negb_true_iff, orb_false_iff in Hc as [Hc ->]. apply orb_false_iff in Hc as [-> ->]. done. }
  rewrite Hparts, bind_ret, parse_positive_int_text, bind_ret by (unfold int_max; lia).
  rewrite Z.mul_1_r, (proj2 (Z.ltb_ge _ _)) by lia. done.
Qed.

Lemma parse_key_spec_wf spec kind name :
  wf_field spec → parse_key_spec spec = Ret (kind, name) → wf_key_spec kind name.
Proof.
  intros Hf. unfold parse_key_spec.
  destruct (bytes_eqb spec "global") eqn:Hg; [by intros [= <- <-]|].
  destruct ((7 <? length spec) && starts_with "header:" spec) eqn:Hh.
  - apply andb_prop in Hh as [Hlen Hs]. apply Nat.ltb_lt in Hlen.
    apply starts_with_spec in Hs as [rest ->]. rewrite substr_from_ret by (simpl; lia).
    rewrite bind_ret. change (drop 7 _) with rest.
    destruct (bytes_eqb rest []) eqn:Hr; [done|]. intros [= <- <-].
    apply bytes_eqb_nil in Hr. by split.
  - destruct (bytes_eqb spec []) eqn:He; [done|]. case_bool_decide as Hc; [|done].
    intros [= <- <-]. apply bytes_eqb_nil in He. split; [done|].
    destruct Hf as ([Hhead Hlast] & Hbar & Hnl). split; [split|split].
    + intros c [= <-]. by vm_compute.
    + intros c Hlc. apply Hlast. destruct (exists_last He) as (p & x & ->).
      unfold key_text in Hlc. rewrite app_assoc, last_snoc in *. exact Hlc.
    + simpl. rewrite !not_elem_of_cons. by repeat split.
    + simpl. rewrite !not_elem_of_cons. by repeat split.
Qed.

Lemma parse_key_spec_text kind name :
  wf_key_spec kind name → parse_key_spec (key_text kind name) = Ret (kind, name).
Proof.
  destruct kind; [by intros ->|]. intros [Hne _]. unfold parse_key_spec, key_text.
  assert (Hs : starts_with "header:" (("header:" : bytes) ++ name) = true).
  { apply starts_with_spec. by eexists. }
  rewrite Hs. assert (Hg : bytes_eqb (("header:" : bytes) ++ name) "global" = false)
    by (apply bool_decide_eq_false_2; by destruct name).
  rewrite Hg. rewrite (proj2 (Nat.ltb_lt _ _)) by (destruct name; simpl; [done|lia]).
  cbn [andb]. rewrite substr_from_ret by (simpl; lia). rewrite bind_ret.
  change (drop 7 _) with name. by rewrite (proj2 (bytes_eqb_nil _)).
Qed.

#[local] Arguments parse_positive_int : simpl never.
#[local] Arguments parse_window_seconds : simpl never.
#[local] Arguments parse_key_spec : simpl never.

Lemma rate_limit_parse_rule_line_wf fields r :
  newline ∉ fields → parse_rule_line (("rule=" : bytes) ++ fields) = Ret r → wf_rule r.
Proof.
  intros Hnl. unfold parse_rule_line, split_fields. rewrite substr_from_ret by (simpl; lia).
  cbn [app]. rewrite bind_ret, split_fields_ret, bind_ret.
  change (drop 5 _) with fields. pose proof (fields_wf fields Hnl) as HF.
  destruct (strip is_space <$> split_on "|" fields) as [|m [|t [|k [|l [|w rest]]]]]; try done.
  intros H. cbn in H. unfold classify_target_pattern in H. rewrite !Forall_cons in HF.
  destruct HF as (Hfm & Hft & Hfk & _).
  destruct (ConfigText.classify_target_pattern t) as [kind target] eqn:Ht.
  destruct (bytes_eqb m []) eqn:Hm; [done|]. destruct (bytes_eqb target []) eqn:Htn; [done|].
  apply bytes_eqb_nil in Hm, Htn. inv_bind H. destruct a as [key name].
  inv_bind H. inv_bind H. inv_bind H. injection H as <-.
  apply parse_positive_int_range in Ha0. apply parse_window_range in Ha1.
  assert (Hburst : (1 ≤ a1 ≤ int_max)%Z).
  { destruct rest as [|[|c b] rest]; simpl in Ha2; [by injection Ha2 as <-|by injection Ha2 as <-|].
    by apply parse_positive_int_range in Ha2. }
  split; [done|]. split; [by apply (classify_wf t)|].
  split; [by apply (parse_key_spec_wf k)|]. cbn [limit window_seconds burst].
  destruct (Z.ltb_spec a1 a); lia.
Qed.

Lemma positive_field v : (1 ≤ v)%Z → wf_field (to_string v).
Proof. intros Hv. destruct (to_string_value v) as (? & _ & ?); [lia|]. by apply digits_wf_field. Qed.

Lemma rate_limit_fields_of_wf r : wf_rule r → fields_of r ≠ [] ∧ Forall wf_field (fields_of r).
Proof.
  intros ([_ Hm] & (_ & Ht & _) & Hk & Hl & Hw & Hb). split; [done|].
  unfold fields_of. repeat (apply Forall_cons; split); try done; try (apply positive_field; lia).
  destruct (key_type r); [|by destruct Hk]. by apply (bool_decide_eq_true_1 _).
Qed.

Lemma rate_limit_parse_rule_line_fields r :
  wf_rule r → parse_rule_line (rule_line "rule=" (fields_of r)) = Ret r.
Proof.
  intros Hwf. destruct (rate_limit_fields_of_wf r Hwf) as [Hne HF].
  destruct Hwf as ([Hm _] & Ht & Hk & Hl & Hw & Hb).
  unfold parse_rule_line, rule_line, split_fields.
  rewrite substr_from_ret by (simpl; lia). rewrite bind_ret.
  change (drop 5 _) with (join "|" (fields_of r)).
  rewrite split_fields_join, bind_ret by done.
  apply wf_target_text in Ht as Htt. destruct Ht as [Ht _]. apply parse_key_spec_text in Hk.
  destruct r as [m t k kt kn l w b]. unfold fields_of, classify_target_pattern in *.
  cbn [method_pattern target_pattern target_kind key_type key_name limit window_seconds burst] in *.
  apply bytes_eqb_nil in Hm, Ht. cbn. rewrite Htt, Hm, Ht. cbn. rewrite Hk. cbn.
  rewrite (parse_positive_int_text _ l) by lia. cbn. rewrite parse_window_text by lia. cbn.
  pose proof (λ what, parse_positive_int_text what b ltac:(lia)) as Hburst.
  destruct (to_string b) eqn:Hs; [by destruct (to_string_value b) as (_ & _ & ?); [lia|]|].
  rewrite Hburst. cbn. by rewrite (proj2 (Z.ltb_ge _ _)) by lia.
Qed.

#[export] Instance rate_limit_syntax_laws : RuleSyntaxLaws rule.
Proof.
  split.
  - split; [done|split; [|done]]. by apply (bool_decide_eq_true_1 _).
  - exact rate_limit_parse_rule_line_wf.
  - exact rate_limit_fields_of_wf.
  - exact rate_limit_parse_rule_line_fields.
Qed.

(** What a configuration gives: the well-formed lists that are not empty. *)
Lemma rate_limit_rules_image rules :
  ((∃ config_text, parse_rules config_text = Ret rules) ↔ Forall wf_rule rules ∧ rules ≠ []) ∧
  (Forall wf_rule rules ∧ rules ≠ [] → parse_rules (rules_text rules) = Ret rules).
Proof.
  assert (Hlines : ∀ text, parse_rules text
    = rules_parse text ≫= λ parsed, match parsed with
                                    | [] => fail "at least one rule= line is required"
                                    | _ => Ret parsed
                                    end) by done.
  destruct (rules_parse_image rules) as [_ Htext].
  assert (Hback : Forall wf_rule rules ∧ rules ≠ [] → parse_rules (rules_text rules) = Ret rules).
  { intros [HF Hne]. rewrite Hlines, (Htext HF). by destruct rules. }
  split; [split|exact Hback].
  - intros [text H]. rewrite Hlines in H. inv_bind H. apply rules_parse_wf in Ha.
    destruct a; [done|]. injection H as <-. done.
  - intros H. exists (rules_text rules). by apply Hback.
Qed.

(** ** Buckets stay within their bounds *)

Lemma nat_double n :
  (0 ≤ n ≤ int_max)%Z →
  nonneg (double_of_int n) ∧ is_finite (double_of_int n) ∧
  units (double_of_int n) = (n * one_units)%Z.
Proof. intros Hn. apply double_of_int_exact. unfold int_max in Hn. lia. Qed.

Definition wf_bucket (r : rule) (b : token_bucket) : Prop :=
  nonneg (tokens b) ∧ is_finite (tokens b) ∧ (units (tokens b) ≤ burst r * one_units)%Z ∧
  (0 ≤ last_refill b < 2 ^ 63)%Z.

Lemma one_units_pos : (0 < one_units)%Z.
Proof. unfold one_units. lia. Qed.

Lemma one_double : nonneg d_one ∧ is_finite d_one ∧ units d_one = one_units.
Proof.
  destruct (nat_double 1) as (? & ? & Hu); [unfold int_max; lia|]. split; [done|]. split; [done|].
  unfold d_one. rewrite Hu. lia.
Qed.

(** Tokens arrive at a rate between [2 ^ -30] and [2 ^ 31] per second. *)
Lemma rate_bounds r :
  wf_rule r →
  nonneg (rate_per_sec r) ∧ is_finite (rate_per_sec r) ∧
  (2 ^ 1044 ≤ units (rate_per_sec r) ≤ 2 ^ 1105)%Z.
Proof.
  intros (_ & _ & _ & Hl & Hw & Hb). unfold rate_per_sec.
  rewrite (proj2 (Z.ltb_lt 0 (window_seconds r))) by lia.
  destruct (nat_double (limit r)) as (Hnl & Hfl & Hul); [lia|].
  destruct (nat_double (window_seconds r)) as (Hnw & Hfw & Huw); [unfold int_max; lia|].
  pose proof one_units_pos as H1.
  destruct (ddiv_rounds _ _ Hnl Hfl Hnw Hfw) as [Hn Hround]; [nia|nia|rewrite Hul, Huw; unfold one_units; lia|].
  rewrite Hul, Huw in Hround.
  destruct (power_representable (-30)) as (c1 & Hc1 & Hf1 & Hu1); [lia|].
  destruct (power_representable 31) as (c2 & Hc2 & Hf2 & Hu2); [lia|].
  destruct (Hround c1 Hc1 Hf1) as [_ Hlow]. destruct (Hround c2 Hc2 Hf2) as [Hup _].
  rewrite Hu1 in Hlow. rewrite Hu2 in Hup. unfold one_units, int_max in *.
  destruct Hup as [Hfin Hup]; [lia|]. specialize (Hlow ltac:(lia)).
  split; [done|]. split; [done|]. split; [exact Hlow|exact Hup].
Qed.

Lemma dltb_zero x : nonneg x → dltb d_zero x = (0 <? units x)%Z.
Proof. intros Hx. exact (dltb_units d_zero x (nonneg_zero false) Hx). Qed.

(** The quotient of a negative number is not positive. *)
Lemma negative_quotient d y m e :
  (d < 0)%Z → y = S754_finite false m e → dltb d_zero (ddiv (double_of_int d) y) = false.
Proof.
  intros Hd ->. destruct d as [|p|p]; [done|done|].
  assert (Haux : ∀ m e l, dltb d_zero (binary_round_aux dprec demax true m e l) = false).
  { intros m' e' l. unfold binary_round_aux.
    destruct (shr_fexp _ _ m' e' l) as [mrs e1]. destruct (shr_fexp _ _ _ e1 _) as [mrs' e2].
    destruct (shr_m mrs'); [done| |done]. by destruct (_ <=? _)%Z. }
  unfold ddiv, double_of_int, binary_normalize, binary_round.
  destruct (shl_align p 0 _) as [mz ez]. specialize (Haux (Zpos mz) ez loc_Exact) as H.
  destruct (binary_round_aux dprec demax true (Zpos mz) ez loc_Exact) as [s|s| |s m' e'];
    [done| |done|].
  - destruct s; [done|]. by cbn in H.
  - destruct s; [|by cbn in H]. cbn [SFdiv xorb].
    destruct (SFdiv_core_binary dprec demax (Zpos m') e' (Zpos m) e) as [[q e2] l]. apply Haux.
Qed.

(** Time that passed is a nonnegative double, or counts as none. *)
Lemma elapsed_spec now last :
  (0 ≤ now < 2 ^ 63)%Z → (0 ≤ last < 2 ^ 63)%Z →
  ∃ e, elapsed_seconds now last = Ret e ∧
    (dltb d_zero e = true → nonneg e ∧ is_finite e) ∧ (now ≤ last → dltb d_zero e = false)%Z.
Proof.
  intros Hnow Hlast. unfold elapsed_seconds.
  rewrite (proj2 (Z.ltb_ge _ _)), (proj2 (Z.leb_gt _ _)) by lia. cbn [orb]. eexists. split; [done|].
  assert (Hbill : ∃ m e, double_of_int 1000000000 = S754_finite false m e) by (eexists _, _; by vm_compute).
  destruct (Z.lt_trichotomy (now - last) 0) as [Hneg|[Hzero|Hpos]].
  - destruct Hbill as (m & e & Hbill). rewrite (negative_quotient _ _ m e Hneg Hbill). done.
  - rewrite Hzero. by vm_compute.
  - split; [intros _|lia].
    destruct (double_of_int_rounds (now - last)) as [Hn Hround]; [lia|].
    destruct one_double as (Hn1 & Hf1 & Hu1). pose proof one_units_pos as H1.
    destruct (Hround d_one Hn1 Hf1) as [_ Hlow]. rewrite Hu1 in Hlow.
    destruct (power_representable 63) as (c & Hc & Hf & Hu); [lia|].
    destruct (Hround c Hc Hf) as [Hup _]. rewrite Hu in Hup. unfold one_units in *.
    destruct Hup as [Hfin Hup]; [lia|]. specialize (Hlow ltac:(lia)).
    destruct (nat_double 1000000000) as (Hnb & Hfb & Hub); [unfold int_max; lia|].
    unfold one_units in Hub.
    destruct (ddiv_rounds _ _ Hn Hfin Hnb Hfb) as [Hnq Hq]; [lia|lia|rewrite Hub; lia|].
    split; [done|]. destruct (Hq c Hc Hf) as [Hqup _]. rewrite Hu, Hub in Hqup.
    apply Hqup. lia.
Qed.

Lemma dmin_spec x y :
  nonneg x → nonneg y → is_finite y →
  nonneg (dmin x y) ∧ is_finite (dmin x y) ∧ units (dmin x y) = Z.min (units x) (units y).
Proof.
  intros Hx Hy Hf. pose proof (units_overflow y Hy Hf) as [_ Hmax]. unfold dmin.
  rewrite dltb_units by done. destruct (Z.ltb_spec (units y) (units x)) as [Hlt|Hge].
  - split; [done|]. split; [done|lia].
  - split; [done|]. split; [|lia]. destruct Hx as [s| |m e Hb]; [done| |done].
    exfalso. change (units (S754_infinity false)) with (2 ^ 2098)%Z in Hge. lia.
Qed.

Lemma dadd_nonneg x y : nonneg x → is_finite x → nonneg y → nonneg (dadd x y).
Proof.
  intros Hx Hfx Hy. destruct Hy as [s| |m e Hb].
  - by apply (dadd_rounds x (S754_zero s)); [..|constructor|].
  - destruct Hx as [s| |m e Hb]; [constructor|done|constructor].
  - by apply (dadd_rounds x (S754_finite false m e)); [..|constructor|].
Qed.

(** What a visit makes of the last bucket, before it looks for a token. *)
Lemma refill_spec r now b :
  wf_rule r → wf_bucket r b → (0 ≤ now < 2 ^ 63)%Z →
  ∃ b', refill r now b = Ret b' ∧ wf_bucket r b' ∧
    (last_refill b ≠ 0 → now ≤ last_refill b → b' = b)%Z ∧
    (last_refill b = 0 → b' = TokenBucket (double_of_int (burst r)) now)%Z.
Proof.
  intros Hr (Hn & Hf & Hu & Hlast) Hnow. pose proof (rate_bounds r Hr) as (Hnr & Hfr & _).
  destruct Hr as (_ & _ & _ & Hl & Hw & Hb).
  destruct (nat_double (burst r)) as (Hnb & Hfb & Hub); [lia|].
  unfold refill. destruct (Z.eqb_spec (last_refill b) 0) as [Hzero|Hne]; cbn [last_refill tokens].
  - destruct (elapsed_spec now now Hnow Hnow) as (e & -> & _ & He). rewrite bind_ret, He by done.
    eexists. split; [done|]. split; [|done]. split; [exact Hnb|]. split; [exact Hfb|].
    split; [|exact Hnow]. cbn [tokens]. lia.
  - destruct (elapsed_spec now (last_refill b) Hnow Hlast) as (e & -> & Hpos & Hle).
    rewrite bind_ret. destruct (dltb d_zero e) eqn:He.
    + destruct Hpos as [Hne' Hfe]; [done|].
      destruct (dmin_spec (dadd (tokens b) (dmul e (rate_per_sec r))) (double_of_int (burst r)))
        as (Hnm & Hfm & Hum); [|done|done|].
      { apply dadd_nonneg; [done|done|]. by apply dmul_nonneg. }
      eexists. split; [done|]. split; [|split; [|done]].
      * split; [exact Hnm|]. split; [exact Hfm|]. split; [|exact Hnow]. cbn [tokens]. lia.
      * intros _ Hle'. specialize (Hle Hle'). congruence.
    + eexists. split; [done|]. split; [by split|]. by split.
Qed.

(** The wait of a refused request is between a second and the window. *)
Lemma retry_after_spec r b :
  wf_rule r → wf_bucket r b → (units (tokens b) < one_units)%Z →
  ∃ retry, retry_after_seconds r b = Ret retry ∧ (1 ≤ retry ≤ window_seconds r)%Z.
Proof.
  intros Hr (Hn & Hf & _) Hlt. pose proof (rate_bounds r Hr) as (Hnr & Hfr & Hlow & Hhigh).
  destruct Hr as (_ & _ & _ & _ & Hw & _). unfold retry_after_seconds.
  rewrite dltb_zero, (proj2 (Z.ltb_lt _ _)) by first [done|lia].
  destruct one_double as (Hn1 & Hf1 & Hu1). pose proof (units_overflow _ Hn Hf) as [Ht0 _].
  pose proof (below_one _ Hn Hf Hlt) as Hbelow.
  destruct (dsub_rounds d_one (tokens b) Hn1 Hf1 Hn Hf) as [Hnn Hneed]; [lia|].
  destruct (Hneed d_one Hn1 Hf1) as [Hneed1 _].
  destruct (power_representable (-53)) as (c & Hc & Hfc & Huc); [lia|].
  destruct (Hneed c Hc Hfc) as [_ Hneed2]. rewrite Hu1 in Hneed1, Hneed2. rewrite Huc in Hneed2.
  destruct Hneed1 as [Hfn Hneed1]; [lia|]. unfold one_units in *. specialize (Hneed2 ltac:(lia)).
  set (needed := dsub d_one (tokens b)) in *.
  destruct (power_representable 30) as (c2 & Hc2 & Hf2 & Hu2); [lia|].
  destruct (ddiv_rounds needed (rate_per_sec r) Hnn Hfn Hnr Hfr) as [Hns Hsecs]; [lia|lia|lia|].
  destruct (Hsecs c2 Hc2 Hf2) as [Hup _]. rewrite Hu2 in Hup.
  destruct Hup as [Hfs Hup]; [nia|].
  set (secs := ddiv needed (rate_per_sec r)) in *.
  assert (Hk : nonneg d_0_999 ∧ is_finite d_0_999 ∧ (units d_0_999 ≤ 2 ^ 1074)%Z).
  { split; [|split; [done|by vm_compute]].
    apply (nonneg_finite 8998192055486251 (-53)). by vm_compute. }
  destruct Hk as (Hnk & Hfk & Huk).
  destruct (dadd_rounds secs d_0_999 Hns Hfs Hnk Hfk) as [Hna Hsum].
  destruct (nat_double int_max) as (Hni & Hfi & Hui); [unfold int_max; lia|].
  destruct (Hsum _ Hni Hfi) as [Hsum1 _]. rewrite Hui in Hsum1. unfold int_max, one_units in Hsum1.
  destruct Hsum1 as [Hfa Hua]; [lia|].
  rewrite int_of_double_ret; [|done|done|].
  - rewrite bind_ret. cbn zeta. eexists. split; [done|].
    generalize (units (dadd secs d_0_999) / one_units)%Z. intros q.
    destruct (Z.ltb_spec q 1) as [Hq|Hq].
    + destruct (Z.ltb_spec (window_seconds r) 1); lia.
    + destruct (Z.ltb_spec (window_seconds r) q); lia.
  - unfold int_max, one_units. apply Z.div_le_upper_bound; lia.
Qed.

(** One visit of a subject: the bucket stays within its bounds, a token is taken
    when there is one, and otherwise the caller is told to wait. *)
Lemma consume_spec r now b :
  wf_rule r → wf_bucket r b → (0 ≤ now < 2 ^ 63)%Z →
  ∃ full b' refused, refill r now b = Ret full ∧ consume r now b = Ret (b', refused) ∧
    wf_bucket r full ∧ wf_bucket r b' ∧
    match refused with
    | None => (one_units ≤ units (tokens full))%Z
    | Some retry => (units (tokens full) < one_units)%Z ∧ b' = full ∧
                    (1 ≤ retry ≤ window_seconds r)%Z
    end.
Proof.
  intros Hr Hb Hnow. destruct (refill_spec r now b Hr Hb Hnow) as (full & Hfull & Hwf & _).
  exists full. unfold consume. rewrite Hfull, bind_ret.
  destruct one_double as (Hn1 & Hf1 & Hu1). pose proof Hwf as (Hn & Hf & Hu & Hlast).
  rewrite dleb_units, Hu1 by done. destruct (Z.leb_spec one_units (units (tokens full))) as [Hle|Hlt].
  - eexists _, None. split; [done|]. split; [done|]. split; [done|]. split; [|done].
    destruct (dsub_rounds (tokens full) d_one Hn Hf Hn1 Hf1) as [Hns Hsub]; [lia|].
    destruct (Hsub _ Hn Hf) as [Hup _]. destruct Hup as [Hfs Hus]; [pose proof one_units_pos; lia|].
    split; [exact Hns|]. split; [exact Hfs|]. split; [cbn [tokens]; lia|exact Hlast].
  - destruct (retry_after_spec r full Hr Hwf Hlt) as (retry & Hretry & Hrange).
    rewrite Hretry, bind_ret. eexists _, (Some retry). split; [done|]. split; [done|].
    split; [exact Hwf|]. split; [exact Hwf|]. done.
Qed.

(** ** The burst *)

(** Visits of one subject at the given readings of the clock: who is admitted. *)
Fixpoint visits (r : rule) (nows : list Z) (b : token_bucket)
    : outcome (list bool * token_bucket) :=
  match nows with
  | [] => Ret ([], b)
  | now :: nows =>
      '(b, refused) ← consume r now b;
      '(admitted, b) ← visits r nows b;
      Ret (bool_decide (refused = None) :: admitted, b)
  end.

(** Without a refill, a bucket of [k] tokens admits [k] visits. *)
Lemma visits_frozen r now nows b k :
  wf_rule r → wf_bucket r b → last_refill b = now → (0 < now)%Z → (0 ≤ k)%Z →
  units (tokens b) = (k * one_units)%Z → Forall (λ t, 0 ≤ t ≤ now)%Z nows →
  ∃ b', visits r nows b
        = Ret ((λ i, bool_decide (Z.of_nat i < k)%Z) <$> seq 0 (length nows), b').
Proof.
  intros Hr Hb Hlast Hnow Hk Hu HF. revert b k Hb Hlast Hk Hu.
  induction HF as [|t nows Ht _ IH]; intros b k Hb Hlast Hk Hu; [by exists b|].
  assert (Ht' : (0 ≤ t < 2 ^ 63)%Z) by (destruct Hb as (_ & _ & _ & ?); lia).
  destruct (refill_spec r t b Hr Hb Ht') as (b1 & Hrefill & _ & Hsame & _).
  rewrite Hsame in Hrefill by lia.
  destruct (consume_spec r t b Hr Hb Ht') as (full & b' & refused & Hfull & Hc & _ & Hwf' & Hcase).
  rewrite Hrefill in Hfull. injection Hfull as <-. cbn [visits]. rewrite Hc, bind_ret.
  pose proof one_units_pos as H1. pose proof Hb as (Hn & Hf & Hub & _).
  destruct refused as [retry|].
  - destruct Hcase as (Hlt & -> & _). assert (k = 0)%Z as -> by nia.
    destruct (IH b 0%Z Hb Hlast Hk Hu) as [b2 Hv]. rewrite Hv, bind_ret. exists b2.
    cbn [length seq]. rewrite fmap_cons, <- fmap_S_seq, <- list_fmap_compose. do 3 f_equal.
    apply list_fmap_ext. intros i x _. unfold compose. apply bool_decide_ext. lia.
  - assert (Hk1 : (1 ≤ k)%Z) by nia. unfold consume in Hc. rewrite Hrefill, bind_ret in Hc.
    destruct one_double as (Hn1 & Hf1 & Hu1).
    rewrite dleb_units, Hu1, (proj2 (Z.leb_le _ _)) in Hc by done. injection Hc as <-.
    assert (Hkb : (k ≤ burst r)%Z) by nia. destruct Hr as (Hr1 & Hr2 & Hr3 & Hl & Hw & Hburst).
    destruct (dsub_rounds (tokens b) d_one Hn Hf Hn1 Hf1) as [Hns Hsub]; [lia|].
    destruct (nat_double (k - 1)) as (Hnk & Hfk & Huk); [lia|].
    destruct (rounds_representable (dsub (tokens b) d_one) (double_of_int (k - 1))
      (units (tokens b) - units d_one) 1) as [Hfs Hus]; [lia|by split|done|done|lia|].
    rewrite Huk in Hus.
    destruct (IH _ (k - 1)%Z Hwf' Hlast ltac:(lia) Hus) as [b2 Hv]. rewrite Hv, bind_ret. exists b2.
    cbn [length seq]. rewrite fmap_cons, <- fmap_S_seq, <- list_fmap_compose.
    rewrite (bool_decide_eq_true_2 (None = None)) by done.
    rewrite (bool_decide_eq_true_2 (Z.of_nat 0 < k)%Z) by lia. do 3 f_equal.
    apply list_fmap_ext. intros i x _. unfold compose. apply bool_decide_ext. lia.
Qed.

Lemma new_bucket_wf r : wf_rule r → wf_bucket r new_bucket.
Proof.
  intros (_ & _ & _ & Hl & _ & Hb). split; [constructor|]. split; [done|].
  pose proof one_units_pos. split; cbn; [nia|lia].
Qed.

(** C21: a new subject is admitted exactly [burst] times, and refused from then
    on, as long as no later reading of the clock exceeds the first: the
    subtractions on the tokens are exact. *)
Theorem rate_limit_burst r now nows :
  wf_rule r → (0 < now < 2 ^ 63)%Z → Forall (λ t, 0 ≤ t ≤ now)%Z nows →
  ∃ b, visits r (now :: nows) new_bucket
       = Ret ((λ i, bool_decide (Z.of_nat i < burst r)%Z) <$> seq 0 (length (now :: nows)), b).
Proof.
  intros Hr Hnow HF. pose proof (new_bucket_wf r Hr) as Hnew.
  destruct (refill_spec r now new_bucket Hr Hnew) as (b & Hrefill & Hb & _ & Hfirst); [lia|].
  specialize (Hfirst eq_refl). pose proof Hr as (_ & _ & _ & Hl & _ & Hburst).
  destruct (nat_double (burst r)) as (_ & _ & Hu); [lia|].
  assert (Hlast : last_refill b = now) by by subst b.
  assert (Hub : units (tokens b) = (burst r * one_units)%Z) by by subst b.
  destruct (visits_frozen r now (now :: nows) b (burst r)) as [b' Hv]; [done|done|done|lia|lia|done| |].
  { constructor; [lia|done]. }
  exists b'. rewrite <- Hv. cbn [visits]. f_equal. unfold consume. rewrite Hrefill.
  destruct (refill_spec r now b Hr Hb) as (b1 & Hrefill1 & _ & Hsame & _); [lia|].
  rewrite Hsame in Hrefill1 by lia. by rewrite Hrefill1.
Qed.

(** ** The module *)

Lemma state_key_inj i j s t : make_state_key i s = make_state_key j t → i = j ∧ s = t.
Proof.
  intros Heq. unfold make_state_key in Heq.
  destruct (to_string_value (Z.of_nat i)) as (Hi & Hvi & _); [lia|].
  destruct (to_string_value (Z.of_nat j)) as (Hj & Hvj & _); [lia|].
  assert (Hno : ∀ ds, Forall (λ c, is_digit c = true) ds → ":"%char ∉ ds).
  { intros ds HF Hin. rewrite Forall_forall in HF. by specialize (HF _ Hin). }
  pose proof (f_equal (split_on ":") Heq) as Hs. cbn [app of_string String.list_ascii_of_string] in Hs.
  rewrite !split_on_app in Hs by by apply Hno. injection Hs as Hs _.
  rewrite Hs in Heq. apply app_inv_head in Heq. injection Heq as ->.
  split; [|done]. rewrite Hs in Hvi. apply Nat2Z.inj. congruence.
Qed.

(** The buckets of the subjects of every rule are within the rule's bounds. *)
Definition wf_store (rules : list rule) (m : buckets) : Prop :=
  ∀ i subject r b, rules !! i = Some r → m !! make_state_key i subject = Some b → wf_bucket r b.

Lemma wf_store_empty rules : wf_store rules ∅.
Proof. intros i s r b _. by rewrite lookup_empty. Qed.

Lemma wf_store_insert rules m i subject r b :
  rules !! i = Some r → wf_store rules m → wf_bucket r b →
  wf_store rules (<[make_state_key i subject := b]> m).
Proof.
  intros Hi Hm Hb j s r' b' Hj Hlook.
  destruct (decide (make_state_key i subject = make_state_key j s)) as [Heq|Hne].
  - rewrite Heq, lookup_insert_eq in Hlook. injection Hlook as <-.
    apply state_key_inj in Heq as [-> _]. congruence.
  - rewrite lookup_insert_ne in Hlook by done. by apply (Hm j s).
Qed.

(** The requests a rule is about. *)
Definition rule_applies (r : rule) (req : request) : bool :=
  method_matches (method_pattern r) (method req)
  && target_matches (target_kind r) (target_pattern r) (target req).

(** The answers of a rule: admitted with [k] tokens left, or refused. *)
Definition admitted_result (r : rule) (k : Z) : result :=
  Result mo_pass None
    [ HeaderField "X-RateLimit-Limit" (to_string (limit r));
      HeaderField "X-RateLimit-Remaining" (to_string k);
      HeaderField "X-RateLimit-Reset" (to_string (window_seconds r)) ].

Definition refused_response (r : rule) (retry : Z) : response :=
  with_headers (text 429 "Too Many Requests" (("rate limit exceeded" : bytes) ++ [newline]))
    [ HeaderField "X-RateLimit-Limit" (to_string (limit r));
      HeaderField "Retry-After" (to_string retry);
      HeaderField "X-RateLimit-Reset" (to_string (window_seconds r)) ].

Lemma to_string_valid z : valid_header_value (to_string z) = true.
Proof. destruct (to_string_no_break z). by apply no_break_valid_value. Qed.

Lemma make_rate_limit_response_ret r retry :
  (1 ≤ retry)%Z →
  make_rate_limit_response (limit r) (window_seconds r) retry = Ret (refused_response r retry).
Proof.
  intros Hretry. unfold make_rate_limit_response.
  rewrite set_header_new by first [done|apply to_string_valid|by repeat constructor].
  rewrite bind_ret, (proj2 (Z.ltb_lt _ _)) by lia.
  rewrite set_header_new by first [done|apply to_string_valid|by repeat constructor].
  rewrite bind_ret.
  rewrite set_header_new by first [done|apply to_string_valid|by repeat constructor]. done.
Qed.

Section Store.
Context {W : Type} `{!RateWorld W}.

(** One locked section of some request. *)
Definition section (rules : list rule) (w w' : W) : Prop :=
  ∃ i r subject, rules !! i = Some r ∧ w' = (check_and_consume r i subject w).2.

(** The clock does not go below its epoch and leaves the buckets alone; between
    the sections of a request, other threads run sections. *)
Class RateWorldLaws (rules : list rule) : Prop := {
  get_set_buckets m w : get_buckets (set_buckets m w) = m;
  steady_now_range w : (0 ≤ (steady_now w).1 < 2 ^ 63)%Z;
  steady_now_buckets w : get_buckets (steady_now w).2 = get_buckets w;
  other_sections_run w : rtc (section rules) w (other_sections w);
}.

Context (rules : list rule) `{!RateWorldLaws rules} (Hrules : Forall wf_rule rules).

Lemma check_and_consume_spec i r subject w :
  rules !! i = Some r → wf_store rules (get_buckets w) →
  ∃ o, (check_and_consume r i subject w).1 = Ret o ∧
    (o = None ∨ ∃ retry, o = Some (refused_response r retry) ∧ 1 ≤ retry ≤ window_seconds r)%Z ∧
    wf_store rules (get_buckets (check_and_consume r i subject w).2).
Proof.
  intros Hi Hm. unfold check_and_consume.
  pose proof (steady_now_range w) as Hnow. pose proof (steady_now_buckets w) as Hsame.
  destruct (steady_now w) as [now w1]. cbn [fst snd] in Hnow, Hsame. rewrite Hsame.
  assert (Hr : wf_rule r) by (rewrite Forall_forall in Hrules; by eapply Hrules, list_elem_of_lookup_2).
  set (b := default new_bucket (get_buckets w !! make_state_key i subject)).
  assert (Hb : wf_bucket r b).
  { unfold b. destruct (get_buckets w !! make_state_key i subject) as [b'|] eqn:Hl;
      [by apply (Hm i subject)|by apply new_bucket_wf]. }
  destruct (consume_spec r now b Hr Hb Hnow) as (full & b' & refused & _ & Hc & _ & Hb' & Hcase).
  rewrite Hc. cbn [fst snd]. rewrite get_set_buckets.
  destruct refused as [retry|].
  - destruct Hcase as (_ & _ & Hretry). rewrite make_rate_limit_response_ret by lia.
    eexists. split; [done|]. split; [right; by exists retry|]. by apply (wf_store_insert _ _ _ _ r).
  - exists None. split; [done|]. split; [by left|]. by apply (wf_store_insert _ _ _ _ r).
Qed.

Lemma sections_wf w w' :
  rtc (section rules) w w' → wf_store rules (get_buckets w) → wf_store rules (get_buckets w').
Proof.
  induction 1 as [w|w w1 w2 (i & r & subject & Hi & ->) _ IH]; [done|]. intros Hm.
  apply IH. by destruct (check_and_consume_spec i r subject w Hi Hm) as (_ & _ & _ & ?).
Qed.

Lemma remaining_text_spec i r subject w :
  rules !! i = Some r → wf_store rules (get_buckets w) →
  ∃ k, remaining_text r i subject w = (Ret (to_string k), w) ∧ (0 ≤ k ≤ burst r)%Z.
Proof.
  intros Hi Hm. unfold remaining_text.
  assert (Hr : wf_rule r) by (rewrite Forall_forall in Hrules; by eapply Hrules, list_elem_of_lookup_2).
  destruct Hr as (_ & _ & _ & Hl & _ & Hb).
  destruct (get_buckets w !! make_state_key i subject) as [b|] eqn:Hlook;
    [|exists (burst r); split; [done|lia]].
  destruct (Hm i subject r b Hi Hlook) as (Hn & Hf & Hu & _).
  pose proof (units_overflow _ Hn Hf) as [H0 _]. pose proof one_units_pos as H1.
  assert (Hq : (0 ≤ units (tokens b) / one_units ≤ burst r)%Z).
  { split; [by apply Z.div_pos|]. apply Z.div_le_upper_bound; lia. }
  rewrite int_of_double_ret by first [done|lia]. rewrite bind_ret.
  rewrite (proj2 (Z.ltb_ge _ _)) by lia. by eexists.
Qed.

Lemma handle_from_first n rs req w :
  handle_from n rs req w
  = match list_find (λ r, rule_applies r req = true) rs with
    | None => (Ret result_pass, w)
    | Some (i, r) => apply_rule r (n + i) req w
    end.
Proof.
  revert n. induction rs as [|r rs IH]; intros n; [done|]. cbn [handle_from list_find].
  destruct (decide (rule_applies r req = true)) as [Ha|Ha].
  - apply andb_prop in Ha as [-> ->]. by rewrite Nat.add_0_r.
  - assert (Hskip : (if negb (method_matches (method_pattern r) (method req))
        then handle_from (S n) rs req
        else if negb (target_matches (target_kind r) (target_pattern r) (target req))
             then handle_from (S n) rs req
             else apply_rule r n req) = handle_from (S n) rs req).
    { unfold rule_applies in Ha. by destruct (method_matches _ _), (target_matches _ _ _). }
    rewrite Hskip, IH. destruct (list_find _ rs) as [[i r']|]; [|done]. cbn.
    by rewrite Nat.add_succ_r.
Qed.

(** The answer of a rule. *)
Lemma apply_rule_answers i r req w :
  rules !! i = Some r → wf_store rules (get_buckets w) →
  ∃ res w', apply_rule r i req w = (Ret res, w') ∧ wf_store rules (get_buckets w') ∧
    ((∃ k, res = admitted_result r k ∧ 0 ≤ k ≤ burst r)%Z ∨
     (∃ retry, res = result_respond (refused_response r retry) ∧
               1 ≤ retry ≤ window_seconds r)%Z).
Proof.
  intros Hi Hm. unfold apply_rule.
  destruct (check_and_consume_spec i r (extract_subject req r) w Hi Hm) as (o & Ho & Hcase & Hm1).
  destruct (check_and_consume r i (extract_subject req r) w) as [o' w1] eqn:Hcheck.
  cbn [fst snd] in Ho, Hm1. subst o'. rewrite (prog_bind_ret _ _ _ _ _ Hcheck).
  destruct Hcase as [->|(retry & -> & Hretry)].
  - assert (Hm2 : wf_store rules (get_buckets (other_sections w1)))
      by (eapply sections_wf; [apply other_sections_run|done]).
    destruct (remaining_text_spec i r (extract_subject req r) (other_sections w1) Hi Hm2)
      as (k & Hrem & Hk).
    erewrite prog_bind_ret by reflexivity. rewrite (prog_bind_ret _ _ _ _ _ Hrem).
    eexists _, _. split; [done|]. split; [exact Hm2|]. left. by exists k.
  - eexists _, _. split; [done|]. split; [exact Hm1|]. right. by exists retry.
Qed.

(** C22: whatever the other threads do between its two sections, a request is
    decided by the first rule that covers it: it passes with a count of the
    remaining tokens between zero and the burst, or it is refused with 429 and a
    wait between one second and the window; no conversion or subtraction is
    undefined, and the buckets of every subject stay between zero and the burst
    of their rule. *)
Theorem rate_limit_bounds req w :
  wf_store rules (get_buckets w) →
  ∃ res w', handle rules req w = (Ret res, w') ∧ wf_store rules (get_buckets w') ∧
    match list_find (λ r, rule_applies r req = true) rules with
    | None => res = result_pass ∧ w' = w
    | Some (_, r) =>
        (∃ k, res = admitted_result r k ∧ 0 ≤ k ≤ burst r)%Z ∨
        (∃ retry, res = result_respond (refused_response r retry) ∧
                  1 ≤ retry ≤ window_seconds r)%Z
    end.
Proof.
  intros Hm. unfold handle. rewrite handle_from_first.
  destruct (list_find _ rules) as [[i r]|] eqn:Hfind; [|by exists result_pass, w].
  apply list_find_Some in Hfind as (Hi & _ & _). cbn [Nat.add]. by apply apply_rule_answers.
Qed.
End Store.

(** *** A module with one client *)

(** The buckets, and a clock that advances with every reading. *)
Module ClockWorld.
Record t := World { store : buckets; clock : Z }.

#[global] Instance api : RateWorld t := {|
  get_buckets := store;
  set_buckets m w := World m (clock w);
  steady_now w := ((clock w mod 2 ^ 63)%Z, World (store w) (clock w + 1000000)%Z);
  other_sections w := w;
|}.

#[global] Instance laws rules : RateWorldLaws rules.
Proof.
  split; [done| |done|].
  - intros w. by apply Z.mod_pos_bound.
  - intros w. apply rtc_refl.
Qed.
End ClockWorld.

Definition sample_config : bytes :=
  "# name" ++ [newline] ++ "rule=*|/api/*|header:X-API-Key|2|1m".
Definition sample_rule : rule := Rule "*" "/api/" pk_prefix kk_header "X-API-Key" 2 60 2.
Definition sample_request : request :=
  Request 1 1 "GET" "/api/x" [HeaderField "x-api-key" "alice"].
Definition sample_world : ClockWorld.t := ClockWorld.World ∅ 5000000000.

Lemma sample_rule_wf : wf_rule sample_rule.
Proof.
  assert (H : parse_rules sample_config = Ret [sample_rule]) by (vm_compute; reflexivity).
  destruct (rate_limit_rules_image [sample_rule]) as [[Hi _] _].
  destruct Hi as [HF _]; [by eexists|]. by inversion HF.
Qed.

Lemma rate_limit_bounds_witness :
  ∃ res w', handle [sample_rule] sample_request sample_world = (Ret res, w') ∧
    (∃ k, res = admitted_result sample_rule k ∧ 0 ≤ k ≤ 2)%Z.
Proof.
  destruct (rate_limit_bounds [sample_rule] (proj2 (Forall_singleton _ _) sample_rule_wf)
    sample_request sample_world) as (res & w' & Hh & _ & Hcase).
  - apply wf_store_empty.
  - exists res, w'. split; [exact Hh|]. exists 1%Z. vm_compute in Hh. injection Hh as <- _.
    split; [vm_compute; reflexivity|lia].
Defined.

Lemma rate_limit_burst_witness :
  ∃ b, visits sample_rule [5000000000; 5000000000; 4000000000]%Z new_bucket
       = Ret ([true; true; false], b).
Proof.
  destruct (rate_limit_burst sample_rule 5000000000 [5000000000; 4000000000]%Z sample_rule_wf)
    as [b Hb].
  - lia.
  - repeat constructor; lia.
  - exists b. rewrite Hb. reflexivity.
Defined.
