(* ===== verification/Base64.v ===== *)
(** * The base64url decoder ([lib/jwt_auth/jwt_auth_module.cpp])

    [base64url_decode] shifts the six bits of every char into an [int] that is
    never masked, and takes bytes off its low end.  It is shown to cut the bit
    string of the alphabet chars into bytes, whatever the other chars are. *)

From S2P Require Import Prelude.
From S2P Require Import StringView.

#[local] Open Scope Z_scope.

(** ** The decoder *)

(** The rows of [table] that hold values; the rest is [-1]. *)
Definition table : list Z :=
  replicate 43 (-1) ++ [62; -1; -1; -1; 63]
  ++ [52; 53; 54; 55; 56; 57; 58; 59; 60; 61] ++ replicate 7 (-1)
  ++ seqZ 0 26 ++ replicate 6 (-1) ++ seqZ 26 26 ++ replicate 133 (-1).

Definition table_at (c : ascii) : outcome Z :=
  match table !! Z.to_nat (code c) with
  | Some b => Ret b
  | None => Undef
  end.

Definition in_alphabet (c : ascii) : bool :=
  Ascii.eqb c "-" || Ascii.eqb c "_" || Ascii.eqb c "+" || Ascii.eqb c "/"
  || in_range "0" "9" c || in_range "A" "Z" c || in_range "a" "z" c.

(** [val << 6] on a 32-bit [int]: the value modulo [2 ^ 32]. *)
Definition wrap32 (z : Z) : Z := (z + 2 ^ 31) mod 2 ^ 32 - 2 ^ 31.

(** The loop over the chars, with [val], [valb] and [out]. *)
Fixpoint decode_from (input : bytes) (val valb : Z) (out : bytes) : outcome bytes :=
  match input with
  | [] => Ret out
  | c :: input =>
      if in_alphabet c then
        b ← (if Ascii.eqb c "-" then table_at "+"
             else if Ascii.eqb c "_" then table_at "/"
             else table_at c);
        if b <? 0 then decode_from input val valb out else
        let val := wrap32 (val * 2 ^ 6) + b in
        if int_max <? val then Undef else
        let valb := valb + 6 in
        if 0 <=? valb then
          decode_from input val (valb - 8) (out ++ [char_of (Z.land (Z.shiftr val valb) 255)])
        else decode_from input val valb out
      else decode_from input val valb out
  end.

Definition base64url_decode (input : bytes) : outcome bytes := decode_from input 0 (-8) [].

(** ** Bits *)

(** The value of a bit string, the first bit the most significant. *)
Definition bits_value (bs : list bool) : Z := foldl (λ v b, 2 * v + Z.b2z b) 0 bs.

(** The [n] low bits of a value. *)
Fixpoint to_bits (n : nat) (v : Z) : list bool :=
  match n with
  | O => []
  | S n => to_bits n (v / 2) ++ [Z.odd v]
  end.

(** Cutting into bytes; what is left over is dropped. *)
Fixpoint bytes_of_bits (bs : list bool) : bytes :=
  match bs with
  | a :: b :: c :: d :: e :: f :: g :: h :: rest =>
      char_of (bits_value [a; b; c; d; e; f; g; h]) :: bytes_of_bits rest
  | _ => []
  end.

(** The value of a char of either base64 alphabet. *)
Definition sextet (c : ascii) : option Z :=
  if in_range "A" "Z" c then Some (code c - code "A")
  else if in_range "a" "z" c then Some (code c - code "a" + 26)
  else if in_range "0" "9" c then Some (code c - code "0" + 52)
  else if Ascii.eqb c "-" || Ascii.eqb c "+" then Some 62
  else if Ascii.eqb c "_" || Ascii.eqb c "/" then Some 63
  else None.

Definition sextet_bits (input : bytes) : list bool :=
  mjoin ((λ v, to_bits 6 v) <$> omap sextet input).

Lemma foldl_bits_value bs v :
  foldl (λ v b, 2 * v + Z.b2z b) v bs = v * 2 ^ Z.of_nat (length bs) + bits_value bs.
Proof.
  unfold bits_value. revert v. induction bs as [|b bs IH]; intros v; cbn [foldl length]; [lia|].
  rewrite IH, (IH (2 * 0 + Z.b2z b)), Nat2Z.inj_succ, Z.pow_succ_r by lia. lia.
Qed.

Lemma bits_value_app a b : bits_value (a ++ b) = bits_value a * 2 ^ Z.of_nat (length b) + bits_value b.
Proof. unfold bits_value at 1. rewrite foldl_app. apply foldl_bits_value. Qed.

Lemma bits_value_range bs : 0 ≤ bits_value bs < 2 ^ Z.of_nat (length bs).
Proof.
  induction bs as [|b bs IH] using rev_ind; [done|]. rewrite bits_value_app, length_app, Nat2Z.inj_add.
  cbn [length]. rewrite Z.pow_add_r by lia. unfold bits_value at 2 4. destruct b; cbn; lia.
Qed.

Lemma length_to_bits n v : length (to_bits n v) = n.
Proof. revert v. induction n as [|n IH]; intros v; [done|]. cbn [to_bits]. rewrite length_app, IH. simpl. lia. Qed.

Lemma bits_value_to_bits n v : bits_value (to_bits n v) = v mod 2 ^ Z.of_nat n.
Proof.
  revert v. induction n as [|n IH]; intros v; [by rewrite Z.mod_1_r|].
  cbn [to_bits]. rewrite bits_value_app, IH, Nat2Z.inj_succ, Z.pow_succ_r by lia.
  unfold bits_value. cbn [foldl length]. rewrite Z.rem_mul_r by lia.
  rewrite Zmod_odd. destruct (Z.odd v); cbn; lia.
Qed.

Lemma bits_value_inj a b : length a = length b → bits_value a = bits_value b → a = b.
Proof.
  revert b. induction a as [|x a IH] using rev_ind; intros b Hlen Hv.
  { by destruct b. }
  destruct b as [|y b _] using rev_ind; [rewrite length_app in Hlen; simpl in Hlen; lia|].
  rewrite !length_app in Hlen. simpl in Hlen. rewrite !bits_value_app in Hv.
  cbn [length] in Hv. unfold bits_value at 2 4 in Hv. cbn [foldl] in Hv.
  assert (x = y) as -> by (destruct x, y; cbn in Hv; try done; lia).
  rewrite (IH b) by lia. done.
Qed.

Lemma to_bits_value bs : to_bits (length bs) (bits_value bs) = bs.
Proof.
  apply bits_value_inj; [apply length_to_bits|]. rewrite bits_value_to_bits.
  apply Z.mod_small, bits_value_range.
Qed.

Lemma bytes_of_bits_byte bs rest :
  length bs = 8%nat → bytes_of_bits (bs ++ rest) = char_of (bits_value bs) :: bytes_of_bits rest.
Proof.
  intros H. do 8 (destruct bs as [|? bs]; [done|]). by destruct bs.
Qed.

Lemma bytes_of_bits_short bs : (length bs < 8)%nat → bytes_of_bits bs = [].
Proof. intros H. do 8 (destruct bs as [|? bs]; [done|]). simpl in H. lia. Qed.

(** ** The loop is the cut *)

(** The value the loop reads for a char. *)
Definition alphabet_value (c : ascii) : outcome Z :=
  if Ascii.eqb c "-" then table_at "+" else if Ascii.eqb c "_" then table_at "/" else table_at c.

Lemma alphabet_sextet c :
  if in_alphabet c then ∃ v, alphabet_value c = Ret v ∧ sextet c = Some v ∧ 0 ≤ v < 64
  else sextet c = None.
Proof.
  assert (H : (if in_alphabet c then
                 match alphabet_value c, sextet c with
                 | Ret a, Some v => (a =? v) && (0 <=? v) && (v <? 64)
                 | _, _ => false
                 end
               else match sextet c with None => true | _ => false end) = true)
    by by_chars c.
  destruct (in_alphabet c), (sextet c) as [v|]; try done.
  - destruct (alphabet_value c) as [a| | |]; try done. exists v. rewrite !andb_true_iff in H.
    split_and!; [f_equal; lia|done|lia|lia].
  - by destruct (alphabet_value c).
Qed.

Lemma wrap32_mod z n : (n ≤ 32)%nat → wrap32 z mod 2 ^ Z.of_nat n = z mod 2 ^ Z.of_nat n.
Proof.
  intros Hn. unfold wrap32.
  set (k := 2 ^ (32 - Z.of_nat n)).
  assert (Hk : 2 ^ 32 = k * 2 ^ Z.of_nat n)
    by (unfold k; rewrite <- Z.pow_add_r by lia; f_equal; lia).
  rewrite (Z.mod_eq (z + 2 ^ 31)) by lia. set (q := (z + 2 ^ 31) / 2 ^ 32).
  replace (z + 2 ^ 31 - 2 ^ 32 * q - 2 ^ 31) with (z + (- (k * q)) * 2 ^ Z.of_nat n)
    by (rewrite Hk; ring).
  by rewrite Z.mod_add by (pose proof (Z.pow_pos_nonneg 2 (Z.of_nat n)); lia).
Qed.

(** Adding six bits to the low end of [val] does not overflow. *)
Lemma shift_in_range val v : 0 ≤ v < 64 → wrap32 (val * 2 ^ 6) + v ≤ int_max.
Proof.
  intros Hv. unfold wrap32, int_max.
  pose proof (Z.mod_pos_bound (val * 2 ^ 6 + 2 ^ 31) (2 ^ 32) ltac:(lia)).
  rewrite (Z.mod_eq (val * 2 ^ 6 + 2 ^ 31)) in * by lia. set (q := (val * 2 ^ 6 + 2 ^ 31) / 2 ^ 32) in *. lia.
Qed.

Lemma shift_in_bits val v pend n :
  val mod 2 ^ Z.of_nat (length pend) = bits_value pend → 0 ≤ v < 64 →
  n = (length pend + 6)%nat → (n ≤ 32)%nat →
  (wrap32 (val * 2 ^ 6) + v) mod 2 ^ Z.of_nat n = bits_value (pend ++ to_bits 6 v).
Proof.
  intros Hp Hv -> Hn.
  rewrite bits_value_app, bits_value_to_bits, length_to_bits, <- Hp.
  rewrite (Z.mod_small v) by (simpl; lia).
  rewrite <- Z.add_mod_idemp_l, wrap32_mod, Z.add_mod_idemp_l by (try apply Z.pow_nonzero; lia).
  rewrite Nat2Z.inj_add, Z.pow_add_r by lia. change (Z.of_nat 6) with 6.
  assert (0 < 2 ^ Z.of_nat (length pend)) by (apply Z.pow_pos_nonneg; lia).
  set (m := 2 ^ Z.of_nat (length pend)) in *. change (2 ^ 6) with 64 in *.
  rewrite (Z.mul_comm m), Z.rem_mul_r, (Z.add_comm (val * 64)), Z.mod_add, Z.div_add by lia.
  rewrite (Z.mod_small v), (Z.div_small v) by lia. rewrite Z.add_0_l. lia.
Qed.

(** Taking the byte off the top of the pending bits. *)
Lemma take_byte val top low :
  length top = 8%nat → val mod 2 ^ Z.of_nat (length (top ++ low)) = bits_value (top ++ low) →
  Z.land (Z.shiftr val (Z.of_nat (length low))) 255 = bits_value top ∧
  val mod 2 ^ Z.of_nat (length low) = bits_value low.
Proof.
  intros Htop Hv. rewrite length_app, Htop, Nat2Z.inj_add, Z.pow_add_r in Hv by lia.
  rewrite bits_value_app in Hv. change (2 ^ Z.of_nat 8) with 256 in Hv.
  rewrite Z.mul_comm, Z.rem_mul_r in Hv by (try apply Z.pow_nonzero; try apply Z.pow_pos_nonneg; lia).
  change 255 with (Z.ones 8). rewrite Z.land_ones, Z.shiftr_div_pow2 by lia.
  change (2 ^ 8) with 256.
  pose proof (bits_value_range low). pose proof (bits_value_range top) as Ht.
  assert (0 < 2 ^ Z.of_nat (length low)) by (apply Z.pow_pos_nonneg; lia).
  pose proof (Z.mod_pos_bound val (2 ^ Z.of_nat (length low)) ltac:(lia)).
  set (m := 2 ^ Z.of_nat (length low)) in *. set (r := val mod m) in *.
  apply (Z.div_mod_unique m); [lia|lia|]. rewrite (Z.add_comm _ r), Hv. lia.
Qed.

Lemma decode_from_spec input val pend out :
  (length pend < 8)%nat → val mod 2 ^ Z.of_nat (length pend) = bits_value pend →
  decode_from input val (Z.of_nat (length pend) - 8) out
  = Ret (out ++ bytes_of_bits (pend ++ sextet_bits input)).
Proof.
  revert val pend out. induction input as [|c input IH]; intros val pend out Hlen Hv.
  { simpl. rewrite (bytes_of_bits_short (pend ++ _)) by (rewrite app_nil_r; done). by rewrite app_nil_r. }
  cbn [decode_from]. fold (alphabet_value c). unfold sextet_bits. cbn [omap list_omap].
  pose proof (alphabet_sextet c) as Hc. destruct (in_alphabet c); [|rewrite Hc; by apply IH].
  destruct Hc as (v & -> & -> & Hr). rewrite bind_ret, (proj2 (Z.ltb_ge v 0)) by lia.
  rewrite (proj2 (Z.ltb_ge int_max _)) by (by apply shift_in_range).
  pose proof (shift_in_bits val v pend _ Hv Hr eq_refl ltac:(lia)) as Hv'.
  set (val' := wrap32 (val * 2 ^ 6) + v) in *.
  rewrite fmap_cons. cbn [mjoin list_join]. rewrite app_assoc. fold (sextet_bits input).
  assert (Hl' : length (pend ++ to_bits 6 v) = (length pend + 6)%nat)
    by (rewrite length_app, length_to_bits; done).
  set (pend' := pend ++ to_bits 6 v) in *.
  destruct (Z.leb_spec 0 (Z.of_nat (length pend) - 8 + 6)) as [Hge|Hlt].
  - rewrite <- (take_drop 8 pend') in Hv' |- *.
    assert (Ht : length (take 8 pend') = 8%nat) by (rewrite length_take; lia).
    assert (Hd : length (drop 8 pend') = (length pend - 2)%nat) by (rewrite length_drop; lia).
    destruct (take_byte val' (take 8 pend') (drop 8 pend') Ht) as [Hbyte Hlow].
    { rewrite length_app, Ht, Hd. by replace (8 + (length pend - 2))%nat with (length pend + 6)%nat by lia. }
    rewrite Hd in Hbyte.
    replace (Z.of_nat (length pend) - 8 + 6) with (Z.of_nat (length pend - 2)) by lia.
    rewrite Hbyte. rewrite <- app_assoc, (bytes_of_bits_byte (take 8 pend')) by done.
    rewrite <- Hd at 1. rewrite IH by first [exact Hlow|rewrite Hd; lia]. by rewrite <- app_assoc.
  - replace (Z.of_nat (length pend) - 8 + 6) with (Z.of_nat (length pend') - 8) by lia.
    apply IH; [lia|]. by rewrite Hl'.
Qed.

Theorem base64url_decode_spec input : base64url_decode input = Ret (bytes_of_bits (sextet_bits input)).
Proof. exact (decode_from_spec input 0 [] [] ltac:(simpl; lia) ltac:(done)). Qed.

(** ** The encoder of RFC 4648, section 5, without padding *)

Definition bits_of_bytes (s : bytes) : list bool := mjoin ((λ c, to_bits 8 (code c)) <$> s).

(** Cutting into groups of six bits, the last one filled up with zeros. *)
Fixpoint sextets (bs : list bool) : list Z :=
  match bs with
  | [] => []
  | a :: b :: c :: d :: e :: f :: rest => bits_value [a; b; c; d; e; f] :: sextets rest
  | _ => [bits_value (take 6 (bs ++ replicate 6 false))]
  end.

Definition url_alphabet : bytes := "ABCDEFGHIJKLMNOPQRSTUVWXYZabcdefghijklmnopqrstuvwxyz0123456789-_".

Definition base64url_encode (s : bytes) : bytes :=
  omap (λ v, url_alphabet !! Z.to_nat v) (sextets (bits_of_bytes s)).

Lemma url_alphabet_sextet v : 0 ≤ v < 64 →
  ∃ c, url_alphabet !! Z.to_nat v = Some c ∧ sextet c = Some v.
Proof.
  intros Hv.
  assert (H : forallb (λ v, match url_alphabet !! Z.to_nat v with
                            | Some c => bool_decide (sextet c = Some v)
                            | None => false
                            end) (seqZ 0 64) = true) by (vm_compute; reflexivity).
  rewrite forallb_Forall, Forall_forall in H. specialize (H v ltac:(apply elem_of_seqZ; lia)).
  simpl in H. destruct (url_alphabet !! Z.to_nat v) as [c|]; [|done].
  exists c. split; [done|]. by apply bool_decide_eq_true in H.
Qed.

Lemma sextet_bits_cons v c input : sextet c = Some v → sextet_bits (c :: input) = to_bits 6 v ++ sextet_bits input.
Proof. intros H. unfold sextet_bits. cbn [omap list_omap]. by rewrite H. Qed.

Lemma sextet_group bs : length bs = 6%nat →
  ∃ c, url_alphabet !! Z.to_nat (bits_value bs) = Some c ∧
       ∀ input, sextet_bits (c :: input) = bs ++ sextet_bits input.
Proof.
  intros H. pose proof (bits_value_range bs) as Hr. rewrite H in Hr.
  destruct (url_alphabet_sextet (bits_value bs) Hr) as (c & Hc & Hs). exists c. split; [done|].
  intros input. rewrite (sextet_bits_cons _ _ _ Hs). rewrite <- H. by rewrite to_bits_value.
Qed.

(** The bits of the encoding are the bits that were encoded, and fill bits. *)
Lemma sextets_bits n bs : (length bs ≤ n)%nat →
  ∃ fill, (length fill < 6)%nat ∧
    sextet_bits (omap (λ v, url_alphabet !! Z.to_nat v) (sextets bs)) = bs ++ fill.
Proof.
  revert bs. induction n as [|n IH]; intros bs Hn.
  { destruct bs; [|simpl in Hn; lia]. exists []. split; [simpl; lia|done]. }
  assert (Hshort : ∀ k, length bs = S k → (k < 5)%nat → ∃ fill, (length fill < 6)%nat ∧
    sextet_bits (omap (λ v, url_alphabet !! Z.to_nat v) [bits_value (take 6 (bs ++ replicate 6 false))])
    = bs ++ fill).
  { intros k Hk Hlt.
    destruct (sextet_group (take 6 (bs ++ replicate 6 false))) as (c & Hc & Hb).
    { rewrite length_take, length_app, length_replicate. lia. }
    exists (replicate (6 - length bs) false). rewrite length_replicate. split; [lia|].
    cbn [omap list_omap]. rewrite Hc, Hb. unfold sextet_bits. simpl mjoin. rewrite app_nil_r.
    rewrite take_app, take_ge, take_replicate by lia. f_equal. f_equal. lia. }
  destruct bs as [|b1 bs]; [exists []; split; [simpl; lia|done]|].
  do 5 (destruct bs as [|? bs]; [eapply Hshort; [reflexivity|simpl; lia]|]).
  destruct (IH bs) as (fill & Hf & Hb); [simpl in Hn; lia|]. exists fill. split; [done|].
  cbn [sextets omap list_omap].
  destruct (sextet_group [b1; b; b0; b2; b3; b4] eq_refl) as (c & -> & Hc). by rewrite Hc, Hb.
Qed.

Lemma bytes_of_bits_of_bytes s fill : (length fill < 8)%nat → bytes_of_bits (bits_of_bytes s ++ fill) = s.
Proof.
  intros Hf. induction s as [|c s IH]; [by apply bytes_of_bits_short|].
  unfold bits_of_bytes. rewrite fmap_cons. cbn [mjoin list_join]. rewrite <- app_assoc.
  rewrite bytes_of_bits_byte by apply length_to_bits. rewrite bits_value_to_bits, Z.mod_small.
  - rewrite char_of_code. f_equal. exact IH.
  - pose proof (code_range c). simpl. lia.
Qed.

Lemma sextet_bits_filter input :
  sextet_bits (filter (λ c, in_alphabet c = true) input) = sextet_bits input.
Proof.
  induction input as [|c input IH]; [done|].
  rewrite filter_cons. pose proof (alphabet_sextet c) as Hc.
  destruct (in_alphabet c); simpl.
  - destruct Hc as (v & _ & Hs & _). by rewrite !(sextet_bits_cons v), IH.
  - rewrite IH. unfold sextet_bits. cbn [omap list_omap]. by rewrite Hc.
Qed.

Lemma base64url_encode_decodes s text :
  filter (λ c, in_alphabet c = true) text = base64url_encode s →
  bytes_of_bits (sextet_bits text) = s.
Proof.
  intros H. rewrite <- sextet_bits_filter, H. unfold base64url_encode.
  destruct (sextets_bits _ _ (le_n (length (bits_of_bytes s)))) as (fill & Hf & ->).
  apply bytes_of_bits_of_bytes. lia.
Qed.

Lemma base64url_encode_alphabet s : Forall (λ c, in_alphabet c = true) (base64url_encode s).
Proof.
  apply Forall_forall. intros c (v & _ & Hv)%list_elem_of_omap.
  assert (H : forallb in_alphabet url_alphabet = true) by (vm_compute; reflexivity).
  rewrite forallb_Forall, Forall_forall in H. apply H. by eapply list_elem_of_lookup_2.
Qed.

Lemma filter_all {A} (P : A → Prop) `{∀ x, Decision (P x)} l : Forall P l → filter P l = l.
Proof. induction 1; [done|]. rewrite filter_cons_True by done. by f_equal. Qed.

(** C32: the base64url decoder.  [base64url_decode] has no undefined behaviour
    and returns, for every text, the whole bytes of the bit string that the
    alphabet chars of the text spell, six bits each; the other chars (padding,
    line breaks, anything) have no influence.  So it is a left inverse of the
    encoder of RFC 4648, also when chars outside the alphabet are put between
    the chars of the encoding. *)
Theorem base64url_roundtrip s text :
  base64url_decode text = Ret (bytes_of_bits (sextet_bits text)) ∧
  base64url_decode (base64url_encode s) = Ret s ∧
  (filter (λ c, in_alphabet c = true) text = base64url_encode s → base64url_decode text = Ret s).
Proof.
  rewrite !base64url_decode_spec. split_and!; [done| |by intros ->%base64url_encode_decodes].
  f_equal. apply base64url_encode_decodes, filter_all, base64url_encode_alphabet.
Qed.

Lemma base64url_roundtrip_witness :
  filter (λ c, in_alphabet c = true) ("Z m*9v=" : bytes) = base64url_encode "foo" ∧
  base64url_decode "Z m*9v=" = Ret ("foo" : bytes).
Proof.
  split; [vm_compute; reflexivity|].
  apply (base64url_roundtrip "foo" "Z m*9v="). vm_compute. reflexivity.
Defined.

#[global] Arguments base64url_decode : simpl never.
