(* ===== verification/JsonClaims.v ===== *)
(** * Claims in a JSON payload ([lib/jwt_auth/jwt_auth_module.cpp])

    The module looks for the text of a key and reads the value behind it; it has
    no JSON parser.  On the flat objects that [print_object] writes, without white
    space, what it finds is the first member with that name. *)

From S2P Require Import Prelude.
From S2P Require Import StringView.

(** ** The code *)

Definition dquote : ascii := "034".
Definition backslash : ascii := "092".

(** The claim between double quotes, then a colon. *)
Definition key_colon (claim : bytes) : bytes := dquote :: claim ++ [dquote; ":"%char].

(** The loop [for (i = pos; i < payload.size(); ++i)] over the chars from [pos]. *)
Fixpoint json_string_from (rest : bytes) (escape : bool) (val : bytes) : bytes :=
  match rest with
  | [] => val
  | c :: rest =>
      if escape then json_string_from rest false (val ++ [c])
      else if Ascii.eqb c backslash then json_string_from rest true val
      else if Ascii.eqb c dquote then val
      else json_string_from rest false (val ++ [c])
  end.

Definition extract_json_string (payload claim : bytes) : outcome bytes :=
  let search := key_colon claim ++ [dquote] in
  match find payload search 0 with
  | Some pos =>
      rest ← substr_from payload (pos + length search);
      Ret (json_string_from rest false [])
  | None =>
      let search := key_colon claim ++ [" "%char; dquote] in
      match find payload search 0 with
      | Some pos =>
          rest ← substr_from payload (pos + length search);
          Ret (json_string_from rest false [])
      | None => Ret []
      end
  end.

(** The range of [long long]. *)
Definition llong_max : Z := 9223372036854775807.

(** The loop over the digits, with [v] and [seen]. *)
Fixpoint json_digits (rest : bytes) (v : Z) (seen : bool) : outcome (Z * bool) :=
  match rest with
  | [] => Ret (v, seen)
  | c :: rest =>
      if is_digit c then
        let v := (v * 10 + digit_value c)%Z in
        if (v <=? llong_max)%Z then json_digits rest v true else Undef
      else Ret (v, seen)
  end.

Definition extract_json_int (payload claim : bytes) (def : Z) : outcome Z :=
  let search := key_colon claim in
  match find payload search 0 with
  | None => Ret def
  | Some pos =>
      pos ← scan_right (S (length payload)) is_space payload (pos + length search);
      if length payload <=? pos then Ret def else
      c ← char_at payload pos;
      let '(neg, pos) := if Ascii.eqb c "-" then (true, pos + 1) else (false, pos) in
      rest ← substr_from payload pos;
      '(v, seen) ← json_digits rest 0 false;
      Ret (if negb seen then def else if neg then - v else v)%Z
  end.

Record jwt_claims := JwtClaims {
  sub : bytes;
  roles : bytes;
  iss : bytes;
  aud : bytes;
  exp : Z;
}.

Definition no_claims : jwt_claims := JwtClaims [] [] [] [] 0.

(** The audience of the form [aud:["..."]]: its first string. *)
Definition aud_array (payload : bytes) : outcome bytes :=
  match find payload (key_colon "aud" ++ ["["%char]) 0 with
  | None => Ret []
  | Some apos =>
      match find_char payload dquote (apos + 7) with
      | None => Ret []
      | Some q1 =>
          match find_char payload dquote (q1 + 1) with
          | None => Ret []
          | Some q2 => substr payload (q1 + 1) (q2 - q1 - 1)
          end
      end
  end.

(** The part of [validate_and_extract] that fills the claims. *)
Definition extract_claims (payload : bytes) : outcome jwt_claims :=
  sub ← extract_json_string payload "sub";
  iss ← extract_json_string payload "iss";
  aud ← extract_json_string payload "aud";
  aud ← (if bytes_eqb aud [] then aud_array payload else Ret aud);
  roles ← extract_json_string payload "roles";
  roles ← (if bytes_eqb roles [] then extract_json_string payload "role" else Ret roles);
  exp ← extract_json_int payload "exp" 0;
  Ret (JwtClaims sub roles iss aud exp).

(** ** Every call returns, or a number overflows *)

Lemma find_le s needle pos i : find s needle pos = Some i → i + length needle ≤ length s.
Proof.
  unfold find. destruct (Nat.leb_spec pos (length s)); [|done].
  destruct (search needle (drop pos s)) as [j|] eqn:Hj; [|done]. intros [= <-].
  apply search_length in Hj. rewrite length_drop in Hj. lia.
Qed.

Lemma extract_json_string_returns payload claim : returns (extract_json_string payload claim).
Proof.
  assert (Hat : ∀ needle pos, find payload needle 0 = Some pos →
    returns (rest ← substr_from payload (pos + length needle); Ret (json_string_from rest false []))).
  { intros needle pos H%find_le. rewrite substr_from_ret by done. apply returns_ret. }
  unfold extract_json_string.
  destruct (find payload (key_colon claim ++ [dquote]) 0) eqn:H1; [by apply Hat|].
  destruct (find payload (key_colon claim ++ [" "%char; dquote]) 0) eqn:H2; [by apply Hat|].
  apply returns_ret.
Qed.

Lemma aud_array_returns payload : returns (aud_array payload).
Proof.
  unfold aud_array. destruct (find payload _ 0); [|apply returns_ret].
  destruct (find_char payload dquote (_ + 7)) as [q1|] eqn:H1; [|apply returns_ret].
  destruct (find_char payload dquote (q1 + 1)) as [q2|] eqn:H2; [|apply returns_ret].
  apply find_le in H1. simpl in H1. rewrite substr_ret by lia. apply returns_ret.
Qed.

(** ** The text behind the first occurrence of a pattern *)

Definition text_after (pat s : bytes) : option bytes :=
  (λ i, drop (i + length pat) s) <$> search pat s.

(** [no_start pat t z]: no occurrence of the pattern in [z ++ t] starts in [z]. *)
Inductive no_start (pat t : bytes) : bytes → Prop :=
  | no_start_nil : no_start pat t []
  | no_start_cons c z :
      prefixb pat (c :: z ++ t) = false → no_start pat t z → no_start pat t (c :: z).

Lemma search_cons p c s :
  search p (c :: s) = if prefixb p (c :: s) then Some 0 else S <$> search p s.
Proof. done. Qed.

Lemma text_after_skip pat t z : no_start pat t z → text_after pat (z ++ t) = text_after pat t.
Proof.
  induction 1 as [|c z Hp _ IH]; [done|]. rewrite <- IH. unfold text_after.
  cbn [app]. rewrite search_cons, Hp. by destruct (search pat (z ++ t)).
Qed.

Lemma text_after_here pat s : text_after pat (pat ++ s) = Some s.
Proof.
  unfold text_after. assert (H : search pat (pat ++ s) = Some 0).
  { pose proof (prefixb_app pat s) as Hp. destruct (pat ++ s); unfold search; fold search; by rewrite Hp. }
  rewrite H. simpl. by rewrite drop_app_length.
Qed.

Lemma no_start_app pat t z1 z2 :
  no_start pat (z2 ++ t) z1 → no_start pat t z2 → no_start pat t (z1 ++ z2).
Proof.
  intros H1 H2. induction H1 as [|c z Hp _ IH]; [done|]. simpl. constructor; [|done].
  by rewrite <- app_assoc.
Qed.

(** Chars other than the first of the pattern. *)
Lemma no_start_other d pat t z : d ∉ z → no_start (d :: pat) t z.
Proof.
  induction z as [|c z IH]; [constructor|]. rewrite not_elem_of_cons. intros [Hne Hz].
  constructor; [|by apply IH]. simpl. by rewrite (proj2 (Ascii.eqb_neq _ _)).
Qed.

Lemma extract_json_string_ret payload claim :
  extract_json_string payload claim
  = Ret (match text_after (key_colon claim ++ [dquote]) payload with
         | Some rest => json_string_from rest false []
         | None =>
             match text_after (key_colon claim ++ [" "%char; dquote]) payload with
             | Some rest => json_string_from rest false []
             | None => []
             end
         end).
Proof.
  assert (Hat : ∀ needle pos, find payload needle 0 = Some pos →
    substr_from payload (pos + length needle) = Ret (drop (pos + length needle) payload)).
  { intros needle pos H%find_le. by apply substr_from_ret. }
  assert (Hf : ∀ needle, find payload needle 0 = search needle payload).
  { intros needle. rewrite find_drop, drop_0 by lia. by destruct (search needle payload). }
  unfold extract_json_string, text_after. rewrite <- !Hf.
  destruct (find payload (key_colon claim ++ [dquote]) 0) as [i|] eqn:H1; [by rewrite (Hat _ _ H1)|].
  destruct (find payload (key_colon claim ++ [" "%char; dquote]) 0) as [i|] eqn:H2; [|done].
  by rewrite (Hat _ _ H2).
Qed.

Lemma extract_json_int_ret payload claim def :
  extract_json_int payload claim def
  = match text_after (key_colon claim) payload with
    | None => Ret def
    | Some rest =>
        match lstrip is_space rest with
        | [] => Ret def
        | c :: rest =>
            '(v, seen) ← json_digits (if Ascii.eqb c "-" then rest else c :: rest) 0 false;
            Ret (if negb seen then def else if Ascii.eqb c "-" then - v else v)%Z
        end
    end.
Proof.
  unfold extract_json_int, text_after. rewrite find_drop, drop_0 by lia.
  destruct (search (key_colon claim) payload) as [i|] eqn:Hs; [|done].
  apply search_length in Hs. cbn [fmap option_fmap option_map].
  change (0 + i) with i. set (pos := i + length (key_colon claim)) in *.
  rewrite scan_right_spec, bind_ret by lia.
  destruct (lstrip_drop is_space (drop pos payload)) as [Hd Hl]. rewrite length_drop in Hd, Hl.
  set (rest := lstrip is_space (drop pos payload)) in *. rewrite drop_drop in Hd.
  replace (pos + (length payload - pos - length rest)) with (length payload - length rest) in Hd by lia.
  destruct rest as [|c r] eqn:Hr; cbn [length] in *.
  { by rewrite (proj2 (Nat.leb_le _ _)) by lia. }
  rewrite (proj2 (Nat.leb_gt _ _)) by lia.
  assert (Hc : payload !! (length payload - S (length r)) = Some c).
  { rewrite <- (Nat.add_0_r (length payload - _)), <- lookup_drop, <- Hd. done. }
  rewrite (char_at_ret _ _ _ Hc), bind_ret.
  destruct (Ascii.eqb c "-").
  - rewrite substr_from_ret by lia. rewrite bind_ret, <- drop_drop, <- Hd. done.
  - rewrite substr_from_ret by lia. rewrite bind_ret, <- Hd. done.
Qed.

Lemma aud_array_ret payload :
  aud_array payload
  = Ret (match text_after (key_colon "aud" ++ ["["%char]) payload with
         | None => []
         | Some rest => match split_on dquote rest with _ :: x :: _ :: _ => x | _ => [] end
         end).
Proof.
  unfold aud_array, text_after. rewrite find_drop, drop_0 by lia.
  destruct (search (key_colon "aud" ++ ["["%char]) payload) as [i|] eqn:Hs; [|done].
  apply search_length in Hs. cbn [fmap option_fmap option_map]. change (0 + i) with i.
  change (length (key_colon "aud" ++ ["["%char])) with 7 in *.
  set (pos := i + 7) in *. unfold find_char. rewrite find_drop by lia.
  destruct (search [dquote] (drop pos payload)) as [j|] eqn:Hj.
  2: { apply search_char_None in Hj. by rewrite split_on_none. }
  pose proof (search_length _ _ _ Hj) as Hlj. rewrite length_drop in Hlj. simpl in Hlj.
  apply search_char_Some in Hj as [Hnj Hj]. rewrite Hj at 1. rewrite split_on_app by done.
  rewrite drop_drop. cbn [fmap option_fmap option_map]. rewrite find_drop by lia.
  replace (pos + j + 1) with (pos + S j) by lia.
  set (rest := drop (pos + S j) payload).
  destruct (search [dquote] rest) as [k|] eqn:Hk.
  2: { apply search_char_None in Hk. by rewrite split_on_none. }
  pose proof (search_length _ _ _ Hk) as Hlk. unfold rest in Hlk. rewrite length_drop in Hlk. simpl in Hlk.
  apply search_char_Some in Hk as [Hnk Hk]. cbn [fmap option_fmap option_map].
  rewrite substr_ret by lia. fold rest. replace (pos + S j + k - (pos + j) - 1) with k by lia.
  rewrite Hk at 2. rewrite split_on_app by done.
  by destruct (split_on_cons dquote (drop (S k) rest)) as (p & ps & ->).
Qed.

(** ** Flat objects *)

Inductive json_value :=
  | JString (v : bytes)
  | JInt (n : Z)
  | JStrings (vs : list bytes)
  | JBool (b : bool)
  | JNull.

(** Quotes and backslashes are escaped. *)
Fixpoint escape (v : bytes) : bytes :=
  match v with
  | [] => []
  | c :: v => if Ascii.eqb c dquote || Ascii.eqb c backslash then backslash :: c :: escape v
              else c :: escape v
  end.

Definition print_string (v : bytes) : bytes := dquote :: escape v ++ [dquote].

Definition print_value (v : json_value) : bytes :=
  match v with
  | JString v => print_string v
  | JInt n => to_string n
  | JStrings vs => "["%char :: join "," (print_string <$> vs) ++ ["]"%char]
  | JBool b => if b then "true" else "false"
  | JNull => "null"
  end.

Definition print_member (m : bytes * json_value) : bytes := key_colon (fst m) ++ print_value (snd m).

Definition print_object (ms : list (bytes * json_value)) : bytes :=
  "{"%char :: join "," (print_member <$> ms) ++ ["}"%char].

(** The chars that mean something in JSON do not occur in names. *)
Definition plain_name (k : bytes) : Prop :=
  k ≠ [] ∧ Forall (λ c, c ∉ ([dquote; backslash; ":"; ","; "]"; "}"]%char : bytes)) k.

Definition wf_value (v : json_value) : Prop :=
  match v with
  | JInt n => (- llong_max ≤ n ≤ llong_max)%Z
  | _ => True
  end.

(** The first string of an array has no escapes. *)
Definition simple_first (v : json_value) : Prop :=
  match v with
  | JStrings [] => False
  | JStrings (v :: _) => (dquote ∉ v) ∧ (backslash ∉ v)
  | _ => True
  end.

Definition wf_object (ms : list (bytes * json_value)) : Prop :=
  Forall (λ m, plain_name (fst m) ∧ wf_value (snd m) ∧ (fst m = "aud" → simple_first (snd m))) ms.

(** What may follow a value. *)
Definition delimiter (c : ascii) : bool := Ascii.eqb c "," || Ascii.eqb c "]" || Ascii.eqb c "}".
Definition delimited (t : bytes) : Prop := ∃ c t', t = c :: t' ∧ delimiter c = true.

Section Occurrences.
Context (k q : bytes) (Hk : plain_name k).

(** The patterns of the module: a name in quotes and a colon, and then [q]. *)
Definition name_pattern : bytes := key_colon k ++ q.

Lemma name_pattern_eq : name_pattern = dquote :: k ++ dquote :: ":"%char :: q.
Proof. unfold name_pattern, key_colon. cbn [app]. by rewrite <- app_assoc. Qed.

(** The end of a string is not the end of the name. *)
Lemma name_not_in_string k' v t :
  Forall (λ c, c ∉ ([dquote; backslash; ":"; ","; "]"; "}"]%char : bytes)) k' → delimited t →
  prefixb (k' ++ dquote :: ":"%char :: q) (escape v ++ dquote :: t) = false.
Proof.
  intros HF (d & t' & -> & Hd). revert v. induction HF as [|x k' Hx HF IH]; intros v.
  - destruct v as [|c v]; cbn [escape app].
    + cbn [prefixb]. destruct (Ascii.eqb_spec ":" d) as [<-|]; [done|]. apply andb_false_r.
    + destruct (Ascii.eqb_spec c dquote) as [->|Hc]; cbn [orb app prefixb]; [done|].
      destruct (Ascii.eqb_spec c backslash) as [->|]; cbn [app prefixb]; [done|].
      by rewrite (proj2 (Ascii.eqb_neq dquote c)).
  - rewrite !not_elem_of_cons in Hx. destruct Hx as (Hx1 & Hx2 & _).
    apply Ascii.eqb_neq in Hx1, Hx2.
    destruct v as [|c v]; cbn [escape app prefixb]; [by rewrite Hx1|].
    destruct (Ascii.eqb c dquote || Ascii.eqb c backslash); cbn [app prefixb]; [by rewrite Hx2|].
    rewrite IH. apply andb_false_r.
Qed.

Lemma name_head :
  ∃ x k', k = x :: k' ∧ x ∉ ([dquote; backslash; ":"; ","; "]"; "}"]%char : bytes).
Proof. destruct Hk as [Hne HF]. destruct HF as [|x k' Hx _]; [done|]. eauto. Qed.

Lemma name_not_delimiter t : delimited t → prefixb (k ++ dquote :: ":"%char :: q) t = false.
Proof.
  intros (d & t' & -> & Hd). destruct name_head as (x & k1 & -> & Hx).
  cbn [app prefixb]. destruct (Ascii.eqb_spec x d) as [->|]; [|done]. exfalso.
  unfold delimiter in Hd. rewrite !orb_true_iff, !Ascii.eqb_eq in Hd.
  apply Hx. destruct Hd as [[->| ->]| ->]; set_solver.
Qed.

Lemma no_start_string v t : delimited t → no_start name_pattern t (print_string v).
Proof.
  intros Ht. rewrite name_pattern_eq. unfold print_string. constructor.
  { cbn [prefixb]. rewrite <- app_assoc. cbn [app]. rewrite (name_not_in_string k v t); [|apply Hk|done].
    apply andb_false_r. }
  apply no_start_app.
  - cbn [app]. induction v as [|c v IH]; [constructor|]. cbn [escape].
    destruct (Ascii.eqb c dquote || Ascii.eqb c backslash) eqn:Hc.
    + constructor; [done|]. constructor; [|exact IH].
      cbn [prefixb]. rewrite (name_not_in_string k v t); [|apply Hk|done]. apply andb_false_r.
    + constructor; [|exact IH]. apply orb_false_iff in Hc as [Hc _]. cbn [prefixb].
      by rewrite Ascii.eqb_sym, Hc.
  - constructor; [|constructor]. cbn [app prefixb].
    rewrite (name_not_delimiter t Ht). apply andb_false_r.
Qed.

Lemma delimited_join (d e : ascii) ps rest :
  delimiter d = true → delimiter e = true →
  delimited (match ps with [] => [] | _ => d :: join d ps end ++ e :: rest).
Proof.
  intros Hd He. destruct ps; [by exists e, rest|].
  eexists d, _. split; [reflexivity|done].
Qed.

Lemma join_head d p ps rest :
  join d (p :: ps) ++ rest = p ++ match ps with [] => [] | _ => d :: join d ps end ++ rest.
Proof. destruct ps as [|p' ps]; [done|]. rewrite join_cons by done. by rewrite <- !app_assoc. Qed.

Lemma no_start_strings vs t :
  delimited t → no_start name_pattern t (join "," (print_string <$> vs) ++ ["]"%char]).
Proof.
  intros Ht.
  assert (Hend : no_start name_pattern t ["]"%char]).
  { rewrite name_pattern_eq. apply no_start_other. by rewrite list_elem_of_singleton. }
  induction vs as [|v vs IH]; [exact Hend|]. rewrite fmap_cons, join_head.
  apply no_start_app.
  - apply no_start_string. rewrite <- app_assoc. by apply delimited_join.
  - destruct vs as [|v' vs]; [exact Hend|]. rewrite fmap_cons in *.
    cbn [app]. constructor; [by rewrite name_pattern_eq|exact IH].
Qed.

Lemma no_start_value v t : delimited t → no_start name_pattern t (print_value v).
Proof.
  intros Ht. destruct v as [v|n|vs|b|]; cbn [print_value].
  - by apply no_start_string.
  - rewrite name_pattern_eq. apply no_start_other. intros Hin.
    pose proof (to_string_chars n) as HF. rewrite Forall_forall in HF. by apply HF in Hin.
  - constructor; [by rewrite name_pattern_eq|]. by apply no_start_strings.
  - rewrite name_pattern_eq. apply no_start_other. by destruct b; apply (bool_decide_eq_true_1 _).
  - rewrite name_pattern_eq. apply no_start_other. by apply (bool_decide_eq_true_1 _).
Qed.

(** A name matches a name. *)
Lemma name_matches k1 k2 rest :
  dquote ∉ k1 → dquote ∉ k2 →
  prefixb (k1 ++ dquote :: ":"%char :: q) (k2 ++ dquote :: ":"%char :: rest)
  = bytes_eqb k2 k1 && prefixb q rest.
Proof.
  revert k2. induction k1 as [|c k1 IH]; intros [|c2 k2] H1 H2; [done| | |].
  - apply not_elem_of_cons in H2 as [H2 _]. cbn [app prefixb].
    by rewrite (proj2 (Ascii.eqb_neq _ _) H2).
  - apply not_elem_of_cons in H1 as [H1 _]. cbn [app prefixb].
    by rewrite (proj2 (Ascii.eqb_neq c dquote)).
  - apply not_elem_of_cons in H1 as [_ H1], H2 as [_ H2].
    cbn [app prefixb]. rewrite IH by done. unfold bytes_eqb.
    destruct (Ascii.eqb_spec c c2) as [->|Hne]; cbn [andb].
    + f_equal. apply bool_decide_ext. naive_solver.
    + rewrite bool_decide_eq_false_2; [done|]. congruence.
Qed.

Lemma plain_no_quote k' : plain_name k' → dquote ∉ k'.
Proof. intros [_ HF] Hin. rewrite Forall_forall in HF. apply HF in Hin. by apply Hin; left. Qed.

Variable sel : json_value → bool.
Hypothesis Hsel : ∀ v t, wf_value v → delimited t → prefixb q (print_value v ++ t) = sel v.

(** The member the pattern is meant to find. *)
Definition selected (m : bytes * json_value) : bool := bytes_eqb (fst m) k && sel (snd m).

Lemma print_member_eq m t :
  print_member m ++ t = dquote :: fst m ++ dquote :: ":"%char :: print_value (snd m) ++ t.
Proof. unfold print_member, key_colon. cbn [app]. by rewrite <- !app_assoc. Qed.

Lemma no_start_member m t :
  plain_name (fst m) → wf_value (snd m) → delimited t → selected m = false →
  no_start name_pattern t (print_member m).
Proof.
  intros Hm Hv Ht Hs. destruct m as [k' v]. cbn [fst snd] in *.
  unfold print_member, key_colon. cbn [fst snd app]. constructor.
  { rewrite name_pattern_eq. cbn [prefixb]. rewrite <- !app_assoc. cbn [app].
    rewrite name_matches by (by apply plain_no_quote). rewrite Hsel by done.
    unfold selected in Hs. cbn [fst snd] in Hs. rewrite Hs. apply andb_false_r. }
  rewrite <- app_assoc. apply no_start_app.
  { rewrite name_pattern_eq. by apply no_start_other, plain_no_quote. }
  cbn [app]. constructor.
  { rewrite name_pattern_eq. cbn [prefixb].
    apply andb_false_intro2, not_true_iff_false. intros Hp.
    destruct name_head as (x & k1 & Heq & Hx). rewrite Heq in Hp.
    cbn [app prefixb] in Hp. apply andb_prop in Hp as [->%Ascii.eqb_eq _].
    apply Hx. by do 2 right; left. }
  constructor; [by rewrite name_pattern_eq|]. by apply no_start_value.
Qed.

(** In a flat object the pattern finds the first member it selects. *)
Lemma text_after_object ms :
  wf_object ms →
  match List.find selected ms with
  | Some m => ∃ t, delimited t ∧ wf_value (snd m) ∧
      ∃ rest, print_value (snd m) ++ t = q ++ rest ∧ text_after name_pattern (print_object ms) = Some rest
  | None => text_after name_pattern (print_object ms) = None
  end.
Proof.
  intros HF. unfold print_object.
  assert (Hskip : text_after name_pattern ("{"%char :: join "," (print_member <$> ms) ++ ["}"%char])
    = text_after name_pattern (join "," (print_member <$> ms) ++ ["}"%char])).
  { apply (text_after_skip _ _ ["{"%char]). rewrite name_pattern_eq.
    apply no_start_other. by rewrite list_elem_of_singleton. }
  rewrite Hskip. clear Hskip.
  assert (Hend : text_after name_pattern ["}"%char] = None) by (by rewrite name_pattern_eq).
  induction HF as [|m ms (Hm & Hv & _) HF IH]; [exact Hend|].
  rewrite fmap_cons, join_head. cbn [List.find].
  match goal with |- context [print_member m ++ ?x] => set (t := x) end.
  assert (Ht : delimited t) by (by apply delimited_join).
  assert (Hrest : text_after name_pattern t
    = text_after name_pattern (join "," (print_member <$> ms) ++ ["}"%char])).
  { unfold t. destruct ms as [|m' ms]; [done|]. rewrite fmap_cons.
    apply (text_after_skip _ _ [","%char]). rewrite name_pattern_eq.
    apply no_start_other. by rewrite list_elem_of_singleton. }
  destruct (selected m) eqn:Hs.
  - exists t. split; [done|]. split; [done|].
    unfold selected in Hs. apply andb_prop in Hs as [Hname Hs].
    rewrite <- (Hsel _ t Hv Ht) in Hs. apply prefixb_spec in Hs as [rest Hr].
    exists rest. split; [done|]. rewrite print_member_eq, Hr.
    apply bool_decide_eq_true in Hname. rewrite Hname.
    replace (dquote :: k ++ dquote :: ":"%char :: q ++ rest) with (name_pattern ++ rest)
      by (rewrite name_pattern_eq; cbn [app]; rewrite <- app_assoc; done).
    apply text_after_here.
  - rewrite text_after_skip by (by apply no_start_member). rewrite Hrest. exact IH.
Qed.
End Occurrences.

(** ** What the module reads from a flat object *)

(** The first member of a name and of a kind. *)
Definition member (sel : json_value → bool) (k : bytes) (ms : list (bytes * json_value))
    : option json_value :=
  snd <$> List.find (selected k sel) ms.

Definition is_string (v : json_value) : bool := match v with JString _ => true | _ => false end.
Definition is_strings (v : json_value) : bool := match v with JStrings _ => true | _ => false end.

Definition string_member (k : bytes) (ms : list (bytes * json_value)) : bytes :=
  match member is_string k ms with Some (JString v) => v | _ => [] end.

Definition first_of_strings (k : bytes) (ms : list (bytes * json_value)) : bytes :=
  match member is_strings k ms with Some (JStrings (v :: _)) => v | _ => [] end.

Definition int_member (k : bytes) (ms : list (bytes * json_value)) : Z :=
  match member (λ _, true) k ms with Some (JInt n) => n | _ => 0 end.

Definition object_claims (ms : list (bytes * json_value)) : jwt_claims :=
  let aud := string_member "aud" ms in
  let roles := string_member "roles" ms in
  JwtClaims (string_member "sub" ms)
    (if bytes_eqb roles [] then string_member "role" ms else roles)
    (string_member "iss" ms)
    (if bytes_eqb aud [] then first_of_strings "aud" ms else aud)
    (int_member "exp" ms).

Lemma int_head n : ∃ c s, to_string n = c :: s ∧ is_digit c || Ascii.eqb c "-" = true.
Proof.
  pose proof (to_string_chars n) as HF. destruct (to_string n) as [|c s] eqn:Hs.
  - exfalso. revert Hs. unfold to_string. destruct (Z.ltb_spec n 0); [done|].
    intros Hs. destruct (to_string_value n) as (_ & _ & Hne); [done|]. apply Hne.
    unfold to_string. by rewrite (proj2 (Z.ltb_ge _ _)).
  - exists c, s. by inversion HF.
Qed.

Lemma json_string_escape v t acc : json_string_from (escape v ++ dquote :: t) false acc = acc ++ v.
Proof.
  revert acc. induction v as [|c v IH]; intros acc; [by rewrite app_nil_r|]. cbn [escape].
  destruct (Ascii.eqb c dquote || Ascii.eqb c backslash) eqn:Hc.
  - cbn. rewrite IH. by rewrite <- app_assoc.
  - apply orb_false_iff in Hc as [Hq Hb]. cbn [app json_string_from]. rewrite Hb, Hq, IH.
    by rewrite <- app_assoc.
Qed.

Lemma json_digits_spec s c t v seen :
  Forall (λ c, is_digit c = true) s → is_digit c = false → (0 ≤ v)%Z →
  (foldl (λ v c, v * 10 + digit_value c) v s ≤ llong_max)%Z →
  json_digits (s ++ c :: t) v seen
  = Ret (foldl (λ v c, v * 10 + digit_value c)%Z v s, seen || negb (bytes_eqb s [])).
Proof.
  intros HF Hc. revert v seen. induction HF as [|d s Hd Hs IH]; intros v seen Hv Hmax.
  { cbn. by rewrite Hc, orb_false_r. }
  cbn [app json_digits foldl] in *. rewrite Hd. apply digit_value_range in Hd.
  pose proof (foldl_digits_mono s (v * 10 + digit_value d)%Z ltac:(lia) Hs).
  rewrite (proj2 (Z.leb_le _ _)) by lia. rewrite IH by (done || lia). cbn. by rewrite orb_true_r.
Qed.

Lemma to_string_negative n : (n < 0)%Z → to_string n = "-"%char :: to_string (- n).
Proof.
  intros Hn. unfold to_string. rewrite (proj2 (Z.ltb_lt _ _)) by done.
  by rewrite (proj2 (Z.ltb_ge _ _)) by lia.
Qed.

(** Reading an integer back. *)
Lemma json_int_text n t :
  (- llong_max ≤ n ≤ llong_max)%Z → delimited t →
  match lstrip is_space (to_string n ++ t) with
  | [] => Ret 0%Z
  | c :: rest =>
      '(v, seen) ← json_digits (if Ascii.eqb c "-" then rest else c :: rest) 0 false;
      Ret (if negb seen then 0 else if Ascii.eqb c "-" then - v else v)%Z
  end = Ret n.
Proof.
  intros Hn (d & t' & -> & Hd).
  assert (Hdig : is_digit d = false).
  { apply negb_true_iff. revert d Hd. by_char_impl. }
  destruct (int_head n) as (c & s & Hcs & Hc).
  assert (Hsp : negb (is_space c) = true) by (revert c Hc Hcs; intros c Hc _; revert c Hc; by_char_impl).
  rewrite lstrip_id by (rewrite Hcs; intros ? [= <-]; by apply negb_true_iff).
  assert (Hpos : ∀ m, (0 ≤ m ≤ llong_max)%Z →
    json_digits (to_string m ++ d :: t') 0 false = Ret (m, true)).
  { intros m Hm. destruct (to_string_value m) as (HF & Hv & Hne); [lia|]. unfold decimal_value in Hv.
    rewrite json_digits_spec by (done || lia). rewrite Hv. by rewrite (proj2 (bytes_eqb_nil _)). }
  destruct (Z.ltb_spec n 0) as [Hneg|Hge].
  - rewrite (to_string_negative n Hneg). cbn [app].
    change (Ascii.eqb "-" "-") with true. cbn iota.
    rewrite Hpos by lia. cbn. f_equal. lia.
  - destruct (to_string_value n Hge) as (HF & _ & _). rewrite Hcs in HF. inversion HF as [|? ? Hc' _]; subst.
    assert (Hm : Ascii.eqb c "-" = false).
    { apply negb_true_iff. revert c Hc' Hcs Hc Hsp HF. intros c Hc' _ _ _ _. revert c Hc'. by_char_impl. }
    specialize (Hpos n ltac:(lia)). rewrite Hcs in Hpos |- *. cbn [app] in *.
    rewrite Hm, Hpos. cbn. done.
Qed.

Lemma value_head v t : wf_value v → ∃ c s, print_value v ++ t = c :: s ∧
  match v with
  | JString _ => c = dquote
  | JInt _ => is_digit c || Ascii.eqb c "-" = true
  | JStrings _ => c = "["%char
  | JBool b => c = (if b then "t" else "f")%char
  | JNull => c = "n"%char
  end.
Proof.
  intros _. destruct v as [v|n|vs|[]|]; cbn [print_value]; try by eexists _, _.
  destruct (int_head n) as (c & s & -> & Hc). by eexists _, _.
Qed.

Lemma number_char_other d : negb (is_digit d || Ascii.eqb d "-") = true → ∀ c,
  is_digit c || Ascii.eqb c "-" = true → Ascii.eqb d c = false.
Proof. intros Hd c Hc. destruct (Ascii.eqb_spec d c) as [->|]; [|done]. by rewrite Hc in Hd. Qed.

Lemma string_starts v t : wf_value v → delimited t → prefixb [dquote] (print_value v ++ t) = is_string v.
Proof.
  intros Hv _. destruct (value_head v t Hv) as (c & s & -> & Hc).
  destruct v as [| | |[]|]; cbn [prefixb is_string]; rewrite ?Hc; try done.
  by rewrite (number_char_other dquote eq_refl c Hc).
Qed.

Lemma strings_start v t : wf_value v → delimited t → prefixb ["["%char] (print_value v ++ t) = is_strings v.
Proof.
  intros Hv _. destruct (value_head v t Hv) as (c & s & -> & Hc).
  destruct v as [| | |[]|]; cbn [prefixb is_strings]; rewrite ?Hc; try done.
  by rewrite (number_char_other "[" eq_refl c Hc).
Qed.

Lemma space_starts v t :
  wf_value v → delimited t → prefixb [" "%char; dquote] (print_value v ++ t) = false.
Proof.
  intros Hv _. destruct (value_head v t Hv) as (c & s & -> & Hc).
  destruct v as [| | |[]|]; cbn [prefixb]; rewrite ?Hc; try done.
  by rewrite (number_char_other " " eq_refl c Hc).
Qed.

Lemma find_selected_none k ms : List.find (selected k (λ _, false)) ms = None.
Proof. induction ms as [|m ms IH]; [done|]. simpl. unfold selected at 1. by rewrite andb_false_r. Qed.

Lemma extract_string_member k ms :
  plain_name k → wf_object ms →
  extract_json_string (print_object ms) k = Ret (string_member k ms).
Proof.
  intros Hk Hms. rewrite extract_json_string_ret. unfold string_member, member.
  pose proof (text_after_object k [dquote] Hk is_string string_starts ms Hms) as H1.
  destruct (List.find (selected k is_string) ms) as [[k' v]|] eqn:Hf; cbn [fmap option_fmap option_map snd].
  - destruct H1 as (t & Ht & _ & rest & Heq & H1). unfold name_pattern in H1. rewrite H1.
    apply List.find_some in Hf as [_ Hs]. apply andb_prop in Hs as [_ Hs]. destruct v; try done.
    cbn [snd print_value print_string app] in Heq. injection Heq as <-.
    rewrite <- app_assoc. cbn [app]. by rewrite json_string_escape.
  - unfold name_pattern in H1. rewrite H1.
    pose proof (text_after_object k [" "%char; dquote] Hk (λ _, false) space_starts ms Hms) as H2.
    rewrite find_selected_none in H2. unfold name_pattern in H2. by rewrite H2.
Qed.

Lemma aud_array_member ms :
  wf_object ms → aud_array (print_object ms) = Ret (first_of_strings "aud" ms).
Proof.
  intros Hms. rewrite aud_array_ret. unfold first_of_strings, member.
  assert (Hk : plain_name "aud") by (by apply (bool_decide_eq_true_1 _)).
  pose proof (text_after_object "aud" ["["%char] Hk is_strings strings_start ms Hms) as H1.
  destruct (List.find (selected "aud" is_strings) ms) as [[k' v]|] eqn:Hf; cbn [fmap option_fmap option_map snd].
  - destruct H1 as (t & Ht & Hv & rest & Heq & H1). unfold name_pattern in H1. rewrite H1.
    apply List.find_some in Hf as [Hin Hs]. apply andb_prop in Hs as [Hname Hs].
    apply bool_decide_eq_true in Hname. apply list_elem_of_In in Hin.
    unfold wf_object in Hms. rewrite Forall_forall in Hms.
    destruct (Hms _ Hin) as (_ & _ & Hfirst). specialize (Hfirst Hname).
    destruct v as [| |vs| |]; try done. cbn [snd print_value app] in *. injection Heq as <-.
    destruct vs as [|v vs]; [done|]. destruct Hfirst as [Hq Hb]. rewrite fmap_cons, <- !app_assoc, join_head.
    assert (Hesc : escape v = v).
    { clear -Hq Hb. induction v as [|c v IH]; [done|]. apply not_elem_of_cons in Hq as [Hq1 Hq], Hb as [Hb1 Hb].
      cbn [escape]. rewrite (proj2 (Ascii.eqb_neq c dquote)), (proj2 (Ascii.eqb_neq c backslash)) by done.
      cbn. by rewrite IH. }
    unfold print_string. rewrite Hesc. cbn [app]. rewrite <- app_assoc. cbn [app].
    match goal with |- context [v ++ dquote :: ?rest] => generalize rest end. intros rest.
    change (dquote :: v ++ dquote :: rest) with ([] ++ dquote :: v ++ dquote :: rest).
    rewrite !split_on_app by (done || apply not_elem_of_nil).
    by destruct (split_on_cons dquote rest) as (p & ps & ->).
  - unfold name_pattern in H1. by rewrite H1.
Qed.

Lemma extract_int_member k ms :
  plain_name k → wf_object ms → extract_json_int (print_object ms) k 0 = Ret (int_member k ms).
Proof.
  intros Hk Hms. rewrite extract_json_int_ret. unfold int_member, member.
  pose proof (text_after_object k [] Hk (λ _, true) (λ v t _ _, eq_refl) ms Hms) as H1.
  unfold name_pattern in H1. rewrite app_nil_r in H1.
  destruct (List.find (selected k (λ _, true)) ms) as [[k' v]|] eqn:Hf; cbn [fmap option_fmap option_map snd].
  - destruct H1 as (t & Ht & Hv & rest & Heq & H1). rewrite H1. cbn [snd app] in *. subst rest.
    destruct v as [v|n|vs|[]|]; cbn [print_value]; try done. by apply json_int_text.
  - by rewrite H1.
Qed.

(** C33: on the text that [print_object] writes of a flat JSON object, the textual
    search of the module finds the claims of the object: the first string of each
    name, unescaped, [role] where there are no [roles], the first string of an [aud]
    array, and the first [exp] if it is an integer, 0 otherwise.  The text has no white
    space and no escapes but those of quotes and backslashes.  The values are strings
    of any chars, integers between [- llong_max] and [llong_max], arrays of strings,
    booleans and null; the names, which may repeat, are not empty and free of JSON
    punctuation; an array with the name [aud] is not empty, and its first string has
    no quote or backslash ([empty_audience] shows what the module makes of an empty one). *)
Theorem json_claims_roundtrip ms :
  wf_object ms → extract_claims (print_object ms) = Ret (object_claims ms).
Proof.
  intros Hms. unfold extract_claims, object_claims.
  rewrite !extract_string_member, !bind_ret by first [done|by apply (bool_decide_eq_true_1 _)].
  rewrite aud_array_member, extract_int_member by first [done|by apply (bool_decide_eq_true_1 _)].
  destruct (bytes_eqb (string_member "aud" ms) []); rewrite !bind_ret;
    destruct (bytes_eqb (string_member "roles" ms) []); by rewrite ?bind_ret.
Qed.

(** A claim whose text looks like another claim. *)
Definition sample_object : list (bytes * json_value) :=
  [("name" : bytes, JString (dquote :: "sub" ++ [dquote; ":"%char; dquote; "x"%char]));
   ("sub" : bytes, JString "alice"); ("aud" : bytes, JStrings ["api" : bytes; "web" : bytes]);
   ("groups" : bytes, JStrings []); ("admin" : bytes, JBool true); ("iss" : bytes, JNull);
   ("exp" : bytes, JInt 2000000000); ("role" : bytes, JString "admin")].

Lemma json_claims_roundtrip_witness :
  wf_object sample_object ∧
  extract_claims (print_object sample_object)
  = Ret (JwtClaims "alice" "admin" [] "api" 2000000000).
Proof.
  assert (H : wf_object sample_object).
  { unfold wf_object, sample_object, plain_name, wf_value, simple_first, llong_max.
    repeat (apply Forall_cons; split); try apply Forall_nil; simpl; repeat split;
      first [lia|done|by apply (bool_decide_eq_true_1 _)]. }
  split; [exact H|]. rewrite (json_claims_roundtrip _ H). vm_compute. reflexivity.
Defined.

(** An empty array is read as the name of the next member. *)
Example empty_audience :
  extract_claims (print_object [("aud" : bytes, JStrings []); ("api" : bytes, JInt 1)])
  = Ret (JwtClaims [] [] [] "api" 0).
Proof. vm_compute. reflexivity. Qed.

(** The claims are always found, unless the digits of [exp] overflow. *)
Lemma extract_claims_total payload : returns (extract_claims payload) ∨ extract_claims payload = Undef.
Proof.
  assert (Hd : ∀ s v seen, returns (json_digits s v seen) ∨ json_digits s v seen = Undef).
  { induction s as [|c s IH]; intros v seen; simpl; [left; apply returns_ret|].
    destruct (is_digit c); [|left; apply returns_ret]. destruct (_ <=? _)%Z; [apply IH|by right]. }
  unfold extract_claims.
  destruct (extract_json_string_returns payload "sub") as [? ->].
  destruct (extract_json_string_returns payload "iss") as [? ->].
  destruct (extract_json_string_returns payload "aud") as [aud ->].
  destruct (extract_json_string_returns payload "roles") as [roles ->].
  destruct (extract_json_string_returns payload "role") as [? ->].
  destruct (aud_array_returns payload) as [? ->].
  rewrite !bind_ret. destruct (bytes_eqb aud []); rewrite bind_ret, bind_ret;
    destruct (bytes_eqb roles []); rewrite bind_ret, extract_json_int_ret;
    (destruct (text_after (key_colon "exp") payload) as [rest|]; [|left; apply returns_ret]);
    (destruct (lstrip is_space rest) as [|c r]; [left; apply returns_ret|]);
    (destruct (Hd (if Ascii.eqb c "-" then r else c :: r) 0%Z false) as [[[v seen] ->]| ->];
      [left; apply returns_ret|by right]).
Qed.

#[global] Arguments extract_claims : simpl never.
