(* ===== verification/JwtAuth.v ===== *)
(** * Token authentication ([lib/jwt_auth/jwt_auth_module.cpp])

    Requests in the scope of the rules pass only with a bearer token whose
    HMAC-SHA256 signature, issuer, audience and expiry are right; the claims of
    the token become response headers. *)

From S2P Require Import Prelude.
From S2P Require Import StringView.
From S2P Require Import HttpHeader.
From S2P Require Import HttpRequest.
From S2P Require Import HttpResponse.
From S2P Require Import Pipeline.
From S2P Require Import ModuleAbi.
From S2P Require Import ConfigText.
From S2P Require Import Base64.
From S2P Require Import JsonClaims.

(** ** The configuration *)

(** [jwt_auth_module::auth_rule] *)
Record auth_rule := AuthRule {
  method_pattern : bytes;
  target_pattern : bytes;
  target_kind : pattern_kind;
}.

Definition trim (value : bytes) : outcome bytes := StringView.trim value.

Definition split_fields (value : bytes) (delimiter : ascii) : outcome (list bytes) :=
  StringView.split_fields value delimiter.

Definition ascii_lower (ch : ascii) : ascii :=
  if in_range "A" "Z" ch then char_of (code ch - code "A" + code "a") else ch.

Definition ascii_lowercase (value : bytes) : bytes := ascii_lower <$> value.

(** Not called by the module. *)
Definition ascii_iequals (left right : bytes) : bool :=
  if negb (length left =? length right) then false else iequals_loop left right.

Definition is_rule_line (line : bytes) : bool := starts_with "rule=" line.

Definition classify_target_pattern (pattern : bytes) : pattern_kind * bytes :=
  ConfigText.classify_target_pattern pattern.

Definition method_matches (pattern actual : bytes) : bool :=
  ConfigText.method_matches pattern actual.

Definition target_matches (kind : pattern_kind) (pattern actual : bytes) : bool :=
  ConfigText.target_matches kind pattern actual.

Definition fail {A} (what : bytes) : outcome A :=
  Throw (runtime_error (("jwt_auth: " : bytes) ++ what)).

Definition parse_rule_line (line : bytes) : outcome auth_rule :=
  text ← substr_from line 5;
  fields ← split_fields text "|";
  if negb (length fields =? 2) then fail "rule requires 2 fields (method|target)" else
  method ← field_at fields 0;
  target_field ← field_at fields 1;
  let '(kind, target) := classify_target_pattern target_field in
  if bytes_eqb method [] then fail "method pattern must not be empty" else
  if bytes_eqb target [] then fail "target pattern must not be empty" else
  Ret (AuthRule method target kind).

Definition parse_rules (config_text : bytes) : outcome (list auth_rule) :=
  parse_rule_lines is_rule_line parse_rule_line config_text.

(** The members of [jwt_auth_module]. *)
Record jwt_auth := JwtAuth {
  secret : bytes;
  alg : bytes;
  issuer : option bytes;
  audience : option bytes;
  rules : list auth_rule;
}.

(** [if (auto v = kv.get(key); v && !v->empty()) member = *v;] *)
Definition nonempty_value (v : option bytes) : option bytes :=
  match v with
  | Some [] => None
  | _ => v
  end.

(** The constructor. *)
Definition jwt_auth_config (config_text : bytes) : outcome jwt_auth :=
  rules ← parse_rules config_text;
  sec ← key_value_get config_text "secret";
  match nonempty_value sec with
  | None => fail "secret must not be empty"
  | Some secret =>
      algv ← key_value_get config_text "alg";
      let alg := default ("HS256" : bytes) algv in
      if negb (bytes_eqb alg "HS256") then fail "only alg=HS256 is supported" else
      iss ← key_value_get config_text "issuer";
      aud ← key_value_get config_text "audience";
      Ret (JwtAuth secret alg (nonempty_value iss) (nonempty_value aud) rules)
  end.

(** ** The token of a request *)

Definition extract_bearer_token (auth_value : bytes) : outcome (option bytes) :=
  val ← trim auth_value;
  if bytes_eqb val [] then Ret None else
  match find_char val " " 0 with
  | None => Ret None
  | Some sp =>
      first ← substr val 0 sp;
      first ← trim first;
      let scheme := ascii_lowercase first in
      if negb (bytes_eqb scheme "bearer") then Ret None else
      rest ← substr_from val (sp + 1);
      token ← trim rest;
      if bytes_eqb token [] then Ret None else Ret (Some token)
  end.

(** ** Validation

    [HMAC key key_len data data_len] is the function of the crypto library with
    [EVP_sha256()]: the bytes of [mac], or a null result.  [time_now] is
    [std::time(nullptr)]. *)
Class JwtWorld (W : Type) := {
  HMAC : bytes → Z → bytes → Z → option bytes;
  time_now : W → Z * W;
}.

(** [static_cast<int>(size)] *)
Definition int_of_size (n : nat) : Z := wrap32 (Z.of_nat n).

(** The three parts of a token, or [None] for a malformed one. *)
Definition token_parts (token : bytes) : outcome (option (bytes * bytes * bytes)) :=
  match find_char token "." 0 with
  | None => Ret None
  | Some p1 =>
      match find_char token "." (p1 + 1) with
      | None => Ret None
      | Some p2 =>
          match find_char token "." (p2 + 1) with
          | Some _ => Ret None
          | None =>
              h64 ← substr token 0 p1;
              p64 ← substr token (p1 + 1) (p2 - p1 - 1);
              s64 ← substr_from token (p2 + 1);
              if bytes_eqb h64 [] || bytes_eqb p64 [] || bytes_eqb s64 [] then Ret None
              else Ret (Some (h64, p64, s64))
          end
      end
  end.

Definition alg_text (space : bytes) : bytes :=
  key_colon "alg" ++ space ++ dquote :: "HS256" ++ [dquote].

(** The header names HS256. *)
Definition header_is_hs256 (header : bytes) : bool :=
  bool_decide (find header (alg_text []) 0 ≠ None ∨ find header (alg_text [" "%char]) 0 ≠ None).

(** The return value and the two output parameters. *)
Record validation := Validation {
  ok : bool;
  out_claims : jwt_claims;
  out_failure : bytes;
}.

(** [required && !required->empty() && claim != *required] *)
Definition mismatch (required : option bytes) (claim : bytes) : bool :=
  match required with
  | None => false
  | Some required => negb (bytes_eqb required []) && negb (bytes_eqb claim required)
  end.

Section Module_.
Context {W : Type} `{!JwtWorld W}.

(** The comparison of the signature. *)
Definition signature_matches (secret to_sign sig : bytes) : bool :=
  match HMAC secret (int_of_size (length secret)) to_sign (int_of_size (length to_sign)) with
  | None => false
  | Some mac => bytes_eqb mac sig
  end.

Definition read_clock : prog W Z := λ w, let '(now, w) := time_now w in (Ret now, w).

Definition validate_and_extract (token secret : bytes) (required_issuer required_audience : option bytes)
    : prog W validation :=
  parts ← lift (token_parts token);
  match parts with
  | None => mret (Validation false no_claims "malformed")
  | Some (h64, p64, s64) =>
      header ← lift (base64url_decode h64);
      payload ← lift (base64url_decode p64);
      sig ← lift (base64url_decode s64);
      if negb (header_is_hs256 header) then mret (Validation false no_claims "malformed") else
      let to_sign := h64 ++ "." ++ p64 in
      if negb (signature_matches secret to_sign sig)
      then mret (Validation false no_claims "bad signature") else
      claims ← lift (extract_claims payload);
      if mismatch required_issuer (iss claims)
      then mret (Validation false claims "issuer mismatch") else
      if mismatch required_audience (aud claims)
      then mret (Validation false claims "audience mismatch") else
      if negb (exp claims =? 0)%Z then
        now ← read_clock;
        if (exp claims <=? now)%Z then mret (Validation false claims "expired")
        else mret (Validation true claims [])
      else mret (Validation true claims [])
  end.

Definition make_unauthorized (body : bytes) : response := text 401 "Unauthorized" body.

(** ** The module *)

(** The request is in the scope of the rules. *)
Definition enforced (rules : list auth_rule) (req : request) : bool :=
  match rules with
  | [] => true
  | _ => existsb (λ rule, method_matches (method_pattern rule) (method req) &&
                          target_matches (target_kind rule) (target_pattern rule) (target req)) rules
  end.

(** [if (!value.empty()) result.add_response_header(name, value);] *)
Definition add_claim (r : result) (name value : bytes) : result :=
  if negb (bytes_eqb value []) then result_add_header r name value else r.

(** The result for a valid token. *)
Definition claims_result (claims : jwt_claims) : result :=
  let result := result_pass in
  let result := add_claim result "X-Garcon-User-Id" (sub claims) in
  let result := add_claim result "X-Garcon-Roles" (roles claims) in
  let result := add_claim result "X-Garcon-Claim-iss" (iss claims) in
  add_claim result "X-Garcon-Claim-aud" (aud claims).

Definition handle (m : jwt_auth) (req : request) : prog W result :=
  if negb (enforced (rules m) req) then mret result_pass else
  token ← lift (match header_value req "Authorization" with
                | None => Ret None
                | Some auth_val => extract_bearer_token auth_val
                end);
  match token with
  | None => mret (result_respond (make_unauthorized ("missing token" ++ [newline])))
  | Some token =>
      v ← validate_and_extract token (secret m) (issuer m) (audience m);
      if negb (ok v) then
        let body : bytes := if bytes_eqb (out_failure v) "expired" then "token expired" ++ [newline]
                            else "invalid token" ++ [newline] in
        mret (result_respond (make_unauthorized body))
      else mret (claims_result (out_claims v))
  end.

Definition jwt_auth_module (config_text : bytes) : outcome (cpp_module W) :=
  m ← jwt_auth_config config_text; Ret (handle m).
End Module_.

(** ** The rule language *)

Definition wf_rule (r : auth_rule) : Prop :=
  (method_pattern r ≠ [] ∧ wf_field (method_pattern r)) ∧ wf_target (target_kind r) (target_pattern r).

#[export] Instance jwt_auth_syntax : RuleSyntax auth_rule := {
  rule_key := "rule=";
  rule_parse := parse_rule_line;
  rule_fields r := [method_pattern r; pattern_text (target_kind r) (target_pattern r)];
  rule_wf := wf_rule;
}.

#[export] Instance jwt_auth_syntax_laws : RuleSyntaxLaws auth_rule.
Proof.
  split.
  - split; [done|split; [|done]]. by apply (bool_decide_eq_true_1 _).
  - intros fields r Hnl. cbn [rule_parse rule_key rule_wf jwt_auth_syntax].
    unfold parse_rule_line, split_fields. rewrite substr_from_ret by (simpl; lia).
    cbn [app]. rewrite bind_ret, split_fields_ret, bind_ret. change (drop 5 _) with fields.
    pose proof (fields_wf fields Hnl) as HF.
    destruct (strip is_space <$> split_on "|" fields) as [|m [|t [|]]]; try done.
    cbn. unfold classify_target_pattern. rewrite !Forall_cons in HF. destruct HF as (Hfm & Hft & _).
    destruct (ConfigText.classify_target_pattern t) as [kind target] eqn:Ht.
    destruct (bytes_eqb m []) eqn:Hm; [done|]. destruct (bytes_eqb target []) eqn:Htn; [done|].
    apply bytes_eqb_nil in Hm, Htn. intros [= <-]. split; [done|]. by apply (classify_wf t).
  - intros r ([_ Hm] & _ & Ht & _). split; [done|]. by apply Forall_cons_2, Forall_cons_2, Forall_nil_2.
  - intros r ([Hm Hfm] & Ht). cbn [rule_parse rule_key rule_fields jwt_auth_syntax].
    unfold parse_rule_line, rule_line, split_fields. rewrite substr_from_ret by (simpl; lia).
    rewrite bind_ret. change (drop 5 _)
      with (join "|" [method_pattern r; pattern_text (target_kind r) (target_pattern r)]).
    rewrite split_fields_join, bind_ret; [|done|].
    2: { destruct Ht as (_ & ? & _). by apply Forall_cons_2, Forall_cons_2, Forall_nil_2. }
    apply wf_target_text in Ht as Htt. destruct Ht as [Ht _]. apply bytes_eqb_nil in Hm, Ht.
    cbn. unfold classify_target_pattern. rewrite Htt, Hm, Ht. by destruct r.
Qed.

(** ** Tokens *)

Definition decoded (text : bytes) : bytes := bytes_of_bits (sextet_bits text).

(** The token in the value of an [Authorization] field. *)
Definition bearer_token (value token : bytes) : Prop :=
  ∃ scheme rest, strip is_space value = scheme ++ " "%char :: rest ∧ (" "%char ∉ scheme) ∧
    ascii_lowercase (strip is_space scheme) = "bearer" ∧ token = strip is_space rest ∧ token ≠ [].

Lemma extract_bearer_token_spec value :
  ∃ t, extract_bearer_token value = Ret t ∧ ∀ token, t = Some token ↔ bearer_token value token.
Proof.
  unfold extract_bearer_token, trim. rewrite trim_ret, bind_ret. set (val := strip is_space value).
  assert (Hno : ∀ token, (" "%char ∉ val) → ¬ bearer_token value token).
  { intros token Hn (scheme & rest & Heq & _). apply Hn. fold val in Heq. rewrite Heq. set_solver. }
  destruct (bytes_eqb val []) eqn:Hnil.
  { exists None. split; [done|]. intros token. split; [done|]. intros H. exfalso. revert H. apply Hno.
    apply bool_decide_eq_true in Hnil. rewrite Hnil. apply not_elem_of_nil. }
  unfold find_char. rewrite find_drop, drop_0 by lia.
  destruct (search [" "%char] val) as [sp|] eqn:Hs; cbn [fmap option_fmap option_map].
  2: { exists None. split; [done|]. intros token. split; [done|]. intros H. exfalso. revert H. apply Hno.
       by apply search_char_None. }
  change (0 + sp) with sp. pose proof (search_length _ _ _ Hs) as Hlen. simpl in Hlen.
  apply search_char_Some in Hs as [Hn Hs].
  rewrite substr_ret, bind_ret, drop_0 by lia.
  rewrite trim_ret, bind_ret.
  assert (Huniq : ∀ scheme rest, val = scheme ++ " "%char :: rest → (" "%char ∉ scheme) →
    scheme = take sp val ∧ rest = drop (S sp) val).
  { intros scheme rest Heq Hns. rewrite Heq in Hs at 1.
    pose proof (f_equal (split_on " ") Hs) as Hsp. rewrite !split_on_app in Hsp by done.
    injection Hsp as Hsch _. rewrite Hsch in Hs. apply app_inv_head in Hs. by injection Hs as ->. }
  destruct (bytes_eqb (ascii_lowercase (strip is_space (take sp val))) "bearer") eqn:Hb; cbn [negb].
  - apply bool_decide_eq_true in Hb. rewrite substr_from_ret by lia. rewrite bind_ret, trim_ret, bind_ret.
    replace (sp + 1) with (S sp) by lia.
    destruct (bytes_eqb (strip is_space (drop (S sp) val)) []) eqn:Ht.
    + eexists. split; [done|]. intros token. split; [done|].
      intros (scheme & rest & Heq & Hns & _ & -> & Hne).
      destruct (Huniq _ _ Heq Hns) as [_ ->]. by apply bool_decide_eq_true in Ht.
    + eexists. split; [done|]. intros token. apply bytes_eqb_nil in Ht. split.
      * intros [= <-]. by exists (take sp val), (drop (S sp) val).
      * intros (scheme & rest & Heq & Hns & _ & -> & Hne).
        by destruct (Huniq _ _ Heq Hns) as [_ ->].
  - eexists. split; [done|]. intros token. split; [done|].
    intros (scheme & rest & Heq & Hns & Hl & _). exfalso.
    destruct (Huniq _ _ Heq Hns) as [-> _]. apply bool_decide_eq_false in Hb. done.
Qed.

(** Three non-empty parts without dots. *)
Definition parts_of (token h64 p64 s64 : bytes) : Prop :=
  token = h64 ++ "."%char :: p64 ++ "."%char :: s64 ∧
  Forall (λ part, ("."%char ∉ part) ∧ part ≠ []) [h64; p64; s64].

Lemma parts_of_split token h64 p64 s64 :
  parts_of token h64 p64 s64 ↔
  split_on "." token = [h64; p64; s64] ∧ h64 ≠ [] ∧ p64 ≠ [] ∧ s64 ≠ [].
Proof.
  unfold parts_of. rewrite !Forall_cons. split.
  - intros (-> & (Hh & ?) & (Hp & ?) & (Hs & ?) & _).
    by rewrite !split_on_app, split_on_none by done.
  - intros (Hsp & Hh & Hp & Hs). pose proof (join_split_on "." token) as Hj.
    pose proof (split_on_Forall "." token) as HF. rewrite Hsp in Hj, HF.
    rewrite !Forall_cons in HF. simpl in Hj. destruct HF as (? & ? & ? & _).
    split; [by rewrite <- Hj|]. by split_and!.
Qed.

Lemma token_parts_spec token :
  ∃ r, token_parts token = Ret r ∧
    ∀ h64 p64 s64, r = Some (h64, p64, s64) ↔ parts_of token h64 p64 s64.
Proof.
  assert (Hshort : ∀ r, split_on "." token = r → length r ≠ 3 →
    ∀ h64 p64 s64, None = Some (h64, p64, s64) ↔ parts_of token h64 p64 s64).
  { intros r Hr Hl h p s. rewrite parts_of_split, Hr. split; [done|]. intros [-> _]. done. }
  assert (Hfind : ∀ pos, pos ≤ length token → match find_char token "." pos with
    | None => split_on "." (drop pos token) = [drop pos token]
    | Some i => pos ≤ i < length token ∧
        split_on "." (drop pos token) = take (i - pos) (drop pos token) :: split_on "." (drop (i + 1) token)
    end).
  { intros pos Hpos. unfold find_char. rewrite find_drop by done.
    destruct (search ["."%char] (drop pos token)) as [j|] eqn:Hs; cbn [fmap option_fmap option_map].
    - pose proof (search_length _ _ _ Hs) as Hl. rewrite length_drop in Hl. simpl in Hl.
      split; [lia|]. apply search_char_Some in Hs as [Hn Hs]. rewrite Hs at 1.
      rewrite split_on_app, drop_drop by done. f_equal; [f_equal; lia|].
      f_equal. f_equal. lia.
    - apply search_char_None in Hs. by apply split_on_none. }
  unfold token_parts. pose proof (Hfind 0 ltac:(lia)) as H1. rewrite drop_0 in H1.
  destruct (find_char token "." 0) as [p1|]; [|eexists; split; [done|]; by eapply Hshort].
  destruct H1 as [Hp1 H1]. pose proof (Hfind (p1 + 1) ltac:(lia)) as H2.
  destruct (find_char token "." (p1 + 1)) as [p2|].
  2: { eexists. split; [done|]. eapply Hshort; [exact H1|]. by rewrite H2. }
  destruct H2 as [Hp2 H2]. pose proof (Hfind (p2 + 1) ltac:(lia)) as H3. rewrite H2 in H1.
  destruct (find_char token "." (p2 + 1)) as [p3|].
  { eexists. split; [done|]. eapply Hshort; [exact H1|]. destruct H3 as [_ ->].
    by destruct (split_on_cons "." (drop (p3 + 1) token)) as (? & ? & ->). }
  rewrite H3 in H1. rewrite !substr_ret, substr_from_ret, !bind_ret, drop_0, Nat.sub_0_r in * by lia.
  replace (p2 - p1 - 1) with (p2 - (p1 + 1)) by lia.
  set (h := take p1 token) in *. set (p := take (p2 - (p1 + 1)) (drop (p1 + 1) token)) in *.
  set (s := drop (p2 + 1) token) in *.
  destruct (bytes_eqb h [] || bytes_eqb p [] || bytes_eqb s []) eqn:He; eexists; (split; [done|]).
  - intros h' p' s'. split; [done|]. rewrite parts_of_split, H1. intros ([= <- <- <-] & Hh & Hp & Hs).
    apply bytes_eqb_nil in Hh, Hp, Hs. by rewrite Hh, Hp, Hs in He.
  - apply orb_false_iff in He as [[Hh Hp]%orb_false_iff Hs]. apply bytes_eqb_nil in Hh, Hp, Hs.
    intros h' p' s'. rewrite parts_of_split, H1. split; [by intros [= <- <- <-]|].
    by intros ([= <- <- <-] & _).
Qed.

Lemma find_occurs s needle : find s needle 0 ≠ None ↔ ∃ a b, s = a ++ needle ++ b.
Proof.
  rewrite find_drop, drop_0 by lia. split.
  - destruct (search needle s) as [i|] eqn:Hs; [|done]. intros _.
    apply search_split in Hs. by eexists _, _.
  - intros (a & b & ->) Hn. destruct (search needle (a ++ needle ++ b)) as [i|] eqn:Hs; [done|]. clear Hn.
    induction a as [|c a IH]; cbn [app] in Hs.
    + pose proof (prefixb_app needle b) as Hp. destruct (needle ++ b); unfold search in Hs; by rewrite Hp in Hs.
    + rewrite search_cons in Hs. destruct (prefixb _ _); [done|]. apply IH.
      by destruct (search needle (a ++ needle ++ b)).
Qed.

(** ** Valid tokens *)

(** A payload signed with the secret of the module, under a header that names
    HS256. *)
Definition signed_payload {W} `{!JwtWorld W} (m : jwt_auth) (token payload : bytes) : Prop :=
  ∃ h64 p64 s64 a b space, parts_of token h64 p64 s64 ∧ payload = decoded p64 ∧
    decoded h64 = a ++ alg_text space ++ b ∧ (space = [] ∨ space = [" "%char]) ∧
    let to_sign := h64 ++ "."%char :: p64 in
    HMAC (secret m) (int_of_size (length (secret m))) to_sign (int_of_size (length to_sign))
    = Some (decoded s64).

(** A token that is right, whatever the time. *)
Definition genuine {W} `{!JwtWorld W} (m : jwt_auth) (token : bytes) (claims : jwt_claims) : Prop :=
  ∃ payload, signed_payload m token payload ∧ extract_claims payload = Ret claims ∧
    (∀ required, issuer m = Some required → required ≠ [] → iss claims = required) ∧
    (∀ required, audience m = Some required → required ≠ [] → aud claims = required).

(** A token without an expiry, or before it; the clock is read only to compare. *)
Definition token_accepted {W} `{!JwtWorld W} (m : jwt_auth) (w : W) (token : bytes)
    (claims : jwt_claims) (w' : W) : Prop :=
  genuine m token claims ∧
  (exp claims = 0%Z ∧ w' = w ∨
   exp claims ≠ 0%Z ∧ ∃ now, time_now w = (now, w') ∧ (now < exp claims)%Z).

Definition token_expired {W} `{!JwtWorld W} (m : jwt_auth) (w : W) (token : bytes) (w' : W) : Prop :=
  ∃ claims now, genuine m token claims ∧ exp claims ≠ 0%Z ∧ time_now w = (now, w') ∧
    (exp claims ≤ now)%Z.

Lemma mismatch_spec required claim :
  mismatch required claim = false ↔ (∀ r, required = Some r → r ≠ [] → claim = r).
Proof.
  unfold mismatch. destruct required as [r|]; [|split; [by intros _ ? ?|done]].
  rewrite andb_false_iff, !negb_false_iff. unfold bytes_eqb. rewrite !bool_decide_eq_true.
  split; [by intros [-> | ->] ? [= <-]|].
  intros H. destruct (decide (r = [])) as [|Hr]; [by left|right; by apply H].
Qed.

Lemma header_is_hs256_spec header :
  header_is_hs256 header = true ↔
  ∃ a b space, header = a ++ alg_text space ++ b ∧ (space = [] ∨ space = [" "%char]).
Proof.
  unfold header_is_hs256. rewrite bool_decide_eq_true, !find_occurs. split.
  - intros [(a & b & ->)|(a & b & ->)]; eexists a, b, _; split; [done|by left|done|by right].
  - intros (a & b & space & -> & [-> | ->]); [left|right]; by exists a, b.
Qed.

Section Validation.
Context {W : Type} `{!JwtWorld W}.

Lemma signed_payload_parts (m : jwt_auth) token h64 p64 s64 payload :
  parts_of token h64 p64 s64 →
  signed_payload m token payload ↔
  payload = decoded p64 ∧ header_is_hs256 (decoded h64) = true ∧
  signature_matches (secret m) (h64 ++ "."%char :: p64) (decoded s64) = true.
Proof.
  intros Hparts. rewrite header_is_hs256_spec. unfold signature_matches, signed_payload. split.
  - intros (h & p & s & a & b & space & Hp & -> & Ha & Hsp & Hmac). apply parts_of_split in Hparts, Hp.
    destruct Hparts as [Hs1 _], Hp as [Hs2 _]. rewrite Hs1 in Hs2. injection Hs2 as -> -> ->.
    split; [done|]. split; [by eexists a, b, _|]. rewrite Hmac. by apply bool_decide_eq_true.
  - intros (-> & (a & b & space & Ha & Hsp) & Hmac).
    exists h64, p64, s64, a, b, space. split_and!; try done. simpl.
    destruct (HMAC _ _ _ _) as [mac|]; [|done]. apply bool_decide_eq_true in Hmac. by f_equal.
Qed.

Lemma genuine_claims (m : jwt_auth) token payload claims :
  signed_payload m token payload → genuine m token claims ↔
  extract_claims payload = Ret claims ∧ mismatch (issuer m) (iss claims) = false ∧
  mismatch (audience m) (aud claims) = false.
Proof.
  intros Hs. unfold genuine. rewrite !mismatch_spec. split; [|by exists payload].
  intros (payload' & Hs' & H). destruct Hs as (h & p & s & a & b & sp & Hp & Hrest).
  pose proof Hp as Hp'.
  apply (signed_payload_parts m _ _ _ _ payload') in Hp'. destruct Hrest as [-> _].
  destruct Hp' as [Hp' _]. by destruct (Hp' Hs') as [-> _].
Qed.

Lemma read_clock_ret (w : W) : read_clock w = (Ret (fst (time_now w)), snd (time_now w)).
Proof. unfold read_clock. by destruct (time_now w). Qed.

(** Every outcome of the validation. *)
Lemma validate_cases (m : jwt_auth) token (w : W) :
  match validate_and_extract token (secret m) (issuer m) (audience m) w with
  | (Ret v, w') =>
      if ok v then token_accepted m w token (out_claims v) w'
      else if bytes_eqb (out_failure v) "expired" then token_expired m w token w'
      else w' = w ∧ ∀ claims, ¬ genuine m token claims
  | (Undef, w') => w' = w ∧ ∃ payload, signed_payload m token payload ∧ extract_claims payload = Undef
  | _ => False
  end.
Proof.
  unfold validate_and_extract. destruct (token_parts_spec token) as (r & Hr & Hparts).
  rewrite Hr, lift_bind.
  assert (Hno : (∀ payload, ¬ signed_payload m token payload) → ∀ claims, ¬ genuine m token claims).
  { intros Hn claims (payload & Hs & _). by apply (Hn payload). }
  destruct r as [[[h64 p64] s64]|].
  2: { split; [done|]. apply Hno. intros payload (h & p & s & _ & _ & _ & Hp & _). by apply Hparts in Hp. }
  specialize (proj1 (Hparts h64 p64 s64) eq_refl) as Hp.
  pose proof (λ payload, signed_payload_parts m token h64 p64 s64 payload Hp) as Hsigned.
  rewrite (base64url_decode_spec h64), lift_bind, (base64url_decode_spec p64), lift_bind.
  rewrite (base64url_decode_spec s64), lift_bind.
  fold (decoded h64) (decoded p64) (decoded s64).
  destruct (header_is_hs256 (decoded h64)) eqn:Hh; cbn [negb].
  2: { split; [done|]. apply Hno. intros payload. rewrite Hsigned. intros (_ & ? & _). congruence. }
  change (h64 ++ of_string "." ++ p64) with (h64 ++ "."%char :: p64).
  destruct (signature_matches _ _ _) eqn:Hsig; cbn [negb].
  2: { split; [done|]. apply Hno. intros payload. rewrite Hsigned. intros (_ & _ & ?). congruence. }
  assert (Hs : signed_payload m token (decoded p64)) by (by apply Hsigned).
  pose proof (genuine_claims m token (decoded p64)) as Hg.
  destruct (extract_claims_total (decoded p64)) as [[claims Hc]|Hc]; rewrite Hc.
  2: { split; [done|]. by exists (decoded p64). }
  rewrite lift_bind. specialize (Hg claims Hs) as Hgc. rewrite Hc in Hgc.
  assert (Hnog : ¬ genuine m token claims → ∀ claims, ¬ genuine m token claims).
  { intros Hn c Hgen. apply Hn. pose proof Hgen as Hgen'. apply Hg in Hgen' as [Hc' _]; [|done].
    rewrite Hc in Hc'. by injection Hc' as <-. }
  destruct (mismatch (issuer m) (iss claims)) eqn:Hi; cbn [ok out_failure].
  { split; [done|]. apply Hnog. rewrite Hgc. intros (_ & ? & _). congruence. }
  destruct (mismatch (audience m) (aud claims)) eqn:Ha; cbn [ok out_failure].
  { split; [done|]. apply Hnog. rewrite Hgc. intros (_ & _ & ?). congruence. }
  assert (Hgen : genuine m token claims) by (by apply Hgc).
  destruct (Z.eqb_spec (exp claims) 0) as [He|He]; cbn [negb].
  { split; [done|by left]. }
  rewrite (prog_bind_ret _ _ _ _ _ (read_clock_ret w)). destruct (time_now w) as [now w1] eqn:Hnow.
  cbn [fst snd]. destruct (Z.leb_spec (exp claims) now).
  - change (token_expired m w token w1). by exists claims, now.
  - split; [done|]. right. split; [done|]. by exists now.
Qed.

(** ** The gate *)

(** The rules cover the request; without rules every request is covered. *)
Definition in_scope (rules : list auth_rule) (req : request) : Prop :=
  rules = [] ∨ ∃ r, r ∈ rules ∧
    (method_pattern r = "*" ∨ method_pattern r = method req) ∧
    match target_kind r with
    | pk_exact => target req = target_pattern r
    | pk_prefix => target_pattern r `prefix_of` target req
    end.

Lemma enforced_spec rules req : enforced rules req = true ↔ in_scope rules req.
Proof.
  unfold enforced, in_scope. destruct rules as [|r rules]; [by split; [left|]|].
  rewrite existsb_exists. split.
  - intros (r' & Hr & [Hm Ht]%andb_prop). right. exists r'. rewrite list_elem_of_In.
    apply method_matches_spec in Hm. by apply target_matches_spec in Ht.
  - intros [|(r' & Hr & Hm & Ht)]; [done|]. exists r'. rewrite <- list_elem_of_In. split; [done|].
    apply method_matches_spec in Hm. apply target_matches_spec in Ht.
    unfold method_matches, target_matches. by rewrite Hm, Ht.
Qed.

(** The request carries a token that is accepted. *)
Definition authorized (m : jwt_auth) (req : request) (w : W) (claims : jwt_claims) (w' : W) : Prop :=
  ∃ value token, header_value req "Authorization" = Some value ∧ bearer_token value token ∧
    token_accepted m w token claims w'.

(** The headers that carry the claims. *)
Definition claim_headers (claims : jwt_claims) : list header_field :=
  List.filter (λ h, negb (bytes_eqb (hvalue h) []))
    [HeaderField "X-Garcon-User-Id" (sub claims); HeaderField "X-Garcon-Roles" (roles claims);
     HeaderField "X-Garcon-Claim-iss" (iss claims); HeaderField "X-Garcon-Claim-aud" (aud claims)].

Lemma claims_result_headers claims : claims_result claims = Result mo_pass None (claim_headers claims).
Proof.
  unfold claims_result, claim_headers, add_claim, result_add_header, result_pass.
  cbn [List.filter hvalue].
  by destruct (bytes_eqb (sub claims) []), (bytes_eqb (roles claims) []),
    (bytes_eqb (iss claims) []), (bytes_eqb (aud claims) []).
Qed.

(** What the host makes of a call of the module. *)
Inductive gate_outcome (m : jwt_auth) (req : request) (w : W) : outcome module_result * W → Prop :=
  | gate_open : ¬ in_scope (rules m) req → gate_outcome m req w (Ret (pass_result []), w)
  | gate_authorized claims w' :
      in_scope (rules m) req → authorized m req w claims w' →
      gate_outcome m req w (Ret (pass_result (claim_headers claims)), w')
  | gate_missing :
      in_scope (rules m) req →
      (∀ value token, header_value req "Authorization" = Some value → ¬ bearer_token value token) →
      gate_outcome m req w
        (Ret (respond_result (make_unauthorized ("missing token" ++ [newline]))), w)
  | gate_expired value token w' :
      in_scope (rules m) req → header_value req "Authorization" = Some value →
      bearer_token value token → token_expired m w token w' →
      gate_outcome m req w
        (Ret (respond_result (make_unauthorized ("token expired" ++ [newline]))), w')
  | gate_invalid value token :
      in_scope (rules m) req → header_value req "Authorization" = Some value →
      bearer_token value token → (∀ claims, ¬ genuine m token claims) →
      gate_outcome m req w
        (Ret (respond_result (make_unauthorized ("invalid token" ++ [newline]))), w)
  | gate_overflow value token payload :
      in_scope (rules m) req → header_value req "Authorization" = Some value →
      bearer_token value token → signed_payload m token payload → extract_claims payload = Undef →
      gate_outcome m req w (Undef, w).

Lemma jwt_handle_cases name (m : jwt_auth) req (w : W) :
  gate_outcome m req w (module_handle (loaded name (handle m)) req w).
Proof.
  rewrite loaded_handle. unfold handle.
  change (enforced (rules m) (abi_request req)) with (enforced (rules m) req).
  change (header_value (abi_request req) "Authorization") with (header_value req "Authorization").
  destruct (enforced (rules m) req) eqn:Henf; cbn [negb].
  2: { cbn. apply gate_open. rewrite <- enforced_spec. congruence. }
  apply enforced_spec in Henf.
  destruct (header_value req "Authorization") as [value|] eqn:Hh.
  2: { rewrite lift_bind. apply gate_missing; [done|]. by rewrite Hh. }
  destruct (extract_bearer_token_spec value) as (t & -> & Ht). rewrite lift_bind.
  destruct t as [token|].
  2: { apply gate_missing; [done|]. intros value' token. rewrite Hh. intros [= <-]. by rewrite <- Ht. }
  assert (Hb : bearer_token value token) by (by apply Ht).
  pose proof (validate_cases m token w) as Hv. unfold mbind, prog_bind.
  destruct (validate_and_extract _ _ _ _ w) as [[v|e| |] w'] eqn:Hval; [|done| |done].
  - destruct (ok v); cbn [negb].
    + rewrite claims_result_headers. apply gate_authorized; [done|]. by exists value, token.
    + destruct (bytes_eqb (out_failure v) "expired").
      * by eapply gate_expired.
      * destruct Hv as [-> Hv]. by eapply gate_invalid.
  - destruct Hv as [-> (payload & ? & ?)]. by eapply gate_overflow.
Qed.

(** ** The theorems *)

Lemma signed_payload_unique (m : jwt_auth) token p1 p2 :
  signed_payload m token p1 → signed_payload m token p2 → p1 = p2.
Proof.
  intros H1 H2. destruct H2 as (h & p & s & a & b & sp & Hp & Heq & Hrest). clear Hrest.
  destruct (proj1 (signed_payload_parts m token h p s p1 Hp) H1) as [Heq1 _]. congruence.
Qed.

Lemma genuine_payload (m : jwt_auth) token payload claims :
  genuine m token claims → signed_payload m token payload → extract_claims payload = Ret claims.
Proof. intros (p & Hs & Hc & _) Hs'. by rewrite (signed_payload_unique m token payload p). Qed.

Lemma genuine_unique (m : jwt_auth) token c1 c2 : genuine m token c1 → genuine m token c2 → c1 = c2.
Proof.
  intros (p & Hs & Hc & _) H2. pose proof (genuine_payload m token p c2 H2 Hs). congruence.
Qed.

Lemma token_accepted_unique (m : jwt_auth) w token c1 c2 w1 w2 :
  token_accepted m w token c1 w1 → token_accepted m w token c2 w2 → c1 = c2 ∧ w1 = w2.
Proof.
  intros [H1 Ht1] [H2 Ht2]. pose proof (genuine_unique m token c1 c2 H1 H2) as ->. split; [done|].
  destruct Ht1 as [[? ->]|(? & n1 & Hn1 & _)], Ht2 as [[? ->]|(? & n2 & Hn2 & _)]; try done.
  congruence.
Qed.

Lemma validate_accepted (m : jwt_auth) token (w : W) claims w' :
  token_accepted m w token claims w' →
  ∃ v, validate_and_extract token (secret m) (issuer m) (audience m) w = (Ret v, w') ∧
    ok v = true ∧ out_claims v = claims.
Proof.
  intros Ha. pose proof (validate_cases m token w) as Hv.
  destruct (validate_and_extract _ _ _ _ w) as [[v|e| |] w1]; [|done| |done].
  - destruct (ok v) eqn:Hok.
    + destruct (token_accepted_unique _ _ _ _ _ _ _ Ha Hv) as [-> ->]. by exists v.
    + exfalso. destruct Ha as [Hg Ht]. destruct (bytes_eqb (out_failure v) "expired").
      * destruct Hv as (c & now & Hg' & He & Hnow & Hle).
        pose proof (genuine_unique _ _ _ _ Hg Hg') as ->.
        destruct Ht as [[? _]|(_ & n & Hn & Hlt)]; [done|]. rewrite Hnow in Hn. injection Hn as <- _. lia.
      * destruct Hv as [_ Hv]. by apply (Hv claims).
  - exfalso. destruct Hv as [_ (p & Hs & Hc)]. destruct Ha as [Hg _].
    pose proof (genuine_payload _ _ _ _ Hg Hs). congruence.
Qed.

(** C20: a token is accepted, with these claims, exactly when it has three
    non-empty parts, its header names HS256, its last part decodes to the HMAC of
    the text of the first two under the secret, the issuer and the audience of
    its claims are the required ones, and its expiry, if it has one, lies after
    the present second.  The call never throws and its loops stop; its behaviour
    is undefined only for a signed payload whose [exp] overflows. *)
Theorem jwt_token_decision (m : jwt_auth) token (w : W) :
  (∀ claims w',
    (∃ v, validate_and_extract token (secret m) (issuer m) (audience m) w = (Ret v, w') ∧
       ok v = true ∧ out_claims v = claims) ↔ token_accepted m w token claims w') ∧
  (returns (fst (validate_and_extract token (secret m) (issuer m) (audience m) w)) ∨
   ∃ payload, signed_payload m token payload ∧ extract_claims payload = Undef).
Proof.
  pose proof (validate_cases m token w) as Hv. split.
  - intros claims w'. split; [|apply validate_accepted]. intros (v & Heq & Hok & <-).
    by rewrite Heq, Hok in Hv.
  - destruct (validate_and_extract _ _ _ _ w) as [[v|e| |] w1]; [left|done|right|done].
    + apply returns_ret.
    + by destruct Hv as [_ ?].
Qed.

Lemma bearer_token_unique value t1 t2 : bearer_token value t1 → bearer_token value t2 → t1 = t2.
Proof.
  destruct (extract_bearer_token_spec value) as (t & _ & Ht). rewrite <- !Ht. congruence.
Qed.

Lemma jwt_handle_authorized name (m : jwt_auth) req (w : W) claims w' :
  in_scope (rules m) req → authorized m req w claims w' →
  module_handle (loaded name (handle m)) req w = (Ret (pass_result (claim_headers claims)), w').
Proof.
  intros Hin (value & token & Hh & Hb & Ha). rewrite loaded_handle. unfold handle.
  change (enforced (rules m) (abi_request req)) with (enforced (rules m) req).
  rewrite (proj2 (enforced_spec _ _) Hin). cbn [negb].
  change (header_value (abi_request req) "Authorization") with (header_value req "Authorization").
  rewrite Hh. destruct (extract_bearer_token_spec value) as (t & -> & Ht). rewrite lift_bind.
  apply Ht in Hb as ->. destruct (validate_accepted _ _ _ _ _ Ha) as (v & Hv & Hok & Hc).
  rewrite (prog_bind_ret _ _ _ _ _ Hv), Hok, Hc. cbn [negb]. by rewrite claims_result_headers.
Qed.

Lemma jwt_handle_open name (m : jwt_auth) req (w : W) :
  ¬ in_scope (rules m) req → module_handle (loaded name (handle m)) req w = (Ret (pass_result []), w).
Proof.
  intros Hn. rewrite loaded_handle. unfold handle.
  change (enforced (rules m) (abi_request req)) with (enforced (rules m) req).
  rewrite <- enforced_spec in Hn. apply not_true_is_false in Hn. by rewrite Hn.
Qed.

Lemma passes_snoc before (m : request_module W) req w hs w' :
  passes (before ++ [m]) req w hs w' ↔
  ∃ hs1 w1 hs2, passes before req w hs1 w1 ∧
    module_handle m req w1 = (Ret (pass_result hs2), w') ∧ hs = hs1 ++ hs2.
Proof.
  split.
  - revert w hs. induction before as [|m0 before IH]; intros w hs Hp; simpl in Hp.
    + inversion Hp as [|? ? ? ? hs2 w1 hs3 ? Hm Hnil]; subst. inversion Hnil; subst.
      exists [], w, hs2. split; [constructor|]. rewrite app_nil_r. done.
    + inversion Hp as [|? ? ? ? hs0 w1 hs3 ? Hm Hrest]; subst.
      destruct (IH _ _ Hrest) as (hs1 & w2 & hs2 & Hb & Hm2 & ->).
      exists (hs0 ++ hs1), w2, hs2. split_and!; [by econstructor|done|by rewrite app_assoc].
  - intros (hs1 & w1 & hs2 & Hb & Hm & ->). induction Hb as [req w|m0 ms req w hs w1 hs' w2 Hm0 Hb IH].
    + simpl. rewrite <- (app_nil_r hs2). econstructor; [done|constructor].
    + rewrite <- app_assoc. simpl. econstructor; [done|by apply IH].
Qed.

(** C11: the module is a gate.  A request passes the modules up to and including
    it exactly when it passes the earlier ones and is either out of the scope of
    the rules, and then nothing is changed, or carries an accepted token, whose
    claims are then added as headers. *)
Theorem jwt_gate name (m : jwt_auth) before req (w : W) hs w' :
  passes (before ++ [loaded name (handle m)]) req w hs w' ↔
  ∃ hs1 w1, passes before req w hs1 w1 ∧
    (¬ in_scope (rules m) req ∧ hs = hs1 ∧ w' = w1 ∨
     in_scope (rules m) req ∧
     ∃ claims, authorized m req w1 claims w' ∧ hs = hs1 ++ claim_headers claims).
Proof.
  rewrite passes_snoc. split.
  - intros (hs1 & w1 & hs2 & Hb & Hm & ->). exists hs1, w1. split; [done|].
    pose proof (jwt_handle_cases name m req w1) as Hc. rewrite Hm in Hc.
    inversion Hc as [Hn Heq|claims w2 Hin Ha Heq| | | |]; subst.
    + left. by rewrite app_nil_r.
    + right. split; [done|]. by exists claims.
  - intros (hs1 & w1 & Hb & [(Hn & -> & ->)|(Hin & claims & Ha & ->)]).
    + exists hs1, w1, []. rewrite app_nil_r. split_and!; [done|by apply jwt_handle_open|done].
    + exists hs1, w1, (claim_headers claims). split_and!; [done|by apply jwt_handle_authorized|done].
Qed.
(** Why a request in scope is refused, and the world after that. *)
Inductive refusal (m : jwt_auth) (req : request) (w : W) : bytes → W → Prop :=
  | refusal_missing :
      (∀ value token, header_value req "Authorization" = Some value → ¬ bearer_token value token) →
      refusal m req w "missing token" w
  | refusal_expired value token w' :
      header_value req "Authorization" = Some value → bearer_token value token →
      token_expired m w token w' → refusal m req w "token expired" w'
  | refusal_invalid value token :
      header_value req "Authorization" = Some value → bearer_token value token →
      (∀ claims, ¬ genuine m token claims) → refusal m req w "invalid token" w.

(** C35: a request in scope without an accepted token reaches no later module.
    The answer is 401 with the headers of the earlier modules, and its text tells
    a missing token, an expired one and an invalid one apart, and nothing else
    about them.  The exception is a payload, signed with the secret, whose [exp]
    does not fit a [long long]: there the behaviour is undefined. *)
Theorem jwt_refusals name (m : jwt_auth) before after req (w : W) hs w1 :
  passes before req w hs w1 → in_scope (rules m) req →
  (∀ claims w', ¬ authorized m req w1 claims w') →
  (∃ what w', refusal m req w1 what w' ∧
     pipeline_handle (before ++ loaded name (handle m) :: after) req w
     = (Ret (with_headers (text 401 "Unauthorized" (what ++ [newline])) hs), w')) ∨
  (∃ value token payload, header_value req "Authorization" = Some value ∧
     bearer_token value token ∧ signed_payload m token payload ∧ extract_claims payload = Undef ∧
     pipeline_handle (before ++ loaded name (handle m) :: after) req w = (Undef, w1)).
Proof.
  intros Hp Hin Hno. unfold pipeline_handle. rewrite (handle_from_passes _ _ _ _ _ _ _ Hp).
  cbn [handle_from]. pose proof (jwt_handle_cases name m req w1) as Hc.
  remember (module_handle (loaded name (handle m)) req w1) as res eqn:Heq. symmetry in Heq.
  destruct Hc as [Hn|claims w' _ Ha|_ Hm|value token w' _ Hh Hb He|value token _ Hh Hb Hg
    |value token payload _ Hh Hb Hs Hu].
  - done.
  - by destruct (Hno claims w').
  - left. exists "missing token", w1. split; [by constructor|].
    by rewrite (prog_bind_ret _ _ _ _ _ Heq).
  - left. exists "token expired", w'. split; [by econstructor|].
    by rewrite (prog_bind_ret _ _ _ _ _ Heq).
  - left. exists "invalid token", w1. split; [by econstructor|].
    by rewrite (prog_bind_ret _ _ _ _ _ Heq).
  - right. exists value, token, payload. split_and!; try done.
    unfold mbind, prog_bind. by rewrite Heq.
Qed.
End Validation.

(** ** A concrete run *)

(** A stand-in for the crypto library whose mac is a checksum, and a clock that
    counts. *)
#[export] Instance sample_jwt_world : JwtWorld Z := {
  HMAC key _ data _ := Some [char_of (foldl (λ acc c, 31 * acc + code c) 7 (key ++ data))%Z];
  time_now w := (w, w + 1)%Z;
}.

Definition sample_jwt : jwt_auth :=
  JwtAuth "k" "HS256" None None [AuthRule "*" "/jwt/" pk_prefix].

Definition sample_jwt_request (authorization : bytes) : request :=
  Request 1 1 "GET" "/jwt/x" [HeaderField "authorization" authorization].

(** A request with a token nobody signed. *)
Lemma jwt_refusals_witness :
  in_scope (rules sample_jwt) (sample_jwt_request "Bearer a.b.c") ∧
  ((∃ what w', refusal sample_jwt (sample_jwt_request "Bearer a.b.c") 5%Z what w' ∧
     pipeline_handle [loaded "jwt" (handle sample_jwt)] (sample_jwt_request "Bearer a.b.c") 5%Z
     = (Ret (with_headers (text 401 "Unauthorized" (what ++ [newline])) []), w')) ∨
   (∃ value token payload,
     header_value (sample_jwt_request "Bearer a.b.c") "Authorization" = Some value ∧
     bearer_token value token ∧ signed_payload sample_jwt token payload ∧
     extract_claims payload = Undef ∧
     pipeline_handle [loaded "jwt" (handle sample_jwt)] (sample_jwt_request "Bearer a.b.c") 5%Z
     = (Undef, 5%Z))).
Proof.
  assert (Hin : in_scope (rules sample_jwt) (sample_jwt_request "Bearer a.b.c"))
    by (apply enforced_spec; vm_compute; reflexivity).
  split; [exact Hin|].
  apply (jwt_refusals "jwt" sample_jwt [] [] (sample_jwt_request "Bearer a.b.c") 5%Z [] 5%Z);
    [constructor|exact Hin|].
  intros claims w' Ha.
  pose proof (jwt_handle_authorized "jwt" sample_jwt _ 5%Z claims w' Hin Ha) as H.
  vm_compute in H. discriminate H.
Defined.

(** A token with the sample checksum, its holder and its expiry. *)
Definition sample_token : bytes :=
  let h64 := base64url_encode (print_object [("alg" : bytes, JString "HS256")]) in
  let p64 := base64url_encode
    (print_object [("sub" : bytes, JString "alice"); ("exp" : bytes, JInt 100)]) in
  let to_sign := h64 ++ "."%char :: p64 in
  to_sign ++ "."%char ::
    base64url_encode (default [] (HMAC "k" 1%Z to_sign (Z.of_nat (length to_sign)))).

Example sample_token_passes :
  module_handle (loaded "jwt" (handle sample_jwt)) (sample_jwt_request ("Bearer " ++ sample_token)) 99%Z
  = (Ret (pass_result [HeaderField "X-Garcon-User-Id" "alice"]), 100%Z).
Proof. vm_compute. reflexivity. Qed.

Example sample_token_expires :
  fst (handle sample_jwt (sample_jwt_request ("Bearer " ++ sample_token)) 100%Z)
  = Ret (result_respond (make_unauthorized ("token expired" ++ [newline]))).
Proof. vm_compute. reflexivity. Qed.

(** Chars outside the alphabet in the signature part change nothing. *)
Example altered_token_passes :
  fst (handle sample_jwt (sample_jwt_request ("Bearer " ++ sample_token ++ "=!=")) 99%Z)
  = Ret (claims_result (JwtClaims "alice" [] [] [] 100)).
Proof. vm_compute. reflexivity. Qed.
