(* ===== verification/Cors.v ===== *)
(** * Cross-origin policy ([lib/cors/cors_module.cpp])

    Ordered rules per target; the first one whose target matches decides which
    origins and methods are allowed, and answers preflight requests. *)

From S2P Require Import Prelude.
From S2P Require Import StringView.
From S2P Require Import HttpHeader.
From S2P Require Import HttpRequest.
From S2P Require Import HttpResponse.
From S2P Require Import Pipeline.
From S2P Require Import ModuleAbi.
From S2P Require Import ConfigText.

(** [cors_module::origin_pattern] *)
Record origin_pattern := OriginPattern { origin_value : bytes; allow_any : bool }.

(** [cors_module::rule] *)
Record rule := Rule {
  target_pattern : bytes;
  target_kind : pattern_kind;
  allowed_origins : list origin_pattern;
  allowed_methods : list bytes;
  allow_methods_header : bytes;
  allow_headers_header : bytes;
}.

(** ** The configuration *)

Definition trim (value : bytes) : outcome bytes := StringView.trim value.

Definition split_fields (value : bytes) (delimiter : ascii) : outcome (list bytes) :=
  StringView.split_fields value delimiter.

Definition ascii_lower (ch : ascii) : ascii :=
  if in_range "A" "Z" ch then char_of (code ch - code "A" + code "a")%Z else ch.

Definition ascii_lowercase (value : bytes) : bytes := ascii_lower <$> value.

(** Not called by the module. *)
Definition ascii_iequals (left right : bytes) : bool :=
  if negb (length left =? length right) then false else iequals_loop left right.

Definition is_rule_line (line : bytes) : bool := starts_with "rule=" line.

Definition classify_target_pattern (pattern : bytes) : pattern_kind * bytes :=
  ConfigText.classify_target_pattern pattern.

Definition fail {A} (what : string) : outcome A := Throw (runtime_error what).

Definition parse_origin_pattern (value : bytes) : outcome origin_pattern :=
  if bytes_eqb value [] then fail "cors: origin pattern must not be empty" else
  Ret (OriginPattern value (bytes_eqb value "*")).

Definition parse_origin_patterns (value : bytes) : outcome (list origin_pattern) :=
  fields ← split_fields value ",";
  patterns ← push_items parse_origin_pattern fields [];
  match patterns with
  | [] => fail "cors: rule requires at least one origin"
  | _ => Ret patterns
  end.

Definition parse_allowed_methods (value : bytes) : outcome (list bytes) :=
  fields ← split_fields value ",";
  methods ← push_items (λ field, Ret (ascii_lowercase field)) fields [];
  match methods with
  | [] => fail "cors: rule requires at least one method"
  | _ => Ret methods
  end.

Definition parse_rule_line (line : bytes) : outcome rule :=
  text ← substr_from line 5;
  fields ← split_fields text "|";
  if negb (length fields =? 4) then fail "cors: rule requires 4 fields" else
  target_field ← field_at fields 0;
  let '(kind, target) := classify_target_pattern target_field in
  origins_field ← field_at fields 1;
  origins ← parse_origin_patterns origins_field;
  methods_field ← field_at fields 2;
  methods ← parse_allowed_methods methods_field;
  headers_field ← field_at fields 3;
  if bytes_eqb target [] then fail "cors: target pattern must not be empty" else
  Ret (Rule target kind origins methods methods_field headers_field).

Definition parse_rules (config_text : bytes) : outcome (list rule) :=
  parse_rule_lines is_rule_line parse_rule_line config_text.

(** ** The decision *)

Definition target_matches (kind : pattern_kind) (pattern actual : bytes) : bool :=
  ConfigText.target_matches kind pattern actual.

Definition is_preflight_request (req : request) : bool :=
  bytes_eqb (method req) "OPTIONS"
  && bool_decide (is_Some (header_value req "Origin"))
  && bool_decide (is_Some (header_value req "Access-Control-Request-Method")).

Definition origin_matches (pattern : origin_pattern) (origin : bytes) : bool :=
  allow_any pattern || bytes_eqb (origin_value pattern) origin.

(** The loops over the patterns return at the first that fits. *)
Definition origin_allowed (r : rule) (origin : bytes) : bool :=
  existsb (λ pattern, origin_matches pattern origin) (allowed_origins r).

Definition any_origin_allowed (r : rule) : bool :=
  existsb (λ pattern, allow_any pattern) (allowed_origins r).

Definition method_allowed (r : rule) (m : bytes) : bool :=
  let normalized := ascii_lowercase m in
  existsb (λ allowed_method, bytes_eqb allowed_method normalized) (allowed_methods r).

Definition allowed_origin_value (r : rule) (request_origin : bytes) : bytes :=
  if any_origin_allowed r then "*" else request_origin.

Definition add_cors_headers (resp : response) (r : rule) (request_origin : bytes)
    : outcome response :=
  resp ← set_header resp "Access-Control-Allow-Origin" (allowed_origin_value r request_origin);
  if negb (any_origin_allowed r) then add_header resp "Vary" "Origin" else Ret resp.

Definition make_preflight_response (r : rule) (request_origin : bytes) : outcome response :=
  let resp := Response 204 "No Content" [] [] [] (Some 0%Z) in
  resp ← add_cors_headers resp r request_origin;
  resp ← set_header resp "Access-Control-Allow-Methods" (allow_methods_header r);
  if negb (bytes_eqb (allow_headers_header r) [])
  then set_header resp "Access-Control-Allow-Headers" (allow_headers_header r)
  else Ret resp.

Definition make_cors_error (s : Z) (reason_phrase message : bytes) : response :=
  text s reason_phrase message.

Definition origin_not_allowed : response :=
  make_cors_error 403 "Forbidden" ("cors origin not allowed" ++ [newline]).
Definition method_not_allowed : response :=
  make_cors_error 405 "Method Not Allowed" ("cors method not allowed" ++ [newline]).

(** The loop of [cors_module::handle] over [_rules]. *)
Fixpoint handle_rules (rules : list rule) (req : request) (request_origin : bytes)
    : outcome result :=
  match rules with
  | [] => Ret result_pass
  | r :: rules =>
      if negb (target_matches (target_kind r) (target_pattern r) (target req))
      then handle_rules rules req request_origin else
      if negb (origin_allowed r request_origin) then
        if is_preflight_request req then Ret (result_respond origin_not_allowed)
        else Ret result_pass
      else if is_preflight_request req then
        let requested_method := default [] (header_value req "Access-Control-Request-Method") in
        if negb (method_allowed r requested_method) then Ret (result_respond method_not_allowed)
        else resp ← make_preflight_response r request_origin; Ret (result_respond resp)
      else if negb (method_allowed r (method req)) then Ret (result_respond method_not_allowed)
      else
        let res := result_add_header result_pass "Access-Control-Allow-Origin"
                     (allowed_origin_value r request_origin) in
        Ret (if negb (any_origin_allowed r) then result_add_header res "Vary" "Origin" else res)
  end.

Definition handle (rules : list rule) (req : request) : outcome result :=
  match header_value req "Origin" with
  | None => Ret result_pass
  | Some request_origin => handle_rules rules req request_origin
  end.

Definition cors_module {W} (config_text : bytes) : outcome (cpp_module W) :=
  rules ← parse_rules config_text; Ret (λ req, lift (handle rules req)).

(** ** The module has a rule language *)

Definition fields_of (r : rule) : list bytes :=
  [pattern_text (target_kind r) (target_pattern r); join "," (origin_value <$> allowed_origins r);
   allow_methods_header r; allow_headers_header r].

Definition wf_rule (r : rule) : Prop :=
  wf_target (target_kind r) (target_pattern r) ∧
  (allowed_origins r ≠ [] ∧
   Forall (λ p, wf_item (origin_value p) ∧ allow_any p = bytes_eqb (origin_value p) "*")
     (allowed_origins r)) ∧
  (allowed_methods r ≠ [] ∧
   allowed_methods r = lowercase <$> list_items (allow_methods_header r)) ∧
  wf_field (allow_methods_header r) ∧ wf_field (allow_headers_header r).

#[export] Instance cors_syntax : RuleSyntax rule := {
  rule_key := "rule=";
  rule_parse := parse_rule_line;
  rule_fields := fields_of;
  rule_wf := wf_rule;
}.

Definition origin_of (v : bytes) : origin_pattern := OriginPattern v (bytes_eqb v "*").

Lemma parse_origin_patterns_ret field ps :
  parse_origin_patterns field = Ret ps ↔ ps ≠ [] ∧ ps = origin_of <$> list_items field.
Proof.
  unfold parse_origin_patterns, split_fields. rewrite split_fields_ret, bind_ret.
  apply (push_items_list parse_origin_pattern origin_of). intros v Hv.
  unfold parse_origin_pattern. by rewrite (proj2 (bytes_eqb_nil v) Hv).
Qed.

Lemma parse_allowed_methods_ret field ms :
  parse_allowed_methods field = Ret ms ↔ ms ≠ [] ∧ ms = lowercase <$> list_items field.
Proof.
  unfold parse_allowed_methods, split_fields. rewrite split_fields_ret, bind_ret.
  by apply (push_items_list (λ field, Ret (ascii_lowercase field)) lowercase).
Qed.

Lemma cors_parse_rule_line_wf fields r :
  newline ∉ fields → parse_rule_line (("rule=" : bytes) ++ fields) = Ret r → wf_rule r.
Proof.
  intros Hnl. unfold parse_rule_line, split_fields. rewrite substr_from_ret by (simpl; lia).
  cbn [app]. rewrite bind_ret, split_fields_ret, bind_ret.
  change (drop 5 _) with fields. pose proof (fields_wf fields Hnl) as HF.
  destruct (strip is_space <$> split_on "|" fields) as [|t [|o [|m [|h [|]]]]];
    try done; intros H; cbn in H; unfold fail, classify_target_pattern in H.
  destruct (ConfigText.classify_target_pattern t) as [kind target] eqn:Ht. inv_bind H.
  cbn in H. inv_bind H. cbn in H. destruct (bytes_eqb target []) eqn:Htn; [done|].
  injection H as <-. apply bytes_eqb_nil in Htn. rewrite !Forall_cons in HF. destruct_and?.
  apply parse_origin_patterns_ret in Ha as [Hne Heq].
  apply parse_allowed_methods_ret in Ha0 as [Hmne Hmeq].
  split; [by apply (classify_wf t)|split; [split; [done|]|done]].
  cbn [allowed_origins]. rewrite Heq, Forall_fmap.
  eapply Forall_impl; [by apply list_items_wf|]. by intros v Hv.
Qed.

Lemma wf_origins_items r : wf_rule r → Forall wf_item (origin_value <$> allowed_origins r).
Proof.
  intros (_ & [_ HF] & _). rewrite Forall_fmap. eapply Forall_impl; [exact HF|]. by intros p [? _].
Qed.

Lemma cors_fields_of_wf r : wf_rule r → fields_of r ≠ [] ∧ Forall wf_field (fields_of r).
Proof.
  intros Hwf. pose proof (wf_origins_items r Hwf).
  destruct Hwf as ((_ & ? & _) & [Hne _] & _ & ? & ?). split; [done|].
  unfold fields_of. rewrite !Forall_cons. split_and!; try done.
  apply join_items_wf; [by destruct (allowed_origins r)|done].
Qed.

Lemma cors_parse_rule_line_fields r :
  wf_rule r → parse_rule_line (rule_line "rule=" (fields_of r)) = Ret r.
Proof.
  intros Hwf. destruct (cors_fields_of_wf r Hwf) as [Hne HF].
  pose proof (wf_origins_items r Hwf) as Hitems.
  destruct Hwf as (Ht & [Hone Ho] & [Hmne Hm] & _).
  unfold parse_rule_line, rule_line, split_fields.
  rewrite substr_from_ret by (simpl; lia). rewrite bind_ret.
  change (drop 5 _) with (join "|" (fields_of r)).
  rewrite split_fields_join, bind_ret by done.
  apply wf_target_text in Ht as Htt. destruct Ht as [Ht _].
  destruct r as [t k o ms mh hh]. unfold fields_of, classify_target_pattern in *.
  cbn [target_pattern target_kind allowed_origins allowed_methods allow_methods_header
    allow_headers_header] in *.
  assert (Hp : parse_origin_patterns (join "," (origin_value <$> o)) = Ret o).
  { apply parse_origin_patterns_ret. split; [done|].
    rewrite list_items_join by (by destruct o).
    rewrite <- list_fmap_compose. rewrite <- (list_fmap_id o) at 1.
    apply list_fmap_ext. intros i [v any] Hi. rewrite Forall_lookup in Ho.
    destruct (Ho i _ Hi) as [_ Hany]. cbn in Hany |- *. by rewrite Hany. }
  assert (Hp2 : parse_allowed_methods mh = Ret ms) by by apply parse_allowed_methods_ret.
  apply bytes_eqb_nil in Ht. cbn. rewrite Htt, Hp. cbn. rewrite Hp2. cbn. by rewrite Ht.
Qed.

#[export] Instance cors_syntax_laws : RuleSyntaxLaws rule.
Proof.
  split.
  - split; [done|split; [|done]]. by apply (bool_decide_eq_true_1 _).
  - exact cors_parse_rule_line_wf.
  - exact cors_fields_of_wf.
  - exact cors_parse_rule_line_fields.
Qed.

(** ** Properties *)

Definition covers (r : rule) (req : request) : Prop :=
  match target_kind r with
  | pk_exact => target req = target_pattern r
  | pk_prefix => target_pattern r `prefix_of` target req
  end.

Definition allows_origin (r : rule) (origin : bytes) : Prop :=
  ∃ p, p ∈ allowed_origins r ∧ (allow_any p = true ∨ origin_value p = origin).

Definition allows_any_origin (r : rule) : Prop :=
  ∃ p, p ∈ allowed_origins r ∧ allow_any p = true.

Definition allows_method (r : rule) (m : bytes) : Prop := lowercase m ∈ allowed_methods r.

(** The method a request asks about: the requested one of a preflight. *)
Definition effective_method (req : request) : bytes :=
  if is_preflight_request req then default [] (header_value req "Access-Control-Request-Method")
  else method req.

Lemma origin_allowed_spec r origin : origin_allowed r origin = true ↔ allows_origin r origin.
Proof.
  unfold origin_allowed, allows_origin. rewrite existsb_exists. unfold origin_matches, bytes_eqb.
  split; intros (p & Hin & H); exists p; rewrite list_elem_of_In in *;
    rewrite orb_true_iff, bool_decide_eq_true in *; done.
Qed.

Lemma any_origin_allowed_spec r : any_origin_allowed r = true ↔ allows_any_origin r.
Proof.
  unfold any_origin_allowed, allows_any_origin. rewrite existsb_exists.
  by split; intros (p & Hin & H); exists p; rewrite list_elem_of_In in *.
Qed.

Lemma method_allowed_spec r m : method_allowed r m = true ↔ allows_method r m.
Proof.
  unfold method_allowed, allows_method. rewrite existsb_exists. unfold bytes_eqb. split.
  - intros (x & Hin%list_elem_of_In & ->%bool_decide_eq_true_1). done.
  - intros Hin%list_elem_of_In. eexists. split; [exact Hin|]. by apply bool_decide_eq_true_2.
Qed.

(** The headers that grant access to an origin. *)
Definition grant (r : rule) (origin : bytes) : list header_field :=
  HeaderField "Access-Control-Allow-Origin" (if any_origin_allowed r then "*" else origin)
  :: (if any_origin_allowed r then [] else [HeaderField "Vary" "Origin"]).

(** The reply to an allowed preflight request. *)
Definition preflight_reply (r : rule) (origin : bytes) : response :=
  Response 204 "No Content" []
    (grant r origin ++ HeaderField "Access-Control-Allow-Methods" (allow_methods_header r)
     :: (if bytes_eqb (allow_headers_header r) [] then []
         else [HeaderField "Access-Control-Allow-Headers" (allow_headers_header r)])) [] (Some 0%Z).

(** What the module does with a request of origin [origin] under its rules. *)
Inductive cors_answer : list rule → request → bytes → result → Prop :=
  | cors_no_rule req origin : cors_answer [] req origin result_pass
  | cors_skip r rules req origin res :
      ¬ covers r req → cors_answer rules req origin res → cors_answer (r :: rules) req origin res
  | cors_bad_origin r rules req origin :
      covers r req → ¬ allows_origin r origin →
      cors_answer (r :: rules) req origin
        (if is_preflight_request req then result_respond origin_not_allowed else result_pass)
  | cors_bad_method r rules req origin :
      covers r req → allows_origin r origin → ¬ allows_method r (effective_method req) →
      cors_answer (r :: rules) req origin (result_respond method_not_allowed)
  | cors_granted r rules req origin :
      covers r req → allows_origin r origin → allows_method r (effective_method req) →
      cors_answer (r :: rules) req origin
        (if is_preflight_request req then result_respond (preflight_reply r origin)
         else Result mo_pass None (grant r origin)).

(** The texts of a rule can stand in a header. *)
Definition printable (r : rule) : Prop :=
  valid_header_value (allow_methods_header r) = true ∧
  valid_header_value (allow_headers_header r) = true.

Ltac fresh_names := repeat constructor; vm_compute; reflexivity.

Lemma make_preflight_response_ret r origin :
  printable r → valid_header_value origin = true →
  make_preflight_response r origin = Ret (preflight_reply r origin).
Proof.
  intros [Hm Hh] Ho. unfold make_preflight_response, add_cors_headers, allowed_origin_value,
    preflight_reply, grant.
  assert (Hav : valid_header_value (if any_origin_allowed r then "*" : bytes else origin) = true)
    by by destruct (any_origin_allowed r).
  rewrite set_header_new by (done || fresh_names). rewrite bind_ret. cbn [with_headers response_headers].
  destruct (any_origin_allowed r); cbn [negb].
  2: rewrite add_header_ret by done. all: rewrite bind_ret.
  all: rewrite set_header_new by (done || fresh_names); rewrite bind_ret.
  all: destruct (bytes_eqb (allow_headers_header r) []); cbn [negb]; [done|].
  all: rewrite set_header_new by (done || fresh_names); done.
Qed.

Lemma target_covers r req :
  target_matches (target_kind r) (target_pattern r) (target req) = true ↔ covers r req.
Proof. unfold covers. apply target_matches_spec. Qed.

Lemma handle_rules_answer rules req origin res :
  Forall printable rules → valid_header_value origin = true →
  cors_answer rules req origin res → handle_rules rules req origin = Ret res.
Proof.
  intros HF Ho. induction 1 as [req origin|r rules req origin res Hc _ IH|r rules req origin Hc Hao
    |r rules req origin Hc Hao Ham|r rules req origin Hc Hao Ham];
    [done| | | |]; apply Forall_cons in HF as [Hp HF]; cbn [handle_rules];
    rewrite <- target_covers in Hc.
  { apply not_true_is_false in Hc as ->. by apply IH. }
  all: rewrite Hc; cbn [negb]; rewrite <- origin_allowed_spec in Hao.
  { apply not_true_is_false in Hao as ->. cbn [negb]. by destruct (is_preflight_request req). }
  all: rewrite Hao; cbn [negb]; rewrite <- method_allowed_spec in Ham; unfold effective_method in Ham.
  - apply not_true_is_false in Ham. destruct (is_preflight_request req); by rewrite Ham.
  - destruct (is_preflight_request req); rewrite Ham; cbn [negb].
    + by rewrite make_preflight_response_ret.
    + unfold grant, allowed_origin_value. by destruct (any_origin_allowed r).
Qed.

Lemma cors_answer_total rules req origin : ∃ res, cors_answer rules req origin res.
Proof.
  induction rules as [|r rules [res IH]]; [eexists; constructor|].
  destruct (target_matches (target_kind r) (target_pattern r) (target req)) eqn:Hc.
  2: { eexists. apply cors_skip; [|exact IH]. rewrite <- target_covers. by rewrite Hc. }
  apply target_covers in Hc.
  destruct (origin_allowed r origin) eqn:Ho.
  2: { eexists. apply cors_bad_origin; [done|]. rewrite <- origin_allowed_spec. by rewrite Ho. }
  apply origin_allowed_spec in Ho.
  destruct (method_allowed r (effective_method req)) eqn:Hm.
  - eexists. apply cors_granted; [done|done|by apply method_allowed_spec].
  - eexists. apply cors_bad_method; [done|done|]. rewrite <- method_allowed_spec. by rewrite Hm.
Qed.

(** For a request that names an origin, the module's decision is the one
    of [cors_answer] and no other: the first rule whose target matches decides;
    an origin it does not list gets 403 on a preflight request and no headers
    otherwise; a method it does not list gets 405; the rest is granted. *)
Theorem cors_decision rules req origin res :
  Forall printable rules → valid_header_value origin = true →
  header_value req "Origin" = Some origin →
  handle rules req = Ret res ↔ cors_answer rules req origin res.
Proof.
  intros HF Ho Hreq. unfold handle. rewrite Hreq. split.
  - destruct (cors_answer_total rules req origin) as [res' Ha].
    rewrite (handle_rules_answer _ _ _ _ HF Ho Ha). by intros [= <-].
  - by apply handle_rules_answer.
Qed.

(** The headers a result sends on. *)
Definition result_fields (res : result) : list header_field :=
  match response_value res with Some resp => response_headers resp | None => [] end
  ++ result_headers res.

Lemma preflight_fields r origin :
  result_fields (result_respond (preflight_reply r origin))
  = grant r origin ++ HeaderField "Access-Control-Allow-Methods" (allow_methods_header r)
     :: (if bytes_eqb (allow_headers_header r) [] then []
         else [HeaderField "Access-Control-Allow-Headers" (allow_headers_header r)]).
Proof. apply app_nil_r. Qed.

(** C10: access is only granted as configured: when a result carries
    [Access-Control-Allow-Origin], in any spelling, the request has an origin
    that the first rule for its target allows, the method is allowed too, and
    the value is [*] only when that rule lists [*]; otherwise it is the origin
    of the request and [Vary: Origin] is sent with it. *)
Theorem cors_grants rules req res h :
  Forall printable rules →
  (∀ origin, header_value req "Origin" = Some origin → valid_header_value origin = true) →
  handle rules req = Ret res → h ∈ result_fields res →
  name_equiv (hname h) "Access-Control-Allow-Origin" →
  ∃ origin before r after,
    header_value req "Origin" = Some origin ∧ rules = before ++ r :: after ∧
    Forall (λ r, ¬ covers r req) before ∧ covers r req ∧
    allows_origin r origin ∧ allows_method r (effective_method req) ∧
    ((hvalue h = "*" ∧ allows_any_origin r) ∨
     (hvalue h = origin ∧ ¬ allows_any_origin r ∧ HeaderField "Vary" "Origin" ∈ result_fields res)).
Proof.
  intros HF Hval Hh Hin Hname. unfold handle in Hh.
  destruct (header_value req "Origin") as [origin|] eqn:Ho;
    [|injection Hh as <-; by apply not_elem_of_nil in Hin].
  destruct (cors_answer_total rules req origin) as [res' Ha].
  rewrite (handle_rules_answer _ _ _ _ HF (Hval _ eq_refl) Ha) in Hh. injection Hh as ->.
  exists origin. clear HF Hval.
  assert (Hgrant : ∀ r hs, h ∈ grant r origin ++ hs →
    Forall (λ h', ¬ name_equiv (hname h') "Access-Control-Allow-Origin") hs →
    (∀ x, x ∈ grant r origin → x ∈ result_fields res) →
    (hvalue h = "*" ∧ allows_any_origin r) ∨
    (hvalue h = origin ∧ ¬ allows_any_origin r ∧ HeaderField "Vary" "Origin" ∈ result_fields res)).
  { intros r hs Hg Hhs Hsub. rewrite <- any_origin_allowed_spec. unfold grant in Hg, Hsub.
    rewrite Forall_forall in Hhs. apply elem_of_app in Hg as [Hg|Hg]; [|by destruct (Hhs h Hg)].
    destruct (any_origin_allowed r).
    - left. apply list_elem_of_singleton in Hg as ->. done.
    - right. apply elem_of_cons in Hg as [->|Hg];
        [|apply list_elem_of_singleton in Hg as ->; by vm_compute in Hname].
      split_and!; [done|done|]. apply Hsub. right. left. }
  induction Ha as [req origin|r rules req origin res Hc _ IH|r rules req origin Hc Hao
    |r rules req origin Hc Hao Ham|r rules req origin Hc Hao Ham].
  - by apply not_elem_of_nil in Hin.
  - destruct IH as (before & r' & after & ? & -> & Hb & Hrest); [done..|].
    exists (r :: before), r', after. split_and!; [done|done|by constructor|apply Hrest..].
  - exfalso. destruct (is_preflight_request req); by apply not_elem_of_nil in Hin.
  - by apply not_elem_of_nil in Hin.
  - exists [], r, rules. split_and!; [done|done|constructor|done|done|done|].
    destruct (is_preflight_request req).
    + rewrite preflight_fields in Hin, Hgrant |- *. eapply Hgrant; [exact Hin| |].
      * constructor; [by vm_compute|]. destruct (bytes_eqb _ _); repeat constructor; by vm_compute.
      * intros x Hx. apply elem_of_app. by left.
    + unfold result_fields in Hin, Hgrant. cbn in Hin, Hgrant.
      apply (Hgrant r []); [by rewrite app_nil_r|constructor|done].
Qed.

(** The rule of [modules.d/06-cors.conf], with one origin. *)
Definition sample_rule : rule :=
  Rule "/api/" pk_prefix [OriginPattern "http://localhost:3000" false]
    ["get" : bytes; "head" : bytes] "GET,HEAD" "X-Garcon-API-Key".
Definition sample_request : request :=
  Request 1 1 "GET" "/api/x" [HeaderField "origin" "http://localhost:3000"].

Definition sample_origin_value : bytes := "http://localhost:3000".

Lemma sample_covers : covers sample_rule sample_request.
Proof. by apply (target_covers sample_rule sample_request). Qed.

Lemma sample_origin : allows_origin sample_rule "http://localhost:3000".
Proof. by apply (origin_allowed_spec sample_rule). Qed.

Lemma sample_method : allows_method sample_rule (effective_method sample_request).
Proof. by apply (method_allowed_spec sample_rule). Qed.

Lemma cors_decision_witness :
  handle [sample_rule] sample_request
  = Ret (Result mo_pass None (grant sample_rule "http://localhost:3000")).
Proof.
  apply (cors_decision [sample_rule] sample_request "http://localhost:3000").
  - repeat constructor; done.
  - done.
  - done.
  - exact (cors_granted sample_rule [] sample_request "http://localhost:3000"
      sample_covers sample_origin sample_method).
Defined.

Lemma cors_grants_witness :
  ∃ origin before r after,
    header_value sample_request "Origin" = Some origin ∧ [sample_rule] = before ++ r :: after ∧
    Forall (λ r, ¬ covers r sample_request) before ∧ covers r sample_request ∧
    allows_origin r origin ∧ allows_method r (effective_method sample_request) ∧
    ((sample_origin_value = "*" ∧ allows_any_origin r) ∨
     (sample_origin_value = origin ∧ ¬ allows_any_origin r ∧
      HeaderField "Vary" "Origin" ∈ grant sample_rule "http://localhost:3000")).
Proof.
  apply (cors_grants [sample_rule] sample_request
    (Result mo_pass None (grant sample_rule "http://localhost:3000"))
    (HeaderField "Access-Control-Allow-Origin" "http://localhost:3000")).
  - repeat constructor; done.
  - intros origin [= <-]. done.
  - vm_compute. reflexivity.
  - left.
  - done.
Defined.
