(* ===== verification/RuleLanguages.v ===== *)
(** * The rule languages of the modules

    Every module that is configured by rules reads them with the loop of
    [ConfigText].  Each is an instance of [RuleSyntax], so one theorem covers
    them all: which rule lists configurations can give, and that each can be
    written down and read back. *)

From S2P Require Import Prelude.
From S2P Require Import ConfigText.
From S2P Require Import RouteConfig.
From S2P Require Import HeaderGuard.
From S2P Require Import HostGuard.
From S2P Require Import RouteTable.
From S2P Require Import Router.
From S2P Require Import RateLimit.
From S2P Require Import Cors.
From S2P Require Import JwtAuth.

(** A reader of configurations gives exactly the lists of a kind, each from its
    own text. *)
Definition reads_exactly {A} `{RuleSyntax A} (read : bytes → outcome (list A))
    (possible : list A → Prop) : Prop :=
  ∀ rules, ((∃ config_text, read config_text = Ret rules) ↔ possible rules) ∧
           (possible rules ↔ read (rules_text rules) = Ret rules).

Lemma rules_read_exactly {A} `{RuleSyntaxLaws A} : reads_exactly rules_parse (Forall rule_wf).
Proof.
  intros rules. destruct (rules_parse_image rules) as [Hi Ht]. split; [exact Hi|].
  split; [exact Ht|]. intros Hr. apply Hi. by exists (rules_text rules).
Qed.

(** C36: the configurations of each module give exactly the well-formed rule lists
    of its language, and every well-formed list, written as rule lines, is read
    back unchanged; the rate limiter also wants at least one rule.  Well-formed
    are non-empty patterns, fields that survive trimming and cutting, statuses from
    100 to 999, limits and windows that are positive and bounded, a burst not
    below the limit. *)
Theorem rule_languages :
  reads_exactly (H := header_guard_syntax) HeaderGuard.parse_rules (Forall HeaderGuard.wf_rule) ∧
  reads_exactly (H := host_guard_syntax) HostGuard.parse_rules (Forall HostGuard.wf_rule) ∧
  reads_exactly (H := route_table_syntax) RouteTable.parse_routes (Forall wf_route) ∧
  reads_exactly (H := router_syntax) Router.parse_routes (Forall wf_route) ∧
  reads_exactly (H := cors_syntax) Cors.parse_rules (Forall Cors.wf_rule) ∧
  reads_exactly (H := jwt_auth_syntax) JwtAuth.parse_rules (Forall JwtAuth.wf_rule) ∧
  reads_exactly (H := rate_limit_syntax) RateLimit.parse_rules
    (λ rules, Forall RateLimit.wf_rule rules ∧ rules ≠ []).
Proof.
  split; [exact (rules_read_exactly (H := header_guard_syntax))|].
  split; [exact (rules_read_exactly (H := host_guard_syntax))|].
  split; [exact (rules_read_exactly (H := route_table_syntax))|].
  split; [exact (rules_read_exactly (H := router_syntax))|].
  split; [exact (rules_read_exactly (H := cors_syntax))|].
  split; [exact (rules_read_exactly (H := jwt_auth_syntax))|].
  intros rules. destruct (rate_limit_rules_image rules) as [Hi Ht]. split; [exact Hi|].
  split; [exact Ht|]. intros Hr. apply Hi. by exists (rules_text rules).
Qed.
