(* ===== verification/Environment.v ===== *)
(** * The process environment

    The calls of the start-up code on the file system and on the machine.  Each
    reads a world that other processes may change.  A call that can fail has
    two forms in [std::filesystem]: one throws, one reports an error code. *)

From S2P Require Import Prelude.
From S2P Require Import StringView.
From S2P Require Import FsPath.

(** An [Unexpected] result carries the text of the error. *)
Class Environment (W : Type) := {
  env_absolute : path → W → expected path bytes * W;
  env_exists : path → W → expected bool bytes * W;
  env_is_directory : path → W → expected bool bytes * W;
  (** The paths of the entries of a directory, in any order. *)
  env_directory : path → W → expected (list path) bytes * W;
  env_is_regular_file : path → W → expected bool bytes * W;
  (** The text of a file, or [None] if it does not open. *)
  env_read_file : path → W → option bytes * W;
  hardware_concurrency : W → Z * W;
}.

(** [hardware_concurrency] is an [unsigned int]. *)
Class EnvironmentLaws (W : Type) `{!Environment W} : Prop := {
  hardware_concurrency_range w : (0 ≤ fst (hardware_concurrency w) < 2 ^ 32)%Z;
}.

(** The form that throws. *)
Definition throwing {W A} (call : W → expected A bytes * W) : prog W A :=
  λ w, let '(r, w) := call w in
  (match r with
   | Expect a => Ret a
   | Unexpected what => Throw (runtime_error what)
   end, w).

(** The form with an error code, which yields [d] on an error. *)
Definition with_error_code {W A} (d : A) (call : W → expected A bytes * W) : prog W A :=
  λ w, let '(r, w) := call w in
  (match r with
   | Expect a => Ret a
   | Unexpected _ => Ret d
   end, w).

(** A program that returns or throws, from every world. *)
Definition settles {W A} (m : prog W A) : Prop := ∀ w, defined (fst (m w)).

Lemma settles_ret {W A} (a : A) : settles (mret a : prog W A).
Proof. done. Qed.

Lemma settles_bind {W A B} (m : prog W A) (f : A → prog W B) :
  settles m → (∀ a, settles (f a)) → settles (m ≫= f).
Proof.
  intros Hm Hf w. specialize (Hm w). unfold mbind, prog_bind.
  destruct (m w) as [[a|e| |] w']; [apply Hf|done|by destruct Hm|by destruct Hm].
Qed.

Lemma settles_lift {W A} (m : outcome A) : defined m → settles (lift m : prog W A).
Proof. by intros H w. Qed.

Lemma settles_throwing {W A} (call : W → expected A bytes * W) : settles (throwing call).
Proof. intros w. unfold throwing. by destruct (call w) as [[] ?]. Qed.

Lemma settles_error_code {W A} d (call : W → expected A bytes * W) : settles (with_error_code d call).
Proof. intros w. unfold with_error_code. by destruct (call w) as [[] ?]. Qed.

#[export] Hint Resolve settles_ret settles_lift settles_throwing settles_error_code : cpp.
