(* ===== verification/Machine.v ===== *)
(** * A machine for the examples that span components

    One world with a file system, the clock and the buckets of the rate limiter,
    and the clock of the token validation; the module directory is read from the
    same files.  The crypto library is a stand-in whose mac is a checksum. *)

From S2P Require Import Prelude.
From S2P Require Import StringView.
From S2P Require Import FsPath.
From S2P Require Import Environment.
From S2P Require RateLimit.
From S2P Require JwtAuth.

Record machine := Machine {
  m_files : MapFs.t;
  m_limiter : RateLimit.ClockWorld.t;
  m_seconds : Z;
}.

(** A program of one part of the machine. *)
Definition on_files {A} (p : prog MapFs.t A) : prog machine A :=
  λ w, let '(r, fs) := p (m_files w) in (r, Machine fs (m_limiter w) (m_seconds w)).

#[export] Instance machine_files : FileSystem machine := {|
  fs_absolute p := on_files (fs_absolute p);
  fs_weakly_canonical p := on_files (fs_weakly_canonical p);
  fs_canonical p := on_files (fs_canonical p);
  fs_is_directory p := on_files (fs_is_directory p);
  fs_directory_entry p := on_files (fs_directory_entry p);
  fs_is_regular_file p := on_files (fs_is_regular_file p);
  fs_file_size p := on_files (fs_file_size p);
  fs_open p := on_files (fs_open p);
  fs_read p n := on_files (fs_read p n);
|}.

#[export] Instance machine_files_laws : FileSystemLaws machine.
Proof.
  split.
  - intros p w q w' H. cbn [fs_canonical machine_files] in H. unfold on_files in H.
    destruct (fs_canonical p (m_files w)) as [r fs] eqn:Hc. injection H as -> _.
    by apply canonical_is_canonical in Hc.
  - intros p w q w1 w2 H Hq _. cbn [fs_weakly_canonical machine_files] in H. unfold on_files in H.
    destruct (fs_weakly_canonical p (m_files w)) as [r fs] eqn:Hc. injection H as -> _.
    by apply MapFs.canonical_canonical in Hc.
Qed.

#[export] Instance machine_limiter : RateLimit.RateWorld machine := {|
  RateLimit.get_buckets w := RateLimit.get_buckets (m_limiter w);
  RateLimit.set_buckets m w :=
    Machine (m_files w) (RateLimit.set_buckets m (m_limiter w)) (m_seconds w);
  RateLimit.steady_now w :=
    let '(now, l) := RateLimit.steady_now (m_limiter w) in (now, Machine (m_files w) l (m_seconds w));
  RateLimit.other_sections w := w;
|}.

#[export] Instance machine_limiter_laws rules : RateLimit.RateWorldLaws (W := machine) rules.
Proof.
  split; [done| |done|].
  - intros w. cbn. by apply Z.mod_pos_bound.
  - intros w. apply rtc_refl.
Qed.

#[local] Existing Instance JwtAuth.sample_jwt_world.

#[export] Instance machine_jwt : JwtAuth.JwtWorld machine := {
  JwtAuth.HMAC key n data k := JwtAuth.HMAC (W := Z) key n data k;
  JwtAuth.time_now w :=
    let '(now, s) := JwtAuth.time_now (m_seconds w) in (now, Machine (m_files w) (m_limiter w) s);
}.

(** The names of the entries of a directory. *)
Definition entries_of (fs : MapFs.t) (dir : list bytes) : list bytes :=
  omap (λ e, match last (fst e) with
             | Some n => if decide (fst e = dir ++ [n]) then Some n else None
             | None => None
             end) fs.

#[export] Instance machine_environment : Environment machine := {
  env_absolute p w := (Expect (if path_is_absolute p then p else path_append "/" p), w);
  env_exists p w := (Expect (bool_decide (is_Some (MapFs.node_at (m_files w) p))), w);
  env_is_directory p w := (Expect (MapFs.is_directory (m_files w) p), w);
  env_directory p w :=
    (match MapFs.resolve (m_files w) p with
     | Some dir => Expect (path_append p <$> entries_of (m_files w) dir)
     | None => Unexpected ("No such file or directory" : bytes)
     end, w);
  env_is_regular_file p w := (Expect (bool_decide (is_Some (MapFs.file_at (m_files w) p))), w);
  env_read_file p w := (MapFs.file_at (m_files w) p, w);
  hardware_concurrency w := (4%Z, w);
}.
