(* ===== verification/Protection.v ===== *)
(** * What the guards protect

    The modules that restrict requests ([header_guard], [jwt_auth], [rate_limit])
    compare the patterns of their rules with the target as it was sent;
    [static_files] goes by the names between its slashes.  The theorems of this
    file say which files a rule [/dir/*] protects when the modules are composed,
    and which spelling of a target no rule of that form sees. *)

From S2P Require Import Prelude.
From S2P Require Import StringView.
From S2P Require Import HttpHeader.
From S2P Require Import HttpRequest.
From S2P Require Import HttpResponse.
From S2P Require Import Pipeline.
From S2P Require Import ModuleAbi.
From S2P Require Import ConfigText.
From S2P Require Import Guard.
From S2P Require Import FsPath.
From S2P Require Import StaticFiles.
From S2P Require Import Machine.
From S2P Require HeaderGuard.
From S2P Require RateLimit.
From S2P Require JwtAuth.

#[local] Existing Instances HeaderGuard.header_guard HeaderGuard.header_guard_laws.

(** ** Directories as prefixes of targets *)

(** The prefix of the targets below a directory of the document root, written
    with single slashes. *)
Definition directory_prefix (dir : list bytes) : bytes :=
  slash :: concat ((λ n, n ++ [slash]) <$> dir).

(** No two slashes follow each other. *)
Definition single_slashes (s : bytes) : Prop := ∀ a b, s ≠ a ++ slash :: slash :: b.

Lemma single_slashes_tail a s : single_slashes (a ++ s) → single_slashes s.
Proof. intros H b c ->. by apply (H (a ++ b) c); rewrite <- app_assoc. Qed.

Lemma segments_cons (p s : bytes) :
  p ≠ [] → slash ∉ p → segments (p ++ slash :: s) = p :: segments s.
Proof.
  intros Hne Hs. unfold segments. change "/"%char with slash. rewrite split_on_app by done.
  cbn [List.filter]. by rewrite (proj2 (bytes_eqb_nil p)).
Qed.

Lemma segments_one (p : bytes) : p ≠ [] → slash ∉ p → segments p = [p].
Proof.
  intros Hne Hs. unfold segments. change "/"%char with slash. rewrite split_on_none by done.
  cbn [List.filter]. by rewrite (proj2 (bytes_eqb_nil p)).
Qed.

(** A doubled slash in front is skipped. *)
Lemma segments_slash (s : bytes) : segments (slash :: s) = segments s.
Proof.
  unfold segments. change "/"%char with slash.
  pose proof (split_on_app slash [] s) as Hsplit. cbn [app] in Hsplit.
  by rewrite Hsplit by set_solver.
Qed.

(** A text without a slash, or its first piece and the rest. *)
Lemma first_piece (s : bytes) : slash ∉ s ∨ ∃ p r, s = p ++ slash :: r ∧ slash ∉ p.
Proof.
  destruct (decide (slash ∈ s)) as [Hin|]; [right|by left].
  by apply list_elem_of_split_l in Hin as (p & r & -> & Hp); exists p, r.
Qed.

(** Single slashes: the names of a directory are spelled as its prefix. *)
Lemma directory_spelled dir (s : bytes) rest :
  single_slashes (slash :: s) → segments s = dir ++ rest → rest ≠ [] →
  concat ((λ n, n ++ [slash]) <$> dir) `prefix_of` s.
Proof.
  revert s. induction dir as [|n dir IH]; intros s Hs Hseg Hrest; [apply prefix_nil|].
  destruct (first_piece s) as [Hno|(p & r & -> & Hp)].
  - destruct (decide (s = [])) as [->|Hne]; [done|].
    rewrite segments_one in Hseg by done. injection Hseg as _ Hnil.
    by destruct dir.
  - assert (Hne : p ≠ []) by (intros ->; by apply (Hs [] r)).
    rewrite segments_cons in Hseg by done. injection Hseg as -> Hseg.
    rewrite fmap_cons. cbn [concat]. rewrite <- app_assoc. apply prefix_app, prefix_cons.
    apply IH; [|done|done]. exact (single_slashes_tail (slash :: n) _ Hs).
Qed.

Lemma segments_names (s : bytes) names :
  segments s ≠ [] → Forall safe_name (segments s) → names ≠ [] → Forall valid_name names →
  join slash (segments s) = join slash names → segments s = names.
Proof.
  intros Hne Hsafe Hn Hv Hj.
  assert (Hv' : Forall valid_name (segments s)) by (eapply Forall_impl; [exact Hsafe|]; by intros ? []).
  rewrite <- (split_on_join slash (segments s)), Hj, split_on_join; try done; by apply names_no_slash.
Qed.

(** A file below a directory, named with single slashes, has a target that
    starts with the prefix of the directory. *)
Lemma directory_covered (t path : bytes) dir rest :
  mapped t (join slash (dir ++ rest)) → path_of t path → single_slashes path →
  Forall valid_name (dir ++ rest) → rest ≠ [] → directory_prefix dir `prefix_of` t.
Proof.
  intros (path' & s & Hp & Hcase & Hne & Hsafe & Hj) Hpath Hsingle Hv Hrest.
  rewrite (path_of_unique _ _ _ Hp Hpath) in Hcase. clear path' Hp.
  assert (Hseg : segments s = dir ++ rest).
  { apply segments_names; [done|done| |done|done]. intros []%app_eq_nil. done. }
  assert (Hpre : directory_prefix dir `prefix_of` path).
  { case_decide as Hroot.
    - subst. assert (Hi : segments "index.html" = ["index.html" : bytes]) by done.
      rewrite Hi in Hseg. destruct dir as [|n [|]]; [done| |done].
      injection Hseg as _ Hnil. by rewrite <- Hnil in Hrest.
    - subst path. apply prefix_cons. by apply (directory_spelled dir s rest). }
  destruct Hpath as [_ [->|[q ->]]]; [done|]. by apply prefix_app_r.
Qed.

(** ** Rules for a directory *)

(** The rule [dir/*] for a method. *)
Definition guards_directory (method_pattern target_pattern : bytes) (kind : pattern_kind)
    (dir : list bytes) (req : request) : Prop :=
  (method_pattern = "*" ∨ method_pattern = method req) ∧
  kind = pk_prefix ∧ target_pattern = directory_prefix dir.

(** A request for a file below a directory, its target written without doubled
    slashes. *)
Definition names_file_below (req : request) (dir rest : list bytes) : Prop :=
  map_to_relative_path (target req) = Ret (Some (join slash (dir ++ rest))) ∧
  rest ≠ [] ∧ Forall valid_name (dir ++ rest) ∧
  ∃ path, path_of (target req) path ∧ single_slashes path.

Lemma below_has_prefix req dir rest :
  names_file_below req dir rest → directory_prefix dir `prefix_of` target req.
Proof.
  intros (Hmap & Hrest & Hv & path & Hpath & Hs).
  apply (directory_covered _ path dir rest); try done. by apply static_mapping.
Qed.

Section Guarded.
Context {W : Type} `{!RateLimit.RateWorld W, !JwtAuth.JwtWorld W}.
Implicit Types (w : W) (ms : list (request_module W)).

(** Every module of a list that a request passes lets it pass, in the state that
    the modules before it left. *)
Lemma passes_split before m after req w hs w1 :
  passes (before ++ m :: after) req w hs w1 →
  ∃ hs2 w2 hs3 w3, passes before req w hs2 w2 ∧ module_handle m req w2 = (Ret (pass_result hs3), w3).
Proof.
  revert w hs. induction before as [|m0 before IH]; intros w hs; cbn [app]; inversion_clear 1 as
    [|? ? ? ? hs0 w0 hs' ? Hm Hrest].
  - eexists _, _, _, _. by split; [constructor|].
  - destruct (IH _ _ Hrest) as (hs2 & w2 & hs3 & w3 & Hb & Hh). eexists _, w2, hs3, w3.
    split; [by econstructor|done].
Qed.

Lemma adapt_pass r hs : adapt r = pass_result hs → next r = mo_pass.
Proof.
  destruct r as [[] [[]|] ?]; cbn; unfold adapt; cbn; try done. by destruct (_ =? _)%Z.
Qed.

Lemma limiter_step r rules i req :
  RateLimit.handle_from (W := W) i (r :: rules) req
  = if RateLimit.rule_applies r req then RateLimit.apply_rule r i req
    else RateLimit.handle_from (S i) rules req.
Proof.
  cbn [RateLimit.handle_from]. unfold RateLimit.rule_applies.
  by destruct (RateLimit.method_matches _ _), (RateLimit.target_matches _ _ _).
Qed.

(** A limiter with a rule for the request lets it pass only for a token. *)
Lemma limiter_takes_token rules i r0 req w res w' :
  r0 ∈ rules → RateLimit.rule_applies r0 req = true →
  RateLimit.handle_from i rules req w = (Ret res, w') → next res = mo_pass →
  ∃ k r w2, rules !! k = Some r ∧ RateLimit.rule_applies r req = true ∧
    RateLimit.check_and_consume r (i + k) (RateLimit.extract_subject req r) w = (Ret None, w2).
Proof.
  intros Hr0 Ha Hh Hn. revert i Hr0 Hh. induction rules as [|r rules IH]; intros i Hr0 Hh;
    [by apply elem_of_nil in Hr0|].
  rewrite limiter_step in Hh. destruct (RateLimit.rule_applies r req) eqn:Hr.
  - apply prog_bind_inv in Hh as ([resp|] & w2 & Hc & Hh).
    + apply prog_bind_inv in Hh as (resp' & w3 & _ & Hh). by injection Hh as <- _.
    + exists 0, r, w2. by rewrite Nat.add_0_r.
  - apply elem_of_cons in Hr0 as [->|Hr0]; [congruence|].
    destruct (IH (S i) Hr0 Hh) as (k & r1 & w2 & Hk & Hap & Hc).
    exists (S k), r1, w2. by rewrite Nat.add_succ_r.
Qed.

(** A limiter without a rule for the request does nothing. *)
Lemma limiter_open rules i req :
  Forall (λ r, RateLimit.rule_applies r req = false) rules →
  RateLimit.handle_from (W := W) i rules req = mret result_pass.
Proof.
  intros HF. revert i. induction HF as [|r rules Hr _ IH]; intros i; [done|].
  by rewrite limiter_step, Hr.
Qed.

(** The three protections. *)
Lemma header_guard_protects ms req w hs w1 dir rest name (rules : list HeaderGuard.guard_rule) r :
  passes ms req w hs w1 → names_file_below req dir rest →
  guard_module name rules ∈ ms → r ∈ rules →
  guards_directory (HeaderGuard.method_pattern r) (HeaderGuard.target_pattern r)
    (HeaderGuard.target_kind r) dir req → HeaderGuard.meets r req.
Proof.
  intros Hp Hpre%below_has_prefix Hm Hr (Hmeth & Hkind & Ht).
  apply list_elem_of_split in Hm as (before & after & ->).
  destruct (passes_split _ _ _ _ _ _ _ Hp) as (hs2 & w2 & hs3 & w3 & _ & Hh).
  rewrite guard_module_handle in Hh. destruct (first_violated _ _) eqn:Hf; [done|].
  apply first_violated_None in Hf. rewrite Forall_forall in Hf.
  apply HeaderGuard.request_satisfies_rule_spec, (Hf r Hr), HeaderGuard.header_guard_rule_applies_spec.
  split; [done|]. by rewrite Hkind, Ht.
Qed.

Lemma jwt_protects before after req w hs w1 dir rest name m r :
  passes (before ++ loaded name (JwtAuth.handle m) :: after) req w hs w1 →
  names_file_below req dir rest → r ∈ JwtAuth.rules m →
  guards_directory (JwtAuth.method_pattern r) (JwtAuth.target_pattern r) (JwtAuth.target_kind r)
    dir req →
  ∃ hs2 w2 claims w3, passes before req w hs2 w2 ∧ JwtAuth.authorized m req w2 claims w3.
Proof.
  intros Hp Hpre%below_has_prefix Hr (Hmeth & Hkind & Ht).
  destruct (passes_split _ _ _ _ _ _ _ Hp) as (hs2 & w2 & hs3 & w3 & Hb & Hh).
  pose proof (JwtAuth.jwt_handle_cases name m req w2) as Hc. rewrite Hh in Hc.
  inversion Hc as [Hn|claims w' _ Ha| | | |]; subst; [|by eexists _, _, _, _].
  destruct Hn. right. exists r. split_and!; [done|done|]. by rewrite Hkind, Ht.
Qed.

Lemma limiter_protects before after req w hs w1 dir rest name rules r :
  passes (before ++ loaded name (RateLimit.handle rules) :: after) req w hs w1 →
  names_file_below req dir rest → r ∈ rules →
  guards_directory (RateLimit.method_pattern r) (RateLimit.target_pattern r)
    (RateLimit.target_kind r) dir req →
  ∃ hs2 w2 k r1 w3, passes before req w hs2 w2 ∧
    rules !! k = Some r1 ∧ RateLimit.rule_applies r1 req = true ∧
    RateLimit.check_and_consume r1 k (RateLimit.extract_subject req r1) w2 = (Ret None, w3).
Proof.
  intros Hp Hpre%below_has_prefix Hr (Hmeth & Hkind & Ht).
  destruct (passes_split _ _ _ _ _ _ _ Hp) as (hs2 & w2 & hs3 & w3 & Hb & Hh).
  rewrite loaded_handle in Hh.
  destruct (RateLimit.handle rules (abi_request req) w2) as [[res| | |] w4] eqn:Hr2; try done.
  injection Hh as Hh _. apply adapt_pass in Hh.
  destruct (limiter_takes_token rules 0 r (abi_request req) w2 res w4)
    as (k & r1 & w5 & Hk & Ha & Hc); [done| |done|done|by exists hs2, w2, k, r1, w5].
  unfold RateLimit.rule_applies, RateLimit.method_matches, RateLimit.target_matches.
  rewrite Hkind, Ht. apply andb_true_iff. split; [by apply method_matches_spec|].
  by apply target_matches_spec.
Qed.

(** C13: what the guards protect.  When a request reaches the modules after [ms]
    and names a file below a directory with single slashes, every guard of [ms]
    with the rule [dir/*] had its say: the request meets every such rule of a
    header guard, a JWT module with such a rule accepted a token, and a rate
    limiter with such a rule gave a token of a bucket, each in the state in which
    the modules before it left the world when they let the request pass. *)
Theorem guarded_directory ms req w hs w1 dir rest :
  passes ms req w hs w1 → names_file_below req dir rest →
  (∀ name (rules : list HeaderGuard.guard_rule) r, guard_module name rules (W := W) ∈ ms → r ∈ rules →
     guards_directory (HeaderGuard.method_pattern r) (HeaderGuard.target_pattern r)
       (HeaderGuard.target_kind r) dir req → HeaderGuard.meets r req) ∧
  (∀ before after name m r, ms = before ++ loaded name (JwtAuth.handle m) :: after →
     r ∈ JwtAuth.rules m →
     guards_directory (JwtAuth.method_pattern r) (JwtAuth.target_pattern r)
       (JwtAuth.target_kind r) dir req →
     ∃ hs2 w2 claims w3, passes before req w hs2 w2 ∧ JwtAuth.authorized m req w2 claims w3) ∧
  (∀ before after name rules r, ms = before ++ loaded name (RateLimit.handle rules) :: after →
     r ∈ rules →
     guards_directory (RateLimit.method_pattern r) (RateLimit.target_pattern r)
       (RateLimit.target_kind r) dir req →
     ∃ hs2 w2 k r1 w3, passes before req w hs2 w2 ∧
       rules !! k = Some r1 ∧ RateLimit.rule_applies r1 req = true ∧
       RateLimit.check_and_consume r1 k (RateLimit.extract_subject req r1) w2 = (Ret None, w3)).
Proof.
  intros Hp Hbelow. split; [|split].
  - intros name rules r. by apply (header_guard_protects ms req w hs w1 dir rest).
  - intros before after name m r ->. by apply (jwt_protects before after req w hs w1 dir rest name).
  - intros before after name rules r ->.
    by apply (limiter_protects before after req w hs w1 dir rest name).
Qed.
End Guarded.

(** ** A target the rules do not see *)

(** A pattern that starts with one slash, as those of the shipped configuration. *)
Definition single_slash (pattern : bytes) : Prop :=
  ∃ c p, pattern = slash :: c :: p ∧ c ≠ slash.

Lemma doubled_slash_unmatched kind pattern (t : bytes) :
  single_slash pattern → target_matches kind pattern (slash :: slash :: t) = false.
Proof.
  intros (c & p & -> & Hc). apply not_true_is_false. rewrite target_matches_spec.
  destruct kind; [by intros [= Heq _]|].
  intros Hp. by apply prefix_cons_inv_2, prefix_cons_inv_1 in Hp.
Qed.

(** The file a target names, with a slash more in front. *)
Lemma mapped_doubled (c : ascii) (t relative : bytes) :
  c ≠ "?"%char → mapped (slash :: slash :: c :: t) relative ↔ mapped (slash :: c :: t) relative.
Proof.
  intros Hc. split.
  - intros (path & s & [Hq Hpath] & Hcase & Hne & HF & ->).
    assert (Hp : ∃ p, path = slash :: slash :: c :: p).
    { destruct Hpath as [<-|[q Heq]]; [by eexists|].
      destruct path as [|a [|b [|d p]]]; simplify_eq/=; by eexists. }
    destruct Hp as [p ->]. rewrite decide_False in Hcase by done. injection Hcase as <-.
    rewrite segments_slash in *. exists (slash :: c :: p), (c :: p).
    split_and!; [|by rewrite decide_False|done|done|done].
    split; [clear -Hq; by rewrite !not_elem_of_cons in *; intuition|]. destruct Hpath as [[= ->]|[q [= ->]]]; [by left|right; by exists q].
  - intros (path & s & [Hq Hpath] & Hcase & Hne & HF & ->).
    assert (Hp : ∃ p, path = slash :: c :: p).
    { destruct Hpath as [<-|[q Heq]]; [by eexists|].
      destruct path as [|a [|b p]]; simplify_eq/=; by eexists. }
    destruct Hp as [p ->]. rewrite decide_False in Hcase by done. injection Hcase as <-.
    exists (slash :: slash :: c :: p), (slash :: c :: p).
    rewrite segments_slash. split_and!; [|by rewrite decide_False|done|done|done].
    split; [clear -Hq; by rewrite !not_elem_of_cons in *; intuition|]. destruct Hpath as [[= ->]|[q [= ->]]]; [by left|right; by exists q].
Qed.

Lemma map_doubled (c : ascii) (t : bytes) :
  c ≠ "?"%char →
  map_to_relative_path (slash :: slash :: c :: t) = map_to_relative_path (slash :: c :: t).
Proof.
  intros Hc.
  destruct (map_to_relative_path_ret (slash :: slash :: c :: t)) as (r1 & Hr1 & H1).
  destruct (map_to_relative_path_ret (slash :: c :: t)) as (r2 & Hr2 & H2). rewrite Hr1, Hr2.
  destruct r1 as [a|], r2 as [b|]; [| | |done].
  - apply (mapped_doubled c t a Hc) in H1. destruct (static_mapping (slash :: c :: t) a) as [_ Hm].
    apply Hm in H1. congruence.
  - by apply mapped_doubled, H2 in H1.
  - by apply (mapped_doubled c t b Hc), H1 in H2.
Qed.

Definition with_target (req : request) (t : bytes) : request :=
  Request (version_major req) (version_minor req) (method req) t (request_headers req).

Section Bypass.
Context {W : Type} `{!FileSystem W, !RateLimit.RateWorld W, !JwtAuth.JwtWorld W}.
Implicit Types (w : W) (ms : list (request_module W)).

(** The restricting modules whose rules are written with one slash. *)
Inductive slash_rules : request_module W → Prop :=
  | slash_header_guard name (rules : list HeaderGuard.guard_rule) :
      Forall (λ r, single_slash (HeaderGuard.target_pattern r)) rules →
      slash_rules (guard_module name rules)
  | slash_jwt name m :
      JwtAuth.rules m ≠ [] →
      Forall (λ r, single_slash (JwtAuth.target_pattern r)) (JwtAuth.rules m) →
      slash_rules (loaded name (JwtAuth.handle m))
  | slash_limiter name rules :
      Forall (λ r, single_slash (RateLimit.target_pattern r)) rules →
      slash_rules (loaded name (RateLimit.handle rules)).

(** Such a module lets a target with a doubled slash pass, and does nothing. *)
Lemma slash_rules_open m req (t : bytes) w :
  slash_rules m → target req = slash :: slash :: t →
  module_handle m req w = (Ret (pass_result []), w).
Proof.
  intros Hm Ht. destruct Hm as [name rules HF|name m Hne HF|name rules HF].
  - rewrite guard_module_handle.
    replace (first_violated rules (abi_request req)) with (@None HeaderGuard.guard_rule); [done|].
    symmetry. apply first_violated_None. eapply Forall_impl; [exact HF|]. intros r Hr.
    cbn [guard_applies HeaderGuard.header_guard]. unfold HeaderGuard.rule_applies.
    change (target (abi_request req)) with (target req). rewrite Ht.
    unfold HeaderGuard.target_matches. by rewrite doubled_slash_unmatched, andb_false_r.
  - apply JwtAuth.jwt_handle_open. intros [|(r & Hr & _ & Hmatch)]; [done|].
    rewrite Forall_forall in HF. pose proof (doubled_slash_unmatched (JwtAuth.target_kind r) _ t (HF r Hr)) as Hn.
    rewrite <- Ht in Hn. apply target_matches_spec in Hmatch. congruence.
  - rewrite loaded_handle. unfold RateLimit.handle. rewrite limiter_open; [done|].
    eapply Forall_impl; [exact HF|]. intros r Hr. unfold RateLimit.rule_applies, RateLimit.target_matches.
    change (target (abi_request req)) with (target req).
    by rewrite Ht, doubled_slash_unmatched, andb_false_r.
Qed.

(** C14: a spelling no rule sees.  Behind restricting modules whose patterns start
    with one slash, a request whose target has a slash more in front gets what
    the static files alone answer to the target as it was: the file is served,
    and no header, token or bucket is asked for. *)
Theorem doubled_slash_bypass ms name root req (c : ascii) (t : bytes) w :
  Forall slash_rules ms → target req = slash :: c :: t → c ≠ "?"%char →
  let files := loaded name (http_terminal_handle (handle root)) in
  pipeline_handle (ms ++ [files]) (with_target req (slash :: target req)) w
  = pipeline_handle [files] req w.
Proof.
  intros Hms Ht Hc files. set (req' := with_target req _).
  assert (Hp : passes ms req' w [] w).
  { clear -Hms Ht. induction Hms as [|m ms Hm _ IH]; [constructor|].
    change (@nil header_field) with ([] ++ @nil header_field). econstructor; [|exact IH].
    apply (slash_rules_open m req' (c :: t)); [done|]. by cbn; rewrite Ht. }
  unfold pipeline_handle. rewrite (handle_from_passes _ _ _ _ _ _ _ Hp). cbn [handle_from app].
  assert (Heq : module_handle files req' w = module_handle files req w).
  { unfold files. rewrite !loaded_handle. unfold http_terminal_handle, handle, serve_file.
    change (method (abi_request req')) with (method (abi_request req)).
    change (target (abi_request req')) with (slash :: target req).
    change (target (abi_request req)) with (target req).
    by rewrite Ht, map_doubled. }
  unfold mbind, prog_bind. by rewrite Heq.
Qed.
End Bypass.

(** ** A machine with a guarded file *)

Definition guarded_machine : machine :=
  let name (s : string) : bytes := s in
  Machine
    [ ([name "www"], MapFs.Directory); ([name "www"; name "api"], MapFs.Directory);
      ([name "www"; name "api"; name "ping.txt"], MapFs.File "pong") ]
    RateLimit.sample_world 1000.

Definition guarded_modules : list (request_module machine) :=
  [ loaded "rate-limit" (RateLimit.handle [RateLimit.sample_rule]);
    guard_module "header-guard" [HeaderGuard.sample_rule];
    loaded "jwt-auth" (JwtAuth.handle JwtAuth.sample_jwt) ].

Definition guarded_request (t : bytes) (key : bytes) : request :=
  Request 1 1 "GET" t [HeaderField "X-Garcon-API-Key" key].

Lemma guarded_names_file t key :
  t = "/api/ping.txt" →
  names_file_below (guarded_request t key) ["api" : bytes] ["ping.txt" : bytes].
Proof.
  intros ->. split; [vm_compute; reflexivity|]. split; [done|].
  split; [by apply (bool_decide_eq_true_1 _); vm_compute|].
  exists "/api/ping.txt". split; [split; [by apply (bool_decide_eq_true_1 _); vm_compute|by left]|].
  intros a b Heq. vm_compute in Heq. by repeat (destruct a as [|? a]; simplify_eq/=).
Qed.

(** The right key gets through, and met the rule. *)
Lemma guarded_directory_witness :
  ∃ hs w1, passes guarded_modules (guarded_request "/api/ping.txt" "dev-key") guarded_machine hs w1 ∧
    HeaderGuard.meets HeaderGuard.sample_rule (guarded_request "/api/ping.txt" "dev-key").
Proof.
  assert (Hp : ∃ hs w1, passes guarded_modules (guarded_request "/api/ping.txt" "dev-key")
    guarded_machine hs w1).
  { eexists _, _. do 3 (econstructor; [vm_compute; reflexivity|]). constructor. }
  destruct Hp as (hs & w1 & Hp). exists hs, w1. split; [exact Hp|].
  destruct (guarded_directory _ _ _ _ _ _ _ Hp (guarded_names_file _ "dev-key" eq_refl)) as [Hh _].
  apply (Hh "header-guard" [HeaderGuard.sample_rule]); [right; left|left|].
  split; [by left|done].
Defined.

(** Without the key the target is refused, and with a slash more it is served. *)
Lemma doubled_slash_bypass_witness :
  let files := loaded "static-files" (http_terminal_handle (handle "/www")) in
  fst (pipeline_handle (guarded_modules ++ [files]) (guarded_request "/api/ping.txt" []) guarded_machine)
  = Ret (with_headers (text 401 "Unauthorized" "missing key")
      (result_headers (RateLimit.admitted_result RateLimit.sample_rule 1))) ∧
  pipeline_handle (guarded_modules ++ [files]) (guarded_request "//api/ping.txt" []) guarded_machine
  = (Ret (file_response "text/plain; charset=utf-8" "pong" 4), guarded_machine).
Proof.
  split; [vm_compute; reflexivity|].
  assert (Hms : Forall slash_rules guarded_modules).
  { do 2 (apply Forall_cons_2; [constructor; apply Forall_singleton; by exists "a"%char, "pi/"|]).
    apply Forall_singleton. constructor; [done|]. apply Forall_singleton. by exists "j"%char, "wt/". }
  pose proof (doubled_slash_bypass guarded_modules "static-files" "/www"
    (guarded_request "/api/ping.txt" []) "a" "pi/ping.txt" guarded_machine Hms eq_refl) as Hb.
  refine (eq_trans (Hb _) _); [done|vm_compute; reflexivity].
Defined.
