(* ===== verification/CommandLine.v ===== *)
(** * The command line ([src/app/command_line.cpp], [src/server_config.h])

    The arguments are read one by one into [cli_options], from which
    [finalize_options] makes the configuration of the server. *)

From S2P Require Import Prelude.
From S2P Require Import StringView.
From S2P Require Import FsPath.
From S2P Require Import Environment.

#[local] Open Scope Z_scope.

(** ** Data *)

(** [app::tls_config] *)
Record tls_config := TlsConfig { certificate_file : path; private_key_file : path }.

(** [app::server_config]; the sizes are 64-bit. *)
Record server_config := ServerConfig {
  bind_address : bytes;
  port : Z;
  www_root : path;
  module_config_dir : path;
  worker_threads : Z;
  connection_queue_capacity : Z;
  tls : option tls_config;
}.

Definition https_enabled (c : server_config) : bool := bool_decide (tls c ≠ None).

Definition scheme (c : server_config) : bytes := if https_enabled c then "https" else "http".

Record cli_options := CliOptions {
  opt_bind_address : bytes;
  opt_port : option Z;
  opt_worker_threads : option Z;
  opt_connection_queue_capacity : option Z;
  opt_module_config_dir : option path;
  opt_tls_certificate_file : option path;
  opt_tls_private_key_file : option path;
}.

Definition default_options : cli_options := CliOptions "127.0.0.1" None None None None None None.

(** [command_line_result] *)
Record command_line_result := CommandLineResult {
  show_help : bool;
  show_version : bool;
  config : option server_config;
}.

(** ** [std::from_chars]

    The longest run of digits, after a minus sign for a signed type; the value
    and what is left, or [None] when there is no digit or the value is out of
    range. *)

Fixpoint digit_run (s : bytes) : bytes * bytes :=
  match s with
  | [] => ([], [])
  | c :: s' => if is_digit c then let '(ds, rest) := digit_run s' in (c :: ds, rest) else ([], s)
  end.

Definition from_chars (signed : bool) (lo hi : Z) (s : bytes) : option (Z * bytes) :=
  let '(neg, s) := match s with
                   | c :: s' => if signed && Ascii.eqb c "-" then (true, s') else (false, s)
                   | [] => (false, s)
                   end in
  match digit_run s with
  | ([], _) => None
  | (ds, rest) =>
      let v := if (neg : bool) then - decimal_value ds else decimal_value ds in
      if (v <? lo) || (hi <? v) then None else Some (v, rest)
  end.

Definition size_mod : Z := 2 ^ 64.

Definition parse_port (value : bytes) : option Z :=
  match from_chars true (- int_max - 1) int_max value with
  | Some (port, []) => if (port <=? 0) || (65535 <? port) then None else Some port
  | _ => None
  end.

Definition parse_count (value : bytes) : option Z :=
  match from_chars false 0 (size_mod - 1) value with
  | Some (parsed, []) => if parsed =? 0 then None else Some parsed
  | _ => None
  end.

(** ** Defaults *)

Definition https_requested (opts : cli_options) : bool :=
  bool_decide (opt_tls_certificate_file opts ≠ None) ||
  bool_decide (opt_tls_private_key_file opts ≠ None).

(** The product of two 64-bit sizes wraps. *)
Definition default_queue_capacity (worker_threads : Z) : Z := (worker_threads * 64) mod size_mod.

Section Environment_.
Context {W : Type} `{!Environment W}.

Definition default_worker_threads : prog W Z :=
  λ w, let '(concurrency, w) := hardware_concurrency w in
  (Ret (if concurrency =? 0 then 4 else concurrency), w).

(** The loop over the candidates. *)
Fixpoint first_directory (candidates : list path) : prog W (option path) :=
  match candidates with
  | [] => mret None
  | candidate :: candidates =>
      found ← throwing (env_exists candidate);
      directory ← (if (found : bool) then throwing (env_is_directory candidate) else mret false);
      if (directory : bool) then mret (Some candidate) else first_directory candidates
  end.

Definition default_module_config_dir (program_path : path) : prog W path :=
  own ← (if bytes_eqb program_path [] then mret [] else
         absolute ← throwing (env_absolute program_path);
         mret [path_append (path_parent absolute) "modules.d"]);
  let candidates := own ++ ["modules.d" : bytes; "/etc/garcon/modules.d" : bytes] in
  found ← first_directory candidates;
  mret (match found with
        | Some candidate => candidate
        | None => default ("modules.d" : bytes) (head candidates)
        end).

Definition default_www_root : prog W path :=
  let local_root : path := "www" in
  found ← throwing (env_exists local_root);
  if (found : bool) then mret local_root else
  let installed_root : path := "/usr/share/garcon/www" in
  found ← throwing (env_exists installed_root);
  if (found : bool) then mret installed_root else mret local_root.

(** The defaults are computed also where an option replaces them. *)
Definition finalize_options (opts : cli_options) (program_path : path) : prog W server_config :=
  if negb (Bool.eqb (bool_decide (opt_tls_certificate_file opts ≠ None))
               (bool_decide (opt_tls_private_key_file opts ≠ None)))
  then lift (Throw (runtime_error "--tls-cert and --tls-key must be provided together")) else
  threads ← default_worker_threads;
  let worker_threads := default threads (opt_worker_threads opts) in
  root ← default_www_root;
  directory ← default_module_config_dir program_path;
  tls ← (match opt_tls_certificate_file opts with
         | None => mret None
         | Some certificate =>
             match opt_tls_private_key_file opts with
             | None => lift Undef
             | Some key => mret (Some (TlsConfig certificate key))
             end
         end);
  mret (ServerConfig (opt_bind_address opts)
    (default (if https_requested opts then 8443 else 8080) (opt_port opts))
    root (default directory (opt_module_config_dir opts)) worker_threads
    (default (default_queue_capacity worker_threads) (opt_connection_queue_capacity opts)) tls).
End Environment_.

(** ** The arguments *)

(** The value of an option and the new index. *)
Definition require_value (argv : list bytes) (index : nat) (option_name : bytes)
    : outcome (bytes * nat) :=
  match argv !! (index + 1)%nat with
  | None => Throw (runtime_error ("missing value for " ++ option_name))
  | Some value => Ret (value, (index + 1)%nat)
  end.

Definition parse_named_option (arg : bytes) (out : cli_options) (argv : list bytes) (index : nat)
    : outcome (cli_options * nat) :=
  let '(CliOptions bind port workers queue dir cert key) := out in
  if bytes_eqb arg "--bind" then
    '(value, index) ← require_value argv index arg;
    Ret (CliOptions value port workers queue dir cert key, index) else
  if bytes_eqb arg "--tls-cert" then
    '(value, index) ← require_value argv index arg;
    Ret (CliOptions bind port workers queue dir (Some value) key, index) else
  if bytes_eqb arg "--tls-key" then
    '(value, index) ← require_value argv index arg;
    Ret (CliOptions bind port workers queue dir cert (Some value), index) else
  if bytes_eqb arg "--modules-dir" then
    '(value, index) ← require_value argv index arg;
    Ret (CliOptions bind port workers queue (Some value) cert key, index) else
  if bytes_eqb arg "--workers" then
    '(value, index) ← require_value argv index arg;
    match parse_count value with
    | None => Throw (runtime_error "invalid worker count")
    | Some count => Ret (CliOptions bind port (Some count) queue dir cert key, index)
    end else
  if bytes_eqb arg "--queue-capacity" then
    '(value, index) ← require_value argv index arg;
    match parse_count value with
    | None => Throw (runtime_error "invalid queue capacity")
    | Some count => Ret (CliOptions bind port workers (Some count) dir cert key, index)
    end else
  if bytes_eqb arg "--port" then
    '(value, index) ← require_value argv index arg;
    match parse_port value with
    | None => Throw (runtime_error "invalid port")
    | Some port => Ret (CliOptions bind (Some port) workers queue dir cert key, index)
    end else
  Throw (runtime_error "unknown option").

(** What the loop ends with: a request for help or the version, or options. *)
Inductive arguments := HelpRequested | VersionRequested | Options (opts : cli_options).

(** [!arg.empty() && arg.front() == '-'] *)
Definition is_option (arg : bytes) : bool :=
  match arg with
  | c :: _ => Ascii.eqb c "-"
  | [] => false
  end.

(** The loop from index [i] on. *)
Fixpoint parse_arguments (fuel : nat) (argv : list bytes) (i : nat) (out : cli_options)
    : outcome arguments :=
  match fuel with
  | O => Diverge
  | S fuel =>
      match argv !! i with
      | None => Ret (Options out)
      | Some arg =>
          if bytes_eqb arg "--help" then Ret HelpRequested else
          if bytes_eqb arg "--version" then Ret VersionRequested else
          if is_option arg then
            '(out, i) ← parse_named_option arg out argv i;
            parse_arguments fuel argv (S i) out
          else
            match parse_port arg with
            | None => Throw (runtime_error "invalid port")
            | Some port =>
                let '(CliOptions bind _ workers queue dir cert key) := out in
                parse_arguments fuel argv (S i)
                  (CliOptions bind (Some port) workers queue dir cert key)
            end
      end
  end.

(** [command_line_parser::parse] *)
Definition parse {W} `{!Environment W} (argv : list bytes) : prog W command_line_result :=
  out ← lift (parse_arguments (S (length argv)) argv 1 default_options);
  match out with
  | HelpRequested => mret (CommandLineResult true false None)
  | VersionRequested => mret (CommandLineResult false true None)
  | Options opts =>
      config ← finalize_options opts (default [] (head argv));
      mret (CommandLineResult false false (Some config))
  end.

(** [command_line_parser::usage] *)
Definition usage (argv : list bytes) : bytes :=
  ("usage: " : bytes) ++ default ("garcon" : bytes) (head argv)
  ++ " [port] [--bind ADDRESS] [--port PORT]"
  ++ " [--modules-dir DIR]"
  ++ " [--workers N] [--queue-capacity N]"
  ++ " [--tls-cert PATH --tls-key PATH]"
  ++ " [--help] [--version]" ++ ["010"%char].

(** ** Numbers *)

(** Digits that denote a number in a range. *)
Definition number_text (lo hi : Z) (v : bytes) (n : Z) : Prop :=
  v ≠ [] ∧ Forall (λ c, is_digit c = true) v ∧ n = decimal_value v ∧ lo ≤ n ≤ hi.

Lemma digit_run_spec s ds rest :
  digit_run s = (ds, rest) → s = ds ++ rest ∧ Forall (λ c, is_digit c = true) ds.
Proof.
  revert ds rest. induction s as [|c s IH]; intros ds rest; simpl; [by intros [= <- <-]|].
  destruct (is_digit c) eqn:Hc; [|by intros [= <- <-]].
  destruct (digit_run s) as [ds' rest'] eqn:Hr. intros [= <- <-].
  destruct (IH ds' rest' eq_refl) as [-> HF]. split; [done|by constructor].
Qed.

Lemma digit_run_digits s : Forall (λ c, is_digit c = true) s → digit_run s = (s, []).
Proof. induction 1 as [|c s Hc _ IH]; [done|]. simpl. by rewrite Hc, IH. Qed.

Lemma decimal_value_nonneg s : Forall (λ c, is_digit c = true) s → 0 ≤ decimal_value s.
Proof. intros H. by apply foldl_digits_mono. Qed.

Lemma from_chars_number signed lo hi v :
  lo ≤ 0 → Forall (λ c, is_digit c = true) v → v ≠ [] →
  from_chars signed lo hi v = if hi <? decimal_value v then None else Some (decimal_value v, []).
Proof.
  intros Hlo HF Hne. destruct v as [|c v]; [done|]. unfold from_chars.
  inversion HF as [|? ? Hc HF']; subst.
  assert (Hm : Ascii.eqb c "-" = false).
  { apply negb_true_iff. revert c Hc HF Hne. intros c Hc _ _. revert c Hc. by_char_impl. }
  rewrite Hm, andb_false_r, digit_run_digits by done. cbn iota.
  pose proof (decimal_value_nonneg (c :: v) HF). rewrite (proj2 (Z.ltb_ge _ _)) by lia. done.
Qed.

(** A positive number that is read with nothing left over is its digits. *)
Lemma from_chars_whole signed lo hi v n :
  from_chars signed lo hi v = Some (n, []) → 0 < n → number_text 1 hi v n.
Proof.
  unfold from_chars.
  assert (Hrun : ∀ (neg : bool) s, (match digit_run s with
      | ([], _) => None
      | (ds, rest) =>
          let v := if neg then - decimal_value ds else decimal_value ds in
          if (v <? lo) || (hi <? v) then None else Some (v, rest)
      end) = Some (n, []) → 0 < n → neg = false ∧ number_text 1 hi s n).
  { intros neg s. destruct (digit_run s) as [[|d ds] rest] eqn:Hr; [done|].
    apply digit_run_spec in Hr as [-> HF]. cbv zeta.
    destruct (_ || _) eqn:Hb; [done|]. intros [= Hn ->] Hpos.
    apply orb_false_iff in Hb as [_ Hhi]. pose proof (decimal_value_nonneg _ HF).
    destruct neg; [lia|]. split; [done|]. rewrite app_nil_r in *. split_and!; [done|done|lia..]. }
  destruct v as [|c v]; [done|]. destruct (signed && Ascii.eqb c "-").
  - intros H Hpos. by destruct (Hrun true v H Hpos).
  - intros H Hpos. by destruct (Hrun false (c :: v) H Hpos).
Qed.

Lemma parse_port_spec v n : parse_port v = Some n ↔ number_text 1 65535 v n.
Proof.
  unfold parse_port. split.
  - destruct (from_chars _ _ _ v) as [[m [|]]|] eqn:H; try done.
    destruct (_ || _) eqn:Hb; [done|]. intros [= <-]. apply orb_false_iff in Hb as [H1 H2].
    apply from_chars_whole in H as (? & ? & -> & ?); [|lia]. split_and!; try done; lia.
  - intros (Hne & HF & -> & Hr). rewrite from_chars_number by (done || unfold int_max; lia).
    rewrite (proj2 (Z.ltb_ge _ _)) by (unfold int_max; lia).
    rewrite (proj2 (Z.leb_gt _ _)), (proj2 (Z.ltb_ge _ _)) by lia. done.
Qed.

Lemma parse_count_spec v n : parse_count v = Some n ↔ number_text 1 (size_mod - 1) v n.
Proof.
  unfold parse_count. split.
  - destruct (from_chars _ _ _ v) as [[m [|]]|] eqn:H; try done.
    destruct (Z.eqb_spec m 0) as [|Hm]; [done|]. intros [= <-].
    apply from_chars_whole in H; [done|]. unfold from_chars in H.
    assert (0 ≤ m); [|lia]. cbn [andb] in H. destruct v as [|c v]; [done|].
    destruct (digit_run (c :: v)) as [[|d ds] rest] eqn:Hr; [done|].
    apply digit_run_spec in Hr as [_ HF]. destruct (_ || _); [done|]. injection H as <- _.
    by apply decimal_value_nonneg.
  - intros (Hne & HF & -> & Hr). rewrite from_chars_number by done.
    rewrite (proj2 (Z.ltb_ge _ _)) by lia. rewrite (proj2 (Z.eqb_neq _ _)) by lia. done.
Qed.

(** ** The grammar of the arguments *)

Inductive setting :=
  | SBind (address : bytes)
  | SPort (n : Z)
  | SWorkers (n : Z)
  | SQueueCapacity (n : Z)
  | SModulesDir (directory : path)
  | SCertificate (file : path)
  | SKey (file : path).

Definition apply_setting (o : cli_options) (s : setting) : cli_options :=
  let '(CliOptions bind port workers queue dir cert key) := o in
  match s with
  | SBind v => CliOptions v port workers queue dir cert key
  | SPort n => CliOptions bind (Some n) workers queue dir cert key
  | SWorkers n => CliOptions bind port (Some n) queue dir cert key
  | SQueueCapacity n => CliOptions bind port workers (Some n) dir cert key
  | SModulesDir v => CliOptions bind port workers queue (Some v) cert key
  | SCertificate v => CliOptions bind port workers queue dir (Some v) key
  | SKey v => CliOptions bind port workers queue dir cert (Some v)
  end.

(** An option and its value. *)
Inductive named : bytes → bytes → setting → Prop :=
  | named_bind v : named "--bind" v (SBind v)
  | named_port v n : number_text 1 65535 v n → named "--port" v (SPort n)
  | named_workers v n : number_text 1 (size_mod - 1) v n → named "--workers" v (SWorkers n)
  | named_queue v n :
      number_text 1 (size_mod - 1) v n → named "--queue-capacity" v (SQueueCapacity n)
  | named_dir v : named "--modules-dir" v (SModulesDir v)
  | named_cert v : named "--tls-cert" v (SCertificate v)
  | named_key v : named "--tls-key" v (SKey v).

(** The arguments that make one setting; a port may stand alone. *)
Inductive group : list bytes → setting → Prop :=
  | group_named name v s : named name v s → group [name; v] s
  | group_port v n : number_text 1 65535 v n → group [v] (SPort n).

(** What the arguments say, from the options [o] on: groups up to the end, or up
    to a request for help or the version. *)
Inductive reads : list bytes → cli_options → arguments → Prop :=
  | reads_end o : reads [] o (Options o)
  | reads_help args o : reads (("--help" : bytes) :: args) o HelpRequested
  | reads_version args o : reads (("--version" : bytes) :: args) o VersionRequested
  | reads_group g s args o r :
      group g s → reads args (apply_setting o s) r → reads (g ++ args) o r.

Lemma bytes_eqb_true a b : bytes_eqb a b = true → a = b.
Proof. apply bool_decide_eq_true. Qed.

Lemma named_names name v s : named name v s →
  name ∈ ((of_string <$> ["--bind"; "--tls-cert"; "--tls-key"; "--modules-dir"; "--workers";
                          "--queue-capacity"; "--port"]%string) : list bytes).
Proof. intros H. apply (bool_decide_eq_true_1 _). by destruct H. Qed.

Lemma require_value_ret argv i arg {A} (f : bytes * nat → outcome A) r :
  (require_value argv i arg ≫= f) = Ret r ↔
  ∃ v, argv !! (i + 1)%nat = Some v ∧ f (v, (i + 1)%nat) = Ret r.
Proof.
  unfold require_value. destruct (argv !! (i + 1)%nat) as [v|]; simpl.
  - split; [eauto|]. by intros (v' & [= <-] & H).
  - split; [done|]. by intros (v' & [=] & _).
Qed.

Lemma parse_named_option_spec arg out argv i out' i' :
  parse_named_option arg out argv i = Ret (out', i') ↔
  ∃ v s, argv !! (i + 1)%nat = Some v ∧ named arg v s ∧ out' = apply_setting out s ∧
    i' = (i + 1)%nat.
Proof.
  unfold parse_named_option. destruct out as [bind port workers queue dir cert key].
  assert (Hplain : ∀ (mk : bytes → setting) (f : bytes → cli_options) name,
    (∀ v s, named name v s ↔ s = mk v) →
    (∀ v, f v = apply_setting (CliOptions bind port workers queue dir cert key) (mk v)) →
    ('(value, index) ← require_value argv i name; Ret (f value, index)) = Ret (out', i') ↔
    ∃ v s, argv !! (i + 1)%nat = Some v ∧ named name v s ∧
      out' = apply_setting (CliOptions bind port workers queue dir cert key) s ∧ i' = (i + 1)%nat).
  { intros mk f name Hn Hf. rewrite require_value_ret. split.
    - intros (v & Hv & [= <- <-]). exists v, (mk v). rewrite Hn, Hf. done.
    - intros (v & s & Hv & Hs & -> & ->). exists v. apply Hn in Hs as ->. by rewrite Hf. }
  assert (Hnumber : ∀ (read : bytes → option Z) (mk : Z → setting) (f : Z → cli_options) name e,
    (∀ v s, named name v s ↔ ∃ n, s = mk n ∧ read v = Some n) →
    (∀ n, f n = apply_setting (CliOptions bind port workers queue dir cert key) (mk n)) →
    ('(value, index) ← require_value argv i name;
     match read value with None => Throw e | Some n => Ret (f n, index) end) = Ret (out', i') ↔
    ∃ v s, argv !! (i + 1)%nat = Some v ∧ named name v s ∧
      out' = apply_setting (CliOptions bind port workers queue dir cert key) s ∧ i' = (i + 1)%nat).
  { intros read mk f name e Hn Hf. rewrite require_value_ret. split.
    - intros (v & Hv & H). destruct (read v) as [n|] eqn:Hr; [|done]. injection H as <- <-.
      exists v, (mk n). rewrite Hn, Hf. split_and!; eauto.
    - intros (v & s & Hv & Hs & -> & ->). exists v. apply Hn in Hs as (n & -> & ->). by rewrite Hf. }
  destruct (bytes_eqb arg "--bind") eqn:H1.
  { apply bytes_eqb_true in H1 as ->. apply (Hplain SBind); [|done].
    intros v s. split; [by inversion 1|intros ->; constructor]. }
  destruct (bytes_eqb arg "--tls-cert") eqn:H2.
  { apply bytes_eqb_true in H2 as ->. apply (Hplain SCertificate); [|done].
    intros v s. split; [by inversion 1|intros ->; constructor]. }
  destruct (bytes_eqb arg "--tls-key") eqn:H3.
  { apply bytes_eqb_true in H3 as ->. apply (Hplain SKey); [|done].
    intros v s. split; [by inversion 1|intros ->; constructor]. }
  destruct (bytes_eqb arg "--modules-dir") eqn:H4.
  { apply bytes_eqb_true in H4 as ->. apply (Hplain SModulesDir); [|done].
    intros v s. split; [by inversion 1|intros ->; constructor]. }
  destruct (bytes_eqb arg "--workers") eqn:H5.
  { apply bytes_eqb_true in H5 as ->. apply (Hnumber parse_count SWorkers); [|done].
    intros v s. setoid_rewrite parse_count_spec. split; [inversion 1; eauto|].
    intros (n & -> & ?). by constructor. }
  destruct (bytes_eqb arg "--queue-capacity") eqn:H6.
  { apply bytes_eqb_true in H6 as ->. apply (Hnumber parse_count SQueueCapacity); [|done].
    intros v s. setoid_rewrite parse_count_spec. split; [inversion 1; eauto|].
    intros (n & -> & ?). by constructor. }
  destruct (bytes_eqb arg "--port") eqn:H7.
  { apply bytes_eqb_true in H7 as ->. apply (Hnumber parse_port SPort); [|done].
    intros v s. setoid_rewrite parse_port_spec. split; [inversion 1; eauto|].
    intros (n & -> & ?). by constructor. }
  split; [done|]. intros (v & s & _ & Hn & _). exfalso.
  unfold bytes_eqb in *. rewrite bool_decide_eq_false in *.
  destruct Hn; congruence.
Qed.

Lemma parse_named_option_defined arg out argv i : defined (parse_named_option arg out argv i).
Proof.
  assert (Hreq : ∀ name (f : bytes * nat → outcome (cli_options * nat)),
    (∀ a, defined (f a)) → defined (require_value argv i name ≫= f)).
  { intros name f Hf. apply defined_bind; [|intros a _; apply Hf].
    unfold require_value. by destruct (argv !! _). }
  unfold parse_named_option. destruct out as [bind port workers queue dir cert key].
  repeat (destruct (bytes_eqb arg _); [apply Hreq; intros [value index]; try done;
    first [by destruct (parse_count value)|by destruct (parse_port value)]|]).
  done.
Qed.

Lemma number_not_option lo hi v n : number_text lo hi v n → is_option v = false.
Proof.
  intros (Hne & HF & _). destruct v as [|c v]; [done|]. apply Forall_cons in HF as [Hc _]. simpl.
  apply negb_true_iff. revert c Hc Hne. intros c Hc _. revert c Hc. by_char_impl.
Qed.

Lemma apply_port o n :
  apply_setting o (SPort n)
  = let '(CliOptions bind _ workers queue dir cert key) := o in
    CliOptions bind (Some n) workers queue dir cert key.
Proof. done. Qed.

Lemma lookup_drop_cons {A} (l : list A) i x rest : drop i l = x :: rest → l !! i = Some x ∧ drop (S i) l = rest.
Proof.
  intros H. split.
  - rewrite <- (Nat.add_0_r i), <- lookup_drop, H. done.
  - rewrite <- Nat.add_1_r, <- drop_drop, H. done.
Qed.

Lemma parse_arguments_sound fuel argv i o r :
  parse_arguments fuel argv i o = Ret r → reads (drop i argv) o r.
Proof.
  revert i o. induction fuel as [|fuel IH]; intros i o; cbn [parse_arguments]; [done|].
  destruct (argv !! i) as [arg|] eqn:Harg.
  2: { intros [= <-]. apply lookup_ge_None in Harg. rewrite drop_ge by done. constructor. }
  rewrite (drop_S _ _ _ Harg).
  destruct (bytes_eqb arg "--help") eqn:H1; [apply bytes_eqb_true in H1 as ->; intros [= <-]; constructor|].
  destruct (bytes_eqb arg "--version") eqn:H2; [apply bytes_eqb_true in H2 as ->; intros [= <-]; constructor|].
  destruct (is_option arg).
  - intros H. inv_bind H. destruct a as [o' i'].
    apply parse_named_option_spec in Ha as (v & s & Hv & Hn & -> & ->).
    apply IH in H. rewrite Nat.add_1_r in Hv. rewrite (drop_S _ _ _ Hv).
    apply (reads_group [arg; v] s); [by constructor|]. by rewrite Nat.add_1_r in H.
  - destruct (parse_port arg) as [n|] eqn:Hp; [|done]. apply parse_port_spec in Hp.
    intros H. apply (reads_group [arg] (SPort n)); [by constructor|].
    rewrite apply_port. destruct o. by apply IH.
Qed.

Lemma parse_arguments_complete fuel argv i o r :
  (0 < fuel)%nat → (length argv < fuel + i)%nat → reads (drop i argv) o r → parse_arguments fuel argv i o = Ret r.
Proof.
  intros Hpos Hf Hr. remember (drop i argv) as args eqn:Hargs. revert fuel i Hargs Hpos Hf.
  induction Hr as [o|args o|args o|g s args o r Hg _ IH]; intros [|fuel] i Hargs Hpos Hf;
    symmetry in Hargs; try lia; cbn [parse_arguments].
  - assert (Hi : argv !! i = None).
    { apply lookup_ge_None. apply (f_equal length) in Hargs. rewrite length_drop in Hargs.
      simpl in Hargs. lia. }
    by rewrite Hi.
  - apply lookup_drop_cons in Hargs as [-> _]. done.
  - apply lookup_drop_cons in Hargs as [-> _]. done.
  - destruct Hg as [name v s Hn|v n Hn].
    + apply lookup_drop_cons in Hargs as [Hname Hargs]. apply lookup_drop_cons in Hargs as [Hv Hrest].
      rewrite Hname. rewrite <- Nat.add_1_r in Hv.
      assert (Hnames : bytes_eqb name "--help" = false ∧ bytes_eqb name "--version" = false ∧ is_option name = true)
        by (by destruct Hn).
      destruct Hnames as (-> & -> & ->).
      rewrite (proj2 (parse_named_option_spec name o argv i (apply_setting o s) (i + 1)%nat)) by eauto 10.
      apply lookup_lt_Some in Hv. rewrite bind_ret, Nat.add_1_r. apply IH; [done|lia|lia].
    + apply lookup_drop_cons in Hargs as [Hv Hrest]. rewrite Hv.
      pose proof (number_not_option _ _ _ _ Hn) as Hopt.
      assert (Hother : ∀ w, is_option w = true → bytes_eqb v w = false).
      { intros w Hw. unfold bytes_eqb. apply bool_decide_eq_false. intros ->. congruence. }
      rewrite !Hother, Hopt by done. apply parse_port_spec in Hn as Hp. rewrite Hp.
      apply lookup_lt_Some in Hv. rewrite apply_port in IH. destruct o. apply IH; [done|lia|lia].
Qed.

Lemma parse_arguments_defined fuel argv i o :
  (length argv < fuel + i)%nat → (0 < fuel)%nat → defined (parse_arguments fuel argv i o).
Proof.
  revert i o. induction fuel as [|fuel IH]; intros i o Hf Hpos; [lia|]. cbn [parse_arguments].
  destruct (argv !! i) as [arg|] eqn:Harg; [|done]. apply lookup_lt_Some in Harg.
  destruct (bytes_eqb arg "--help"); [done|]. destruct (bytes_eqb arg "--version"); [done|].
  destruct (is_option arg).
  - apply defined_bind; [apply parse_named_option_defined|]. intros [o' i'] Hp.
    apply parse_named_option_spec in Hp as (v & s & Hv & _ & _ & ->).
    apply lookup_lt_Some in Hv. apply IH; lia.
  - destruct (parse_port arg); [|done]. destruct o. apply IH; lia.
Qed.

(** C31: the command line.  The loop over the arguments succeeds exactly on the
    texts of the grammar: options with their values and bare ports, later ones
    overriding earlier ones, up to the end, [--help] or [--version]; numbers are
    digits within 1 and 65535, or 1 and [2 ^ 64 - 1].  On anything else it throws;
    it never reads beyond the arguments and always stops. *)
Theorem command_line_grammar argv :
  (∀ r, parse_arguments (S (length argv)) argv 1 default_options = Ret r ↔
        reads (drop 1 argv) default_options r) ∧
  defined (parse_arguments (S (length argv)) argv 1 default_options).
Proof.
  split; [|apply parse_arguments_defined; lia]. intros r. split; [apply parse_arguments_sound|].
  apply parse_arguments_complete; lia.
Qed.

(** ** The configuration *)

Definition wf_config (c : server_config) : Prop :=
  1 ≤ port c ≤ 65535 ∧ 1 ≤ worker_threads c < size_mod ∧ 0 ≤ connection_queue_capacity c < size_mod.

(** The options hold only what the grammar allows. *)
Definition wf_options (o : cli_options) : Prop :=
  (∀ n, opt_port o = Some n → 1 ≤ n ≤ 65535) ∧
  (∀ n, opt_worker_threads o = Some n → 1 ≤ n < size_mod) ∧
  (∀ n, opt_connection_queue_capacity o = Some n → 1 ≤ n < size_mod).

Lemma group_wf g s o : group g s → wf_options o → wf_options (apply_setting o s).
Proof.
  destruct o as [bind port workers queue dir cert key]. intros Hg (Hp & Hw & Hq). unfold wf_options in *.
  destruct Hg as [name v s Hn|v n (_ & _ & _ & Hr)].
  - destruct Hn as [| v n (_ & _ & _ & Hr)|v n (_ & _ & _ & Hr)|v n (_ & _ & _ & Hr)| | |];
      cbn in *; split_and!; try done; intros n' [= <-]; lia.
  - cbn in *. split_and!; [intros n' [= <-]; lia|done|done].
Qed.

Lemma reads_wf args o opts : reads args o (Options opts) → wf_options o → wf_options opts.
Proof.
  intros Hr. remember (Options opts) as r eqn:Heq. revert Heq.
  induction Hr as [o|args o|args o|g s args o r Hg _ IH]; intros Heq Ho; [|done|done|].
  - by injection Heq as <-.
  - apply IH; [done|]. by eapply group_wf.
Qed.

Section Configuration.
Context {W : Type} `{!Environment W}.

Lemma first_directory_settles candidates : settles (first_directory (W := W) candidates).
Proof.
  induction candidates as [|c cs IH]; [done|]. apply settles_bind; [auto with cpp|]. intros found.
  apply settles_bind; [destruct found; auto with cpp|]. intros directory.
  destruct directory; [done|exact IH].
Qed.

Lemma default_www_root_settles : settles (default_www_root (W := W)).
Proof.
  apply settles_bind; [auto with cpp|]. intros [|]; [done|].
  apply settles_bind; [auto with cpp|]. by intros [|].
Qed.

Lemma default_module_config_dir_settles program : settles (default_module_config_dir (W := W) program).
Proof.
  apply settles_bind.
  - destruct (bytes_eqb program []); [done|]. apply settles_bind; [auto with cpp|done].
  - intros own. apply settles_bind; [apply first_directory_settles|done].
Qed.

Lemma default_worker_threads_settles : settles (default_worker_threads (W := W)).
Proof. intros w. unfold default_worker_threads. by destruct (hardware_concurrency w). Qed.

Lemma finalize_options_settles opts program : settles (finalize_options (W := W) opts program).
Proof.
  unfold finalize_options.
  destruct (opt_tls_certificate_file opts) as [cert|], (opt_tls_private_key_file opts) as [key|];
    cbn [bool_decide decide_rel not_dec option_eq_dec Bool.eqb negb]; try by (apply settles_lift).
  all: apply settles_bind; [apply default_worker_threads_settles|intros threads];
    apply settles_bind; [apply default_www_root_settles|intros root];
    apply settles_bind; [apply default_module_config_dir_settles|intros dir].
  all: apply settles_bind; [done|intros tls; done].
Qed.

(** Both files or none. *)
Definition tls_paired (o : cli_options) : Prop :=
  opt_tls_certificate_file o = None ↔ opt_tls_private_key_file o = None.

Definition tls_of (o : cli_options) : option tls_config :=
  match opt_tls_certificate_file o, opt_tls_private_key_file o with
  | Some certificate, Some key => Some (TlsConfig certificate key)
  | _, _ => None
  end.

(** The configuration the options stand for, with the defaults. *)
Definition config_of (o : cli_options) (threads : Z) (root directory : path) : server_config :=
  let workers := default threads (opt_worker_threads o) in
  ServerConfig (opt_bind_address o)
    (default (if https_requested o then 8443 else 8080) (opt_port o))
    root (default directory (opt_module_config_dir o)) workers
    (default (default_queue_capacity workers) (opt_connection_queue_capacity o)) (tls_of o).

Lemma finalize_options_paired opts program :
  tls_paired opts →
  finalize_options opts program
  = (threads ← default_worker_threads;
     root ← default_www_root;
     directory ← default_module_config_dir program;
     mret (config_of opts threads root directory) : prog W server_config).
Proof.
  unfold tls_paired, finalize_options, config_of, tls_of. intros Hp.
  destruct (opt_tls_certificate_file opts) as [cert|], (opt_tls_private_key_file opts) as [key|];
    [done|by destruct Hp as [_ Hp]; specialize (Hp eq_refl)|
     by destruct Hp as [Hp _]; specialize (Hp eq_refl)|done].
Qed.

Lemma finalize_options_inv opts program (w : W) c w' :
  finalize_options opts program w = (Ret c, w') →
  tls_paired opts ∧ ∃ root directory,
    c = config_of opts (let n := fst (hardware_concurrency w) in if n =? 0 then 4 else n)
          root directory.
Proof.
  destruct (decide (tls_paired opts)) as [Hp|Hp].
  - rewrite finalize_options_paired by done. intros (threads & w1 & Ht & H)%prog_bind_inv.
    apply prog_bind_inv in H as (root & w2 & _ & H). apply prog_bind_inv in H as (dir & w3 & _ & H).
    injection H as <- _. split; [done|]. exists root, dir. f_equal.
    unfold default_worker_threads in Ht. destruct (hardware_concurrency w). by injection Ht as <- _.
  - unfold finalize_options, tls_paired in *.
    destruct (opt_tls_certificate_file opts), (opt_tls_private_key_file opts);
      [by destruct Hp|done|done|by destruct Hp].
Qed.

Lemma config_of_wf (o : cli_options) threads root directory :
  wf_options o → 1 ≤ threads < size_mod → wf_config (config_of o threads root directory).
Proof.
  intros (Hp & Hw & Hq) Ht. unfold wf_config, config_of. cbn [port worker_threads connection_queue_capacity].
  split_and!.
  1,2: destruct (opt_port o) as [n|]; simpl; [by apply Hp|by destruct (https_requested o)].
  1,2: destruct (opt_worker_threads o) as [n|]; simpl; [by apply Hw|lia].
  1,2: destruct (opt_connection_queue_capacity o) as [n|]; simpl;
    [destruct (Hq n eq_refl); lia|apply Z.mod_pos_bound; done].
Qed.

(** The default capacity is 0 exactly when the product is a multiple of [2 ^ 64]. *)
Lemma default_capacity_zero n : default_queue_capacity n = 0 ↔ (2 ^ 58 | n).
Proof.
  unfold default_queue_capacity, size_mod. rewrite Z.mod_divide by done.
  change (2 ^ 64) with (2 ^ 58 * 64). apply Z.mul_divide_cancel_r. done.
Qed.

(** What [parse] gives. *)
Lemma parse_spec `{!EnvironmentLaws W} argv (w : W) :
  defined (fst (parse argv w)) ∧
  ∀ r w', parse argv w = (Ret r, w') →
    match config r with
    | Some c => wf_config c ∧ show_help r = false ∧ show_version r = false ∧
        (connection_queue_capacity c = 0 → (2 ^ 58 | worker_threads c)) ∧
        (∃ opts, parse_arguments (S (length argv)) argv 1 default_options = Ret (Options opts) ∧
           tls_paired opts ∧ tls c = tls_of opts)
    | None => show_help r = true ∧ show_version r = false ∨ show_help r = false ∧ show_version r = true
    end.
Proof.
  pose proof (parse_arguments_defined (S (length argv)) argv 1 default_options ltac:(lia) ltac:(lia)) as Hd.
  split.
  - apply settles_bind; [by apply settles_lift|]. intros [| |opts]; [done|done|].
    apply settles_bind; [apply finalize_options_settles|done].
  - intros r w'. unfold parse.
    destruct (parse_arguments (S (length argv)) argv 1 default_options) as [a|e| |] eqn:Ha; try done.
    rewrite lift_bind. intros Hr. destruct a as [| |opts]; [injection Hr as <- _; by left|injection Hr as <- _; by right|].
    apply prog_bind_inv in Hr as (c & w2 & Hc & Hr). injection Hr as <- <-. cbn [config].
    apply finalize_options_inv in Hc as (Hpair & root & dir & ->).
    pose proof (hardware_concurrency_range w) as Hn. set (n := fst (hardware_concurrency w)) in *.
    assert (Hwf : wf_options opts).
    { apply parse_arguments_sound in Ha. eapply reads_wf; [exact Ha|]. by repeat split. }
    split; [|split; [done|split; [done|split; [|by exists opts]]]].
    + apply config_of_wf; [done|]. cbv zeta. unfold size_mod. destruct (Z.eqb_spec n 0); lia.
    + destruct Hwf as (_ & _ & Hq). unfold config_of. cbn [connection_queue_capacity worker_threads].
      destruct (opt_connection_queue_capacity opts) as [q|]; simpl; [destruct (Hq q eq_refl); lia|].
      apply default_capacity_zero.
Qed.

Lemma config_wf `{!EnvironmentLaws W} argv (w : W) r c w' :
  parse argv w = (Ret r, w') → config r = Some c → wf_config c.
Proof. intros Hp Hc. pose proof (proj2 (parse_spec argv w) r w' Hp) as H. rewrite Hc in H. apply H. Qed.

(** Every configuration that [parse] returns is well typed: a port from 1
    to 65535, at least one worker, sizes within 64 bits, and TLS with both files
    or not at all; the capacity of the queue is 0 only where none was given and 64
    times the workers wrap to 0.  [parse] returns or throws, and it returns no
    configuration exactly when help or the version was asked for. *)
Theorem command_line_type `{!EnvironmentLaws W} argv (w : W) :
  defined (fst (parse argv w)) ∧
  ∀ r w', parse argv w = (Ret r, w') →
    match config r with
    | Some c => wf_config c ∧ show_help r = false ∧ show_version r = false ∧
        (connection_queue_capacity c = 0 → (2 ^ 58 | worker_threads c)) ∧
        (∃ opts, parse_arguments (S (length argv)) argv 1 default_options = Ret (Options opts) ∧
           tls_paired opts ∧ tls c = tls_of opts)
    | None => show_help r = true ∧ show_version r = false ∨ show_help r = false ∧ show_version r = true
    end.
Proof. apply parse_spec. Qed.

(** ** Writing a configuration as arguments *)

Definition config_arguments (c : server_config) : list bytes :=
  ["--bind" : bytes; bind_address c; "--port" : bytes; to_string (port c);
   "--modules-dir" : bytes; module_config_dir c; "--workers" : bytes; to_string (worker_threads c);
   "--queue-capacity" : bytes; to_string (connection_queue_capacity c)]
  ++ match tls c with
     | Some t => ["--tls-cert" : bytes; certificate_file t; "--tls-key" : bytes; private_key_file t]
     | None => []
     end.

Definition with_root (c : server_config) (root : path) : server_config :=
  ServerConfig (bind_address c) (port c) root (module_config_dir c) (worker_threads c)
    (connection_queue_capacity c) (tls c).

Definition options_of (c : server_config) : cli_options :=
  CliOptions (bind_address c) (Some (port c)) (Some (worker_threads c))
    (Some (connection_queue_capacity c)) (Some (module_config_dir c))
    (certificate_file <$> tls c) (private_key_file <$> tls c).

Lemma number_text_to_string lo hi n : 0 ≤ n → lo ≤ n ≤ hi → number_text lo hi (to_string n) n.
Proof. intros Hn Hr. destruct (to_string_value n Hn) as (? & Hv & ?). split; [done|]. by repeat (split; [done|]). Qed.

Lemma config_arguments_read c :
  wf_config c → 1 ≤ connection_queue_capacity c →
  reads (config_arguments c) default_options (Options (options_of c)).
Proof.
  intros (Hp & Hw & Hq) Hq1. unfold config_arguments.
  assert (Hnamed : ∀ name v s args o r, named name v s → reads args (apply_setting o s) r →
    reads (name :: v :: args) o r).
  { intros name v s args o r Hn Hr. apply (reads_group [name; v] s); [by constructor|done]. }
  cbn [app]. eapply Hnamed; [constructor|].
  eapply Hnamed; [constructor; by apply number_text_to_string; lia|].
  eapply Hnamed; [constructor|].
  eapply Hnamed; [constructor; apply number_text_to_string; lia|].
  eapply Hnamed; [constructor; apply number_text_to_string; lia|].
  unfold options_of. destruct (tls c) as [t|]; cbn [app].
  - eapply Hnamed; [constructor|]. eapply Hnamed; [constructor|]. constructor.
  - constructor.
Qed.

(** A configuration written as arguments is read back: for every well-typed
    one with a queue, [parse] gives it again, with the document root that is
    found at start-up.  (The defaults are computed all the same, and can fail.) *)
Theorem command_line_roundtrip program c (w : W) :
  wf_config c → 1 ≤ connection_queue_capacity c →
  parse (program :: config_arguments c) w
  = (_ ← default_worker_threads;
     root ← default_www_root;
     _ ← default_module_config_dir program;
     mret (CommandLineResult false false (Some (with_root c root)))) w.
Proof.
  intros Hwf Hq. unfold parse.
  rewrite (parse_arguments_complete _ (program :: config_arguments c) 1 default_options
             (Options (options_of c))) by first [lia|by apply config_arguments_read].
  rewrite lift_bind, finalize_options_paired.
  2: { unfold tls_paired, options_of. cbn. by destruct (tls c). }
  assert (Hc : ∀ threads root dir, config_of (options_of c) threads root dir = with_root c root).
  { intros threads root dir. unfold config_of, with_root, options_of, tls_of. destruct c as [b p r d wk q [[]|]]; done. }
  unfold mbind, prog_bind. destruct (default_worker_threads w) as [[threads| | |] w1]; try done.
  destruct (default_www_root w1) as [[root| | |] w2]; try done.
  destruct (default_module_config_dir _ w2) as [[dir| | |] w3]; try done.
  by rewrite Hc.
Qed.
End Configuration.

(** ** A machine with [n] threads where nothing exists *)

#[export] Instance bare_machine : Environment Z := {
  env_absolute p w := (Expect p, w);
  env_exists _ w := (Expect false, w);
  env_is_directory _ w := (Expect false, w);
  env_directory _ w := (Unexpected ("No such file or directory" : bytes), w);
  env_is_regular_file _ w := (Expect false, w);
  env_read_file _ w := (None, w);
  hardware_concurrency w := (w mod 2 ^ 32, w);
}.

#[export] Instance bare_machine_laws : EnvironmentLaws Z.
Proof. split. intros w. by apply Z.mod_pos_bound. Qed.

Lemma command_line_type_witness :
  defined (fst (parse (["garcon" : bytes; "8081" : bytes; "--workers" : bytes; "3" : bytes]) 8)) ∧
  wf_config (ServerConfig "127.0.0.1" 8081 "www" "modules.d" 3 192 None).
Proof.
  destruct (command_line_type ["garcon" : bytes; "8081" : bytes; "--workers" : bytes; "3" : bytes] 8)
    as [Hd Hr].
  split; [exact Hd|].
  apply (Hr (CommandLineResult false false
           (Some (ServerConfig "127.0.0.1" 8081 "www" "modules.d" 3 192 None))) 8).
  vm_compute. reflexivity.
Defined.

Definition sample_config : server_config :=
  ServerConfig "0.0.0.0" 443 "www" "/etc/garcon" 16 1024 (Some (TlsConfig "c.pem" "k.pem")).

Lemma command_line_roundtrip_witness :
  parse (("garcon" : bytes) :: config_arguments sample_config) 8
  = (Ret (CommandLineResult false false (Some sample_config)), 8).
Proof.
  rewrite (command_line_roundtrip "garcon" sample_config 8).
  - vm_compute. reflexivity.
  - unfold wf_config, size_mod. simpl. lia.
  - simpl. lia.
Defined.

(** With [2 ^ 58] workers the default capacity is 0. *)
Example capacity_wraps :
  (c ← fst (parse (["garcon" : bytes; "--workers" : bytes; "288230376151711744" : bytes]) 8);
   Ret (connection_queue_capacity <$> config c)) = Ret (Some 0).
Proof. vm_compute. reflexivity. Qed.
