(* ===== verification/ModuleConfig.v ===== *)
(** * The module directory ([src/app/module_config.cpp])

    Every regular [.conf] file of the directory names a module library; the
    modules are loaded in the order of the file names. *)

From stdpp Require Import sorting.
From S2P Require Import Prelude.
From S2P Require Import StringView.
From S2P Require Import ConfigText.
From S2P Require Import FsPath.
From S2P Require Import Environment.

(** ** The order of paths *)

(** The comparison of two sequences by their first difference. *)
Fixpoint list_compare {A} (compare : A → A → comparison) (a b : list A) : comparison :=
  match a, b with
  | [], [] => Eq
  | [], _ => Lt
  | _, [] => Gt
  | c :: a, d :: b =>
      match compare c d with
      | Eq => list_compare compare a b
      | r => r
      end
  end.

(** [a.compare(b)] on strings: chars as unsigned values. *)
Definition bytes_compare : bytes → bytes → comparison := list_compare (λ c d, code c ?= code d)%Z.

(** [p.compare(q)]: the root directory first, then the names. *)
Definition path_compare (p q : path) : comparison :=
  match Bool.compare (path_is_absolute p) (path_is_absolute q) with
  | Eq => list_compare bytes_compare (path_elements p) (path_elements q)
  | r => r
  end.

(** [!(q < p)] *)
Definition path_le (p q : path) : Prop := path_compare p q ≠ Gt.

#[export] Instance path_le_dec p q : Decision (path_le p q).
Proof. unfold path_le. apply _. Defined.

(** [std::sort(files.begin(), files.end())] *)
Definition sort_paths (files : list path) : list path := merge_sort path_le files.

(** ** The loader *)

(** [app::configured_module] *)
Record configured_module := ConfiguredModule {
  library_file : path;
  config_directory : path;
  config_text : bytes;
}.

Definition trim (value : bytes) : outcome bytes := StringView.trim value.

(** The loop of [parse_library_path] up to the value of [path=]. *)
Definition library_value (file : path) (config_text : bytes) : outcome bytes :=
  each_piece (λ _ raw_line,
      line ← trim raw_line;
      if is_content_line line then
        match find_char line "=" 0 with
        | None => Ret (inl tt)
        | Some equals =>
            name ← substr line 0 equals;
            key ← trim name;
            if bytes_eqb key "path" then
              rest ← substr_from line (equals + 1);
              value ← trim rest;
              if bytes_eqb value []
              then Throw (runtime_error ("empty path= entry in module config file: " ++ file))
              else Ret (inr value)
            else Ret (inl tt)
        end
      else Ret (inl tt))
    (λ _, Throw (runtime_error ("missing path= entry in module config file: " ++ file)))
    config_text newline tt.

Section Loader.
Context {W : Type} `{!Environment W}.
Context (out_of_range_what : bytes).

(** [e.what()] *)
Definition what (e : exn) : bytes :=
  match e with
  | runtime_error w | invalid_argument w => w
  | out_of_range => out_of_range_what
  end.

Definition read_text_file (file : path) : prog W bytes :=
  λ w, let '(text, w) := env_read_file file w in
  (match text with
   | None => Throw (runtime_error ("failed to open module config file: " ++ file))
   | Some text => Ret text
   end, w).

Definition parse_library_path (file : path) (config_text : bytes) : prog W path :=
  value ← lift (library_value file config_text);
  let path := if path_is_relative value then path_append (path_parent file) value else value in
  with_error_code path (env_absolute path).

(** The body of the [try]. *)
Definition load_file (file : path) : prog W configured_module :=
  text ← read_text_file file;
  library ← parse_library_path file text;
  mret (ConfiguredModule library (path_parent file) text).

(** The loop over the directory entries. *)
Fixpoint conf_files (entries files : list path) : prog W (list path) :=
  match entries with
  | [] => mret files
  | entry :: entries =>
      regular ← throwing (env_is_regular_file entry);
      if negb regular then conf_files entries files else
      extension ← lift (path_extension entry);
      if negb (bytes_eqb extension ".conf") then conf_files entries files else
      conf_files entries (files ++ [entry])
  end.

(** The loop over the sorted files. *)
Fixpoint load_files (files : list path) (modules : list configured_module)
    : prog W (expected (list configured_module) bytes) :=
  match files with
  | [] => mret (Expect modules)
  | file :: files => λ w,
      match load_file file w with
      | (Ret m, w) => load_files files (modules ++ [m]) w
      | (Throw e, w) => (Ret (Unexpected (what e)), w)
      | (Undef, w) => (Undef, w)
      | (Diverge, w) => (Diverge, w)
      end
  end.

Definition load_configured_modules (directory : path)
    : prog W (expected (list configured_module) bytes) :=
  found ← with_error_code false (env_exists directory);
  is_directory ← (if (found : bool) then with_error_code false (env_is_directory directory) else mret false);
  if negb is_directory
  then mret (Unexpected ("module config directory does not exist: " ++ directory)) else
  entries ← throwing (env_directory directory);
  files ← conf_files entries [];
  modules ← load_files (sort_paths files) [];
  mret (match modules with
        | Expect [] => Unexpected ("no module config files found in: " ++ directory)
        | modules => modules
        end).
End Loader.

(** ** The value of [path=] *)

Lemma library_value_ret file text :
  library_value file text
  = match config_value text "path" with
    | None => Throw (runtime_error ("missing path= entry in module config file: " ++ file))
    | Some [] => Throw (runtime_error ("empty path= entry in module config file: " ++ file))
    | Some value => Ret value
    end.
Proof.
  unfold library_value.
  rewrite (first_entry_loop (λ value, if bytes_eqb value []
    then Throw (runtime_error ("empty path= entry in module config file: " ++ file))
    else Ret (inr value)) _ _ "path").
  - destruct (config_value text "path") as [[|c v]|]; done.
  - intros st raw_line. exact (entry_steps (λ value, if bytes_eqb value []
      then Throw (runtime_error ("empty path= entry in module config file: " ++ file))
      else Ret (inr value)) "path" raw_line).
  - intros v. by destruct (bytes_eqb v []).
Qed.

(** ** The order *)

(** A comparison that is a linear order. *)
Record linear {A} (compare : A → A → comparison) : Prop := {
  compare_eq a b : compare a b = Eq ↔ a = b;
  compare_opp a b : compare b a = CompOpp (compare a b);
  compare_trans a b c : compare a b = Lt → compare b c = Lt → compare a c = Lt;
}.

Lemma code_linear : linear (λ c d, code c ?= code d)%Z.
Proof.
  split.
  - intros a b. rewrite Z.compare_eq_iff. split; [apply code_inj|by intros ->].
  - intros a b. apply Z.compare_antisym.
  - intros a b c. rewrite !Z.compare_lt_iff. lia.
Qed.

Lemma list_linear {A} (compare : A → A → comparison) : linear compare → linear (list_compare compare).
Proof.
  intros [Heq Hopp Htrans]. split.
  - intros a. induction a as [|x a IH]; intros [|y b]; try done. simpl.
    destruct (compare x y) eqn:Hc.
    + apply Heq in Hc as ->. rewrite IH. split; [by intros ->|by intros [= ->]].
    + split; [done|]. intros [= <- <-]. assert (compare x x = Eq) by (by apply Heq). congruence.
    + split; [done|]. intros [= <- <-]. assert (compare x x = Eq) by (by apply Heq). congruence.
  - intros a. induction a as [|x a IH]; intros [|y b]; try done. simpl.
    rewrite (Hopp x y), IH. by destruct (compare x y).
  - intros a. induction a as [|x a IH]; intros [|y b] [|z c]; try done. simpl.
    destruct (compare x y) eqn:Hxy; [apply Heq in Hxy as ->| |done].
    + destruct (compare y z) eqn:Hyz; [|done|done]. apply IH.
    + intros _. destruct (compare y z) eqn:Hyz; [apply Heq in Hyz as <-| |done].
      * by rewrite Hxy.
      * by rewrite (Htrans x y z).
Qed.

Lemma bytes_linear : linear bytes_compare.
Proof. apply list_linear, code_linear. Qed.

Lemma names_linear : linear (list_compare bytes_compare).
Proof. apply list_linear, bytes_linear. Qed.

Lemma path_compare_eq p q : path_compare p q = Eq → path_elements p = path_elements q.
Proof.
  unfold path_compare. destruct (Bool.compare _ _); [|done|done]. apply (compare_eq _ names_linear).
Qed.

Lemma path_compare_opp p q : path_compare q p = CompOpp (path_compare p q).
Proof.
  unfold path_compare. rewrite (compare_opp _ names_linear (path_elements p)).
  by destruct (path_is_absolute p), (path_is_absolute q).
Qed.

#[export] Instance path_le_total : Total path_le.
Proof.
  intros p q. unfold path_le. rewrite (path_compare_opp p q).
  destruct (path_compare p q); [by left|by left|by right].
Qed.

#[export] Instance path_le_trans : Transitive path_le.
Proof.
  assert (Hle : ∀ a b : list bytes, list_compare bytes_compare a b ≠ Gt ↔
    a = b ∨ list_compare bytes_compare a b = Lt).
  { intros a b. rewrite <- (compare_eq _ names_linear). destruct (list_compare _ a b); split; (auto || (intros H; by destruct H)). }
  intros p q r. unfold path_le, path_compare.
  destruct (path_is_absolute p), (path_is_absolute q), (path_is_absolute r); simpl; try done.
  all: rewrite !Hle; intros [->|H1] [<-|H2]; auto; right;
    eapply (compare_trans _ names_linear); eauto; congruence.
Qed.

Lemma sort_paths_sorted files : StronglySorted path_le (sort_paths files).
Proof. apply StronglySorted_merge_sort; apply _. Qed.

Lemma sort_paths_perm files : sort_paths files ≡ₚ files.
Proof. apply merge_sort_Permutation. Qed.

(** Paths that differ in what an iterator sees. *)
Definition distinguishable (files : list path) : Prop :=
  ∀ p q, p ∈ files → q ∈ files → path_elements p = path_elements q → p = q.

Lemma sort_paths_unique files files' :
  files ≡ₚ files' → distinguishable files → sort_paths files = sort_paths files'.
Proof.
  intros Hp Hd. apply (StronglySorted_unique_strong path_le).
  - intros p q Hip Hiq Hpq Hqp.
    rewrite sort_paths_perm in Hip. rewrite sort_paths_perm, <- Hp in Hiq.
    apply Hd; [done|done|]. apply path_compare_eq. unfold path_le in *.
    rewrite (path_compare_opp p q) in Hqp. by destruct (path_compare p q).
  - apply sort_paths_sorted.
  - apply sort_paths_sorted.
  - by rewrite !sort_paths_perm.
Qed.

(** ** What is loaded

    [QuietEnvironment]: nobody changes the files while the directory is read, and
    the entries of a directory are named like files. *)
Class QuietEnvironment (W : Type) `{!Environment W} : Prop := {
  quiet_absolute p w : snd (env_absolute p w) = w;
  quiet_exists p w : snd (env_exists p w) = w;
  quiet_is_directory p w : snd (env_is_directory p w) = w;
  quiet_directory p w : snd (env_directory p w) = w;
  quiet_is_regular_file p w : snd (env_is_regular_file p w) = w;
  quiet_read_file p w : snd (env_read_file p w) = w;
  directory_names p w entries :
    fst (env_directory p w) = Expect entries →
    ∃ names, entries = path_append p <$> names ∧ Forall valid_name names ∧ NoDup names;
}.

Lemma path_extension_returns p : returns (path_extension p).
Proof.
  unfold path_extension. destruct (_ || _); [apply returns_ret|].
  unfold rfind_char. destruct (search ["."%char] (reverse (path_filename p))) as [i|]; [|apply returns_ret].
  cbn [fmap option_fmap option_map].
  destruct (length (path_filename p) - S i) as [|j] eqn:Hj; [apply returns_ret|].
  rewrite substr_from_ret by lia. apply returns_ret.
Qed.

Section Quiet.
Context {W : Type} `{!Environment W, !QuietEnvironment W}.
Context (out_of_range_what : bytes).
Implicit Types (w : W) (files entries : list path).

(** What the files of the world say. *)
Definition regular w (p : path) : bool :=
  match fst (env_is_regular_file p w) with Expect b => b | Unexpected _ => false end.

Definition has_conf_extension (p : path) : bool :=
  match path_extension p with Ret e => bytes_eqb e ".conf" | _ => false end.

Definition is_conf w (p : path) : bool := regular w p && has_conf_extension p.

(** The library a value of [path=] means: it is relative to the file. *)
Definition library_of w (file : path) (value : bytes) : path :=
  let path := if path_is_absolute value then value else path_append (path_parent file) value in
  match fst (env_absolute path w) with Expect absolute => absolute | Unexpected _ => path end.

(** The module a file describes, or what is wrong with it. *)
Definition described w (file : path) : expected configured_module bytes :=
  match fst (env_read_file file w) with
  | None => Unexpected ("failed to open module config file: " ++ file)
  | Some text =>
      match config_value text "path" with
      | None => Unexpected ("missing path= entry in module config file: " ++ file)
      | Some [] => Unexpected ("empty path= entry in module config file: " ++ file)
      | Some value => Expect (ConfiguredModule (library_of w file value) (path_parent file) text)
      end
  end.

Fixpoint described_all w (files : list path) : expected (list configured_module) bytes :=
  match files with
  | [] => Expect []
  | file :: files =>
      match described w file with
      | Unexpected e => Unexpected e
      | Expect m =>
          match described_all w files with
          | Unexpected e => Unexpected e
          | Expect ms => Expect (m :: ms)
          end
      end
  end.

Lemma throwing_quiet {A} (call : W → expected A bytes * W) w :
  snd (call w) = w →
  throwing call w = (match fst (call w) with
                     | Expect a => Ret a
                     | Unexpected e => Throw (runtime_error e)
                     end, w).
Proof. unfold throwing. destruct (call w) as [r w']. simpl. by intros ->. Qed.

Lemma error_code_quiet {A} (d : A) (call : W → expected A bytes * W) w :
  snd (call w) = w →
  with_error_code d call w = (Ret (match fst (call w) with Expect a => a | Unexpected _ => d end), w).
Proof.
  unfold with_error_code. destruct (call w) as [r w']. simpl. intros ->. by destruct r.
Qed.

Lemma read_text_file_ret file w :
  read_text_file file w
  = (match fst (env_read_file file w) with
     | None => Throw (runtime_error ("failed to open module config file: " ++ file))
     | Some text => Ret text
     end, w).
Proof.
  unfold read_text_file. pose proof (quiet_read_file file w) as Hq.
  destruct (env_read_file file w) as [text w']. cbn [fst snd] in *. by rewrite Hq.
Qed.

Lemma parse_library_path_ret file text w :
  parse_library_path file text w
  = (match config_value text "path" with
     | None => Throw (runtime_error ("missing path= entry in module config file: " ++ file))
     | Some [] => Throw (runtime_error ("empty path= entry in module config file: " ++ file))
     | Some value => Ret (library_of w file value)
     end, w).
Proof.
  unfold parse_library_path. rewrite library_value_ret.
  destruct (config_value text "path") as [[|c v]|]; [done| |done].
  rewrite lift_bind, error_code_quiet by apply quiet_absolute.
  unfold library_of, path_is_relative. by destruct (path_is_absolute (c :: v)).
Qed.

Lemma load_file_ret file w :
  load_file file w = (match described w file with
                      | Expect m => Ret m
                      | Unexpected e => Throw (runtime_error e)
                      end, w).
Proof.
  unfold load_file, described, mbind at 1, prog_bind at 1. rewrite read_text_file_ret.
  destruct (fst (env_read_file file w)) as [text|]; [|done].
  unfold mbind, prog_bind. rewrite parse_library_path_ret.
  by destruct (config_value text "path") as [[|c v]|].
Qed.

Lemma load_files_ret files modules w :
  load_files out_of_range_what files modules w
  = (Ret (match described_all w files with
          | Expect ms => Expect (modules ++ ms)
          | Unexpected e => Unexpected e
          end), w).
Proof.
  revert modules. induction files as [|f files IH]; intros modules.
  { cbn [load_files described_all]. by rewrite app_nil_r. }
  cbn [load_files described_all]. rewrite load_file_ret.
  destruct (described w f) as [m|e]; [|done]. rewrite IH.
  destruct (described_all w files); [|done]. by rewrite <- app_assoc.
Qed.

(** The entries that cannot be examined make the call throw. *)
Definition examined w entries : option bytes :=
  head (omap (λ p, match fst (env_is_regular_file p w) with
                   | Expect _ => None
                   | Unexpected e => Some e
                   end) entries).

Lemma conf_files_ret entries files w :
  conf_files entries files w
  = (match examined w entries with
     | None => Ret (files ++ List.filter (is_conf w) entries)
     | Some e => Throw (runtime_error e)
     end, w).
Proof.
  unfold examined. revert files. induction entries as [|p entries IH]; intros files.
  { simpl. by rewrite app_nil_r. }
  cbn [conf_files]. unfold mbind at 1, prog_bind at 1.
  rewrite throwing_quiet by apply quiet_is_regular_file.
  unfold is_conf, regular. cbn [omap list_omap List.filter].
  destruct (fst (env_is_regular_file p w)) as [b|e] eqn:Hr; [|done].
  destruct b; cbn [negb andb]; [|apply IH].
  destruct (path_extension_returns p) as [ext Hext]. rewrite Hext, lift_bind.
  assert (Hh : has_conf_extension p = bytes_eqb ext ".conf") by (unfold has_conf_extension; by rewrite Hext).
  rewrite Hh. destruct (bytes_eqb ext ".conf"); cbn [negb]; [|apply IH].
  rewrite IH. destruct (head _); [done|]. by rewrite <- app_assoc.
Qed.

(** The directory is there. *)
Definition directory_found w (directory : path) : bool :=
  match fst (env_exists directory w), fst (env_is_directory directory w) with
  | Expect true, Expect b => b
  | _, _ => false
  end.

Lemma load_configured_modules_ret directory w :
  load_configured_modules out_of_range_what directory w
  = (if directory_found w directory then
       match fst (env_directory directory w) with
       | Unexpected e => Throw (runtime_error e)
       | Expect entries =>
           match examined w entries with
           | Some e => Throw (runtime_error e)
           | None =>
               Ret (match described_all w (sort_paths (List.filter (is_conf w) entries)) with
                    | Expect [] => Unexpected ("no module config files found in: " ++ directory)
                    | modules => modules
                    end)
           end
       end
     else Ret (Unexpected ("module config directory does not exist: " ++ directory)), w).
Proof.
  unfold load_configured_modules, directory_found.
  rewrite (prog_bind_ret _ _ _ _ _ (error_code_quiet _ _ _ (quiet_exists directory w))).
  destruct (fst (env_exists directory w)) as [[|]|e]; [|done|done].
  rewrite (prog_bind_ret _ _ _ _ _ (error_code_quiet _ _ _ (quiet_is_directory directory w))).
  destruct (fst (env_is_directory directory w)) as [[|]|e]; [|done|done]. cbn [negb].
  unfold mbind at 1, prog_bind at 1. rewrite throwing_quiet by apply quiet_directory.
  destruct (fst (env_directory directory w)) as [entries|e]; [|done].
  unfold mbind at 1, prog_bind at 1. rewrite conf_files_ret.
  destruct (examined w entries) as [e|]; [done|]. cbn [app].
  rewrite (prog_bind_ret _ _ _ _ _ (load_files_ret _ [] w)).
  by destruct (described_all w (sort_paths _)) as [[]|].
Qed.

Lemma described_all_spec w files ms :
  described_all w files = Expect ms ↔ Forall2 (λ f m, described w f = Expect m) files ms.
Proof.
  revert ms. induction files as [|f files IH]; intros ms; cbn [described_all].
  - split; [by intros [= <-]|]. by intros ->%Forall2_nil_inv_l.
  - destruct (described w f) as [m|e] eqn:Hf.
    + destruct (described_all w files) as [ms'|e].
      * split; [intros [= <-]; constructor; [done|by apply IH]|].
        intros (m' & ms'' & Hm & Hms & ->)%Forall2_cons_inv_l. apply IH in Hms as [= ->]. congruence.
      * split; [done|]. intros (m' & ms'' & Hm & Hms & ->)%Forall2_cons_inv_l. by apply IH in Hms.
    + split; [done|]. intros (m' & ms'' & Hm & Hms & ->)%Forall2_cons_inv_l. congruence.
Qed.
End Quiet.

(** ** Directory entries are distinguishable *)

Lemma split_on_eq d c s :
  split_on d (c :: s)
  = if Ascii.eqb c d then [] :: split_on d s
    else match split_on d s with
         | [] => [[c]]
         | p :: ps => (c :: p) :: ps
         end.
Proof. done. Qed.

Lemma split_on_delimiter d a b : split_on d (a ++ d :: b) = split_on d a ++ split_on d b.
Proof.
  induction a as [|c a IH]; cbn [app]; rewrite !split_on_eq, ?Ascii.eqb_refl; [done|].
  rewrite IH. destruct (Ascii.eqb c d); [done|].
  by destruct (split_on_cons d a) as (p & ps & ->).
Qed.

Lemma split_on_last_app d a b : d ∉ b → last (split_on d (a ++ d :: b)) = Some b.
Proof. intros Hb. rewrite split_on_delimiter, (split_on_none d b) by done. apply last_snoc. Qed.

Lemma lstrip_last_name p : last (split_on "/" (lstrip is_slash p)) = last (split_on "/" p).
Proof.
  induction p as [|c p IH]; [done|]. cbn [lstrip]. unfold is_slash at 1.
  destruct (Ascii.eqb_spec c "/") as [->|]; [|done]. rewrite IH, split_on_eq, Ascii.eqb_refl.
  by destruct (split_on_cons "/" p) as (q & qs & ->).
Qed.

(** A path that ends in a name: the iterator ends with it. *)
Lemma names_of_last s n : last (split_on "/" s) = Some n → n ≠ [] → last (names_of s) = Some n.
Proof.
  intros Hl Hn. unfold names_of.
  assert (Hlast : match last s with Some c => if is_slash c then [[]] else [] | None => [] end = ([] : list bytes)).
  { destruct s as [|x s _] using rev_ind; [done|]. rewrite last_snoc. unfold is_slash.
    destruct (Ascii.eqb_spec x "/") as [->|]; [|done].
    rewrite (split_on_last_app "/" s []) in Hl by apply not_elem_of_nil. congruence. }
  rewrite Hlast, app_nil_r. apply last_Some in Hl as [ps ->].
  rewrite List.filter_app. cbn [List.filter]. rewrite (proj2 (bytes_eqb_nil n)) by done.
  cbn [negb]. apply last_snoc.
Qed.

Lemma elements_last p n : last (split_on "/" p) = Some n → n ≠ [] → last (path_elements p) = Some n.
Proof.
  intros Hl Hn. unfold path_elements. destruct (path_is_absolute p); [|by apply names_of_last].
  rewrite <- lstrip_last_name in Hl. cbv zeta.
  destruct (bytes_eqb (lstrip is_slash p) []) eqn:He.
  - apply bool_decide_eq_true in He. rewrite He in Hl. injection Hl as <-. done.
  - rewrite last_cons, (names_of_last _ n) by done. done.
Qed.

Lemma append_last directory n : valid_name n → last (split_on "/" (path_append directory n)) = Some n.
Proof.
  intros (Hn & Hs & _). unfold path_append.
  assert (Habs : path_is_absolute n = false).
  { destruct n as [|c n]; [done|]. apply not_elem_of_cons in Hs as [Hs _]. by apply Ascii.eqb_neq. }
  rewrite Habs. unfold path_has_filename. destruct (last directory) as [c|] eqn:Hl.
  - apply last_Some in Hl as [d ->]. unfold is_slash. destruct (Ascii.eqb_spec c "/") as [->|]; cbn [negb].
    + rewrite <- app_assoc. by apply split_on_last_app.
    + by apply split_on_last_app.
  - apply last_None in Hl as ->. cbn [app]. by rewrite split_on_none.
Qed.

Lemma directory_distinguishable directory names :
  Forall valid_name names → distinguishable (path_append directory <$> names).
Proof.
  intros HF p q (n & -> & Hn)%list_elem_of_fmap (m & -> & Hm)%list_elem_of_fmap He.
  rewrite Forall_forall in HF. apply HF in Hn as Hvn, Hm as Hvm.
  assert (H : Some n = Some m).
  { rewrite <- (elements_last (path_append directory n) n), <- (elements_last (path_append directory m) m), He;
      first [done|by apply append_last|by destruct Hvn|by destruct Hvm]. }
  by injection H as ->.
Qed.

Lemma sorted_unique_sort files sorted :
  distinguishable files → sorted ≡ₚ files → StronglySorted path_le sorted → sorted = sort_paths files.
Proof.
  intros Hd Hp Hs. apply (StronglySorted_unique_strong path_le).
  - intros p q Hip Hiq Hpq Hqp. rewrite Hp in Hip. rewrite sort_paths_perm in Hiq.
    apply Hd; [done|done|]. apply path_compare_eq. unfold path_le in *.
    rewrite (path_compare_opp p q) in Hqp. by destruct (path_compare p q).
  - done.
  - apply sort_paths_sorted.
  - by rewrite sort_paths_perm.
Qed.

Lemma distinguishable_filter f files : distinguishable files → distinguishable (List.filter f files).
Proof.
  intros Hd p q. rewrite !list_elem_of_In, !List.filter_In, <- !list_elem_of_In.
  intros [Hp _] [Hq _]. by apply Hd.
Qed.

Section Theorems.
Context {W : Type} `{!Environment W, !QuietEnvironment W}.
Context (out_of_range_what : bytes).

Lemma examined_spec (w : W) entries :
  examined w entries = None ↔
  Forall (λ p, ∃ b, fst (env_is_regular_file p w) = Expect b) entries.
Proof.
  unfold examined. induction entries as [|p entries IH]; [by split|]. cbn [omap list_omap].
  rewrite Forall_cons. destruct (fst (env_is_regular_file p w)) as [b|e]; [|split; [done|]].
  - rewrite IH. split; [intros; split; [by exists b|done]|by intros [_ ?]].
  - by intros [[b [=]] _].
Qed.

(** C30: the module list.  [load_configured_modules] succeeds exactly when the
    directory is there and can be read, there is a module, and every regular file
    with the extension [.conf] opens and has a value for [path=]; the modules are
    then those of these files, one each, in the order of the file names, however
    the file system orders the entries.  A relative library path is taken from the
    directory of its file. *)
Theorem module_directory directory (w : W) ms w' :
  load_configured_modules out_of_range_what directory w = (Ret (Expect ms), w') ↔
  w' = w ∧ directory_found w directory = true ∧ ms ≠ [] ∧
  ∃ entries files,
    fst (env_directory directory w) = Expect entries ∧
    Forall (λ p, ∃ b, fst (env_is_regular_file p w) = Expect b) entries ∧
    files ≡ₚ List.filter (is_conf w) entries ∧ StronglySorted path_le files ∧
    Forall2 (λ file m, described w file = Expect m) files ms.
Proof.
  rewrite load_configured_modules_ret. split.
  - destruct (directory_found w directory); [|done].
    destruct (fst (env_directory directory w)) as [entries|e]; [|done].
    destruct (examined w entries) as [e|] eqn:He; [done|].
    destruct (described_all w (sort_paths (List.filter (is_conf w) entries))) as [[|m ms']|e] eqn:Hd; try done.
    intros [= <- <-]. split_and!; [done|done|done|].
    exists entries, (sort_paths (List.filter (is_conf w) entries)).
    split_and!; [done|by apply examined_spec|apply sort_paths_perm|apply sort_paths_sorted|].
    by apply described_all_spec.
  - intros (-> & -> & Hne & entries & files & Hdir & Hex & Hp & Hs & Hms). rewrite Hdir.
    apply examined_spec in Hex as ->.
    assert (Hd : distinguishable entries).
    { apply directory_names in Hdir as (names & -> & HF & _). by apply directory_distinguishable. }
    apply (sorted_unique_sort (List.filter (is_conf w) entries)) in Hs as ->;
      [|by apply distinguishable_filter|done].
    apply described_all_spec in Hms as ->. by destruct ms.
Qed.

(** The order in which the entries are listed does not matter. *)
Lemma listing_order (w : W) directory entries entries' :
  fst (env_directory directory w) = Expect entries → entries ≡ₚ entries' →
  sort_paths (List.filter (is_conf w) entries) = sort_paths (List.filter (is_conf w) entries').
Proof.
  intros Hdir Hp. apply sort_paths_unique.
  - clear Hdir. induction Hp as [|x l l' _ IH|x y l|l l' l'' _ IH1 _ IH2]; cbn [List.filter].
    + done.
    + destruct (is_conf w x); [by constructor|done].
    + destruct (is_conf w x), (is_conf w y); try done. apply Permutation_swap.
    + by transitivity (List.filter (is_conf w) l').
  - apply distinguishable_filter. apply directory_names in Hdir as (names & -> & HF & _).
    by apply directory_distinguishable.
Qed.
End Theorems.

(** ** A directory with two modules *)

Definition sample_names : list bytes := ["20-b.conf" : bytes; "10-a.conf" : bytes; "notes.txt" : bytes].

Definition sample_text (p : path) : option bytes :=
  if bytes_eqb p "d/10-a.conf" then Some ("path=liba.so" : bytes)
  else if bytes_eqb p "d/20-b.conf" then Some ("# b" ++ newline :: "path = /lib/b.so" : bytes)
  else None.

#[export] Instance sample_directory : Environment unit := {
  env_absolute p w := (Expect (path_append "/srv" p), w);
  env_exists _ w := (Expect true, w);
  env_is_directory _ w := (Expect true, w);
  env_directory p w := (Expect (path_append p <$> sample_names), w);
  env_is_regular_file _ w := (Expect true, w);
  env_read_file p w := (sample_text p, w);
  hardware_concurrency w := (1%Z, w);
}.

#[export] Instance sample_directory_quiet : QuietEnvironment unit.
Proof.
  split; try done. intros p w entries [= <-]. exists sample_names.
  split; [done|]. split; by apply (bool_decide_eq_true_1 _).
Qed.

Lemma module_directory_witness :
  load_configured_modules [] "d" tt
  = (Ret (Expect [ConfiguredModule "/srv/d/liba.so" "d" "path=liba.so";
                  ConfiguredModule "/lib/b.so" "d" ("# b" ++ newline :: "path = /lib/b.so")]), tt).
Proof.
  apply (module_directory [] "d" tt). split_and!; [done|done|done|].
  exists (path_append "d" <$> sample_names), ["d/10-a.conf" : bytes; "d/20-b.conf" : bytes].
  split_and!.
  - done.
  - apply Forall_forall. intros p _. by exists true.
  - vm_compute. apply Permutation_swap.
  - repeat constructor; by apply (bool_decide_eq_true_1 _).
  - repeat constructor; vm_compute; reflexivity.
Defined.
