(* ===== verification/DynamicModule.v ===== *)
(** * Loading modules ([src/app/dynamic_module.cpp], [create_request_handler] of
    [src/server.cpp], [create] and [destroy] of [include/garcon/module_cpp.h])

    A module library is opened, its descriptor is checked, and an instance is
    created from the configuration text; the destructor undoes both.  The dynamic
    linker and the code of a library are operations of a class. *)

From S2P Require Import Prelude.
From S2P Require Import StringView.
From S2P Require Import HttpHeader.
From S2P Require Import HttpRequest.
From S2P Require Import HttpResponse.
From S2P Require Import Pipeline.
From S2P Require Import ModuleAbi.
From S2P Require Import FsPath.
From S2P Require Import StaticFiles.
From S2P Require Import Environment.
From S2P Require Import CommandLine.
From S2P Require Import ModuleConfig.

(** ** The C types *)

Definition GARCON_MODULE_ABI_VERSION : Z := 3.
Definition GARCON_MODULE_ENTRYPOINT : bytes := "garcon_get_module_descriptor".

(** [garcon_host_api] *)
Record host_api := HostApi {
  api_version : Z;
  api_document_root : string_view;
  api_config_directory : string_view;
}.

(** [garcon_module_descriptor]: [I] are the instances; [create] gives an instance
    or null, and may set the error message. *)
Record descriptor (W I : Type) := Descriptor {
  abi_version : Z;
  descriptor_name : option bytes;
  create : option host_api → option bytes → prog W (option I * option bytes);
  destroy : option (I → W → W);
  handle_function : option (I → abi_function W);
}.
Arguments Descriptor {W I}.
Arguments abi_version {W I}.
Arguments descriptor_name {W I}.
Arguments create {W I}.
Arguments destroy {W I}.
Arguments handle_function {W I}.

(** The calls of the dynamic linker; [H] are the handles.  The symbol of a module
    library is a function that gives a descriptor or null. *)
Class DynamicLinker (W H I : Type) := {
  dlopen : path → W → option H * W;
  dlclose : H → W → W;
  dlerror : W → option bytes * W;
  dlsym : H → bytes → W → option (prog W (option (descriptor W I))) * W;
}.

(** ** The C++ side: [detail::create], [detail::destroy], [make_descriptor] *)

(** The [host_context] of a module. *)
Definition host_context_of (api : host_api) : host_context :=
  HostContext (view_bytes (api_document_root api)) (view_bytes (api_config_directory api)).

Section Exported.
Context {W : Type}.
Context (out_of_range_what : bytes).

(** [detail::set_error_message]: the host reads the text up to its first null
    char. *)
Definition set_error_message (message : bytes) : option bytes := Some (c_str message).

(** [detail::create<Module>]; [make] is the constructor of the module class. *)
Definition abi_create (make : host_context → bytes → prog W (cpp_module W))
    (host : option host_api) (config : option bytes) : prog W (option (cpp_module W) * option bytes) :=
  λ w,
  let '(r, w) :=
    match host with
    | None => (Throw (runtime_error "module host context must not be null"), w)
    | Some host => make (host_context_of host) (default [] config) w
    end in
  (match r with
   | Ret instance => Ret (Some instance, None)
   | Throw e => Ret (None, set_error_message (what out_of_range_what e))
   | Undef => Undef
   | Diverge => Diverge
   end, w).

(** [detail::destroy<Module>]: the module classes have no destructors of their
    own. *)
Definition abi_destroy (instance : cpp_module W) (w : W) : W := w.

Definition make_descriptor (make : host_context → bytes → prog W (cpp_module W)) (name : bytes)
    : descriptor W (cpp_module W) :=
  Descriptor GARCON_MODULE_ABI_VERSION (Some name) (abi_create make) (Some abi_destroy)
    (Some (λ instance, abi_handle instance)).

(** [GARCON_EXPORT_MODULE]: the body of [garcon_get_module_descriptor]. *)
Definition garcon_get_module_descriptor (make : host_context → bytes → prog W (cpp_module W))
    (name : bytes) : prog W (option (descriptor W (cpp_module W))) :=
  mret (Some (make_descriptor make name)).
End Exported.

(** ** [app::dynamic_module] *)

Record dynamic_module (W H I : Type) := DynamicModule {
  dm_name : bytes;
  dm_config_text : bytes;
  dm_default_document_root : bytes;
  dm_config_directory : bytes;
  dm_host_api : host_api;
  dm_library_handle : option H;
  dm_descriptor : option (descriptor W I);
  dm_instance : option I;
}.
Arguments DynamicModule {W H I}.
Arguments dm_name {W H I}.
Arguments dm_library_handle {W H I}.
Arguments dm_descriptor {W H I}.
Arguments dm_instance {W H I}.

Section Linker.
Context {W H I : Type} `{!DynamicLinker W H I}.

Definition require_dlerror (operation : bytes) : prog W bytes :=
  λ w, let '(detail, w) := dlerror w in
  (Ret (match detail with
        | None => operation
        | Some detail => operation ++ ": " ++ detail
        end), w).

(** The [try] block once the library is open. *)
Definition open_module (library_file config_directory : path) (config_text : bytes)
    (config : server_config) (handle : H) : prog W (dynamic_module W H I) :=
  _ ← (λ w, (Ret tt, snd (dlerror w)));
  entrypoint ← (λ w, let '(f, w) := dlsym handle GARCON_MODULE_ENTRYPOINT w in (Ret f, w));
  match entrypoint with
  | None => detail ← require_dlerror "dlsym() failed"; lift (Throw (runtime_error detail))
  | Some entrypoint =>
      found ← entrypoint;
      match found with
      | None => lift (Throw (runtime_error "module entrypoint returned a null descriptor"))
      | Some d =>
          if negb (abi_version d =? GARCON_MODULE_ABI_VERSION)%Z
          then lift (Throw (runtime_error ("module ABI mismatch for: " ++ library_file))) else
          let name := match descriptor_name d with
                      | None | Some [] => path_filename library_file
                      | Some name => name
                      end in
          let host := HostApi GARCON_MODULE_ABI_VERSION (make_string_view (www_root config))
                        (make_string_view config_directory) in
          '(instance, error_message) ← create d (Some host) (Some (c_str config_text));
          match instance with
          | None =>
              let detail := default ("module create() failed" : bytes) error_message in
              lift (Throw (runtime_error
                (("failed to create module '" : bytes) ++ name ++ "': " ++ detail)))
          | Some instance =>
              mret (DynamicModule name config_text (www_root config) config_directory host
                      (Some handle) (Some d) (Some instance))
          end
      end
  end.

(** The constructor: on an exception an open library is closed. *)
Definition dynamic_module_new (library_file config_directory : path) (config_text : bytes)
    (config : server_config) : prog W (dynamic_module W H I) :=
  λ w,
  let '(handle, w) := dlopen library_file w in
  match handle with
  | None => (detail ← require_dlerror "dlopen() failed"; lift (Throw (runtime_error detail))) w
  | Some handle =>
      on_throw (open_module library_file config_directory config_text config handle)
        (dlclose handle) w
  end.

(** The destructor. *)
Definition dynamic_module_delete (m : dynamic_module W H I) (w : W) : W :=
  let w := match dm_descriptor m, dm_instance m with
           | Some d, Some instance =>
               match destroy d with
               | Some destroy => destroy instance w
               | None => w
               end
           | _, _ => w
           end in
  match dm_library_handle m with
  | Some handle => dlclose handle w
  | None => w
  end.

(** The module of the pipeline. *)
Definition request_module_of (m : dynamic_module W H I) : request_module W :=
  RequestModule (dm_name m)
    (dynamic_handle (match dm_descriptor m, dm_instance m with
                     | Some d, Some instance => (λ f, f instance) <$> handle_function d
                     | _, _ => None
                     end)).

(** ** [create_request_handler] *)

(** The pipeline owns its modules: they go with it. *)
Definition delete_all (built : list (dynamic_module W H I)) (w : W) : W :=
  foldl (λ w m, dynamic_module_delete m w) w built.

(** The loop that adds the modules; an exception destroys the pipeline. *)
Fixpoint add_modules (config : server_config) (configured : list configured_module)
    (built : list (dynamic_module W H I)) : prog W (list (dynamic_module W H I)) :=
  match configured with
  | [] => mret built
  | c :: configured => λ w,
      match dynamic_module_new (library_file c) (ModuleConfig.config_directory c)
              (config_text c) config w with
      | (Ret m, w) => add_modules config configured (built ++ [m]) w
      | (Throw e, w) => (Throw e, delete_all built w)
      | (Undef, w) => (Undef, w)
      | (Diverge, w) => (Diverge, w)
      end
  end.

Definition create_request_handler `{!Environment W} (out_of_range_what : bytes) (config : server_config)
    : prog W (list (dynamic_module W H I)) :=
  configured_modules ← load_configured_modules out_of_range_what (module_config_dir config);
  match configured_modules with
  | Unexpected error => lift (Throw (runtime_error error))
  | Expect configured => add_modules config configured []
  end.

(** The handler as a pipeline. *)
Definition pipeline_of (built : list (dynamic_module W H I)) : list (request_module W) :=
  request_module_of <$> built.
End Linker.

(** ** Lifetimes

    A linker is watched: every opening and closing of a library and every creation,
    call and destruction of an instance goes into a log. *)

Inductive event (H I : Type) :=
  | EOpen (h : H)
  | ECreate (h : H) (i : I)
  | ECall (h : H) (i : I)
  | EDestroy (h : H) (i : I)
  | EClose (h : H).
Arguments EOpen {H I}.
Arguments ECreate {H I}.
Arguments ECall {H I}.
Arguments EDestroy {H I}.
Arguments EClose {H I}.

Section Watched.
Context {W H I : Type} `{L : !DynamicLinker W H I}.

Abbreviation log := (list (event H I)).

Definition watched_descriptor (h : H) (d : descriptor W I) : descriptor (W * log) I :=
  Descriptor (abi_version d) (descriptor_name d)
    (λ host config, watch (λ r, match r with Ret (Some i, _) => [ECreate h i] | _ => [] end)
                          (create d host config))
    ((λ destroy i '(w, t), (destroy i w, t ++ [EDestroy h i])) <$> destroy d)
    ((λ handle i e, watch (λ _, [ECall h i]) (handle i e)) <$> handle_function d).

Definition watched_entrypoint (h : H) (entrypoint : prog W (option (descriptor W I)))
    : prog (W * log) (option (descriptor (W * log) I)) :=
  λ '(w, t), let '(r, w) := entrypoint w in
  (match r with
   | Ret d => Ret (option_map (watched_descriptor h) d)
   | Throw e => Throw e
   | Undef => Undef
   | Diverge => Diverge
   end, (w, t)).

#[local] Instance watched_linker : DynamicLinker (W * log) H I := {
  dlopen p := watch (λ r, match r with Some h => [EOpen h] | None => [] end) (dlopen p);
  dlclose h '(w, t) := (dlclose h w, t ++ [EClose h]);
  dlerror := watch (λ _, []) dlerror;
  dlsym h s '(w, t) :=
    let '(f, w) := dlsym h s w in (option_map (watched_entrypoint h) f, (w, t));
}.

(** The libraries in use, each with its instance if it has one. *)
Abbreviation slots := (list (H * option I)).

(** What may happen: an instance belongs to an open library, it is called only
    while it exists, and its library is closed only after it is gone. *)
Inductive legal : slots → event H I → slots → Prop :=
  | legal_open h s : legal s (EOpen h) ((h, None) :: s)
  | legal_create h i s s' : s ≡ₚ (h, None) :: s' → legal s (ECreate h i) ((h, Some i) :: s')
  | legal_call h i s : (h, Some i) ∈ s → legal s (ECall h i) s
  | legal_destroy h i s s' : s ≡ₚ (h, Some i) :: s' → legal s (EDestroy h i) ((h, None) :: s')
  | legal_close h s s' : s ≡ₚ (h, None) :: s' → legal s (EClose h) s'.

Inductive legal_log : slots → log → slots → Prop :=
  | legal_nil s s' : s ≡ₚ s' → legal_log s [] s'
  | legal_cons s e s1 t s' : legal s e s1 → legal_log s1 t s' → legal_log s (e :: t) s'.

Lemma legal_log_app s t1 s1 t2 s2 :
  legal_log s t1 s1 → legal_log s1 t2 s2 → legal_log s (t1 ++ t2) s2.
Proof.
  intros H1. revert s2. induction H1 as [s s' Hp|s e s' t s'' He _ IH]; intros s2 H2; simpl.
  - revert s Hp. induction H2 as [a b Hab|a e b t c Hlegal _ IH]; intros s Hp.
    { constructor. by rewrite Hp. }
    assert (Hperm : ∃ b', legal s e b' ∧ b' ≡ₚ b).
    { destruct Hlegal as [h a|h i a a' Ha|h i a Ha|h i a a' Ha|h a a' Ha].
      - exists ((h, None) :: s). split; [constructor|by rewrite Hp].
      - exists ((h, Some i) :: a'). split; [constructor; by rewrite Hp|done].
      - exists s. split; [constructor; by rewrite Hp|done].
      - exists ((h, None) :: a'). split; [constructor; by rewrite Hp|done].
      - exists a'. split; [constructor; by rewrite Hp|done]. }
    destruct Hperm as (b' & Hb & Hbp). econstructor; [exact Hb|]. by apply IH.
  - econstructor; [exact He|]. by apply IH.
Qed.

Lemma legal_log_one s e s1 s' : legal s e s1 → s1 ≡ₚ s' → legal_log s [e] s'.
Proof. intros He Hp. econstructor; [exact He|by constructor]. Qed.

(** The state of the log. *)
Definition logged (s : slots) (w : W * log) : Prop := legal_log [] (snd w) s.

Lemma logged_app s w t w' e s' :
  logged s (w, t) → legal_log s e s' → logged s' (w', t ++ e).
Proof. intros H1 H2. exact (legal_log_app _ _ _ _ _ H1 H2). Qed.

Lemma logged_same s w t w' : logged s (w, t) → logged s (w', t).
Proof. done. Qed.

Lemma logged_perm s s' w : s ≡ₚ s' → logged s w → logged s' w.
Proof.
  intros Hp Hl. destruct w as [w t]. rewrite <- (app_nil_r t). eapply logged_app; [exact Hl|].
  by constructor.
Qed.

(** A module that is in use. *)
Definition in_use (m : dynamic_module (W * log) H I) (h : H) (i : I) : Prop :=
  dm_library_handle m = Some h ∧ dm_instance m = Some i ∧
  ∃ d, dm_descriptor m = Some (watched_descriptor h d) ∧ destroy d ≠ None.
(** From the slots [s] a program ends in [Q], or throws and leaves the slots. *)
Definition keeps {A} (s : slots) (m : prog (W * log) A) (Q : A → W * log → Prop) : Prop :=
  ∀ w, logged s w → match m w with
                    | (Ret a, w') => Q a w'
                    | (Throw _, w') => logged s w'
                    | _ => True
                    end.

Lemma keeps_bind {A B} s (m : prog (W * log) A) (f : A → prog (W * log) B) P Q :
  keeps s m (λ a w, logged s w ∧ P a) → (∀ a, P a → keeps s (f a) Q) → keeps s (m ≫= f) Q.
Proof.
  intros Hm Hf w Hw. specialize (Hm w Hw). unfold mbind, prog_bind.
  destruct (m w) as [[a|e| |] w1]; try done. destruct Hm as [Hw1 HP]. by apply Hf.
Qed.

Lemma keeps_throw {A} s e Q : keeps s (lift (Throw e) : prog (W * log) A) Q.
Proof. by intros w Hw. Qed.

Lemma keeps_dlerror s operation : keeps s (require_dlerror operation) (λ _ w, logged s w).
Proof.
  intros [w t] Hw. unfold require_dlerror. cbn [dlerror watched_linker]. unfold watch.
  destruct (dlerror w) as [d w']. eapply logged_app; [exact Hw|]. by constructor.
Qed.

(** Every descriptor has a [destroy] function. *)
Definition descriptors_destroy : Prop :=
  ∀ h s w f w1 w2 d w3, @dlsym W H I L h s w = (Some f, w1) → f w2 = (Ret (Some d), w3) → destroy d ≠ None.

Hypothesis Hdestroy : descriptors_destroy.

Lemma keeps_open s h library directory text config :
  keeps ((h, None) :: s) (open_module library directory text config h)
    (λ m w, ∃ i, in_use m h i ∧ logged ((h, Some i) :: s) w).
Proof.
  unfold open_module. apply (keeps_bind _ _ _ (λ _, True)).
  { intros [w t] Hw. cbn [dlerror watched_linker]. unfold watch. destruct (dlerror w) as [e w'].
    split; [|done]. eapply logged_app; [exact Hw|]. by constructor. }
  intros _ _. apply (keeps_bind _ _ _ (λ f, ∀ f', f = Some f' →
    ∃ f0, f' = watched_entrypoint h f0 ∧ ∃ w0 w1, dlsym h GARCON_MODULE_ENTRYPOINT w0 = (Some f0, w1))).
  { intros [w t] Hw. cbn [dlsym watched_linker].
    destruct (dlsym h GARCON_MODULE_ENTRYPOINT w) as [f w1] eqn:Hf. split; [exact Hw|].
    intros f' Hf'. destruct f as [f0|]; [|done]. injection Hf' as <-. exists f0. split; [done|]. eauto. }
  intros [f|] Hsym.
  2: { apply (keeps_bind _ _ _ (λ _, True)); [|intros; apply keeps_throw].
       intros w Hw. pose proof (keeps_dlerror _ "dlsym() failed" w Hw) as Hk.
       by destruct (require_dlerror "dlsym() failed" w) as [[] ?]. }
  destruct (Hsym f eq_refl) as (f0 & -> & w0 & w1 & Hdl).
  apply (keeps_bind _ _ _ (λ d, ∀ d', d = Some d' → ∃ d0, d' = watched_descriptor h d0 ∧ destroy d0 ≠ None)).
  { intros [w t] Hw. unfold watched_entrypoint. destruct (f0 w) as [[d|e| |] w2] eqn:Hf0; try done.
    split; [exact Hw|]. intros d' Hd'. destruct d as [d0|]; [|done]. injection Hd' as <-.
    exists d0. split; [done|]. exact (Hdestroy _ _ _ _ _ _ _ _ Hdl Hf0). }
  intros [d|] Hd; [|apply keeps_throw]. destruct (Hd d eq_refl) as (d0 & -> & Hd0).
  destruct (negb (abi_version (watched_descriptor h d0) =? GARCON_MODULE_ABI_VERSION)%Z); [apply keeps_throw|].
  set (name := match descriptor_name _ with None | Some [] => _ | Some name => name end).
  set (host := HostApi _ _ _). intros [w t] Hw. unfold mbind, prog_bind.
  cbn [create watched_descriptor]. unfold watch.
  destruct (create d0 (Some host) (Some (c_str text)) w) as [[[[i|] message]|e| |] w2]; try done.
  - exists i. split; [split; [done|split; [done|by exists d0]]|].
    eapply logged_app; [exact Hw|]. eapply legal_log_one; [by constructor|done].
  - eapply logged_app; [exact Hw|]. by constructor.
  - eapply logged_app; [exact Hw|]. by constructor.
Qed.

Lemma keeps_new s library directory text config :
  keeps s (dynamic_module_new library directory text config)
    (λ m w, ∃ h i, in_use m h i ∧ logged ((h, Some i) :: s) w).
Proof.
  intros [w t] Hw. unfold dynamic_module_new, on_throw. cbn [dlopen watched_linker]. unfold watch.
  destruct (dlopen library w) as [[h|] w1].
  - assert (Hw1 : logged ((h, None) :: s) (w1, t ++ [EOpen h])).
    { eapply logged_app; [exact Hw|]. eapply legal_log_one; [constructor|done]. }
    pose proof (keeps_open s h library directory text config _ Hw1) as Hk.
    destruct (open_module library directory text config h (w1, t ++ [EOpen h])) as [[m|e| |] [w2 t2]]; try done.
    + destruct Hk as (i & Hm & Hl). by exists h, i.
    + eapply logged_app; [exact Hk|]. apply (legal_log_one _ _ s); [by constructor|done].
  - assert (Hw1 : logged s (w1, t ++ [])) by (eapply logged_app; [exact Hw|]; by constructor).
    pose proof (keeps_dlerror s "dlopen() failed" _ Hw1) as Hk. unfold mbind, prog_bind.
    by destruct (require_dlerror "dlopen() failed" (w1, t ++ [])) as [[] ?].
Qed.

Lemma delete_logged s m h i w :
  in_use m h i → logged ((h, Some i) :: s) w → logged s (dynamic_module_delete m w).
Proof.
  intros (Hh & Hi & d & Hd & Hne) Hw. destruct w as [w t]. unfold dynamic_module_delete.
  rewrite Hh, Hi, Hd. cbn [destroy watched_descriptor].
  destruct (destroy d) as [destroy0|]; [|done].
  cbn [fmap option_fmap option_map dlclose watched_linker].
  apply (logged_app ((h, None) :: s) (destroy0 i w)); [apply (logged_app ((h, Some i) :: s) w); [exact Hw|]|].
  - apply (legal_log_one _ _ ((h, None) :: s)); [by constructor|done].
  - apply (legal_log_one _ _ s); [by constructor|done].
Qed.

(** The modules in use, and their slots. *)
Abbreviation owned built s := (Forall2 (λ m x, ∃ i, snd x = Some i ∧ in_use m (fst x) i) built s).

Lemma delete_all_logged built s rest w :
  owned built s → logged (s ++ rest) w → logged rest (delete_all built w).
Proof.
  intros Ho. revert w. induction Ho as [|m [h o] built s (i & Hi & Hm) _ IH]; intros w Hw; [done|].
  simpl in Hi. subst o. apply IH. by eapply delete_logged.
Qed.

Lemma add_modules_logged config configured built s :
  owned built s →
  ∀ w, logged s w →
  match add_modules config configured built w with
  | (Ret built', w') => ∃ s', owned built' s' ∧ logged s' w'
  | (Throw _, w') => logged [] w'
  | _ => True
  end.
Proof.
  revert built s. induction configured as [|c configured IH]; intros built s Ho w Hw.
  { by exists s. }
  cbn [add_modules].
  pose proof (keeps_new s (library_file c) (ModuleConfig.config_directory c) (config_text c) config w Hw) as Hk.
  destruct (dynamic_module_new _ _ _ config w) as [[m|e| |] w1]; [| |done|done].
  - destruct Hk as (h & i & Hm & Hl). apply (IH (built ++ [m]) (s ++ [(h, Some i)])).
    + apply Forall2_app; [done|]. constructor; [|done]. by exists i.
    + eapply logged_perm; [|exact Hl]. by rewrite Permutation_cons_append.
  - eapply delete_all_logged; [exact Ho|]. by rewrite app_nil_r.
Qed.

(** A call of a module in use. *)
Lemma handle_logged built s m req w :
  owned built s → m ∈ built → logged s w → logged s (snd (module_handle (request_module_of m) req w)).
Proof.
  intros Ho Hm Hw. apply list_elem_of_lookup in Hm as [k Hk].
  destruct (Forall2_lookup_l _ _ _ _ _ Ho Hk) as ([h o] & Hs & i & Hi & Hh & Hinst & d & Hd & _).
  simpl in Hi, Hh. subst o. destruct w as [w t].
  unfold request_module_of, dynamic_handle. cbn [module_handle]. rewrite Hd, Hinst.
  cbn [handle_function watched_descriptor]. destruct (handle_function d) as [f|]; [|exact Hw].
  cbn [fmap option_fmap option_map]. unfold watch.
  destruct (f i (exchange_for req) w) as [r w1].
  assert (Hl : logged s (w1, t ++ [ECall h i])).
  { eapply logged_app; [exact Hw|]. eapply legal_log_one; [constructor|done].
    by eapply list_elem_of_lookup_2. }
  by destruct r as [[code e]|e| |].
Qed.

Lemma pipeline_logged built s req w :
  owned built s → logged s w → logged s (snd (pipeline_handle (pipeline_of built) req w)).
Proof.
  intros Ho. unfold pipeline_handle, pipeline_of.
  assert (Hgen : ∀ ms pending w, (∀ m, m ∈ ms → m ∈ built) → logged s w →
    logged s (snd (handle_from (request_module_of <$> ms) req pending w))).
  { induction ms as [|m ms IH]; intros pending w0 Hsub Hw; [exact Hw|].
    rewrite fmap_cons. cbn [handle_from]. unfold mbind, prog_bind.
    pose proof (handle_logged built s m req w0 Ho (Hsub m (list_elem_of_here _ _)) Hw) as Hm.
    destruct (module_handle (request_module_of m) req w0) as [[r|e| |] w1]; [|exact Hm|exact Hm|exact Hm].
    destruct (visit_result r pending) as [[resp|] pending']; [exact Hm|].
    apply IH; [|exact Hm]. intros m' Hm'. apply Hsub. by right. }
  intros Hw. by apply Hgen.
Qed.

(** The requests of a run, one after the other. *)
Definition serve (built : list (dynamic_module (W * log) H I)) (reqs : list request) (w : W * log)
    : W * log :=
  foldl (λ w req, snd (pipeline_handle (pipeline_of built) req w)) w reqs.

Lemma serve_logged built s reqs w : owned built s → logged s w → logged s (serve built reqs w).
Proof.
  intros Ho. revert w. induction reqs as [|req reqs IH]; intros w Hw; [done|].
  apply IH. by apply pipeline_logged.
Qed.
(** C19: libraries and instances have their lifetimes.  Whatever the linker and the
    libraries do, if descriptors have a [destroy] function: in the log of a run that
    adds modules, serves requests and destroys the pipeline, or that fails while
    adding, every library that was opened is closed, once; every instance is created
    in an open library, called only while it exists, and destroyed before its
    library is closed. *)
Theorem library_lifetimes config configured reqs (w : W) :
  match add_modules config configured [] (w, []) with
  | (Ret built, w1) => legal_log [] (snd (delete_all built (serve built reqs w1))) []
  | (Throw _, w1) => legal_log [] (snd w1) []
  | _ => True
  end.
Proof.
  assert (Hw : logged [] (w, [])) by (by constructor).
  pose proof (add_modules_logged config configured [] [] (List.Forall2_nil _) (w, []) Hw) as Ha.
  destruct (add_modules config configured [] (w, [])) as [[built|e| |] w1]; [|done|done|done].
  destruct Ha as (s & Ho & Hl). apply (delete_all_logged built s []); [done|].
  rewrite app_nil_r. by apply (serve_logged built s).
Qed.
End Watched.

(** ** Libraries made with [GARCON_EXPORT_MODULE]

    A linker that finds, under some paths, libraries with one module class each. *)

Section Cpp.
Context {W : Type} (out_of_range_what : bytes).
Context (library : path → option (bytes * (host_context → bytes → prog W (cpp_module W)))).

#[local] Instance cpp_linker : DynamicLinker W path (cpp_module W) := {
  dlopen p w := (match library p with Some _ => Some p | None => None end, w);
  dlclose _ w := w;
  dlerror w := (None, w);
  dlsym p s w :=
    (if bytes_eqb s GARCON_MODULE_ENTRYPOINT then
       match library p with
       | Some (name, make) => Some (garcon_get_module_descriptor out_of_range_what make name)
       | None => None
       end
     else None, w);
}.

(** The module that a configuration entry means. *)
Definition exported_module (config : server_config) (c : configured_module) (w : W)
    (r : request_module W) (w' : W) : Prop :=
  ∃ name make m, library (library_file c) = Some (name, make) ∧
    make (HostContext (www_root config) (ModuleConfig.config_directory c)) (c_str (config_text c)) w
    = (Ret m, w') ∧
    r = loaded (if bytes_eqb name [] then path_filename (library_file c) else name) m.

(** The constructors of a list of entries, run in order. *)
Inductive exported_modules (config : server_config)
    : list configured_module → W → list (request_module W) → W → Prop :=
  | exported_nil w : exported_modules config [] w [] w
  | exported_cons c cs w r w1 rs w2 :
      exported_module config c w r w1 → exported_modules config cs w1 rs w2 →
      exported_modules config (c :: cs) w (r :: rs) w2.

Lemma dynamic_module_cpp config c (w : W) :
  let '(r, w') := dynamic_module_new (library_file c) (ModuleConfig.config_directory c) (config_text c) config w in
  match library (library_file c) with
  | None => ∃ e, r = Throw e ∧ w' = w
  | Some (name, make) =>
      let '(made, w1) := make (HostContext (www_root config) (ModuleConfig.config_directory c))
                              (c_str (config_text c)) w in
      w' = w1 ∧
      match made with
      | Ret m => ∃ dm, r = Ret dm ∧
          request_module_of dm
          = loaded (if bytes_eqb name [] then path_filename (library_file c) else name) m
      | Throw _ => ∃ e, r = Throw e
      | Undef => r = Undef
      | Diverge => r = Diverge
      end
  end.
Proof.
  unfold dynamic_module_new, on_throw. cbn [dlopen cpp_linker].
  destruct (library (library_file c)) as [[name make]|] eqn:Hlib; [|by eexists].
  unfold open_module, mbind, prog_bind. cbn [dlerror dlsym cpp_linker snd].
  change (bytes_eqb GARCON_MODULE_ENTRYPOINT GARCON_MODULE_ENTRYPOINT) with true. cbn iota.
  rewrite Hlib. unfold garcon_get_module_descriptor. unfold mret at 1, prog_ret at 1. cbn [make_descriptor abi_version create].
  change (negb (GARCON_MODULE_ABI_VERSION =? GARCON_MODULE_ABI_VERSION)%Z) with false. cbn iota.
  unfold abi_create. unfold host_context_of, view_bytes, make_string_view. cbn [api_document_root api_config_directory default from_option id].
  unfold id. destruct (make _ (c_str (config_text c)) w) as [[m|e| |] w1]; [|by split; [|eexists]|done|done].
  split; [done|]. eexists. split; [reflexivity|]. unfold request_module_of, loaded.
  cbn [dm_name dm_descriptor dm_instance descriptor_name handle_function make_descriptor].
  by destruct name.
Qed.

Lemma add_modules_cpp config configured built (w : W) built' w' :
  add_modules config configured built w = (Ret built', w') →
  ∃ rs, exported_modules config configured w rs w' ∧ pipeline_of built' = pipeline_of built ++ rs.
Proof.
  revert built w. induction configured as [|c configured IH]; intros built w; cbn [add_modules].
  { intros [= <- <-]. exists []. split; [constructor|]. by rewrite app_nil_r. }
  pose proof (dynamic_module_cpp config c w) as Hc.
  destruct (dynamic_module_new _ _ _ config w) as [r w1].
  destruct r as [m|e| |]; [|done|done|done]. intros Ha.
  destruct (IH _ _ Ha) as (rs & Hrs & Hp).
  destruct (library (library_file c)) as [[name make]|] eqn:Hlib; [|by destruct Hc as (e & [=] & _)].
  destruct (make _ _ w) as [[m0|e| |] w2] eqn:Hmake; destruct Hc as [-> Hc];
    [|by destruct Hc as (e' & [=])|done|done].
  destruct Hc as (dm & [= <-] & Hdm). exists (request_module_of m :: rs). split.
  - econstructor; [|exact Hrs]. by exists name, make, m0.
  - rewrite Hp. unfold pipeline_of. rewrite fmap_app, <- app_assoc. done.
Qed.

Lemma add_modules_cpp_complete config configured built (w : W) rs w' :
  exported_modules config configured w rs w' →
  ∃ built', add_modules config configured built w = (Ret built', w') ∧
    pipeline_of built' = pipeline_of built ++ rs.
Proof.
  intros Hx. revert built. induction Hx as [w|c cs w r w1 rs w2 Hc _ IH]; intros built; cbn [add_modules].
  { exists built. by rewrite app_nil_r. }
  pose proof (dynamic_module_cpp config c w) as Hn. destruct Hc as (name & make & m & Hlib & Hmake & ->).
  rewrite Hlib, Hmake in Hn. destruct (dynamic_module_new _ _ _ config w) as [r w3].
  destruct Hn as (-> & dm & -> & Hdm). destruct (IH (built ++ [dm])) as (built' & Hb & Hp).
  exists built'. split; [exact Hb|]. rewrite Hp. unfold pipeline_of. rewrite fmap_app, <- app_assoc. simpl.
  by rewrite Hdm.
Qed.

(** C23: start-up.  Over libraries exported from C++, [create_request_handler]
    succeeds exactly when the module directory loads and every entry names a library
    whose constructor returns, the constructors being run in order with the document
    root, the directory of the entry and its text up to a null char; the handler is
    then the pipeline of these modules, each behind the ABI under its own name. *)
Theorem server_pipeline `{!Environment W} config (w : W) rs w' :
  (∃ built, create_request_handler out_of_range_what config w = (Ret built, w') ∧
     pipeline_of built = rs) ↔
  ∃ configured w1,
    load_configured_modules out_of_range_what (module_config_dir config) w
    = (Ret (Expect configured), w1) ∧
    exported_modules config configured w1 rs w'.
Proof.
  unfold create_request_handler. split.
  - intros (built & (r & w1 & Hload & Hadd)%prog_bind_inv & <-).
    destruct r as [configured|e]; [|done]. exists configured, w1. split; [done|].
    apply add_modules_cpp in Hadd as (rs & Hrs & Hp). by rewrite Hp.
  - intros (configured & w1 & Hload & Hx).
    destruct (add_modules_cpp_complete config configured [] w1 rs w' Hx) as (built & Hb & Hp).
    exists built. split; [|done]. by rewrite (prog_bind_ret _ _ _ _ _ Hload).
Qed.

Lemma cpp_descriptors_destroy : descriptors_destroy (W := W).
Proof.
  intros h s w f w1 w2 d w3. cbn [dlsym cpp_linker].
  destruct (bytes_eqb s GARCON_MODULE_ENTRYPOINT); [|done].
  destruct (library h) as [[name make]|]; [|done]. intros [= <- <-]. intros [= <- _]. done.
Qed.
End Cpp.

(** ** A run with one library *)

Definition sample_library (p : path)
    : option (bytes * (host_context → bytes → prog unit (cpp_module unit))) :=
  if bytes_eqb p "/lib/b.so" then Some ("b" : bytes, λ _ _, mret (λ _, mret result_pass)) else None.

Definition sample_entries : list configured_module :=
  [ConfiguredModule "/lib/b.so" "d" []; ConfiguredModule "/lib/missing.so" "d" []].

(** Adding fails at the second entry: the first library is closed again. *)
Lemma library_lifetimes_witness :
  descriptors_destroy (L := cpp_linker [] sample_library) ∧
  match add_modules (H := path) (I := cpp_module unit)
          (DynamicLinker0 := watched_linker (L := cpp_linker [] sample_library))
          sample_config sample_entries [] (tt, []) with
  | (Throw _, w1) => length (snd w1) = 4 ∧ legal_log [] (snd w1) []
  | _ => False
  end.
Proof.
  assert (Hd : descriptors_destroy (L := cpp_linker [] sample_library))
    by exact (cpp_descriptors_destroy [] sample_library).
  split; [exact Hd|].
  exact (conj eq_refl
    (library_lifetimes (L := cpp_linker [] sample_library) Hd sample_config sample_entries [] tt)).
Defined.
