(* ===== verification/Shipped.v ===== *)
(** * The shipped module libraries ([lib/*/module.cpp])

    Each of the eight libraries exports one module class under a name with
    [GARCON_EXPORT_MODULE].  All constructors take the host context and the
    configuration text; only [static_files] looks at the context. *)

From S2P Require Import Prelude.
From S2P Require Import StringView.
From S2P Require Import Pipeline.
From S2P Require Import ModuleAbi.
From S2P Require Import FsPath.
From S2P Require Import StaticFiles.
From S2P Require Import DynamicModule.
From S2P Require HeaderGuard.
From S2P Require HostGuard.
From S2P Require RouteTable.
From S2P Require Router.
From S2P Require RateLimit.
From S2P Require JwtAuth.
From S2P Require Cors.

Section Shipped.
Context {W : Type} `{!FileSystem W, !RateLimit.RateWorld W, !JwtAuth.JwtWorld W}.

(** The name and the constructor of an exported module class. *)
Definition export : Type := bytes * (host_context → bytes → prog W (cpp_module W)).

Definition cors_export : export := ("cors" : bytes, λ _ text, lift (Cors.cors_module text)).
Definition header_guard_export : export :=
  ("header-guard" : bytes, λ _ text, lift (HeaderGuard.header_guard_module text)).
Definition host_guard_export : export :=
  ("host-guard" : bytes, λ _ text, lift (HostGuard.host_guard_module text)).
Definition jwt_auth_export : export :=
  ("jwt-auth" : bytes, λ _ text, lift (JwtAuth.jwt_auth_module text)).
Definition rate_limit_export : export :=
  ("rate-limit" : bytes, λ _ text, lift (RateLimit.rate_limit_module text)).
Definition route_table_export : export :=
  ("route-table" : bytes, λ _ text, lift (RouteTable.route_table_module text)).
Definition router_export : export := ("router" : bytes, λ _ text, lift (Router.router_module text)).
Definition static_files_export : export := ("static-files" : bytes, static_files_module).

(** The libraries under the names the build gives them. *)
Definition shipped_libraries : list (bytes * export) :=
  [ ("libgarcon_cors_module.so" : bytes, cors_export);
    ("libgarcon_host_guard_module.so" : bytes, host_guard_export);
    ("libgarcon_router_module.so" : bytes, router_export);
    ("libgarcon_header_guard_module.so" : bytes, header_guard_export);
    ("libgarcon_jwt_auth_module.so" : bytes, jwt_auth_export);
    ("libgarcon_route_table_module.so" : bytes, route_table_export);
    ("libgarcon_rate_limit_module.so" : bytes, rate_limit_export);
    ("libgarcon_static_files_module.so" : bytes, static_files_export) ].

(** What the linker finds where all eight are installed. *)
Definition shipped_library (p : path) : option export :=
  snd <$> List.find (λ e, bytes_eqb (fst e) (path_filename p)) shipped_libraries.
End Shipped.

(** The module that a constructor without host context makes. *)
Lemma exported_rules {W} (library : path → option (bytes * (host_context → bytes → prog W (cpp_module W))))
    name (make : bytes → outcome (cpp_module W)) m config c (w : W) :
  library (ModuleConfig.library_file c) = Some (name, λ _ text, lift (make text)) → name ≠ [] →
  make (c_str (ModuleConfig.config_text c)) = Ret m →
  exported_module library config c w (loaded name m) w.
Proof.
  intros Hl Hname Hm. exists name, (λ _ text, lift (make text)), m.
  split; [exact Hl|]. unfold lift. rewrite Hm. split; [done|].
  by rewrite (proj2 (bytes_eqb_nil name)).
Qed.

(** An entry of a module class with a parser and a handler. *)
Lemma parsed_entry {W A} library config name c (parse : bytes → outcome A)
    (handle : A → cpp_module W) rules (w : W) :
  library (ModuleConfig.library_file c) = Some (name, λ _ text, lift (rules ← parse text; Ret (handle rules))) →
  name ≠ [] → parse (c_str (ModuleConfig.config_text c)) = Ret rules →
  exported_module library config c w (loaded name (handle rules)) w.
Proof.
  intros Hl Hname Hp.
  eapply (exported_rules _ name (λ text, rules ← parse text; Ret (handle rules))); [exact Hl|done|].
  by rewrite Hp.
Qed.

(** The next entry of a list, with its parser and its handler. *)
Ltac shipped_entry parse handle :=
  eapply exported_cons;
  [ refine (parsed_entry _ _ _ _ parse handle _ _ _ _ _); [reflexivity|done|vm_compute; reflexivity] | ].
