(* ===== verification/WorkQueue.v ===== *)
(** * The connection queue and the per-IP limit ([src/app/work_queue.cpp],
    [src/app/ip_connection_limiter.cpp])

    Each operation runs under the lock of its object, so it is one atomic
    function on the object's state.  An operation of the queue also gives the
    notifications it sends to the threads that wait on the condition variables;
    one that has to wait gives no result. *)

From S2P Require Import Prelude.
From S2P Require Import Net.

(** ** [work_queue] *)

Module QueuePush.
Inductive t := queued | full | closed.
#[global] Instance eq_dec : EqDecision t.
Proof. solve_decision. Defined.
End QueuePush.

Record work_queue := WorkQueue {
  queue_capacity : nat;
  queue_sockets : list socket;
  queue_closed : bool;
}.

Definition new_work_queue (capacity : nat) : outcome work_queue :=
  if capacity =? 0 then
    Throw (invalid_argument "work_queue capacity must be greater than zero")
  else Ret (WorkQueue capacity [] false).

(** The condition variables, and the calls that wake the threads that wait on
    them.  [push], [try_push] and [pop] notify after they unlock the queue, [close]
    while it holds the lock. *)
Inductive condition := not_full | not_empty.
#[global] Instance condition_eq_dec : EqDecision condition.
Proof. solve_decision. Defined.

Inductive notification := notify_one (c : condition) | notify_all (c : condition).
#[global] Instance notification_eq_dec : EqDecision notification.
Proof. solve_decision. Defined.

Definition with_sockets (q : work_queue) (sockets : list socket) : work_queue :=
  WorkQueue (queue_capacity q) sockets (queue_closed q).

(** [push]: [None] waits for a change of the queue or of the stop token. *)
Definition push (q : work_queue) (s : socket) (stop : bool)
    : option (QueuePush.t * work_queue * list notification) :=
  let ready := queue_closed q || (length (queue_sockets q) <? queue_capacity q) in
  if negb ready && negb stop then None else
  if negb ready then Some (QueuePush.closed, q, []) else
  if queue_closed q then Some (QueuePush.closed, q, []) else
  Some (QueuePush.queued, with_sockets q (queue_sockets q ++ [s]), [notify_one not_empty]).

Definition try_push (q : work_queue) (s : socket)
    : QueuePush.t * work_queue * list notification :=
  if queue_closed q || (queue_capacity q <=? length (queue_sockets q)) then
    ((if queue_closed q then QueuePush.closed else QueuePush.full), q, [])
  else (QueuePush.queued, with_sockets q (queue_sockets q ++ [s]), [notify_one not_empty]).

(** [pop]: [None] waits; [Some (None, _, _)] is [std::nullopt].  A thread that is
    woken checks the stop token and the queue again, so it calls [pop] again. *)
Definition pop (q : work_queue) (stop : bool)
    : option (option socket * work_queue * list notification) :=
  let ready := queue_closed q || negb (length (queue_sockets q) =? 0) in
  if negb ready && negb stop then None else
  if negb ready then Some (None, q, []) else
  match queue_sockets q with
  | [] => Some (None, q, [])
  | s :: sockets => Some (Some s, with_sockets q sockets, [notify_one not_full])
  end.

Definition close_queue (q : work_queue) : work_queue * list notification :=
  (WorkQueue (queue_capacity q) (queue_sockets q) true, [notify_all not_full; notify_all not_empty]).

Definition queue_is_closed (q : work_queue) : bool := queue_closed q.
Definition capacity (q : work_queue) : nat := queue_capacity q.
Definition queue_length (q : work_queue) : nat := length (queue_sockets q).

(** The queue never holds more than its capacity. *)
Definition queue_wf (q : work_queue) : Prop :=
  0 < queue_capacity q ∧ length (queue_sockets q) ≤ queue_capacity q.

Section QueueLemmas.
Implicit Types (q : work_queue) (s : socket).

Lemma new_work_queue_wf n q : new_work_queue n = Ret q → queue_wf q.
Proof.
  unfold new_work_queue. destruct (Nat.eqb_spec n 0); [done|]. intros [= <-].
  split; simpl; lia.
Qed.

Lemma try_push_spec q s r q' ns :
  try_push q s = (r, q', ns) →
  match r with
  | QueuePush.queued =>
      queue_closed q = false ∧ length (queue_sockets q) < queue_capacity q ∧
      q' = with_sockets q (queue_sockets q ++ [s])
  | QueuePush.full =>
      queue_closed q = false ∧ queue_capacity q ≤ length (queue_sockets q) ∧ q' = q
  | QueuePush.closed => queue_closed q = true ∧ q' = q
  end.
Proof.
  unfold try_push. destruct (queue_closed q) eqn:Hc; simpl.
  - by intros [= <- <- _].
  - destruct (Nat.leb_spec (queue_capacity q) (length (queue_sockets q)));
      intros [= <- <- _]; done.
Qed.

(** A socket that was queued is announced, to one waiting consumer. *)
Lemma try_push_notifies q s q' ns :
  try_push q s = (QueuePush.queued, q', ns) → ns = [notify_one not_empty].
Proof.
  unfold try_push. destruct (queue_closed q); simpl; [done|].
  destruct (queue_capacity q <=? length (queue_sockets q)); [done|]. by intros [= _ <-].
Qed.

Lemma try_push_wf q s : queue_wf q → queue_wf (try_push q s).1.2.
Proof.
  intros Hwf. destruct (try_push q s) as [[r q'] ns] eqn:H. apply try_push_spec in H.
  destruct r; [|by destruct H as (_ & _ & ->)|by destruct H as (_ & ->)].
  destruct H as (_ & ? & ->), Hwf. split; [done|]. simpl. rewrite length_app. simpl. lia.
Qed.

Lemma pop_spec q stop r q' ns :
  pop q stop = Some (r, q', ns) →
  match r with
  | Some s => queue_sockets q = s :: queue_sockets q' ∧ q' = with_sockets q (queue_sockets q')
  | None => queue_sockets q = [] ∧ q' = q ∧ (queue_closed q = true ∨ stop = true)
  end.
Proof.
  unfold pop. destruct q as [c ss cl], ss as [|s ss]; simpl.
  - destruct cl; simpl; [by intros [= <- <- _]; auto|].
    destruct stop; simpl; [|done]. intros [= <- <- _]. auto.
  - rewrite orb_true_r. simpl. by intros [= <- <- _].
Qed.

(** A consumer that took a socket tells the producers only. *)
Lemma pop_notifies q stop r q' ns :
  pop q stop = Some (r, q', ns) → ns = match r with Some _ => [notify_one not_full] | None => [] end.
Proof.
  unfold pop. destruct (_ && _); [done|]. destruct (negb _); [by intros [= <- _ <-]|].
  by destruct (queue_sockets q); intros [= <- _ <-].
Qed.

(** It waits on an open, empty queue only. *)
Lemma pop_waits q stop :
  pop q stop = None → queue_closed q = false ∧ queue_sockets q = [] ∧ stop = false.
Proof.
  unfold pop. destruct (queue_closed q), (queue_sockets q), stop; done.
Qed.

Lemma pop_wf q stop r q' ns : queue_wf q → pop q stop = Some (r, q', ns) → queue_wf q'.
Proof.
  intros [Hc Hl] H%pop_spec. destruct r as [s|]; [|by destruct H as (_ & -> & _)].
  destruct H as [Hs ->]. split; [done|]. simpl. rewrite Hs in Hl. simpl in Hl. lia.
Qed.

(** A closed queue never makes a consumer wait. *)
Lemma pop_closed q stop : queue_closed q = true → pop q stop ≠ None.
Proof. unfold pop. intros ->. simpl. by destruct (queue_sockets q). Qed.

(** [push] without a stop request is [try_push] where it does not wait. *)
Lemma push_try_push q s : queue_wf q →
  push q s false
  = match try_push q s with
    | (QueuePush.full, _, _) => None
    | r => Some r
    end.
Proof.
  intros [_ Hl]. unfold push, try_push. destruct (queue_closed q) eqn:Hc; simpl; [done|].
  destruct (Nat.ltb_spec (length (queue_sockets q)) (queue_capacity q)) as [Hlt|Hge].
  - by rewrite (proj2 (Nat.leb_gt _ _)).
  - by rewrite (proj2 (Nat.leb_le _ _)).
Qed.
End QueueLemmas.

(** *** Runs of the queue: it is first in, first out *)

Inductive queue_call :=
  | call_push (s : socket) (stop : bool)
  | call_try_push (s : socket)
  | call_pop (stop : bool)
  | call_close.

(** One call; the sockets it took in and gave out; [None] waits.  A waiting thread
    may be woken by a notification, the stop token or nothing at all: when it
    calls again is up to the sequence of calls. *)
Definition queue_step (q : work_queue) (c : queue_call)
    : option (work_queue * list socket * list socket) :=
  match c with
  | call_push s stop =>
      '(r, q, _) ← push q s stop;
      Some (q, (if decide (r = QueuePush.queued) then [s] else []), [])
  | call_try_push s =>
      let '(r, q, _) := try_push q s in
      Some (q, (if decide (r = QueuePush.queued) then [s] else []), [])
  | call_pop stop => '(r, q, _) ← pop q stop; Some (q, [], option_list r)
  | call_close => Some ((close_queue q).1, [], [])
  end.

(** A run of calls; a call that would wait is not taken. *)
Fixpoint queue_run (q : work_queue) (cs : list queue_call)
    : work_queue * list socket * list socket :=
  match cs with
  | [] => (q, [], [])
  | c :: cs =>
      match queue_step q c with
      | None => queue_run q cs
      | Some (q, i, o) => let '(q, i', o') := queue_run q cs in (q, i ++ i', o ++ o')
      end
  end.

Lemma push_cases q s stop r q' ns :
  push q s stop = Some (r, q', ns) →
  (r = QueuePush.queued ∧ queue_closed q = false ∧
   length (queue_sockets q) < queue_capacity q ∧ q' = with_sockets q (queue_sockets q ++ [s])) ∨
  (r ≠ QueuePush.queued ∧ q' = q).
Proof.
  unfold push. destruct (queue_closed q); simpl; [intros [= <- <- _]; by right|].
  destruct (Nat.ltb_spec (length (queue_sockets q)) (queue_capacity q)); simpl.
  - intros [= <- <- _]. by left.
  - destruct stop; simpl; [|done]. intros [= <- <- _]. by right.
Qed.

Lemma queue_step_spec q c q' i o :
  queue_wf q → queue_step q c = Some (q', i, o) →
  queue_wf q' ∧ queue_sockets q ++ i = o ++ queue_sockets q' ∧
  (queue_closed q = true → queue_closed q' = true ∧ i = []).
Proof.
  intros Hwf. destruct c as [s stop|s|stop|]; simpl.
  - destruct (push q s stop) as [[[r q1] ns]|] eqn:H; [|done]. intros [= <- <- <-].
    apply push_cases in H as [(-> & Hc & Hl & ->)|[Hr ->]].
    + rewrite decide_True by done. destruct Hwf.
      split; [split; simpl; [done|rewrite length_app; simpl; lia]|split; [done|congruence]].
    + rewrite decide_False by done. rewrite app_nil_r. done.
  - destruct (try_push q s) as [[r q1] ns] eqn:H. intros [= <- <- <-].
    pose proof (try_push_wf q s Hwf) as Hwf'. rewrite H in Hwf'. simpl in Hwf'.
    apply try_push_spec in H. destruct r; simpl.
    + destruct H as (Hc & _ & ->). split; [done|split; [done|congruence]].
    + destruct H as (_ & _ & ->). rewrite app_nil_r. done.
    + destruct H as (_ & ->). rewrite app_nil_r. done.
  - destruct (pop q stop) as [[[r q1] ns]|] eqn:H; [|done]. intros [= <- <- <-].
    pose proof (pop_wf _ _ _ _ _ Hwf H) as Hwf'. apply pop_spec in H. rewrite app_nil_r.
    destruct r as [s|]; simpl; [|by destruct H as (_ & -> & _)].
    destruct H as [Hs Hq]. split; [done|split; [done|]]. rewrite Hq. done.
  - intros [= <- <- <-]. by rewrite app_nil_r.
Qed.

Lemma queue_run_spec q cs q' i o :
  queue_wf q → queue_run q cs = (q', i, o) →
  queue_wf q' ∧ queue_sockets q ++ i = o ++ queue_sockets q' ∧
  (queue_closed q = true → queue_closed q' = true ∧ i = []).
Proof.
  revert q q' i o. induction cs as [|c cs IH]; intros q q' i o Hwf; simpl.
  { intros [= <- <- <-]. by rewrite app_nil_r. }
  destruct (queue_step q c) as [[[q1 i1] o1]|] eqn:Hs; [|by apply IH].
  destruct (queue_run q1 cs) as [[q2 i2] o2] eqn:Hr. intros [= <- <- <-].
  apply queue_step_spec in Hs as (Hwf1 & Heq1 & Hc1); [|done].
  apply IH in Hr as (Hwf2 & Heq2 & Hc2); [|done]. split; [done|split].
  - by rewrite app_assoc, Heq1, <- app_assoc, Heq2, app_assoc.
  - intros [Hc ->]%Hc1. apply Hc2 in Hc as [? ->]. done.
Qed.

(** Whatever the interleaving of producers, consumers and [close], a queue
    of capacity [n] never holds more than [n] sockets, gives out the sockets it
    took in, each once and in order, keeps the ones not yet given out, and
    takes in nothing after it was closed. *)
Theorem work_queue_fifo n q before after q1 i1 o1 q2 i2 o2 :
  new_work_queue n = Ret q → queue_run q before = (q1, i1, o1) →
  queue_run q1 after = (q2, i2, o2) →
  queue_length q2 ≤ capacity q2 ∧ i1 ++ i2 = (o1 ++ o2) ++ queue_sockets q2 ∧
  (queue_is_closed q1 = true → i2 = [] ∧ queue_is_closed q2 = true).
Proof.
  intros Hnew H1 H2. pose proof (new_work_queue_wf _ _ Hnew) as Hwf.
  apply queue_run_spec in H1 as (Hwf1 & Heq1 & _); [|done].
  apply queue_run_spec in H2 as (Hwf2 & Heq2 & Hc2); [|done].
  assert (Hq : queue_sockets q = []).
  { unfold new_work_queue in Hnew. destruct (n =? 0); [done|]. by injection Hnew as <-. }
  rewrite Hq in Heq1. simpl in Heq1. split_and!.
  - apply Hwf2.
  - by rewrite Heq1, <- !app_assoc, Heq2.
  - intros [? ?]%Hc2. done.
Qed.

Lemma work_queue_fifo_witness :
  queue_length (WorkQueue 1 [] true) ≤ 1 ∧
  [Socket 3 "a"; Socket 4 "b"] ++ [] = ([Socket 3 "a"] ++ [Socket 4 "b"]) ++ [] ∧
  (queue_is_closed (WorkQueue 1 [Socket 4 "b"] true) = true →
   ([] : list socket) = [] ∧ queue_is_closed (WorkQueue 1 [] true) = true).
Proof.
  apply (work_queue_fifo 1 (WorkQueue 1 [] false)
    [call_try_push (Socket 3 "a"); call_try_push (Socket 9 "c"); call_pop false;
     call_pop false; call_push (Socket 4 "b") false; call_close]
    [call_try_push (Socket 5 "d"); call_pop true; call_pop false]
    (WorkQueue 1 [Socket 4 "b"] true) _ _ (WorkQueue 1 [] true)); reflexivity.
Defined.

(** ** [ip_connection_limiter] *)

Record ip_connection_limiter := IpLimiter {
  per_ip_limit : nat;
  inflight_by_ip : gmap bytes nat;
}.

Definition new_ip_limiter (limit : nat) : outcome ip_connection_limiter :=
  if limit =? 0 then
    Throw (invalid_argument "ip_connection_limiter limit must be greater than zero")
  else Ret (IpLimiter limit ∅).

(** [ip_connection_limiter::per_ip_limit] *)
Definition limiter_limit (l : ip_connection_limiter) : nat := per_ip_limit l.

(** [_inflight_by_ip[peer]] creates the entry. *)
Definition try_acquire (l : ip_connection_limiter) (peer : bytes) : bool * ip_connection_limiter :=
  match peer with
  | [] => (true, l)
  | _ =>
      let count := default 0 (inflight_by_ip l !! peer) in
      let m := <[peer := count]> (inflight_by_ip l) in
      if per_ip_limit l <=? count then (false, IpLimiter (per_ip_limit l) m)
      else (true, IpLimiter (per_ip_limit l) (<[peer := count + 1]> m))
  end.

Definition release (l : ip_connection_limiter) (peer : bytes) : ip_connection_limiter :=
  match peer with
  | [] => l
  | _ =>
      match inflight_by_ip l !! peer with
      | None => l
      | Some count =>
          if 1 <? count then IpLimiter (per_ip_limit l) (<[peer := count - 1]> (inflight_by_ip l))
          else IpLimiter (per_ip_limit l) (delete peer (inflight_by_ip l))
      end
  end.

(** The permits a peer holds. *)
Definition permits (l : ip_connection_limiter) (peer : bytes) : nat :=
  default 0 (inflight_by_ip l !! peer).

(** Entries are positive and at most the limit; the empty address has none. *)
Definition limiter_wf (l : ip_connection_limiter) : Prop :=
  0 < per_ip_limit l ∧ inflight_by_ip l !! [] = None ∧
  map_Forall (λ _ n, 0 < n ≤ per_ip_limit l) (inflight_by_ip l).

Section LimiterLemmas.
Implicit Types (l : ip_connection_limiter) (p : bytes).

Lemma new_ip_limiter_wf n l : new_ip_limiter n = Ret l → limiter_wf l ∧ ∀ p, permits l p = 0.
Proof.
  unfold new_ip_limiter. destruct (Nat.eqb_spec n 0); [done|]. intros [= <-].
  split; [split; [simpl; lia|split; [done|apply map_Forall_empty]]|].
  intros p. unfold permits. simpl. by rewrite lookup_empty.
Qed.

Lemma permits_bound l p : limiter_wf l → permits l p ≤ per_ip_limit l.
Proof.
  intros (_ & _ & HF). unfold permits. destruct (inflight_by_ip l !! p) as [n|] eqn:H; simpl; [|lia].
  apply HF in H. lia.
Qed.

Lemma try_acquire_true l p l' :
  limiter_wf l → try_acquire l p = (true, l') →
  limiter_wf l' ∧ per_ip_limit l' = per_ip_limit l ∧
  (∀ p', permits l' p' = permits l p' + if decide (p' = p ∧ p ≠ []) then 1 else 0).
Proof.
  intros (Hl & He & HF). unfold try_acquire. destruct p as [|c p].
  { intros [= <-]. split_and!; [by split|done|]. intros p'. rewrite decide_False; [lia|by intros [_ ?]]. }
  set (pp := c :: p). fold (permits l pp). intros H.
  destruct (Nat.leb_spec (per_ip_limit l) (permits l pp)); [done|]. injection H as <-.
  unfold limiter_wf, permits. cbn [per_ip_limit inflight_by_ip]. rewrite insert_insert_eq.
  split; [split; [done|split]|split; [done|]].
  - by rewrite lookup_insert_ne.
  - apply map_Forall_insert_2; [unfold permits in *; lia|done].
  - intros p'. destruct (decide (p' = pp)) as [->|Hne].
    + rewrite lookup_insert_eq, decide_True by done. simpl. lia.
    + rewrite lookup_insert_ne, decide_False by (congruence || (intros [? ?]; congruence)). lia.
Qed.

Lemma try_acquire_false l p l' :
  limiter_wf l → try_acquire l p = (false, l') →
  l' = l ∧ p ≠ [] ∧ permits l p = per_ip_limit l.
Proof.
  intros Hwf. pose proof (permits_bound l p Hwf) as Hb. destruct Hwf as (Hl & He & HF).
  unfold try_acquire. destruct p as [|c p]; [done|].
  set (pp := c :: p) in *. fold (permits l pp). intros H.
  destruct (Nat.leb_spec (per_ip_limit l) (permits l pp)) as [Hge|]; [|done]. injection H as <-.
  split_and!; [|done|lia]. unfold permits in *.
  destruct (inflight_by_ip l !! pp) as [n|] eqn:Hp; simpl in *; [|lia].
  destruct l as [lim m]. simpl in *. by rewrite insert_id.
Qed.

Lemma release_spec l p :
  limiter_wf l → (p = [] ∨ 0 < permits l p) →
  limiter_wf (release l p) ∧ per_ip_limit (release l p) = per_ip_limit l ∧
  (∀ p', permits (release l p) p' = permits l p' - if decide (p' = p ∧ p ≠ []) then 1 else 0).
Proof.
  intros Hwf Hp. destruct p as [|c p].
  { split_and!; [done|done|]. intros p'. rewrite decide_False by (intros [_ ?]; done). simpl. lia. }
  destruct Hp as [|Hp]; [done|]. unfold release. set (pp := c :: p) in *.
  destruct Hwf as (Hl & He & HF). unfold permits in *.
  destruct (inflight_by_ip l !! pp) as [n|] eqn:Hpp; simpl in Hp; [|lia].
  apply HF in Hpp as Hn. unfold limiter_wf.
  destruct (Nat.ltb_spec 1 n); cbn [per_ip_limit inflight_by_ip];
    (split; [split; [done|split]|split; [done|]]).
  - by rewrite lookup_insert_ne.
  - apply map_Forall_insert_2; [lia|done].
  - intros p'. destruct (decide (p' = pp)) as [->|Hne].
    + rewrite lookup_insert_eq, Hpp, decide_True by done. done.
    + rewrite lookup_insert_ne, decide_False by (congruence || (intros [? ?]; congruence)). lia.
  - by rewrite lookup_delete_ne.
  - by apply map_Forall_delete.
  - intros p'. destruct (decide (p' = pp)) as [->|Hne].
    + rewrite lookup_delete_eq, Hpp, decide_True by done. simpl. lia.
    + rewrite lookup_delete_ne, decide_False by (congruence || (intros [? ?]; congruence)). lia.
Qed.
End LimiterLemmas.
