(* ===== verification/Server.v ===== *)
(** * The accept loop and the workers ([src/server.cpp], [src/app/worker_pool.cpp])

    One thread accepts connections and [n] workers serve them; they share the
    queue and the per-IP limiter.  A step is one section of code between two
    points where another thread can run: a call on the listener, one call on a
    locked object, a notification of a condition variable, or a call of
    [handle_connection] to its end.  A worker that has to wait for a socket sleeps
    until a notification, a stop request or the system wakes it.  A schedule is the
    list of the steps taken. *)

From S2P Require Import Prelude.
From S2P Require Import StringView.
From S2P Require Import Net.
From S2P Require Import WorkQueue.

(** ** State *)

(** [net::accept_error] *)
Record accept_error := AcceptError { ae_error : errno; ae_fatal : bool }.

(** The calls on [runtime_events]. *)
Inductive runtime_event :=
  | on_accept_error (error : errno) (fatal : bool)
  | on_connection_rejected (why : bytes)
  | on_worker_error (detail : bytes).

(** Where the accepting thread is: in [accept_loop], or in the destructor of the
    pool after the loop threw.  In [acc_notifying] its socket is in the queue, which
    is unlocked, and [try_push] has these notifications still to send. *)
Inductive acceptor :=
  | acc_listening
  | acc_accepted (s : socket)
  | acc_admitted (s : socket)
  | acc_notifying (ns : list notification)
  | acc_refused (peer : bytes) (r : QueuePush.t)
  | acc_failed
  | acc_stopping (next_worker : nat)
  | acc_joining.

(** How [handle_connection] ends in the worker callback. *)
Inductive handler_result := h_returned | h_exception (what : bytes) | h_unknown.

(** Where a worker is: about to lock the queue in [pop], asleep there on
    [_not_empty], in [handle_connection], at the end of the callback with the permit
    of the peer still held, or returned. *)
Inductive worker_state :=
  | w_waiting
  | w_asleep
  | w_serving (s : socket)
  | w_served (peer : bytes) (r : handler_result)
  | w_exited.

Record worker := Worker { wk_state : worker_state; wk_stop : bool }.

(** The last two fields record the sockets that entered the queue and those a
    worker took; they are not part of the program. *)
Record server := Server {
  sv_queue : work_queue;
  sv_limiter : ip_connection_limiter;
  sv_acceptor : acceptor;
  sv_workers : list worker;
  sv_events : list runtime_event;
  sv_queued : list socket;
  sv_taken : list socket;
}.

(** [garcon::config::max_connections_per_ip] *)
Definition max_connections_per_ip : nat := 8.

(** [worker_pool::start_workers]: every worker starts in [run_worker]. *)
Definition start_workers (worker_count : nat) : list worker :=
  replicate worker_count (Worker w_waiting false).

(** [worker_pool::worker_pool] *)
Definition new_worker_pool (worker_count : nat) : outcome (list worker) :=
  if worker_count =? 0 then
    Throw (invalid_argument "worker_pool must have at least one worker")
  else Ret (start_workers worker_count).

(** [worker_pool::size] *)
Definition pool_size (workers : list worker) : nat := length workers.

(** The constructor's limiter and the first lines of [server::run]. *)
Definition start_server (queue_capacity worker_count : nat) : outcome server :=
  limiter ← new_ip_limiter max_connections_per_ip;
  queue ← new_work_queue queue_capacity;
  workers ← new_worker_pool worker_count;
  Ret (Server queue limiter acc_listening workers [] [] []).

(** ** Steps *)

Inductive event :=
  | ev_accept (r : accept_error + socket)
  | ev_acquire
  | ev_push
  | ev_notify (woken : option nat)
  | ev_release
  | ev_close
  | ev_request_stop
  | ev_pop (i : nat)
  | ev_served (i : nat) (r : handler_result)
  | ev_finish (i : nat)
  | ev_wake (i : nat).

Definition set_acceptor (sv : server) (a : acceptor) : server :=
  Server (sv_queue sv) (sv_limiter sv) a (sv_workers sv) (sv_events sv) (sv_queued sv) (sv_taken sv).
Definition set_limiter (sv : server) (l : ip_connection_limiter) : server :=
  Server (sv_queue sv) l (sv_acceptor sv) (sv_workers sv) (sv_events sv) (sv_queued sv) (sv_taken sv).
Definition set_queue (sv : server) (q : work_queue) : server :=
  Server q (sv_limiter sv) (sv_acceptor sv) (sv_workers sv) (sv_events sv) (sv_queued sv) (sv_taken sv).
Definition set_worker (sv : server) (i : nat) (w : worker) : server :=
  Server (sv_queue sv) (sv_limiter sv) (sv_acceptor sv) (<[i := w]> (sv_workers sv))
    (sv_events sv) (sv_queued sv) (sv_taken sv).
Definition set_workers (sv : server) (ws : list worker) : server :=
  Server (sv_queue sv) (sv_limiter sv) (sv_acceptor sv) ws (sv_events sv) (sv_queued sv) (sv_taken sv).
Definition log_event (sv : server) (e : runtime_event) : server :=
  Server (sv_queue sv) (sv_limiter sv) (sv_acceptor sv) (sv_workers sv) (sv_events sv ++ [e])
    (sv_queued sv) (sv_taken sv).
Definition record_queued (sv : server) (s : socket) : server :=
  Server (sv_queue sv) (sv_limiter sv) (sv_acceptor sv) (sv_workers sv) (sv_events sv)
    (sv_queued sv ++ [s]) (sv_taken sv).
Definition record_taken (sv : server) (s : socket) : server :=
  Server (sv_queue sv) (sv_limiter sv) (sv_acceptor sv) (sv_workers sv) (sv_events sv)
    (sv_queued sv) (sv_taken sv ++ [s]).

(** *** Sleeping and waking *)

Definition asleep (w : worker) : bool := match wk_state w with w_asleep => true | _ => false end.

(** A worker that is woken goes back to look at the queue. *)
Definition wake (w : worker) : worker := if asleep w then Worker w_waiting (wk_stop w) else w.

(** A notification: only workers wait, and only on [_not_empty].  [notify_one] wakes
    one of those asleep, which one is up to the system; it is lost only when nobody
    sleeps. *)
Definition notify (ws : list worker) (n : notification) (woken : option nat)
    : option (list worker) :=
  match n with
  | notify_one not_empty =>
      match woken with
      | Some i => w ← ws !! i; if asleep w then Some (<[i := wake w]> ws) else None
      | None => if existsb asleep ws then None else Some ws
      end
  | notify_all not_empty => Some (wake <$> ws)
  | _ => Some ws
  end.

Definition notify_in_turn (ws : list worker) (ns : list notification) (woken : option nat)
    : option (list worker) :=
  foldl (λ o n, ws ← o; notify ws n woken) (Some ws) ns.

(** [server::handle_accept_result]: a fatal error throws out of the loop. *)
Definition handle_accept_result (sv : server) (e : accept_error) : server :=
  let sv := log_event sv (on_accept_error (ae_error e) (ae_fatal e)) in
  if ae_fatal e then set_acceptor sv acc_failed else set_acceptor sv acc_listening.

(** [server::handle_queue_result] *)
Definition handle_queue_result (sv : server) (r : QueuePush.t) : server :=
  match r with
  | QueuePush.queued => sv
  | QueuePush.full => log_event sv (on_connection_rejected "accepted-connection queue full")
  | QueuePush.closed => log_event sv (on_connection_rejected "accepted-connection queue closed")
  end.

Definition limit_exceeded (peer : bytes) : bytes :=
  "per-IP concurrent connection limit exceeded: " ++
  (if bytes_eqb peer [] then "<unknown>" : bytes else peer).

(** One pass through [server::accept_loop], in steps. *)
Definition accept_step (sv : server) (e : event) : option server :=
  match sv_acceptor sv, e with
  | acc_listening, ev_accept (inl error) => Some (handle_accept_result sv error)
  | acc_listening, ev_accept (inr s) => Some (set_acceptor sv (acc_accepted s))
  | acc_accepted s, ev_acquire =>
      let '(admitted, l) := try_acquire (sv_limiter sv) (peer_address s) in
      let sv := set_limiter sv l in
      Some (if admitted : bool then set_acceptor sv (acc_admitted s)
            else set_acceptor (log_event sv (on_connection_rejected (limit_exceeded (peer_address s))))
                   acc_listening)
  | acc_admitted s, ev_push =>
      let '(r, q, ns) := try_push (sv_queue sv) s in
      let sv := set_queue sv q in
      match r with
      | QueuePush.queued => Some (set_acceptor (record_queued sv s) (acc_notifying ns))
      | _ => Some (set_acceptor sv (acc_refused (peer_address s) r))
      end
  | acc_notifying ns, ev_notify woken =>
      ws ← notify_in_turn (sv_workers sv) ns woken;
      Some (set_acceptor (handle_queue_result (set_workers sv ws) QueuePush.queued) acc_listening)
  | acc_refused peer r, ev_release =>
      let sv := set_limiter sv (release (sv_limiter sv) peer) in
      Some (set_acceptor (handle_queue_result sv r) acc_listening)
  | _, _ => None
  end.

(** [worker_pool::request_stop], run by the destructor when the loop throws: the
    queue is closed, with its notifications sent under the lock, then every worker
    is asked to stop, which wakes it in [wait]; then they are joined. *)
Definition shutdown_step (sv : server) (e : event) : option server :=
  match sv_acceptor sv, e with
  | acc_failed, ev_close =>
      let '(q, ns) := close_queue (sv_queue sv) in
      ws ← notify_in_turn (sv_workers sv) ns None;
      Some (set_acceptor (set_workers (set_queue sv q) ws) (acc_stopping 0))
  | acc_stopping i, ev_request_stop =>
      match sv_workers sv !! i with
      | Some w =>
          Some (set_acceptor (set_worker sv i (Worker (wk_state (wake w)) true)) (acc_stopping (S i)))
      | None => Some (set_acceptor sv acc_joining)
      end
  | _, _ => None
  end.

(** [ip_limit_release_guard]: its destructor gives the permit of the address it
    was made for back, however the callback is left. *)
Definition ip_limit_release_guard_delete (sv : server) (peer : bytes) : server :=
  set_limiter sv (release (sv_limiter sv) peer).

(** [worker_pool::run_worker]: a socket is taken and served by the callback of
    [server::run]; when [handle_connection] has ended, also when it throws, the
    guard releases the permit, and what it throws is reported.  A [pop] that has to
    wait puts the worker to sleep, as it unlocks the queue; the notification of one
    that took a socket reaches nobody.  [ev_wake] is a wake-up without a cause. *)
Definition worker_step (sv : server) (e : event) : option server :=
  match e with
  | ev_pop i =>
      w ← sv_workers sv !! i;
      match wk_state w with
      | w_waiting =>
          match pop (sv_queue sv) (wk_stop w) with
          | None => Some (set_worker sv i (Worker w_asleep (wk_stop w)))
          | Some (r, q, ns) =>
              ws ← notify_in_turn (sv_workers sv) ns None;
              let sv := set_workers (set_queue sv q) ws in
              match r with
              | None => Some (set_worker sv i (Worker w_exited (wk_stop w)))
              | Some s => Some (record_taken (set_worker sv i (Worker (w_serving s) (wk_stop w))) s)
              end
          end
      | _ => None
      end
  | ev_served i r =>
      w ← sv_workers sv !! i;
      match wk_state w with
      | w_serving s => Some (set_worker sv i (Worker (w_served (peer_address s) r) (wk_stop w)))
      | _ => None
      end
  | ev_finish i =>
      w ← sv_workers sv !! i;
      match wk_state w with
      | w_served peer r =>
          let sv := ip_limit_release_guard_delete sv peer in
          let sv :=
            match r with
            | h_returned => sv
            | h_exception what => log_event sv (on_worker_error what)
            | h_unknown => log_event sv (on_worker_error "unknown worker exception")
            end in
          Some (set_worker sv i (Worker w_waiting (wk_stop w)))
      | _ => None
      end
  | ev_wake i =>
      w ← sv_workers sv !! i;
      if asleep w then Some (set_worker sv i (wake w)) else None
  | _ => None
  end.

Definition server_step (sv : server) (e : event) : option server :=
  match accept_step sv e with
  | Some sv => Some sv
  | None =>
      match shutdown_step sv e with
      | Some sv => Some sv
      | None => worker_step sv e
      end
  end.

(** The states of a server: what some schedule leads to. *)
Inductive reachable (queue_capacity worker_count : nat) : server → Prop :=
  | reach_start sv :
      start_server queue_capacity worker_count = Ret sv → reachable queue_capacity worker_count sv
  | reach_step sv e sv' :
      reachable queue_capacity worker_count sv → server_step sv e = Some sv' →
      reachable queue_capacity worker_count sv'.

(** A schedule, executed. *)
Definition run_schedule (sv : server) (es : list event) : option server :=
  foldl (λ o e, sv ← o; server_step sv e) (Some sv) es.

(** ** Connections in the system *)

Definition serving (w : worker) : option socket :=
  match wk_state w with w_serving s => Some s | _ => None end.

(** The peer of the connection that a worker has a permit of. *)
Definition worker_peer (w : worker) : option bytes :=
  match wk_state w with
  | w_serving s => Some (peer_address s)
  | w_served peer _ => Some peer
  | _ => None
  end.

(** The peers that hold a permit: queued, with a worker, or between the limiter
    and the queue. *)
Definition queued_peers (sv : server) : list bytes := peer_address <$> queue_sockets (sv_queue sv).
Definition served_peers (sv : server) : list bytes := omap worker_peer (sv_workers sv).
Definition admitted_peers (sv : server) : list bytes :=
  match sv_acceptor sv with
  | acc_admitted s => [peer_address s]
  | acc_refused peer _ => [peer]
  | _ => []
  end.

Definition inflight_peers (sv : server) : list bytes :=
  queued_peers sv ++ served_peers sv ++ admitted_peers sv.

(** Occurrences of a peer. *)
Definition occupancy (p : bytes) (ps : list bytes) : nat := length (filter (λ p', p' = p) ps).

Lemma occupancy_app p ps qs : occupancy p (ps ++ qs) = occupancy p ps + occupancy p qs.
Proof. unfold occupancy. by rewrite filter_app, length_app. Qed.

Lemma occupancy_cons p q ps :
  occupancy p (q :: ps) = (if decide (q = p) then 1 else 0) + occupancy p ps.
Proof. unfold occupancy. rewrite filter_cons. by case_decide. Qed.

#[export] Instance occupancy_perm p : Proper ((≡ₚ) ==> eq) (occupancy p).
Proof. intros ps qs H. unfold occupancy. by rewrite H. Qed.

(** What the workers have, after a worker moved on. *)
Lemma omap_worker_insert {A} (f : worker → option A) ws i w w' :
  ws !! i = Some w →
  option_list (f w) ++ omap f (<[i := w']> ws) ≡ₚ option_list (f w') ++ omap f ws.
Proof.
  revert i. induction ws as [|x ws IH]; intros i; [done|]. destruct i as [|i]; simpl.
  - intros [= ->]. destruct (f w), (f w'); simpl; try done. apply perm_swap.
  - intros Hi. specialize (IH i Hi). destruct (f x) as [s|]; simpl; [|done].
    rewrite <- !Permutation_middle. by rewrite IH.
Qed.

Lemma omap_worker_same {A} (f : worker → option A) ws i w w' :
  ws !! i = Some w → f w' = f w → omap f (<[i := w']> ws) ≡ₚ omap f ws.
Proof.
  intros Hw Hf. pose proof (omap_worker_insert f ws i w w' Hw) as Hp. rewrite Hf in Hp.
  by apply Permutation_app_inv_l in Hp.
Qed.

Lemma omap_worker_none {A} (f : worker → option A) ws :
  Forall (λ w, f w = None) ws → omap f ws = [].
Proof.
  induction 1 as [|w ws Hw _ IH]; [done|]. change (omap f (w :: ws)) with
    (match f w with Some a => a :: omap f ws | None => omap f ws end). by rewrite Hw.
Qed.

Lemma length_omap_worker {A} (f : worker → option A) ws : length (omap f ws) ≤ length ws.
Proof.
  induction ws as [|w ws IH]; [done|]. change (omap f (w :: ws)) with
    (match f w with Some s => s :: omap f ws | None => omap f ws end).
  destruct (f w); cbn [length]; lia.
Qed.

(** *** Notifications *)

(** Some workers were woken, the others are as they were. *)
Definition wakes (ws ws' : list worker) : Prop := Forall2 (λ w w', w' = w ∨ w' = wake w) ws ws'.

Lemma wakes_refl ws : wakes ws ws.
Proof. induction ws; constructor; auto. Qed.

Lemma wakes_trans ws1 ws2 ws3 : wakes ws1 ws2 → wakes ws2 ws3 → wakes ws1 ws3.
Proof.
  intros H. revert ws3. induction H as [|w w' ws1 ws2 Hw _ IH]; intros ws3 H3; inversion_clear H3 as [|? w3 ? ws4 Hw3 H4].
  - constructor.
  - constructor; [|by apply IH]. destruct Hw as [->| ->], Hw3 as [->| ->]; auto. right.
    unfold wake. by destruct (asleep w) eqn:Hs; cbn; rewrite ?Hs.
Qed.

Lemma notify_wakes ws n woken ws' : notify ws n woken = Some ws' → wakes ws ws'.
Proof.
  destruct n as [[]|[]]; cbn.
  - intros [= <-]. apply wakes_refl.
  - destruct woken as [i|].
    + destruct (ws !! i) as [w|] eqn:Hw; [|done]. cbn. destruct (asleep w); [|done]. intros [= <-].
      revert i Hw. induction ws as [|x ws IH]; intros [|i]; cbn; try done.
      * intros [= ->]. constructor; [by right|apply wakes_refl].
      * intros Hw. constructor; [by left|by apply IH].
    + destruct (existsb asleep ws); [done|]. intros [= <-]. apply wakes_refl.
  - intros [= <-]. apply wakes_refl.
  - intros [= <-]. induction ws; constructor; auto.
Qed.

Lemma notify_in_turn_wakes ws ns woken ws' : notify_in_turn ws ns woken = Some ws' → wakes ws ws'.
Proof.
  unfold notify_in_turn. revert ws'. induction ns as [|n ns IH] using rev_ind; intros ws'.
  - intros [= <-]. apply wakes_refl.
  - rewrite foldl_app. cbn. intros (ws1 & H1 & H2)%bind_Some.
    eapply wakes_trans; [by apply IH|by eapply notify_wakes].
Qed.

Lemma wakes_length ws ws' : wakes ws ws' → length ws' = length ws.
Proof. intros H. symmetry. by eapply Forall2_length. Qed.

Lemma wakes_omap {A} (f : worker → option A) ws ws' :
  (∀ w, f (wake w) = f w) → wakes ws ws' → omap f ws' = omap f ws.
Proof.
  intros Hf. induction 1 as [|w w' ws ws' Hw _ IH]; [done|]. cbn.
  assert (f w' = f w) as -> by (by destruct Hw as [->| ->]). by rewrite IH.
Qed.

Lemma wakes_elem ws ws' w' : wakes ws ws' → w' ∈ ws' → ∃ w, w ∈ ws ∧ (w' = w ∨ w' = wake w).
Proof.
  intros H (i & Hi)%list_elem_of_lookup_1. destruct (Forall2_lookup_r _ _ _ _ _ H Hi) as (w & Hw & ?).
  exists w. split; [by eapply list_elem_of_lookup_2|done].
Qed.

Lemma wake_stop w : wk_stop (wake w) = wk_stop w.
Proof. unfold wake. by destruct (asleep w). Qed.

(** Waking changes nothing but sleep. *)
Lemma wake_peer w : worker_peer (wake w) = worker_peer w.
Proof. unfold wake, asleep, worker_peer. by destruct (wk_state w) eqn:Hs; rewrite ?Hs. Qed.

Lemma wake_serving w : serving (wake w) = serving w.
Proof. unfold wake, asleep, serving. by destruct (wk_state w) eqn:Hs; rewrite ?Hs. Qed.

Lemma wake_exited w : wk_state (wake w) = w_exited → wk_state w = w_exited.
Proof. unfold wake, asleep. by destruct (wk_state w) eqn:Hs; cbn; rewrite ?Hs. Qed.

Lemma wake_served w peer r : wk_state (wake w) = w_served peer r → wk_state w = w_served peer r.
Proof. unfold wake, asleep. by destruct (wk_state w) eqn:Hs; cbn; rewrite ?Hs. Qed.

(** The notification of [pop] reaches no worker. *)
Lemma pop_notify ws q stop r q' ns :
  pop q stop = Some (r, q', ns) → notify_in_turn ws ns None = Some ws.
Proof. intros ->%pop_notifies. by destruct r. Qed.

(** *** The moves of a worker, case by case *)

Inductive worker_move (sv : server) (i : nat) (w : worker) : event → server → Prop :=
  | move_take s q ns :
      wk_state w = w_waiting → pop (sv_queue sv) (wk_stop w) = Some (Some s, q, ns) →
      worker_move sv i w (ev_pop i)
        (record_taken (set_worker (set_queue sv q) i (Worker (w_serving s) (wk_stop w))) s)
  | move_exit q ns :
      wk_state w = w_waiting → pop (sv_queue sv) (wk_stop w) = Some (None, q, ns) →
      worker_move sv i w (ev_pop i) (set_worker (set_queue sv q) i (Worker w_exited (wk_stop w)))
  | move_sleep :
      wk_state w = w_waiting → pop (sv_queue sv) (wk_stop w) = None →
      worker_move sv i w (ev_pop i) (set_worker sv i (Worker w_asleep (wk_stop w)))
  | move_served s r :
      wk_state w = w_serving s →
      worker_move sv i w (ev_served i r)
        (set_worker sv i (Worker (w_served (peer_address s) r) (wk_stop w)))
  | move_finish peer r evs :
      wk_state w = w_served peer r →
      evs = match r with
            | h_returned => []
            | h_exception what => [on_worker_error what]
            | h_unknown => [on_worker_error "unknown worker exception"]
            end →
      worker_move sv i w (ev_finish i)
        (Server (sv_queue sv) (release (sv_limiter sv) peer) (sv_acceptor sv)
           (<[i := Worker w_waiting (wk_stop w)]> (sv_workers sv)) (sv_events sv ++ evs)
           (sv_queued sv) (sv_taken sv))
  | move_wake :
      wk_state w = w_asleep →
      worker_move sv i w (ev_wake i) (set_worker sv i (Worker w_waiting (wk_stop w))).

Lemma worker_step_move sv e sv' :
  worker_step sv e = Some sv' →
  ∃ i w, sv_workers sv !! i = Some w ∧ worker_move sv i w e sv'.
Proof.
  destruct e as [?| | |?| | | |i|i r|i|i]; try done; cbn [worker_step];
    destruct (sv_workers sv !! i) as [w|] eqn:Hw; try done; cbn [mbind option_bind];
    intros Hst; exists i, w; (split; [done|]); revert Hst; unfold asleep, wake, asleep;
    destruct (wk_state w) as [| |s|peer h|] eqn:Hs; try done.
  - destruct (pop _ _) as [[[r q] ns]|] eqn:Hpop.
    + rewrite (pop_notify _ _ _ _ _ _ Hpop). cbn [mbind option_bind].
      change (set_workers (set_queue sv q) (sv_workers sv)) with (set_queue sv q).
      destruct r; intros [= <-];
        [by eapply move_take|by eapply move_exit].
    + intros [= <-]. by apply move_sleep.
  - intros [= <-]. by apply move_served.
  - destruct h; intros [= <-]; unfold ip_limit_release_guard_delete, log_event, set_limiter, set_worker;
      cbn; [rewrite <- (app_nil_r (sv_events sv))|..]; by eapply move_finish.
  - intros [= <-]. by apply move_wake.
Qed.

(** ** The invariant *)

Definition shutting_down (a : acceptor) : bool :=
  match a with acc_stopping _ | acc_joining => true | _ => false end.

Record server_inv (cap n : nat) (sv : server) : Prop := {
  inv_queue : queue_wf (sv_queue sv) ∧ queue_capacity (sv_queue sv) = cap;
  inv_limiter : limiter_wf (sv_limiter sv) ∧
    per_ip_limit (sv_limiter sv) = max_connections_per_ip;
  inv_permits p : p ≠ [] → permits (sv_limiter sv) p = occupancy p (inflight_peers sv);
  inv_history : sv_queued sv = sv_taken sv ++ queue_sockets (sv_queue sv);
  inv_workers : length (sv_workers sv) = n;
  inv_closed : queue_closed (sv_queue sv) = shutting_down (sv_acceptor sv);
  inv_stop w : w ∈ sv_workers sv → wk_stop w = true → queue_closed (sv_queue sv) = true;
  inv_exited w : w ∈ sv_workers sv → wk_state w = w_exited →
    queue_closed (sv_queue sv) = true ∧ queue_sockets (sv_queue sv) = [];
}.

Lemma omap_waiting {A} (f : worker → option A) n :
  f (Worker w_waiting false) = None → omap f (start_workers n) = [].
Proof. intros Hf. apply omap_worker_none, Forall_replicate, Hf. Qed.

Lemma start_server_inv cap n sv : start_server cap n = Ret sv → server_inv cap n sv.
Proof.
  unfold start_server. intros H. inv_bind H. inv_bind H. inv_bind H. injection H as <-.
  apply new_ip_limiter_wf in Ha as Hl. destruct Hl as [Hwf Hp].
  apply new_work_queue_wf in Ha0 as Hq.
  unfold new_work_queue in Ha0. destruct (cap =? 0); [done|]. injection Ha0 as <-.
  unfold new_worker_pool in Ha1. destruct (n =? 0); [done|]. injection Ha1 as <-.
  unfold new_ip_limiter in Ha. cbn in Ha. injection Ha as <-.
  split; cbn; try done.
  - intros p _. rewrite Hp. unfold inflight_peers, queued_peers, served_peers, admitted_peers. cbn.
    by rewrite omap_waiting.
  - by apply length_replicate.
  - intros w [-> _]%elem_of_replicate. done.
  - intros w [-> _]%elem_of_replicate. done.
Qed.

(** A step that only moves the accepting thread, among states that hold the same
    permits, or writes the log. *)
Lemma inv_move cap n sv a evs :
  server_inv cap n sv →
  admitted_peers sv ≡ₚ match a with
    | acc_admitted s => [peer_address s]
    | acc_refused peer _ => [peer]
    | _ => []
    end →
  shutting_down a = shutting_down (sv_acceptor sv) →
  server_inv cap n (Server (sv_queue sv) (sv_limiter sv) a (sv_workers sv) evs
    (sv_queued sv) (sv_taken sv)).
Proof.
  intros [] Hadm Hdown. split; cbn; try done.
  - intros p Hp. rewrite inv_permits0 by done. unfold inflight_peers, admitted_peers at 2. cbn.
    by rewrite Hadm.
  - by rewrite Hdown.
Qed.

(** The permits after a peer was added or removed. *)
Lemma inv_gain cap n sv s l :
  server_inv cap n sv → try_acquire (sv_limiter sv) (peer_address s) = (true, l) →
  admitted_peers sv = [] → shutting_down (sv_acceptor sv) = false →
  server_inv cap n (Server (sv_queue sv) l (acc_admitted s) (sv_workers sv) (sv_events sv)
    (sv_queued sv) (sv_taken sv)).
Proof.
  intros [] Hacq Hadm Hdown. destruct inv_limiter0 as [Hwf Hlim].
  apply try_acquire_true in Hacq as (Hwf' & Hlim' & Hp); [|done].
  split; cbn; try done.
  - split; [done|congruence].
  - intros p Hne. rewrite Hp, inv_permits0 by done.
    unfold inflight_peers. rewrite Hadm. unfold admitted_peers, queued_peers, served_peers. cbn.
    rewrite !occupancy_app, occupancy_cons. change (occupancy p []) with 0.
    repeat case_decide; destruct_and?; subst; try lia; exfalso; auto.
  - congruence.
Qed.

Lemma occupancy_pos p ps : p ∈ ps → 0 < occupancy p ps.
Proof.
  induction ps as [|q ps IH]; [by intros ?%not_elem_of_nil|].
  rewrite elem_of_cons, occupancy_cons. intros [->|H]; [rewrite decide_True by done; lia|].
  specialize (IH H). lia.
Qed.

(** Workers that are woken. *)
Lemma inv_wakes cap n sv ws :
  server_inv cap n sv → wakes (sv_workers sv) ws → server_inv cap n (set_workers sv ws).
Proof.
  intros [] Hws. split; cbn; try done.
  - intros p Hp. rewrite inv_permits0 by done. apply occupancy_perm.
    unfold inflight_peers, served_peers, admitted_peers, queued_peers. cbn.
    by rewrite (wakes_omap _ _ _ wake_peer Hws).
  - by rewrite (wakes_length _ _ Hws).
  - intros w' (w & Hin & [->| ->])%(wakes_elem _ _ _ Hws); rewrite ?wake_stop; by apply inv_stop0.
  - intros w' (w & Hin & [->| ->])%(wakes_elem _ _ _ Hws) He; [|apply wake_exited in He];
      by apply (inv_exited0 w).
Qed.

(** A permit is given back by the one that held it. *)
Lemma inv_release cap n sv sv' peer :
  server_inv cap n sv → inflight_peers sv ≡ₚ peer :: inflight_peers sv' →
  sv_limiter sv' = release (sv_limiter sv) peer →
  sv_queue sv' = sv_queue sv → sv_queued sv' = sv_queued sv → sv_taken sv' = sv_taken sv →
  length (sv_workers sv') = length (sv_workers sv) →
  shutting_down (sv_acceptor sv') = shutting_down (sv_acceptor sv) →
  (∀ w, w ∈ sv_workers sv' → w ∈ sv_workers sv ∨
     (wk_state w ≠ w_exited ∧ ∃ w0, w0 ∈ sv_workers sv ∧ wk_stop w = wk_stop w0)) →
  server_inv cap n sv'.
Proof.
  intros [] Hperm Hl Hq Hqd Hst Hlen Hdown Hw. destruct inv_limiter0 as [Hwf Hlim].
  assert (Hpos : peer = [] ∨ 0 < permits (sv_limiter sv) peer).
  { destruct (decide (peer = [])) as [|Hne]; [by left|right].
    rewrite inv_permits0, Hperm by done. apply occupancy_pos. left. }
  destruct (release_spec _ _ Hwf Hpos) as (Hwf' & Hlim' & Hp).
  split; rewrite ?Hl, ?Hq, ?Hqd, ?Hst, ?Hlen, ?Hdown; try done.
  - split; [done|congruence].
  - intros p Hne. rewrite Hp, inv_permits0, Hperm, occupancy_cons by done.
    repeat case_decide; destruct_and?; subst; try lia; exfalso; auto.
  - intros w [Hin|(_ & w0 & Hin & ->)]%Hw; [by apply inv_stop0|by apply inv_stop0].
  - intros w [Hin|[Hne _]]%Hw; [by apply inv_exited0|done].
Qed.

Lemma inv_push cap n sv s q ns :
  server_inv cap n sv → sv_acceptor sv = acc_admitted s →
  try_push (sv_queue sv) s = (QueuePush.queued, q, ns) →
  server_inv cap n (Server q (sv_limiter sv) (acc_notifying ns) (sv_workers sv) (sv_events sv)
    (sv_queued sv ++ [s]) (sv_taken sv)).
Proof.
  intros [] Hacc Hpush. destruct inv_queue0 as [Hwf Hcap].
  pose proof (try_push_wf (sv_queue sv) s Hwf) as Hwf'. rewrite Hpush in Hwf'. cbn in Hwf'.
  apply try_push_spec in Hpush as (Hopen & _ & ->). split; cbn; try done.
  - intros p Hne. rewrite inv_permits0 by done. apply occupancy_perm.
    unfold inflight_peers, queued_peers, served_peers, admitted_peers. rewrite Hacc. cbn.
    rewrite fmap_app, app_nil_r, <- app_assoc. f_equiv. apply Permutation_app_comm.
  - by rewrite inv_history0, <- app_assoc.
  - intros w Hw He. destruct (inv_exited0 w Hw He). congruence.
Qed.

Lemma accept_step_inv cap n sv e sv' :
  server_inv cap n sv → accept_step sv e = Some sv' → server_inv cap n sv'.
Proof.
  intros Hinv. unfold accept_step.
  destruct (sv_acceptor sv) as [|s|s|ns|peer r| | |] eqn:Hacc, e as [[er|s']| | |wk| | | | | | |];
    try done.
  - intros [= <-]. unfold handle_accept_result. cbn.
    destruct (ae_fatal er); apply (inv_move cap n sv); try done; unfold admitted_peers; by rewrite Hacc.
  - intros [= <-]. apply (inv_move cap n sv); [done| |by rewrite Hacc]. unfold admitted_peers. by rewrite Hacc.
  - destruct (try_acquire _ _) as [[] l] eqn:Hq; intros [= <-].
    + apply (inv_gain cap n sv s l); [done|done| |by rewrite Hacc]. unfold admitted_peers. by rewrite Hacc.
    + pose proof (inv_limiter _ _ _ Hinv) as [Hwf _].
      apply try_acquire_false in Hq as (-> & _); [|done].
      apply (inv_move cap n sv); [done| |by rewrite Hacc]. unfold admitted_peers. by rewrite Hacc.
  - destruct (try_push _ _) as [[r q] ns] eqn:Hq. destruct r; intros [= <-].
    + exact (inv_push cap n sv s q ns Hinv Hacc Hq).
    + apply try_push_spec in Hq as (_ & _ & ->).
      apply (inv_move cap n sv); [done| |by rewrite Hacc]. unfold admitted_peers. by rewrite Hacc.
    + apply try_push_spec in Hq as (_ & ->).
      apply (inv_move cap n sv); [done| |by rewrite Hacc]. unfold admitted_peers. by rewrite Hacc.
  - destruct (notify_in_turn _ _ _) as [ws|] eqn:Hws; [|done]. intros [= <-].
    apply (inv_move cap n (set_workers sv ws)).
    + apply inv_wakes; [done|by eapply notify_in_turn_wakes].
    + unfold admitted_peers. cbn. by rewrite Hacc.
    + cbn. by rewrite Hacc.
  - intros [= <-].
    apply (inv_release cap n sv _ peer); [done| | | | | | | |]; try (by destruct r).
    + unfold inflight_peers, queued_peers, served_peers, admitted_peers. rewrite Hacc.
      destruct r; cbn; rewrite app_nil_r, app_assoc; symmetry; apply Permutation_cons_append.
    + rewrite Hacc. by destruct r.
    + intros w Hw. left. by destruct r.
Qed.

Lemma shutdown_step_inv cap n sv e sv' :
  server_inv cap n sv → shutdown_step sv e = Some sv' → server_inv cap n sv'.
Proof.
  intros Hinv. unfold shutdown_step.
  destruct (sv_acceptor sv) as [|s|s|ns|peer r| |i|] eqn:Hacc, e; try done.
  - intros [= <-]. apply (inv_wakes _ _ _ (wake <$> sv_workers sv)) in Hinv;
      [|by apply (notify_wakes _ (notify_all not_empty) None)].
    destruct Hinv. split; cbn in *; try done.
    + intros p Hne. rewrite inv_permits0 by done. apply occupancy_perm.
      unfold inflight_peers, admitted_peers. cbn. rewrite Hacc. done.
    + intros w Hw He. by destruct (inv_exited0 w Hw He).
  - destruct (sv_workers sv !! i) as [w|] eqn:Hw; intros [= <-].
    2: { apply (inv_move cap n sv); [done| |by rewrite Hacc]. unfold admitted_peers. by rewrite Hacc. }
    destruct Hinv. rewrite Hacc in inv_closed0. split; cbn; try done.
    + intros p Hne. rewrite inv_permits0 by done. apply occupancy_perm.
      unfold inflight_peers, admitted_peers, served_peers, queued_peers. rewrite Hacc. cbn.
      do 2 f_equiv. symmetry. apply (omap_worker_same _ _ _ w); [done|apply wake_peer].
    + by rewrite length_insert.
    + intros w' [->|?]%elem_of_insert_inv Hs; [|by eapply inv_exited0].
      apply (inv_exited0 w); [by eapply list_elem_of_lookup_2|by apply wake_exited].
Qed.

Lemma inv_pop_none cap n sv i w q ns :
  server_inv cap n sv → sv_workers sv !! i = Some w → wk_state w = w_waiting →
  pop (sv_queue sv) (wk_stop w) = Some (None, q, ns) →
  server_inv cap n (set_worker (set_queue sv q) i (Worker w_exited (wk_stop w))).
Proof.
  intros [] Hw Hs (Hempty & -> & Hwhy)%pop_spec.
  assert (Hin : w ∈ sv_workers sv) by (by eapply list_elem_of_lookup_2).
  assert (Hclosed : queue_closed (sv_queue sv) = true)
    by (destruct Hwhy as [?|Hstop]; [done|by apply (inv_stop0 w)]).
  split; cbn; try done.
  - intros p Hne. rewrite inv_permits0 by done. apply occupancy_perm.
    unfold inflight_peers, queued_peers, served_peers, admitted_peers. cbn. do 2 f_equiv.
    symmetry. apply (omap_worker_same _ _ _ w); [done|]. unfold worker_peer. by rewrite Hs.
  - by rewrite length_insert.
Qed.

Lemma inv_pop_some cap n sv i w s q ns :
  server_inv cap n sv → sv_workers sv !! i = Some w → wk_state w = w_waiting →
  pop (sv_queue sv) (wk_stop w) = Some (Some s, q, ns) →
  server_inv cap n
    (record_taken (set_worker (set_queue sv q) i (Worker (w_serving s) (wk_stop w))) s).
Proof.
  intros [] Hw Hs Hpop. destruct inv_queue0 as [Hwf Hcap].
  pose proof (pop_wf _ _ _ _ _ Hwf Hpop) as Hwf'. apply pop_spec in Hpop as [Hsock Hq].
  assert (Hin : w ∈ sv_workers sv) by (by eapply list_elem_of_lookup_2).
  assert (Hcl : queue_closed q = queue_closed (sv_queue sv)) by (by rewrite Hq).
  split; cbn; try done.
  - split; [done|]. by rewrite Hq.
  - intros p Hne. rewrite inv_permits0 by done. apply occupancy_perm.
    unfold inflight_peers, queued_peers, served_peers, admitted_peers. cbn.
    pose proof (omap_worker_insert worker_peer _ i w (Worker (w_serving s) (wk_stop w)) Hw) as Hp.
    unfold worker_peer at 1 3 in Hp. rewrite Hs in Hp. cbn in Hp. rewrite Hp, Hsock. cbn.
    by rewrite Permutation_middle.
  - by rewrite inv_history0, Hsock, <- app_assoc.
  - by rewrite length_insert.
  - by rewrite Hcl.
  - rewrite Hcl. intros w' [->|?]%elem_of_insert_inv; [by apply (inv_stop0 w)|by apply inv_stop0].
  - intros w' [->|Hw']%elem_of_insert_inv He; [done|].
    destruct (inv_exited0 w' Hw' He) as [_ He']. congruence.
Qed.

(** A worker that moves on with its permit. *)
Lemma inv_worker cap n sv i w w' :
  server_inv cap n sv → sv_workers sv !! i = Some w → wk_state w' ≠ w_exited →
  wk_stop w' = wk_stop w → worker_peer w' = worker_peer w → server_inv cap n (set_worker sv i w').
Proof.
  intros [] Hw Hne Hstop Hpeer.
  assert (Hin : w ∈ sv_workers sv) by (by eapply list_elem_of_lookup_2).
  split; cbn; try done.
  - intros p Hp. rewrite inv_permits0 by done. apply occupancy_perm.
    unfold inflight_peers, served_peers, admitted_peers, queued_peers. cbn.
    do 2 f_equiv. symmetry. by apply (omap_worker_same _ _ _ w).
  - by rewrite length_insert.
  - intros w1 [->|?]%elem_of_insert_inv; [rewrite Hstop; by apply inv_stop0|by apply inv_stop0].
  - intros w1 [->|?]%elem_of_insert_inv; [done|by apply inv_exited0].
Qed.

Lemma inv_finish cap n sv i w peer r evs :
  server_inv cap n sv → sv_workers sv !! i = Some w → wk_state w = w_served peer r →
  server_inv cap n
    (Server (sv_queue sv) (release (sv_limiter sv) peer) (sv_acceptor sv)
       (<[i := Worker w_waiting (wk_stop w)]> (sv_workers sv)) evs (sv_queued sv) (sv_taken sv)).
Proof.
  intros Hinv Hw Hs.
  pose proof (omap_worker_insert worker_peer _ i w (Worker w_waiting (wk_stop w)) Hw) as Hp.
  unfold worker_peer at 1 3 in Hp. rewrite Hs in Hp. cbn in Hp.
  apply (inv_release cap n sv _ peer); [done| |done..| |done|].
  - unfold inflight_peers, queued_peers, served_peers, admitted_peers. cbn.
    rewrite <- Hp. symmetry. apply Permutation_middle.
  - apply length_insert.
  - intros w' [->|?]%elem_of_insert_inv; [right|by left]. split; [done|]. exists w.
    split; [by eapply list_elem_of_lookup_2|done].
Qed.

Lemma worker_step_inv cap n sv e sv' :
  server_inv cap n sv → worker_step sv e = Some sv' → server_inv cap n sv'.
Proof.
  intros Hinv (i & w & Hw & Hmove)%worker_step_move.
  destruct Hmove as [s q ns Hs Hpop|q ns Hs Hpop|Hs Hpop|s r Hs|peer r evs Hs ->|Hs].
  - by eapply inv_pop_some.
  - by eapply inv_pop_none.
  - apply (inv_worker cap n sv i w); try done. unfold worker_peer. by rewrite Hs.
  - apply (inv_worker cap n sv i w); try done. unfold worker_peer. by rewrite Hs.
  - by eapply inv_finish.
  - apply (inv_worker cap n sv i w); try done. unfold worker_peer. by rewrite Hs.
Qed.

Lemma server_step_inv cap n sv e sv' :
  server_inv cap n sv → server_step sv e = Some sv' → server_inv cap n sv'.
Proof.
  intros Hinv. unfold server_step.
  destruct (accept_step sv e) eqn:Ha; [intros [= <-]; by eapply accept_step_inv|].
  destruct (shutdown_step sv e) eqn:Hs; [intros [= <-]; by eapply shutdown_step_inv|].
  by apply worker_step_inv.
Qed.

Lemma reachable_inv cap n sv : reachable cap n sv → server_inv cap n sv.
Proof.
  induction 1 as [sv Hstart|sv e sv' _ IH Hstep]; [by apply start_server_inv|].
  by eapply server_step_inv.
Qed.

(** *** No wake-up is lost *)

(** Sums over the workers. *)
Fixpoint total (f : worker → nat) (ws : list worker) : nat :=
  match ws with [] => 0 | w :: ws => f w + total f ws end.

Lemma total_insert f ws i w w' :
  ws !! i = Some w → total f (<[i := w']> ws) + f w = total f ws + f w'.
Proof.
  revert i. induction ws as [|x ws IH]; intros [|i]; simpl; [done|done| |].
  - intros [= ->]. lia.
  - intros Hi%IH. lia.
Qed.

Lemma total_pos f ws w : w ∈ ws → f w ≤ total f ws.
Proof. induction 1; simpl; lia. Qed.

Lemma total_zero f ws : (∀ w, w ∈ ws → f w = 0) → total f ws = 0.
Proof.
  induction ws as [|w ws IH]; intros H; simpl; [done|].
  rewrite H, IH by set_solver. done.
Qed.

(** The workers asleep, and those about to look at the queue. *)
Definition sleeping (w : worker) : nat := match wk_state w with w_asleep => 1 | _ => 0 end.
Definition looking (w : worker) : nat := match wk_state w with w_waiting => 1 | _ => 0 end.
Definition sleepers (sv : server) : nat := total sleeping (sv_workers sv).
Definition lookers (sv : server) : nat := total looking (sv_workers sv).

(** The notifications to a worker among some, and those that the accepting thread
    has still to send. *)
Definition wake_ups (ns : list notification) : nat :=
  length (filter (λ n, n = notify_one not_empty) ns).
Definition pending (sv : server) : nat :=
  match sv_acceptor sv with acc_notifying ns => wake_ups ns | _ => 0 end.

(** A worker sleeps only while the queue is open; and while one sleeps, there is a
    worker about to look at the queue, or a notification on its way, for every
    connection that is queued. *)
Record wake_inv (sv : server) : Prop := {
  wake_open w : w ∈ sv_workers sv → asleep w = true → queue_closed (sv_queue sv) = false;
  wake_attended : 0 < sleepers sv →
    length (queue_sockets (sv_queue sv)) ≤ lookers sv + pending sv;
}.

Lemma asleep_sleeping w : asleep w = true ↔ wk_state w = w_asleep.
Proof. unfold asleep. by destruct (wk_state w). Qed.

Lemma wake_awake w : asleep (wake w) = false.
Proof. unfold wake. by destruct (asleep w) eqn:Hs. Qed.

Lemma awake_wake w : asleep w = false → wake w = w.
Proof. unfold wake. by intros ->. Qed.

Lemma wake_looking w : looking (wake w) + sleeping (wake w) = looking w + sleeping w ∧ sleeping (wake w) = 0.
Proof. unfold wake, asleep, looking, sleeping. by destruct (wk_state w) eqn:Hs; cbn; rewrite ?Hs. Qed.

Lemma wakes_totals ws ws' :
  wakes ws ws' → total sleeping ws' ≤ total sleeping ws ∧
  total looking ws' + total sleeping ws' = total looking ws + total sleeping ws.
Proof.
  induction 1 as [|w w' ws ws' Hw _ [IH1 IH2]]; simpl; [done|].
  destruct (wake_looking w). destruct Hw as [->| ->]; lia.
Qed.

(** A notification gives a sleeper something to do, unless none is left. *)
Lemma notify_totals ws n woken ws' :
  notify ws n woken = Some ws' → 0 < total sleeping ws' →
  total looking ws + wake_ups [n] ≤ total looking ws'.
Proof.
  intros Hn. pose proof (notify_wakes _ _ _ _ Hn) as [_ Hsum]%wakes_totals. revert Hn.
  destruct n as [[]|[]]; match goal with |- context [wake_ups ?ns] =>
    let k := eval vm_compute in (wake_ups ns) in change (wake_ups ns) with k end;
    intros Hn Hpos; try (injection Hn as <-; lia); cbn [notify] in Hn.
  - destruct woken as [i|].
    + destruct (ws !! i) as [w|] eqn:Hw; [|done]. cbn in Hn.
      destruct (asleep w) eqn:Hs; [|done]. injection Hn as <-. apply asleep_sleeping in Hs.
      pose proof (total_insert looking ws i w (wake w) Hw) as Ht.
      destruct (wake_looking w) as [H1 H2].
      assert (sleeping w = 1 ∧ looking w = 0) as [H3 H4] by (unfold sleeping, looking; by rewrite Hs).
      rewrite H3, H4 in *. lia.
    + destruct (existsb asleep ws) eqn:He; [done|]. injection Hn as <-.
      rewrite total_zero in Hpos; [lia|]. intros w (i & Hi)%list_elem_of_lookup_1.
      assert (Hw : asleep w = false).
      { apply not_true_iff_false. intros Hs. apply not_true_iff_false in He. apply He.
        apply existsb_exists. exists w. split; [|done]. apply list_elem_of_In.
        by eapply list_elem_of_lookup_2. }
      unfold asleep in Hw. unfold sleeping. by destruct (wk_state w).
  - injection Hn as <-. rewrite total_zero in Hpos; [lia|].
    intros w (w0 & -> & _)%list_elem_of_fmap. apply wake_looking.
Qed.

Lemma notify_in_turn_totals ws ns woken ws' :
  notify_in_turn ws ns woken = Some ws' → 0 < total sleeping ws' →
  total looking ws + wake_ups ns ≤ total looking ws'.
Proof.
  unfold notify_in_turn. revert ws'. induction ns as [|n ns IH] using rev_ind; intros ws'.
  - intros [= <-]. cbn. lia.
  - rewrite foldl_app. cbn. intros (ws1 & H1 & H2)%bind_Some Hpos.
    pose proof (notify_wakes _ _ _ _ H2) as [Hle _]%wakes_totals.
    specialize (IH ws1 H1 ltac:(lia)). apply notify_totals in H2; [|done].
    unfold wake_ups in *. rewrite filter_app, length_app. lia.
Qed.

(** Every step keeps the invariant. *)
Lemma wake_inv_move sv sv' :
  wake_inv sv → wakes (sv_workers sv) (sv_workers sv') →
  queue_closed (sv_queue sv') = queue_closed (sv_queue sv) →
  (0 < sleepers sv' → length (queue_sockets (sv_queue sv')) + lookers sv + pending sv
     ≤ length (queue_sockets (sv_queue sv)) + lookers sv' + pending sv') →
  wake_inv sv'.
Proof.
  intros [Hopen Hatt] Hws Hclosed Hlen. split.
  - intros w' (w & Hin & [->| ->])%(wakes_elem _ _ _ Hws) Hs; [|by rewrite wake_awake in Hs].
    rewrite Hclosed. by apply (Hopen w).
  - intros Hpos. pose proof (wakes_totals _ _ Hws) as [Hle _]. specialize (Hlen Hpos).
    unfold sleepers in *. specialize (Hatt ltac:(lia)). lia.
Qed.

Lemma accept_step_wake sv e sv' : wake_inv sv → accept_step sv e = Some sv' → wake_inv sv'.
Proof.
  intros Hinv. unfold accept_step.
  destruct (sv_acceptor sv) as [|s|s|ns|peer r| | |] eqn:Hacc, e as [[er|s']| | |wk| | | | | | |];
    try done.
  all: try (intros [= <-]; apply (wake_inv_move sv); unfold handle_accept_result, lookers, pending;
    rewrite ?Hacc; repeat case_match; cbn; try done; try apply wakes_refl; lia).
  - destruct (try_acquire _ _) as [[] l]; intros [= <-]; (apply (wake_inv_move sv);
      [done|apply wakes_refl|done|unfold lookers, pending; rewrite Hacc; cbn; lia]).
  - destruct (try_push _ _) as [[r q] ns] eqn:Hq. destruct r; intros [= <-];
      apply try_push_spec in Hq as Hspec;
      (apply (wake_inv_move sv); [done|apply wakes_refl|..]); cbn.
    + destruct Hspec as (_ & _ & ->). done.
    + apply try_push_notifies in Hq as ->. destruct Hspec as (_ & _ & ->).
      unfold lookers, pending. rewrite Hacc. cbn -[wake_ups].
      change (wake_ups _) with 1. rewrite length_app. cbn. lia.
    + by destruct Hspec as (_ & _ & ->).
    + destruct Hspec as (_ & _ & ->). unfold lookers, pending. rewrite Hacc. cbn. lia.
    + by destruct Hspec as (_ & ->).
    + destruct Hspec as (_ & ->). unfold lookers, pending. rewrite Hacc. cbn. lia.
  - destruct (notify_in_turn _ _ _) as [ws|] eqn:Hws; [|done]. intros [= <-].
    apply (wake_inv_move sv); [done|by eapply notify_in_turn_wakes|done|].
    intros Hpos. pose proof (notify_in_turn_totals _ _ _ _ Hws Hpos).
    unfold lookers, pending. rewrite Hacc. cbn in *. lia.
  - intros [= <-]. destruct r; apply (wake_inv_move sv); try done; try apply wakes_refl;
      unfold lookers, pending; rewrite Hacc; cbn; lia.
Qed.

Lemma set_awake sv i w w' :
  sv_workers sv !! i = Some w → asleep w' = false →
  (∀ x, x ∈ <[i := w']> (sv_workers sv) → asleep x = true → x ∈ sv_workers sv) ∧
  total sleeping (<[i := w']> (sv_workers sv)) ≤ sleepers sv ∧
  total looking (<[i := w']> (sv_workers sv)) + looking w = lookers sv + looking w'.
Proof.
  intros Hw Hs. split; [|split].
  - by intros x [->|?]%elem_of_insert_inv Hx; [congruence|].
  - pose proof (total_insert sleeping _ i w w' Hw) as Ht.
    assert (sleeping w' = 0) by (unfold asleep, sleeping in *; by destruct (wk_state w')).
    unfold sleepers. lia.
  - by apply total_insert.
Qed.

Lemma shutdown_step_wake sv e sv' : wake_inv sv → shutdown_step sv e = Some sv' → wake_inv sv'.
Proof.
  intros Hinv. unfold shutdown_step.
  destruct (sv_acceptor sv) as [|s|s|ns|peer r| |i|] eqn:Hacc, e; try done.
  - intros [= <-].
    assert (Hnone : ∀ w, w ∈ wake <$> sv_workers sv → asleep w = false)
      by (intros w (w0 & -> & _)%list_elem_of_fmap; apply wake_awake).
    split; cbn.
    + intros w Hin%Hnone. congruence.
    + unfold sleepers. cbn. rewrite total_zero; [lia|].
      intros w Hin%Hnone. unfold asleep, sleeping in *. by destruct (wk_state w).
  - destruct (sv_workers sv !! i) as [w|] eqn:Hw; intros [= <-].
    + destruct (set_awake sv i w (Worker (wk_state (wake w)) true) Hw (wake_awake w)) as (He & Hle & Hl).
      destruct Hinv as [Hopen Hatt]. split; cbn; [by eauto|].
      unfold sleepers, lookers, pending in *. rewrite Hacc in Hatt. cbn. intros Hpos.
      specialize (Hatt ltac:(lia)). destruct (wake_looking w) as [Hsum _].
      change (looking (Worker (wk_state (wake w)) true)) with (looking (wake w)) in Hl.
      assert (sleeping (wake w) = 0) by apply wake_looking. lia.
    + apply (wake_inv_move sv); [done|apply wakes_refl|done|].
      unfold lookers, pending. rewrite Hacc. cbn. lia.
Qed.

Lemma worker_step_wake sv e sv' : wake_inv sv → worker_step sv e = Some sv' → wake_inv sv'.
Proof.
  intros [Hopen Hatt] (i & w & Hw & Hmove)%worker_step_move.
  assert (Hset : ∀ st, st ≠ w_asleep → asleep (Worker st (wk_stop w)) = false) by (by intros []).
  destruct Hmove as [s q ns Hs Hpop|q ns Hs Hpop|Hs Hpop|s r Hs|peer r evs Hs _|Hs].
  3: { apply pop_waits in Hpop as (Hc & He & _). split; cbn; rewrite ?He; [done|]. cbn. lia. }
  all: match goal with |- context [Worker ?st (wk_stop _)] =>
      destruct (set_awake sv i w (Worker st (wk_stop w)) Hw (Hset st ltac:(done))) as (He & Hle & Hl) end;
    unfold looking at 2 in Hl; rewrite Hs in Hl; cbn in Hl;
    split; unfold sleepers, lookers, pending in *; cbn.
  all: try apply pop_spec in Hpop.
  - destruct Hpop as [_ ->]. by eauto.
  - destruct Hpop as [Hq _]. rewrite Hq in Hatt. cbn in Hatt. intros Hpos.
    specialize (Hatt ltac:(lia)). lia.
  - destruct Hpop as (_ & -> & _). by eauto.
  - destruct Hpop as (Hq & -> & _). rewrite Hq. cbn. lia.
  - by eauto.
  - intros Hpos. specialize (Hatt ltac:(lia)). lia.
  - by eauto.
  - intros Hpos. specialize (Hatt ltac:(lia)). lia.
  - by eauto.
  - intros Hpos. specialize (Hatt ltac:(lia)). lia.
Qed.

Lemma reachable_wake cap n sv : reachable cap n sv → wake_inv sv.
Proof.
  induction 1 as [sv Hstart|sv e sv' _ IH Hstep].
  - unfold start_server in Hstart. inv_bind Hstart. inv_bind Hstart. inv_bind Hstart.
    injection Hstart as <-. unfold new_worker_pool in Ha1. destruct (n =? 0); [done|].
    injection Ha1 as <-. split; unfold sleepers; cbn.
    + by intros w [-> _]%elem_of_replicate.
    + rewrite total_zero; [lia|]. by intros w [-> _]%elem_of_replicate.
  - revert Hstep. unfold server_step.
    destruct (accept_step sv e) eqn:Ha; [intros [= <-]; by eapply accept_step_wake|].
    destruct (shutdown_step sv e) eqn:Hs; [intros [= <-]; by eapply shutdown_step_wake|].
    by apply worker_step_wake.
Qed.

(** ** Properties *)

Lemma reachable_workers cap n sv : reachable cap n sv → 0 < n.
Proof.
  induction 1 as [sv Hstart|]; [|done]. unfold start_server in Hstart.
  inv_bind Hstart. inv_bind Hstart. inv_bind Hstart.
  unfold new_worker_pool in Ha1. destruct (Nat.eqb_spec n 0); [done|lia].
Qed.

(** The pool keeps its size, and the limiter its limit. *)
Lemma pool_size_constant cap n sv :
  reachable cap n sv →
  pool_size (sv_workers sv) = n ∧ limiter_limit (sv_limiter sv) = max_connections_per_ip ∧
  capacity (sv_queue sv) = cap.
Proof.
  intros Hinv%reachable_inv. destruct Hinv as [[_ ?] [_ ?] _ _ ? _ _ _]. done.
Qed.

(** No permit outlives its connection. *)
Lemma limiter_empty cap n sv :
  server_inv cap n sv → inflight_peers sv = [] → inflight_by_ip (sv_limiter sv) = ∅.
Proof.
  intros [] Hnone. destruct inv_limiter0 as [(_ & He & HF) _]. apply map_empty. intros p.
  destruct (decide (p = [])) as [->|Hne]; [done|].
  specialize (inv_permits0 p Hne). rewrite Hnone in inv_permits0. unfold permits in inv_permits0.
  destruct (inflight_by_ip (sv_limiter sv) !! p) as [k|] eqn:Hp; [|done].
  apply HF in Hp. cbn in inv_permits0. lia.
Qed.

(** C7: under every schedule of the accepting thread and the workers, the queue
    holds at most its capacity, at most [n] connections are served at once, and
    no source address has more than 8 connections queued or with a worker. *)
Theorem admission_bounds cap n sv :
  reachable cap n sv →
  length (queue_sockets (sv_queue sv)) ≤ cap ∧
  length (omap serving (sv_workers sv)) ≤ n ∧
  (∀ p, p ≠ [] → occupancy p (queued_peers sv ++ served_peers sv) ≤ max_connections_per_ip).
Proof.
  intros Hinv%reachable_inv. split_and!.
  - destruct (inv_queue _ _ _ Hinv) as [[_ ?] <-]. done.
  - rewrite <- (inv_workers _ _ _ Hinv). apply length_omap_worker.
  - intros p Hp. destruct (inv_limiter _ _ _ Hinv) as [Hwf Hlim].
    pose proof (permits_bound _ p Hwf) as Hb. rewrite (inv_permits _ _ _ Hinv) in Hb by done.
    unfold inflight_peers in Hb. rewrite app_assoc, occupancy_app in Hb. lia.
Qed.

(** C26: under every schedule, the permits of an address are exactly its
    connections in flight: admitted and not yet queued, queued, with a worker
    until the end of its callback, or refused by the queue and about to be given back; an exception of a handler
    gives its permit back too.  When nothing is in flight the limiter holds no
    entry. *)
Theorem permits_exact cap n sv :
  reachable cap n sv →
  (∀ p, p ≠ [] → permits (sv_limiter sv) p = occupancy p (inflight_peers sv)) ∧
  (inflight_peers sv = [] → inflight_by_ip (sv_limiter sv) = ∅).
Proof.
  intros Hinv%reachable_inv. split; [apply Hinv|]. by eapply limiter_empty.
Qed.

(** *** The threads move *)

(** The next step of the accepting thread, when [accept] gives [r]; a notification
    finds the first worker asleep. *)
Definition acceptor_event (sv : server) (r : accept_error + socket) : event :=
  match sv_acceptor sv with
  | acc_listening => ev_accept r
  | acc_accepted _ => ev_acquire
  | acc_admitted _ => ev_push
  | acc_notifying _ => ev_notify (fst <$> list_find (λ w, asleep w = true) (sv_workers sv))
  | acc_refused _ _ => ev_release
  | acc_failed => ev_close
  | acc_stopping _ | acc_joining => ev_request_stop
  end.

(** The next step of worker [i], when [handle_connection] ends with [r]. *)
Definition worker_event (w : worker) (i : nat) (r : handler_result) : event :=
  match wk_state w with
  | w_waiting | w_asleep | w_exited => ev_pop i
  | w_serving _ => ev_served i r
  | w_served _ _ => ev_finish i
  end.

(** The accepting thread sends the notification of [try_push], and no other. *)
Definition announced (sv : server) : Prop :=
  match sv_acceptor sv with acc_notifying ns => ns = [notify_one not_empty] | _ => True end.

Lemma announced_step sv e sv' : server_step sv e = Some sv' → announced sv → announced sv'.
Proof.
  unfold announced, server_step. destruct (accept_step sv e) as [sv1|] eqn:Ha.
  - intros [= <-] _. revert Ha. unfold accept_step.
    destruct (sv_acceptor sv) as [|s|s|ns|peer r| | |], e as [[er|s']| | |wk| | | | | | |]; try done.
    + intros [= <-]. unfold handle_accept_result. by destruct (ae_fatal er).
    + by intros [= <-].
    + by destruct (try_acquire _ _) as [[] l]; intros [= <-].
    + destruct (try_push _ _) as [[[] q] ns] eqn:Hq; intros [= <-]; try done.
      by eapply try_push_notifies.
    + destruct (notify_in_turn _ _ _); [|done]. by intros [= <-].
    + by destruct r; intros [= <-].
  - destruct (shutdown_step sv e) as [sv1|] eqn:Hs.
    + intros [= <-] _. revert Hs. unfold shutdown_step.
      destruct (sv_acceptor sv) as [| | | | | |k|], e; try done.
      * by intros [= <-].
      * by destruct (sv_workers sv !! k); intros [= <-].
    + by intros (i & w & _ & Hmove)%worker_step_move; destruct Hmove.
Qed.

Lemma reachable_announced cap n sv : reachable cap n sv → announced sv.
Proof.
  induction 1 as [sv Hstart|sv e sv' _ IH Hstep]; [|by eapply announced_step].
  unfold start_server in Hstart. inv_bind Hstart. inv_bind Hstart. inv_bind Hstart.
  by injection Hstart as <-.
Qed.

(** A notification can always be sent. *)
Lemma notify_first ws :
  is_Some (notify_in_turn ws [notify_one not_empty] (fst <$> list_find (λ w, asleep w = true) ws)).
Proof.
  cbn. destruct (list_find _ ws) as [[i w]|] eqn:Hf; cbn.
  - apply list_find_Some in Hf as (-> & Hs & _). cbn. by rewrite Hs.
  - apply list_find_None in Hf. replace (existsb asleep ws) with false; [done|].
    symmetry. apply not_true_iff_false. intros (w & Hin & Hs)%existsb_exists.
    rewrite Forall_forall in Hf. by apply (Hf w); [apply list_elem_of_In|].
Qed.

(** The accepting thread can always take its next step. *)
Lemma acceptor_step sv r :
  announced sv → sv_acceptor sv ≠ acc_joining → is_Some (server_step sv (acceptor_event sv r)).
Proof.
  unfold announced, server_step, acceptor_event, accept_step, shutdown_step.
  destruct (sv_acceptor sv) as [|s|s|ns|peer x| |i|]; intros Hns; [..|done].
  - by destruct r.
  - by destruct (try_acquire _ _).
  - by destruct (try_push _ _) as [[[] q] ns].
  - subst ns. destruct (notify_first (sv_workers sv)) as [ws Hws]. by rewrite Hws.
  - done.
  - done.
  - by destruct (sv_workers sv !! i).
Qed.

(** The steps of a worker are its own. *)
Lemma server_worker_step sv w i r :
  server_step sv (worker_event w i r) = worker_step sv (worker_event w i r).
Proof.
  unfold server_step, accept_step, shutdown_step, worker_event.
  by destruct (sv_acceptor sv), (wk_state w).
Qed.

(** So can a worker, unless it is asleep or has returned. *)
Lemma worker_moves sv i w r :
  sv_workers sv !! i = Some w → wk_state w ≠ w_asleep → wk_state w ≠ w_exited →
  is_Some (server_step sv (worker_event w i r)).
Proof.
  intros Hw Hna Hne. rewrite server_worker_step. unfold worker_event, worker_step.
  destruct (wk_state w) as [| |s|peer h|] eqn:Hs; try done; rewrite Hw; cbn; rewrite Hs; try done.
  destruct (pop _ _) as [[[r0 q] ns]|] eqn:Hpop; [|done].
  rewrite (pop_notify _ _ _ _ _ _ Hpop). by destruct r0.
Qed.

(** The steps that the program takes by itself: all but the arrival of a connection
    and a wake-up that nothing caused. *)
Definition uncaused (e : event) : bool := match e with ev_wake _ => true | _ => false end.
Definition internal (e : event) : bool :=
  match e with ev_accept _ | ev_wake _ => false | _ => true end.

Lemma worker_stuck sv i w :
  (∀ e, internal e = true → server_step sv e = None) → sv_workers sv !! i = Some w →
  wk_state w = w_asleep ∨ wk_state w = w_exited.
Proof.
  intros Hstuck Hw. pose proof (worker_moves sv i w h_returned Hw) as Hmoves.
  rewrite Hstuck in Hmoves by (unfold worker_event; by destruct (wk_state w)).
  destruct (wk_state w); auto; by destruct Hmoves.
Qed.

(** *** Shutdown *)

Definition worker_weight (w : worker) : nat :=
  match wk_state w with
  | w_waiting => 1 | w_asleep => 0 | w_serving _ => 3 | w_served _ _ => 2 | w_exited => 0
  end.

(** What the workers have to do with the queued connections. *)
Definition worker_load (sv : server) : nat :=
  3 * length (queue_sockets (sv_queue sv)) + total worker_weight (sv_workers sv).

(** A bound on the steps left once the queue is closed. *)
Definition shutdown_measure (sv : server) : nat :=
  worker_load sv +
  match sv_acceptor sv with
  | acc_stopping i => S (length (sv_workers sv) - i)
  | _ => 0
  end.

(** Every move of a worker brings it closer to its end, but for such a wake-up. *)
Lemma worker_step_load sv e sv' :
  worker_step sv e = Some sv' → uncaused e = false →
  sv_acceptor sv' = sv_acceptor sv ∧ length (sv_workers sv') = length (sv_workers sv) ∧
  worker_load sv' < worker_load sv.
Proof.
  intros (i & w & Hw & Hmove)%worker_step_move Hcause.
  assert (Hload : ∀ st, total worker_weight (<[i := Worker st (wk_stop w)]> (sv_workers sv))
    + worker_weight w = total worker_weight (sv_workers sv) + worker_weight (Worker st (wk_stop w)))
    by (intros st; by apply total_insert).
  unfold worker_load.
  destruct Hmove as [s q ns Hs Hpop|q ns Hs Hpop|Hs Hpop|s r Hs|peer r evs Hs ->|Hs]; try done;
    unfold worker_weight at 2 in Hload; rewrite Hs in Hload;
    (split; [done|split; [apply length_insert|cbn]]).
  - apply pop_spec in Hpop as [-> _]. specialize (Hload (w_serving s)). cbn in *. lia.
  - apply pop_spec in Hpop as (_ & -> & _). specialize (Hload w_exited). cbn in *. lia.
  - specialize (Hload w_asleep). cbn in *. lia.
  - specialize (Hload (w_served (peer_address s) r)). cbn in *. lia.
  - specialize (Hload w_waiting). cbn in *. lia.
Qed.

(** Nobody sleeps once the queue is closed, so that nothing wakes either. *)
Lemma closed_no_wake sv i :
  wake_inv sv → queue_closed (sv_queue sv) = true → worker_step sv (ev_wake i) = None.
Proof.
  intros Hwake Hclosed. cbn. destruct (sv_workers sv !! i) as [w|] eqn:Hw; [|done]. cbn.
  destruct (asleep w) eqn:Hs; [|done].
  by rewrite (wake_open _ Hwake w (list_elem_of_lookup_2 _ _ _ Hw) Hs) in Hclosed.
Qed.

Lemma shutdown_step_measure cap n sv e sv' :
  server_inv cap n sv → wake_inv sv → shutting_down (sv_acceptor sv) = true →
  server_step sv e = Some sv' →
  shutting_down (sv_acceptor sv') = true ∧ shutdown_measure sv' < shutdown_measure sv.
Proof.
  intros Hinv Hwake Hdown.
  assert (Hclosed : queue_closed (sv_queue sv) = true) by (by rewrite (inv_closed _ _ _ Hinv)).
  assert (Hworker : worker_step sv e = Some sv' →
    shutting_down (sv_acceptor sv') = true ∧ shutdown_measure sv' < shutdown_measure sv).
  { intros Hst. assert (Hcause : uncaused e = false).
    { destruct e as [?| | |?| | | |?|? ?|?|i]; try done.
      by rewrite (closed_no_wake sv i Hwake Hclosed) in Hst. }
    destruct (worker_step_load _ _ _ Hst Hcause) as (Ha & Hlen & ?).
    unfold shutdown_measure. rewrite Ha, Hlen. split; [done|lia]. }
  unfold server_step, accept_step, shutdown_step.
  destruct (sv_acceptor sv) as [| | | | | |i|] eqn:Hacc; try done;
    destruct e as [r| | |?| | | |j|j r|j|j]; try done.
  destruct (sv_workers sv !! i) as [w|] eqn:Hw; intros [= <-]; (split; [done|]);
    unfold shutdown_measure, worker_load; cbn; rewrite Hacc; [|lia].
  assert (Hawake : asleep w = false).
  { destruct (asleep w) eqn:Hs; [|done].
    by rewrite (wake_open _ Hwake w (list_elem_of_lookup_2 _ _ _ Hw) Hs) in Hclosed. }
  rewrite (awake_wake w Hawake).
  pose proof (total_insert worker_weight _ i w (Worker (wk_state w) true) Hw) as Hs.
  change (worker_weight (Worker (wk_state w) true)) with (worker_weight w) in Hs.
  rewrite length_insert. apply lookup_lt_Some in Hw. lia.
Qed.

Lemma run_schedule_none es : foldl (λ o e, sv ← o; server_step sv e) None es = None.
Proof. by induction es. Qed.

Lemma run_schedule_cons sv e es sv' :
  run_schedule sv (e :: es) = Some sv' →
  ∃ sv1, server_step sv e = Some sv1 ∧ run_schedule sv1 es = Some sv'.
Proof.
  unfold run_schedule. cbn. destruct (server_step sv e) as [sv1|]; [by exists sv1|].
  by rewrite run_schedule_none.
Qed.

Lemma run_schedule_reachable cap n es sv sv' :
  reachable cap n sv → run_schedule sv es = Some sv' → reachable cap n sv'.
Proof.
  revert sv. induction es as [|e es IH]; intros sv Hr; [by intros [= <-]|].
  intros (sv1 & Hs & Hrun)%run_schedule_cons. apply (IH sv1); [|done]. by eapply reach_step.
Qed.

Lemma run_schedule_shutdown cap n es sv sv' :
  reachable cap n sv → shutting_down (sv_acceptor sv) = true → run_schedule sv es = Some sv' →
  shutting_down (sv_acceptor sv') = true ∧ length es + shutdown_measure sv' ≤ shutdown_measure sv.
Proof.
  revert sv. induction es as [|e es IH]; intros sv Hr Hd; [by intros [= <-]|].
  intros (sv1 & Hs & Hrun)%run_schedule_cons.
  apply (shutdown_step_measure cap n) in Hs as Hm;
    [|by apply reachable_inv|by eapply reachable_wake|done].
  destruct Hm as [Hd1 Hm]. apply IH in Hrun as [? ?]; [|by eapply reach_step|done].
  split; [done|]. simpl. lia.
Qed.

(** Nothing is queued once the pool closed the queue. *)
Lemma worker_step_queued sv e sv' : worker_step sv e = Some sv' → sv_queued sv' = sv_queued sv.
Proof. by intros (i & w & _ & Hmove)%worker_step_move; destruct Hmove. Qed.

Lemma worker_step_acceptor sv e sv' :
  worker_step sv e = Some sv' → sv_acceptor sv' = sv_acceptor sv.
Proof. by intros (i & w & _ & Hmove)%worker_step_move; destruct Hmove. Qed.

Lemma run_schedule_queued es sv sv' :
  shutting_down (sv_acceptor sv) = true → run_schedule sv es = Some sv' →
  sv_queued sv' = sv_queued sv.
Proof.
  revert sv. induction es as [|e es IH]; intros sv Hd; [by intros [= <-]|].
  intros (sv1 & Hs & Hrun)%run_schedule_cons.
  assert (shutting_down (sv_acceptor sv1) = true ∧ sv_queued sv1 = sv_queued sv) as [Hd1 <-];
    [|by apply IH].
  revert Hs. unfold server_step, accept_step, shutdown_step.
  destruct (sv_acceptor sv) as [| | | | | |i|] eqn:Hacc; try done;
    destruct e as [r| | |?| | | |j|j r|j|j]; try done;
    try (intros Hst; by rewrite (worker_step_acceptor _ _ _ Hst), Hacc, (worker_step_queued _ _ _ Hst)).
  destruct (sv_workers sv !! i); by intros [= <-].
Qed.

(** A state of the shutdown from which nothing can move by itself. *)
Lemma shutdown_stuck cap n sv :
  server_inv cap n sv → wake_inv sv → shutting_down (sv_acceptor sv) = true →
  (∀ e, uncaused e = false → server_step sv e = None) →
  sv_acceptor sv = acc_joining ∧ Forall (λ w, wk_state w = w_exited) (sv_workers sv).
Proof.
  intros Hinv Hwake Hd Hstuck. split.
  - destruct (sv_acceptor sv) as [| | | | | |i|] eqn:Hacc; try done.
    specialize (Hstuck ev_request_stop eq_refl).
    unfold server_step, accept_step, shutdown_step in Hstuck.
    rewrite Hacc in Hstuck. by destruct (sv_workers sv !! i).
  - apply Forall_lookup. intros i w Hw.
    destruct (worker_stuck sv i w) as [Hs|Hs]; [|done| |done].
    + intros e He. apply Hstuck. by destruct e.
    + apply asleep_sleeping in Hs.
      pose proof (wake_open _ Hwake w (list_elem_of_lookup_2 _ _ _ Hw) Hs) as Hopen.
      by rewrite (inv_closed _ _ _ Hinv), Hd in Hopen.
Qed.

Lemma exited_none {A} (f : worker → option A) ws :
  (∀ b, f (Worker w_exited b) = None) → Forall (λ w, wk_state w = w_exited) ws → omap f ws = [].
Proof.
  intros Hf HF. apply omap_worker_none. eapply Forall_impl; [exact HF|].
  intros [st b] Hst. cbn in Hst. by subst st.
Qed.

(** C5: when the accept loop fails, the server drains: from the moment the pool
    closes the queue, at most [shutdown_measure] steps follow whatever the
    schedule, no connection is accepted or queued any more, and when no step is
    left (but a wake-up that nothing causes) every worker has returned, every queued
    connection was taken by a worker, in the order they were queued, and no permit
    is held. *)
Theorem shutdown_drains cap n sv es sv' :
  reachable cap n sv → shutting_down (sv_acceptor sv) = true →
  run_schedule sv es = Some sv' →
  length es ≤ shutdown_measure sv ∧ sv_queued sv' = sv_queued sv ∧
  ((∀ e, uncaused e = false → server_step sv' e = None) →
     Forall (λ w, wk_state w = w_exited) (sv_workers sv') ∧ sv_taken sv' = sv_queued sv ∧
     inflight_by_ip (sv_limiter sv') = ∅).
Proof.
  intros Hr Hd Hrun. pose proof (run_schedule_reachable _ _ _ _ _ Hr Hrun) as Hr'.
  apply reachable_workers in Hr as Hn.
  destruct (run_schedule_shutdown _ _ _ _ _ Hr Hd Hrun) as [Hd' Hm].
  apply reachable_wake in Hr' as Hwake. apply reachable_inv in Hr, Hr'.
  pose proof (run_schedule_queued es sv sv' Hd Hrun) as Hq.
  split; [lia|split; [done|]]. intros Hstuck.
  destruct (shutdown_stuck _ _ _ Hr' Hwake Hd' Hstuck) as [Hj HF]. split; [done|].
  destruct (lookup_lt_is_Some_2 (sv_workers sv') 0) as [w Hw];
    [by rewrite (inv_workers _ _ _ Hr')|].
  destruct (inv_exited _ _ _ Hr' w) as [_ Hempty];
    [by eapply list_elem_of_lookup_2|by eapply Forall_lookup_1 in HF|].
  pose proof (inv_history _ _ _ Hr') as Hh. rewrite Hempty, app_nil_r in Hh. split; [congruence|].
  apply (limiter_empty cap n); [done|].
  unfold inflight_peers, queued_peers, served_peers, admitted_peers.
  by rewrite Hempty, (exited_none worker_peer _ ltac:(done) HF), Hj.
Qed.

(** *** Progress *)

Definition is_pop (e : event) : bool := match e with ev_pop _ => true | _ => false end.

Definition pops (es : list event) : nat := length (filter is_pop es).

(** What the steps do to the records of the queue. *)
Lemma accept_step_records sv e sv' :
  accept_step sv e = Some sv' →
  sv_queued sv `prefix_of` sv_queued sv' ∧ sv_taken sv' = sv_taken sv ∧ is_pop e = false.
Proof.
  unfold accept_step.
  destruct (sv_acceptor sv) as [|s|s|ns|peer r| | |], e as [[er|s']| | |wk| | | | | | |]; try done.
  - intros [= <-]. unfold handle_accept_result. by destruct (ae_fatal er).
  - by intros [= <-].
  - by destruct (try_acquire _ _) as [[] l]; intros [= <-].
  - destruct (try_push _ _) as [[[] q] ns]; intros [= <-]; cbn; split; try done. by apply prefix_app_r.
  - destruct (notify_in_turn _ _ _); [|done]. by intros [= <-].
  - by destruct r; intros [= <-].
Qed.

Lemma shutdown_step_records sv e sv' :
  shutdown_step sv e = Some sv' →
  sv_queued sv' = sv_queued sv ∧ sv_taken sv' = sv_taken sv ∧ is_pop e = false.
Proof.
  unfold shutdown_step. destruct (sv_acceptor sv) as [| | | | | |k|], e; try done.
  - by intros [= <-].
  - by destruct (sv_workers sv !! k); intros [= <-].
Qed.

Lemma worker_step_records sv e sv' :
  worker_step sv e = Some sv' →
  sv_queued sv' = sv_queued sv ∧
  sv_taken sv' = sv_taken sv ++ (if is_pop e then take 1 (queue_sockets (sv_queue sv)) else []).
Proof.
  intros (i & w & _ & Hmove)%worker_step_move.
  destruct Hmove as [s q ns _ Hpop|q ns _ Hpop|_ Hpop|s r _|peer r evs _ _|_]; cbn;
    rewrite ?app_nil_r; try done.
  - by apply pop_spec in Hpop as [-> _].
  - apply pop_spec in Hpop as (-> & _). by rewrite app_nil_r.
  - apply pop_waits in Hpop as (_ & -> & _). by rewrite app_nil_r.
Qed.

Lemma server_step_records sv e sv' :
  server_step sv e = Some sv' →
  sv_queued sv `prefix_of` sv_queued sv' ∧
  sv_taken sv' = sv_taken sv ++ (if is_pop e then take 1 (queue_sockets (sv_queue sv)) else []).
Proof.
  unfold server_step. destruct (accept_step sv e) as [sv1|] eqn:Ha.
  { intros [= <-]. apply accept_step_records in Ha as (? & -> & ->). by rewrite app_nil_r. }
  destruct (shutdown_step sv e) as [sv1|] eqn:Hs.
  { intros [= <-]. apply shutdown_step_records in Hs as (-> & -> & ->). by rewrite app_nil_r. }
  by intros [-> ->]%worker_step_records.
Qed.

(** A schedule takes a queued connection with each of its pops, while there is one. *)
Lemma run_schedule_records cap n es sv sv' :
  server_inv cap n sv → run_schedule sv es = Some sv' →
  sv_queued sv `prefix_of` sv_queued sv' ∧ sv_taken sv' `prefix_of` sv_queued sv' ∧
  length (sv_queued sv) `min` (length (sv_taken sv) + pops es) ≤ length (sv_taken sv').
Proof.
  revert sv. induction es as [|e es IH]; intros sv Hinv.
  - intros [= <-]. pose proof (inv_history _ _ _ Hinv) as Hh. split; [done|split].
    + rewrite Hh. by apply prefix_app_r.
    + unfold pops. cbn. lia.
  - intros (sv1 & Hst & Hrun)%run_schedule_cons.
    destruct (server_step_records _ _ _ Hst) as [Hq Ht].
    destruct (IH sv1 (server_step_inv _ _ _ _ _ Hinv Hst) Hrun) as (Hq1 & Hp & Hlen).
    split; [by etrans|split; [done|]].
    pose proof (prefix_length _ _ Hq). pose proof (inv_history _ _ _ Hinv) as Hh.
    rewrite Ht, length_app in Hlen. apply (f_equal length) in Hh. rewrite length_app in Hh.
    unfold pops in *. rewrite filter_cons. destruct e; cbn [is_pop] in *; case_decide; try done; cbn in *; try lia.
    rewrite length_take in Hlen. lia.
Qed.

Lemma prefix_shorter {A} (l1 l2 l : list A) :
  l1 `prefix_of` l → l2 `prefix_of` l → length l1 ≤ length l2 → l1 `prefix_of` l2.
Proof.
  intros H1 H2 Hlen. destruct (prefix_weak_total l1 l2 l H1 H2) as [|H]; [done|].
  by rewrite (prefix_length_eq _ _ H Hlen).
Qed.

(** The steps that are left until the server is quiet, at most: those of the
    workers, and those of the accepting thread with the wake-ups they cause. *)
Definition acceptor_work (sv : server) : nat :=
  let n := length (sv_workers sv) in
  match sv_acceptor sv with
  | acc_accepted _ => n + 6
  | acc_admitted _ => n + 5
  | acc_notifying _ => n + 1
  | acc_refused _ _ => 1
  | acc_failed => 3 * n + 2
  | acc_stopping i => 2 * (n - i) + 1
  | acc_listening | acc_joining => 0
  end.

Definition work_left (sv : server) : nat := worker_load sv + acceptor_work sv.

Lemma wake_weight w : worker_weight (wake w) ≤ S (worker_weight w).
Proof. unfold wake, asleep, worker_weight. destruct (wk_state w) eqn:Hs; cbn; rewrite ?Hs; lia. Qed.

Lemma wakes_weight ws ws' :
  wakes ws ws' → total worker_weight ws' ≤ total worker_weight ws + length ws.
Proof.
  induction 1 as [|w w' ws ws' Hw _ IH]; simpl; [done|]. pose proof (wake_weight w).
  destruct Hw as [->| ->]; lia.
Qed.

Lemma accept_step_work sv e sv' :
  accept_step sv e = Some sv' → internal e = true → work_left sv' < work_left sv.
Proof.
  unfold accept_step, work_left, worker_load, acceptor_work.
  destruct (sv_acceptor sv) as [|s|s|ns|peer r| | |], e as [?| | |wk| | | | | | |]; try done; cbn [internal].
  - destruct (try_acquire _ _) as [[] l]; intros [= <-] _; cbn; lia.
  - destruct (try_push _ _) as [[[] q] ns] eqn:Hq; intros [= <-] _; apply try_push_spec in Hq; cbn;
      [destruct Hq as (_ & _ & ->); cbn; rewrite length_app; cbn
      |destruct Hq as (_ & _ & ->)|destruct Hq as (_ & ->)]; lia.
  - destruct (notify_in_turn _ _ _) as [ws|] eqn:Hws; [|done]. intros [= <-] _. cbn.
    apply notify_in_turn_wakes in Hws. pose proof (wakes_weight _ _ Hws). lia.
  - destruct r; intros [= <-] _; cbn; lia.
Qed.

Lemma shutdown_step_work sv e sv' : shutdown_step sv e = Some sv' → work_left sv' < work_left sv.
Proof.
  unfold shutdown_step, work_left, worker_load, acceptor_work.
  destruct (sv_acceptor sv) as [| | | | | |i|], e; try done.
  - intros [= <-]. cbn. rewrite length_fmap.
    assert (Hws : wakes (sv_workers sv) (wake <$> sv_workers sv))
      by (by apply (notify_wakes _ (notify_all not_empty) None)).
    pose proof (wakes_weight _ _ Hws). lia.
  - destruct (sv_workers sv !! i) as [w|] eqn:Hw; intros [= <-]; cbn; [|lia].
    rewrite length_insert. apply lookup_lt_Some in Hw as Hi.
    pose proof (total_insert worker_weight _ i w (Worker (wk_state (wake w)) true) Hw) as Ht.
    change (worker_weight (Worker (wk_state (wake w)) true)) with (worker_weight (wake w)) in Ht.
    pose proof (wake_weight w). lia.
Qed.

Lemma server_step_work sv e sv' :
  server_step sv e = Some sv' → internal e = true → work_left sv' < work_left sv.
Proof.
  unfold server_step. destruct (accept_step sv e) as [sv1|] eqn:Ha.
  { intros [= <-]. by apply accept_step_work. }
  destruct (shutdown_step sv e) as [sv1|] eqn:Hs.
  { intros [= <-] _. by eapply shutdown_step_work. }
  intros Hw He. destruct (worker_step_load _ _ _ Hw) as (Hacc & Hlen & ?); [by destruct e|].
  unfold work_left, acceptor_work. rewrite Hacc, Hlen. lia.
Qed.

Lemma run_schedule_work es sv sv' :
  Forall (λ e, internal e = true) es → run_schedule sv es = Some sv' →
  length es + work_left sv' ≤ work_left sv.
Proof.
  intros Hes. revert sv. induction Hes as [|e es He _ IH]; intros sv; [by intros [= <-]|].
  intros (sv1 & Hs%server_step_work & Hrun%IH)%run_schedule_cons; [|done]. simpl. lia.
Qed.

(** A server that only waits for connections, or has stopped, has served all it took in. *)
Lemma quiet_served cap n sv :
  reachable cap n sv → (∀ e, internal e = true → server_step sv e = None) →
  queue_sockets (sv_queue sv) = [] ∧ inflight_peers sv = [] ∧
  Forall (λ w, wk_state w = w_asleep ∨ wk_state w = w_exited) (sv_workers sv).
Proof.
  intros Hr Hstuck. pose proof (reachable_workers _ _ _ Hr) as Hn.
  pose proof (reachable_wake _ _ _ Hr) as Hwake. pose proof (reachable_inv _ _ _ Hr) as Hinv.
  assert (HF : Forall (λ w, wk_state w = w_asleep ∨ wk_state w = w_exited) (sv_workers sv))
    by (apply Forall_lookup; intros i w; by apply worker_stuck).
  assert (Hacc : sv_acceptor sv = acc_listening ∨ sv_acceptor sv = acc_joining).
  { pose proof (acceptor_step sv (inl (AcceptError EBADF false)) (reachable_announced _ _ _ Hr)) as Hstep.
    destruct (sv_acceptor sv) eqn:Ha; auto; exfalso; (destruct Hstep as [sv' Hst]; [done|]);
      rewrite Hstuck in Hst by (unfold acceptor_event; by rewrite Ha); done. }
  assert (Hq : queue_sockets (sv_queue sv) = []).
  { destruct (lookup_lt_is_Some_2 (sv_workers sv) 0) as [w Hw]; [by rewrite (inv_workers _ _ _ Hinv)|].
    pose proof (list_elem_of_lookup_2 _ _ _ Hw) as Hin.
    destruct (Forall_lookup_1 _ _ _ _ HF Hw) as [Hs|Hs]; [|by apply (inv_exited _ _ _ Hinv w)].
    apply length_zero_iff_nil. pose proof (wake_attended _ Hwake) as Hatt.
    assert (Hlook : lookers sv = 0).
    { apply total_zero. intros x Hx. rewrite Forall_forall in HF. unfold looking.
      by destruct (HF x Hx) as [-> | ->]. }
    assert (Hpend : pending sv = 0) by (unfold pending; by destruct Hacc as [->| ->]).
    assert (0 < sleepers sv).
    { pose proof (total_pos sleeping _ w Hin) as Ht. unfold sleeping at 1 in Ht. by rewrite Hs in Ht. }
    lia. }
  split; [done|split; [|done]]. unfold inflight_peers, queued_peers, served_peers, admitted_peers.
  rewrite Hq, omap_worker_none.
  - by destruct Hacc as [->| ->].
  - eapply Forall_impl; [exact HF|]. intros w Hw. unfold worker_peer. by destruct Hw as [->| ->].
Qed.

(** C6: the server makes progress under every schedule, and no wake-up is lost.
    The accepting thread can always take its next step, however busy the workers and
    the queue are.  As long as a connection is queued, no worker has returned, each
    that is not asleep can take its next step, and if one sleeps there are at least
    as many workers about to look at the queue, or notifications about to be sent,
    as connections in it.  While nothing arrives and no worker is woken without a
    cause, the steps come to an end after at most [work_left], and then every worker
    sleeps or has returned, every queued connection has been taken and served, and
    no permit is held.  And a connection with [k] others before it in the queue is
    taken at the latest by pop number [k + 1], whichever workers pop and whatever
    else happens. *)
Theorem server_progress cap n sv :
  reachable cap n sv →
  (∀ r, sv_acceptor sv ≠ acc_joining → is_Some (server_step sv (acceptor_event sv r))) ∧
  (queue_sockets (sv_queue sv) ≠ [] → ∀ i w r, sv_workers sv !! i = Some w →
     wk_state w ≠ w_exited ∧
     (wk_state w ≠ w_asleep → is_Some (server_step sv (worker_event w i r))) ∧
     (wk_state w = w_asleep → length (queue_sockets (sv_queue sv)) ≤ lookers sv + pending sv)) ∧
  (∀ es sv', Forall (λ e, internal e = true) es → run_schedule sv es = Some sv' →
     length es ≤ work_left sv ∧
     ((∀ e, internal e = true → server_step sv' e = None) →
        Forall (λ w, wk_state w = w_asleep ∨ wk_state w = w_exited) (sv_workers sv') ∧
        sv_taken sv' = sv_queued sv' ∧ inflight_by_ip (sv_limiter sv') = ∅)) ∧
  (∀ es sv' before s after,
     queue_sockets (sv_queue sv) = before ++ s :: after → run_schedule sv es = Some sv' →
     length before < pops es → sv_taken sv ++ before ++ [s] `prefix_of` sv_taken sv').
Proof.
  intros Hr. pose proof (reachable_inv _ _ _ Hr) as Hinv. split; [|split; [|split]].
  - intros r. apply acceptor_step. by eapply reachable_announced.
  - intros Hq i w r Hw. pose proof (list_elem_of_lookup_2 _ _ _ Hw) as Hin.
    assert (Hne : wk_state w ≠ w_exited) by (intros He; by destruct (inv_exited _ _ _ Hinv w Hin He)).
    split; [done|split; [intros Hna; by apply worker_moves|]]. intros Hs.
    apply (wake_attended _ (reachable_wake _ _ _ Hr)).
    pose proof (total_pos sleeping _ w Hin) as Ht. unfold sleeping at 1 in Ht. by rewrite Hs in Ht.
  - intros es sv' Hes Hrun. pose proof (run_schedule_reachable _ _ _ _ _ Hr Hrun) as Hr'.
    split; [pose proof (run_schedule_work _ _ _ Hes Hrun); lia|]. intros Hstuck.
    destruct (quiet_served _ _ _ Hr' Hstuck) as (Hq & Hin & HF). apply reachable_inv in Hr'.
    split; [done|split; [|by eapply limiter_empty]].
    by rewrite (inv_history _ _ _ Hr'), Hq, app_nil_r.
  - intros es sv' before s after Hq Hrun Hpops.
    destruct (run_schedule_records _ _ _ _ _ Hinv Hrun) as (Hp & Ht & Hlen).
    pose proof (inv_history _ _ _ Hinv) as Hh. rewrite Hq in Hh.
    apply (prefix_shorter _ _ (sv_queued sv')); [|done|].
    + etrans; [|exact Hp]. rewrite Hh. exists after. by rewrite <- !app_assoc.
    + rewrite Hh in Hlen. rewrite !length_app in *. simpl in *. lia.
Qed.

(** *** The share of one address *)

(** A state in which [k] workers serve connections of [p] and the others wait. *)
Definition held_by (p : bytes) (n k : nat) : list worker :=
  ((λ i, Worker (w_serving (Socket (Z.of_nat i) p)) false) <$> seq 0 k) ++ start_workers (n - k).

Lemma held_peers p n k : omap worker_peer (held_by p n k) = replicate k p.
Proof.
  unfold held_by. rewrite omap_app, omap_waiting, app_nil_r by done.
  generalize 0 as a. induction k as [|k IH]; intros a; [done|]. cbn. f_equal. apply IH.
Qed.

Lemma occupancy_replicate p k : occupancy p (replicate k p) = k.
Proof. induction k as [|k IH]; [done|]. cbn [replicate]. rewrite occupancy_cons, decide_True, IH; done. Qed.

Lemma held_insert p n k :
  k < n → <[k := Worker (w_serving (Socket (Z.of_nat k) p)) false]> (held_by p n k) = held_by p n (S k).
Proof.
  intros Hk. unfold held_by, start_workers.
  rewrite insert_app_r_alt by (rewrite length_fmap, length_seq; lia).
  rewrite length_fmap, length_seq, Nat.sub_diag, seq_S, fmap_app, <- app_assoc. f_equal.
  replace (n - k) with (S (n - S k)) by lia. done.
Qed.

Lemma held_waiting p n k : k < n → held_by p n k !! k = Some (Worker w_waiting false).
Proof.
  intros Hk. unfold held_by, start_workers.
  rewrite lookup_app_r by (rewrite length_fmap, length_seq; lia).
  rewrite length_fmap, length_seq, Nat.sub_diag. by replace (n - k) with (S (n - S k)) by lia.
Qed.

Lemma held_awake p n k : existsb asleep (held_by p n k) = false.
Proof.
  unfold held_by, start_workers. rewrite existsb_app. apply orb_false_iff. split.
  - generalize 0 as a. induction k as [|k IH]; intros a; [done|]. cbn. apply IH.
  - by induction (n - k).
Qed.

(** One more connection of the address: accepted, admitted, queued and taken. *)
Lemma hold_one_more cap n p k sv :
  p ≠ [] → k < n → k < max_connections_per_ip →
  reachable cap n sv → sv_acceptor sv = acc_listening →
  sv_queue sv = WorkQueue cap [] false → sv_workers sv = held_by p n k →
  ∃ sv', reachable cap n sv' ∧ sv_acceptor sv' = acc_listening ∧
    sv_queue sv' = WorkQueue cap [] false ∧ sv_workers sv' = held_by p n (S k).
Proof.
  intros Hp Hn Hk Hr Hacc Hq Hw. set (s := Socket (Z.of_nat k) p).
  pose proof (reachable_inv _ _ _ Hr) as [[Hcap _] [Hwf Hlim] Hperm _ _ _ _ _].
  assert (Hadmit : ∃ l, try_acquire (sv_limiter sv) p = (true, l)).
  { destruct (try_acquire (sv_limiter sv) p) as [[] l] eqn:Ha; [by exists l|].
    apply try_acquire_false in Ha as (_ & _ & Hfull); [|done].
    rewrite Hperm, Hlim in Hfull by done.
    unfold inflight_peers, queued_peers, served_peers, admitted_peers in Hfull.
    rewrite Hq, Hacc, Hw, held_peers, app_nil_r in Hfull. cbn [queue_sockets fmap list_fmap app] in Hfull.
    rewrite occupancy_replicate in Hfull. lia. }
  destruct Hadmit as [l Hadmit]. rewrite Hq in Hcap. destruct Hcap as [Hcap _]. cbn in Hcap.
  assert (Hrun : ∃ sv', run_schedule sv [ev_accept (inr s); ev_acquire; ev_push; ev_pop k;
      ev_notify None] = Some sv' ∧
    sv_acceptor sv' = acc_listening ∧ sv_queue sv' = WorkQueue cap [] false ∧
    sv_workers sv' = held_by p n (S k)).
  { destruct sv as [q lim a ws evs qd tk]. cbn in *. subst q a ws.
    eexists. unfold run_schedule. cbn -[server_step].
    unfold server_step at 5. cbn -[server_step try_acquire held_by].
    unfold server_step at 4. cbn -[server_step try_acquire held_by]. rewrite Hadmit.
    unfold server_step at 3. cbn -[server_step held_by Nat.leb].
    unfold try_push. cbn -[server_step held_by Nat.leb]. rewrite (proj2 (Nat.leb_gt cap 0)) by lia.
    unfold server_step at 2. cbn -[server_step held_by existsb]. rewrite held_waiting by done.
    cbn -[server_step held_by existsb]. unfold server_step. cbn -[held_by existsb].
    pose proof (held_insert p n k Hn) as Hins. fold s in Hins. rewrite Hins, held_awake. cbn -[held_by].
    done. }
  destruct Hrun as (sv' & Hrun & Ha' & Hq' & Hw'). exists sv'.
  split; [by eapply run_schedule_reachable|]. split; [done|]. split; [done|].
  exact Hw'.
Qed.

Lemma hold_workers cap n p k :
  0 < cap → 0 < n → p ≠ [] → k ≤ n → k ≤ max_connections_per_ip →
  ∃ sv, reachable cap n sv ∧ sv_acceptor sv = acc_listening ∧
    sv_queue sv = WorkQueue cap [] false ∧ sv_workers sv = held_by p n k.
Proof.
  intros Hcap Hn Hp. induction k as [|k IH]; intros Hk Hmax.
  - assert (Hs : start_server cap n = Ret (Server (WorkQueue cap [] false)
      (IpLimiter max_connections_per_ip ∅) acc_listening (start_workers n) [] [] [])).
    { unfold start_server, new_work_queue, new_worker_pool. cbn.
      rewrite (proj2 (Nat.eqb_neq cap 0)), (proj2 (Nat.eqb_neq n 0)) by lia. done. }
    eexists. split; [by apply reach_start|]. split; [done|]. split; [done|].
    unfold held_by. cbn. by rewrite Nat.sub_0_r.
  - destruct IH as (sv & Hr & Ha & Hq & Hw); [lia|lia|].
    by apply (hold_one_more cap n p k sv).
Qed.

(** C8: the share of the workers that one address can get, exactly: under no
    schedule does it hold more than 8 of them, or than there are; and there is a
    schedule under which it holds that many.  So one client can keep every worker
    busy when there are at most 8 workers, and cannot when there are more. *)
Theorem client_share cap n p :
  0 < cap → 0 < n → p ≠ [] →
  (∀ sv, reachable cap n sv → occupancy p (served_peers sv) ≤ n `min` max_connections_per_ip) ∧
  (∃ sv, reachable cap n sv ∧ occupancy p (served_peers sv) = n `min` max_connections_per_ip).
Proof.
  intros Hcap Hn Hp. split.
  - intros sv Hinv%reachable_inv. apply Nat.min_glb.
    + rewrite <- (inv_workers _ _ _ Hinv). etrans; [|apply (length_omap_worker worker_peer)].
      apply length_filter.
    + destruct (inv_limiter _ _ _ Hinv) as [Hwf Hlim].
      pose proof (permits_bound _ p Hwf) as Hb. rewrite (inv_permits _ _ _ Hinv) in Hb by done.
      unfold inflight_peers in Hb. rewrite !occupancy_app in Hb. lia.
  - destruct (hold_workers cap n p (n `min` max_connections_per_ip)) as (sv & Hr & _ & _ & Hw);
      [done|done|done|lia|lia|].
    exists sv. split; [exact Hr|]. unfold served_peers. by rewrite Hw, held_peers, occupancy_replicate.
Qed.

(** A server with one worker: it sleeps until the first connection is announced; a
    second one of the same address is still queued when the listener fails. *)
Definition sample_start : server :=
  Server (WorkQueue 2 [] false) (IpLimiter max_connections_per_ip ∅) acc_listening
    [Worker w_waiting false] [] [] [].

Definition sample_schedule : list event :=
  [ev_pop 0; ev_accept (inr (Socket 5 "10.0.0.1")); ev_acquire; ev_push; ev_notify (Some 0); ev_pop 0;
   ev_accept (inr (Socket 6 "10.0.0.1")); ev_acquire; ev_push; ev_notify None;
   ev_accept (inl (AcceptError EBADF true)); ev_close].

Definition sample_drain : list event :=
  [ev_request_stop; ev_served 0 (h_exception "reset"); ev_finish 0; ev_pop 0; ev_request_stop;
   ev_served 0 h_returned; ev_finish 0; ev_pop 0].

(** The server at work, up to the first connection, asleep and still to be told. *)
Definition sample_arrival : list event := take 4 sample_schedule.

Definition sample_service : list event :=
  [ev_notify (Some 0); ev_pop 0; ev_served 0 h_returned; ev_finish 0; ev_pop 0].

Definition state_after (es : list event) : server :=
  default sample_start (run_schedule sample_start es).

Lemma sample_reachable es :
  is_Some (run_schedule sample_start es) → reachable 2 1 (state_after es).
Proof.
  intros [sv Hsv]. unfold state_after. rewrite Hsv.
  eapply run_schedule_reachable; [|exact Hsv]. by apply reach_start.
Qed.

Lemma admission_bounds_witness :
  length (queue_sockets (sv_queue (state_after sample_schedule))) ≤ 2 ∧
  length (omap serving (sv_workers (state_after sample_schedule))) ≤ 1 ∧
  (∀ p, p ≠ [] → occupancy p (queued_peers (state_after sample_schedule)
     ++ served_peers (state_after sample_schedule)) ≤ max_connections_per_ip).
Proof.
  apply (admission_bounds 2 1). apply sample_reachable. vm_compute. by eexists.
Defined.

Lemma permits_exact_witness :
  permits (sv_limiter (state_after sample_schedule)) "10.0.0.1" = 2.
Proof.
  destruct (permits_exact 2 1 (state_after sample_schedule)) as [H _].
  - apply sample_reachable. vm_compute. by eexists.
  - rewrite H by done. vm_compute. reflexivity.
Defined.

Lemma shutdown_drains_witness :
  sv_taken (state_after (sample_schedule ++ sample_drain))
  = [Socket 5 "10.0.0.1"; Socket 6 "10.0.0.1"].
Proof.
  destruct (shutdown_drains 2 1 (state_after sample_schedule) sample_drain
    (state_after (sample_schedule ++ sample_drain))) as (_ & _ & H).
  - apply sample_reachable. vm_compute. by eexists.
  - vm_compute. reflexivity.
  - vm_compute. reflexivity.
  - destruct H as (_ & H & _); [|rewrite H; vm_compute; reflexivity].
    intros [[]| | |wk| | | |i|i r|i|i] Hcause; try (vm_compute; reflexivity); try done;
      by destruct i as [|[|i]].
Defined.

(** A connection is announced to the sleeping worker, which serves it; and the second
    of two is taken by the second pop, after the first was served. *)
Lemma server_progress_witness :
  (length sample_service ≤ work_left (state_after sample_arrival) ∧
   sv_taken (state_after (sample_arrival ++ sample_service)) = [Socket 5 "10.0.0.1"]) ∧
  [Socket 5 "10.0.0.1"; Socket 6 "10.0.0.1"] `prefix_of` sv_taken (state_after
     (sample_schedule ++ sample_drain)).
Proof.
  split.
  - destruct (server_progress 2 1 (state_after sample_arrival)) as (_ & _ & H & _).
    + apply sample_reachable. vm_compute. by eexists.
    + destruct (H sample_service (state_after (sample_arrival ++ sample_service))) as [Hlen Hquiet].
      * repeat constructor.
      * vm_compute. reflexivity.
      * split; [exact Hlen|]. destruct Hquiet as (_ & Ht & _); [|rewrite Ht; vm_compute; reflexivity].
        intros [[]| | |wk| | | |i|i r|i|i] Hint; try (vm_compute; reflexivity); try done;
          by destruct i as [|[|i]].
  - destruct (server_progress 2 1 (state_after sample_schedule)) as (_ & _ & _ & H).
    + apply sample_reachable. vm_compute. by eexists.
    + apply (H sample_drain _ [] (Socket 6 "10.0.0.1") []); [|vm_compute; reflexivity|vm_compute; lia].
      vm_compute. reflexivity.
Defined.

(** Four workers, the fallback of the command line: all of them can be busy with one address. *)
Lemma client_share_witness :
  ∃ sv, reachable 256 4 sv ∧ occupancy "10.0.0.1" (served_peers sv) = 4.
Proof. apply (client_share 256 4 "10.0.0.1"); [lia|lia|done]. Defined.
