(* ===== verification/ConnectionHandler.v ===== *)
(** * One connection ([src/app/connection_handler.cpp])

    A worker serves one connection at a time: it prepares the stream, then reads,
    handles and answers requests until the connection ends.  The request handler
    (the pipeline) runs over a world [W]; the stream is any [NetStream]; the
    calls on the diagnostics and the access log, and the responses given to
    [send_all], are kept as a trace.  The readings of the two clocks are given by
    an oracle: the [n]-th reading is its value at [n]. *)

From S2P Require Import Prelude.
From S2P Require Import StringView.
From S2P Require Import HttpHeader.
From S2P Require Import HttpRequest.
From S2P Require Import HttpResponse.
From S2P Require Import Net.
From S2P Require Import HttpFraming.

(** ** What a connection leaves behind *)

(** [access_record]: the timestamp is in nanoseconds since the epoch, the elapsed
    time in microseconds. *)
Record access_record := AccessRecord {
  ar_timestamp : Z;
  ar_client_ip : bytes;
  ar_method : bytes;
  ar_target : bytes;
  ar_version : bytes;
  ar_status : Z;
  ar_response_bytes : nat;
  ar_elapsed : Z;
}.

(** [std::chrono::system_clock::now] and [std::chrono::steady_clock::now], in
    nanoseconds. *)
Record clocks := Clocks { system_clock : nat → Z; steady_clock : nat → Z }.

Inductive trace_event :=
  | tr_error (stage detail : bytes)
  | tr_access (record : access_record)
  | tr_send (resp : response) (policy : connection_policy) (st : IoStatus.t).

(** [garcon::config]: [socket_io_timeout] and [keep_alive_idle_timeout], in
    milliseconds. *)
Definition io_timeout : Z := 5000.
Definition keep_alive_idle_timeout : Z := 15000.

Definition bad_request_response : response :=
  text 400 "Bad Request" ("bad request" ++ ["010"%char]).
Definition request_timeout_response : response :=
  text 408 "Request Timeout" ("request timeout" ++ ["010"%char]).
Definition too_large_response : response :=
  text 431 "Request Header Fields Too Large" ("request header too large" ++ ["010"%char]).

(** The record [log_access] builds. *)
Definition make_record (timestamp : Z) (client_ip : bytes) (req : option request) (resp : response)
    (wire_bytes : nat) (elapsed : Z) : access_record :=
  AccessRecord timestamp client_ip
    (match req with Some r => method r | None => "-" end)
    (match req with Some r => target r | None => "-" end)
    (match req with Some r => version_string r | None => "HTTP/1.1" end)
    (status resp) wire_bytes (Z.quot elapsed 1000).

(** The policy a request asks for. *)
Definition policy_of (keep : bool) : connection_policy := if keep then keep_alive else close.

Definition hsts_name : bytes := "Strict-Transport-Security".
Definition hsts_value : bytes := "max-age=31536000".

Section Connection.
Context {S : Type} `{!NetStream S} {W : Type}.
(** [connection_handler]'s members; the text of [std::out_of_range] is left to
    the library. *)
Context (clk : clocks).
Context (https_enabled : bool) (request_handler : request → prog W response).
Context (out_of_range_what : bytes).

Record connection := Connection {
  cn_stream : S;
  cn_world : W;
  cn_trace : list trace_event;
  cn_clock : nat;
}.

Definition conn (A : Type) : Type := prog connection A.

Definition emit (e : trace_event) : conn unit := λ c,
  (Ret tt, Connection (cn_stream c) (cn_world c) (cn_trace c ++ [e]) (cn_clock c)).

Definition on_connection_error (stage detail : bytes) : conn unit := emit (tr_error stage detail).

(** Calls on the stream. *)
Definition stream_set (f : S → bool * S) : conn bool := λ c,
  let '(b, s) := f (cn_stream c) in (Ret b, Connection s (cn_world c) (cn_trace c) (cn_clock c)).

Definition stream_call {A} (f : S → outcome (A * S)) : conn A := λ c,
  match f (cn_stream c) with
  | Ret (a, s) => (Ret a, Connection s (cn_world c) (cn_trace c) (cn_clock c))
  | Throw e => (Throw e, c)
  | Undef => (Undef, c)
  | Diverge => (Diverge, c)
  end.

Definition call_handler (req : request) : conn response := λ c,
  let '(r, w) := request_handler req (cn_world c) in
  (r, Connection (cn_stream c) w (cn_trace c) (cn_clock c)).

(** A reading of a clock. *)
Definition read_clock (clock : nat → Z) : conn Z := λ c,
  (Ret (clock (cn_clock c)), Connection (cn_stream c) (cn_world c) (cn_trace c) (Datatypes.S (cn_clock c))).

(** [prepare_stream] *)
Definition prepare_stream : conn bool :=
  received ← stream_set (set_receive_timeout io_timeout);
  configured ← (if (received : bool) then stream_set (set_send_timeout io_timeout) else mret false);
  if negb configured then
    _ ← on_connection_error "configure-stream" "failed to apply socket timeouts"; mret false
  else
    st ← stream_call handshake;
    match st with
    | IoStatus.ok => mret true
    | IoStatus.timeout => _ ← on_connection_error "handshake" "handshake timed out"; mret false
    | IoStatus.error => _ ← on_connection_error "handshake" "handshake failed"; mret false
    | IoStatus.closed => mret false
    end.

(** [send_response] of a serialized response. *)
Definition send_response (resp : response) (policy : connection_policy) : conn bool :=
  st ← stream_call (send_all (serialize resp policy));
  _ ← emit (tr_send resp policy st);
  match st with
  | IoStatus.ok | IoStatus.closed => mret true
  | IoStatus.timeout =>
      _ ← on_connection_error "write-response" "response write timed out"; mret false
  | IoStatus.error =>
      _ ← on_connection_error "write-response" "response write failed"; mret false
  end.

Definition log_access (client_ip : bytes) (req : option request) (resp : response)
    (wire_bytes : nat) (elapsed : Z) : conn unit :=
  timestamp ← read_clock (system_clock clk);
  emit (tr_access (make_record timestamp client_ip req resp wire_bytes elapsed)).

(** The error branches: log, send with [close], and leave the loop. *)
Definition reply_and_close (client_ip : bytes) (resp : response) : conn bool :=
  started ← read_clock (steady_clock clk);
  finished ← read_clock (steady_clock clk);
  _ ← log_access client_ip None resp (length (serialize resp close)) (finished - started)%Z;
  _ ← send_response resp close;
  mret false.

Definition read_header : conn (expected bytes HeaderReadError.t * buffer) :=
  stream_call (λ s,
    '(r, s, b) ← read_header_block s empty_buffer max_request_header_bytes; Ret (r, b, s)).

(** The HSTS branch. *)
Definition apply_hsts (resp : response) : outcome response :=
  if https_enabled && negb (bool_decide (is_Some (response_find_header resp hsts_name)))
  then set_header resp hsts_name hsts_value
  else Ret resp.

(** One pass through the [for (;;)] of [handle_connection]: does it loop? *)
Definition serve_request (client_ip : bytes) (first_request : bool) : conn bool :=
  configured ← stream_set
    (set_receive_timeout (if first_request then io_timeout else keep_alive_idle_timeout));
  if negb configured then
    _ ← on_connection_error "configure-stream" "failed to update receive timeout"; mret false
  else
  '(header, b) ← read_header;
  match header with
  | Unexpected HeaderReadError.timeout =>
      if negb first_request && bytes_eqb (as_string_view b) [] then mret false
      else reply_and_close client_ip request_timeout_response
  | Unexpected HeaderReadError.too_large => reply_and_close client_ip too_large_response
  | Unexpected HeaderReadError.closed => mret false
  | Unexpected HeaderReadError.io_error =>
      _ ← on_connection_error "read-header" "request read failed"; mret false
  | Expect block =>
      parsed ← lift (parse block);
      match parsed with
      | Unexpected _ => reply_and_close client_ip bad_request_response
      | Expect req =>
          started ← read_clock (steady_clock clk);
          resp ← call_handler req;
          resp ← lift (apply_hsts resp);
          keep ← lift (keep_alive_requested req);
          let policy := policy_of keep in
          finished ← read_clock (steady_clock clk);
          _ ← log_access client_ip (Some req) resp (length (serialize resp policy))
                (finished - started)%Z;
          sent ← send_response resp policy;
          if negb (sent : bool) then mret false
          else mret (match policy with close => false | keep_alive => true end)
      end
  end.

Fixpoint request_loop (fuel : nat) (client_ip : bytes) (first_request : bool) : conn unit :=
  match fuel with
  | O => lift Diverge
  | Datatypes.S fuel =>
      again ← serve_request client_ip first_request;
      if (again : bool) then request_loop fuel client_ip false else mret tt
  end.

Definition what (e : exn) : bytes :=
  match e with
  | runtime_error w | invalid_argument w => w
  | out_of_range => out_of_range_what
  end.

(** The handler of [catch (const std::exception& e)]. *)
Definition catch_error (m : conn unit) : conn unit := λ c,
  match m c with
  | (Throw e, c) => on_connection_error "connection-handler" (what e) c
  | r => r
  end.

(** The body of the [try] once the stream exists. *)
Definition serve_stream (fuel : nat) (client_ip : bytes) : conn unit :=
  catch_error
    (ready ← prepare_stream;
     if (ready : bool) then request_loop fuel client_ip true else mret tt).

End Connection.

(** [handle_connection]: the trace and the world after it, and the system.  A
    stream is a handle [T] on the system; [create] is the stream factory, which
    gives a handle or none, and [destroy] the destructor of the stream, which runs
    however the scope of the stream is left. *)
Section HandleConnection.
Context {T Sys : Type} `{!NetStream (T * Sys)} {W : Type}.
Context (clk : clocks).
Context (https_enabled : bool) (request_handler : request → prog W response).
Context (out_of_range_what : bytes).
Context (create : socket → prog Sys (option T)) (destroy : T → Sys → Sys).

Definition handle_connection (fuel : nat) (client : socket) (sys : Sys) (w : W)
    : outcome (list trace_event * W) * Sys :=
  match create client sys with
  | (Ret (Some stream), sys) =>
      if is_valid (stream, sys) then
        let '(r, c) := serve_stream clk https_enabled request_handler out_of_range_what fuel
                         (peer_address client) (Connection (stream, sys) w [] 0) in
        (match r with
         | Ret _ => Ret (cn_trace c, cn_world c)
         | Throw e => Throw e
         | Undef => Undef
         | Diverge => Diverge
         end, destroy (cn_stream c).1 (cn_stream c).2)
      else (Ret ([tr_error "create-stream" "stream creation failed"], w), destroy stream sys)
  | (Ret None, sys) => (Ret ([tr_error "create-stream" "stream creation failed"], w), sys)
  | (Throw e, sys) => (Ret ([tr_error "connection-handler" (what out_of_range_what e)], w), sys)
  | (Undef, sys) => (Undef, sys)
  | (Diverge, sys) => (Diverge, sys)
  end.
End HandleConnection.

(** ** What a connection promises

    [conversation w tr w' ex]: from the world [w], a connection may leave the
    trace [tr] and the world [w'], and end with the exception [ex] of the request
    handler; its clocks are [clk].  Requests are answered one at a time, in order; each answer is the
    handler's response, logged before it is sent, and is marked [keep-alive] or
    [close] as the request asks; nothing follows an answer marked [close] or one
    that could not be written. *)
Section Spec.
Context (clk : clocks) {W : Type} (https_enabled : bool) (request_handler : request → prog W response).
Context (client_ip : bytes).

(** The response a connection sends for a handler's response. *)
Definition final_response (resp : response) : response :=
  if https_enabled && negb (bool_decide (is_Some (response_find_header resp hsts_name)))
  then with_headers resp (response_headers resp ++ [HeaderField hsts_name hsts_value])
  else resp.

Definition delivered (st : IoStatus.t) : bool :=
  match st with IoStatus.ok | IoStatus.closed => true | _ => false end.

Definition write_errors (st : IoStatus.t) : list trace_event :=
  match st with
  | IoStatus.timeout => [tr_error "write-response" "response write timed out"]
  | IoStatus.error => [tr_error "write-response" "response write failed"]
  | _ => []
  end.

(** One answer: the log entry, the response, and a write error if any. *)
Definition answer (timestamp elapsed : Z) (req : option request) (resp : response)
    (policy : connection_policy) (st : IoStatus.t) : list trace_event :=
  tr_access (make_record timestamp client_ip req resp (length (serialize resp policy)) elapsed)
  :: tr_send resp policy st :: write_errors st.

Definition error_responses : list response :=
  [bad_request_response; request_timeout_response; too_large_response].

(** A timestamp is read after the two readings whose difference is the elapsed
    time. *)
Definition timed (timestamp elapsed : Z) : Prop :=
  ∃ i j k, i < j < k ∧ timestamp = system_clock clk k ∧
    elapsed = (steady_clock clk j - steady_clock clk i)%Z.

Inductive conversation : W → list trace_event → W → option exn → Prop :=
  | conv_end w : conversation w [] w None
  | conv_failed w stage detail : conversation w [tr_error stage detail] w None
  | conv_error_reply w resp ts el st :
      resp ∈ error_responses → timed ts el →
      conversation w (answer ts el None resp close st) w None
  | conv_thrown w req e w' :
      wf_request req → request_handler req w = (Throw e, w') → conversation w [] w' (Some e)
  | conv_last w req resp keep ts el st w' :
      wf_request req → request_handler req w = (Ret resp, w') →
      keep_alive_requested req = Ret keep → keep && delivered st = false → timed ts el →
      conversation w (answer ts el (Some req) (final_response resp) (policy_of keep) st) w' None
  | conv_next w req resp ts el st w1 tr w' ex :
      wf_request req → request_handler req w = (Ret resp, w1) →
      keep_alive_requested req = Ret true → delivered st = true → timed ts el →
      conversation w1 tr w' ex →
      conversation w (answer ts el (Some req) (final_response resp) keep_alive st ++ tr) w' ex.
End Spec.

Lemma apply_hsts_ret https resp : apply_hsts https resp = Ret (final_response https resp).
Proof.
  unfold apply_hsts, final_response. destruct https; [|done]. cbn [andb].
  case_bool_decide as Hfind; [done|]. cbn [negb]. apply set_header_new; [done|done|].
  unfold response_find_header in Hfind. rewrite <- eq_None_not_Some in Hfind.
  apply find_by_name_None in Hfind. eapply Forall_impl; [exact Hfind|].
  intros h Hne. apply not_true_is_false. by rewrite header_name_equals_spec.
Qed.

Section ConnectionSpec.
Context {S : Type} `{!NetStream S, !NetStreamLaws S} {W : Type}.
Context (clk : clocks).
Context (https_enabled : bool) (request_handler : request → prog W response).
Context (out_of_range_what : bytes).
Implicit Types (c : @connection S W).

(** The connection after a part of its run: the stream, the world, what was added
    to the trace, and the number of readings. *)
Definition after c (s : S) (w : W) (tr : list trace_event) (k : nat) : connection :=
  Connection s w (cn_trace c ++ tr) k.

Lemma send_response_eq resp policy c :
  ∃ st s', send_all (serialize resp policy) (cn_stream c) = Ret (st, s') ∧
    send_response resp policy c
    = (Ret (delivered st),
       after c s' (cn_world c) (tr_send resp policy st :: write_errors st) (cn_clock c)).
Proof.
  destruct (send_all_returns (serialize resp policy) (cn_stream c)) as [[st s'] Hs].
  exists st, s'. split; [done|]. unfold send_response.
  rewrite (prog_bind_ret _ _ _ st (Connection s' (cn_world c) (cn_trace c) (cn_clock c)));
    [|unfold stream_call; by rewrite Hs].
  destruct st; unfold mbind, prog_bind, on_connection_error, emit, mret, prog_ret, after; cbn;
    by rewrite <- ?app_assoc.
Qed.

(** An answer is logged with readings of the clocks, then sent. *)
Lemma log_and_send_eq ip req resp policy el c :
  ∃ st s', send_all (serialize resp policy) (cn_stream c) = Ret (st, s') ∧
    (_ ← log_access clk ip req resp (length (serialize resp policy)) el;
     send_response resp policy) c
    = (Ret (delivered st),
       after c s' (cn_world c) (answer ip (system_clock clk (cn_clock c)) el req resp policy st)
         (Datatypes.S (cn_clock c))).
Proof.
  set (ts := system_clock clk (cn_clock c)).
  set (c1 := after c (cn_stream c) (cn_world c)
    [tr_access (make_record ts ip req resp (length (serialize resp policy)) el)]
    (Datatypes.S (cn_clock c))).
  destruct (send_response_eq resp policy c1) as (st & s' & Hs & Heq).
  exists st, s'. split; [done|]. rewrite (prog_bind_ret _ _ c tt c1) by done.
  rewrite Heq. unfold after, answer. cbn. by rewrite <- app_assoc.
Qed.

Lemma timed_readings i j k :
  i < j < k → timed clk (system_clock clk k) (steady_clock clk j - steady_clock clk i).
Proof. intros H. by exists i, j, k. Qed.

Lemma reply_and_close_eq ip resp c :
  ∃ ts el st s' k, send_all (serialize resp close) (cn_stream c) = Ret (st, s') ∧ timed clk ts el ∧
    reply_and_close clk ip resp c
    = (Ret false, after c s' (cn_world c) (answer ip ts el None resp close st) k).
Proof.
  unfold reply_and_close. set (t0 := steady_clock clk (cn_clock c)).
  set (c1 := after c (cn_stream c) (cn_world c) [] (Datatypes.S (cn_clock c))).
  rewrite (prog_bind_ret _ _ c t0 c1) by (unfold c1, after; by rewrite app_nil_r).
  set (t1 := steady_clock clk (cn_clock c1)).
  set (c2 := after c (cn_stream c) (cn_world c) [] (Datatypes.S (Datatypes.S (cn_clock c)))).
  rewrite (prog_bind_ret _ _ c1 t1 c2) by done.
  destruct (log_and_send_eq ip None resp close (t1 - t0) c2) as (st & s' & Hs & Heq).
  exists (system_clock clk (cn_clock c2)), (t1 - t0)%Z, st, s', (Datatypes.S (cn_clock c2)).
  split; [done|split; [by apply timed_readings; cbn; lia|]].
  apply prog_bind_inv in Heq as (u & c3 & H3 & Heq). rewrite (prog_bind_ret _ _ _ _ _ H3).
  rewrite (prog_bind_ret _ _ _ _ _ Heq). unfold mret, prog_ret, after. cbn.
  by rewrite app_nil_r.
Qed.

(** What reading a header gives, and what was received for it. *)
Lemma read_header_eq c :
  ∃ r b s1 s', read_header c = (Ret (r, b), after c s' (cn_world c) [] (cn_clock c)) ∧
    receives (cn_stream c) (as_string_view b) s1 ∧
    framed max_request_header_bytes (as_string_view b) r s1 s'.
Proof.
  destruct (read_header_block_fresh (cn_stream c) max_request_header_bytes)
    as (r & s1 & s' & b & Heq & Hrec & Hfr & _).
  { unfold max_request_header_bytes. lia. }
  exists r, b, s1, s'. split; [|done]. unfold read_header, stream_call, after.
  rewrite Heq, app_nil_r. done.
Qed.

(** How a request moved the stream: a timeout was set, bytes were received, an
    answer was sent. *)
Definition exchanged (s s' : S) : Prop :=
  ∃ t ok s0 view s1 data st, set_receive_timeout t s = (ok, s0) ∧ receives s0 view s1 ∧
    view ≠ [] ∧ send_all data s1 = Ret (st, s').

(** The three ways a pass through the loop can end. *)
Inductive pass_result (ip : bytes) c : outcome bool * connection → Prop :=
  | pass_again req resp ts el st s' w' k :
      wf_request req → request_handler req (cn_world c) = (Ret resp, w') →
      keep_alive_requested req = Ret true → delivered st = true → timed clk ts el →
      exchanged (cn_stream c) s' →
      pass_result ip c (Ret true, after c s' w'
        (answer ip ts el (Some req) (final_response https_enabled resp) keep_alive st) k)
  | pass_last tr s' w' k :
      conversation clk https_enabled request_handler ip (cn_world c) tr w' None →
      pass_result ip c (Ret false, after c s' w' tr k)
  | pass_thrown req e s' w' k :
      wf_request req → request_handler req (cn_world c) = (Throw e, w') →
      pass_result ip c (Throw e, after c s' w' [] k)
  | pass_undefined req r c' :
      ¬ defined (request_handler req (cn_world c)).1 → ¬ defined r → pass_result ip c (r, c').

Lemma after_after c s w tr k s' w' tr' k' :
  after (after c s w tr k) s' w' tr' k' = after c s' w' (tr ++ tr') k'.
Proof. unfold after. cbn. by rewrite <- app_assoc. Qed.

Lemma pass_error_reply ip resp c s0 k :
  resp ∈ error_responses →
  pass_result ip c (reply_and_close clk ip resp (after c s0 (cn_world c) [] k)).
Proof.
  intros Hin. destruct (reply_and_close_eq ip resp (after c s0 (cn_world c) [] k))
    as (ts & el & st & s' & k' & _ & Htime & ->).
  rewrite after_after. apply (pass_last ip c _ s' (cn_world c)).
  by apply conv_error_reply.
Qed.

(** What follows a parsed request. *)
Definition answer_request (ip : bytes) (req : request) : conn bool :=
  started ← read_clock (steady_clock clk);
  resp ← call_handler request_handler req;
  resp ← lift (apply_hsts https_enabled resp);
  keep ← lift (keep_alive_requested req);
  let policy := policy_of keep in
  finished ← read_clock (steady_clock clk);
  _ ← log_access clk ip (Some req) resp (length (serialize resp policy)) (finished - started)%Z;
  sent ← send_response resp policy;
  if negb (sent : bool) then mret false
  else mret (match policy with close => false | keep_alive => true end).

(** The answer to a response of the handler. *)
Lemma answer_request_ret ip c req resp w1 :
  request_handler req (cn_world c) = (Ret resp, w1) →
  ∃ keep ts el st s' k, keep_alive_requested req = Ret keep ∧ timed clk ts el ∧
    send_all (serialize (final_response https_enabled resp) (policy_of keep)) (cn_stream c)
    = Ret (st, s') ∧
    answer_request ip req c
    = (Ret (keep && delivered st), after c s' w1
         (answer ip ts el (Some req) (final_response https_enabled resp) (policy_of keep) st) k).
Proof.
  intros Hh. destruct (keep_alive_ret req) as [keep Hk]. unfold answer_request.
  set (t0 := steady_clock clk (cn_clock c)).
  set (c1 := after c (cn_stream c) (cn_world c) [] (Datatypes.S (cn_clock c))).
  rewrite (prog_bind_ret _ _ c t0 c1) by (unfold c1, after; by rewrite app_nil_r).
  set (c2 := after c (cn_stream c) w1 [] (Datatypes.S (cn_clock c))).
  rewrite (prog_bind_ret _ _ c1 resp c2)
    by (unfold call_handler, c1, c2, after; cbn; by rewrite Hh).
  rewrite (prog_bind_ret _ _ c2 (final_response https_enabled resp) c2)
    by (by rewrite apply_hsts_ret).
  rewrite (prog_bind_ret _ _ c2 keep c2) by (by rewrite Hk). cbv zeta.
  set (t1 := steady_clock clk (cn_clock c2)).
  set (c3 := after c (cn_stream c) w1 [] (Datatypes.S (Datatypes.S (cn_clock c)))).
  rewrite (prog_bind_ret _ _ c2 t1 c3) by done.
  destruct (log_and_send_eq ip (Some req) (final_response https_enabled resp) (policy_of keep)
    (t1 - t0) c3) as (st & s' & Hs & Heq).
  exists keep, (system_clock clk (cn_clock c3)), (t1 - t0)%Z, st, s', (Datatypes.S (cn_clock c3)).
  split; [done|split; [by apply timed_readings; cbn; lia|split; [done|]]].
  apply prog_bind_inv in Heq as (u & c4 & H4 & Heq). rewrite (prog_bind_ret _ _ _ _ _ H4).
  rewrite (prog_bind_ret _ _ _ _ _ Heq). unfold c3. rewrite after_after.
  by destruct keep, (delivered st).
Qed.

Lemma answer_request_throw ip c req e w1 :
  request_handler req (cn_world c) = (Throw e, w1) →
  answer_request ip req c = (Throw e, after c (cn_stream c) w1 [] (Datatypes.S (cn_clock c))).
Proof.
  intros Hh. unfold answer_request, mbind, prog_bind, call_handler, read_clock, after. cbn.
  by rewrite Hh, app_nil_r.
Qed.

Lemma handle_parsed ip c s0 s1 t ok view req k :
  set_receive_timeout t (cn_stream c) = (ok, s0) → receives s0 view s1 → view ≠ [] →
  wf_request req →
  pass_result ip c (answer_request ip req (after c s1 (cn_world c) [] k)).
Proof.
  intros Ht Hrec Hne Hwf. set (c0 := after c s1 (cn_world c) [] k).
  destruct (request_handler req (cn_world c)) as [r w1] eqn:Hh. destruct r as [resp|e| |].
  - destruct (answer_request_ret ip c0 req resp w1 Hh)
      as (keep & ts & el & st & s' & k' & Hk & Htime & Hs & ->).
    unfold c0. rewrite after_after. cbn [app]. destruct (keep && delivered st) eqn:Hagain.
    + apply andb_prop in Hagain as [-> Hd]. apply pass_again; try done.
      by eexists t, ok, s0, view, s1, _, st.
    + apply pass_last. by eapply conv_last.
  - rewrite (answer_request_throw ip c0 req e w1) by done. unfold c0. rewrite after_after.
    by eapply pass_thrown.
  - assert (Heq : (answer_request ip req c0).1 = Undef).
    { unfold answer_request, mbind, prog_bind, call_handler, read_clock. cbn. by rewrite Hh. }
    destruct (answer_request ip req c0) as [r c1]. cbn in Heq. subst r.
    apply (pass_undefined ip c req); [rewrite Hh|]; by intros [? ?].
  - assert (Heq : (answer_request ip req c0).1 = Diverge).
    { unfold answer_request, mbind, prog_bind, call_handler, read_clock. cbn. by rewrite Hh. }
    destruct (answer_request ip req c0) as [r c1]. cbn in Heq. subst r.
    apply (pass_undefined ip c req); [rewrite Hh|]; by intros [? ?].
Qed.

Lemma serve_request_spec ip first c :
  pass_result ip c (serve_request clk https_enabled request_handler ip first c).
Proof.
  unfold serve_request.
  set (t := if first then io_timeout else keep_alive_idle_timeout).
  destruct (set_receive_timeout t (cn_stream c)) as [ok s0] eqn:Ht.
  set (c0 := after c s0 (cn_world c) [] (cn_clock c)).
  assert (Hset : stream_set (set_receive_timeout t) c = (Ret ok, c0)).
  { unfold stream_set. rewrite Ht. unfold c0, after. by rewrite app_nil_r. }
  rewrite (prog_bind_ret _ _ _ _ _ Hset).
  assert (Herror : ∀ c1 s w k stage detail, c1 = after c s w [] k →
    (_ ← on_connection_error stage detail; mret false : conn bool) c1
    = (Ret false, after c s w [tr_error stage detail] k)).
  { intros c1 s w k stage detail ->. unfold mbind, prog_bind, on_connection_error, emit, after.
    cbn. by rewrite app_nil_r. }
  destruct ok; cbn [negb].
  2: { rewrite (Herror c0 s0 (cn_world c) (cn_clock c)) by done. apply pass_last, conv_failed. }
  destruct (read_header_eq c0) as (r & b & s1 & s2 & Hr & Hrec & Hfr).
  unfold c0 in Hr. rewrite after_after in Hr. fold c0 in Hr.
  change (cn_world c0) with (cn_world c) in Hr. change (cn_clock c0) with (cn_clock c) in Hr.
  rewrite (prog_bind_ret _ _ _ _ _ Hr). cbv beta iota.
  destruct r as [block|[]].
  - destruct Hfr as [<- (i & Hi & Hblock)].
    rewrite (prog_bind_ret _ _ _ (parse_ref block) (after c s1 (cn_world c) [] (cn_clock c)))
      by (by rewrite parse_ret).
    destruct (parse_ref block) as [req|e] eqn:Hp.
    + apply parse_ref_sound in Hp as [Hwf _].
      apply (handle_parsed ip c s0 s1 t true (as_string_view b)); try done.
      intros Hnil. rewrite Hnil in Hi. done.
    + apply pass_error_reply. left.
  - apply pass_last. apply conv_end.
  - destruct (negb first && bytes_eqb (as_string_view b) []).
    + apply pass_last. apply conv_end.
    + apply pass_error_reply. right; left.
  - apply pass_error_reply. right; right; left.
  - erewrite Herror by done. apply pass_last, conv_failed.
Qed.

(** The loop keeps to the conversation, whenever it stops. *)
Lemma request_loop_spec fuel ip first c r c' :
  request_loop clk https_enabled request_handler fuel ip first c = (r, c') → defined r →
  ∃ tr ex, c' = after c (cn_stream c') (cn_world c') tr (cn_clock c') ∧
    r = match ex with None => Ret tt | Some e => Throw e end ∧
    conversation clk https_enabled request_handler ip (cn_world c) tr (cn_world c') ex.
Proof.
  revert first c. induction fuel as [|fuel IH]; intros first c; cbn [request_loop].
  { intros [= <- <-] [_ ?]. done. }
  unfold mbind, prog_bind. pose proof (serve_request_spec ip first c) as Hpass.
  destruct Hpass as [req resp ts el st s' w' k Hwf Hh Hk Hd Htime _|tr s' w' k Hconv|req e s' w' k Hwf Hh
    |req r1 c1 _ Hund].
  - intros Hloop Hdef. destruct (IH false _ Hloop Hdef) as (tr & ex & Hc' & -> & Hconv).
    eexists (_ ++ tr), ex. split; [by rewrite Hc', after_after at 1|split; [done|]].
    by eapply conv_next.
  - intros [= <- <-] _. by exists tr, None.
  - intros [= <- <-] _. exists [], (Some e). split_and!; [done|done|by eapply conv_thrown].
  - destruct r1; try (by destruct Hund); intros [= <- <-] [? ?]; done.
Qed.

(** Preparing the stream: it is ready, or an end with at most one error. *)
Lemma prepare_stream_spec c :
  ∃ b s' tr, prepare_stream c = (Ret b, after c s' (cn_world c) tr (cn_clock c)) ∧
    (b = true → tr = [] ∧ ∃ s1 s2, set_receive_timeout io_timeout (cn_stream c) = (true, s1) ∧
       set_send_timeout io_timeout s1 = (true, s2) ∧ handshake s2 = Ret (IoStatus.ok, s')) ∧
    (tr = [] ∨ ∃ stage detail, tr = [tr_error stage detail]).
Proof.
  unfold prepare_stream, on_connection_error, emit, stream_set, stream_call, mbind, prog_bind,
    mret, prog_ret, after.
  destruct (set_receive_timeout io_timeout (cn_stream c)) as [[] s1] eqn:Hr; cbn.
  2: { eexists false, s1, _. split_and!; [done|done|right; eauto]. }
  destruct (set_send_timeout io_timeout s1) as [[] s2] eqn:Hs; cbn.
  2: { eexists false, s2, _. split_and!; [done|done|right; eauto]. }
  destruct (handshake_returns s2) as [[st s3] Hh]. rewrite Hh. cbn.
  destruct st; cbn.
  - exists true, s3, []. rewrite app_nil_r. split_and!; [done| |by left].
    intros _. split; [done|]. eauto.
  - exists false, s3, []. rewrite app_nil_r. split_and!; [done|done|by left].
  - eexists false, s3, _. split_and!; [done|done|right; eauto].
  - eexists false, s3, _. split_and!; [done|done|right; eauto].
Qed.

Lemma serve_stream_spec fuel ip c r c' :
  serve_stream clk https_enabled request_handler out_of_range_what fuel ip c = (r, c') →
  defined r →
  r = Ret tt ∧ ∃ tr ex,
    cn_trace c' = cn_trace c ++ tr ++ match ex with
      | Some e => [tr_error "connection-handler" (what out_of_range_what e)]
      | None => []
      end ∧
    conversation clk https_enabled request_handler ip (cn_world c) tr (cn_world c') ex.
Proof.
  unfold serve_stream, catch_error. destruct (prepare_stream_spec c) as (b & s' & tr & Hp & Hb & Htr).
  rewrite (prog_bind_ret _ _ _ _ _ Hp). destruct b.
  - destruct (Hb eq_refl) as [-> _].
    destruct (request_loop _ _ _ fuel ip true _) as [r1 c1] eqn:Hloop. intros H Hdef.
    assert (Hdef1 : defined r1) by (destruct r1; [done|done|by injection H as <- <-..]).
    destruct (request_loop_spec _ _ _ _ _ _ Hloop Hdef1) as (tr & ex & Hc1 & -> & Hconv).
    destruct ex as [e|].
    + unfold on_connection_error, emit in H. injection H as <- <-. split; [done|].
      exists tr, (Some e). cbn. rewrite Hc1. cbn. rewrite app_nil_r, <- app_assoc. done.
    + injection H as <- <-. split; [done|]. exists tr, None. rewrite Hc1. cbn.
      by rewrite !app_nil_r.
  - intros [= <- <-] _. split; [done|]. exists tr, None. cbn. rewrite app_nil_r. split; [done|].
    destruct Htr as [->|(stage & detail & ->)]; [apply conv_end|apply conv_failed].
Qed.

End ConnectionSpec.

(** ** Invariants of the stream

    What every call on the stream keeps, a connection keeps. *)
Section Invariant.
Context {S : Type} `{!NetStream S} {W : Type} (P : S → Prop) `{!StreamInvariant P}.
Context (clk : clocks) (https_enabled : bool) (request_handler : request → prog W response).
Context (out_of_range_what : bytes).

Definition preserves {A} (m : @conn S W A) : Prop :=
  ∀ c, P (cn_stream c) → P (cn_stream (m c).2).

Lemma preserves_bind {A B} (m : conn A) (f : A → conn B) :
  preserves m → (∀ a, preserves (f a)) → preserves (m ≫= f).
Proof.
  intros Hm Hf c Hc. specialize (Hm c Hc). unfold mbind, prog_bind.
  destruct (m c) as [[a|e| |] c1]; [by apply Hf|exact Hm..].
Qed.

Lemma preserves_ret {A} (a : A) : preserves (mret a).
Proof. by intros c Hc. Qed.

Lemma preserves_lift {A} (m : outcome A) : preserves (lift m).
Proof. by intros c Hc. Qed.

Lemma preserves_emit e : preserves (emit e).
Proof. by intros c Hc. Qed.

Lemma preserves_set f : (∀ s, P s → P (f s).2) → preserves (stream_set f).
Proof.
  intros Hf c Hc. specialize (Hf _ Hc). unfold stream_set. by destruct (f (cn_stream c)).
Qed.

Lemma preserves_call {A} (f : S → outcome (A * S)) :
  (∀ s a s', f s = Ret (a, s') → P s → P s') → preserves (stream_call f).
Proof.
  intros Hf c Hc. unfold stream_call. destruct (f (cn_stream c)) as [[a s']|e| |] eqn:Hcall; try done.
  by eapply Hf.
Qed.

Lemma preserves_handler req : preserves (call_handler request_handler req).
Proof. intros c Hc. unfold call_handler. by destruct (request_handler req (cn_world c)). Qed.

Lemma preserves_receive_timeout t : preserves (stream_set (set_receive_timeout t)).
Proof. apply preserves_set. intros s. apply keeps_receive_timeout. Qed.

Lemma preserves_send_timeout t : preserves (stream_set (set_send_timeout t)).
Proof. apply preserves_set. intros s. apply keeps_send_timeout. Qed.

Lemma preserves_handshake : preserves (stream_call handshake).
Proof. apply preserves_call. intros s st s'. apply keeps_handshake. Qed.

Lemma preserves_send_all data : preserves (stream_call (send_all data)).
Proof. apply preserves_call. intros s st s'. apply keeps_send_all. Qed.

#[local] Hint Resolve preserves_bind preserves_ret preserves_lift preserves_emit preserves_handler
  preserves_receive_timeout preserves_send_timeout preserves_handshake preserves_send_all : core.

Lemma preserves_prepare : preserves prepare_stream.
Proof.
  unfold prepare_stream, on_connection_error. apply preserves_bind; [eauto|]. intros received.
  apply preserves_bind; [destruct received; eauto|]. intros [|]; cbn [negb]; [|eauto].
  apply preserves_bind; [eauto|]. intros [| | |]; eauto.
Qed.

Lemma preserves_send resp policy : preserves (send_response resp policy).
Proof.
  unfold send_response, on_connection_error. apply preserves_bind; [eauto|]. intros st.
  apply preserves_bind; [eauto|]. intros _. destruct st; eauto.
Qed.

Lemma preserves_clock clock : preserves (read_clock clock).
Proof. by intros c Hc. Qed.

#[local] Hint Resolve preserves_clock preserves_send : core.

Lemma preserves_log ip req resp n el : preserves (log_access clk ip req resp n el).
Proof. unfold log_access. eauto. Qed.

#[local] Hint Resolve preserves_log : core.

Lemma preserves_reply ip resp : preserves (reply_and_close clk ip resp).
Proof.
  unfold reply_and_close. apply preserves_bind; [eauto|]. intros started.
  apply preserves_bind; [eauto|]. intros finished. eauto.
Qed.

Lemma preserves_read_header : preserves read_header.
Proof.
  apply preserves_call. intros s [r b] s' H HP. inv_bind H.
  destruct a as [[r1 s1] b1]. injection H as _ _ <-. by eapply read_header_loop_keeps.
Qed.

Lemma preserves_serve ip first : preserves (serve_request clk https_enabled request_handler ip first).
Proof.
  unfold serve_request, on_connection_error. apply preserves_bind; [eauto|].
  intros [|]; cbn [negb]; [|eauto]. apply preserves_bind; [apply preserves_read_header|].
  intros [[block|[]] b]; [|eauto| |eauto using preserves_reply|eauto].
  - apply preserves_bind; [eauto|]. intros [req|e]; [|apply preserves_reply].
    apply preserves_bind; [eauto|]. intros started.
    apply preserves_bind; [eauto|]. intros resp. apply preserves_bind; [eauto|]. intros resp'.
    apply preserves_bind; [eauto|]. intros keep. apply preserves_bind; [eauto|]. intros finished.
    apply preserves_bind; [eauto|]. intros _.
    apply preserves_bind; [apply preserves_send|]. intros [|]; cbn [negb]; apply preserves_ret.
  - destruct (negb first && _); eauto using preserves_reply.
Qed.

Lemma preserves_loop fuel ip first :
  preserves (request_loop clk https_enabled request_handler fuel ip first).
Proof.
  revert first. induction fuel as [|fuel IH]; intros first; cbn [request_loop]; [eauto|].
  apply preserves_bind; [apply preserves_serve|]. intros [|]; eauto.
Qed.

Lemma serve_stream_keeps fuel ip :
  preserves (serve_stream clk https_enabled request_handler out_of_range_what fuel ip).
Proof.
  intros c Hc. unfold serve_stream, catch_error.
  set (m := _ ≫= _). assert (Hm : preserves m).
  { apply preserves_bind; [apply preserves_prepare|]. intros [|]; [apply preserves_loop|eauto]. }
  specialize (Hm c Hc). by destruct (m c) as [[a|e| |] c1].
Qed.
End Invariant.

Section HandleSpec.
Context {T Sys : Type} `{!NetStream (T * Sys), !NetStreamLaws (T * Sys)} {W : Type}.
Context (clk : clocks) (https_enabled : bool) (request_handler : request → prog W response).
Context (out_of_range_what : bytes).
Context (create : socket → prog Sys (option T)) (destroy : T → Sys → Sys).

Lemma handle_connection_spec fuel client sys w tr w' sys' :
  handle_connection clk https_enabled request_handler out_of_range_what create destroy fuel client sys w
  = (Ret (tr, w'), sys') →
  ∃ tr0 ex, conversation clk https_enabled request_handler (peer_address client) w tr0 w' ex ∧
    tr = tr0 ++ match ex with
      | Some e => [tr_error "connection-handler" (what out_of_range_what e)]
      | None => []
      end.
Proof.
  assert (Hfail : ∀ stage detail, ∃ tr0 ex,
    conversation clk https_enabled request_handler (peer_address client) w tr0 w ex ∧
    [tr_error stage detail] = tr0 ++ match ex with
      | Some e => [tr_error "connection-handler" (what out_of_range_what e)]
      | None => []
      end).
  { intros stage detail. eexists _, None. split; [apply conv_failed|by rewrite app_nil_r]. }
  unfold handle_connection.
  destruct (create client sys) as [[[t|]|e| |] sys1]; [|by intros [= <- <- <-]..|done|done].
  destruct (is_valid (t, sys1)); [|by intros [= <- <- <-]].
  destruct (serve_stream _ _ _ _ _ _ _) as [r c] eqn:Hserve.
  destruct r as [[]| | |]; try done. intros [= <- <- <-].
  apply serve_stream_spec in Hserve as [_ (tr0 & ex & Htr & Hconv)]; [|done].
  exists tr0, ex. split; [exact Hconv|]. exact Htr.
Qed.

(** C1: whatever a connection does, it is a [conversation]: requests are read,
    handled and answered one at a time and in order; every answer is logged
    with its status, its size, the time it took and the time of day before it is
    sent; it is the handler's response
    (with HSTS under HTTPS), marked [keep-alive] or [close] as the request
    asks; malformed, late and oversized requests get 400, 408 and 431 without
    reaching the handler; nothing follows a closing or unwritable answer; and
    an exception of the handler ends the connection with a diagnostic and no
    answer. *)
Theorem connection_conversation fuel client sys w tr w' sys' :
  handle_connection clk https_enabled request_handler out_of_range_what create destroy fuel client sys w
  = (Ret (tr, w'), sys') →
  ∃ tr0 ex, conversation clk https_enabled request_handler (peer_address client) w tr0 w' ex ∧
    tr = tr0 ++ match ex with
      | Some e => [tr_error "connection-handler" (what out_of_range_what e)]
      | None => []
      end.
Proof. apply handle_connection_spec. Qed.
End HandleSpec.

(** ** Every connection ends

    A stream whose peer sends finitely many bytes: [remaining] bounds what is
    still to come. *)
Class FiniteStream (S : Type) `{!NetStream S} := {
  remaining : S → nat;
  remaining_recv n s rr data s' :
    recv_some n s = Ret (rr, data, s') → remaining s' + length data ≤ remaining s;
  remaining_send data s st s' : send_all data s = Ret (st, s') → remaining s' ≤ remaining s;
  remaining_receive_timeout t s : remaining (set_receive_timeout t s).2 ≤ remaining s;
  remaining_send_timeout t s : remaining (set_send_timeout t s).2 ≤ remaining s;
  remaining_handshake s st s' : handshake s = Ret (st, s') → remaining s' ≤ remaining s;
}.

Section Termination.
Context {S : Type} `{!NetStream S, !NetStreamLaws S, !FiniteStream S} {W : Type}.
Context (clk : clocks) (https_enabled : bool) (request_handler : request → prog W response).
Context (out_of_range_what : bytes).

Lemma remaining_receives s bs s' : receives s bs s' → remaining s' + length bs ≤ remaining s.
Proof.
  induction 1 as [s|n s rr data s1 bs s2 Hr _ _ IH]; [simpl; lia|].
  apply remaining_recv in Hr. rewrite length_app. lia.
Qed.

Lemma remaining_exchanged s s' : exchanged s s' → remaining s' < remaining s.
Proof.
  intros (t & ok & s0 & view & s1 & data & st & Ht & Hr & Hne & Hs).
  pose proof (remaining_receive_timeout t s) as H1. rewrite Ht in H1. cbn in H1.
  apply remaining_receives in Hr. apply remaining_send in Hs.
  destruct view; [done|]. simpl in Hr. lia.
Qed.

Context (P : W → Prop).
Hypothesis handler_stays : ∀ req, stays P (request_handler req).

Lemma request_loop_defined fuel ip first (c : @connection S W) :
  remaining (cn_stream c) < fuel → P (cn_world c) →
  defined (request_loop clk https_enabled request_handler fuel ip first c).1.
Proof.
  revert first c. induction fuel as [|fuel IH]; intros first c Hf HP; [lia|]. cbn [request_loop].
  unfold mbind, prog_bind.
  destruct (serve_request_spec clk https_enabled request_handler ip first c)
    as [req resp ts el st s' w' k _ Hh _ _ _ Hex| | |req r1 c1 Hund _]; [|done|done|].
  - pose proof (handler_stays req _ HP) as [_ HP']. rewrite Hh in HP'.
    apply IH; [|exact HP']. cbn. apply remaining_exchanged in Hex. lia.
  - destruct Hund. by apply handler_stays.
Qed.

Lemma serve_stream_defined fuel ip (s : S) (w : W) :
  remaining s < fuel → P w →
  defined (serve_stream clk https_enabled request_handler out_of_range_what fuel ip
             (Connection s w [] 0)).1.
Proof.
  intros Hf HP. unfold serve_stream, catch_error.
  destruct (prepare_stream_spec (Connection s w [] 0)) as (b & s' & tr & Hp & Hb & _).
  rewrite (prog_bind_ret _ _ _ _ _ Hp). destruct b; [|done].
  destruct (Hb eq_refl) as (_ & s1 & s2 & H1 & H2 & H3). cbn in H1.
  pose proof (request_loop_defined fuel ip true (after (Connection s w [] 0) s' w tr 0)) as Hloop.
  destruct (request_loop _ _ _ _ _ _ _) as [r' c'] eqn:Hl.
  assert (defined r').
  { apply Hloop; [|exact HP]. cbn.
    pose proof (remaining_receive_timeout io_timeout s) as R1. rewrite H1 in R1.
    pose proof (remaining_send_timeout io_timeout s1) as R2. rewrite H2 in R2.
    apply remaining_handshake in H3. cbn in *. lia. }
  by destruct r'.
Qed.
End Termination.

(** The handler is called only as the conversation says, so what it keeps stays. *)
Lemma conversation_stays {W} clk https_enabled (request_handler : request → prog W response) (P : W → Prop)
    ip w tr w' ex :
  (∀ req, stays P (request_handler req)) →
  conversation clk https_enabled request_handler ip w tr w' ex → P w → P w'.
Proof.
  intros Hh. assert (Hstep : ∀ req w r w', request_handler req w = (r, w') → P w → P w').
  { intros req w0 r w1 Heq HP. pose proof (Hh req w0 HP) as [_ HP']. by rewrite Heq in HP'. }
  induction 1; eauto.
Qed.

Section HandleTermination.
Context {T Sys : Type} `{!NetStream (T * Sys), !NetStreamLaws (T * Sys), !FiniteStream (T * Sys)}.
Context {W : Type} (clk : clocks) (https_enabled : bool) (request_handler : request → prog W response).
Context (out_of_range_what : bytes).
Context (create : socket → prog Sys (option T)) (destroy : T → Sys → Sys).
Context (P : W → Prop).
Hypothesis handler_stays : ∀ req, stays P (request_handler req).

Lemma handle_connection_returns fuel client sys w :
  P w → defined (create client sys).1 →
  (∀ t sys1, create client sys = (Ret (Some t), sys1) → remaining (t, sys1) < fuel) →
  ∃ tr w' sys', handle_connection clk https_enabled request_handler out_of_range_what create destroy
    fuel client sys w = (Ret (tr, w'), sys').
Proof.
  intros HP Hcreate Hf. unfold handle_connection.
  destruct (create client sys) as [[[t|]|e| |] sys1];
    [|by eexists _, _, _|by eexists _, _, _|by destruct Hcreate..].
  destruct (is_valid (t, sys1)); [|by eexists _, _, _].
  pose proof (serve_stream_defined clk https_enabled request_handler out_of_range_what P handler_stays
    fuel (peer_address client) (t, sys1) w (Hf t sys1 eq_refl) HP) as Hdef.
  destruct (serve_stream _ _ _ _ _ _ _) as [r c] eqn:Hserve.
  apply serve_stream_spec in Hserve as [-> _]; [|done]. by eexists _, _, _.
Qed.

(** C28: a connection ends: with a handler that returns or throws in the worlds of
    an invariant and keeps it, and a peer that sends finitely many bytes,
    [handle_connection] returns and keeps the invariant, and one pass per byte is
    more than enough fuel. *)
Theorem connection_returns fuel client sys w :
  P w → defined (create client sys).1 →
  (∀ t sys1, create client sys = (Ret (Some t), sys1) → remaining (t, sys1) < fuel) →
  ∃ tr w' sys', handle_connection clk https_enabled request_handler out_of_range_what create destroy
    fuel client sys w = (Ret (tr, w'), sys') ∧ P w'.
Proof.
  intros HP Hcreate Hf. destruct (handle_connection_returns fuel client sys w HP Hcreate Hf)
    as (tr & w' & sys' & Heq).
  exists tr, w', sys'. split; [exact Heq|].
  apply handle_connection_spec in Heq as (tr0 & ex & Hc & _). by eapply conversation_stays.
Qed.
End HandleTermination.

(** ** HSTS *)

Lemma final_response_hsts r :
  response_header_value (final_response true r) hsts_name
  = Some (default hsts_value (response_header_value r hsts_name)).
Proof.
  unfold final_response, response_header_value. cbn [andb].
  case_bool_decide as Hfind; cbn [negb].
  - by destruct Hfind as [h ->].
  - rewrite <- eq_None_not_Some in Hfind. rewrite Hfind. unfold response_find_header in *.
    cbn [with_headers response_headers]. by rewrite find_by_name_app, Hfind.
Qed.

(** Under HTTPS every answer of the request handler carries
    [Strict-Transport-Security], with the handler's own value if it set one; the
    answers 400, 408 and 431 of the connection itself do not carry it. *)
Theorem https_hsts clk {W} (request_handler : request → prog W response) ip w tr w' ex resp policy st :
  conversation clk true request_handler ip w tr w' ex → tr_send resp policy st ∈ tr →
  (resp ∈ error_responses ∧ policy = close ∧ response_header_value resp hsts_name = None) ∨
  (∃ req r w1 w2, request_handler req w1 = (Ret r, w2) ∧ resp = final_response true r ∧
     response_header_value resp hsts_name
     = Some (default hsts_value (response_header_value r hsts_name))).
Proof.
  intros Hconv Hin.
  assert (Hans : ∀ ts el o r p st', tr_send resp policy st ∈ answer ip ts el o r p st' → resp = r ∧ policy = p).
  { intros ts el o r p st' [?|[Heq|Hw]%elem_of_cons]%elem_of_cons; [done|by injection Heq|].
    destruct st'; cbn in Hw; rewrite ?list_elem_of_singleton in Hw; try done;
      by apply not_elem_of_nil in Hw. }
  induction Hconv as [w|w stage detail|w r ts el st' Hr _|w req e w' _ _|w req r keep ts el st' w' _ Hh _ _ _
    |w req r ts el st' w1 tr w' ex _ Hh _ _ _ _ IH].
  - by apply not_elem_of_nil in Hin.
  - by apply list_elem_of_singleton in Hin.
  - apply Hans in Hin as [-> ->]. left. split; [done|split; [done|]].
    apply elem_of_cons in Hr as [->|Hr]; [done|].
    apply elem_of_cons in Hr as [->|Hr]; [done|]. by apply list_elem_of_singleton in Hr as ->.
  - by apply not_elem_of_nil in Hin.
  - apply Hans in Hin as [-> ->]. right. exists req, r, w, w'.
    split; [done|split; [done|apply final_response_hsts]].
  - apply elem_of_app in Hin as [Hin|Hin]; [|by apply IH].
    apply Hans in Hin as [-> ->]. right. exists req, r, w, w1.
    split; [done|split; [done|apply final_response_hsts]].
Qed.

(** ** A connection, executed *)

(** The bytes a script still delivers. *)
Fixpoint reply_bytes (rs : list (errno + bytes)) : nat :=
  match rs with
  | [] => 0
  | inl _ :: rs => reply_bytes rs
  | inr d :: rs => length d + reply_bytes rs
  end.

Definition script_bytes (w : ScriptedApi.t) : nat := reply_bytes (ScriptedApi.to_recv w).

Lemma script_recv_loop fuel fd n w rr data w' :
  recv_loop fuel fd n w = Ret (rr, data, w') → script_bytes w' + length data ≤ script_bytes w.
Proof.
  revert w. induction fuel as [|fuel IH]; intros w; [done|]. cbn [recv_loop sys_recv ScriptedApi.api].
  unfold ScriptedApi.recv. destruct w as [[|[e|d] rs] ss o]; cbn [ScriptedApi.to_recv].
  - intros [= <- <- <-]. simpl. lia.
  - destruct e; [intros H%IH; exact H|..]; intros [= <- <- <-]; unfold script_bytes; simpl; lia.
  - destruct (take n d) as [|x xs] eqn:Ht; intros [= <- <- <-].
    + unfold script_bytes. simpl. lia.
    + rewrite <- Ht, length_take. unfold script_bytes. simpl. lia.
Qed.

Lemma script_send_loop fuel fd data sent w st w' :
  send_loop fuel fd data sent w = Ret (st, w') → script_bytes w' = script_bytes w.
Proof.
  revert sent w. induction fuel as [|fuel IH]; intros sent w; [done|]. cbn [send_loop].
  destruct (sent <? length data); [|by intros [= <- <-]].
  cbn [sys_send ScriptedApi.api]. unfold ScriptedApi.send.
  destruct w as [rs [|[e|k] ss] o]; cbn [ScriptedApi.to_send ScriptedApi.to_recv].
  - destruct (length (drop sent data)); [by intros [= <- <-]|]. intros H%IH. exact H.
  - destruct e; [intros H%IH; exact H|..]; by intros [= <- <-].
  - destruct (k `min` _); [by intros [= <- <-]|]. intros H%IH. exact H.
Qed.

#[export] Instance scripted_finite : FiniteStream (socket * ScriptedApi.t).
Proof.
  refine {| remaining (s : socket * ScriptedApi.t) := script_bytes s.2 |}.
  - intros n [s w] rr data s' H. change (plain_recv_some n (s, w) = Ret (rr, data, s')) in H.
    unfold plain_recv_some in H. inv_bind H. destruct a as [[rr1 d1] w1].
    injection H as <- <- <-. exact (script_recv_loop _ _ _ _ _ _ _ Ha).
  - intros data [s w] st s' H. change (plain_send_all data (s, w) = Ret (st, s')) in H.
    unfold plain_send_all in H. inv_bind H. destruct a as [st1 w1].
    injection H as <- <-. apply script_send_loop in Ha. cbn. by rewrite Ha.
  - intros t [s w]. cbn. lia.
  - intros t [s w]. cbn. lia.
  - intros [s w] st s' [= <- <-]. done.
Defined.

(** A peer that asks twice on one connection, then sends a malformed request. *)
Definition sample_script : ScriptedApi.t :=
  ScriptedApi.Script
    [inr (("GET /a HTTP/1.1" : bytes) ++ header_end);
     inr ("GET /b HT" : bytes); inl EINTR; inr (("TP/1.1" : bytes) ++ header_end);
     inr (("nonsense" : bytes) ++ header_end)] [] [].

(** A factory of plain streams. *)
Definition sample_create (client : socket) : prog ScriptedApi.t (option socket) :=
  mret (Some client).
Definition sample_destroy (s : socket) (w : ScriptedApi.t) : ScriptedApi.t := (socket_close s w).2.

(** A handler that answers with the target and counts its calls. *)
Definition sample_handler (req : request) : prog nat response := λ n,
  (Ret (text 200 "OK" (target req)), S n).

(** Clocks: 2.5 ms pass between two readings. *)
Definition sample_clocks : clocks := Clocks (λ _, 1700000000000000000%Z) (λ n, (Z.of_nat n * 2500000)%Z).

Definition sample_trace : list trace_event :=
  answer "10.0.0.1" 1700000000000000000 2500000 (Some (Request 1 1 "GET" "/a" []))
    (final_response true (text 200 "OK" "/a")) keep_alive IoStatus.ok ++
  answer "10.0.0.1" 1700000000000000000 2500000 (Some (Request 1 1 "GET" "/b" []))
    (final_response true (text 200 "OK" "/b")) keep_alive IoStatus.ok ++
  answer "10.0.0.1" 1700000000000000000 2500000 None bad_request_response close IoStatus.ok.

(** What the script has left, and the bytes sent. *)
Definition sample_end : ScriptedApi.t :=
  Eval vm_compute in
    (handle_connection sample_clocks true sample_handler [] sample_create sample_destroy 100
      (Socket 7 "10.0.0.1") sample_script 0).2.

Lemma sample_run :
  handle_connection sample_clocks true sample_handler [] sample_create sample_destroy 100
    (Socket 7 "10.0.0.1") sample_script 0
  = (Ret (sample_trace, 2), sample_end).
Proof. vm_compute. reflexivity. Qed.

Lemma sample_handler_defined req w : defined (sample_handler req w).1.
Proof. done. Qed.

(** The handler counts the requests. *)
Lemma sample_handler_stays req : stays (λ n : nat, 5 ≤ n) (sample_handler req).
Proof. intros w Hw. split; [done|cbn; lia]. Qed.

Lemma connection_conversation_witness :
  ∃ tr0 ex, conversation sample_clocks true sample_handler "10.0.0.1" 0 tr0 2 ex ∧
    sample_trace = tr0 ++ match ex with
      | Some e => [tr_error "connection-handler" (what [] e)]
      | None => []
      end.
Proof.
  exact (connection_conversation sample_clocks true sample_handler [] sample_create sample_destroy 100
    (Socket 7 "10.0.0.1") sample_script 0 sample_trace 2 sample_end sample_run).
Defined.

Lemma connection_returns_witness :
  ∃ tr w' sys', handle_connection sample_clocks true sample_handler [] sample_create sample_destroy 100
    (Socket 7 "10.0.0.1") sample_script 5 = (Ret (tr, w'), sys') ∧ 5 ≤ w'.
Proof.
  apply (connection_returns sample_clocks true sample_handler [] sample_create sample_destroy
    _ sample_handler_stays 100 (Socket 7 "10.0.0.1") sample_script 5).
  - done.
  - done.
  - intros t sys1 [= <- <-]. vm_compute. lia.
Defined.

Lemma https_hsts_witness :
  ∃ req r w1 w2, sample_handler req w1 = (Ret r, w2) ∧
    final_response true (text 200 "OK" "/b") = final_response true r ∧
    response_header_value (final_response true (text 200 "OK" "/b")) hsts_name
    = Some (default hsts_value (response_header_value r hsts_name)).
Proof.
  destruct (handle_connection_spec sample_clocks true sample_handler [] sample_create sample_destroy 100
    (Socket 7 "10.0.0.1") sample_script 0 sample_trace 2 sample_end sample_run) as (tr0 & ex & Hconv & Htr).
  destruct (https_hsts sample_clocks sample_handler "10.0.0.1" 0 tr0 2 ex (final_response true (text 200 "OK" "/b"))
    keep_alive IoStatus.ok Hconv) as [(_ & Hbad & _)|H].
  - destruct ex as [e|]; [exfalso; revert Htr|rewrite app_nil_r in Htr].
    + intros Htr. apply (f_equal last) in Htr. by rewrite last_snoc in Htr.
    + rewrite <- Htr. do 3 right. left.
  - done.
  - exact H.
Defined.
