(* ===== verification/Tls.v ===== *)
(** * TLS ([src/tls])

    [tls::context] and [tls::stream] over OpenSSL, whose calls are operations of
    a class.  A TLS stream meets the interface of [net::stream] under the laws
    that the manual pages of OpenSSL state about reads and writes. *)

From S2P Require Import Prelude.
From S2P Require Import StringView.
From S2P Require Import FsPath.
From S2P Require Import Net.

#[local] Open Scope Z_scope.

(** ** OpenSSL *)

(** The results of [SSL_get_error] that the code names. *)
Inductive ssl_error :=
  | SSL_ERROR_ZERO_RETURN
  | SSL_ERROR_WANT_READ
  | SSL_ERROR_WANT_WRITE
  | SSL_ERROR_SYSCALL
  | ssl_error_other (n : Z).

Inductive protocol_version := TLS1_2_VERSION.
Inductive file_type := SSL_FILETYPE_PEM.
Inductive ssl_option := SSL_OP_NO_COMPRESSION | SSL_OP_NO_RENEGOTIATION.

(** [C] are the pointers to contexts and [L] those to connections, both not null;
    a call on a connection is given a pointer that may be null.  A read or a
    write that returns 1 gives the bytes it stored or the number it took,
    otherwise the value returned.  [errno_of] is the errno after the last call,
    and [plaintext p w] is what was written on [p] so far, as its peer reads it,
    which is not visible to the program. *)
Class OpenSsl (W C L : Type) := {
  SSL_CTX_new : W → option C * W;
  SSL_CTX_free : C → W → W;
  SSL_CTX_set_min_proto_version : C → protocol_version → W → Z * W;
  SSL_CTX_set_cipher_list : C → bytes → W → Z * W;
  SSL_CTX_set_ciphersuites : C → bytes → W → Z * W;
  SSL_CTX_set_options : C → list ssl_option → W → W;
  SSL_CTX_use_certificate_file : C → bytes → file_type → W → Z * W;
  SSL_CTX_use_PrivateKey_file : C → bytes → file_type → W → Z * W;
  SSL_CTX_check_private_key : C → W → Z * W;
  SSL_new : C → W → option L * W;
  SSL_free : L → W → W;
  SSL_set_fd : L → Z → W → Z * W;
  SSL_accept : option L → W → Z * W;
  SSL_read_ex : option L → nat → W → (Z + bytes) * W;
  SSL_write_ex : option L → bytes → W → (Z + nat) * W;
  SSL_get_error : option L → Z → W → ssl_error;
  errno_of : W → errno;
  ERR_get_error : W → Z * W;
  ERR_error_string_n : Z → nat → bytes;
  plaintext : option L → W → bytes;
}.

(** A successful read stores at least one byte and no more than asked for; a
    successful write takes at least one; what a failed write sent is a prefix. *)
Class OpenSslLaws (W C L : Type) `{!OpenSsl W C L} : Prop := {
  SSL_read_ex_bound p n w data w' :
    SSL_read_ex p n w = (inr data, w') → (0 < length data ≤ n)%nat;
  SSL_write_ex_progress p data w n w' :
    SSL_write_ex p data w = (inr n, w') → data ≠ [] →
    (0 < n ≤ length data)%nat ∧ plaintext p w' = plaintext p w ++ take n data;
  SSL_write_ex_failed p data w rc w' :
    SSL_write_ex p data w = (inl rc, w') →
    ∃ k, (k ≤ length data)%nat ∧ plaintext p w' = plaintext p w ++ take k data;
}.

(** ** [tls::context] and [tls::stream] *)

(** [_ssl] holds null once it was reset. *)
Record tls_stream (L : Type) := TlsStream {
  ts_socket : socket;
  ts_ssl : option L;
}.
Arguments TlsStream {L}.
Arguments ts_socket {L}.
Arguments ts_ssl {L}.

Definition cipher_list : bytes := "ECDHE+AESGCM:ECDHE+CHACHA20:!aNULL:!eNULL:!EXPORT".
Definition ciphersuites : bytes :=
  ("TLS_AES_256_GCM_SHA384:" : bytes) ++ "TLS_CHACHA20_POLY1305_SHA256:" ++ "TLS_AES_128_GCM_SHA256".

Section Tls.
Context {W C L : Type} `{!OpenSsl W C L, !SocketApi W}.

(** [ssl_error_message]; the buffer has 256 chars. *)
Definition ssl_error_message (prefix : bytes) : prog W bytes := λ w,
  let '(code, w) := ERR_get_error w in
  (Ret (if code =? 0 then prefix else prefix ++ ": " ++ c_str (ERR_error_string_n code 256)), w).

Definition throw_ssl_error {A} (prefix : bytes) : prog W A :=
  message ← ssl_error_message prefix; lift (Throw (runtime_error message)).

(** [if (call != 1) throw std::runtime_error(ssl_error_message(prefix));] *)
Definition require_one (call : W → Z * W) (prefix : bytes) : prog W unit := λ w,
  let '(rc, w) := call w in
  (if rc =? 1 then mret tt else throw_ssl_error prefix) w.

Definition configure_context (ctx : C) : prog W unit :=
  _ ← require_one (SSL_CTX_set_min_proto_version ctx TLS1_2_VERSION)
        "failed to set TLS minimum version";
  _ ← require_one (SSL_CTX_set_cipher_list ctx cipher_list) "failed to set TLS cipher list";
  _ ← require_one (SSL_CTX_set_ciphersuites ctx ciphersuites)
        "failed to set TLS 1.3 cipher suites";
  effect (SSL_CTX_set_options ctx [SSL_OP_NO_COMPRESSION; SSL_OP_NO_RENEGOTIATION]).

Definition load_certificate (ctx : C) (certificate_file : path) : prog W unit :=
  require_one (SSL_CTX_use_certificate_file ctx (c_str certificate_file) SSL_FILETYPE_PEM)
    "failed to load TLS certificate".

Definition load_private_key (ctx : C) (private_key_file : path) : prog W unit :=
  require_one (SSL_CTX_use_PrivateKey_file ctx (c_str private_key_file) SSL_FILETYPE_PEM)
    "failed to load TLS private key".

Definition verify_private_key (ctx : C) : prog W unit :=
  require_one (SSL_CTX_check_private_key ctx) "TLS private key does not match certificate".

(** The body of the constructor. *)
Definition setup_context (certificate_file private_key_file : path) (ctx : C) : prog W unit :=
  _ ← configure_context ctx;
  _ ← load_certificate ctx certificate_file;
  _ ← load_private_key ctx private_key_file;
  verify_private_key ctx.

(** [context::context]: an exception frees the context. *)
Definition context_new (certificate_file private_key_file : path) : prog W C := λ w,
  let '(ctx, w) := SSL_CTX_new w in
  match ctx with
  | None => throw_ssl_error "failed to create TLS context" w
  | Some ctx =>
      on_throw (_ ← setup_context certificate_file private_key_file ctx; mret ctx)
        (SSL_CTX_free ctx) w
  end.

Definition map_ssl_status (ssl : option L) (rc : Z) (w : W) : IoStatus.t :=
  match SSL_get_error ssl rc w with
  | SSL_ERROR_ZERO_RETURN => IoStatus.closed
  | SSL_ERROR_WANT_READ | SSL_ERROR_WANT_WRITE => IoStatus.timeout
  | SSL_ERROR_SYSCALL =>
      match errno_of w with
      | errno_other 0 => IoStatus.closed
      | EAGAIN | EWOULDBLOCK => IoStatus.timeout
      | _ => IoStatus.error
      end
  | _ => IoStatus.error
  end.

(** [create_ssl]: an exception frees the connection. *)
Definition create_ssl (ctx : C) (fd : Z) : prog W L := λ w,
  let '(ssl, w) := SSL_new ctx w in
  match ssl with
  | None => throw_ssl_error "failed to create TLS connection state" w
  | Some ssl =>
      on_throw (_ ← require_one (SSL_set_fd ssl fd) "failed to bind TLS state to socket"; mret ssl)
        (SSL_free ssl) w
  end.

(** [stream::stream], which owns its socket: an exception closes it. *)
Definition tls_stream_new (ctx : C) (client : socket) : prog W (tls_stream L) :=
  on_throw (ssl ← create_ssl ctx (sock_fd client); mret (TlsStream client (Some ssl)))
    (socket_delete client).

Definition tls_is_valid (s : tls_stream L * W) : bool :=
  socket_is_valid (ts_socket s.1) && bool_decide (is_Some (ts_ssl s.1)).

(** [stream::close]; the destructor destroys the members in the same order. *)
Definition tls_close (s : tls_stream L * W) : tls_stream L * W :=
  let '(s, w) := s in
  let w := match ts_ssl s with Some ssl => SSL_free ssl w | None => w end in
  let '(sock, w) := socket_close (ts_socket s) w in
  (TlsStream sock None, w).

Definition tls_set_receive_timeout (timeout : Z) (s : tls_stream L * W) : bool * (tls_stream L * W) :=
  let '(ok, w) := socket_set_receive_timeout (ts_socket s.1) timeout s.2 in (ok, (s.1, w)).
Definition tls_set_send_timeout (timeout : Z) (s : tls_stream L * W) : bool * (tls_stream L * W) :=
  let '(ok, w) := socket_set_send_timeout (ts_socket s.1) timeout s.2 in (ok, (s.1, w)).

Definition tls_handshake (s : tls_stream L * W) : outcome (IoStatus.t * (tls_stream L * W)) :=
  let '(rc, w) := SSL_accept (ts_ssl s.1) s.2 in
  if rc =? 1 then Ret (IoStatus.ok, (s.1, w))
  else Ret (map_ssl_status (ts_ssl s.1) rc w, (s.1, w)).

Definition tls_recv_some (size : nat) (s : tls_stream L * W)
    : outcome (read_result * bytes * (tls_stream L * W)) :=
  let '(rc, w) := SSL_read_ex (ts_ssl s.1) size s.2 in
  match rc with
  | inr data => Ret (ReadResult IoStatus.ok (length data), data, (s.1, w))
  | inl rc => Ret (ReadResult (map_ssl_status (ts_ssl s.1) rc w) 0, [], (s.1, w))
  end.

(** [while (sent < data.size())] of [send_all]. *)
Fixpoint ssl_send_loop (fuel : nat) (ssl : option L) (data : bytes) (sent : nat) (w : W)
    : outcome (IoStatus.t * W) :=
  match fuel with
  | O => Diverge
  | S fuel =>
      if (sent <? length data)%nat then
        let '(rc, w) := SSL_write_ex ssl (drop sent data) w in
        match rc with
        | inl rc => Ret (map_ssl_status ssl rc w, w)
        | inr bytes_written => ssl_send_loop fuel ssl data (sent + bytes_written) w
        end
      else Ret (IoStatus.ok, w)
  end.

Definition tls_send_all (data : bytes) (s : tls_stream L * W)
    : outcome (IoStatus.t * (tls_stream L * W)) :=
  '(st, w) ← ssl_send_loop (S (length data)) (ts_ssl s.1) data 0 s.2; Ret (st, (s.1, w)).

#[export] Instance tls_net_stream : NetStream (tls_stream L * W) := {|
  is_valid := tls_is_valid;
  set_receive_timeout := tls_set_receive_timeout;
  set_send_timeout := tls_set_send_timeout;
  handshake := tls_handshake;
  recv_some := tls_recv_some;
  send_all := tls_send_all;
|}.
End Tls.

#[local] Close Scope Z_scope.

(** ** The TLS stream meets the stream interface *)

Lemma map_ssl_status_not_ok {W C L} `{!OpenSsl W C L} ssl rc w : map_ssl_status ssl rc w ≠ IoStatus.ok.
Proof.
  unfold map_ssl_status. destruct (SSL_get_error ssl rc w); try done.
  destruct (errno_of w) as [| | | | | | | |n]; try done. by destruct n.
Qed.

Lemma throw_ssl_error_not_ret {W C L A} `{!OpenSsl W C L} prefix (w : W) (a : A) w' :
  throw_ssl_error prefix w ≠ (Ret a, w').
Proof.
  unfold throw_ssl_error, ssl_error_message, mbind, prog_bind. by destruct (ERR_get_error w).
Qed.

Section TlsLaws.
Context {W C L : Type} `{!OpenSsl W C L, !OpenSslLaws W C L, !SocketApi W}.

Lemma ssl_send_loop_spec fuel ssl data sent w :
  length data - sent < fuel → sent ≤ length data →
  ∃ st w' k, ssl_send_loop fuel ssl data sent w = Ret (st, w') ∧ sent + k ≤ length data ∧
    plaintext ssl w' = plaintext ssl w ++ take k (drop sent data) ∧
    (st = IoStatus.ok → sent + k = length data).
Proof.
  revert sent w. induction fuel as [|fuel IH]; intros sent w Hf Hs; [lia|].
  cbn [ssl_send_loop]. destruct (Nat.ltb_spec sent (length data)) as [Hlt|Hge].
  2: { exists IoStatus.ok, w, 0. rewrite take_0, app_nil_r. split_and!; [done|lia|done|lia]. }
  destruct (SSL_write_ex ssl (drop sent data) w) as [[rc|n] w1] eqn:Hw.
  - apply SSL_write_ex_failed in Hw as (k & Hk & Hp). rewrite length_drop in Hk.
    exists (map_ssl_status ssl rc w1), w1, k. split_and!; [done|lia|exact Hp|].
    intros Hok. by apply map_ssl_status_not_ok in Hok.
  - apply SSL_write_ex_progress in Hw as [Hn Hp].
    2: { intros Hnil%(f_equal length). rewrite length_drop in Hnil. simpl in Hnil. lia. }
    rewrite length_drop in Hn.
    destruct (IH (sent + n) w1) as (st & w' & k & Heq & Hk & Hp' & Hok); [lia..|].
    exists st, w', (n + k). split_and!; [exact Heq|lia| |intros Hst; specialize (Hok Hst); lia].
    rewrite Hp', Hp, <- app_assoc. f_equal. by rewrite <- drop_drop, take_take_drop.
Qed.

#[export] Instance tls_stream_laws : NetStreamLaws (tls_stream L * W).
Proof.
  split.
  - intros [s w]. change (returns (tls_handshake (s, w))). unfold tls_handshake.
    destruct (SSL_accept _ _) as [rc w']. destruct (rc =? 1)%Z; apply returns_ret.
  - intros n [s w]. change (returns (tls_recv_some n (s, w))). unfold tls_recv_some.
    destruct (SSL_read_ex _ _ _) as [[rc|data] w']; apply returns_ret.
  - intros data [s w]. change (returns (tls_send_all data (s, w))). unfold tls_send_all.
    destruct (ssl_send_loop_spec (S (length data)) (ts_ssl s) data 0 w) as (st & w' & k & Heq & _);
      [lia..|]. cbn [fst snd]. rewrite Heq. apply returns_ret.
  - intros n [s w] rr data s' H. change (tls_recv_some n (s, w) = Ret (rr, data, s')) in H.
    unfold tls_recv_some in H. destruct (SSL_read_ex _ _ _) as [[rc|d] w'] eqn:Hr.
    + injection H as <- _ _. intros Hok. by apply map_ssl_status_not_ok in Hok.
    + injection H as <- <- _. intros _. split; [done|]. by eapply SSL_read_ex_bound.
  - intros n [s w] rr data s' H. change (tls_recv_some n (s, w) = Ret (rr, data, s')) in H.
    unfold tls_recv_some in H. destruct (SSL_read_ex _ _ _) as [[rc|d] w'] eqn:Hr.
    + by injection H as _ <- _.
    + by injection H as <- _ _.
Qed.
End TlsLaws.
