(* ===== verification/StreamFactory.v ===== *)
(** * Streams of a connection ([src/app/default_stream_factory.cpp])

    The factory makes a plain or a TLS stream of an accepted socket; both are a
    [net::stream], and a call on one is dispatched to its class.  Whatever the
    peer and OpenSSL do, a connection over such a stream ends, and then its
    socket is closed and its TLS state is freed. *)

From S2P Require Import Prelude.
From S2P Require Import StringView.
From S2P Require Import FsPath.
From S2P Require Import HttpRequest.
From S2P Require Import HttpResponse.
From S2P Require Import Net.
From S2P Require Import Environment.
From S2P Require Import CommandLine.
From S2P Require Import ConnectionHandler.
From S2P Require Import Tls.

(** ** The factory *)

(** A [std::unique_ptr<net::stream>] to one of the two classes. *)
Inductive any_stream (L : Type) :=
  | plain (s : socket)
  | tls_over (s : tls_stream L).
Arguments plain {L}.
Arguments tls_over {L}.

(** [default_stream_factory]: the context is null without TLS. *)
Record default_stream_factory (C : Type) := DefaultStreamFactory { tls_context : option C }.
Arguments DefaultStreamFactory {C}.
Arguments tls_context {C}.

Section Factory.
Context {W C L : Type} `{!OpenSsl W C L, !SocketApi W}.

(** [create_tls_context] *)
Definition create_tls_context (tls : option tls_config) : prog W (option C) :=
  match tls with
  | None => mret None
  | Some tls =>
      ctx ← context_new (certificate_file tls) (private_key_file tls); mret (Some ctx)
  end.

Definition stream_factory_new (tls : option tls_config) : prog W (default_stream_factory C) :=
  ctx ← create_tls_context tls; mret (DefaultStreamFactory ctx).

(** The destructor frees the context. *)
Definition stream_factory_delete (f : default_stream_factory C) (w : W) : W :=
  match tls_context f with Some ctx => SSL_CTX_free ctx w | None => w end.

(** [default_stream_factory::create] *)
Definition create_stream (f : default_stream_factory C) (client : socket)
    : prog W (option (any_stream L)) :=
  match tls_context f with
  | Some ctx => s ← tls_stream_new ctx client; mret (Some (tls_over s))
  | None => mret (Some (plain (plain_stream_new client)))
  end.

(** The destructor of a stream. *)
Definition delete_stream (s : any_stream L) (w : W) : W :=
  match s with
  | plain s => socket_delete s w
  | tls_over s => (tls_close (s, w)).2
  end.

(** *** Dispatch *)

Definition on_stream {A} (s : any_stream L) (w : W)
    (on_plain : socket * W → outcome (A * (socket * W)))
    (on_tls : tls_stream L * W → outcome (A * (tls_stream L * W)))
    : outcome (A * (any_stream L * W)) :=
  match s with
  | plain s => '(a, (s, w)) ← on_plain (s, w); Ret (a, (plain s, w))
  | tls_over s => '(a, (s, w)) ← on_tls (s, w); Ret (a, (tls_over s, w))
  end.

Definition on_stream_now {A} (s : any_stream L) (w : W)
    (on_plain : socket * W → A * (socket * W)) (on_tls : tls_stream L * W → A * (tls_stream L * W))
    : A * (any_stream L * W) :=
  match s with
  | plain s => let '(a, (s, w)) := on_plain (s, w) in (a, (plain s, w))
  | tls_over s => let '(a, (s, w)) := on_tls (s, w) in (a, (tls_over s, w))
  end.

#[export] Instance any_net_stream : NetStream (any_stream L * W) := {|
  is_valid s :=
    match s.1 with
    | plain p => plain_is_valid (p, s.2)
    | tls_over t => tls_is_valid (t, s.2)
    end;
  set_receive_timeout t s :=
    on_stream_now s.1 s.2 (plain_set_receive_timeout t) (tls_set_receive_timeout t);
  set_send_timeout t s :=
    on_stream_now s.1 s.2 (plain_set_send_timeout t) (tls_set_send_timeout t);
  handshake s := on_stream s.1 s.2 plain_handshake tls_handshake;
  recv_some n s := on_stream s.1 s.2 (plain_recv_some n) (tls_recv_some n);
  send_all data s := on_stream s.1 s.2 (plain_send_all data) (tls_send_all data);
|}.
End Factory.

(** ** Both classes meet the stream interface *)

Section Laws.
Context {W C L : Type} `{!OpenSsl W C L, !OpenSslLaws W C L, !SocketApi W, !SocketApiLaws W}.

Lemma on_stream_inv {A} (s : any_stream L) (w : W) f g (a : A) s' :
  on_stream s w f g = Ret (a, s') →
  (∃ p p' w', s = plain p ∧ f (p, w) = Ret (a, (p', w')) ∧ s' = (plain p', w')) ∨
  (∃ t t' w', s = tls_over t ∧ g (t, w) = Ret (a, (t', w')) ∧ s' = (tls_over t', w')).
Proof.
  destruct s as [p|t]; cbn [on_stream]; intros H; inv_bind H; destruct a0 as [a1 [x w1]];
    injection H as <- <-; [left|right]; by eexists _, _, _.
Qed.

Lemma on_stream_returns {A} (s : any_stream L) (w : W) (f : _ → outcome (A * _)) g :
  (∀ x, returns (f x)) → (∀ x, returns (g x)) → returns (on_stream s w f g).
Proof.
  intros Hf Hg. destruct s as [p|t]; cbn [on_stream].
  - destruct (Hf (p, w)) as [[a [x w1]] ->]. apply returns_ret.
  - destruct (Hg (t, w)) as [[a [x w1]] ->]. apply returns_ret.
Qed.

#[export] Instance any_stream_laws : NetStreamLaws (any_stream L * W).
Proof.
  pose proof (plain_stream_laws (W := W)) as Hp. pose proof (tls_stream_laws (L := L) (W := W)) as Ht.
  split.
  - intros s. apply on_stream_returns; [exact (handshake_returns (NetStreamLaws := Hp))|].
    exact (handshake_returns (NetStreamLaws := Ht)).
  - intros n s. apply on_stream_returns; [exact (recv_some_returns (NetStreamLaws := Hp) n)|].
    exact (recv_some_returns (NetStreamLaws := Ht) n).
  - intros data s. apply on_stream_returns; [exact (send_all_returns (NetStreamLaws := Hp) data)|].
    exact (send_all_returns (NetStreamLaws := Ht) data).
  - intros n s rr data s' H.
    apply on_stream_inv in H as [(p & p' & w' & _ & H & _)|(p & p' & w' & _ & H & _)].
    + exact (recv_some_ok (NetStreamLaws := Hp) _ _ _ _ _ H).
    + exact (recv_some_ok (NetStreamLaws := Ht) _ _ _ _ _ H).
  - intros n s rr data s' H.
    apply on_stream_inv in H as [(p & p' & w' & _ & H & _)|(p & p' & w' & _ & H & _)].
    + exact (recv_some_none (NetStreamLaws := Hp) _ _ _ _ _ H).
    + exact (recv_some_none (NetStreamLaws := Ht) _ _ _ _ _ H).
Qed.

(** What was written to a stream so far. *)
Definition written (s : any_stream L * W) : bytes :=
  match s.1 with
  | plain p => outgoing (sock_fd p) s.2
  | tls_over t => plaintext (ts_ssl t) s.2
  end.

(** C39: [send_all] of both stream classes returns; what it added to the bytes
    written, on the socket or inside TLS, is a prefix of the data, in order and
    without repetition, whatever partial writes and interruptions happen; when it
    reports [ok] the prefix is the whole of the data, and a plain stream reports
    [ok] only then. *)
Theorem streams_deliver (s : any_stream L * W) data :
  ∃ st s' k, send_all data s = Ret (st, s') ∧ k ≤ length data ∧
    written s' = written s ++ take k data ∧ (st = IoStatus.ok → k = length data) ∧
    (∀ p, s.1 = plain p → k = length data → st = IoStatus.ok).
Proof.
  destruct s as [[p|t] w].
  - destruct (socket_send_all_delivers p data w) as (st & w' & k & Heq & Hk & Hout & Hok).
    exists st, (plain p, w'), k. split_and!; [|done|done|by apply Hok|intros _ _; by apply Hok].
    cbn [send_all any_net_stream on_stream fst snd]. unfold plain_send_all. cbn [fst snd].
    by rewrite Heq.
  - destruct (ssl_send_loop_spec (S (length data)) (ts_ssl t) data 0 w)
      as (st & w' & k & Heq & Hk & Hout & Hok); [lia..|]. rewrite drop_0 in Hout.
    exists st, (tls_over t, w'), k. split_and!; [|lia|done|by apply Hok|done].
    cbn [send_all any_net_stream on_stream fst snd]. unfold tls_send_all. cbn [fst snd].
    by rewrite Heq.
Qed.
End Laws.

(** ** Lifetimes

    The systems are watched: every call that makes, uses or ends a socket, a TLS
    connection or a TLS context goes into a log. *)

Inductive ctx_call :=
  | ctx_new
  | ctx_min_version (v : protocol_version)
  | ctx_cipher_list (names : bytes)
  | ctx_ciphersuites (names : bytes)
  | ctx_options (options : list ssl_option)
  | ctx_certificate (file : bytes)
  | ctx_private_key (file : bytes)
  | ctx_check_private_key.

(** The numbers are the results. *)
Inductive event (C L : Type) :=
  | call_ctx (c : C) (call : ctx_call) (rc : Z)
  | free_ctx (c : C)
  | use_socket (fd : Z)
  | close_socket (fd : Z)
  | new_ssl (l : L)
  | bind_ssl (l : L) (fd : Z) (rc : Z)
  | use_ssl (p : option L)
  | free_ssl (l : L).
Arguments call_ctx {C L}.
Arguments free_ctx {C L}.
Arguments use_socket {C L}.
Arguments close_socket {C L}.
Arguments new_ssl {C L}.
Arguments bind_ssl {C L}.
Arguments use_ssl {C L}.
Arguments free_ssl {C L}.

(** What an accepted socket can be: open; open under a TLS connection, which is
    used only once the socket is bound to it; or released. *)
Inductive phase (L : Type) :=
  | holding
  | with_ssl (l : L) (bound : bool)
  | released.
Arguments holding {L}.
Arguments with_ssl {L}.
Arguments released {L}.

Section Phases.
Context {C L : Type} `{!EqDecision L}.

Definition advance (fd : Z) (p : phase L) (e : event C L) : option (phase L) :=
  match p, e with
  | holding, use_socket fd' => if decide (fd' = fd) then Some holding else None
  | holding, new_ssl l => Some (with_ssl l false)
  | holding, close_socket fd' => if decide (fd' = fd) then Some released else None
  | with_ssl l b, use_socket fd' => if decide (fd' = fd) then Some (with_ssl l b) else None
  | with_ssl l false, bind_ssl l' fd' rc =>
      if decide (l' = l ∧ fd' = fd) then Some (with_ssl l (rc =? 1)%Z) else None
  | with_ssl l true, use_ssl p => if decide (p = Some l) then Some (with_ssl l true) else None
  | with_ssl l _, free_ssl l' => if decide (l' = l) then Some holding else None
  | _, _ => None
  end.

(** The phase of the socket [fd] after a log. *)
Definition after_log (fd : Z) (t : list (event C L)) : option (phase L) :=
  foldl (λ o e, p ← o; advance fd p e) (Some holding) t.

Lemma after_log_snoc fd t p es :
  after_log fd t = Some p → after_log fd (t ++ es) = foldl (λ o e, p ← o; advance fd p e) (Some p) es.
Proof. unfold after_log. by rewrite foldl_app; intros ->. Qed.
End Phases.

Section Watched.
Context {W C L : Type} `{O : !OpenSsl W C L, N : !SocketApi W}.

Abbreviation log := (list (event C L)).

Definition watch_effect (e : event C L) (call : W → W) : W * log → W * log :=
  λ '(w, t), (call w, t ++ [e]).

#[local] Instance watched_sockets : SocketApi (W * log) := {
  sys_recv fd n := watch (λ _, [use_socket fd]) (sys_recv fd n);
  sys_send fd data := watch (λ _, [use_socket fd]) (sys_send fd data);
  sys_setsockopt fd o t := watch (λ _, [use_socket fd]) (sys_setsockopt fd o t);
  sys_shutdown_write fd := watch_effect (use_socket fd) (sys_shutdown_write fd);
  sys_close fd := watch_effect (close_socket fd) (sys_close fd);
  interrupts w := interrupts w.1;
  outgoing fd w := outgoing fd w.1;
}.

Definition watch_ctx (c : C) (call : ctx_call) (f : W → Z * W) : W * log → Z * (W * log) :=
  watch (λ rc, [call_ctx c call rc]) f.

#[local] Instance watched_openssl : OpenSsl (W * log) C L := {
  SSL_CTX_new := watch (λ r, match r with Some c => [call_ctx c ctx_new 1] | None => [] end) SSL_CTX_new;
  SSL_CTX_free c := watch_effect (free_ctx c) (SSL_CTX_free c);
  SSL_CTX_set_min_proto_version c v :=
    watch_ctx c (ctx_min_version v) (SSL_CTX_set_min_proto_version c v);
  SSL_CTX_set_cipher_list c s := watch_ctx c (ctx_cipher_list s) (SSL_CTX_set_cipher_list c s);
  SSL_CTX_set_ciphersuites c s := watch_ctx c (ctx_ciphersuites s) (SSL_CTX_set_ciphersuites c s);
  SSL_CTX_set_options c os := watch_effect (call_ctx c (ctx_options os) 1) (SSL_CTX_set_options c os);
  SSL_CTX_use_certificate_file c p k :=
    watch_ctx c (ctx_certificate p) (SSL_CTX_use_certificate_file c p k);
  SSL_CTX_use_PrivateKey_file c p k :=
    watch_ctx c (ctx_private_key p) (SSL_CTX_use_PrivateKey_file c p k);
  SSL_CTX_check_private_key c := watch_ctx c ctx_check_private_key (SSL_CTX_check_private_key c);
  SSL_new c := watch (λ r, match r with Some l => [new_ssl l] | None => [] end) (SSL_new c);
  SSL_free l := watch_effect (free_ssl l) (SSL_free l);
  SSL_set_fd l fd := watch (λ rc, [bind_ssl l fd rc]) (SSL_set_fd l fd);
  SSL_accept p := watch (λ _, [use_ssl p]) (SSL_accept p);
  SSL_read_ex p n := watch (λ _, [use_ssl p]) (SSL_read_ex p n);
  SSL_write_ex p data := watch (λ _, [use_ssl p]) (SSL_write_ex p data);
  SSL_get_error p rc w := SSL_get_error p rc w.1;
  errno_of w := errno_of w.1;
  ERR_get_error := watch (λ _, []) ERR_get_error;
  ERR_error_string_n := ERR_error_string_n;
  plaintext p w := plaintext p w.1;
}.

#[local] Instance watched_socket_laws : SocketApiLaws W → SocketApiLaws (W * log).
Proof.
  intros HN. split; cbn.
  - intros fd n [w t] data w'. cbn. destruct (sys_recv fd n w) as [r w1] eqn:H.
    intros [= -> _]. by eapply sys_recv_bound.
  - intros fd n [w t] w'. cbn. destruct (sys_recv fd n w) as [r w1] eqn:H.
    intros [= -> <-]. by eapply sys_recv_interrupted.
  - intros fd data [w t] n w'. cbn. destruct (sys_send fd data w) as [r w1] eqn:H.
    intros [= -> <-]. by eapply sys_send_progress.
  - intros fd data [w t] e w'. cbn. destruct (sys_send fd data w) as [r w1] eqn:H.
    intros [= -> <-]. by eapply sys_send_failed.
Qed.

#[local] Instance watched_openssl_laws : OpenSslLaws W C L → OpenSslLaws (W * log) C L.
Proof.
  intros HO. split; cbn.
  - intros p n [w t] data w'. cbn. destruct (SSL_read_ex p n w) as [r w1] eqn:H.
    intros [= -> _]. by eapply SSL_read_ex_bound.
  - intros p data [w t] n w'. cbn. destruct (SSL_write_ex p data w) as [r w1] eqn:H.
    intros [= -> <-]. by eapply SSL_write_ex_progress.
  - intros p data [w t] rc w'. cbn. destruct (SSL_write_ex p data w) as [r w1] eqn:H.
    intros [= -> <-]. by eapply SSL_write_ex_failed.
Qed.
End Watched.

(** ** Peers that send finitely many bytes *)

Definition received {E} (r : E + bytes) : nat := match r with inl _ => 0 | inr d => length d end.

(** [peer_bytes w] bounds the bytes that the reads from [w] on will deliver. *)
Class FinitePeers (W C L : Type) `{!OpenSsl W C L, !SocketApi W} := {
  peer_bytes : W → nat;
  peer_recv fd n w r w' : sys_recv fd n w = (r, w') → peer_bytes w' + received r ≤ peer_bytes w;
  peer_send fd d w r w' : sys_send fd d w = (r, w') → peer_bytes w' ≤ peer_bytes w;
  peer_setsockopt fd o t w r w' : sys_setsockopt fd o t w = (r, w') → peer_bytes w' ≤ peer_bytes w;
  peer_ssl_new c w r w' : SSL_new c w = (r, w') → peer_bytes w' ≤ peer_bytes w;
  peer_set_fd l fd w r w' : SSL_set_fd l fd w = (r, w') → peer_bytes w' ≤ peer_bytes w;
  peer_accept p w r w' : SSL_accept p w = (r, w') → peer_bytes w' ≤ peer_bytes w;
  peer_read p n w r w' : SSL_read_ex p n w = (r, w') → peer_bytes w' + received r ≤ peer_bytes w;
  peer_write p d w r w' : SSL_write_ex p d w = (r, w') → peer_bytes w' ≤ peer_bytes w;
}.

Section Finite.
Context {W C L : Type} `{!OpenSsl W C L, !SocketApi W, !FinitePeers W C L}.

Lemma recv_loop_peer fuel fd n w rr data w' :
  recv_loop fuel fd n w = Ret (rr, data, w') → peer_bytes w' + length data ≤ peer_bytes w.
Proof.
  revert w. induction fuel as [|fuel IH]; intros w; [done|]. cbn [recv_loop].
  destruct (sys_recv fd n w) as [[e|d] w1] eqn:Hr; apply peer_recv in Hr; cbn in Hr.
  - destruct e; [intros H%IH; lia|..]; intros [= _ <- <-]; simpl; lia.
  - destruct d as [|x d]; intros [= _ <- <-]; simpl in *; lia.
Qed.

Lemma send_loop_peer fuel fd data sent w st w' :
  send_loop fuel fd data sent w = Ret (st, w') → peer_bytes w' ≤ peer_bytes w.
Proof.
  revert sent w. induction fuel as [|fuel IH]; intros sent w; [done|]. cbn [send_loop].
  destruct (sent <? length data); [|by intros [= _ <-]].
  destruct (sys_send fd (drop sent data) w) as [[e|k] w1] eqn:Hs; apply peer_send in Hs.
  - destruct e; [intros H%IH; lia|..]; intros [= _ <-]; lia.
  - destruct k as [|k]; [intros [= _ <-]; lia|]. intros H%IH. lia.
Qed.

Lemma ssl_send_loop_peer fuel p data sent w st w' :
  ssl_send_loop fuel p data sent w = Ret (st, w') → peer_bytes w' ≤ peer_bytes w.
Proof.
  revert sent w. induction fuel as [|fuel IH]; intros sent w; [done|]. cbn [ssl_send_loop].
  destruct (sent <? length data); [|by intros [= _ <-]].
  destruct (SSL_write_ex p (drop sent data) w) as [[rc|k] w1] eqn:Hs; apply peer_write in Hs.
  - intros [= _ <-]; lia.
  - intros H%IH. lia.
Qed.

Lemma create_stream_peer f client w (s : any_stream L) w' :
  create_stream f client w = (Ret (Some s), w') → peer_bytes w' ≤ peer_bytes w.
Proof.
  unfold create_stream. destruct (tls_context f) as [ctx|]; [|by intros [= _ <-]].
  intros (t & w1 & H & [= _ <-])%prog_bind_inv. apply on_throw_ret in H.
  apply prog_bind_inv in H as (l & w2 & H & [= _ <-]). unfold create_ssl in H.
  destruct (SSL_new ctx w) as [[l1|] w3] eqn:Hn; apply peer_ssl_new in Hn.
  - apply on_throw_ret in H. apply prog_bind_inv in H as ([] & w4 & H & [= _ <-]).
    unfold require_one in H. destruct (SSL_set_fd l1 (sock_fd client) w3) as [rc w5] eqn:Hs.
    apply peer_set_fd in Hs. destruct (rc =? 1)%Z.
    + injection H as <-. lia.
    + by apply throw_ssl_error_not_ret in H.
  - by apply throw_ssl_error_not_ret in H.
Qed.

(** Setting a timeout is the same call for both classes. *)
Definition set_timeout (o : timeout_option) (t : Z) (s : any_stream L * W)
    : bool * (any_stream L * W) :=
  let fd := match s.1 with plain p => sock_fd p | tls_over p => sock_fd (ts_socket p) end in
  let '(ok, w) := sys_setsockopt fd o (to_timeval t) s.2 in (ok, (s.1, w)).

Lemma set_receive_timeout_eq t (s : any_stream L * W) :
  set_receive_timeout t s = set_timeout SO_RCVTIMEO t s.
Proof.
  destruct s as [[p|[p l]] w]; cbn; unfold plain_set_receive_timeout, tls_set_receive_timeout,
    socket_set_receive_timeout, set_timeout; cbn; by destruct (sys_setsockopt _ _ _ _).
Qed.

Lemma set_send_timeout_eq t (s : any_stream L * W) :
  set_send_timeout t s = set_timeout SO_SNDTIMEO t s.
Proof.
  destruct s as [[p|[p l]] w]; cbn; unfold plain_set_send_timeout, tls_set_send_timeout,
    socket_set_send_timeout, set_timeout; cbn; by destruct (sys_setsockopt _ _ _ _).
Qed.

Lemma set_timeout_peer o t s : peer_bytes (set_timeout o t s).2.2 ≤ peer_bytes s.2.
Proof.
  unfold set_timeout. destruct (sys_setsockopt _ _ _ _) as [ok w] eqn:H. by eapply peer_setsockopt.
Qed.

#[export] Instance any_stream_finite : FiniteStream (any_stream L * W).
Proof.
  refine {| remaining (s : any_stream L * W) := peer_bytes s.2 |}.
  - intros n s rr data s' H.
    apply on_stream_inv in H as [(p & p' & w' & _ & H & ->)|(p & p' & w' & _ & H & ->)].
    + unfold plain_recv_some in H. inv_bind H. destruct a as [[rr1 d1] w1].
      injection H as _ <- _ <-. by apply recv_loop_peer in Ha.
    + unfold tls_recv_some in H. cbn [fst snd] in *.
      destruct (SSL_read_ex _ _ _) as [r w1] eqn:Hr. apply peer_read in Hr.
      destruct r as [rc|d]; injection H as _ <- _ <-; cbn in *; lia.
  - intros data s st s' H.
    apply on_stream_inv in H as [(p & p' & w' & _ & H & ->)|(p & p' & w' & _ & H & ->)].
    + unfold plain_send_all in H. inv_bind H. destruct a as [st1 w1].
      injection H as _ _ <-. by apply send_loop_peer in Ha.
    + unfold tls_send_all in H. inv_bind H. destruct a as [st1 w1].
      injection H as _ _ <-. by apply ssl_send_loop_peer in Ha.
  - intros t s. rewrite set_receive_timeout_eq. apply set_timeout_peer.
  - intros t s. rewrite set_send_timeout_eq. apply set_timeout_peer.
  - intros s st s' H.
    apply on_stream_inv in H as [(p & p' & w' & _ & H & ->)|(p & p' & w' & _ & H & ->)].
    + by injection H as _ _ <-.
    + unfold tls_handshake in H. cbn [fst snd] in *.
      destruct (SSL_accept _ _) as [rc w1] eqn:Hr. apply peer_accept in Hr.
      destruct (rc =? 1)%Z; by injection H as _ _ <-.
Defined.
End Finite.

(** ** A connection ends and leaves nothing open *)

Section Lifetimes.
Context {W C L : Type} `{O : !OpenSsl W C L, N : !SocketApi W, !EqDecision L}.

Abbreviation log := (list (event C L)).

#[local] Existing Instances watched_sockets watched_openssl watched_socket_laws watched_openssl_laws.

#[local] Instance watched_finite : FinitePeers W C L → FinitePeers (W * log) C L.
Proof.
  intros HF. refine {| peer_bytes (w : W * log) := peer_bytes w.1 |}.
  - intros fd n [w t] r w'. cbn. destruct (sys_recv fd n w) as [r1 w1] eqn:H.
    intros [= <- <-]. by apply peer_recv in H.
  - intros fd d [w t] r w'. cbn. destruct (sys_send fd d w) as [r1 w1] eqn:H.
    intros [= <- <-]. by apply peer_send in H.
  - intros fd o tv [w t] r w'. cbn. destruct (sys_setsockopt fd o tv w) as [r1 w1] eqn:H.
    intros [= <- <-]. by apply peer_setsockopt in H.
  - intros c [w t] r w'. cbn. destruct (SSL_new c w) as [r1 w1] eqn:H.
    intros [= <- <-]. by apply peer_ssl_new in H.
  - intros l fd [w t] r w'. cbn. destruct (SSL_set_fd l fd w) as [r1 w1] eqn:H.
    intros [= <- <-]. by apply peer_set_fd in H.
  - intros p [w t] r w'. cbn. destruct (SSL_accept p w) as [r1 w1] eqn:H.
    intros [= <- <-]. by apply peer_accept in H.
  - intros p n [w t] r w'. cbn. destruct (SSL_read_ex p n w) as [r1 w1] eqn:H.
    intros [= <- <-]. by apply peer_read in H.
  - intros p d [w t] r w'. cbn. destruct (SSL_write_ex p d w) as [r1 w1] eqn:H.
    intros [= <- <-]. by apply peer_write in H.
Defined.

(** The log of [w] leads the socket [fd] to the phase [p]. *)
Definition in_phase (fd : Z) (p : phase L) (w : W * log) : Prop := after_log fd w.2 = Some p.

(** Calls that a phase allows and that keep it. *)
Definition quiet (fd : Z) (p : phase L) (e : event C L) : Prop := advance fd p e = Some p.

Lemma in_phase_step fd p p' w t w' e :
  in_phase fd p (w, t) → advance fd p e = Some p' → in_phase fd p' (w', t ++ [e]).
Proof. unfold in_phase. cbn [snd]. intros H He. rewrite (after_log_snoc _ _ _ _ H). exact He. Qed.

Lemma in_phase_same fd p w t w' : in_phase fd p (w, t) → in_phase fd p (w', t ++ []).
Proof. unfold in_phase. cbn [snd]. by rewrite app_nil_r. Qed.

(** A call with one event. *)
Lemma watch_one {A} fd p p' e (f : W → A * W) (w : W * log) a w' :
  watch (λ _, [e]) f w = (a, w') → advance fd p e = Some p' → in_phase fd p w → in_phase fd p' w'.
Proof.
  destruct w as [w t]. unfold watch. destruct (f w) as [a1 w1]. intros [= _ <-] He Hw.
  by eapply in_phase_step.
Qed.

Lemma recv_loop_phase fd p fuel n w rr data w' :
  quiet fd p (use_socket fd) →
  recv_loop fuel fd n w = Ret (rr, data, w') → in_phase fd p w → in_phase fd p w'.
Proof.
  intros Hq. revert w. induction fuel as [|fuel IH]; intros w; [done|]. cbn [recv_loop].
  destruct (sys_recv fd n w) as [[e|d] w1] eqn:Hr; intros H Hw;
    apply (watch_one fd p p (use_socket fd) (sys_recv fd n)) in Hr; try done.
  - destruct e; [by eapply IH|by injection H as _ _ <-..].
  - destruct d; by injection H as _ _ <-.
Qed.

Lemma send_loop_phase fd p fuel data sent w st w' :
  quiet fd p (use_socket fd) →
  send_loop fuel fd data sent w = Ret (st, w') → in_phase fd p w → in_phase fd p w'.
Proof.
  intros Hq. revert sent w. induction fuel as [|fuel IH]; intros sent w; [done|]. cbn [send_loop].
  destruct (sent <? length data); [|by intros [= _ <-]].
  destruct (sys_send fd (drop sent data) w) as [[e|k] w1] eqn:Hr; intros H Hw;
    apply (watch_one fd p p (use_socket fd) (sys_send fd (drop sent data))) in Hr; try done.
  - destruct e; [by eapply IH|by injection H as _ <-..].
  - destruct k; [by injection H as _ <-|by eapply IH].
Qed.

Lemma ssl_send_loop_phase fd p l fuel data sent w st w' :
  quiet fd p (use_ssl l) →
  ssl_send_loop fuel l data sent w = Ret (st, w') → in_phase fd p w → in_phase fd p w'.
Proof.
  intros Hq. revert sent w. induction fuel as [|fuel IH]; intros sent w; [done|].
  cbn [ssl_send_loop]. destruct (sent <? length data); [|by intros [= _ <-]].
  destruct (SSL_write_ex l (drop sent data) w) as [[rc|k] w1] eqn:Hr; intros H Hw;
    apply (watch_one fd p p (use_ssl l) (SSL_write_ex l (drop sent data))) in Hr; try done.
  - by injection H as _ <-.
  - by eapply IH.
Qed.

(** A stream in use over the socket [fd]. *)
Definition stream_live (fd : Z) (s : any_stream L * (W * log)) : Prop :=
  match s.1 with
  | plain p => sock_fd p = fd ∧ in_phase fd holding s.2
  | tls_over t => sock_fd (ts_socket t) = fd ∧
      ∃ l, ts_ssl t = Some l ∧ in_phase fd (with_ssl l true) s.2
  end.

Lemma quiet_holding fd : quiet fd holding (use_socket fd).
Proof. unfold quiet. cbn. by rewrite decide_True. Qed.

Lemma quiet_socket fd l b : quiet fd (with_ssl l b) (use_socket fd).
Proof. unfold quiet. destruct b; cbn; by rewrite decide_True. Qed.

Lemma quiet_ssl fd l : quiet fd (with_ssl l true) (use_ssl (Some l)).
Proof. unfold quiet. cbn. by rewrite decide_True. Qed.

#[local] Hint Resolve quiet_holding quiet_socket quiet_ssl : core.

Lemma set_timeout_live fd o t s : stream_live fd s → stream_live fd (set_timeout o t s).2.
Proof.
  unfold set_timeout. destruct s as [[p|p] w]; cbn [fst snd]; unfold stream_live; cbn [fst snd].
  - destruct (sys_setsockopt _ _ _ w) as [ok w1] eqn:H. intros [<- Hw]. split; [done|].
    eapply watch_one; [exact H|apply quiet_holding|exact Hw].
  - destruct (sys_setsockopt _ _ _ w) as [ok w1] eqn:H. intros (<- & l & Hl & Hw). split; [done|].
    exists l. split; [done|]. eapply watch_one; [exact H|apply quiet_socket|exact Hw].
Qed.

#[export] Instance stream_live_invariant fd : StreamInvariant (stream_live fd).
Proof.
  split.
  - intros t s. rewrite set_receive_timeout_eq. apply set_timeout_live.
  - intros t s. rewrite set_send_timeout_eq. apply set_timeout_live.
  - intros [s w] st s' H.
    apply on_stream_inv in H as [(p & p' & w' & Hs & H & ->)|(p & p' & w' & Hs & H & ->)];
      cbn [fst snd] in *; subst s; unfold stream_live; cbn [fst snd].
    + by injection H as _ <- <-.
    + intros (Hfd & l & Hl & Hw). unfold tls_handshake in H. cbn [fst snd] in H. rewrite Hl in H.
      destruct (SSL_accept (Some l) w) as [rc w1] eqn:Hr.
      eapply (watch_one fd _ _ _ (SSL_accept (Some l))) in Hr; [|apply quiet_ssl|exact Hw].
      destruct (rc =? 1)%Z; injection H as _ <- <-; eauto.
  - intros n [s w] rr data s' H.
    apply on_stream_inv in H as [(p & p' & w' & Hs & H & ->)|(p & p' & w' & Hs & H & ->)];
      cbn [fst snd] in *; subst s; unfold stream_live; cbn [fst snd].
    + intros [Hfd Hw]. unfold plain_recv_some in H. inv_bind H. destruct a as [[rr1 d1] w1].
      injection H as _ _ <- <-. split; [done|]. unfold socket_recv_some in Ha. cbn [fst snd] in Ha.
      rewrite Hfd in Ha. eapply recv_loop_phase; [apply quiet_holding|exact Ha|exact Hw].
    + intros (Hfd & l & Hl & Hw). unfold tls_recv_some in H. cbn [fst snd] in H. rewrite Hl in H.
      destruct (SSL_read_ex (Some l) n w) as [rc w1] eqn:Hr.
      eapply (watch_one fd _ _ _ (SSL_read_ex (Some l) n)) in Hr; [|apply quiet_ssl|exact Hw].
      destruct rc; injection H as _ _ <- <-; eauto.
  - intros data [s w] st s' H.
    apply on_stream_inv in H as [(p & p' & w' & Hs & H & ->)|(p & p' & w' & Hs & H & ->)];
      cbn [fst snd] in *; subst s; unfold stream_live; cbn [fst snd].
    + intros [Hfd Hw]. unfold plain_send_all in H. inv_bind H. destruct a as [st1 w1].
      injection H as _ <- <-. split; [done|]. unfold socket_send_all in Ha. cbn [fst snd] in Ha.
      rewrite Hfd in Ha. eapply send_loop_phase; [apply quiet_holding|exact Ha|exact Hw].
    + intros (Hfd & l & Hl & Hw). unfold tls_send_all in H. inv_bind H. destruct a as [st1 w1].
      injection H as _ <- <-. cbn [fst snd] in Ha. rewrite Hl in Ha. split; [done|].
      exists l. split; [done|].
      eapply ssl_send_loop_phase; [apply quiet_ssl|exact Ha|exact Hw].
Qed.

Lemma socket_close_phase s w :
  (0 ≤ sock_fd s)%Z → in_phase (sock_fd s) holding w →
  in_phase (sock_fd s) released (socket_close s w).2.
Proof.
  intros Hfd Hw. unfold socket_close. rewrite (proj2 (Z.leb_le _ _) Hfd). cbn [snd].
  destruct w as [w t]. set (w1 := sys_shutdown_write (sock_fd s) w).
  apply (in_phase_step _ holding _ w1); [|cbn; by rewrite decide_True].
  apply (in_phase_step _ holding _ w); [exact Hw|apply quiet_holding].
Qed.

Lemma throw_ssl_error_eq {A} prefix (w : W * log) :
  ∃ e w1, @throw_ssl_error _ C L _ A prefix w = (Throw e, (w1, w.2)).
Proof.
  destruct w as [w t]. unfold throw_ssl_error, ssl_error_message, mbind, prog_bind.
  cbn [ERR_get_error watched_openssl]. unfold watch.
  destruct (ERR_get_error w) as [code w1]. cbn. rewrite app_nil_r. by eexists _, w1.
Qed.

Lemma create_ssl_phase fd ctx w :
  in_phase fd holding w →
  match create_ssl ctx fd w with
  | (Ret l, w') => in_phase fd (with_ssl l true) w'
  | (Throw _, w') => in_phase fd holding w'
  | _ => False
  end.
Proof.
  intros Hw. destruct w as [w t]. unfold create_ssl. cbn [SSL_new watched_openssl]. unfold watch at 1.
  destruct (SSL_new ctx w) as [[l|] w1].
  - assert (H1 : in_phase fd (with_ssl l false) (w1, t ++ [new_ssl l])) by by eapply in_phase_step.
    unfold on_throw, require_one, mbind, prog_bind. cbn [SSL_set_fd watched_openssl].
    unfold watch at 1.
    destruct (SSL_set_fd l fd w1) as [rc w2].
    assert (H2 : in_phase fd (with_ssl l (rc =? 1)%Z) (w2, (t ++ [new_ssl l]) ++ [bind_ssl l fd rc])).
    { eapply in_phase_step; [exact H1|]. cbn. by rewrite decide_True. }
    destruct (rc =? 1)%Z; [exact H2|].
    destruct (throw_ssl_error_eq (A := unit) "failed to bind TLS state to socket"
      (w2, (t ++ [new_ssl l]) ++ [bind_ssl l fd rc])) as (e & w3 & ->).
    eapply in_phase_step; [exact H2|]. cbn. by rewrite decide_True.
  - destruct (throw_ssl_error_eq (A := L) "failed to create TLS connection state" (w1, t ++ []))
      as (e & w3 & ->). exact (in_phase_same _ _ _ _ w3 Hw).
Qed.

Lemma create_stream_phase f client w :
  (0 ≤ sock_fd client)%Z → in_phase (sock_fd client) holding w →
  match create_stream f client w with
  | (Ret (Some s), w') => stream_live (sock_fd client) (s, w')
  | (Throw _, w') => in_phase (sock_fd client) released w'
  | _ => False
  end.
Proof.
  intros Hfd Hw. unfold create_stream. destruct (tls_context f) as [ctx|]; [|done].
  unfold tls_stream_new, on_throw, mbind, prog_bind, mret, prog_ret.
  pose proof (create_ssl_phase (sock_fd client) ctx w Hw) as Hc.
  destruct (create_ssl ctx (sock_fd client) w) as [[l|e| |] w1]; [|by apply socket_close_phase|done|done].
  split; [done|]. by exists l.
Qed.

Lemma delete_stream_phase fd s w :
  (0 ≤ fd)%Z → stream_live fd (s, w) → in_phase fd released (delete_stream s w).
Proof.
  intros Hfd. unfold stream_live. destruct s as [p|[p l]]; cbn [fst snd delete_stream].
  - intros [<- Hw]. by apply socket_close_phase.
  - cbn [ts_socket ts_ssl]. intros (<- & l' & -> & Hw). unfold tls_close. cbn [ts_ssl ts_socket].
    destruct w as [w t]. set (w1 := SSL_free l' (w, t)).
    assert (H1 : in_phase (sock_fd p) holding w1).
    { apply (in_phase_step _ (with_ssl l' true) _ w); [exact Hw|]. cbn. by rewrite decide_True. }
    pose proof (socket_close_phase p w1 Hfd H1) as H2. by destruct (socket_close p w1).
Qed.

(** A run of [handle_connection] that returns has released its socket. *)
Lemma connection_released {V} (f : default_stream_factory C)
    (clk : clocks) (https_enabled : bool) (request_handler : request → prog V response)
    (out_of_range_what : bytes) fuel client (w : W) (v : V) x w' t :
  (0 ≤ sock_fd client)%Z →
  handle_connection clk https_enabled request_handler out_of_range_what
    (create_stream f) delete_stream fuel client (w, []) v = (Ret x, (w', t)) →
  after_log (sock_fd client) t = Some released.
Proof.
  intros Hfd Heq. change (in_phase (sock_fd client) released (w', t)). revert Heq.
  assert (Hw : in_phase (sock_fd client) holding (w, [])) by done.
  pose proof (create_stream_phase f client (w, []) Hfd Hw) as Hc. unfold handle_connection.
  destruct (create_stream f client (w, [])) as [[[s|]|e| |] w1]; [|done| |done|done].
  2: { by intros [= _ <-]. }
  destruct (is_valid (s, w1)).
  2: { intros [= _ <-]. by apply delete_stream_phase. }
  pose proof (serve_stream_keeps (stream_live (sock_fd client)) clk https_enabled request_handler
    out_of_range_what fuel (peer_address client) (Connection (s, w1) v [] 0) Hc) as Hk.
  destruct (serve_stream _ _ _ _ _ _ _) as [r c]. cbn [snd] in Hk. intros [= _ <-].
  apply delete_stream_phase; [done|]. by destruct (cn_stream c).
Qed.

(** It returns, with the socket released. *)
Lemma connection_releases {V} (f : default_stream_factory C)
    (clk : clocks) (https_enabled : bool) (request_handler : request → prog V response)
    (out_of_range_what : bytes) (P : V → Prop) fuel client (w : W) (v : V)
    `{!SocketApiLaws W, !OpenSslLaws W C L, !FinitePeers W C L} :
  (∀ req, stays P (request_handler req)) → P v → (0 ≤ sock_fd client)%Z → peer_bytes w < fuel →
  ∃ tr v' w' t,
    handle_connection clk https_enabled request_handler out_of_range_what
      (create_stream f) delete_stream fuel client (w, []) v = (Ret (tr, v'), (w', t)) ∧
    after_log (sock_fd client) t = Some released ∧ P v'.
Proof.
  intros Hh Hv Hfd Hf.
  assert (Hw : in_phase (sock_fd client) holding (w, [])) by done.
  pose proof (create_stream_phase f client (w, []) Hfd Hw) as Hc.
  destruct (handle_connection_returns clk https_enabled request_handler out_of_range_what
    (create_stream f) delete_stream P Hh fuel client (w, []) v Hv)
    as (tr & v' & [w' t] & Heq).
  { by destruct (create_stream f client (w, [])) as [[]]. }
  { intros s w1 H. apply create_stream_peer in H. cbn in *. lia. }
  exists tr, v', w', t. split; [exact Heq|]. split; [by eapply connection_released|].
  apply handle_connection_spec in Heq as (tr0 & ex & Hconv & _). by eapply conversation_stays.
Qed.

(** C15: a connection leaves nothing open.  For every stream factory, plain or TLS,
    whatever the peer, the operating system and OpenSSL do: if the handler returns
    or throws in the worlds of an invariant and keeps it, and the peer sends finitely
    many bytes, [handle_connection] returns and keeps the invariant, and the calls it made on the accepted socket, in order, are: uses of the open
    socket; under TLS, a connection that is used only after the socket was bound
    to it and is freed once, before the socket; and one close at the end, after
    which nothing is used.  This includes a failed creation of the TLS state, a
    failed handshake, and an exception of the handler. *)
Theorem connection_resources {V} (f : default_stream_factory C)
    (clk : clocks) (https_enabled : bool) (request_handler : request → prog V response)
    (out_of_range_what : bytes) (P : V → Prop) fuel client (w : W) (v : V)
    `{!SocketApiLaws W, !OpenSslLaws W C L, !FinitePeers W C L} :
  (∀ req, stays P (request_handler req)) → P v → (0 ≤ sock_fd client)%Z → peer_bytes w < fuel →
  ∃ tr v' w' t,
    handle_connection clk https_enabled request_handler out_of_range_what
      (create_stream f) delete_stream fuel client (w, []) v = (Ret (tr, v'), (w', t)) ∧
    after_log (sock_fd client) t = Some released ∧ P v'.
Proof. intros Hh Hv Hfd Hf. exact (connection_releases _ _ _ _ _ _ _ _ _ _ Hh Hv Hfd Hf). Qed.
End Lifetimes.

(** ** The context of the factory *)

Section ContextCalls.
Context {W C L : Type} `{O : !OpenSsl W C L, N : !SocketApi W}.

Abbreviation log := (list (event C L)).

#[local] Existing Instances watched_sockets watched_openssl.

(** The calls on a new context, in order. *)
Definition context_calls (tls : tls_config) : list ctx_call :=
  [ctx_new; ctx_min_version TLS1_2_VERSION; ctx_cipher_list cipher_list;
   ctx_ciphersuites ciphersuites; ctx_options [SSL_OP_NO_COMPRESSION; SSL_OP_NO_RENEGOTIATION];
   ctx_certificate (c_str (certificate_file tls)); ctx_private_key (c_str (private_key_file tls));
   ctx_check_private_key].

Definition succeeded (ctx : C) (cs : list ctx_call) : log := (λ c, call_ctx ctx c 1) <$> cs.

(** [t'] adds the calls [cs] up to one that fails. *)
Definition fails_within (ctx : C) (cs : list ctx_call) (t t' : log) : Prop :=
  ∃ before c after rc, cs = before ++ c :: after ∧ rc ≠ 1%Z ∧
    t' = t ++ succeeded ctx before ++ [call_ctx ctx c rc].

(** A part of the constructor makes the calls [cs] and stops at one that fails. *)
Definition makes {A} (ctx : C) (m : prog (W * log) A) (cs : list ctx_call) : Prop :=
  ∀ w t, match m (w, t) with
         | (Ret _, (_, t')) => t' = t ++ succeeded ctx cs
         | (Throw _, (_, t')) => fails_within ctx cs t t'
         | _ => False
         end.

Lemma makes_bind {A B} ctx (m : prog (W * log) A) (f : A → prog (W * log) B) cs1 cs2 :
  makes ctx m cs1 → (∀ a, makes ctx (f a) cs2) → makes ctx (m ≫= f) (cs1 ++ cs2).
Proof.
  intros Hm Hf w t. specialize (Hm w t). unfold mbind, prog_bind.
  destruct (m (w, t)) as [[a|e| |] [w1 t1]]; [|  |done|done].
  - subst t1. specialize (Hf a w1 (t ++ succeeded ctx cs1)).
    destruct (f a (w1, t ++ succeeded ctx cs1)) as [[b|e| |] [w2 t2]]; [| |done|done].
    + rewrite Hf, <- app_assoc. f_equal. unfold succeeded. by rewrite fmap_app.
    + destruct Hf as (before & c & rest & rc & -> & Hrc & ->). exists (cs1 ++ before), c, rest, rc.
      split; [by rewrite <- app_assoc|split; [done|]]. unfold succeeded.
      by rewrite fmap_app, <- !app_assoc.
  - destruct Hm as (before & c & rest & rc & -> & Hrc & ->). exists before, c, (rest ++ cs2), rc.
    split; [by rewrite <- app_assoc|done].
Qed.

Lemma makes_require ctx c (f : W → Z * W) prefix :
  makes ctx (require_one (watch_ctx ctx c f) prefix) [c].
Proof.
  intros w t. unfold require_one, watch_ctx, watch. destruct (f w) as [rc w1].
  destruct (Z.eqb_spec rc 1) as [->|Hne]; [done|].
  destruct (throw_ssl_error_eq (A := unit) prefix (w1, t ++ [call_ctx ctx c rc])) as (e & w2 & ->).
  by exists [], c, [], rc.
Qed.

Lemma makes_effect ctx c (f : W → W) : makes ctx (effect (watch_effect (call_ctx ctx c 1) f)) [c].
Proof. by intros w t. Qed.

Lemma setup_context_makes tls ctx :
  makes ctx (setup_context (certificate_file tls) (private_key_file tls) ctx)
    (tail (context_calls tls)).
Proof.
  unfold setup_context, configure_context, load_certificate, load_private_key, verify_private_key.
  apply (makes_bind ctx _ _ [_; _; _; _] [_; _; _]); [|intros _].
  - apply (makes_bind ctx _ _ [_] [_; _; _]); [apply makes_require|intros _].
    apply (makes_bind ctx _ _ [_] [_; _]); [apply makes_require|intros _].
    apply (makes_bind ctx _ _ [_] [_]); [apply makes_require|intros _; apply makes_effect].
  - apply (makes_bind ctx _ _ [_] [_; _]); [apply makes_require|intros _].
    apply (makes_bind ctx _ _ [_] [_]); [apply makes_require|intros _; apply makes_require].
Qed.

(** C34: the context of the factory.  Without TLS the factory has none.  With TLS,
    a factory exists only with a context on which every call of the set-up
    succeeded, in this order: TLS 1.2 as minimum version, the two cipher lists,
    no compression and no renegotiation, the configured certificate and key, and
    the check that they match; its destructor frees it.  If a call fails, no later
    one is made, the context is freed, and the constructor throws. *)
Theorem tls_context_checked tls (w : W) :
  match stream_factory_new tls (w, []), tls with
  | (Ret f, (w', t)), None => tls_context f = None ∧ t = [] ∧ stream_factory_delete f (w', t) = (w', t)
  | (Ret f, (w', t)), Some tls => ∃ ctx, tls_context f = Some ctx ∧
      t = succeeded ctx (context_calls tls) ∧
      (stream_factory_delete f (w', t)).2 = t ++ [free_ctx ctx]
  | (Throw _, (_, t)), Some tls =>
      t = [] ∨ ∃ ctx t', fails_within ctx (context_calls tls) [] t' ∧ t = t' ++ [free_ctx ctx]
  | _, _ => False
  end.
Proof.
  unfold stream_factory_new, create_tls_context. destruct tls as [tls|]; [|done].
  unfold context_new, on_throw, mbind, prog_bind. cbn [SSL_CTX_new watched_openssl].
  unfold watch.
  destruct (SSL_CTX_new w) as [[ctx|] w1]; cbn [app].
  - pose proof (setup_context_makes tls ctx w1 [call_ctx ctx ctx_new 1]) as Hm.
    destruct (setup_context _ _ ctx _) as [[[]|e| |] [w2 t2]]; [| |done|done].
    + exists ctx. split; [done|]. by subst t2.
    + right. exists ctx, t2. split; [|done].
      destruct Hm as (before & c & rest & rc & Hcs & Hrc & ->).
      exists (ctx_new :: before), c, rest, rc. split; [|done].
      change (context_calls tls) with (ctx_new :: tail (context_calls tls)). by rewrite Hcs.
  - destruct (throw_ssl_error_eq (A := C) "failed to create TLS context" (w1, [])) as (e & w2 & ->).
    by left.
Qed.
End ContextCalls.

(** ** A scripted TLS, which the laws hold of

    Records are the pieces of the script of [ScriptedApi]; a failed or empty piece
    ends the connection. *)
Module ScriptedTls.
Definition read (_ : option nat) (n : nat) (w : ScriptedApi.t) : (Z + bytes) * ScriptedApi.t :=
  let '(r, w) := ScriptedApi.recv 0 n w in
  (match r with inr ((_ :: _) as data) => inr data | _ => inl 0%Z end, w).

#[global] Instance api : OpenSsl ScriptedApi.t unit nat := {|
  SSL_CTX_new w := (Some tt, w);
  SSL_CTX_free _ w := w;
  SSL_CTX_set_min_proto_version _ _ w := (1%Z, w);
  SSL_CTX_set_cipher_list _ _ w := (1%Z, w);
  SSL_CTX_set_ciphersuites _ _ w := (1%Z, w);
  SSL_CTX_set_options _ _ w := w;
  SSL_CTX_use_certificate_file _ _ _ w := (1%Z, w);
  SSL_CTX_use_PrivateKey_file _ _ _ w := (1%Z, w);
  SSL_CTX_check_private_key _ w := (1%Z, w);
  SSL_new _ w := (Some 0, w);
  SSL_free _ w := w;
  SSL_set_fd _ _ w := (1%Z, w);
  SSL_accept _ w := (1%Z, w);
  SSL_read_ex := read;
  SSL_write_ex _ data w :=
    (inr (length data), ScriptedApi.Script (ScriptedApi.to_recv w) (ScriptedApi.to_send w)
                          (ScriptedApi.out w ++ data));
  SSL_get_error _ _ _ := SSL_ERROR_ZERO_RETURN;
  errno_of _ := errno_other 0;
  ERR_get_error w := (0%Z, w);
  ERR_error_string_n _ _ := [];
  plaintext _ := ScriptedApi.out;
|}.

#[global] Instance laws : OpenSslLaws ScriptedApi.t unit nat.
Proof.
  split.
  - intros p n w data w'. cbn. unfold read.
    destruct (ScriptedApi.recv 0 n w) as [[e|[|x d]] w1] eqn:H; [done|done|]. intros [= <- _].
    pose proof (sys_recv_bound (W := ScriptedApi.t) 0 n w (x :: d) w1 H). simpl in *. lia.
  - intros p data w n w'. cbn. intros [= <- <-] Hne. rewrite firstn_all. split; [|done].
    destruct data; [done|]. simpl. lia.
  - intros p data w rc w'. done.
Qed.

#[global] Instance finite : FinitePeers ScriptedApi.t unit nat.
Proof.
  assert (Hrecv : ∀ fd n w r w', ScriptedApi.recv fd n w = (r, w') →
    script_bytes w' + received r ≤ script_bytes w).
  { intros fd n [[|[e|d] rs] ss o] r w'; cbn; intros [= <- <-]; unfold script_bytes; simpl; [lia..|].
    rewrite length_take. lia. }
  refine {| peer_bytes := script_bytes |}; cbn.
  - exact Hrecv.
  - intros fd d [rs [|[e|n] ss] o] r w' [= _ <-]; done.
  - by intros fd o t w r w' [= _ <-].
  - by intros c w r w' [= _ <-].
  - by intros l fd w r w' [= _ <-].
  - by intros p w r w' [= _ <-].
  - intros p n w r w'. unfold read. destruct (ScriptedApi.recv 0 n w) as [r1 w1] eqn:H.
    apply Hrecv in H. intros [= <- <-]. destruct r1 as [e|[|x d]]; simpl in *; lia.
  - by intros p d w r w' [= _ <-].
Defined.
End ScriptedTls.

(** The peer of [sample_script] over TLS. *)
Lemma connection_resources_witness :
  (∀ req, stays (λ n, 5 ≤ n) (sample_handler req)) ∧ (0 ≤ sock_fd (Socket 7 "10.0.0.1"))%Z ∧
  peer_bytes sample_script < 100 ∧
  ∃ tr v' w' t,
    handle_connection (Sys := ScriptedApi.t * list (event unit nat))
      (NetStream0 := any_net_stream (OpenSsl0 := watched_openssl) (SocketApi0 := watched_sockets))
      sample_clocks true sample_handler []
      (create_stream (OpenSsl0 := watched_openssl) (SocketApi0 := watched_sockets)
         (DefaultStreamFactory (Some tt)))
      (delete_stream (OpenSsl0 := watched_openssl) (SocketApi0 := watched_sockets))
      100 (Socket 7 "10.0.0.1") (sample_script, []) 5 = (Ret (tr, v'), (w', t)) ∧
    after_log 7 t = Some released ∧ 5 ≤ v'.
Proof.
  split; [exact sample_handler_stays|]. split; [vm_compute; discriminate|].
  split; [vm_compute; lia|].
  apply (connection_resources (DefaultStreamFactory (Some tt)) sample_clocks true sample_handler [] _ 100
    (Socket 7 "10.0.0.1") sample_script 5); [exact sample_handler_stays|lia|vm_compute; discriminate|].
  vm_compute. lia.
Defined.

Lemma streams_deliver_witness :
  ∃ s', send_all ("hello" : bytes) (plain (Socket 3 []),
    ScriptedApi.Script [] [inr 2; inl EINTR; inr 1; inr 9] []) = Ret (IoStatus.ok, s') ∧
    written s' = "hello".
Proof.
  destruct (streams_deliver (plain (Socket 3 []),
    ScriptedApi.Script [] [inr 2; inl EINTR; inr 1; inr 9] []) "hello") as (st & s' & k & H & _).
  vm_compute in H. injection H as <- <-. eexists. split; vm_compute; reflexivity.
Defined.
