(* ===== verification/Totality.v ===== *)
(** * Every request is answered

    The modules of the shipped libraries, composed: what their constructors make
    of any configuration answers every request with a response, in every world
    in which the calls on the file system return or throw.  There is one
    exception, the undefined expiry of [JwtAuth]. *)

From S2P Require Import Prelude.
From S2P Require Import StringView.
From S2P Require Import HttpHeader.
From S2P Require Import HttpRequest.
From S2P Require Import HttpResponse.
From S2P Require Import Pipeline.
From S2P Require Import ModuleAbi.
From S2P Require Import ConfigText.
From S2P Require Import Guard.
From S2P Require Import FsPath.
From S2P Require Import StaticFiles.
From S2P Require Import Machine.
From S2P Require Import CommandLine.
From S2P Require Import ModuleConfig.
From S2P Require Import DynamicModule.
From S2P Require Import Shipped.
From S2P Require Import Net.
From S2P Require Import ConnectionHandler.
From S2P Require Import Tls.
From S2P Require Import StreamFactory.
From S2P Require HeaderGuard.
From S2P Require HostGuard.
From S2P Require RouteTable.
From S2P Require Router.
From S2P Require RateLimit.
From S2P Require JwtAuth.
From S2P Require Cors.

(** ** Answering *)

Section Answering.
Context {W : Type} (P : W → Prop).

(** A module answers every call, or the request is one of [E] and the call is
    undefined. *)
Definition answered (E : request → Prop) (m : request_module W) : Prop :=
  ∀ req w, P w →
    (∃ r w', module_handle m req w = (Ret r, w') ∧ P w') ∨
    (E req ∧ (module_handle m req w).1 = Undef).

Lemma loaded_answered E name (m : cpp_module W) :
  (∀ req, stays P (m req)) → answered E (loaded name m).
Proof.
  intros Hm req w Hw. left. rewrite loaded_handle.
  destruct (Hm (abi_request req) w Hw) as [[Hu Hd] Hw1].
  destruct (m (abi_request req) w) as [[r|e| |] w1]; try done; by eexists _, _.
Qed.

(** A pipeline of such modules answers with a response. *)
Lemma pipeline_answered E ms req w :
  Forall (answered E) ms → P w →
  (∃ resp w', pipeline_handle ms req w = (Ret resp, w') ∧ P w') ∨
  (E req ∧ (pipeline_handle ms req w).1 = Undef).
Proof.
  unfold pipeline_handle. intros HF. generalize (@nil header_field) as pending. revert w.
  induction HF as [|m ms Hm _ IH]; intros w pending Hw.
  { left. by eexists _, _. }
  cbn [handle_from]. unfold mbind, prog_bind.
  destruct (Hm req w Hw) as [(r & w1 & -> & Hw1)|[HE Hu]].
  - destruct (visit_result r pending) as [[resp|] pending']; [left; by eexists _, _|by apply IH].
  - right. destruct (module_handle m req w) as [[] ?]; done.
Qed.
End Answering.

(** ** The modules *)

Lemma guard_defined {R} `{GuardLaws R} (rules : list R) req : defined (guard_handle rules req).
Proof. by rewrite guard_handle_ret. Qed.

#[local] Existing Instances HeaderGuard.header_guard HeaderGuard.header_guard_laws
  HostGuard.host_guard HostGuard.host_guard_laws.

Lemma header_guard_defined (rules : list HeaderGuard.guard_rule) req :
  defined (HeaderGuard.handle rules req).
Proof. exact (guard_defined rules req). Qed.

Lemma host_guard_defined (rules : list HostGuard.guard_rule) req :
  defined (HostGuard.handle rules req).
Proof. exact (guard_defined rules req). Qed.

Lemma set_header_defined r name value : defined (set_header r name value).
Proof.
  unfold set_header, add_header.
  destruct (validate_header_spec name value) as [[-> _]|[[e ->] _]]; [|done].
  rewrite bind_ret. by destruct (set_first _ _ _).
Qed.

Lemma add_header_defined r name value : defined (add_header r name value).
Proof.
  unfold add_header. by destruct (validate_header_spec name value) as [[-> _]|[[e ->] _]].
Qed.

Lemma router_defined routes req : defined (Router.handle routes req).
Proof.
  induction routes as [|r routes IH]; [done|]. cbn [Router.handle].
  destruct (negb _); [exact IH|].
  destruct (Router.match_target_ret (RouteConfig.target_kind r) (RouteConfig.target_pattern r)
    (target req)) as (caps & -> & _). rewrite bind_ret.
  destruct caps as [caps|]; [|exact IH].
  by destruct (RouteConfig.route_outcome r), (RouteConfig.route_response r).
Qed.

Lemma preflight_defined r origin : defined (Cors.make_preflight_response r origin).
Proof.
  unfold Cors.make_preflight_response, Cors.add_cors_headers.
  apply defined_bind; [apply defined_bind; [apply set_header_defined|]|].
  - intros resp _. destruct (Cors.any_origin_allowed r); [done|apply add_header_defined].
  - intros resp _. apply defined_bind; [apply set_header_defined|]. intros resp' _.
    destruct (bytes_eqb _ _); [done|apply set_header_defined].
Qed.

Lemma cors_defined rules req : defined (Cors.handle rules req).
Proof.
  unfold Cors.handle. destruct (header_value req "Origin") as [origin|]; [|done].
  induction rules as [|r rules IH]; [done|]. cbn [Cors.handle_rules].
  destruct (Cors.target_matches _ _ _); cbn [negb]; [|exact IH].
  destruct (Cors.origin_allowed r origin); cbn [negb]; [|by destruct (Cors.is_preflight_request req)].
  destruct (Cors.is_preflight_request req); [|by destruct (Cors.method_allowed _ _)].
  destruct (Cors.method_allowed _ _); cbn [negb]; [|done].
  apply defined_bind; [apply preflight_defined|done].
Qed.

(** The calls on the file system keep [P]. *)
Class FilesStay {W} `{!FileSystem W} (P : W → Prop) : Prop := {
  absolute_stays p : stays P (fs_absolute p);
  weakly_canonical_stays p : stays P (fs_weakly_canonical p);
  canonical_stays p : stays P (fs_canonical p);
  is_directory_stays p : stays P (fs_is_directory p);
  directory_entry_stays p : stays P (fs_directory_entry p);
  is_regular_file_stays p : stays P (fs_is_regular_file p);
  file_size_stays p : stays P (fs_file_size p);
  open_stays p : stays P (fs_open p);
  read_stays p n : stays P (fs_read p n);
}.

#[export] Hint Resolve absolute_stays weakly_canonical_stays canonical_stays is_directory_stays
  directory_entry_stays is_regular_file_stays file_size_stays open_stays read_stays : stays.

Section Files.
Context {W : Type} `{!FileSystem W} (P : W → Prop) `{!FilesStay P}.

Lemma content_type_defined p : defined (guess_content_type p).
Proof. unfold guess_content_type. destruct (path_extension_returns p) as [e ->]. done. Qed.

Lemma serve_resolved_stays p include_body : stays P (serve_resolved p include_body).
Proof.
  unfold serve_resolved, read_file_bytes. apply stays_bind; [auto with stays|intros entry].
  apply stays_bind; [destruct entry; cbn [negb]; auto with stays|intros regular].
  destruct regular; cbn [negb]; [|auto with stays].
  apply stays_bind; [auto with stays|intros size]. destruct (max_file_bytes <? size)%N; [auto with stays|].
  apply stays_bind; [apply stays_lift, content_type_defined|intros ct].
  destruct include_body; [|auto with stays].
  apply stays_bind; [|intros [content|]; auto with stays].
  destruct (size_max <? size)%N; [auto with stays|]. apply stays_bind; [auto with stays|intros f].
  destruct f; cbn [negb]; [|auto with stays]. destruct (size =? 0)%N; [auto with stays|].
  apply stays_bind; [auto with stays|intros data]. destruct (negb _); auto with stays.
Qed.

Lemma static_files_stays root req : stays P (handle root req).
Proof.
  unfold handle. destruct (negb _ && negb _); [auto with stays|]. unfold serve_file.
  destruct (map_to_relative_path_ret (target req)) as (relative & -> & _).
  apply stays_bind; [by apply stays_lift|intros [relative'|]; [|auto with stays]].
  apply stays_bind.
  - unfold resolve_under_root. destruct (bytes_eqb root []); [auto with stays|].
    apply stays_bind; [auto with stays|intros [resolved|]; [|auto with stays]].
    destruct (negb _); auto with stays.
  - intros [resolved|]; [apply serve_resolved_stays|auto with stays].
Qed.
End Files.

(** ** The pipeline of the shipped modules *)

(** A token signed with the secret of a configured JWT module whose [exp] does not
    fit a [long long]. *)
Definition expiry_overflow {W} `{!JwtAuth.JwtWorld W} (configured : list configured_module)
    (req : request) : Prop :=
  ∃ c (m : JwtAuth.jwt_auth) value token payload,
    c ∈ configured ∧ path_filename (library_file c) = "libgarcon_jwt_auth_module.so" ∧
    JwtAuth.jwt_auth_config (c_str (config_text c)) = Ret m ∧
    header_value req "Authorization" = Some value ∧ JwtAuth.bearer_token value token ∧
    JwtAuth.signed_payload m token payload ∧ JsonClaims.extract_claims payload = Undef.

Section Shipped.
Context {W : Type} `{!FileSystem W, !RateLimit.RateWorld W, !JwtAuth.JwtWorld W}.

(** The buckets are within the bounds of the rules [limits]. *)
Context (limits : list RateLimit.rule) (Hlimits : Forall RateLimit.wf_rule limits)
  `{!RateLimit.RateWorldLaws limits}.
Abbreviation P := (λ w, RateLimit.wf_store limits (RateLimit.get_buckets w)).
Context `{!FilesStay P}.
Hypothesis clock_stays : ∀ w, P w → P (snd (JwtAuth.time_now w)).

Lemma limiter_stays req : stays P (RateLimit.handle limits req).
Proof.
  intros w Hw. unfold RateLimit.handle. rewrite RateLimit.handle_from_first.
  destruct (list_find _ limits) as [[i r]|] eqn:Hfind; [|done].
  apply list_find_Some in Hfind as (Hi & _ & _). cbn [Nat.add].
  destruct (RateLimit.apply_rule_answers limits Hlimits i r req w Hi Hw) as (res & w' & -> & Hw' & _).
  done.
Qed.

Lemma jwt_answered configured c name m :
  c ∈ configured → path_filename (library_file c) = "libgarcon_jwt_auth_module.so" →
  JwtAuth.jwt_auth_config (c_str (config_text c)) = Ret m →
  answered P (expiry_overflow configured) (loaded name (JwtAuth.handle m)).
Proof.
  intros Hc Hfile Hm req w Hw.
  assert (Hnow : ∀ now w', JwtAuth.time_now w = (now, w') → P w')
    by (intros now w' Hn; pose proof (clock_stays w Hw) as Hp; by rewrite Hn in Hp).
  destruct (JwtAuth.jwt_handle_cases name m req w) as
    [Hn|claims w' _ (value & token & _ & _ & _ & Ht)|_ Hn|value token w' _ _ _ (claims & now & _ & _ & Ht & _)
    |value token _ _ _ Hn|value token payload _ Hh Hb Hs Hu].
  - left. by eexists _, _.
  - left. eexists _, _. split; [done|]. destruct Ht as [[_ ->]|(_ & now & Ht & _)]; [done|by eapply Hnow].
  - left. by eexists _, _.
  - left. eexists _, _. split; [done|]. by eapply Hnow.
  - left. by eexists _, _.
  - right. split; [|done]. by exists c, m, value, token, payload.
Qed.

(** What a shipped library is, by its file. *)
Lemma shipped_library_cases p e :
  shipped_library p = Some e → (path_filename p, e) ∈ shipped_libraries.
Proof.
  unfold shipped_library.
  destruct (List.find _ shipped_libraries) as [[file e']|] eqn:Hf; [|done]. intros [= ->].
  apply List.find_some in Hf as [Hin Heq]. apply bool_decide_eq_true in Heq. simpl in Heq.
  subst file. by apply list_elem_of_In.
Qed.

(** The module of an entry. *)
Lemma entry_answered configured config c w0 r w1 :
  c ∈ configured →
  (path_filename (library_file c) = "libgarcon_rate_limit_module.so" →
   RateLimit.parse_rules (c_str (config_text c)) = Ret limits) →
  exported_module shipped_library config c w0 r w1 →
  answered P (expiry_overflow configured) r.
Proof.
  intros Hc Hlim (name & make & m & Hlib & Hmake & ->). apply shipped_library_cases in Hlib.
  unfold shipped_libraries in Hlib. rewrite !elem_of_cons, elem_of_nil in Hlib.
  assert (Hpure : ∀ A (parse : outcome A) (f : A → cpp_module W),
    (∀ rules req, stays P (f rules req)) →
    lift (rules ← parse; Ret (f rules)) w0 = (Ret m, w1) → ∀ req, stays P (m req)).
  { intros A parse f Hf Hl req. unfold lift in Hl. injection Hl as Hl _. inv_bind Hl. injection Hl as <-.
    apply Hf. }
  destruct Hlib as [[= Hf -> ->]|[[= Hf -> ->]|[[= Hf -> ->]|[[= Hf -> ->]|[[= Hf -> ->]|
    [[= Hf -> ->]|[[= Hf -> ->]|[[= Hf -> ->]|[]]]]]]]]].
  - apply loaded_answered, (Hpure _ _ _ (λ rules req, stays_lift P _ (cors_defined rules req)) Hmake).
  - apply loaded_answered, (Hpure _ _ (λ rules req, lift (HostGuard.handle rules req))
      (λ rules req, stays_lift P _ (host_guard_defined rules req)) Hmake).
  - apply loaded_answered, (Hpure _ _ _ (λ rules req, stays_lift P _ (router_defined rules req)) Hmake).
  - apply loaded_answered, (Hpure _ _ (λ rules req, lift (HeaderGuard.handle rules req))
      (λ rules req, stays_lift P _ (header_guard_defined rules req)) Hmake).
  - unfold lift in Hmake. injection Hmake as Hmake _. unfold JwtAuth.jwt_auth_module in Hmake.
    inv_bind Hmake. injection Hmake as <-. by apply (jwt_answered configured c).
  - apply loaded_answered, (Hpure _ _ _ (λ rules req, stays_lift P _ (defined_ret _)) Hmake).
  - apply loaded_answered. unfold lift, RateLimit.rate_limit_module in Hmake.
    rewrite (Hlim Hf) in Hmake. injection Hmake as <- _. apply limiter_stays.
  - apply loaded_answered. unfold static_files_module in Hmake.
    apply prog_bind_inv in Hmake as (root & w2 & _ & Hmake).
    apply prog_bind_inv in Hmake as (files & w3 & _ & Hmake). injection Hmake as <- _.
    intros req. unfold http_terminal_handle. apply stays_bind; [by apply static_files_stays|].
    intros resp. apply stays_ret.
Qed.

Lemma shipped_answered config configured w0 ms w1 :
  exported_modules shipped_library config configured w0 ms w1 →
  (∀ c, c ∈ configured → path_filename (library_file c) = "libgarcon_rate_limit_module.so" →
   RateLimit.parse_rules (c_str (config_text c)) = Ret limits) →
  Forall (answered P (expiry_overflow configured)) ms.
Proof.
  intros Hx Hlim.
  assert (Hall : ∀ cs, exported_modules shipped_library config cs w0 ms w1 →
    (∀ c, c ∈ cs → c ∈ configured) → Forall (answered P (expiry_overflow configured)) ms).
  { clear Hx. intros cs Hx. induction Hx as [|c cs w2 r w3 rs w4 Hr _ IH]; intros Hsub; [constructor|].
    constructor.
    - assert (Hc : c ∈ configured) by (apply Hsub; left).
      exact (entry_answered _ _ _ _ _ _ Hc (Hlim c Hc) Hr).
    - apply IH. intros c' Hc'. apply Hsub. by right. }
  by apply (Hall configured).
Qed.

(** C27: every request is answered.  Whatever configuration the shipped modules were
    made from, the pipeline answers every request with a response, never throws or
    hangs, and keeps the buckets within their bounds, in every world in which the
    calls on the file system return or throw; the rate limiters share one list of
    rules.  The one exception is a request with a token that is signed with the
    secret of a configured module and whose expiry overflows. *)
Theorem shipped_pipeline_answers config configured w0 ms w1 req w :
  exported_modules shipped_library config configured w0 ms w1 →
  (∀ c, c ∈ configured → path_filename (library_file c) = "libgarcon_rate_limit_module.so" →
   RateLimit.parse_rules (c_str (config_text c)) = Ret limits) →
  P w →
  (∃ resp w', pipeline_handle ms req w = (Ret resp, w') ∧ P w') ∨
  (expiry_overflow configured req ∧ (pipeline_handle ms req w).1 = Undef).
Proof. intros Hx Hlim. apply pipeline_answered. by eapply shipped_answered. Qed.

#[local] Existing Instances watched_sockets watched_openssl.

(** A connection that is served by the shipped modules ends, over the streams of the
    server: the socket is released, and the buckets are within their bounds, for the
    next connection. *)
Theorem shipped_connection {Sys C L} `{!OpenSsl Sys C L, !SocketApi Sys}
    `{!SocketApiLaws Sys, !OpenSslLaws Sys C L, !FinitePeers Sys C L, !EqDecision L}
    (f : default_stream_factory C) clk https_enabled out_of_range_what
    config configured w0 ms w1 fuel client (sys : Sys) w :
  exported_modules shipped_library config configured w0 ms w1 →
  (∀ c, c ∈ configured → path_filename (library_file c) = "libgarcon_rate_limit_module.so" →
   RateLimit.parse_rules (c_str (config_text c)) = Ret limits) →
  (∀ req, ¬ expiry_overflow configured req) → P w →
  (0 ≤ sock_fd client)%Z → peer_bytes sys < fuel →
  ∃ tr (w' : W) (sys' : Sys) (t : list (event C L)),
    handle_connection clk https_enabled (pipeline_handle ms) out_of_range_what
      (create_stream f) delete_stream
      fuel client (sys, []) w = (Ret (tr, w'), (sys', t)) ∧
    after_log (sock_fd client) t = Some released ∧ P w'.
Proof.
  intros Hx Hlim Hover Hw Hfd Hfuel.
  refine (connection_releases f clk https_enabled (pipeline_handle ms) out_of_range_what P
    fuel client sys w _ Hw Hfd Hfuel).
  intros req v Hv. pose proof (shipped_answered _ _ _ _ _ Hx Hlim) as HF.
  destruct (pipeline_answered P _ ms req v HF Hv) as [(resp & w' & -> & Hw')|[Ho _]]; [done|].
  by destruct (Hover req).
Qed.
End Shipped.

(** ** The example machine *)

(** A predicate that does not look at the files is kept by the calls on them. *)
Lemma machine_files_stay (P : machine → Prop) :
  (∀ fs w, P w → P (Machine fs (m_limiter w) (m_seconds w))) → FilesStay P.
Proof.
  intros HP.
  assert (Hcall : ∀ A (p : prog MapFs.t A), (∀ fs, defined (p fs).1) → stays P (on_files p)).
  { intros A p Hp w Hw. unfold on_files. specialize (Hp (m_files w)).
    destruct (p (m_files w)) as [r fs]. split; [done|by apply HP]. }
  split; intros; by apply Hcall.
Qed.

Lemma machine_clock_stays limits (w : machine) :
  RateLimit.wf_store limits (RateLimit.get_buckets w) →
  RateLimit.wf_store limits (RateLimit.get_buckets (snd (JwtAuth.time_now w))).
Proof. by intros Hw. Qed.

(** A limiter and a header guard. *)
Definition answering_entries : list configured_module :=
  [ ConfiguredModule "/m/libgarcon_rate_limit_module.so" "/m" RateLimit.sample_config;
    ConfiguredModule "/m/libgarcon_header_guard_module.so" "/m" HeaderGuard.sample_config ].
Definition answering_config : server_config := ServerConfig "127.0.0.1" 8080 "www" "/m" 4 128 None.
Definition answering_machine : machine := Machine [] RateLimit.sample_world 1000.

Definition answering_pipeline : list (request_module machine) :=
  [ loaded "rate-limit" (RateLimit.handle [RateLimit.sample_rule]);
    loaded "header-guard" (λ req, lift (HeaderGuard.handle [HeaderGuard.sample_rule] req)) ].

Lemma answering_entries_exported :
  exported_modules shipped_library answering_config answering_entries answering_machine
    answering_pipeline answering_machine.
Proof.
  shipped_entry RateLimit.parse_rules (RateLimit.handle (W := machine)).
  shipped_entry HeaderGuard.parse_rules (λ rules req, lift (W := machine) (HeaderGuard.handle rules req)).
  constructor.
Qed.

Lemma shipped_pipeline_answers_witness :
  let req := RateLimit.sample_request in
  (∃ resp w', pipeline_handle answering_pipeline req answering_machine = (Ret resp, w') ∧
     RateLimit.wf_store [RateLimit.sample_rule] (RateLimit.get_buckets w')) ∨
  (expiry_overflow answering_entries req ∧
   (pipeline_handle answering_pipeline req answering_machine).1 = Undef).
Proof.
  assert (Hf : FilesStay (λ w : machine,
    RateLimit.wf_store [RateLimit.sample_rule] (RateLimit.get_buckets w)))
    by (by apply machine_files_stay).
  apply (shipped_pipeline_answers (W := machine) [RateLimit.sample_rule] (proj2 (Forall_singleton _ _) RateLimit.sample_rule_wf)
    (machine_clock_stays _) answering_config answering_entries answering_machine answering_pipeline answering_machine).
  - exact answering_entries_exported.
  - intros c [->|[->|[]%elem_of_nil]%elem_of_cons]%elem_of_cons Hfile; [vm_compute; reflexivity|done].
  - apply RateLimit.wf_store_empty.
Defined.
