(* ===== verification/Listener.v ===== *)
(** * The listener ([src/net/listener.cpp])

    The constructor makes a listening socket; [accept] waits for a connection and
    classifies what goes wrong.  The system calls are operations of a class. *)

From S2P Require Import Prelude.
From S2P Require Import StringView.
From S2P Require Import Net.
From S2P Require Import Server.

#[local] Open Scope Z_scope.

(** ** The system calls

    [A] are the IPv4 addresses; [inet_pton] reads the text of one, [inet_ntop]
    writes it.  [accept_interrupts w] counts the signals that will interrupt
    calls of [accept] from [w] on. *)
Class ListenerApi (W A : Type) := {
  sys_socket : W → Z * W;
  sys_reuse_address : Z → W → Z * W;
  inet_pton : bytes → option A;
  inet_ntop : A → option bytes;
  sys_bind : Z → A → Z → W → Z * W;
  sys_listen : Z → Z → W → Z * W;
  sys_accept : Z → W → (errno + Z * A) * W;
  accept_interrupts : W → nat;
}.

Class ListenerApiLaws (W A : Type) `{!ListenerApi W A} : Prop := {
  sys_accept_interrupted fd w w' :
    sys_accept fd w = (inl EINTR, w') → (accept_interrupts w' < accept_interrupts w)%nat;
  sys_accept_fd fd w cfd a w' : sys_accept fd w = (inr (cfd, a), w') → 0 ≤ cfd;
}.

(** ** [net::listener] *)

Record listener := Listener {
  ln_bind_address : bytes;
  ln_sock : socket;
}.

Definition is_fatal_accept_error (error : errno) : bool :=
  match error with
  | EBADF | EFAULT | EINVAL | ENOTSOCK | EOPNOTSUPP => true
  | _ => false
  end.

Definition make_accept_error (error : errno) : accept_error :=
  AcceptError error (is_fatal_accept_error error).

(** [static_cast<std::uint16_t>(port)] *)
Definition uint16 (n : Z) : Z := n mod 2 ^ 16.

Section Listener.
Context {W A : Type} `{!ListenerApi W A, !SocketApi W}.

Definition format_client_address (client : A) : bytes := default [] (inet_ntop client).

Definition throw_error {B} (what : bytes) : prog W B := lift (Throw (runtime_error what)).

(** [if (call != 0) throw std::runtime_error(what);] *)
Definition require_zero (call : W → Z * W) (what : bytes) : prog W unit := λ w,
  let '(rc, w) := call w in (if rc =? 0 then mret tt else throw_error what) w.

(** The constructor once there is a socket. *)
Definition setup_listener (bind_address : bytes) (port : Z) (sock : socket) : prog W unit :=
  _ ← require_zero (sys_reuse_address (sock_fd sock)) "setsockopt(SO_REUSEADDR) failed";
  match inet_pton (c_str bind_address) with
  | None => throw_error "invalid IPv4 bind address"
  | Some addr =>
      _ ← require_zero (sys_bind (sock_fd sock) addr (uint16 port)) "bind() failed";
      require_zero (sys_listen (sock_fd sock) 16) "listen() failed"
  end.

(** [listener::listener]: an exception destroys the socket. *)
Definition listener_new (bind_address : bytes) (port : Z) : prog W listener := λ w,
  let '(fd, w) := sys_socket w in
  let '(sock, _, w) := socket_assign empty_socket (Socket fd []) w in
  if negb (socket_is_valid sock) then (Throw (runtime_error "socket() failed"), w)
  else
    on_throw (_ ← setup_listener bind_address port sock; mret (Listener bind_address sock))
      (socket_delete sock) w.

(** The destructor closes the socket. *)
Definition listener_delete (l : listener) (w : W) : W := (socket_close (ln_sock l) w).2.

(** The [for (;;)] of [listener::accept]. *)
Fixpoint accept_loop (fuel : nat) (fd : Z) (w : W) : outcome ((accept_error + socket) * W) :=
  match fuel with
  | O => Diverge
  | S fuel =>
      let '(rc, w) := sys_accept fd w in
      match rc with
      | inl EINTR => accept_loop fuel fd w
      | inl error => Ret (inl (make_accept_error error), w)
      | inr (cfd, client) => Ret (inr (Socket cfd (format_client_address client)), w)
      end
  end.

Definition accept (l : listener) (w : W) : outcome ((accept_error + socket) * W) :=
  accept_loop (S (accept_interrupts w)) (sock_fd (ln_sock l)) w.
End Listener.

(** ** What a listener is *)

(** The calls that make a listener and end it; each number is a result. *)
Inductive listener_call (A : Type) :=
  | made_socket (fd : Z)
  | reuse_address (fd rc : Z)
  | bound (fd : Z) (addr : A) (port rc : Z)
  | listening (fd backlog rc : Z)
  | shut_down (fd : Z)
  | closed_socket (fd : Z)
  | other_call.
Arguments made_socket {A}.
Arguments reuse_address {A}.
Arguments bound {A}.
Arguments listening {A}.
Arguments shut_down {A}.
Arguments closed_socket {A}.
Arguments other_call {A}.

Section Opening.
Context {W A : Type} `{LA : !ListenerApi W A, N : !SocketApi W}.

Abbreviation log := (list (listener_call A)).

#[local] Instance logged_listener : ListenerApi (W * log) A := {
  sys_socket := watch (λ fd, [made_socket fd]) sys_socket;
  sys_reuse_address fd := watch (λ rc, [reuse_address fd rc]) (sys_reuse_address fd);
  inet_pton := inet_pton;
  inet_ntop := inet_ntop;
  sys_bind fd a p := watch (λ rc, [bound fd a p rc]) (sys_bind fd a p);
  sys_listen fd n := watch (λ rc, [listening fd n rc]) (sys_listen fd n);
  sys_accept fd := watch (λ _, [other_call]) (sys_accept fd);
  accept_interrupts w := accept_interrupts w.1;
}.

#[local] Instance logged_sockets : SocketApi (W * log) := {
  sys_recv fd n := watch (λ _, [other_call]) (sys_recv fd n);
  sys_send fd data := watch (λ _, [other_call]) (sys_send fd data);
  sys_setsockopt fd o t := watch (λ _, [other_call]) (sys_setsockopt fd o t);
  sys_shutdown_write fd '(w, t) := (sys_shutdown_write fd w, t ++ [shut_down fd]);
  sys_close fd '(w, t) := (sys_close fd w, t ++ [closed_socket fd]);
  interrupts w := interrupts w.1;
  outgoing fd w := outgoing fd w.1;
}.

(** The calls of a constructor that succeeds. *)
Definition opening (fd : Z) (addr : A) (port : Z) : log :=
  [made_socket fd; reuse_address fd 0; bound fd addr (uint16 port) 0; listening fd 16 0].

Definition closing (fd : Z) : log := [shut_down fd; closed_socket fd].

Lemma close_logged fd peer (w : W) (t : log) :
  0 ≤ fd → (socket_close (Socket fd peer) (w, t)).2.2 = t ++ closing fd.
Proof.
  intros Hfd. unfold socket_close. cbn [sock_fd]. rewrite (proj2 (Z.leb_le _ _) Hfd). cbn.
  by rewrite <- app_assoc.
Qed.

(** A call that must return 0. *)
Lemma require_zero_logged (e : Z → listener_call A) (f : W → Z * W) call what (w : W) (t : log) :
  call = watch (λ rc, [e rc]) f →
  ∃ rc w', require_zero call what (w, t)
    = (if rc =? 0 then Ret tt else Throw (runtime_error what), (w', t ++ [e rc])).
Proof.
  intros ->. unfold require_zero, watch. destruct (f w) as [rc w']. exists rc, w'. by destruct (rc =? 0).
Qed.

(** A list of other calls has no close. *)
Ltac no_close :=
  intros Hin; repeat (apply elem_of_cons in Hin as [Hin|Hin]; [discriminate|]);
  by apply not_elem_of_nil in Hin.

Lemma setup_logged bind_address port fd (w : W) (t : log) :
  match setup_listener bind_address port (Socket fd []) (w, t) with
  | (Ret _, (_, t')) => ∃ addr, inet_pton (c_str bind_address) = Some addr ∧
      t' = t ++ tail (opening fd addr port)
  | (Throw _, (_, t')) => ∃ before, t' = t ++ before ∧ closed_socket fd ∉ before
  | _ => False
  end.
Proof.
  unfold setup_listener, mbind, prog_bind. cbn [sock_fd].
  destruct (require_zero_logged (reuse_address fd) (@sys_reuse_address W A LA fd)
    (sys_reuse_address fd) "setsockopt(SO_REUSEADDR) failed" w t)
    as (rc1 & w1 & H1); [done|].
  rewrite H1.
  destruct (Z.eqb_spec rc1 0) as [->|_].
  2: { exists [reuse_address fd rc1]. split; [done|]. no_close. }
  destruct (inet_pton (c_str bind_address)) as [addr|] eqn:Ha.
  2: { exists [reuse_address fd 0]. split; [done|]. no_close. }
  destruct (require_zero_logged (bound fd addr (uint16 port))
    (@sys_bind W A LA fd addr (uint16 port))
    (sys_bind fd addr (uint16 port)) "bind() failed" w1 (t ++ [reuse_address fd 0]))
    as (rc2 & w2 & H2); [done|].
  rewrite H2. destruct (Z.eqb_spec rc2 0) as [->|_].
  2: { exists [reuse_address fd 0; bound fd addr (uint16 port) rc2]. rewrite <- app_assoc.
       split; [done|]. no_close. }
  destruct (require_zero_logged (listening fd 16) (@sys_listen W A LA fd 16)
    (sys_listen fd 16) "listen() failed" w2
    ((t ++ [reuse_address fd 0]) ++ [bound fd addr (uint16 port) 0]))
    as (rc3 & w3 & H3); [done|].
  rewrite H3, <- !app_assoc. destruct (Z.eqb_spec rc3 0) as [->|_]; [by exists addr|].
  exists [reuse_address fd 0; bound fd addr (uint16 port) 0; listening fd 16 rc3].
  split; [done|]. no_close.
Qed.

(** The constructor of the listener returns only with a socket that is bound
    to the parsed address and to the port modulo [2 ^ 16] and that listens, every
    call having succeeded in that order, and its destructor closes this socket
    once.  Otherwise it throws, and if there was a socket, it was closed once, as
    the last thing. *)
Theorem listener_opens bind_address port (w : W) :
  match listener_new bind_address port (w, []) with
  | (Ret l, (w', t)) => ∃ addr, inet_pton (c_str bind_address) = Some addr ∧
      0 ≤ sock_fd (ln_sock l) ∧ t = opening (sock_fd (ln_sock l)) addr port ∧
      (listener_delete l (w', t)).2 = t ++ closing (sock_fd (ln_sock l))
  | (Throw _, (_, t)) => ∃ fd calls, t = made_socket fd :: calls ∧
      (fd < 0 ∧ calls = [] ∨
       0 ≤ fd ∧ ∃ before, calls = before ++ closing fd ∧ closed_socket fd ∉ before)
  | _ => False
  end.
Proof.
  unfold listener_new. cbn [sys_socket logged_listener]. unfold watch at 1.
  destruct (sys_socket w) as [fd w1]. cbn -[setup_listener on_throw].
  unfold socket_is_valid. cbn [sock_fd].
  destruct (Z.leb_spec 0 fd) as [Hfd|Hfd]; cbn [negb]; [|by exists fd, []; auto].
  pose proof (setup_logged bind_address port fd w1 [made_socket fd]) as Hs.
  unfold on_throw, mbind, prog_bind.
  destruct (setup_listener bind_address port _ _) as [[[]|e| |] [w2 t2]]; [| |done|done].
  - destruct Hs as (addr & Ha & ->). exists addr. split_and!; [done|done|done|].
    unfold listener_delete. cbn [ln_sock]. by rewrite close_logged.
  - destruct Hs as (before & -> & Hb). pose proof (close_logged fd [] w2 ([made_socket fd] ++ before) Hfd) as Hc.
    unfold socket_delete. destruct (socket_close _ _) as [s [w3 t3]]. cbn in Hc |- *. subst t3.
    exists fd, (before ++ closing fd). split; [done|]. right. split; [done|]. by exists before.
Qed.
End Opening.

(** ** Accepting *)

Section Accepting.
Context {W A : Type} `{!ListenerApi W A, !ListenerApiLaws W A}.

Lemma accept_loop_spec fuel fd w :
  (accept_interrupts w < fuel)%nat →
  ∃ r w', accept_loop fuel fd w = Ret (r, w') ∧
    match r with
    | inl e => ae_error e ≠ EINTR ∧ ae_fatal e = is_fatal_accept_error (ae_error e)
    | inr s => 0 ≤ sock_fd s
    end.
Proof.
  revert w. induction fuel as [|fuel IH]; intros w Hf; [lia|]. cbn [accept_loop].
  destruct (sys_accept fd w) as [[e|[cfd a]] w1] eqn:Hacc.
  - destruct e; [|by eexists _, _..]. apply IH. apply sys_accept_interrupted in Hacc. lia.
  - apply sys_accept_fd in Hacc. by eexists _, _.
Qed.

(** [accept] returns, after finitely many interruptions, with an open socket or an
    error other than an interruption; the fatal errors are the five that say that
    the listening socket cannot be used. *)
Lemma accept_classifies l (w : W) :
  ∃ r w', accept l w = Ret (r, w') ∧
    match r with
    | inl e => ae_error e ≠ EINTR ∧
        (ae_fatal e = true ↔ ae_error e ∈ [EBADF; EFAULT; EINVAL; ENOTSOCK; EOPNOTSUPP])
    | inr s => 0 ≤ sock_fd s
    end.
Proof.
  destruct (accept_loop_spec (S (accept_interrupts w)) (sock_fd (ln_sock l)) w) as (r & w' & Heq & Hr);
    [lia|]. exists r, w'. split; [exact Heq|]. destruct r as [e|s]; [|exact Hr].
  destruct Hr as [Hne ->]. split; [done|]. split.
  - destruct (ae_error e); try done; intros _; rewrite !elem_of_cons; tauto.
  - intros Hin. repeat (apply elem_of_cons in Hin as [->|Hin]; [done|]).
    by apply not_elem_of_nil in Hin.
Qed.
End Accepting.
