(* ===== verification/Startup.v ===== *)
(** * Start-up ([src/main.cpp], the constructor of [src/server.cpp])

    [main] reads the command line, builds the server and runs it.  The parts of
    the server are built in order and destroyed in the reverse order, also when a
    later part fails. *)

From S2P Require Import Prelude.
From S2P Require Import StringView.
From S2P Require Import FsPath.
From S2P Require Import Net.
From S2P Require Import Environment.
From S2P Require Import CommandLine.
From S2P Require Import ModuleAbi.
From S2P Require Import ModuleConfig.
From S2P Require Import DynamicModule.
From S2P Require Import WorkQueue.
From S2P Require Import Server.
From S2P Require Import Tls.
From S2P Require Import StreamFactory.
From S2P Require Import Listener.

#[local] Open Scope Z_scope.

(** The members of [app::server] that own something. *)
Record server_parts (W H I C : Type) := ServerParts {
  sp_config : server_config;
  sp_listener : listener;
  sp_handler : list (dynamic_module W H I);
  sp_stream_factory : default_stream_factory C;
}.
Arguments ServerParts {W H I C}.
Arguments sp_config {W H I C}.
Arguments sp_listener {W H I C}.
Arguments sp_handler {W H I C}.
Arguments sp_stream_factory {W H I C}.

(** What [main] returns and prints itself. *)
Record main_result := MainResult { exit_code : Z; to_cout : bytes; to_cerr : bytes }.

Section Startup.
Context {W H I A C L : Type}.
Context `{!Environment W, !DynamicLinker W H I, !ListenerApi W A, !SocketApi W, !OpenSsl W C L}.
Context (out_of_range_what : bytes).

(** [server::server] *)
Definition server_new (config : server_config) : prog W (server_parts W H I C) :=
  l ← listener_new (A := A) (bind_address config) (port config);
  on_throw
    (handler ← create_request_handler out_of_range_what config;
     on_throw
       (factory ← stream_factory_new (L := L) (tls config);
        mret (ServerParts config l handler factory))
       (delete_all handler))
    (listener_delete l).

(** The destructor. *)
Definition server_delete (s : server_parts W H I C) (w : W) : W :=
  listener_delete (sp_listener s)
    (delete_all (sp_handler s) (stream_factory_delete (L := L) (sp_stream_factory s) w)).

(** [main]; [run] is [server::run], and [version] the macro [GARCON_VERSION]. *)
Definition serve_config (run : server_parts W H I C → prog W unit) (config : server_config)
    : prog W unit :=
  s ← server_new config;
  on_throw (_ ← run s; effect (server_delete s)) (server_delete s).

Definition main (version : bytes) (run : server_parts W H I C → prog W unit) (argv : list bytes)
    : prog W main_result := λ w,
  match (result ← parse argv;
         if show_help result then mret (MainResult 0 (usage argv) [])
         else if show_version result then mret (MainResult 0 (version ++ ["010"%char]) [])
         else match CommandLine.config result with
              | None => lift Undef
              | Some config => _ ← serve_config run config; mret (MainResult 0 [] [])
              end) w with
  | (Throw e, w) =>
      (Ret (MainResult 1 [] (("fatal: " : bytes) ++ what out_of_range_what e ++ ["010"%char]
                             ++ usage argv)), w)
  | r => r
  end.
End Startup.

(** ** A server starts as it is configured *)

Section StartupSpec.
Context {W H I A C L : Type}.
Context `{!Environment W, !EnvironmentLaws W, !DynamicLinker W H I, !ListenerApi W A,
          !SocketApi W, !OpenSsl W C L}.
Context (out_of_range_what : bytes).

Lemma stream_factory_of tls (w : W) (f : default_stream_factory C) w' :
  stream_factory_new (L := L) tls w = (Ret f, w') → is_Some (tls_context f) ↔ tls ≠ None.
Proof.
  unfold stream_factory_new, create_tls_context.
  intros (ctx & w1 & Hc & [= <- <-])%prog_bind_inv. cbn [tls_context].
  destruct tls as [tls|].
  - apply prog_bind_inv in Hc as (c & w2 & _ & [= <- <-]). done.
  - injection Hc as <- _. split; [by intros [? ?]|done].
Qed.

Lemma listener_of bind_address port (w : W) l w' :
  listener_new (A := A) bind_address port w = (Ret l, w') →
  ln_bind_address l = bind_address ∧ 0 ≤ sock_fd (ln_sock l).
Proof.
  unfold listener_new. destruct (sys_socket w) as [fd w1].
  destruct (socket_assign empty_socket (Socket fd []) w1) as [[sock rest] w2].
  destruct (socket_is_valid sock) eqn:Hv; cbn [negb]; [|done].
  intros Hl%on_throw_ret. apply prog_bind_inv in Hl as (u & w3 & _ & [= <- _]).
  split; [done|]. by apply Z.leb_le.
Qed.

Lemma server_new_inv config (w : W) (s : server_parts W H I C) w' :
  server_new (A := A) (L := L) out_of_range_what config w = (Ret s, w') →
  ∃ w1 w2, listener_new (A := A) (bind_address config) (port config) w = (Ret (sp_listener s), w1) ∧
    create_request_handler out_of_range_what config w1 = (Ret (sp_handler s), w2) ∧
    stream_factory_new (L := L) (tls config) w2 = (Ret (sp_stream_factory s), w') ∧
    sp_config s = config.
Proof.
  intros (l & w1 & Hl & Hr)%prog_bind_inv. apply on_throw_ret in Hr.
  apply prog_bind_inv in Hr as (h & w2 & Hh & Hr). apply on_throw_ret in Hr.
  apply prog_bind_inv in Hr as (f & w3 & Hf & [= <- <-]). by exists w1, w2.
Qed.

(** C40: a server starts as its command line says.  If [parse] gives a
    configuration and the constructor of the server returns, the listener has a
    valid socket and was made for the configured address and a port that fits
    16 bits, the handler was made from the configured directory, the streams use
    TLS exactly when a certificate is configured, and the queue, the limiter and
    the workers of [run] exist unless the queue capacity is 0. *)
Theorem server_starts argv (w : W) r c w1 (s : server_parts W H I C) w2 :
  parse argv w = (Ret r, w1) → CommandLine.config r = Some c →
  server_new (A := A) (L := L) out_of_range_what c w1 = (Ret s, w2) →
  ∃ wl wh,
    listener_new (A := A) (bind_address c) (port c) w1 = (Ret (sp_listener s), wl) ∧
    uint16 (port c) = port c ∧ 0 ≤ sock_fd (ln_sock (sp_listener s)) ∧
    create_request_handler out_of_range_what c wl = (Ret (sp_handler s), wh) ∧
    (is_Some (tls_context (sp_stream_factory s)) ↔ https_enabled c = true) ∧
    (connection_queue_capacity c ≠ 0 →
     ∃ sv, start_server (Z.to_nat (connection_queue_capacity c)) (Z.to_nat (worker_threads c)) = Ret sv ∧
       length (sv_workers sv) = Z.to_nat (worker_threads c)).
Proof.
  intros Hp Hc Hs. destruct (config_wf argv w r c w1 Hp Hc) as (Hport & Hworkers & Hqueue).
  apply server_new_inv in Hs as (wl & wh & Hl & Hh & Hf & _).
  exists wl, wh. split_and!; [exact Hl| | |exact Hh| |].
  - unfold uint16. apply Z.mod_small. lia.
  - by apply listener_of in Hl as [_ ?].
  - rewrite (stream_factory_of _ _ _ _ Hf). unfold https_enabled. by rewrite bool_decide_eq_true.
  - intros Hq. unfold start_server. cbn [new_ip_limiter max_connections_per_ip].
    unfold new_work_queue, new_worker_pool.
    rewrite !(proj2 (Nat.eqb_neq _ _)) by lia. eexists. split; [done|]. cbn.
    by apply length_replicate.
Qed.

Lemma settles_on_throw {B} (m : prog W B) cleanup : settles m → settles (on_throw m cleanup).
Proof.
  intros Hm w. specialize (Hm w). unfold on_throw. by destruct (m w) as [[] ?].
Qed.

(** [main] returns 0 or 1: it never reads a configuration that [parse] did not
    give, and every exception ends in an exit code. *)
Lemma main_exit version (run : server_parts W H I C → prog W unit) argv (w : W) :
  (∀ c, settles (server_new (A := A) (L := L) out_of_range_what c)) → (∀ s, settles (run s)) →
  ∃ res w', main (A := A) (L := L) out_of_range_what version run argv w = (Ret res, w') ∧
    (exit_code res = 0 ∨ exit_code res = 1 ∧ to_cout res = []).
Proof.
  intros Hnew Hrun. unfold main.
  destruct (parse_spec argv w) as [Hd Hr]. unfold mbind, prog_bind at 1.
  destruct (parse argv w) as [[r|e| |] w1]; cbn in Hd; [|by eexists _, _; split; [|right]|by destruct Hd..].
  specialize (Hr r w1 eq_refl).
  destruct (show_help r); [by eexists _, _; split; [|left]|].
  destruct (show_version r); [by eexists _, _; split; [|left]|].
  destruct (CommandLine.config r) as [c|]; [|by destruct Hr as [[] | []]].
  assert (Hserve : settles (serve_config (A := A) (L := L) out_of_range_what run c)).
  { apply settles_bind; [apply Hnew|]. intros s. apply settles_on_throw.
    apply settles_bind; [apply Hrun|]. by intros _ w2. }
  specialize (Hserve w1). unfold prog_bind.
  destruct (serve_config _ run c w1) as [[u|e| |] w2]; cbn in Hserve;
    [by eexists _, _; split; [|left]|by eexists _, _; split; [|right]|by destruct Hserve..].
Qed.
End StartupSpec.

(** ** A start, executed

    A machine with one module on which every call succeeds. *)
Module SampleMachine.
#[global] Instance env : Environment Z := {
  env_absolute p w := (Expect p, w);
  env_exists _ w := (Expect true, w);
  env_is_directory _ w := (Expect true, w);
  env_directory _ w := (Expect ["m/a.conf" : bytes], w);
  env_is_regular_file _ w := (Expect true, w);
  env_read_file _ w := (Some ("path=/lib/a.so" : bytes), w);
  hardware_concurrency w := (w mod 2 ^ 32, w);
}.

#[global] Instance env_laws : EnvironmentLaws Z.
Proof. split. intros w. by apply Z.mod_pos_bound. Qed.

Definition library : descriptor Z unit :=
  Descriptor GARCON_MODULE_ABI_VERSION (Some ("a" : bytes)) (λ _ _, mret (Some tt, None))
    (Some (λ _ w, w)) None.

#[global] Instance linker : DynamicLinker Z unit unit := {
  dlopen _ w := (Some tt, w);
  dlclose _ w := w;
  dlerror w := (None, w);
  dlsym _ _ w := (Some (mret (Some library)), w);
}.

#[global] Instance listeners : ListenerApi Z unit := {
  sys_socket w := (3, w);
  sys_reuse_address _ w := (0, w);
  inet_pton _ := Some tt;
  inet_ntop _ := None;
  sys_bind _ _ _ w := (0, w);
  sys_listen _ _ w := (0, w);
  sys_accept _ w := (inl EBADF, w);
  accept_interrupts _ := 0%nat;
}.

#[global] Instance sockets : SocketApi Z := {
  sys_recv _ _ w := (inr [], w);
  sys_send _ _ w := (inr 0%nat, w);
  sys_setsockopt _ _ _ w := (true, w);
  sys_shutdown_write _ w := w;
  sys_close _ w := w;
  interrupts _ := 0%nat;
  outgoing _ _ := [];
}.

#[global] Instance openssl : OpenSsl Z unit unit := {
  SSL_CTX_new w := (Some tt, w);
  SSL_CTX_free _ w := w;
  SSL_CTX_set_min_proto_version _ _ w := (1, w);
  SSL_CTX_set_cipher_list _ _ w := (1, w);
  SSL_CTX_set_ciphersuites _ _ w := (1, w);
  SSL_CTX_set_options _ _ w := w;
  SSL_CTX_use_certificate_file _ _ _ w := (1, w);
  SSL_CTX_use_PrivateKey_file _ _ _ w := (1, w);
  SSL_CTX_check_private_key _ w := (1, w);
  SSL_new _ w := (None, w);
  SSL_free _ w := w;
  SSL_set_fd _ _ w := (0, w);
  SSL_accept _ w := (0, w);
  SSL_read_ex _ _ w := (inl 0, w);
  SSL_write_ex _ _ w := (inl 0, w);
  SSL_get_error _ _ _ := SSL_ERROR_ZERO_RETURN;
  errno_of _ := errno_other 0;
  ERR_get_error w := (0, w);
  ERR_error_string_n _ _ := [];
  plaintext _ _ := [];
}.
End SampleMachine.

Definition sample_arguments : list bytes :=
  ["garcon" : bytes; "8443" : bytes; "--workers" : bytes; "3" : bytes;
   "--tls-cert" : bytes; "c.pem" : bytes; "--tls-key" : bytes; "k.pem" : bytes;
   "--modules-dir" : bytes; "m" : bytes].

Definition sample_configuration : server_config :=
  ServerConfig "127.0.0.1" 8443 "www" "m" 3 192 (Some (TlsConfig "c.pem" "k.pem")).

Definition sample_module : dynamic_module Z unit unit :=
  DynamicModule "a" "path=/lib/a.so" "www" "m"
    (HostApi GARCON_MODULE_ABI_VERSION (make_string_view "www") (make_string_view "m"))
    (Some tt) (Some SampleMachine.library) (Some tt).

Definition sample_parts : server_parts Z unit unit unit :=
  ServerParts sample_configuration (Listener "127.0.0.1" (Socket 3 [])) [sample_module]
    (DefaultStreamFactory (Some tt)).

Lemma server_starts_witness :
  uint16 (port sample_configuration) = 8443 ∧
  ∃ sv, start_server 192 3 = Ret sv ∧ length (sv_workers sv) = 3%nat.
Proof.
  destruct (server_starts (A := unit) (L := unit) (Environment0 := SampleMachine.env)
    (EnvironmentLaws0 := SampleMachine.env_laws) [] sample_arguments 8
    (CommandLineResult false false (Some sample_configuration)) sample_configuration 8
    sample_parts 8) as (wl & wh & _ & Hport & _ & _ & _ & Hq).
  - vm_compute. reflexivity.
  - reflexivity.
  - vm_compute. reflexivity.
  - split; [exact Hport|]. apply Hq. vm_compute. discriminate.
Defined.
