(* ===== verification/Calendar.v ===== *)
(** * The calendar of the log ([format_timestamp] of [src/app/access_log.cpp])

    [std::chrono::system_clock::to_time_t], [gmtime_r] and [std::put_time] as the
    access log uses them, and a reader that turns the text back into the second.
    POSIX defines the seconds of a broken-down time by a formula
    ([posix_seconds]); [gmtime_r] is compared with it. *)

From S2P Require Import Prelude.
From S2P Require Import StringView.

#[local] Open Scope Z_scope.

(** The members of [std::tm] that the format reads: the month counts from 0, the
    year from 1900. *)
Record tm := Tm {
  tm_sec : Z;
  tm_min : Z;
  tm_hour : Z;
  tm_mday : Z;
  tm_mon : Z;
  tm_year : Z;
}.

(** ** The Gregorian calendar *)

Definition is_leap (y : Z) : bool :=
  (y mod 4 =? 0) && (negb (y mod 100 =? 0) || (y mod 400 =? 0)).

Definition year_days (y : Z) : Z := if is_leap y then 366 else 365.

Definition month_lengths (leap : bool) : list Z :=
  [31; (if leap then 29 else 28); 31; 30; 31; 30; 31; 31; 30; 31; 30; 31].

(** Days before the first of the month [mon]. *)
Definition month_start (leap : bool) (mon : nat) : Z :=
  foldr Z.add 0 (take mon (month_lengths leap)).

(** The month and the day of the month, from the day of the year. *)
Fixpoint find_month (ms : list Z) (day : Z) (mon : Z) : Z * Z :=
  match ms with
  | [] => (mon, day + 1)
  | len :: ms => if day <? len then (mon, day + 1) else find_month ms (day - len) (mon + 1)
  end.

(** The year and the day of the year, from the days since 1970-01-01.  1601-01-01
    is 134774 days earlier and begins 400 years; 400, 100, 4 and 1 years are
    taken off in turn, and the last century and the last year of a group are the
    ones that may be a day longer. *)
Definition year_of_days (days : Z) : Z * Z :=
  let d := days + 134774 in
  let n400 := d / 146097 in let d := d mod 146097 in
  let n100 := Z.min (d / 36524) 3 in let d := d - n100 * 36524 in
  let n4 := d / 1461 in let d := d mod 1461 in
  let n1 := Z.min (d / 365) 3 in let d := d - n1 * 365 in
  (1601 + 400 * n400 + 100 * n100 + 4 * n4 + n1, d).

(** [gmtime_r], where the year fits [tm_year]. *)
Definition gmtime_r (time : Z) : tm :=
  let '(year, yday) := year_of_days (time / 86400) in
  let '(mon, mday) := find_month (month_lengths (is_leap year)) yday 0 in
  let rem := time mod 86400 in
  Tm (rem mod 60) (rem / 60 mod 60) (rem / 3600) mday mon (year - 1900).

(** ** What POSIX says *)

(** Days from 1970-01-01 to the first day of a year: the formula of the standard
    with [y - 1900] for [tm_year]. *)
Definition days_before_year (y : Z) : Z :=
  365 * (y - 1970) + (y - 1969) / 4 - (y - 1901) / 100 + (y - 1601) / 400.

(** "Seconds Since the Epoch", with the day of the year counted by months. *)
Definition posix_seconds (t : tm) : Z :=
  let year := tm_year t + 1900 in
  let yday := month_start (is_leap year) (Z.to_nat (tm_mon t)) + tm_mday t - 1 in
  tm_sec t + tm_min t * 60 + tm_hour t * 3600 + (days_before_year year + yday) * 86400.

(** A date and a time that exist. *)
Definition wf_tm (t : tm) : Prop :=
  0 ≤ tm_sec t < 60 ∧ 0 ≤ tm_min t < 60 ∧ 0 ≤ tm_hour t < 24 ∧
  0 ≤ tm_mon t < 12 ∧
  1 ≤ tm_mday t ≤ nth (Z.to_nat (tm_mon t)) (month_lengths (is_leap (tm_year t + 1900))) 0.

Lemma days_before_next_year y : days_before_year (y + 1) = days_before_year y + year_days y.
Proof.
  unfold days_before_year, year_days, is_leap.
  destruct (Z.eqb_spec (y mod 4) 0), (Z.eqb_spec (y mod 100) 0), (Z.eqb_spec (y mod 400) 0);
    cbn [andb orb negb]; Z.to_euclidean_division_equations; lia.
Qed.

(** A later year begins after the last day of an earlier one. *)
Lemma days_before_year_le y1 y2 :
  y1 < y2 → days_before_year y1 + year_days y1 ≤ days_before_year y2.
Proof.
  intros H. rewrite <- days_before_next_year. unfold days_before_year.
  Z.to_euclidean_division_equations; lia.
Qed.

(** The parts a year is found by. *)
Lemma year_parts a b c e :
  0 ≤ b ≤ 3 → 0 ≤ c ≤ 24 → 0 ≤ e ≤ 3 →
  let y := 1601 + 400 * a + 100 * b + 4 * c + e in
  days_before_year y + 134774 = 146097 * a + 36524 * b + 1461 * c + 365 * e ∧
  year_days y = if decide (e = 3 ∧ (c < 24 ∨ b = 3)) then 366 else 365.
Proof.
  intros Hb Hc He y.
  assert (E4 : (y - 1969) / 4 = 100 * a + 25 * b + c - 92)
    by (subst y; Z.to_euclidean_division_equations; lia).
  assert (E100 : (y - 1901) / 100 = 4 * a + b - 3)
    by (subst y; Z.to_euclidean_division_equations; lia).
  assert (E400 : (y - 1601) / 400 = a)
    by (subst y; Z.to_euclidean_division_equations; lia).
  split.
  - unfold days_before_year. rewrite E4, E100, E400. subst y. lia.
  - assert (M4 : y mod 4 = (e + 1) mod 4)
      by (subst y; Z.to_euclidean_division_equations; lia).
    assert (M100 : y mod 100 = (4 * c + e + 1) mod 100)
      by (subst y; Z.to_euclidean_division_equations; lia).
    assert (M400 : y mod 400 = (100 * b + 4 * c + e + 1) mod 400)
      by (subst y; Z.to_euclidean_division_equations; lia).
    unfold year_days, is_leap. rewrite M4, M100, M400. clear -Hb Hc He.
    destruct (Z.eqb_spec ((e + 1) mod 4) 0), (Z.eqb_spec ((4 * c + e + 1) mod 100) 0),
      (Z.eqb_spec ((100 * b + 4 * c + e + 1) mod 400) 0); cbn [andb orb negb]; case_decide;
      Z.to_euclidean_division_equations; lia.
Qed.

(** The quotient by a length that the last group may exceed by one. *)
Lemma group_quotient d len k :
  0 < len → 0 < k → 0 ≤ d ≤ len * (k + 1) →
  0 ≤ Z.min (d / len) k ≤ k ∧ 0 ≤ d - Z.min (d / len) k * len ≤ len ∧
  (d - Z.min (d / len) k * len = len → Z.min (d / len) k = k).
Proof.
  intros Hl Hk Hd. pose proof (Z.div_mod d len ltac:(lia)). pose proof (Z.mod_pos_bound d len Hl).
  assert (0 ≤ d / len ≤ k + 1) by (split; [apply Z.div_pos|apply Z.div_le_upper_bound]; lia).
  destruct (Z.min_spec (d / len) k) as [[? ->]|[? ->]]; [nia|].
  assert (d / len = k ∨ d / len = k + 1) as [E|E] by lia; rewrite E in *; nia.
Qed.

Lemma year_of_days_spec days y yday :
  year_of_days days = (y, yday) →
  0 ≤ yday < year_days y ∧ days_before_year y + yday = days.
Proof.
  unfold year_of_days. set (d := days + 134774). assert (Hd : d = days + 134774) by done.
  clearbody d.
  pose proof (Z.div_mod d 146097 ltac:(lia)) as H400.
  pose proof (Z.mod_pos_bound d 146097 ltac:(lia)) as B400.
  generalize dependent (d / 146097). intros a. generalize dependent (d mod 146097).
  intros d1 B1 H1.
  destruct (group_quotient d1 36524 3) as (Bb & B2 & E2); [lia..|].
  generalize dependent (Z.min (d1 / 36524) 3). intros b Bb B2 E2.
  pose proof (Z.div_mod (d1 - b * 36524) 1461 ltac:(lia)) as H4.
  pose proof (Z.mod_pos_bound (d1 - b * 36524) 1461 ltac:(lia)) as B4.
  generalize dependent ((d1 - b * 36524) / 1461). intros c.
  generalize dependent ((d1 - b * 36524) mod 1461). intros d3 B3 H3.
  destruct (group_quotient d3 365 3) as (Be & B5 & E5); [lia..|].
  generalize dependent (Z.min (d3 / 365) 3). intros e Be B5 E5 [= <- <-].
  destruct (year_parts a b c e) as [Hy Hl]; [lia..|].
  rewrite Hl. clear Hl. split; [|lia]. case_decide; lia.
Qed.

Lemma find_month_spec ms day mon :
  Forall (λ l, 0 < l) ms → 0 ≤ day < foldr Z.add 0 ms →
  ∃ i, (i < length ms)%nat ∧
    find_month ms day mon = (mon + Z.of_nat i, day - foldr Z.add 0 (take i ms) + 1) ∧
    0 ≤ day - foldr Z.add 0 (take i ms) < nth i ms 0.
Proof.
  intros HF. revert day mon. induction HF as [|l ms Hl HF IH]; intros day mon; simpl; [lia|].
  intros Hd. destruct (Z.ltb_spec day l).
  - exists 0%nat. simpl. split_and!; [lia|f_equal; lia|lia|lia].
  - destruct (IH (day - l) (mon + 1) ltac:(lia)) as (i & Hi & -> & Hr). exists (S i). simpl.
    split_and!; [lia|f_equal; lia|lia|lia].
Qed.

Lemma month_lengths_total y : foldr Z.add 0 (month_lengths (is_leap y)) = year_days y.
Proof. unfold year_days. by destruct (is_leap y). Qed.

(** [gmtime_r] gives a date and a time that exist, and POSIX counts the given
    seconds for them. *)
Theorem gmtime_r_spec time : wf_tm (gmtime_r time) ∧ posix_seconds (gmtime_r time) = time.
Proof.
  unfold gmtime_r. destruct (year_of_days (time / 86400)) as [y yday] eqn:Hy.
  apply year_of_days_spec in Hy as [Hyd Hdays].
  destruct (find_month_spec (month_lengths (is_leap y)) yday 0) as (i & Hi & -> & Hr).
  { by destruct (is_leap y); repeat constructor. }
  { by rewrite month_lengths_total. }
  assert (Hlen : length (month_lengths (is_leap y)) = 12%nat) by done. rewrite Hlen in Hi.
  pose proof (Z.div_mod time 86400 ltac:(lia)) as Ht.
  pose proof (Z.mod_pos_bound time 86400 ltac:(lia)) as Hb.
  unfold wf_tm, posix_seconds. cbn [tm_sec tm_min tm_hour tm_mday tm_mon tm_year].
  rewrite Z.sub_add, Z.add_0_l, Nat2Z.id. unfold month_start.
  generalize dependent (time mod 86400). intros rem Hrem Hb.
  assert (rem = rem mod 60 + rem / 60 mod 60 * 60 + rem / 3600 * 3600 ∧ 0 ≤ rem mod 60 < 60 ∧
    0 ≤ rem / 60 mod 60 < 60 ∧ 0 ≤ rem / 3600 < 24) as (Hparts & ? & ? & ?)
    by (Z.to_euclidean_division_equations; lia).
  split; [split_and!; try done; lia|lia].
Qed.

(** No two dates and times are the same second. *)
Lemma month_start_lt leap i j :
  (i < j < 12)%nat → month_start leap i + nth i (month_lengths leap) 0 ≤ month_start leap j.
Proof.
  intros H. assert (Hall : forallb (λ j, forallb (λ i,
      month_start leap i + nth i (month_lengths leap) 0 <=? month_start leap j) (seq 0 j))
    (seq 0 12) = true) by (by destruct leap).
  rewrite forallb_forall in Hall. specialize (Hall j). rewrite in_seq in Hall.
  specialize (Hall ltac:(lia)). rewrite forallb_forall in Hall. specialize (Hall i).
  rewrite in_seq in Hall. apply Z.leb_le, Hall. lia.
Qed.

Lemma month_end_le y i :
  (i < 12)%nat → 0 ≤ month_start (is_leap y) i ∧
  month_start (is_leap y) i + nth i (month_lengths (is_leap y)) 0 ≤ year_days y.
Proof.
  intros H. unfold year_days. generalize (is_leap y). intros leap.
  assert (Hall : forallb (λ i, (0 <=? month_start leap i) &&
      (month_start leap i + nth i (month_lengths leap) 0 <=? (if leap then 366 else 365)))
    (seq 0 12) = true) by (by destruct leap).
  rewrite forallb_forall in Hall. specialize (Hall i). rewrite in_seq in Hall.
  specialize (Hall ltac:(lia)). by rewrite andb_true_iff, !Z.leb_le in Hall.
Qed.

Theorem posix_seconds_inj a b :
  wf_tm a → wf_tm b → posix_seconds a = posix_seconds b → a = b.
Proof.
  destruct a as [s1 n1 h1 d1 m1 y1], b as [s2 n2 h2 d2 m2 y2].
  unfold wf_tm, posix_seconds. cbn [tm_sec tm_min tm_hour tm_mday tm_mon tm_year].
  set (z1 := y1 + 1900). set (z2 := y2 + 1900).
  intros (Hs1 & Hn1 & Hh1 & Hm1 & Hd1) (Hs2 & Hn2 & Hh2 & Hm2 & Hd2) Heq.
  destruct (month_end_le z1 (Z.to_nat m1) ltac:(lia)), (month_end_le z2 (Z.to_nat m2) ltac:(lia)).
  assert (Hdays : days_before_year z1 + (month_start (is_leap z1) (Z.to_nat m1) + d1)
    = days_before_year z2 + (month_start (is_leap z2) (Z.to_nat m2) + d2)) by lia.
  assert (z1 = z2) as Hz.
  { destruct (Z.lt_total z1 z2) as [Hlt|[?|Hlt]]; [|done|];
      pose proof (days_before_year_le _ _ Hlt); lia. }
  rewrite Hz in *. assert (Z.to_nat m1 = Z.to_nat m2) as Hm.
  { destruct (Nat.lt_total (Z.to_nat m1) (Z.to_nat m2)) as [Hlt|[?|Hlt]]; [|done|].
    - pose proof (month_start_lt (is_leap z2) (Z.to_nat m1) (Z.to_nat m2) ltac:(lia)). lia.
    - pose proof (month_start_lt (is_leap z2) (Z.to_nat m2) (Z.to_nat m1) ltac:(lia)). lia. }
  rewrite Hm in *. f_equal; lia.
Qed.

(** ** The timestamp *)

(** [std::chrono::system_clock::to_time_t] of a time point in nanoseconds. *)
Definition to_time_t (timestamp : Z) : Z := Z.quot timestamp 1000000000.

Definition month_names : list bytes :=
  of_string <$>
    ["Jan"; "Feb"; "Mar"; "Apr"; "May"; "Jun"; "Jul"; "Aug"; "Sep"; "Oct"; "Nov"; "Dec"]%string.

(** [%d], [%H], [%M] and [%S]. *)
Definition two_digits (z : Z) : bytes := [digit_char (z / 10); digit_char (z mod 10)].

(** [std::put_time] with ["%d/%b/%Y:%H:%M:%S +0000"] in the "C" locale. *)
Definition put_time (t : tm) : bytes :=
  two_digits (tm_mday t) ++ "/" ++ nth (Z.to_nat (tm_mon t)) month_names [] ++ "/" ++
  to_string (tm_year t + 1900) ++ ":" ++ two_digits (tm_hour t) ++ ":" ++
  two_digits (tm_min t) ++ ":" ++ two_digits (tm_sec t) ++ " +0000".

(** [format_timestamp] *)
Definition format_timestamp (timestamp : Z) : bytes := put_time (gmtime_r (to_time_t timestamp)).

(** A reader of timestamps: the second they denote. *)
Definition read_timestamp (s : bytes) : option Z :=
  match split_on "/" s with
  | [mday; mon; rest] =>
      match split_on ":" rest with
      | [year; hour; min; rest] =>
          match split_on " " rest with
          | [sec; zone] =>
              if bytes_eqb zone "+0000" then
                '(i, _) ← list_find (λ n, n = mon) month_names;
                Some (posix_seconds (Tm (decimal_value sec) (decimal_value min)
                  (decimal_value hour) (decimal_value mday) (Z.of_nat i)
                  (decimal_value year - 1900)))
              else None
          | _ => None
          end
      | _ => None
      end
  | _ => None
  end.

(** The time points of a clock that counts nanoseconds in 64 bits. *)
Definition time_point (timestamp : Z) : Prop := - 2 ^ 63 ≤ timestamp < 2 ^ 63.

Lemma two_digits_spec z : 0 ≤ z < 100 →
  Forall (λ c, is_digit c = true) (two_digits z) ∧ decimal_value (two_digits z) = z.
Proof.
  intros Hz.
  destruct (digit_char_spec (z / 10)) as [H1 V1]; [Z.to_euclidean_division_equations; lia|].
  destruct (digit_char_spec (z mod 10)) as [H2 V2]; [Z.to_euclidean_division_equations; lia|].
  split; [by repeat constructor|]. unfold decimal_value, two_digits. cbn [foldl].
  rewrite V1, V2. pose proof (Z.div_mod z 10). lia.
Qed.

(** The chars of the separators are in no field. *)
Definition is_separator (c : ascii) : bool :=
  Ascii.eqb c "/" || Ascii.eqb c ":" || Ascii.eqb c " " || Ascii.eqb c "]" || Ascii.eqb c "010".

Lemma separator_free s : forallb (λ c, negb (is_separator c)) s = true →
  ("/"%char ∉ s) ∧ (":"%char ∉ s) ∧ (" "%char ∉ s) ∧ ("]"%char ∉ s) ∧ ("010"%char ∉ s).
Proof.
  intros Hs. rewrite forallb_forall in Hs.
  split_and!; intros Hin%list_elem_of_In%Hs; by vm_compute in Hin.
Qed.

Lemma digits_separator_free s :
  Forall (λ c, is_digit c = true) s → forallb (λ c, negb (is_separator c)) s = true.
Proof. intros H. apply forallb_Forall. eapply Forall_impl; [exact H|]. by_char_impl. Qed.

Lemma month_names_spec i : (i < 12)%nat →
  forallb (λ c, negb (is_separator c)) (nth i month_names []) = true ∧
  list_find (λ n, n = nth i month_names []) month_names = Some (i, nth i month_names []) ∧
  length (nth i month_names []) = 3%nat.
Proof.
  intros Hi. do 12 (destruct i as [|i]; [by vm_compute|]). lia.
Qed.

Lemma month_length_le leap i : nth i (month_lengths leap) 0 ≤ 31.
Proof. destruct leap; do 12 (destruct i as [|i]; [by vm_compute|]); by destruct i. Qed.

(** A separator is not in a text of fields without it. *)
Ltac no_separator :=
  repeat first [rewrite not_elem_of_app | rewrite not_elem_of_cons];
  split_and!; first [done | apply not_elem_of_nil].

(** A field of the format: what it is read as, without a separator. *)
Definition field (text : bytes) (value : Z) : Prop :=
  decimal_value text = value ∧ forallb (λ c, negb (is_separator c)) text = true.

Lemma two_digits_field z : 0 ≤ z < 100 → field (two_digits z) z.
Proof. intros [H ?]%two_digits_spec. split; [done|]. by apply digits_separator_free. Qed.

Lemma year_field y : 0 ≤ y → field (to_string y) y.
Proof. intros (H & ? & _)%to_string_value. split; [done|]. by apply digits_separator_free. Qed.

Lemma tm_fields t :
  wf_tm t → 0 ≤ tm_year t + 1900 →
  field (two_digits (tm_mday t)) (tm_mday t) ∧ field (to_string (tm_year t + 1900)) (tm_year t + 1900) ∧
  field (two_digits (tm_hour t)) (tm_hour t) ∧ field (two_digits (tm_min t)) (tm_min t) ∧
  field (two_digits (tm_sec t)) (tm_sec t).
Proof.
  intros (? & ? & ? & ? & Hd) ?.
  pose proof (month_length_le (is_leap (tm_year t + 1900)) (Z.to_nat (tm_mon t))).
  split_and!; (apply two_digits_field || apply year_field); lia.
Qed.

(** The facts of the fields of [t], from [Hwf : wf_tm t] and [Hy : 0 ≤ tm_year t + 1900]. *)
Ltac tm_fields t Hwf Hy :=
  destruct (tm_fields _ Hwf Hy) as
    ((? & ?%separator_free) & (? & ?%separator_free) & (? & ?%separator_free) &
     (? & ?%separator_free) & (? & ?%separator_free));
  destruct Hwf as (_ & _ & _ & ? & _);
  destruct (month_names_spec (Z.to_nat (tm_mon t)) ltac:(lia)) as (?%separator_free & ? & _);
  destruct_and?; unfold put_time;
  cbn [of_string String.list_ascii_of_string app].

(** Every date and time with a year from 0 on is read back. *)
Lemma read_put_time t :
  wf_tm t → 0 ≤ tm_year t + 1900 → read_timestamp (put_time t) = Some (posix_seconds t).
Proof.
  intros Hwf Hy. tm_fields t Hwf Hy. unfold read_timestamp.
  do 2 (rewrite (split_on_app "/") by done). rewrite (split_on_none "/") by no_separator.
  do 3 (rewrite (split_on_app ":") by done). rewrite (split_on_none ":") by no_separator.
  rewrite (split_on_app " ") by done. rewrite (split_on_none " ") by no_separator.
  match goal with H : list_find _ _ = _ |- _ => rewrite H end.
  repeat match goal with H : decimal_value _ = _ |- _ => rewrite H; clear H end.
  cbn. rewrite Z2Nat.id, Z.add_simpl_r by lia. by destruct t.
Qed.

Lemma put_time_chars t :
  wf_tm t → 0 ≤ tm_year t + 1900 → ("]"%char ∉ put_time t) ∧ ("010"%char ∉ put_time t).
Proof. intros Hwf Hy. tm_fields t Hwf Hy. split; no_separator. Qed.

(** The years of 64-bit nanoseconds. *)
Lemma time_point_year timestamp :
  time_point timestamp → 1677 ≤ tm_year (gmtime_r (to_time_t timestamp)) + 1900 ≤ 2262.
Proof.
  unfold time_point, to_time_t. intros Ht. set (time := Z.quot timestamp 1000000000).
  assert (Hb : - 9223372037 ≤ time ≤ 9223372037)
    by (subst time; Z.to_euclidean_division_equations; lia).
  destruct (gmtime_r_spec time) as [(Hs & Hn & Hh & Hm & Hd) Hp].
  destruct (gmtime_r time) as [s n h d m y]. unfold posix_seconds in Hp.
  cbn [tm_sec tm_min tm_hour tm_mday tm_mon tm_year] in *.
  set (year := y + 1900) in *. destruct (month_end_le year (Z.to_nat m) ltac:(lia)) as [H0 H1].
  assert (Hlen : year_days year ≤ 366) by (unfold year_days; destruct (is_leap year); lia).
  assert (Hdays : - 106752 ≤ days_before_year year + (month_start (is_leap year) (Z.to_nat m) + d - 1)
    ≤ 106751) by lia.
  split; apply Z.le_ngt; intros Hlt.
  - apply days_before_year_le in Hlt. change (days_before_year 1677) with (-107015) in Hlt. lia.
  - apply days_before_year_le in Hlt. change (days_before_year 2262) with 106651 in Hlt.
    change (year_days 2262) with 365 in Hlt. lia.
Qed.

(** A timestamp of the log is read back to its second. *)
Theorem read_format_timestamp timestamp :
  time_point timestamp → read_timestamp (format_timestamp timestamp) = Some (to_time_t timestamp).
Proof.
  intros Ht. pose proof (time_point_year timestamp Ht).
  destruct (gmtime_r_spec (to_time_t timestamp)) as [Hwf Hp].
  unfold format_timestamp. rewrite read_put_time by (done || lia). by rewrite Hp.
Qed.

(** The closing bracket and the line break do not occur in it. *)
Lemma format_timestamp_chars timestamp :
  time_point timestamp →
  ("]"%char ∉ format_timestamp timestamp) ∧ ("010"%char ∉ format_timestamp timestamp).
Proof.
  intros Ht. pose proof (time_point_year timestamp Ht). apply put_time_chars; [|lia].
  apply gmtime_r_spec.
Qed.
