(* ===== verification/Logs.v ===== *)
(** * The log lines ([src/app/access_log.cpp], [src/app/runtime_events.cpp])

    The access log writes a line per answer to standard output, the diagnostics a
    line per failure to standard error; each writes its line under a lock, so the
    output is a sequence of whole lines.  A reader of the access log is given, and
    what it finds is compared with what the connections did. *)

From S2P Require Import Prelude.
From S2P Require Import StringView.
From S2P Require Import HttpHeader.
From S2P Require Import HttpRequest.
From S2P Require Import HttpResponse.
From S2P Require Import Net.
From S2P Require Import HttpFraming.
From S2P Require Import CommandLine.
From S2P Require Import Server.
From S2P Require Import ConnectionHandler.
From S2P Require Import Calendar.

Definition newline : ascii := "010".
Definition quote : ascii := "034".

(** ** The access log *)

(** The address, or a dash when it is empty. *)
Definition shown_client (ip : bytes) : bytes := if bytes_eqb ip [] then "-" : bytes else ip.

(** The line of [stdout_access_log::log]: the address, the timestamp in brackets,
    the request line in quotes, the status, the size and the time taken. *)
Definition access_line (r : access_record) : bytes :=
  shown_client (ar_client_ip r) ++ " - - [" ++ format_timestamp (ar_timestamp r) ++ "] " ++
  quote :: ar_method r ++ " " ++ ar_target r ++ " " ++ ar_version r ++ quote :: " " ++
  to_string (ar_status r) ++ " " ++ to_string (Z.of_nat (ar_response_bytes r)) ++ " rt_us=" ++
  to_string (ar_elapsed r).

(** [stdout_access_log::log], on what was written before: a locked section, which no
    other thread's line can come into. *)
Definition log (out : bytes) (r : access_record) : bytes := out ++ access_line r ++ [newline].

(** ** The diagnostics *)

(** [std::source_location] of the call. *)
Record source_location := SourceLocation { file_name : bytes; line_number : Z }.

Section RuntimeEvents.
(** [std::error_code::message] *)
Context (error_message : errno → bytes).

Definition make_accept_message (error : errno) (fatal : bool) : bytes :=
  "accept() failed (" ++ (if fatal then "fatal" : bytes else "retryable") ++ "): " ++
  error_message error.

Definition make_connection_message (stage detail : bytes) : bytes :=
  "connection error during " ++ stage ++ ": " ++ detail.

(** [stderr_runtime_events::write_line], on what was written before. *)
Definition write_line (err level message : bytes) (loc : source_location) : bytes :=
  err ++ "[" ++ level ++ "] " ++ file_name loc ++ ":" ++ to_string (line_number loc) ++ " " ++
  message ++ [newline].

(** The calls of the server ([on_accept_error], [on_connection_rejected],
    [on_worker_error]) and of a connection ([on_connection_error]). *)
Definition write_event (err : bytes) (e : runtime_event) (loc : source_location) : bytes :=
  match e with
  | on_accept_error error fatal =>
      write_line err (if fatal then "error" else "warn") (make_accept_message error fatal) loc
  | on_connection_rejected why => write_line err "warn" ("connection rejected: " ++ why) loc
  | on_worker_error detail => write_line err "error" ("worker callback error: " ++ detail) loc
  end.

Definition write_connection_error (err stage detail : bytes) (loc : source_location) : bytes :=
  write_line err "warn" (make_connection_message stage detail) loc.
End RuntimeEvents.

(** ** The line at start-up *)

(** [log_startup] of [src/server.cpp]; the name is UTF-8. *)
Definition log_startup (out : bytes) (config : server_config) : bytes :=
  out ++ "Gar" ++ ["195"%char; "167"%char] ++ "on listening on " ++ scheme config ++ "://" ++
  bind_address config ++ ":" ++ to_string (port config) ++ "/" ++ " with " ++
  to_string (worker_threads config) ++ " worker" ++
  (if (worker_threads config =? 1)%Z then "" : bytes else "s") ++ " and queue capacity " ++
  to_string (connection_queue_capacity config) ++ [newline].

(** *** Reading it *)

(** What a line says. *)
Record log_entry := LogEntry {
  le_client : bytes;
  le_time : Z;
  le_method : bytes;
  le_target : bytes;
  le_version : bytes;
  le_status : Z;
  le_bytes : Z;
  le_elapsed : Z;
}.

Definition read_integer (s : bytes) : option Z :=
  match s with
  | [] => None
  | c :: ds =>
      if Ascii.eqb c "-" then if forallb StringView.is_digit ds then Some (- decimal_value ds)%Z else None
      else if forallb StringView.is_digit s then Some (decimal_value s) else None
  end.

Definition read_access_line (line : bytes) : option log_entry :=
  '(client, line) ← cut " - - [" line;
  '(time, line) ← cut ("] " ++ [quote]) line;
  time ← read_timestamp time;
  match split_on " " line with
  | [m; t; v; st; n; us] =>
      '(v, rest) ← cut [quote] v;
      st ← read_integer st;
      n ← read_integer n;
      '(label, us) ← cut "=" us;
      us ← read_integer us;
      if bytes_eqb rest [] && bytes_eqb label "rt_us"
      then Some (LogEntry client time m t v st n us) else None
  | _ => None
  end.

(** The lines of a log, each ended by a line break, read with [read]. *)
Definition read_log {A} (read : bytes → option A) (out : bytes) : option (list A) :=
  match reverse (split_on newline out) with
  | [] :: lines => mapM read (reverse lines)
  | _ => None
  end.

Definition read_access_log : bytes → option (list log_entry) := read_log read_access_line.

(** Lines that are written one by one. *)
Lemma foldl_lines {B} (line : B → bytes) (write : bytes → B → bytes) bs out :
  (∀ out b, write out b = out ++ line b ++ [newline]) →
  foldl write out bs = out ++ concat ((λ b, line b ++ [newline]) <$> bs).
Proof.
  intros Hw. revert out. induction bs as [|b bs IH]; intros out; simpl; [by rewrite app_nil_r|].
  by rewrite IH, Hw, <- !app_assoc.
Qed.

Section Lines.
Context {A B : Type} (read : bytes → option A) (line : B → bytes) (meaning : B → A).

Definition readable (b : B) : Prop := (newline ∉ line b) ∧ read (line b) = Some (meaning b).

Lemma split_lines bs :
  Forall readable bs →
  split_on newline (concat ((λ b, line b ++ [newline]) <$> bs)) = (line <$> bs) ++ [[]].
Proof.
  induction 1 as [|b bs [Hb _] _ IH]; [done|]. cbn [fmap list_fmap concat].
  rewrite <- app_assoc. cbn [app]. by rewrite split_on_app, IH by done.
Qed.

(** A log of readable lines is read back, a line per item, in order. *)
Lemma read_log_lines bs :
  Forall readable bs →
  read_log read (concat ((λ b, line b ++ [newline]) <$> bs)) = Some (meaning <$> bs).
Proof.
  intros Hbs. unfold read_log. rewrite split_lines, reverse_snoc, reverse_involutive by done.
  induction Hbs as [|b bs [_ Hb] _ IH]; [done|]. cbn [fmap list_fmap mapM].
  rewrite Hb. cbn [mbind option_bind]. by rewrite IH.
Qed.
End Lines.

(** What a record says. *)
Definition entry_of (r : access_record) : log_entry :=
  LogEntry (shown_client (ar_client_ip r)) (to_time_t (ar_timestamp r)) (ar_method r) (ar_target r)
    (ar_version r) (ar_status r) (Z.of_nat (ar_response_bytes r)) (ar_elapsed r).

(** Text without the delimiters of the line. *)
Definition plain (s : bytes) : Prop := (" "%char ∉ s) ∧ (newline ∉ s).

Record wf_record (r : access_record) : Prop := {
  wf_time : time_point (ar_timestamp r);
  wf_client : plain (ar_client_ip r);
  wf_method : plain (ar_method r);
  wf_target : plain (ar_target r);
  wf_version : plain (ar_version r) ∧ quote ∉ ar_version r;
}.

Lemma digits_not_dash s : Forall (λ c, StringView.is_digit c = true) s → "-"%char ∉ s.
Proof. apply class_excludes. by_char_impl. Qed.

Lemma read_integer_digits s :
  Forall (λ c, StringView.is_digit c = true) s → s ≠ [] → read_integer s = Some (decimal_value s).
Proof.
  intros HF Hne. pose proof (digits_not_dash s HF) as Hd.
  destruct s as [|c s]; [done|]. unfold read_integer.
  apply not_elem_of_cons in Hd as [Hd _]. rewrite (proj2 (Ascii.eqb_neq c "-")) by done.
  by rewrite (proj2 (forallb_Forall StringView.is_digit (c :: s)) HF).
Qed.

Lemma read_to_string z : read_integer (to_string z) = Some z.
Proof.
  destruct (Z.ltb_spec z 0) as [Hneg|Hpos].
  - destruct (to_string_value (- z)) as (HF & Hv & _); [lia|].
    assert (Heq : to_string z = "-"%char :: to_string (- z)).
    { unfold to_string. rewrite (proj2 (Z.ltb_lt z 0)), (proj2 (Z.ltb_ge (- z) 0)) by lia. done. }
    rewrite Heq. cbn [read_integer]. rewrite Ascii.eqb_refl.
    rewrite (proj2 (forallb_Forall _ _) HF), Hv. f_equal. lia.
  - destruct (to_string_value z Hpos) as (HF & Hv & Hne).
    by rewrite read_integer_digits, Hv.
Qed.

Lemma to_string_plain z : plain (to_string z) ∧ "="%char ∉ to_string z.
Proof.
  pose proof (to_string_chars z) as HF.
  split; [split|]; (eapply class_excludes, HF); by_char_impl.
Qed.

Lemma shown_client_plain ip : plain ip → plain (shown_client ip).
Proof.
  unfold shown_client. destruct (bytes_eqb ip []); [|done]. intros _.
  split; by apply (bool_decide_eq_true_1 _).
Qed.

Lemma cut_at c p a b s : c ∉ a → s = a ++ (c :: p) ++ b → cut (c :: p) s = Some (a, b).
Proof. intros Hc ->. by apply cut_app. Qed.

(** A line is read back to its record. *)
Lemma read_line_spec r : wf_record r → read_access_line (access_line r) = Some (entry_of r).
Proof.
  intros [Ht [Hc _]%shown_client_plain [Hm _] [Htg _] [[Hv _] Hq]].
  destruct (to_string_plain (ar_status r)) as [[Hst _] _],
    (to_string_plain (Z.of_nat (ar_response_bytes r))) as [[Hn _] _],
    (to_string_plain (ar_elapsed r)) as [[Hus _] Heq].
  destruct (format_timestamp_chars _ Ht) as [Hb _].
  unfold read_access_line, access_line.
  cbn [of_string String.list_ascii_of_string app].
  erewrite (cut_at _ _ (shown_client _)); [|exact Hc|reflexivity]. cbn [mbind option_bind].
  erewrite (cut_at _ _ (format_timestamp _)); [|exact Hb|reflexivity]. cbn [mbind option_bind].
  rewrite read_format_timestamp by done. cbn [mbind option_bind].
  do 2 (rewrite (split_on_app " ") by done).
  change (ar_version r ++ quote :: " "%char :: ?l) with (ar_version r ++ [quote] ++ " "%char :: l).
  rewrite app_assoc. rewrite (split_on_app " ") by no_separator.
  do 2 (rewrite (split_on_app " ") by done). rewrite (split_on_none " ") by no_separator.
  rewrite (cut_char_app quote _ []) by done. rewrite !read_to_string. cbn [mbind option_bind].
  rewrite (cut_at "=" [] (of_string "rt_us") (to_string (ar_elapsed r)))
    by first [reflexivity | by apply (bool_decide_eq_true_1 _)].
  cbn [mbind option_bind]. rewrite read_to_string. done.
Qed.

(** No part of a record breaks its line. *)
Lemma access_line_no_break r : wf_record r → newline ∉ access_line r.
Proof.
  intros [Ht [_ Hc]%shown_client_plain [_ Hm] [_ Htg] [[_ Hv] _]].
  destruct (to_string_plain (ar_status r)) as [[_ Hst] _],
    (to_string_plain (Z.of_nat (ar_response_bytes r))) as [[_ Hn] _],
    (to_string_plain (ar_elapsed r)) as [[_ Hus] _].
  destruct (format_timestamp_chars _ Ht) as [_ Hb].
  unfold access_line. cbn [of_string String.list_ascii_of_string app]. no_separator.
Qed.

(** The log of well-formed records is read back. *)
Theorem read_log_spec rs :
  Forall wf_record rs → read_access_log (foldl log [] rs) = Some (entry_of <$> rs).
Proof.
  intros Hrs. rewrite (foldl_lines access_line) by done. apply read_log_lines. eapply Forall_impl; [exact Hrs|].
  intros r Hr. split; [by apply access_line_no_break|by apply read_line_spec].
Qed.

(** *** The diagnostics *)

Record diagnostic := Diagnostic {
  dg_level : bytes; dg_file : bytes; dg_line : Z; dg_message : bytes;
}.

Definition read_diagnostic (l : bytes) : option diagnostic :=
  '(bracket, l) ← cut "[" l;
  '(level, l) ← cut "] " l;
  '(file, l) ← cut ":" l;
  '(n, message) ← cut " " l;
  n ← read_integer n;
  if bytes_eqb bracket [] then Some (Diagnostic level file n message) else None.

(** The call on the diagnostics a trace event stands for. *)
Definition write_diagnostic (error_message : errno → bytes) (err : bytes)
    (d : (runtime_event + bytes * bytes) * source_location) : bytes :=
  match d.1 with
  | inl e => write_event error_message err e d.2
  | inr (stage, detail) => write_connection_error err stage detail d.2
  end.

(** What a call says: errors are fatal accept errors and exceptions of the worker
    callback, the rest are warnings. *)
Definition diagnostic_of (error_message : errno → bytes)
    (d : (runtime_event + bytes * bytes) * source_location) : diagnostic :=
  let '(level, message) := match d.1 with
    | inl (on_accept_error e fatal) =>
        (if fatal then "error" : bytes else "warn", make_accept_message error_message e fatal)
    | inl (on_connection_rejected why) => ("warn" : bytes, "connection rejected: " ++ why)
    | inl (on_worker_error detail) => ("error" : bytes, "worker callback error: " ++ detail)
    | inr (stage, detail) => ("warn" : bytes, make_connection_message stage detail)
    end in
  Diagnostic level (file_name d.2) (line_number d.2) message.

Definition diagnostic_line (g : diagnostic) : bytes :=
  "[" ++ dg_level g ++ "] " ++ dg_file g ++ ":" ++ to_string (dg_line g) ++ " " ++ dg_message g.

Lemma write_diagnostic_line error_message err d :
  write_diagnostic error_message err d
  = err ++ diagnostic_line (diagnostic_of error_message d) ++ [newline].
Proof.
  destruct d as [[[e []|why|detail]|[stage detail]] loc];
    unfold write_diagnostic, write_event, write_connection_error, write_line, diagnostic_line;
    cbn [fst snd diagnostic_of dg_level dg_file dg_line dg_message]; by rewrite <- !app_assoc.
Qed.

(** The diagnostics are read back when no text in them breaks the line; what
    [what()] of an exception or the peer address says is not checked by the code. *)
Theorem diagnostics_read_back error_message ds :
  Forall (λ d, (":"%char ∉ file_name d.2) ∧
    (newline ∉ diagnostic_line (diagnostic_of error_message d))) ds →
  read_log read_diagnostic (foldl (write_diagnostic error_message) [] ds)
  = Some (diagnostic_of error_message <$> ds).
Proof.
  intros Hds. rewrite (foldl_lines (λ d, diagnostic_line (diagnostic_of error_message d)))
    by apply write_diagnostic_line.
  apply read_log_lines. eapply Forall_impl; [exact Hds|]. intros d [Hf Hn]. split; [done|].
  assert (Hl : "]"%char ∉ dg_level (diagnostic_of error_message d))
    by (destruct d as [[[e []|why|detail]|[stage detail]] loc]; by apply (bool_decide_eq_true_1 _)).
  assert (Hfile : dg_file (diagnostic_of error_message d) = file_name d.2)
    by (by destruct d as [[[e []|why|detail]|[stage detail]] loc]).
  rewrite <- Hfile in Hf. revert Hl Hf. generalize (diagnostic_of error_message d).
  intros [level file n message]. cbn [dg_level dg_file dg_line dg_message]. intros Hl Hf.
  unfold read_diagnostic, diagnostic_line. cbn [dg_level dg_file dg_line dg_message].
  cbn [of_string String.list_ascii_of_string app].
  erewrite (cut_at "[" [] []); [|apply not_elem_of_nil|reflexivity]. cbn [mbind option_bind].
  erewrite (cut_at "]" [" "%char] level); [|done|reflexivity]. cbn [mbind option_bind].
  erewrite (cut_at ":" [] file); [|done|reflexivity]. cbn [mbind option_bind].
  erewrite (cut_at " " [] (to_string n)); [|by apply to_string_plain|reflexivity].
  cbn [mbind option_bind]. by rewrite read_to_string.
Qed.

(** ** The log of the connections *)

Definition records (tr : list trace_event) : list access_record :=
  omap (λ e, match e with tr_access r => Some r | _ => None end) tr.

(** The responses a connection gave to [send_all]. *)
Definition sends (tr : list trace_event) : list (response * connection_policy) :=
  omap (λ e, match e with tr_send resp policy _ => Some (resp, policy) | _ => None end) tr.

(** An entry that reports an answer to the client [ip]. *)
Definition reports (ip : bytes) (e : log_entry) (sent : response * connection_policy) : Prop :=
  le_client e = shown_client ip ∧ le_status e = status sent.1 ∧
  le_bytes e = Z.of_nat (length (serialize sent.1 sent.2)) ∧ (0 ≤ le_elapsed e)%Z.

(** Clocks of 64 bits, the steady one never going back. *)
Record sane_clocks (clk : clocks) : Prop := {
  sane_system n : time_point (system_clock clk n);
  sane_steady i j : i ≤ j → (steady_clock clk i ≤ steady_clock clk j)%Z;
}.

Lemma wf_request_plain req :
  HttpRequest.wf_request req →
  plain (method req) ∧ plain (target req) ∧ plain (version_string req) ∧ quote ∉ version_string req.
Proof.
  intros (Hm & Ht & Hmaj & Hmin & _). split_and!.
  - apply valid_name_tokens in Hm as [_ HF]. split; (eapply class_excludes, HF); by_char_impl.
  - unfold is_valid_target in Ht. destruct (target req) as [|c t]; [done|].
    destruct (negb (Ascii.eqb c "/")); [done|]. apply forallb_Forall in Ht.
    split; (eapply class_excludes, Ht); by_char_impl.
  - unfold version_string. rewrite Hmaj. destruct Hmin as [-> | ->];
      split; by apply (bool_decide_eq_true_1 _).
  - unfold version_string. rewrite Hmaj.
    destruct Hmin as [-> | ->]; by apply (bool_decide_eq_true_1 _).
Qed.

Section Connections.
Context (clk : clocks) (Hclk : sane_clocks clk).
Context {W : Type} (https_enabled : bool) (request_handler : request → prog W response).

Lemma answer_logged ip ts el req resp policy st :
  plain ip → timed clk ts el → match req with Some r => HttpRequest.wf_request r | None => True end →
  let r := make_record ts ip req resp (length (serialize resp policy)) el in
  records (answer ip ts el req resp policy st) = [r] ∧
  sends (answer ip ts el req resp policy st) = [(resp, policy)] ∧
  wf_record r ∧ reports ip (entry_of r) (resp, policy).
Proof.
  intros Hip (i & j & k & Hijk & -> & ->) Hreq r.
  split; [by destruct st|split; [by destruct st|split]].
  - assert (Hplain : plain (ar_method r) ∧ plain (ar_target r) ∧ plain (ar_version r) ∧
      quote ∉ ar_version r).
    { destruct req as [req|]; [by apply wf_request_plain|]. unfold plain.
      split_and!; by apply (bool_decide_eq_true_1 _). }
    destruct Hplain as (? & ? & ? & ?). split; try done. apply (sane_system _ Hclk).
  - split_and!; [done..|]. cbn [r entry_of make_record le_elapsed ar_elapsed].
    apply Z.quot_pos; [|lia]. pose proof (sane_steady _ Hclk i j ltac:(lia)). lia.
Qed.

Lemma records_app tr1 tr2 : records (tr1 ++ tr2) = records tr1 ++ records tr2.
Proof. apply omap_app. Qed.

Lemma sends_app tr1 tr2 : sends (tr1 ++ tr2) = sends tr1 ++ sends tr2.
Proof. apply omap_app. Qed.

Lemma conversation_logged ip w tr w' ex :
  plain ip → conversation clk https_enabled request_handler ip w tr w' ex →
  Forall wf_record (records tr) ∧ Forall2 (reports ip) (entry_of <$> records tr) (sends tr).
Proof.
  intros Hip Hconv.
  induction Hconv as [w|w stage detail|w resp ts el st Hr Ht|w req e w' _ _
    |w req resp keep ts el st w' Hwf _ _ _ Ht|w req resp ts el st w1 tr w' ex Hwf _ _ _ Ht _ [IH1 IH2]];
    try by repeat constructor.
  - destruct (answer_logged ip ts el None resp close st Hip Ht I) as (-> & -> & ? & ?).
    split; by constructor.
  - destruct (answer_logged ip ts el (Some req) (final_response https_enabled resp)
      (policy_of keep) st Hip Ht Hwf) as (-> & -> & ? & ?).
    split; by constructor.
  - rewrite records_app, sends_app, fmap_app.
    destruct (answer_logged ip ts el (Some req) (final_response https_enabled resp)
      keep_alive st Hip Ht Hwf) as (-> & -> & ? & ?).
    split; by constructor.
Qed.
End Connections.

(** C18: the access log can be trusted: whatever the clients send, and however the
    lines of several connections interleave, the log that was written is read
    back line by line, and its entries are, up to the interleaving, one per
    answer of each connection in the order of the answers, with the client's
    address, the status and the size in bytes of what was given to [send_all]
    and a time taken that is not negative.  No client can forge or split a line. *)
Theorem access_log_accounts clk {W} https_enabled (request_handler : request → prog W response)
    (conns : list (bytes * list trace_event)) (logged : list access_record) :
  sane_clocks clk →
  (∀ ip tr, (ip, tr) ∈ conns → plain ip ∧
     ∃ w w' ex, conversation clk https_enabled request_handler ip w tr w' ex) →
  logged ≡ₚ conns ≫= records ∘ snd →
  ∃ entries per_conn, read_access_log (foldl log [] logged) = Some entries ∧
    entries ≡ₚ concat per_conn ∧
    Forall2 (λ c es, Forall2 (reports c.1) es (sends c.2)) conns per_conn.
Proof.
  intros Hclk Hconns Hperm. exists (entry_of <$> logged), ((λ c, entry_of <$> records c.2) <$> conns).
  assert (Hall : Forall (λ c, Forall wf_record (records c.2) ∧
    Forall2 (reports c.1) (entry_of <$> records c.2) (sends c.2)) conns).
  { apply Forall_forall. intros [ip tr] (Hip & w & w' & ex & Hconv)%Hconns.
    by eapply conversation_logged. }
  split_and!.
  - apply read_log_spec. rewrite Hperm. clear -Hall. induction Hall as [|c cs [Hc _] _ IH]; [done|].
    cbn. by apply Forall_app.
  - rewrite Hperm. clear. induction conns as [|c cs IH]; [done|]. cbn.
    rewrite fmap_app. by f_equiv.
  - apply Forall2_fmap_r. apply Forall_Forall2_diag. eapply Forall_impl; [exact Hall|].
    by intros c [_ Hc].
Qed.

(** ** Two connections whose lines interleave *)

Lemma sample_clocks_sane : sane_clocks sample_clocks.
Proof.
  split; [intros n; unfold time_point, sample_clocks; cbn; lia|].
  intros i j H. unfold sample_clocks. cbn. lia.
Qed.

Lemma sample_conversation :
  ∃ w w' ex, conversation sample_clocks true sample_handler "10.0.0.1" w sample_trace w' ex.
Proof.
  destruct (handle_connection_spec sample_clocks true sample_handler [] sample_create sample_destroy 100
    (Socket 7 "10.0.0.1") sample_script 0 sample_trace 2 sample_end sample_run) as (tr0 & ex & Hconv & Htr).
  destruct ex as [e|]; [apply (f_equal last) in Htr; by rewrite last_snoc in Htr|].
  rewrite app_nil_r in Htr. rewrite Htr. by exists 0, 2, None.
Qed.

Lemma access_log_accounts_witness :
  ∃ entries, read_access_log (foldl log [] (records sample_trace ++ reverse (records sample_trace)))
    = Some entries ∧ length entries = 6.
Proof.
  destruct (access_log_accounts sample_clocks true sample_handler
    [("10.0.0.1" : bytes, sample_trace); ("10.0.0.1" : bytes, sample_trace)]
    (records sample_trace ++ reverse (records sample_trace)) sample_clocks_sane)
    as (entries & per & Hread & _ & _).
  - intros ip tr Hin. assert (ip = "10.0.0.1" ∧ tr = sample_trace) as [-> ->].
    { by repeat (apply elem_of_cons in Hin as [[= -> ->]|Hin]; [done|]); apply not_elem_of_nil in Hin. }
    split; [split; by apply (bool_decide_eq_true_1 _)|]. apply sample_conversation.
  - cbn [mbind list_bind app]. rewrite app_nil_r, reverse_Permutation. done.
  - exists entries. split; [exact Hread|].
    revert Hread. vm_compute. intros [= <-]. done.
Defined.
