(* ===== verification/Session.v ===== *)
(** * A session on the wire

    [ConnectionHandler] says what a connection does in terms of calls; here its
    bytes are followed from end to end.  A peer sends request texts one at a time,
    cut into reads in any way, and waits for the answer; what it receives is
    computed by the specification [replies] from the texts and the handler alone.
    [Peer] is the interface between the two: what a stream with such a peer at the
    other end promises.  It is implemented by plain streams over a scripted peer. *)

From S2P Require Import Prelude.
From S2P Require Import StringView.
From S2P Require Import HttpHeader.
From S2P Require Import HttpRequest.
From S2P Require Import HttpResponse.
From S2P Require Import Net.
From S2P Require Import HttpFraming.
From S2P Require Import ConnectionHandler.
From S2P Require Import Logs.

(** ** Request texts *)

(** A text that ends with its first blank line and fits the limit of the header. *)
Definition request_text (t : bytes) : Prop :=
  4 ≤ length t ≤ max_request_header_bytes ∧ search header_end t = Some (length t - 4).

Lemma search_step p d s :
  search p (d :: s) = if prefixb p (d :: s) then Some 0 else Datatypes.S <$> search p s.
Proof. done. Qed.

Lemma search_skip c p a b :
  c ∉ a → search (c :: p) (a ++ b) = Nat.add (length a) <$> search (c :: p) b.
Proof.
  induction a as [|d a IH]; intros Ha; [cbn [app]; by destruct (search (c :: p) b)|].
  apply not_elem_of_cons in Ha as [Hne Ha]. cbn [app]. rewrite search_step. cbn [prefixb].
  apply Ascii.eqb_neq in Hne. rewrite Hne, IH by done. by destruct (search (c :: p) b).
Qed.

(** A line break is not the blank line when a line follows. *)
Lemma search_after_line c rest :
  c ≠ "013"%char →
  search header_end (CRLF ++ c :: rest) = Nat.add 2 <$> search header_end (c :: rest).
Proof.
  intros Hc. change (CRLF ++ c :: rest) with ("013"%char :: "010"%char :: c :: rest).
  rewrite search_step.
  assert (Hp : prefixb header_end ("013"%char :: "010"%char :: c :: rest) = false).
  { cbn [prefixb header_end CRLF app]. rewrite !Ascii.eqb_refl. cbn [andb].
    by rewrite (proj2 (Ascii.eqb_neq "013" c)) by congruence. }
  rewrite Hp. change (search header_end ("010"%char :: c :: rest))
    with (search ("013"%char :: ["010"%char; "013"%char; "010"%char]) (["010"%char] ++ c :: rest)).
  rewrite search_skip by by apply (bool_decide_eq_true_1 _).
  change ("013"%char :: ["010"%char; "013"%char; "010"%char]) with header_end.
  by destruct (search header_end (c :: rest)).
Qed.

(** In lines that are not empty and hold no carriage return, the blank line comes
    first at the end. *)
Lemma search_blank_line lines :
  Forall (λ l, l ≠ [] ∧ ("013"%char ∉ l)) lines → lines ≠ [] →
  search header_end (header_block_lines lines ++ CRLF)
  = Some (length (header_block_lines lines ++ CRLF) - 4).
Proof.
  intros HF Hne. induction HF as [|l ls [Hl Hcr] HF IH]; [done|].
  rewrite header_block_lines_cons, <- !app_assoc.
  change header_end with ("013"%char :: ["010"%char; "013"%char; "010"%char]).
  rewrite search_skip by done. change ("013"%char :: ["010"%char; "013"%char; "010"%char]) with header_end.
  rewrite length_app. destruct ls as [|[|c l'] ls].
  - change (search header_end (CRLF ++ header_block_lines [] ++ CRLF)) with (Some 0).
    cbn [fmap option_fmap option_map]. f_equal.
    change (length (CRLF ++ header_block_lines [] ++ CRLF)) with 4. lia.
  - by inversion_clear HF as [|? ? [? _] _].
  - specialize (IH ltac:(done)). rewrite header_block_lines_cons, <- !app_assoc in IH |- *.
    cbn [app] in IH |- *. inversion_clear HF as [|? ? [_ Hcr'] _].
    apply not_elem_of_cons in Hcr' as [Hc _].
    rewrite search_after_line, IH by congruence. cbn [fmap option_fmap option_map].
    f_equal. rewrite !length_app. cbn [length]. rewrite !length_app. change (length CRLF) with 2.
    lia.
Qed.

(** The texts of well-formed requests, as long as the limit admits them. *)
Lemma request_text_denotes lines r :
  wf_request r → Forall2 header_line_of lines (request_headers r) →
  let t := request_line r ++ CRLF ++ header_block_lines lines ++ CRLF in
  length t ≤ max_request_header_bytes → request_text t ∧ parse_ref t = Expect r.
Proof.
  intros Hwf Hlines t Hlen. pose proof Hwf as (Hm & Ht & Hmaj & Hmin & Hhs).
  assert (Htext : t = header_block_lines (request_line r :: lines) ++ CRLF)
    by (unfold t; by rewrite header_block_lines_cons, <- !app_assoc).
  split.
  - destruct (version_string_valid r Hmaj Hmin) as (_ & _ & Hcr & Hsp).
    destruct (request_line_parts r Hm Ht Hsp Hcr) as [_ Hnocr].
    assert (Hs : search header_end t = Some (length t - 4)).
    { rewrite Htext. apply search_blank_line; [|done]. constructor.
      - split; [|done]. unfold request_line. by destruct (method r).
      - clear -Hhs Hlines. induction Hlines as [|l h ls hs Hl _ IH]; [done|].
        inversion_clear Hhs as [|? ? Hh Hhs']. constructor; [|by apply IH].
        split; [|by eapply header_line_no_cr]. destruct Hl as (u & v & -> & _).
        destruct Hh as [Hn _]. by destruct (hname h). }
    split; [|done]. pose proof (search_length _ _ _ Hs) as Hl. cbn in Hl. lia.
  - apply parse_ref_complete; [done|]. exists lines, []. by rewrite app_nil_r.
Qed.

(** ** The peer *)

(** What is left to read of the texts when [t'] is left of the first. *)
Definition rest_of (t' : bytes) (ts : list bytes) : list bytes :=
  match t' with [] => ts | _ => t' :: ts end.

(** A stream to a peer that still sends the texts [upcoming] and has received
    [received].  A read delivers a part of the first text and never reaches into
    the next, which the peer only sends after the answer; after the last text the
    peer closes.  Writes are delivered. *)
Class Peer (S : Type) `{!NetStream S} := {
  upcoming : S → list bytes;
  received : S → bytes;
  peer_timeouts t s :
    (∃ s', set_receive_timeout t s = (true, s') ∧ upcoming s' = upcoming s ∧ received s' = received s) ∧
    (∃ s', set_send_timeout t s = (true, s') ∧ upcoming s' = upcoming s ∧ received s' = received s);
  peer_handshake s :
    ∃ s', handshake s = Ret (IoStatus.ok, s') ∧ upcoming s' = upcoming s ∧ received s' = received s;
  peer_recv n s t ts :
    0 < n → upcoming s = t :: ts → t ≠ [] →
    ∃ d t' s', recv_some n s = Ret (ReadResult IoStatus.ok (length d), d, s') ∧
      d ≠ [] ∧ length d ≤ n ∧ t = d ++ t' ∧
      upcoming s' = rest_of t' ts ∧ received s' = received s;
  peer_closes n s :
    upcoming s = [] →
    ∃ s', recv_some n s = Ret (ReadResult IoStatus.closed 0, [], s') ∧
      upcoming s' = [] ∧ received s' = received s;
  peer_send data s :
    ∃ s', send_all data s = Ret (IoStatus.ok, s') ∧
      upcoming s' = upcoming s ∧ received s' = received s ++ data;
}.

Section Framing.
Context {S : Type} `{!NetStream S, !Peer S}.

(** A beginning of a text has no blank line. *)
Lemma request_text_prefix v t' t : request_text t → t = v ++ t' → t' ≠ [] → search header_end v = None.
Proof.
  intros [[Hmin _] Hs] -> Hne. destruct (search header_end v) as [i|] eqn:Hv; [|done].
  pose proof (search_length _ _ _ Hv) as Hl. cbn in Hl.
  rewrite (search_extend _ _ _ _ Hv) in Hs. injection Hs as ->.
  rewrite length_app in Hl. destruct t'; [done|]. simpl in Hl. lia.
Qed.

Lemma read_text_loop fuel (s : S) b t ts v t' :
  request_text t → t = v ++ t' → t' ≠ [] → as_string_view b = v → buffer_wf b →
  upcoming s = t' :: ts → length t' < fuel →
  ∃ s' b', read_header_loop fuel s b max_request_header_bytes = Ret (Expect t, s', b') ∧
    upcoming s' = ts ∧ received s' = received s.
Proof.
  intros Ht. revert s b v t'. induction fuel as [|fuel IH]; intros s b v t' Heq Hne Hv Hwf Hup Hf; [lia|].
  cbn [read_header_loop]. unfold find_header_end. rewrite find_0, Hv.
  rewrite (request_text_prefix v t' t) by done.
  assert (Hlen : length v < max_request_header_bytes).
  { destruct Ht as [[_ Hmax] _]. rewrite Heq, length_app in Hmax. destruct t'; [done|]. simpl in Hmax. lia. }
  rewrite (proj2 (Nat.leb_gt _ _)) by done.
  pose proof (write_span_spec b default_min_free Hwf) as Hspan.
  destruct (write_span b default_min_free) as [b1 size].
  destruct Hspan as (Hwf1 & Hview1 & Hsize1 & Hmin & Hfit & _).
  change default_min_free with 2048 in Hmin.
  destruct (peer_recv size s t' ts) as (d & t'' & s1 & Hr & Hd & Hdl & Ht'' & Hup1 & Hrec1); [lia|done..|].
  rewrite Hr. autorewrite with cpp.
  destruct (store_commit_spec b1 d) as (b2 & -> & _ & _ & _ & Hv2 & Hwf2 & _); [lia|].
  autorewrite with cpp. cbn [rr_status bytes_read]. rewrite Hview1, Hv in Hv2.
  assert (Hdt : t = (v ++ d) ++ t'') by (by rewrite <- app_assoc, <- Ht'').
  destruct t'' as [|c t''].
  - destruct fuel as [|fuel]; [rewrite Ht'', app_nil_r in Hf; destruct d; [done|simpl in Hf; lia]|].
    rewrite app_nil_r in Hdt. cbn [read_header_loop]. unfold find_header_end.
    rewrite find_0, Hv2, <- Hdt. destruct Ht as [[Hge _] ->].
    rewrite substr_ret, drop_0 by lia. rewrite take_ge by lia. autorewrite with cpp. eauto.
  - destruct (IH s1 (commit b2 (length d)) (v ++ d) (c :: t'')) as (s' & b' & Hloop & ? & Hrec);
      [done|done|done|done|done| |].
    { rewrite Ht'', length_app in Hf. destruct d; [done|]. simpl in *. lia. }
    exists s', b'. by rewrite Hloop, Hrec.
Qed.

(** A text is framed whole, however it arrives, and nothing more is read. *)
Lemma read_text (s : S) t ts :
  request_text t → upcoming s = t :: ts →
  ∃ s' b', read_header_block s empty_buffer max_request_header_bytes = Ret (Expect t, s', b') ∧
    upcoming s' = ts ∧ received s' = received s.
Proof.
  intros Ht Hup. destruct Ht as [Hlen Hs] eqn:Heq. clear Heq.
  apply (read_text_loop _ s empty_buffer t ts [] t); try done.
  - by destruct t; [simpl in Hlen; lia|].
  - unfold buffer_wf. cbn. lia.
  - lia.
Qed.

(** After the last text the connection is closed. *)
Lemma read_end (s : S) max :
  upcoming s = [] → 1 ≤ max →
  ∃ s' b', read_header_block s empty_buffer max
    = Ret (Unexpected HeaderReadError.closed, s', b') ∧ upcoming s' = [] ∧ received s' = received s.
Proof.
  intros Hup Hmax. unfold read_header_block. cbn [read_header_loop].
  change (find_header_end (as_string_view empty_buffer)) with (@None nat).
  rewrite (proj2 (Nat.leb_gt max (length (as_string_view empty_buffer)))) by (cbn; lia).
  assert (Hwf : buffer_wf empty_buffer) by (unfold buffer_wf; cbn; lia).
  pose proof (write_span_spec empty_buffer default_min_free Hwf) as Hspan.
  destruct (write_span empty_buffer default_min_free) as [b1 size].
  destruct Hspan as (Hwf1 & _ & _ & _ & Hfit & _).
  destruct (peer_closes size s Hup) as (s1 & -> & ? & ?). autorewrite with cpp.
  destruct (store_commit_spec b1 []) as (b2 & -> & _); [simpl; lia|].
  autorewrite with cpp. cbn [rr_status]. eauto.
Qed.
End Framing.

(** ** What the peer receives *)

Section Replies.
Context {W : Type} (https_enabled : bool) (request_handler : request → prog W response).

Definition keeps (req : request) : bool :=
  match keep_alive_requested req with Ret keep => keep | _ => false end.

(** The responses to the texts [ts] and the world after them: a text that is no
    request is answered with 400 and ends the session, a request with the
    handler's response; an exception of the handler ends the session unanswered,
    and so does the first request that does not keep the connection. *)
Fixpoint replies (w : W) (ts : list bytes) : list (response * connection_policy) * W :=
  match ts with
  | [] => ([], w)
  | t :: ts =>
      match parse_ref t with
      | Unexpected _ => ([(bad_request_response, close)], w)
      | Expect req =>
          match request_handler req w with
          | (Ret resp, w) =>
              let resp := final_response https_enabled resp in
              if keeps req then
                let '(rs, w) := replies w ts in ((resp, keep_alive) :: rs, w)
              else ([(resp, close)], w)
          | (_, w) => ([], w)
          end
      end
  end.

Definition wire (rs : list (response * connection_policy)) : bytes :=
  concat ((λ r, serialize r.1 r.2) <$> rs).

Section Loop.
Context {S : Type} `{!NetStream S, !NetStreamLaws S, !Peer S} (clk : clocks).

(** A connection that has read a text whole. *)
Lemma serve_text ip first (c : @connection S W) t ts :
  request_text t → upcoming (cn_stream c) = t :: ts →
  ∃ s1, upcoming s1 = ts ∧ received s1 = received (cn_stream c) ∧
    let c1 := after c s1 (cn_world c) [] (cn_clock c) in
    serve_request clk https_enabled request_handler ip first c
    = match parse_ref t with
      | Expect req => answer_request clk https_enabled request_handler ip req c1
      | Unexpected _ => reply_and_close clk ip bad_request_response c1
      end.
Proof.
  intros Ht Hup. destruct (peer_timeouts (if first then io_timeout else keep_alive_idle_timeout)
    (cn_stream c)) as [(s0 & Hset & Hup0 & Hrec0) _]. rewrite Hup in Hup0.
  destruct (read_text s0 t ts Ht Hup0) as (s1 & b & Hread & Hup1 & Hrec1).
  exists s1. split; [done|split; [by rewrite Hrec1|]]. cbv zeta.
  unfold serve_request.
  rewrite (prog_bind_ret _ _ c true (Connection s0 (cn_world c) (cn_trace c) (cn_clock c)))
    by (unfold stream_set; by rewrite Hset).
  cbn [negb].
  rewrite (prog_bind_ret _ _ _ (Expect t, b) (after c s1 (cn_world c) [] (cn_clock c)))
    by (unfold read_header, stream_call, after; cbn [cn_stream]; by rewrite Hread, app_nil_r).
  rewrite (prog_bind_ret _ _ _ (parse_ref t) (after c s1 (cn_world c) [] (cn_clock c)))
    by (by rewrite parse_ret).
  by destruct (parse_ref t).
Qed.

Lemma serve_end ip first (c : @connection S W) :
  upcoming (cn_stream c) = [] →
  ∃ s1, received s1 = received (cn_stream c) ∧
    serve_request clk https_enabled request_handler ip first c
    = (Ret false, after c s1 (cn_world c) [] (cn_clock c)).
Proof.
  intros Hup. destruct (peer_timeouts (if first then io_timeout else keep_alive_idle_timeout)
    (cn_stream c)) as [(s0 & Hset & Hup0 & Hrec0) _]. rewrite Hup in Hup0.
  destruct (read_end s0 max_request_header_bytes Hup0) as (s1 & b & Hread & _ & Hrec1).
  { unfold max_request_header_bytes. lia. }
  exists s1. split; [by rewrite Hrec1|]. unfold serve_request.
  rewrite (prog_bind_ret _ _ c true (Connection s0 (cn_world c) (cn_trace c) (cn_clock c)))
    by (unfold stream_set; by rewrite Hset).
  cbn [negb].
  by rewrite (prog_bind_ret _ _ _ (Unexpected HeaderReadError.closed, b)
    (after c s1 (cn_world c) [] (cn_clock c)))
    by (unfold read_header, stream_call, after; cbn [cn_stream]; by rewrite Hread, app_nil_r).
Qed.

(** What a part of the session added. *)
Definition replied (c c' : @connection S W) (rs : list (response * connection_policy)) : Prop :=
  received (cn_stream c') = received (cn_stream c) ++ wire rs ∧
  sends (cn_trace c') = sends (cn_trace c) ++ rs.

Lemma replied_answer c s w ip ts el req resp policy k :
  send_all (serialize resp policy) (cn_stream c) = Ret (IoStatus.ok, s) →
  upcoming s = upcoming (cn_stream c) ∧
  replied c (after c s w (answer ip ts el req resp policy IoStatus.ok) k) [(resp, policy)].
Proof.
  intros Hs. destruct (peer_send (serialize resp policy) (cn_stream c)) as (s' & Hs' & Hup & Hrec).
  rewrite Hs in Hs'. injection Hs' as <-. split; [done|]. unfold replied, wire. cbn.
  rewrite app_nil_r. split; [done|]. unfold sends. by rewrite omap_app.
Qed.
Lemma replied_trans (c1 c2 c3 : @connection S W) rs1 rs2 :
  replied c1 c2 rs1 → replied c2 c3 rs2 → replied c1 c3 (rs1 ++ rs2).
Proof.
  unfold replied, wire. intros [-> ->] [-> ->]. by rewrite fmap_app, concat_app, !app_assoc.
Qed.

Lemma replied_nil (c c' : @connection S W) :
  received (cn_stream c') = received (cn_stream c) → cn_trace c' = cn_trace c ++ [] →
  replied c c' [].
Proof. intros Hr Ht. unfold replied. by rewrite Hr, Ht, !app_nil_r. Qed.

(** What one pass does with a text. *)
Definition reply_pass (c : @connection S W) t ts (p : outcome bool * @connection S W) : Prop :=
  match parse_ref t with
  | Unexpected _ => p.1 = Ret false ∧ cn_world p.2 = cn_world c ∧
      replied c p.2 [(bad_request_response, close)]
  | Expect req =>
      match request_handler req (cn_world c) with
      | (Ret resp, w) => p.1 = Ret (keeps req) ∧ cn_world p.2 = w ∧ upcoming (cn_stream p.2) = ts ∧
          replied c p.2 [(final_response https_enabled resp, policy_of (keeps req))]
      | (Throw e, w) => p.1 = Throw e ∧ cn_world p.2 = w ∧ replied c p.2 []
      | (r, _) => ¬ defined r
      end
  end.

Lemma serve_reply ip first c t ts :
  request_text t → upcoming (cn_stream c) = t :: ts →
  reply_pass c t ts (serve_request clk https_enabled request_handler ip first c).
Proof.
  intros Ht Hup. destruct (serve_text ip first c t ts Ht Hup) as (s1 & Hup1 & Hrec1 & ->). cbv zeta.
  set (c1 := after c s1 (cn_world c) [] (cn_clock c)).
  assert (H1 : replied c c1 []) by (by apply replied_nil).
  unfold reply_pass. destruct (parse_ref t) as [req|e].
  2: { destruct (reply_and_close_eq clk ip bad_request_response c1)
         as (ts' & el & st & s' & k & Hs & _ & ->).
       destruct (peer_send (serialize bad_request_response close) (cn_stream c1)) as (s2 & Hs2 & _).
       rewrite Hs2 in Hs. injection Hs as <- <-.
       split; [done|split; [done|]]. apply (replied_trans c c1 _ [] _ H1). by apply replied_answer. }
  destruct (request_handler req (cn_world c)) as [r w1] eqn:Hh.
  destruct r as [resp|e| |]; [| |by intros [? ?]..].
  - destruct (answer_request_ret clk https_enabled request_handler ip c1 req resp w1 Hh)
      as (keep & ts' & el & st & s' & k & Hk & _ & Hs & ->).
    unfold keeps. rewrite Hk.
    destruct (peer_send (serialize (final_response https_enabled resp) (policy_of keep)) (cn_stream c1))
      as (s2 & Hs2 & _).
    rewrite Hs2 in Hs. injection Hs as <- <-.
    destruct (replied_answer c1 s2 w1 ip ts' el (Some req) (final_response https_enabled resp)
      (policy_of keep) k Hs2) as [Hup2 H2].
    cbn [fst snd]. rewrite andb_true_r. split; [done|split; [done|split; [by cbn; rewrite Hup2|]]].
    by apply (replied_trans c c1 _ [] _ H1).
  - rewrite (answer_request_throw _ _ _ ip c1 req e w1 Hh). split; [done|split; [done|]].
    apply (replied_trans c c1 _ [] [] H1). by apply replied_nil.
Qed.

(** The loop answers the texts as [replies] says. *)
Lemma loop_session fuel ip first (c : @connection S W) ts :
  (∀ req w, defined (request_handler req w).1) →
  upcoming (cn_stream c) = ts → Forall request_text ts → length ts < fuel →
  ∃ r c', request_loop clk https_enabled request_handler fuel ip first c = (r, c') ∧ defined r ∧
    cn_world c' = (replies (cn_world c) ts).2 ∧ replied c c' (replies (cn_world c) ts).1.
Proof.
  intros Hdef. revert first c ts. induction fuel as [|fuel IH]; intros first c ts Hup HF Hf; [lia|].
  cbn [request_loop]. unfold mbind, prog_bind. destruct HF as [|t ts Ht HF].
  { destruct (serve_end ip first c Hup) as (s1 & Hrec & ->). eexists _, _. split; [reflexivity|].
    split; [done|split; [done|by apply replied_nil]]. }
  pose proof (serve_reply ip first c t ts Ht Hup) as Hpass. unfold reply_pass in Hpass.
  destruct (serve_request _ _ _ ip first c) as [r1 c1]. cbn [fst snd] in Hpass. cbn [replies].
  destruct (parse_ref t) as [req|e].
  2: { destruct Hpass as (-> & Hw & Hrep). by eexists _, _. }
  pose proof (Hdef req (cn_world c)) as Hd.
  destruct (request_handler req (cn_world c)) as [[resp|e| |] w1]; [| |by destruct Hd..].
  2: { destruct Hpass as (-> & Hw & Hrep). by eexists _, _. }
  destruct Hpass as (-> & Hw & Hup1 & Hrep). destruct (keeps req); [|by eexists _, _].
  destruct (IH false c1 ts Hup1 HF ltac:(simpl in Hf; lia)) as (r & c' & Hloop & Hr & Hw' & Hrep').
  exists r, c'. split; [done|split; [done|]]. rewrite Hw in *.
  destruct (replies w1 ts) as [rs w2]. split; [done|]. by apply (replied_trans c c1 c' [_]).
Qed.
End Loop.
End Replies.

(** ** The whole connection *)

Section Session.
Context {T Sys : Type} `{!NetStream (T * Sys), !NetStreamLaws (T * Sys), !Peer (T * Sys)} {W : Type}.
Context (clk : clocks) (https_enabled : bool) (request_handler : request → prog W response).
Context (out_of_range_what : bytes).
Context (create : socket → prog Sys (option T)) (destroy : T → Sys → Sys).

Lemma prepare_peer (c : @connection (T * Sys) W) :
  ∃ s', prepare_stream c = (Ret true, after c s' (cn_world c) [] (cn_clock c)) ∧
    upcoming s' = upcoming (cn_stream c) ∧ received s' = received (cn_stream c).
Proof.
  destruct (peer_timeouts io_timeout (cn_stream c)) as [(s1 & H1 & U1 & R1) _].
  destruct (peer_timeouts io_timeout s1) as [_ (s2 & H2 & U2 & R2)].
  destruct (peer_handshake s2) as (s3 & H3 & U3 & R3).
  exists s3. rewrite U3, U2, U1, R3, R2, R1. split; [|done].
  unfold prepare_stream, stream_set, stream_call, mbind, prog_bind, mret, prog_ret, after.
  rewrite H1. cbn. rewrite H2. cbn. rewrite H3. by rewrite app_nil_r.
Qed.

(** The calls of [handle_connection] on a stream with a peer. *)
Lemma handle_session fuel client t (sys sys1 : Sys) (w : W) ts :
  (∀ req w, defined (request_handler req w).1) →
  create client sys = (Ret (Some t), sys1) → is_valid (t, sys1) = true →
  upcoming (t, sys1) = ts → Forall request_text ts → length ts < fuel →
  ∃ tr t' sys2,
    handle_connection clk https_enabled request_handler out_of_range_what create destroy fuel client sys w
    = (Ret (tr, (replies https_enabled request_handler w ts).2), destroy t' sys2) ∧
    received (t', sys2)
    = received (t, sys1) ++ wire (replies https_enabled request_handler w ts).1 ∧
    sends tr = (replies https_enabled request_handler w ts).1.
Proof.
  intros Hdef Hcreate Hvalid Hup HF Hf. unfold handle_connection. rewrite Hcreate, Hvalid.
  unfold serve_stream, catch_error.
  set (c0 := Connection (t, sys1) w [] 0).
  destruct (prepare_peer c0) as (s1 & Hprep & Hup1 & Hrec1).
  rewrite (prog_bind_ret _ _ _ _ _ Hprep).
  destruct (loop_session https_enabled request_handler clk fuel (peer_address client) true
    (after c0 s1 w [] 0) ts Hdef) as (r & c' & Hloop & Hd & Hw & Hrec & Hsends);
    [by cbn; rewrite Hup1|done|done|].
  change (after c0 s1 (cn_world c0) [] (cn_clock c0)) with (after c0 s1 w [] 0). rewrite Hloop.
  cbn [cn_world after] in Hw. rewrite <- Hw. cbn [cn_stream after] in Hrec. rewrite Hrec1 in Hrec.
  destruct r as [[]|e| |]; [| |by destruct Hd..].
  - exists (cn_trace c'), (cn_stream c').1, (cn_stream c').2.
    by rewrite <- surjective_pairing.
  - eexists _, (cn_stream c').1, (cn_stream c').2. split; [reflexivity|].
    rewrite <- surjective_pairing. split; [exact Hrec|]. cbn. unfold sends in *.
    by rewrite omap_app, Hsends, app_nil_r.
Qed.

(** C17: a session from end to end: a peer that sends request texts one at a time,
    cut into reads in any way, receives exactly the responses that [replies]
    computes from the texts and the handler, serialized one after the other: one
    per text and in order, until a text that is no request (answered with 400), a
    request that does not keep the connection, or an exception of the handler.
    The same responses are the ones the access log accounts for, and
    [handle_connection] returns. *)
Theorem session_replies fuel client t (sys sys1 : Sys) (w : W) ts :
  (∀ req w, defined (request_handler req w).1) →
  create client sys = (Ret (Some t), sys1) → is_valid (t, sys1) = true →
  upcoming (t, sys1) = ts → Forall request_text ts → length ts < fuel →
  ∃ tr t' sys2,
    handle_connection clk https_enabled request_handler out_of_range_what create destroy fuel client sys w
    = (Ret (tr, (replies https_enabled request_handler w ts).2), destroy t' sys2) ∧
    received (t', sys2)
    = received (t, sys1) ++ wire (replies https_enabled request_handler w ts).1 ∧
    sends tr = (replies https_enabled request_handler w ts).1.
Proof. apply handle_session. Qed.
End Session.

(** ** What a client reads

    A client reads a head up to the blank line, then as many bytes as its
    [Content-Length] says, or none after a [HEAD] request; it knows which of its
    requests were [HEAD]. *)

Definition content_length_of (lines : list bytes) : option nat :=
  head (omap (λ line, '(name, value) ← cut ": " line;
                      if header_name_equals name "Content-Length"
                      then Some (Z.to_nat (decimal_value value)) else None) (tail lines)).

Fixpoint read_responses (is_head : list bool) (s : bytes) : option (list (list bytes * bytes)) :=
  match is_head with
  | [] => if bytes_eqb s [] then Some [] else None
  | h :: is_head =>
      '(lines, s) ← decode s;
      n ← content_length_of lines;
      let n := if (h : bool) then 0 else n in
      if length s <? n then None else
      rs ← read_responses is_head (drop n s);
      Some ((lines, take n s) :: rs)
  end.

(** A response whose length a client can rely on. *)
Definition well_framed (h : bool) (r : response) : Prop :=
  ("013"%char ∉ reason r) ∧ ("010"%char ∉ reason r) ∧
  if h then body r = [] ∧ (0 ≤ wire_length r)%Z
  else wire_length r = Z.of_nat (length (body r)).

Lemma content_length_head r p :
  (0 ≤ wire_length r)%Z → content_length_of (head_lines r p) = Some (Z.to_nat (wire_length r)).
Proof.
  intros Hl. unfold content_length_of, head_lines, head_fields. cbn [app fmap list_fmap].
  destruct (to_string_value (wire_length r) Hl) as (_ & Hv & _).
  assert (H1 : ∀ v, cut ": " (field_line (HeaderField "Connection" v)) = Some ("Connection" : bytes, v)).
  { intros v. apply (cut_at ":" [" "%char] "Connection"); [by apply (bool_decide_eq_true_1 _)|done]. }
  assert (H2 : ∀ v, cut ": " (field_line (HeaderField "Content-Length" v)) = Some ("Content-Length" : bytes, v)).
  { intros v. apply (cut_at ":" [" "%char] "Content-Length"); [by apply (bool_decide_eq_true_1 _)|done]. }
  cbn [tail omap list_omap]. rewrite H1, H2. cbn [mbind option_bind].
  change (header_name_equals "Connection" "Content-Length") with false.
  change (header_name_equals "Content-Length" "Content-Length") with true.
  cbn [head]. by rewrite Hv.
Qed.

Lemma decode_serialize r p rest :
  ("013"%char ∉ reason r) → ("010"%char ∉ reason r) →
  decode (serialize r p ++ rest) = Some (head_lines r p, body r ++ rest).
Proof.
  intros Hcr Hlf. destruct (serialize_framed r p Hcr Hlf) as [Hs _].
  rewrite serialize_lines, <- !app_assoc. apply decode_lines.
  eapply Forall_impl; [exact Hs|]. by intros l (? & ? & _).
Qed.

(** When reasons have no line break and lengths are those of the bodies (no
    body after a [HEAD]), a client cuts what it received back into the responses:
    their heads line by line and their bodies, with nothing left over. *)
Theorem wire_read_back rs is_head :
  Forall2 (λ h r, well_framed h r.1) is_head rs →
  read_responses is_head (wire rs) = Some ((λ r, (head_lines r.1 r.2, body r.1)) <$> rs).
Proof.
  unfold wire. induction 1 as [|h [r p] is_head rs (Hcr & Hlf & Hlen) _ IH]; [done|].
  cbn [read_responses fmap list_fmap concat fst snd] in *.
  rewrite decode_serialize by done. cbn [mbind option_bind].
  assert (Hn : (0 ≤ wire_length r)%Z ∧
    (if h then 0 else Z.to_nat (wire_length r)) = length (body r)).
  { destruct h; [by destruct Hlen as [-> ?]|]. rewrite Hlen, Nat2Z.id. split; [lia|done]. }
  destruct Hn as [Hpos Hn]. rewrite content_length_head by done. cbn [mbind option_bind].
  rewrite Hn, (proj2 (Nat.ltb_ge _ _)) by (rewrite length_app; lia).
  rewrite drop_app_length, take_app_length. by rewrite IH.
Qed.

(** ** A peer over plain sockets

    The system is the peer itself: what it still sends and what it received.  Two
    oracles say how many bytes each call moves, [None] being an interruption by a
    signal. *)
Module PeerApi.
Record t := Client {
  texts : list bytes;
  recv_sizes : list (option nat);
  send_sizes : list (option nat);
  out : bytes;
}.

(** The next size of an oracle, which is unlimited once the oracle is used up. *)
Definition bounded (k : option nat) (n : nat) : nat :=
  match k with Some k => Nat.min n (Nat.max 1 k) | None => n end.

Definition deliver (n : nat) (rest : list (option nat)) (w : t) : (errno + bytes) * t :=
  match texts w with
  | [] => (inr [], Client [] rest (send_sizes w) (out w))
  | x :: xs => (inr (take n x), Client (rest_of (drop n x) xs) rest (send_sizes w) (out w))
  end.

Definition recv (_ : Z) (n : nat) (w : t) : (errno + bytes) * t :=
  match recv_sizes w with
  | None :: rest => (inl EINTR, Client (texts w) rest (send_sizes w) (out w))
  | Some k :: rest => deliver (bounded (Some k) n) rest w
  | [] => deliver n [] w
  end.

Definition accept_bytes (n : nat) (rest : list (option nat)) (data : bytes) (w : t)
    : (errno + nat) * t :=
  (inr n, Client (texts w) (recv_sizes w) rest (out w ++ take n data)).

Definition send (_ : Z) (data : bytes) (w : t) : (errno + nat) * t :=
  match send_sizes w with
  | None :: rest => (inl EINTR, Client (texts w) (recv_sizes w) rest (out w))
  | Some k :: rest => accept_bytes (bounded (Some k) (length data)) rest data w
  | [] => accept_bytes (length data) [] data w
  end.

Definition is_interrupt (k : option nat) : bool := match k with None => true | _ => false end.

Definition count (w : t) : nat :=
  length (List.filter is_interrupt (recv_sizes w)) + length (List.filter is_interrupt (send_sizes w)).

#[global] Instance api : SocketApi t := {|
  sys_recv := recv;
  sys_send := send;
  sys_setsockopt _ _ _ w := (true, w);
  sys_shutdown_write _ w := w;
  sys_close _ w := w;
  interrupts := count;
  outgoing _ := out;
|}.

Lemma bounded_limits k n : bounded k n ≤ n ∧ (0 < n → 0 < bounded k n).
Proof. destruct k; simpl; lia. Qed.

#[global] Instance laws : SocketApiLaws t.
Proof.
  split.
  - intros fd n [xs rs ss o] data w'. cbn. unfold recv, deliver. cbn.
    destruct rs as [|[k|] rs], xs as [|x xs]; intros [= <- <-];
      rewrite ?length_take; cbn [length bounded]; lia.
  - intros fd n [xs rs ss o] w'. cbn. unfold recv, deliver. cbn.
    destruct rs as [|[k|] rs], xs as [|x xs]; intros [= <-]; unfold count; cbn; lia.
  - intros fd data [xs rs ss o] n w'. cbn. unfold send, accept_bytes. cbn.
    destruct ss as [|[k|] ss]; intros [= <- <-]; unfold count; cbn;
      (split_and!; [cbn [bounded]; lia|lia|done]).
  - intros fd data [xs rs ss o] e w'. cbn. unfold send, accept_bytes. cbn.
    destruct ss as [|[k|] ss]; intros [= <- <-]. split; [done|]. intros _. unfold count. cbn. lia.
Qed.

Lemma recv_delivers fuel fd n w x xs :
  0 < n → texts w = x :: xs → x ≠ [] → count w < fuel →
  ∃ d x' w', recv_loop fuel fd n w = Ret (ReadResult IoStatus.ok (length d), d, w') ∧
    d ≠ [] ∧ length d ≤ n ∧ x = d ++ x' ∧ texts w' = rest_of x' xs ∧ out w' = out w.
Proof.
  intros Hn Hx Hne. revert w Hx. induction fuel as [|fuel IH]; intros w Hx Hf; [lia|].
  assert (Hdel : ∀ m rest, m ≤ n → 0 < m → ∃ d x' w',
    deliver m rest w = (inr d, w') ∧ d ≠ [] ∧ length d ≤ n ∧ x = d ++ x' ∧
    texts w' = rest_of x' xs ∧ out w' = out w).
  { intros m rest Hm Hpos. exists (take m x), (drop m x). unfold deliver. rewrite Hx. eexists.
    split; [reflexivity|]. rewrite length_take, take_drop. split_and!; [|lia|done..].
    destruct x, m; simpl; done || lia. }
  assert (Hdone : ∀ m rest, m ≤ n → 0 < m → recv fd n w = deliver m rest w →
    ∃ d x' w', recv_loop (S fuel) fd n w = Ret (ReadResult IoStatus.ok (length d), d, w') ∧
      d ≠ [] ∧ length d ≤ n ∧ x = d ++ x' ∧ texts w' = rest_of x' xs ∧ out w' = out w).
  { intros m rest Hm Hpos Hr. destruct (Hdel m rest Hm Hpos) as (d & x' & w' & Hd & Hnd & ?).
    exists d, x', w'. split; [|done]. cbn [recv_loop]. change (sys_recv fd n w) with (recv fd n w).
    rewrite Hr, Hd. by destruct d. }
  destruct (recv_sizes w) as [|[k|] rest] eqn:Hrs.
  - apply (Hdone n []); [done|done|]. unfold recv. by rewrite Hrs.
  - destruct (bounded_limits (Some k) n). apply (Hdone (bounded (Some k) n) rest); [done|by auto|].
    unfold recv. by rewrite Hrs.
  - destruct (IH (Client (texts w) rest (send_sizes w) (out w))) as (d & x' & w' & Hr & ?);
      [done|unfold count in *; rewrite Hrs in Hf; cbn in *; lia|].
    exists d, x', w'. split; [|done]. cbn [recv_loop]. change (sys_recv fd n w) with (recv fd n w).
    unfold recv. by rewrite Hrs.
Qed.

Lemma recv_closes fuel fd n w :
  texts w = [] → count w < fuel →
  ∃ w', recv_loop fuel fd n w = Ret (ReadResult IoStatus.closed 0, [], w') ∧
    texts w' = [] ∧ out w' = out w.
Proof.
  revert w. induction fuel as [|fuel IH]; intros w Hx Hf; [lia|]. cbn [recv_loop].
  change (sys_recv fd n w) with (recv fd n w). unfold recv, deliver. rewrite Hx.
  destruct (recv_sizes w) as [|[k|] rest] eqn:Hrs; [by eexists|by eexists|].
  apply (IH (Client [] rest (send_sizes w) (out w))); [done|].
  unfold count in *. rewrite Hrs in Hf. cbn in *. lia.
Qed.

Lemma send_delivers fuel fd data sent w :
  count w + (length data - sent) < fuel → sent ≤ length data →
  ∃ w', send_loop fuel fd data sent w = Ret (IoStatus.ok, w') ∧ texts w' = texts w ∧
    out w' = out w ++ drop sent data.
Proof.
  revert sent w. induction fuel as [|fuel IH]; intros sent w Hf Hs; [lia|]. cbn [send_loop].
  destruct (Nat.ltb_spec sent (length data)) as [Hlt|Hge].
  2: { exists w. by rewrite drop_ge, app_nil_r by lia. }
  change (sys_send fd (drop sent data) w) with (send fd (drop sent data) w). unfold send.
  assert (Hgo : ∀ k rest, k ≤ length data - sent → 0 < k →
    length (List.filter is_interrupt rest) = length (List.filter is_interrupt (send_sizes w)) →
    ∃ w', (let '(rc, w) := accept_bytes k rest (drop sent data) w in
       match rc with
       | inl EINTR => send_loop fuel fd data sent w
       | inr O => Ret (IoStatus.closed, w)
       | inl error => Ret (status_from_errno error, w)
       | inr n => send_loop fuel fd data (sent + n) w
       end) = Ret (IoStatus.ok, w') ∧ texts w' = texts w ∧ out w' = out w ++ drop sent data).
  { intros k rest Hk Hpos Hc. unfold accept_bytes. destruct k as [|k]; [lia|].
    destruct (IH (sent + S k) (Client (texts w) (recv_sizes w) rest
      (out w ++ take (S k) (drop sent data)))) as (w' & Hloop & Ht & Ho);
      [unfold count in *; cbn [recv_sizes send_sizes]; lia|lia|].
    exists w'. split; [done|split; [done|]]. rewrite Ho. cbn [out].
    by rewrite <- app_assoc, <- drop_drop, take_drop. }
  pose proof (length_drop data sent) as Hl.
  destruct (send_sizes w) as [|[k|] rest] eqn:Hss.
  - apply (Hgo (length (drop sent data)) []); lia || done.
  - destruct (bounded_limits (Some k) (length (drop sent data))) as [? Hpos].
    apply (Hgo (bounded (Some k) (length (drop sent data))) rest); [lia|apply Hpos; lia|done].
  - apply (IH sent (Client (texts w) (recv_sizes w) rest (out w))); [|done].
    unfold count in *. rewrite Hss in Hf. cbn in *. lia.
Qed.

#[global] Instance peer : Peer (socket * t).
Proof.
  refine {| upcoming (s : socket * t) := texts s.2; received (s : socket * t) := out s.2 |}.
  - intros timeout [s w]. split; by exists (s, w).
  - intros [s w]. by exists (s, w).
  - intros n [s w] x xs Hn Hx Hne.
    destruct (recv_delivers (S (interrupts w)) (sock_fd s) n w x xs) as (d & x' & w' & Hr & H);
      [done..|unfold interrupts; cbn; lia|].
    exists d, x', (s, w'). split; [|done]. change (recv_some n (s, w)) with (plain_recv_some n (s, w)).
    unfold plain_recv_some, socket_recv_some. cbn [fst snd]. by rewrite Hr.
  - intros n [s w] Hx.
    destruct (recv_closes (S (interrupts w)) (sock_fd s) n w) as (w' & Hr & H);
      [done|unfold interrupts; cbn; lia|].
    exists (s, w'). split; [|done]. change (recv_some n (s, w)) with (plain_recv_some n (s, w)).
    unfold plain_recv_some, socket_recv_some. cbn [fst snd]. by rewrite Hr.
  - intros data [s w].
    destruct (send_delivers (S (length data + interrupts w)) (sock_fd s) data 0 w) as (w' & Hs & ? & Ho);
      [unfold interrupts; cbn; lia|lia|].
    exists (s, w'). split; [|done]. change (send_all data (s, w)) with (plain_send_all data (s, w)).
    unfold plain_send_all, socket_send_all. cbn [fst snd]. by rewrite Hs.
Defined.
End PeerApi.

(** ** A session, executed

    Three requests in small reads and writes with interruptions; the second asks
    to close, so the third is not answered. *)

Definition line (s : string) : bytes := of_string s ++ CRLF.

Definition sample_texts : list bytes :=
  [line "GET /a HTTP/1.1" ++ line "Host: x" ++ CRLF;
   line "HEAD /b HTTP/1.1" ++ line "Connection: Close" ++ CRLF;
   line "GET /c HTTP/1.1" ++ CRLF].

Lemma sample_texts_are : Forall request_text sample_texts.
Proof.
  assert (H : forallb (λ t, (4 <=? length t) && (length t <=? 1000) &&
    bool_decide (search header_end t = Some (length t - 4))) sample_texts = true)
    by (vm_compute; reflexivity).
  apply forallb_Forall in H. eapply Forall_impl; [exact H|].
  intros t [[H4%Nat.leb_le H1000%Nat.leb_le]%andb_true_iff Hs%bool_decide_eq_true]%andb_true_iff.
  split; [|done]. unfold max_request_header_bytes. lia.
Qed.

Definition sample_peer : PeerApi.t :=
  PeerApi.Client sample_texts [Some 5; None; Some 3; Some 17] [Some 1; None; Some 70] [].

Definition peer_create (client : socket) : prog PeerApi.t (option socket) := mret (Some client).
Definition peer_destroy (s : socket) (w : PeerApi.t) : PeerApi.t := (socket_close s w).2.

Definition sample_replies : list (response * connection_policy) :=
  [(final_response false (text 200 "OK" "/a"), keep_alive);
   (final_response false (text 200 "OK" "/b"), close)].

Lemma session_replies_witness :
  ∃ tr sys2, handle_connection sample_clocks false sample_handler [] peer_create peer_destroy 4
      (Socket 7 "10.0.0.1") sample_peer 0 = (Ret (tr, 2), sys2) ∧
    PeerApi.out sys2 = wire sample_replies ∧ sends tr = sample_replies.
Proof.
  destruct (session_replies sample_clocks false sample_handler [] peer_create peer_destroy 4
    (Socket 7 "10.0.0.1") (Socket 7 "10.0.0.1") sample_peer sample_peer 0 sample_texts)
    as (tr & t' & sys2 & Hrun & Hrec & Hsends).
  - exact sample_handler_defined.
  - reflexivity.
  - reflexivity.
  - reflexivity.
  - apply sample_texts_are.
  - change (3 < 4). lia.
  - exists tr, (peer_destroy t' sys2). split; [exact Hrun|]. split; [|exact Hsends].
    change (PeerApi.out (peer_destroy t' sys2)) with (PeerApi.out (socket_close t' sys2).2).
    unfold socket_close. destruct (0 <=? sock_fd t')%Z; exact Hrec.
Defined.

Lemma wire_read_back_witness :
  read_responses [false; true]
    (wire [(text 200 "OK" "/a", keep_alive);
           (Response 200 "OK" "text/plain" [] [] (Some 1234%Z), close)])
  = Some [(["HTTP/1.1 200 OK" : bytes; "Connection: keep-alive" : bytes; "Content-Length: 2" : bytes;
            "Content-Type: text/plain; charset=utf-8" : bytes], "/a" : bytes);
          (["HTTP/1.1 200 OK" : bytes; "Connection: close" : bytes; "Content-Length: 1234" : bytes;
            "Content-Type: text/plain" : bytes], [])].
Proof.
  rewrite (wire_read_back
    [(text 200 "OK" "/a", keep_alive);
     (Response 200 "OK" "text/plain" [] [] (Some 1234%Z), close)] [false; true]).
  - vm_compute. reflexivity.
  - constructor; [|constructor; [|constructor]]; split_and!;
      try (by apply (bool_decide_eq_true_1 _)); try reflexivity; vm_compute; discriminate.
Defined.
