(* ===== verification/SessionStreams.v ===== *)
(** * Sessions over the streams of the server

    The peer of [Session] at the other end of a TLS connection, and of the streams
    that the stream factory makes: a session is the same over both. *)

From S2P Require Import Prelude.
From S2P Require Import StringView.
From S2P Require Import HttpRequest.
From S2P Require Import HttpResponse.
From S2P Require Import Net.
From S2P Require Import HttpFraming.
From S2P Require Import ConnectionHandler.
From S2P Require Import Logs.
From S2P Require Import Tls.
From S2P Require Import StreamFactory.
From S2P Require Import Session.

(** ** TLS to the scripted peer

    TLS that moves the bytes of [PeerApi], in records of the sizes of its oracles;
    it hides interruptions. *)
Module PeerTls.
Import PeerApi.

Definition size_of (k : option nat) (n : nat) : nat := bounded (Some (default n k)) n.

Definition read (_ : option nat) (n : nat) (w : t) : (Z + bytes) * t :=
  match texts w with
  | [] => (inl 0%Z, w)
  | x :: xs =>
      let n := match recv_sizes w with [] => n | k :: _ => size_of k n end in
      match take n x with
      | [] => (inl 0%Z, w)
      | d => (inr d, Client (rest_of (drop n x) xs) (tail (recv_sizes w)) (send_sizes w) (out w))
      end
  end.

Definition write (_ : option nat) (data : bytes) (w : t) : (Z + nat) * t :=
  let n := match send_sizes w with [] => length data | k :: _ => size_of k (length data) end in
  (inr n, Client (texts w) (recv_sizes w) (tail (send_sizes w)) (out w ++ take n data)).

#[global] Instance api : OpenSsl t unit nat := {|
  SSL_CTX_new w := (Some tt, w);
  SSL_CTX_free _ w := w;
  SSL_CTX_set_min_proto_version _ _ w := (1%Z, w);
  SSL_CTX_set_cipher_list _ _ w := (1%Z, w);
  SSL_CTX_set_ciphersuites _ _ w := (1%Z, w);
  SSL_CTX_set_options _ _ w := w;
  SSL_CTX_use_certificate_file _ _ _ w := (1%Z, w);
  SSL_CTX_use_PrivateKey_file _ _ _ w := (1%Z, w);
  SSL_CTX_check_private_key _ w := (1%Z, w);
  SSL_new _ w := (Some 0, w);
  SSL_free _ w := w;
  SSL_set_fd _ _ w := (1%Z, w);
  SSL_accept _ w := (1%Z, w);
  SSL_read_ex := read;
  SSL_write_ex := write;
  SSL_get_error _ _ _ := SSL_ERROR_ZERO_RETURN;
  errno_of _ := errno_other 0;
  ERR_get_error w := (0%Z, w);
  ERR_error_string_n _ _ := [];
  plaintext _ := out;
|}.

Lemma size_of_spec k n : size_of k n ≤ n ∧ (0 < n → 0 < size_of k n).
Proof. apply bounded_limits. Qed.

Lemma read_size n (w : t) : 0 < n →
  let m := match recv_sizes w with [] => n | k :: _ => size_of k n end in 0 < m ≤ n.
Proof. intros Hn. destruct (recv_sizes w) as [|k ks]; [lia|]. destruct (size_of_spec k n). cbn. auto. Qed.

Lemma write_size (data : bytes) (w : t) : data ≠ [] →
  let m := match send_sizes w with [] => length data | k :: _ => size_of k (length data) end in
  0 < m ≤ length data.
Proof.
  intros Hd. assert (0 < length data) by (destruct data; [done|simpl; lia]).
  destruct (send_sizes w) as [|k ks]; [lia|]. destruct (size_of_spec k (length data)). cbn. auto.
Qed.

#[global] Instance laws : OpenSslLaws t unit nat.
Proof.
  split.
  - intros p n w data w'. cbn. unfold read. destruct (texts w) as [|x xs]; [done|].
    set (m := match recv_sizes w with [] => n | k :: _ => size_of k n end).
    assert (Hm : m ≤ n) by (unfold m; destruct (recv_sizes w) as [|k ks]; [done|apply size_of_spec]).
    destruct (take m x) as [|c d] eqn:Ht; [done|]. intros [= <- _].
    assert (Hl : length (c :: d) = Nat.min m (length x)) by (by rewrite <- Ht, length_take).
    rewrite Hl. simpl in Hl. lia.
  - intros p data w n w'. cbn. unfold write. intros [= <- <-] Hne.
    split; [by apply write_size|done].
  - intros p data w rc w'. done.
Qed.

(** The loop of [tls::stream::send_all] delivers. *)
Lemma tls_send_delivers fuel p data sent (w : t) :
  length data - sent < fuel → sent ≤ length data →
  ∃ w', ssl_send_loop fuel p data sent w = Ret (IoStatus.ok, w') ∧ texts w' = texts w ∧
    out w' = out w ++ drop sent data.
Proof.
  revert sent w. induction fuel as [|fuel IH]; intros sent w Hf Hs; [lia|]. cbn [ssl_send_loop].
  destruct (Nat.ltb_spec sent (length data)) as [Hlt|Hge].
  2: { exists w. by rewrite drop_ge, app_nil_r by lia. }
  change (SSL_write_ex p (drop sent data) w) with (write p (drop sent data) w). unfold write.
  assert (Hne : drop sent data ≠ []).
  { intros H%(f_equal length). rewrite length_drop in H. simpl in H. lia. }
  pose proof (write_size (drop sent data) w Hne) as Hm. cbv zeta in Hm.
  set (m := match send_sizes w with [] => _ | k :: _ => _ end) in *. rewrite length_drop in Hm.
  destruct (IH (sent + m) (Client (texts w) (recv_sizes w) (tail (send_sizes w))
    (out w ++ take m (drop sent data)))) as (w' & Hloop & Ht & Ho); [lia..|].
  exists w'. split; [done|split; [done|]]. rewrite Ho. cbn [out].
  by rewrite <- app_assoc, <- drop_drop, take_drop.
Qed.

#[global] Instance peer : Peer (tls_stream nat * t).
Proof.
  refine {| upcoming (s : tls_stream nat * t) := texts s.2;
            received (s : tls_stream nat * t) := out s.2 |}.
  - intros timeout [s w]. split; by exists (s, w).
  - intros [s w]. by exists (s, w).
  - intros n [s w] x xs Hn Hx Hne. cbn [snd] in Hx.
    pose proof (read_size n w Hn) as Hm. cbv zeta in Hm.
    change (recv_some n (s, w)) with (tls_recv_some n (s, w)). unfold tls_recv_some. cbn [fst snd].
    change (SSL_read_ex (ts_ssl s) n w) with (read (ts_ssl s) n w). unfold read. rewrite Hx.
    set (m := match recv_sizes w with [] => _ | k :: _ => _ end) in *.
    assert (Hd : take m x ≠ []) by (destruct x, m; simpl; done || lia).
    exists (take m x), (drop m x). destruct (take m x) as [|c d] eqn:Ht; [done|].
    eexists. split; [reflexivity|]. rewrite <- Ht, length_take, take_drop.
    by split_and!; [rewrite Ht|lia|..].
  - intros n [s w] Hx. cbn [snd] in Hx. exists (s, w). split; [|done].
    change (recv_some n (s, w)) with (tls_recv_some n (s, w)). unfold tls_recv_some. cbn [fst snd].
    change (SSL_read_ex (ts_ssl s) n w) with (read (ts_ssl s) n w). unfold read. by rewrite Hx.
  - intros data [s w].
    destruct (tls_send_delivers (S (length data)) (ts_ssl s) data 0 w) as (w' & Hs & ? & Ho); [lia..|].
    exists (s, w'). split; [|done]. change (send_all data (s, w)) with (tls_send_all data (s, w)).
    unfold tls_send_all. cbn [fst snd]. by rewrite Hs.
Defined.
End PeerTls.

(** ** The streams of the factory *)

Section AnyStream.
Context {W C L : Type} `{!OpenSsl W C L, !SocketApi W}.
Context `{P : !Peer (socket * W), T : !Peer (tls_stream L * W)}.

Lemma on_plain {A} (p : socket) (w : W) f g (a : A) s' :
  f (p, w) = Ret (a, s') → on_stream (L := L) (plain p) w f g = Ret (a, (plain s'.1, s'.2)).
Proof. destruct s' as [p' w']. cbn. by intros ->. Qed.

Lemma on_tls {A} (t : tls_stream L) (w : W) f g (a : A) s' :
  g (t, w) = Ret (a, s') → on_stream (tls_over t) w f g = Ret (a, (tls_over s'.1, s'.2)).
Proof. destruct s' as [t' w']. cbn. by intros ->. Qed.

(** Each class brings its own peer. *)
#[export] Instance any_stream_peer : Peer (any_stream L * W).
Proof.
  refine {|
    upcoming (s : any_stream L * W) :=
      match s.1 with plain p => upcoming (p, s.2) | tls_over t => upcoming (t, s.2) end;
    received (s : any_stream L * W) :=
      match s.1 with plain p => received (p, s.2) | tls_over t => received (t, s.2) end;
  |}.
  - intros timeout [[p|t] w].
    + destruct (peer_timeouts timeout (p, w)) as [([p1 w1] & H1 & U1) ([p2 w2] & H2 & U2)].
      change (plain_set_receive_timeout timeout (p, w) = (true, (p1, w1))) in H1.
      change (plain_set_send_timeout timeout (p, w) = (true, (p2, w2))) in H2.
      split; [exists (plain p1, w1)|exists (plain p2, w2)]; (split; [|done]);
        cbn; unfold on_stream_now; by rewrite ?H1, ?H2.
    + destruct (peer_timeouts timeout (t, w)) as [([p1 w1] & H1 & U1) ([p2 w2] & H2 & U2)].
      change (tls_set_receive_timeout timeout (t, w) = (true, (p1, w1))) in H1.
      change (tls_set_send_timeout timeout (t, w) = (true, (p2, w2))) in H2.
      split; [exists (tls_over p1, w1)|exists (tls_over p2, w2)]; (split; [|done]);
        cbn; unfold on_stream_now; by rewrite ?H1, ?H2.
  - intros [[p|t] w].
    + destruct (peer_handshake (p, w)) as ([p1 w1] & H & U). exists (plain p1, w1).
      split; [|done]. by apply (on_plain p w plain_handshake tls_handshake IoStatus.ok (p1, w1)).
    + destruct (peer_handshake (t, w)) as ([p1 w1] & H & U). exists (tls_over p1, w1).
      split; [|done]. by apply (on_tls t w plain_handshake tls_handshake IoStatus.ok (p1, w1)).
  - intros n [[p|t] w] x xs Hn Hx Hne; cbn [fst snd] in Hx.
    + destruct (peer_recv n (p, w) x xs Hn Hx Hne) as (d & x' & [p1 w1] & H & U).
      exists d, x', (plain p1, w1). split; [|done].
      by apply (on_plain p w (plain_recv_some n) (tls_recv_some n) (_, d) (p1, w1)).
    + destruct (peer_recv n (t, w) x xs Hn Hx Hne) as (d & x' & [p1 w1] & H & U).
      exists d, x', (tls_over p1, w1). split; [|done].
      by apply (on_tls t w (plain_recv_some n) (tls_recv_some n) (_, d) (p1, w1)).
  - intros n [[p|t] w] Hx; cbn [fst snd] in Hx.
    + destruct (peer_closes n (p, w) Hx) as ([p1 w1] & H & U). exists (plain p1, w1).
      split; [|done]. by apply (on_plain p w (plain_recv_some n) (tls_recv_some n) (_, []) (p1, w1)).
    + destruct (peer_closes n (t, w) Hx) as ([p1 w1] & H & U). exists (tls_over p1, w1).
      split; [|done]. by apply (on_tls t w (plain_recv_some n) (tls_recv_some n) (_, []) (p1, w1)).
  - intros data [[p|t] w].
    + destruct (peer_send data (p, w)) as ([p1 w1] & H & U). exists (plain p1, w1).
      split; [|done]. by apply (on_plain p w (plain_send_all data) (tls_send_all data) _ (p1, w1)).
    + destruct (peer_send data (t, w)) as ([p1 w1] & H & U). exists (tls_over p1, w1).
      split; [|done]. by apply (on_tls t w (plain_send_all data) (tls_send_all data) _ (p1, w1)).
Defined.
End AnyStream.

(** A session over the server's own streams, plain or TLS: the peer receives the
    same bytes of plaintext. *)
Theorem factory_session {V} (f : default_stream_factory unit) clk https_enabled
    (request_handler : request → prog V response) out_of_range_what fuel client (p : PeerApi.t) (v : V) :
  (∀ req v, defined (request_handler req v).1) → (0 ≤ sock_fd client)%Z →
  Forall request_text (PeerApi.texts p) → length (PeerApi.texts p) < fuel →
  ∃ tr p',
    handle_connection clk https_enabled request_handler out_of_range_what
      (create_stream (L := nat) f) delete_stream fuel client p v
    = (Ret (tr, (replies https_enabled request_handler v (PeerApi.texts p)).2), p') ∧
    PeerApi.out p'
    = PeerApi.out p ++ wire (replies https_enabled request_handler v (PeerApi.texts p)).1 ∧
    sends tr = (replies https_enabled request_handler v (PeerApi.texts p)).1.
Proof.
  intros Hdef Hfd Htexts Hfuel.
  assert (Hdel : ∀ (s : any_stream nat) w, PeerApi.out (delete_stream s w) = PeerApi.out w).
  { intros [s|s] w; cbn; unfold socket_delete, tls_close, socket_close; cbn.
    - by destruct (0 <=? sock_fd s)%Z.
    - by destruct (ts_ssl s), (0 <=? sock_fd (ts_socket s))%Z. }
  assert (Hout : ∀ (s : any_stream nat) w,
    received (s, w) = PeerApi.out w ∧ upcoming (s, w) = PeerApi.texts w) by (by intros [s|s] w).
  assert (Hstream : ∃ s, create_stream (L := nat) f client p = (Ret (Some s), p) ∧
    is_valid (s, p) = true).
  { destruct f as [[[]|]].
    - exists (tls_over (TlsStream client (Some 0))). split; [done|]. cbn.
      unfold tls_is_valid, socket_is_valid. cbn. by rewrite (proj2 (Z.leb_le _ _)).
    - exists (plain (plain_stream_new client)). split; [done|]. by apply Z.leb_le. }
  destruct Hstream as (s & Hc & Hv). destruct (Hout s p) as [Hrec Hup].
  destruct (handle_session clk https_enabled request_handler out_of_range_what (create_stream f)
    delete_stream fuel client s p p v (PeerApi.texts p) Hdef Hc Hv Hup Htexts Hfuel)
    as (tr & t' & sys2 & Heq & Hr & Hs).
  exists tr, (delete_stream t' sys2). split; [exact Heq|split; [|exact Hs]].
  destruct (Hout t' sys2) as [Hrec' _]. by rewrite Hdel, <- Hrec', Hr, Hrec.
Qed.

(** The session of [sample_peer], over TLS. *)
Lemma factory_session_sample :
  ∃ tr p', handle_connection sample_clocks false sample_handler []
      (create_stream (L := nat) (DefaultStreamFactory (Some tt))) delete_stream 4
      (Socket 7 "10.0.0.1") sample_peer 0 = (Ret (tr, 2), p') ∧
    PeerApi.out p' = wire sample_replies.
Proof. eexists _, _. split; [vm_compute; reflexivity|vm_compute; reflexivity]. Qed.
