(* ===== verification/ServerRun.v ===== *)
(** * The server at work ([server::run])

    The steps of [Server] with what they do to the accepted sockets: the accept
    loop drops the sockets it refuses, and a worker serves a socket with
    [handle_connection] over the stream factory.  The calls on each socket go into
    a log, and the log is shown to account for every socket. *)

From S2P Require Import Prelude.
From S2P Require Import StringView.
From S2P Require Import HttpRequest.
From S2P Require Import HttpResponse.
From S2P Require Import Net.
From S2P Require Import WorkQueue.
From S2P Require Import Server.
From S2P Require Import ConnectionHandler.
From S2P Require Import Tls.
From S2P Require Import StreamFactory.

(** ** The sockets of a state *)

(** The socket the accepting thread has in hand. *)
Definition in_hand (a : acceptor) : list socket :=
  match a with acc_accepted s | acc_admitted s => [s] | _ => [] end.

(** The open sockets: in hand, queued, or being served. *)
Definition held (sv : server) : list socket :=
  in_hand (sv_acceptor sv) ++ queue_sockets (sv_queue sv) ++ omap serving (sv_workers sv).

(** The socket that a step accepts. *)
Definition accepts (e : Server.event) : list socket :=
  match e with ev_accept (inr s) => [s] | _ => [] end.

(** The socket that goes out of scope in the accept loop: the limiter refuses its
    address, or the queue does not take it ([try_push] has it by value, so that it
    ends with the call). *)
Definition drops (sv : server) (e : Server.event) : list socket :=
  match sv_acceptor sv, e with
  | acc_accepted s, ev_acquire =>
      if (try_acquire (sv_limiter sv) (peer_address s)).1 then [] else [s]
  | acc_admitted s, ev_push =>
      match (try_push (sv_queue sv) s).1.1 with QueuePush.queued => [] | _ => [s] end
  | _, _ => []
  end.

(** The socket whose [handle_connection] ends. *)
Definition finishes (sv : server) (e : Server.event) : list socket :=
  match e with
  | ev_served i _ => match sv_workers sv !! i with Some w => option_list (serving w) | None => [] end
  | _ => []
  end.

(** *** Every step moves the sockets it is about *)

Lemma accept_step_held sv e sv' :
  accept_step sv e = Some sv' → held sv' ++ drops sv e ≡ₚ held sv ++ accepts e ∧ finishes sv e = [].
Proof.
  unfold accept_step, held, drops, finishes.
  destruct (sv_acceptor sv) as [|s|s|ns|peer r| | |] eqn:Hacc, e as [[er|s']| | |wk| | | | | | |];
    try done.
  - intros [= <-]. unfold handle_accept_result. cbn. by destruct (ae_fatal er).
  - intros [= <-]. cbn. split; [|done]. rewrite app_nil_r. apply Permutation_cons_append.
  - destruct (try_acquire _ _) as [[] l]; intros [= <-]; cbn; [done|].
    split; [|done]. rewrite app_nil_r. symmetry. apply Permutation_cons_append.
  - destruct (try_push _ _) as [[r q] ns] eqn:Hq. cbn [fst].
    destruct r; intros [= <-]; apply try_push_spec in Hq; cbn.
    + destruct Hq as (_ & _ & ->). cbn. split; [|done]. rewrite !app_nil_r, <- app_assoc.
      symmetry. apply Permutation_middle.
    + destruct Hq as (_ & _ & ->). split; [|done]. rewrite app_nil_r. symmetry.
      apply Permutation_cons_append.
    + destruct Hq as (_ & ->). split; [|done]. rewrite app_nil_r. symmetry.
      apply Permutation_cons_append.
  - destruct (notify_in_turn _ _ _) as [ws|] eqn:Hws; [|done]. intros [= <-]. split; [|done]. cbn.
    by rewrite (wakes_omap _ _ _ wake_serving (notify_in_turn_wakes _ _ _ _ Hws)).
  - intros [= <-]. by destruct r.
Qed.

Lemma shutdown_step_held sv e sv' :
  accept_step sv e = None → shutdown_step sv e = Some sv' →
  held sv' ++ drops sv e ≡ₚ held sv ++ accepts e ∧ finishes sv e = [].
Proof.
  intros _. unfold shutdown_step, held, drops, finishes.
  destruct (sv_acceptor sv) as [|s|s|ns|peer r| |i|] eqn:Hacc, e as [[er|s']| | |wk| | | | | | |];
    try done.
  - intros [= <-]. split; [|done]. cbn.
    by rewrite (wakes_omap _ _ _ wake_serving
      (notify_wakes (sv_workers sv) (notify_all not_empty) None _ eq_refl)).
  - destruct (sv_workers sv !! i) as [w|] eqn:Hw; intros [= <-]; cbn; [|done].
    split; [|done]. rewrite !app_nil_r. f_equiv. apply (omap_worker_same _ _ _ w); [done|].
    apply wake_serving.
Qed.

Lemma worker_step_held sv e sv' :
  worker_step sv e = Some sv' →
  held sv ≡ₚ held sv' ++ finishes sv e ∧ drops sv e = [] ∧ accepts e = [].
Proof.
  intros Hst. assert (Hrest : drops sv e = [] ∧ accepts e = []).
  { destruct e; try done; split; try done; unfold drops; by destruct (sv_acceptor sv). }
  split; [|done]. clear Hrest. revert Hst. intros (i & w & Hw & Hmove)%worker_step_move.
  assert (Hset : ∀ st, option_list (serving w) ++ omap serving (<[i := Worker st (wk_stop w)]> (sv_workers sv))
    ≡ₚ option_list (serving (Worker st (wk_stop w))) ++ omap serving (sv_workers sv))
    by (intros st; by apply omap_worker_insert).
  assert (Hserving : serving w = match wk_state w with w_serving s => Some s | _ => None end) by done.
  destruct Hmove as [s q ns Hs Hpop|q ns Hs Hpop|Hs Hpop|s r Hs|peer r evs Hs _|Hs];
    rewrite Hs in Hserving; rewrite Hserving in Hset; unfold held, finishes;
    rewrite ?Hw, ?Hserving; cbn -[omap]; rewrite ?app_nil_r.
  - apply pop_spec in Hpop as [-> _]. pose proof (Hset (w_serving s)) as Hp. cbn in Hp.
    rewrite Hp. cbn. f_equiv. apply Permutation_middle.
  - apply pop_spec in Hpop as (_ & -> & _). by rewrite (Hset w_exited).
  - by rewrite (Hset w_asleep).
  - rewrite <- !app_assoc. do 2 f_equiv. rewrite <- (Hset (w_served (peer_address s) r)).
    apply Permutation_cons_append.
  - by rewrite (Hset w_waiting).
  - by rewrite (Hset w_waiting).
Qed.

(** The sockets before and after a step. *)
Lemma server_step_held sv e sv' :
  server_step sv e = Some sv' → held sv' ++ drops sv e ++ finishes sv e ≡ₚ held sv ++ accepts e.
Proof.
  unfold server_step. destruct (accept_step sv e) as [sv1|] eqn:Ha.
  { intros [= <-]. destruct (accept_step_held _ _ _ Ha) as [H ->]. by rewrite app_nil_r. }
  destruct (shutdown_step sv e) as [sv1|] eqn:Hs.
  { intros [= <-]. destruct (shutdown_step_held _ _ _ Ha Hs) as [H ->]. by rewrite app_nil_r. }
  intros H. destruct (worker_step_held _ _ _ H) as (-> & -> & ->). by rewrite app_nil_r.
Qed.

Lemma start_held cap n sv : start_server cap n = Ret sv → held sv = [].
Proof.
  unfold start_server. intros Hs. inv_bind Hs. inv_bind Hs. inv_bind Hs. injection Hs as <-.
  unfold new_work_queue in Ha0. destruct (cap =? 0); [done|]. injection Ha0 as <-.
  unfold new_worker_pool in Ha1. destruct (n =? 0); [done|]. injection Ha1 as <-.
  by apply omap_waiting.
Qed.

(** No callback has ended with an exception, so that none is reported. *)
Record clean (sv : server) : Prop := {
  clean_workers w : w ∈ sv_workers sv → ∀ peer r, wk_state w = w_served peer r → r = h_returned;
  clean_events d : on_worker_error d ∉ sv_events sv;
}.

Lemma clean_same sv sv' :
  clean sv → sv_workers sv' = sv_workers sv → sv_events sv' = sv_events sv → clean sv'.
Proof. intros [Hw He] Hws Hevs. by split; rewrite ?Hws, ?Hevs. Qed.

Lemma clean_log sv sv' ev :
  clean sv → sv_workers sv' = sv_workers sv → sv_events sv' = sv_events sv ++ [ev] →
  (∀ d, ev ≠ on_worker_error d) → clean sv'.
Proof.
  intros [Hw He] Hws Hevs Hev. split; rewrite ?Hws, ?Hevs; [done|]. intros d.
  rewrite elem_of_app, list_elem_of_singleton. intros [H|H]; [by apply He in H|by eapply Hev].
Qed.

Lemma clean_worker sv sv' i w' :
  clean sv → sv_workers sv' = <[i := w']> (sv_workers sv) → sv_events sv' = sv_events sv →
  (∀ peer r, wk_state w' = w_served peer r → r = h_returned) → clean sv'.
Proof.
  intros [Hw He] Hws Hevs Hw'. split; rewrite ?Hws, ?Hevs; [|done].
  intros w [->|Hin]%elem_of_insert_inv; [done|by apply Hw].
Qed.

Lemma clean_wakes sv sv' :
  clean sv → wakes (sv_workers sv) (sv_workers sv') → sv_events sv' = sv_events sv → clean sv'.
Proof.
  intros [Hw He] Hws Hevs. split; rewrite ?Hevs; [|done].
  intros w' (w & Hin & [->| ->])%(wakes_elem _ _ _ Hws) peer r Hs; [by eapply Hw|].
  apply wake_served in Hs. by eapply Hw.
Qed.

Lemma step_clean sv e sv' :
  server_step sv e = Some sv' → (∀ i x, e = ev_served i x → x = h_returned) → clean sv → clean sv'.
Proof.
  intros Hst Hret Hc. revert Hst.
  assert (Hworker : worker_step sv e = Some sv' → clean sv').
  { intros (i & w & Hw & Hmove)%worker_step_move.
    destruct Hmove as [s q ns _ _|q ns _ _|_ _|s x _|peer r evs Hs ->|_]; try by eapply clean_worker.
    - rewrite (Hret i x eq_refl). eapply clean_worker; [done..|]. by intros ? ? [= _ <-].
    - rewrite (clean_workers _ Hc w (list_elem_of_lookup_2 _ _ _ Hw) peer r Hs).
      eapply clean_worker; [done|done|apply app_nil_r|done]. }
  unfold server_step, accept_step, shutdown_step.
  destruct (sv_acceptor sv) as [|s|s|ns|peer r| |k|] eqn:Hacc,
    e as [[er|s']| | |wk| | | |i|i x|i|i]; try done.
  - intros [= <-]. unfold handle_accept_result. by destruct (ae_fatal er); eapply clean_log.
  - intros [= <-]. by apply (clean_same sv).
  - destruct (try_acquire _ _) as [[] l]; intros [= <-]; [by apply (clean_same sv)|by eapply clean_log].
  - destruct (try_push _ _) as [[[] q] ns]; intros [= <-]; by apply (clean_same sv).
  - destruct (notify_in_turn _ _ _) as [ws|] eqn:Hws; [|done]. intros [= <-].
    by eapply clean_wakes; [|eapply notify_in_turn_wakes|].
  - destruct r; intros [= <-]; [by apply (clean_same sv)|by eapply clean_log..].
  - intros [= <-]. eapply clean_wakes; [done| |done].
    by apply (notify_wakes (sv_workers sv) (notify_all not_empty) None).
  - destruct (sv_workers sv !! k) as [w|] eqn:Hw; intros [= <-]; [|by apply (clean_same sv)].
    eapply clean_worker; [done..|]. cbn. intros peer r Hs%wake_served.
    by apply (clean_workers _ Hc w (list_elem_of_lookup_2 _ _ _ Hw) peer).
Qed.

(** ** The log of the sockets *)

(** A socket is accepted; or it ends, after the calls that were made on it. *)
Inductive entry (C L : Type) :=
  | accepted (s : socket)
  | ended (s : socket) (calls : list (StreamFactory.event C L)).
Arguments accepted {C L}.
Arguments ended {C L}.

Section Log.
Context {C L : Type} `{!EqDecision L}.

(** Is the descriptor [fd] open after an entry?  [None] marks a misuse: accepted
    while it is open, used or closed while it is not, or calls that do not follow
    the life cycle of a socket to its end. *)
Definition log_step (fd : Z) (is_open : bool) (e : entry C L) : option bool :=
  match e with
  | accepted s =>
      if decide (sock_fd s = fd) then if is_open then None else Some true else Some is_open
  | ended s calls =>
      if decide (sock_fd s = fd) then
        match is_open, after_log fd calls with
        | true, Some released => Some false
        | _, _ => None
        end
      else Some is_open
  end.

Definition open_after (fd : Z) (log : list (entry C L)) : option bool :=
  foldl (λ o e, b ← o; log_step fd b e) (Some false) log.

(** The log agrees with the sockets in [fds]. *)
Definition log_accounts (log : list (entry C L)) (fds : list Z) : Prop :=
  ∀ fd, open_after fd log = Some (bool_decide (fd ∈ fds)).

Lemma open_after_snoc fd log b e :
  open_after fd log = Some b → open_after fd (log ++ [e]) = log_step fd b e.
Proof. unfold open_after. rewrite foldl_app. by intros ->. Qed.

#[export] Instance log_accounts_perm log : Proper ((≡ₚ) ==> iff) (log_accounts log).
Proof.
  intros fds1 fds2 H. unfold log_accounts. apply forall_proper. intros fd.
  by rewrite (bool_decide_ext (fd ∈ fds1) (fd ∈ fds2)) by by rewrite H.
Qed.

Lemma log_accounts_accept log fds s :
  log_accounts log fds → sock_fd s ∉ fds → log_accounts (log ++ [accepted s]) (sock_fd s :: fds).
Proof.
  intros Hlog Hs fd. rewrite (open_after_snoc _ _ _ _ (Hlog fd)). cbn [log_step].
  case_decide as Heq.
  - subst fd. by rewrite (bool_decide_eq_false_2 _ Hs), bool_decide_eq_true_2 by (by left).
  - f_equal. apply bool_decide_ext. rewrite elem_of_cons. split; [by right|by intros [->|?]].
Qed.

Lemma log_accounts_end log fds s calls :
  log_accounts log (sock_fd s :: fds) → sock_fd s ∉ fds →
  after_log (sock_fd s) calls = Some released → log_accounts (log ++ [ended s calls]) fds.
Proof.
  intros Hlog Hs Hcalls fd. rewrite (open_after_snoc _ _ _ _ (Hlog fd)). cbn [log_step].
  case_decide as Heq.
  - subst fd. rewrite (bool_decide_eq_true_2 (sock_fd s ∈ _)) by (by left).
    by rewrite Hcalls, (bool_decide_eq_false_2 _ Hs).
  - f_equal. apply bool_decide_ext. rewrite elem_of_cons. split; [by intros [->|?]|by right].
Qed.
End Log.

(** ** The run

    The kernel gives [accept] a descriptor that is not open.  A socket is dropped
    by its destructor, and served by [handle_connection]; what the peers, the
    other threads and OpenSSL do meanwhile is any state [sys] of the system and
    [v] of the modules. *)
Section Run.
Context {W C L : Type} `{O : !OpenSsl W C L, N : !SocketApi W, !EqDecision L}.
Context `{!SocketApiLaws W, !OpenSslLaws W C L, !FinitePeers W C L}.
Context {V : Type} (f : default_stream_factory C).
Context (clk : clocks) (https_enabled : bool) (request_handler : request → prog V response).
Context (out_of_range_what : bytes) (queue_capacity worker_count : nat).

#[local] Existing Instances watched_sockets watched_openssl.

Abbreviation log := (list (entry C L)).

(** The calls of the destructor of a socket. *)
Definition dropped (s : socket) (sys : W) : list (StreamFactory.event C L) :=
  (socket_delete s (sys, [])).2.

(** The calls of serving a socket, when [handle_connection] returns. *)
Definition served (s : socket) (calls : list (StreamFactory.event C L)) : Prop :=
  ∃ fuel sys v tr v' sys',
    handle_connection clk https_enabled request_handler out_of_range_what
      (create_stream f) delete_stream fuel s (sys, []) v = (Ret (tr, v'), (sys', calls)).

Inductive run_step : server * log → Server.event → server * log → Prop :=
  | run_accept sv t s sv' :
      server_step sv (ev_accept (inr s)) = Some sv' →
      (0 ≤ sock_fd s)%Z → sock_fd s ∉ sock_fd <$> held sv →
      run_step (sv, t) (ev_accept (inr s)) (sv', t ++ [accepted s])
  | run_drop sv t e s sys sv' :
      server_step sv e = Some sv' → drops sv e = [s] →
      run_step (sv, t) e (sv', t ++ [ended s (dropped s sys)])
  | run_serve sv t i w s calls sv' :
      sv_workers sv !! i = Some w → wk_state w = w_serving s → served s calls →
      server_step sv (ev_served i h_returned) = Some sv' →
      run_step (sv, t) (ev_served i h_returned) (sv', t ++ [ended s calls])
  | run_other sv t e sv' :
      server_step sv e = Some sv' → accepts e = [] → drops sv e = [] → finishes sv e = [] →
      run_step (sv, t) e (sv', t).

Inductive run : server * log → Prop :=
  | run_start sv : start_server queue_capacity worker_count = Ret sv → run (sv, [])
  | run_more r e r' : run r → run_step r e r' → run r'.

Lemma run_reachable r : run r → reachable queue_capacity worker_count r.1.
Proof.
  induction 1 as [sv Hs|r e r' _ IH Hstep]; [by apply reach_start|].
  destruct Hstep; by eapply reach_step.
Qed.

(** What holds of the sockets of every state. *)
Record run_inv (r : server * log) : Prop := {
  run_distinct : NoDup (sock_fd <$> held r.1);
  run_descriptors : Forall (λ s, 0 ≤ sock_fd s)%Z (held r.1);
  run_accounts : log_accounts r.2 (sock_fd <$> held r.1);
}.

Lemma run_inv_accept sv t s sv' :
  run_inv (sv, t) → held sv' ≡ₚ s :: held sv → (0 ≤ sock_fd s)%Z → sock_fd s ∉ sock_fd <$> held sv →
  run_inv (sv', t ++ [accepted s]).
Proof.
  intros [Hd Hf Ha] Hp Hfd Hnew. cbn [fst snd] in *. split; cbn [fst snd]; rewrite Hp, ?fmap_cons.
  - by apply NoDup_cons.
  - by constructor.
  - by apply log_accounts_accept.
Qed.

Lemma run_inv_end sv t s calls sv' :
  run_inv (sv, t) → held sv ≡ₚ s :: held sv' →
  ((0 ≤ sock_fd s)%Z → after_log (sock_fd s) calls = Some released) →
  run_inv (sv', t ++ [ended s calls]).
Proof.
  intros [Hd Hf Ha] Hp Hcalls. cbn [fst snd] in *.
  rewrite Hp, fmap_cons in Hd, Ha. rewrite Hp in Hf.
  apply NoDup_cons in Hd as [Hnew Hd]. inversion_clear Hf as [|? ? Hfd Hf'].
  split; [done|done|]. apply log_accounts_end; auto.
Qed.

Lemma dropped_released s sys :
  (0 ≤ sock_fd s)%Z → after_log (sock_fd s) (dropped s sys) = Some released.
Proof. intros H. exact (socket_close_phase s (sys, []) H eq_refl). Qed.

Lemma served_released s calls :
  served s calls → (0 ≤ sock_fd s)%Z → after_log (sock_fd s) calls = Some released.
Proof. intros (fuel & sys & v & tr & v' & sys' & Heq) Hfd. by eapply connection_released. Qed.

(** A step drops or finishes at most one socket, and not while it accepts. *)
Lemma drops_one sv e : drops sv e = [] ∨ ∃ s, drops sv e = [s] ∧ accepts e = [] ∧ finishes sv e = [].
Proof.
  unfold drops.
  destruct (sv_acceptor sv) as [|s|s|ns|peer r| | |], e as [[er|s']| | |wk| | | | | | |]; try by left.
  - destruct (try_acquire _ _) as [[] l]; [by left|right; by exists s].
  - destruct (try_push _ _) as [[[] q] ns]; [by left|right; by exists s..].
Qed.

Lemma step_served sv i x sv' :
  server_step sv (ev_served i x) = Some sv' →
  ∃ w s, sv_workers sv !! i = Some w ∧ wk_state w = w_serving s ∧ finishes sv (ev_served i x) = [s].
Proof.
  unfold server_step. destruct (accept_step sv (ev_served i x)) as [sv1|] eqn:Ha.
  { unfold accept_step in Ha. by destruct (sv_acceptor sv). }
  destruct (shutdown_step sv (ev_served i x)) as [sv1|] eqn:Hs.
  { unfold shutdown_step in Hs. by destruct (sv_acceptor sv). }
  cbn [worker_step]. destruct (sv_workers sv !! i) as [w|] eqn:Hw; [|done]. cbn [mbind option_bind].
  destruct (wk_state w) as [| |s|peer h|] eqn:Hst; try done. intros _. exists w, s.
  split; [done|split; [done|]]. unfold finishes, serving. by rewrite Hw, Hst.
Qed.

Lemma run_invariant r : run r → run_inv r.
Proof.
  induction 1 as [sv Hs|r e r' _ IH Hstep].
  - split; cbn [fst snd]; rewrite (start_held _ _ _ Hs); by constructor.
  - destruct Hstep as [sv t s sv' Hst Hfd Hnew|sv t e s sys sv' Hst Hd
      |sv t i w s calls sv' Hw Hserving Hs Hst|sv t e sv' Hst Ha Hd Hf];
      pose proof (server_step_held _ _ _ Hst) as Hp.
    + apply (run_inv_accept sv); [done| |done|done].
      assert (Hd : drops sv (ev_accept (inr s)) = []) by (unfold drops; by destruct (sv_acceptor sv)).
      rewrite Hd in Hp. cbn in Hp. rewrite app_nil_r in Hp. rewrite Hp.
      symmetry. apply Permutation_cons_append.
    + destruct (drops_one sv e) as [Hd'|(s' & _ & Ha & Hf)]; [congruence|].
      rewrite Hd, Ha, Hf, !app_nil_r in Hp. apply (run_inv_end sv); [done| |apply dropped_released].
      rewrite <- Hp. symmetry. apply Permutation_cons_append.
    + destruct (step_served _ _ _ _ Hst) as (w' & s' & Hw' & Hs' & Hf).
      rewrite Hw in Hw'. injection Hw' as <-. rewrite Hserving in Hs'. injection Hs' as <-.
      assert (Hd : drops sv (ev_served i h_returned) = []) by (unfold drops; by destruct (sv_acceptor sv)).
      rewrite Hd, Hf in Hp. cbn in Hp. rewrite app_nil_r in Hp.
      apply (run_inv_end sv); [done| |by apply served_released].
      rewrite <- Hp. symmetry. apply Permutation_cons_append.
    + rewrite Ha, Hd, Hf, !app_nil_r in Hp. destruct IH as [H1 H2 H3]. cbn [fst snd] in *.
      by split; cbn [fst snd]; rewrite Hp.
Qed.

(** [handle_connection] throws nothing the worker could report. *)
Lemma run_clean r : run r → clean r.1.
Proof.
  induction 1 as [sv Hs|r e r' _ IH Hstep].
  - unfold start_server in Hs. inv_bind Hs. inv_bind Hs. inv_bind Hs. injection Hs as <-.
    unfold new_worker_pool in Ha1. destruct (worker_count =? 0); [done|]. injection Ha1 as <-.
    split; cbn; [|by intros d ?%not_elem_of_nil]. by intros w [-> _]%elem_of_replicate.
  - destruct Hstep as [sv t s sv' Hst _ _|sv t e s sys sv' Hst Hd|sv t i w s calls sv' _ _ _ Hst
      |sv t e sv' Hst _ _ Hf]; apply (step_clean sv _ sv' Hst); try done.
    + intros i x ->. unfold drops in Hd. by destruct (sv_acceptor sv).
    + by intros j x [= _ <-].
    + intros i x ->. destruct (step_served _ _ _ _ Hst) as (w & s & _ & _ & Hs). congruence.
Qed.

(** A server that has shut down holds no socket. *)
Lemma stopped_held sv :
  reachable queue_capacity worker_count sv → shutting_down (sv_acceptor sv) = true →
  (∀ e, uncaused e = false → server_step sv e = None) → held sv = [].
Proof.
  intros Hr Hdown Hstuck. pose proof (reachable_workers _ _ _ Hr) as Hn.
  pose proof (reachable_wake _ _ _ Hr) as Hwake. apply reachable_inv in Hr.
  destruct (shutdown_stuck _ _ _ Hr Hwake Hdown Hstuck) as [Hj HF].
  destruct (lookup_lt_is_Some_2 (sv_workers sv) 0) as [w Hw]; [by rewrite (inv_workers _ _ _ Hr)|].
  destruct (inv_exited _ _ _ Hr w) as [_ Hempty];
    [by eapply list_elem_of_lookup_2|by eapply Forall_lookup_1 in HF|].
  unfold held. by rewrite Hj, Hempty, (exited_none serving _ ltac:(done) HF).
Qed.

(** C16: every accepted socket is accounted for, whatever the schedule of the
    accepting thread and the workers, the peers, OpenSSL and the modules do.  The
    log of the calls says of every descriptor that it is open exactly when the
    accepting thread has it in hand, it is queued, or a worker serves it; it is
    never used or closed while it is not open, and between [accept] and its one
    close the calls follow the life cycle of a socket.  No two held sockets share
    a descriptor, at most the capacity plus the workers plus one are held, no
    worker error is reported, and a server that has shut down has closed all. *)
Theorem sockets_accounted r :
  run r →
  (∀ fd, open_after fd r.2 = Some (bool_decide (fd ∈ sock_fd <$> held r.1))) ∧
  NoDup (sock_fd <$> held r.1) ∧
  length (held r.1) ≤ queue_capacity + worker_count + 1 ∧
  (∀ d, on_worker_error d ∉ sv_events r.1) ∧
  (shutting_down (sv_acceptor r.1) = true → (∀ e, uncaused e = false → server_step r.1 e = None) →
     ∀ fd, open_after fd r.2 = Some false).
Proof.
  intros Hrun. destruct (run_invariant r Hrun) as [Hd _ Ha]. pose proof (run_reachable r Hrun) as Hr.
  split; [exact Ha|split; [exact Hd|split; [|split; [apply (run_clean r Hrun)|]]]].
  - pose proof (reachable_inv _ _ _ Hr) as Hinv. unfold held. rewrite !length_app.
    destruct (inv_queue _ _ _ Hinv) as [[_ Hcap] <-].
    pose proof (length_omap_worker serving (sv_workers r.1)). rewrite <- (inv_workers _ _ _ Hinv).
    assert (length (in_hand (sv_acceptor r.1)) ≤ 1) by (destruct (sv_acceptor r.1); simpl; lia).
    lia.
  - intros Hdown Hstuck fd. specialize (Ha fd). rewrite (stopped_held _ Hr Hdown Hstuck) in Ha. exact Ha.
Qed.

(** No step of the server is lost in the run: when the kernel gives a descriptor
    that is not open, and the modules return or throw, every step in which the
    worker callback returns has a log. *)
Theorem run_covers (sys : W) (v : V) sv t e sv' :
  (∀ req v, defined (request_handler req v).1) → run (sv, t) → server_step sv e = Some sv' →
  (∀ s, e = ev_accept (inr s) → (0 ≤ sock_fd s)%Z ∧ sock_fd s ∉ sock_fd <$> held sv) →
  (∀ i x, e = ev_served i x → x = h_returned) →
  ∃ t', run_step (sv, t) e (sv', t').
Proof.
  intros Hdef Hrun Hst Hkernel Hret.
  destruct (drops_one sv e) as [Hd|(s & Hd & _)]; [|by eexists; eapply (run_drop _ _ _ _ sys)].
  destruct e as [[er|s]| | |wk| | | |i|i x|i|i].
  2: { destruct (Hkernel s eq_refl). eexists. by apply run_accept. }
  9: { rewrite (Hret i x eq_refl) in *.
       destruct (step_served _ _ _ _ Hst) as (w & s & Hw & Hs & _).
       assert (Hin : s ∈ held sv).
       { unfold held. rewrite !elem_of_app. right; right. apply list_elem_of_omap. exists w.
         split; [by eapply list_elem_of_lookup_2|]. unfold serving. by rewrite Hs. }
       destruct (run_invariant _ Hrun) as [_ Hf _]. rewrite Forall_forall in Hf.
       destruct (connection_releases f clk https_enabled request_handler out_of_range_what
         (λ _, True) (S (peer_bytes sys)) s sys v (λ req v0 _, conj (Hdef req v0) I) I (Hf s Hin)
         ltac:(lia)) as (tr & v' & w' & calls & Heq & _).
       eexists. eapply (run_serve _ _ _ w s calls); try done. by eexists _, _, _, _, _, _. }
  all: eexists; by apply run_other.
Qed.

(** A schedule that follows the kernel's law and in which callbacks return. *)
Fixpoint lawful (sv : server) (es : list Server.event) : Prop :=
  match es with
  | [] => True
  | e :: es =>
      match e with
      | ev_accept (inr s) => (0 ≤ sock_fd s)%Z ∧ sock_fd s ∉ sock_fd <$> held sv
      | ev_served _ x => x = h_returned
      | _ => True
      end ∧ match server_step sv e with Some sv => lawful sv es | None => True end
  end.

Lemma run_schedule_covers (sys : W) (v : V) es sv t sv' :
  (∀ req v, defined (request_handler req v).1) → run (sv, t) → lawful sv es →
  run_schedule sv es = Some sv' → ∃ t', run (sv', t').
Proof.
  intros Hdef. revert sv t. induction es as [|e es IH]; intros sv t Hrun Hlaw; [by intros [= <-]; exists t|].
  intros (sv1 & Hst & Hes)%run_schedule_cons. destruct Hlaw as [He Hlaw]. rewrite Hst in Hlaw.
  destruct (run_covers sys v sv t e sv1 Hdef Hrun Hst) as [t1 Hstep].
  { intros s ->. exact He. }
  { intros i x ->. exact He. }
  apply (IH sv1 t1); [by eapply run_more|done|done].
Qed.
End Run.

(** Two connections, the second served during the shutdown. *)
Definition run_sample : list Server.event :=
  [ev_pop 0; ev_accept (inr (Socket 5 "10.0.0.1")); ev_acquire; ev_push; ev_notify (Some 0); ev_pop 0;
   ev_accept (inr (Socket 6 "10.0.0.1")); ev_acquire; ev_push; ev_notify None; ev_served 0 h_returned;
   ev_finish 0; ev_accept (inl (AcceptError EBADF true)); ev_close; ev_request_stop; ev_pop 0;
   ev_request_stop; ev_served 0 h_returned; ev_finish 0; ev_pop 0].

Lemma sockets_accounted_witness :
  ∃ t : list (entry unit nat),
    run (W := ScriptedApi.t) (DefaultStreamFactory None) sample_clocks false sample_handler [] 2 1
      (state_after run_sample, t) ∧
    open_after 5 t = Some false ∧ open_after 6 t = Some false.
Proof.
  destruct (run_schedule_covers (W := ScriptedApi.t) (C := unit) (L := nat)
    (DefaultStreamFactory None) sample_clocks false sample_handler [] 2 1 sample_script 0 run_sample
    sample_start [] (state_after run_sample)) as [t Ht].
  - exact sample_handler_defined.
  - by apply run_start.
  - vm_compute. split_and!; try done; intros H;
      repeat (apply elem_of_cons in H as [H|H]; [discriminate|]); by apply not_elem_of_nil in H.
  - vm_compute. reflexivity.
  - exists t. split; [exact Ht|].
    destruct (sockets_accounted _ _ _ _ _ _ _ _ Ht) as (_ & _ & _ & _ & Hclosed).
    assert (Hstuck : ∀ e, uncaused e = false → server_step (state_after run_sample) e = None).
    { intros [[]| | |wk| | | |i|i x|i|i] Hcause; try (vm_compute; reflexivity); try done;
        by destruct i as [|[|i]]. }
    split; by apply Hclosed.
Defined.
