(* ===== verification/Tests.v ===== *)
(** * The repository's tests, on the model ([src/tests])

    The unit tests of [src/tests/unit_http.cpp] and the requests of the smoke tests
    are evaluated on the definitions: what the tests expect of the binary holds of
    the model.  The smoke tests run the default modules with the texts of
    [src/modules.d], from the bytes of a request to the bytes of the answer; those
    about overload are schedules of [Server].  The tests with tokens and TLS need
    the HMAC and OpenSSL and are left out; requests for files are in [Deployment]. *)

From S2P Require Import Prelude.
From S2P Require Import StringView.
From S2P Require Import HttpHeader.
From S2P Require Import HttpRequest.
From S2P Require Import HttpResponse.
From S2P Require Import Net.
From S2P Require Import HttpFraming.
From S2P Require Import Pipeline.
From S2P Require Import ModuleAbi.
From S2P Require Import ConnectionHandler.
From S2P Require Import Session.
From S2P Require Import WorkQueue.
From S2P Require Import Server.
From S2P Require HeaderGuard.
From S2P Require HostGuard.
From S2P Require RouteTable.
From S2P Require Router.
From S2P Require Cors.
From S2P Require RateLimit.

(** ** Unit tests *)

(** Lines, each ended by CRLF. *)
Definition crlf_lines (ls : list string) : bytes := concat ((λ l, of_string l ++ CRLF) <$> ls).

(** [scripted_stream]: the chunks left and the status after them. *)
Record scripted_stream := ScriptedStream { chunks : list bytes; final_status : IoStatus.t }.

#[export] Instance scripted_net_stream : NetStream scripted_stream := {|
  is_valid _ := true;
  set_receive_timeout _ s := (true, s);
  set_send_timeout _ s := (true, s);
  handshake s := Ret (IoStatus.ok, s);
  recv_some n s :=
    match chunks s with
    | [] => Ret (ReadResult (final_status s) 0, [], s)
    | c :: cs =>
        let size := Nat.min n (length c) in
        Ret (ReadResult IoStatus.ok size, take size c, ScriptedStream cs (final_status s))
    end;
  send_all _ s := Ret (IoStatus.ok, s);
|}.

(** The stream keeps the laws of the interface when no chunk is empty and the final
    status is not [ok]; the tests use it so. *)
Lemma scripted_stream_reads n (s : scripted_stream) rr data s' :
  0 < n → Forall (λ c, c ≠ []) (chunks s) → final_status s ≠ IoStatus.ok →
  recv_some n s = Ret (rr, data, s') →
  (rr_status rr = IoStatus.ok → length data = bytes_read rr ∧ 0 < bytes_read rr ≤ n) ∧
  (rr_status rr ≠ IoStatus.ok → data = []).
Proof.
  intros Hn HF Hst. destruct s as [[|c cs] st]; cbn in *; intros [= <- <- _]; [done|].
  inversion_clear HF as [|? ? Hc _]. split; [|done]. intros _. cbn. rewrite length_take.
  destruct c; [done|]. simpl. lia.
Qed.

Definition test_request_parse_valid : bool :=
  match parse (crlf_lines ["GET /hello HTTP/1.1"; "Host: localhost"; "Connection: keep-alive"; ""]%string) with
  | Ret (Expect parsed) =>
      bytes_eqb (method parsed) "GET" && bytes_eqb (target parsed) "/hello" &&
      ((version_major parsed =? 1)%Z && (version_minor parsed =? 1)%Z) &&
      match keep_alive_requested parsed with Ret keep => keep | _ => false end
  | _ => false
  end.

Definition test_request_parse_rejects_folded_header : bool :=
  match parse (crlf_lines ["GET / HTTP/1.1"; "Host: localhost"; " X-Bad: folded"; ""]%string) with
  | Ret (Unexpected invalid_header) => true
  | _ => false
  end.

Definition test_buffer_growth_and_commit : bool :=
  let '(b, size) := write_span empty_buffer 4 in
  (4 <=? size) &&
  match store b "test" with
  | Ret b => bytes_eqb (as_string_view (commit b 4)) "test"
  | _ => false
  end.

Definition test_framing_partial_reads : bool :=
  match read_header_block
    (ScriptedStream [crlf_lines ["GET / HTTP/1.1"]%string ++ "Host: local";
                     crlf_lines ["host"; ""]%string] IoStatus.closed)
    empty_buffer max_request_header_bytes with
  | Ret (Expect header, _, _) =>
      bytes_eqb header (crlf_lines ["GET / HTTP/1.1"; "Host: localhost"; ""]%string)
  | _ => false
  end.

Definition test_framing_too_large : bool :=
  match read_header_block
    (ScriptedStream [crlf_lines ["GET / HTTP/1.1"]%string ++ "Host: localhost"] IoStatus.closed)
    empty_buffer 16 with
  | Ret (Unexpected HeaderReadError.too_large, _, _) => true
  | _ => false
  end.

Definition test_response_header_validation : bool :=
  let threw := match add_header default_response "X-Test" (("bad" : bytes) ++ CRLF ++ "value") with
    | Throw (invalid_argument _) => true
    | _ => false
    end in
  let r := with_headers default_response
    [HeaderField "X-Unsafe" (("still" : bytes) ++ CRLF ++ "bad")] in
  threw && match find (serialize r close) "X-Unsafe" 0 with None => true | Some _ => false end.

(** [main] of the unit tests: a test that fails ends the program with 1. *)
Definition unit_http_main : Z :=
  if forallb id [test_request_parse_valid; test_request_parse_rejects_folded_header;
                 test_buffer_growth_and_commit; test_framing_partial_reads; test_framing_too_large;
                 test_response_header_validation]
  then 0 else 1.

Theorem unit_tests_pass : unit_http_main = 0%Z.
Proof. vm_compute. reflexivity. Qed.

(** ** Smoke tests

    The modules of [src/modules.d] that need neither a file system, a clock nor a
    key, in the order of their files, and their configuration texts. *)

Definition config_lines (ls : list string) : bytes :=
  concat ((λ l, of_string l ++ ["010"%char]) <$> ls).

Definition host_guard_conf : bytes := config_lines
  ["# Default development host-guard module.";
   "rule=*|/*|localhost,127.0.0.1|421|unknown host"]%string.

Definition router_conf : bytes := config_lines
  ["route=GET|/healthz|respond|200|text/plain; charset=utf-8|ok";
   "route=GET|/readyz|respond|200|text/plain; charset=utf-8|ready";
   "route=GET|/api/{version}/*|pass"; "route=GET|/users/{id}|pass"]%string.

Definition route_table_conf : bytes := config_lines
  ["# Default development route-table module.";
   "route=GET|/healthz|respond|200|text/plain; charset=utf-8|ok";
   "route=GET|/readyz|respond|200|text/plain; charset=utf-8|ready"; "route=GET|/api/*|pass"]%string.

Definition cors_conf : bytes := config_lines
  ["# Default development CORS module.";
   "rule=/api/*|http://localhost:3000,http://127.0.0.1:3000|GET,HEAD,OPTIONS|X-Garcon-API-Key,Content-Type"]%string.

Definition header_guard_conf : bytes := config_lines
  ["# Default development header-guard module.";
   "rule=*|/api/*|X-Garcon-API-Key|dev-key|401|missing or invalid api key"]%string.

(** The configuration of [router_smoke.sh], which loads the router alone. *)
Definition router_smoke_conf : bytes := config_lines
  ["route=GET|/healthz|respond|200|text/plain; charset=utf-8|ok";
   "route=GET|/readyz|respond|200|text/plain; charset=utf-8|ready";
   "route=GET|/users/{id}|pass"; "route=GET|/api/{version}/items/{item_id}|pass";
   "route=GET|/files/{path}/*|pass";
   "route=POST|/echo|respond|200|text/plain; charset=utf-8|echoed"]%string.

Definition default_modules : outcome (list (request_module unit)) :=
  host_guard ← HostGuard.host_guard_module host_guard_conf;
  router ← Router.router_module router_conf;
  route_table ← RouteTable.route_table_module route_table_conf;
  cors ← Cors.cors_module cors_conf;
  header_guard ← HeaderGuard.header_guard_module header_guard_conf;
  Ret [loaded "host-guard" host_guard; loaded "router" router; loaded "route-table" route_table;
       loaded "cors" cors; loaded "header-guard" header_guard].

Definition router_only : outcome (list (request_module unit)) :=
  router ← Router.router_module router_smoke_conf; Ret [loaded "router" router].

(** What the server sends on a connection on which the peer sends these texts. *)
Definition raw_http (modules : outcome (list (request_module unit))) (ts : list bytes) : bytes :=
  match modules with
  | Ret ms =>
      PeerApi.out (handle_connection sample_clocks false (pipeline_handle ms) [] peer_create
        peer_destroy (S (length ts)) (Socket 7 "127.0.0.1") (PeerApi.Client ts [Some 9; None] [Some 20] [])
        tt).2
  | _ => []
  end.

(** [contains]: the shell's [*needle*]; the first line; the body. *)
Definition contains (needle : string) (s : bytes) : bool :=
  match search (of_string needle) s with Some _ => true | None => false end.

Definition first_line (s : bytes) : bytes := match cut CRLF s with Some (l, _) => l | None => s end.
Definition body_of (s : bytes) : bytes := match decode s with Some (_, b) => b | None => [] end.

Definition answers (modules : outcome (list (request_module unit))) (request : list string)
    (expected_status : string) (needles : list string) : bool :=
  let answer := raw_http modules [crlf_lines (request ++ [""%string])] in
  bytes_eqb (first_line answer) (of_string expected_status) && forallb (λ n, contains n answer) needles.

Definition answers_body (modules : outcome (list (request_module unit))) (request : list string)
    (expected_status expected_body : string) : bool :=
  let answer := raw_http modules [crlf_lines (request ++ [""%string])] in
  bytes_eqb (first_line answer) (of_string expected_status) &&
  bytes_eqb (body_of answer) (of_string expected_body).

(** [security_smoke.sh], [host_guard_smoke.sh], [header_guard_smoke.sh],
    [route_table_smoke.sh] and [cors_smoke.sh]. *)
Lemma default_modules_smoke :
  forallb id
    [answers default_modules ["GET  / HTTP/1.1"; "Host: localhost"]%string "HTTP/1.1 400 Bad Request" [];
     answers_body default_modules ["GET /healthz HTTP/1.1"; "Host: localhost"]%string
       "HTTP/1.1 200 OK" "ok";
     answers_body default_modules ["GET /readyz HTTP/1.1"; "Host: 127.0.0.1:28080"]%string
       "HTTP/1.1 200 OK" "ready";
     answers_body default_modules ["GET / HTTP/1.1"; "Host: evil.example"]%string
       "HTTP/1.1 421 Misdirected Request" "unknown host";
     answers default_modules ["GET / HTTP/1.1"]%string "HTTP/1.1 421 Misdirected Request" [];
     answers default_modules ["HEAD /healthz HTTP/1.1"; "Host: localhost"]%string
       "HTTP/1.1 404 Not Found" [];
     answers_body default_modules ["GET /api/ping.txt HTTP/1.1"; "Host: localhost"]%string
       "HTTP/1.1 401 Unauthorized" "missing or invalid api key";
     answers default_modules
       ["GET /api/ping.txt HTTP/1.1"; "Host: localhost"; "X-Garcon-API-Key: wrong-key"]%string
       "HTTP/1.1 401 Unauthorized" [];
     answers default_modules
       ["OPTIONS /api/ping.txt HTTP/1.1"; "Host: localhost"; "Origin: http://localhost:3000";
        "Access-Control-Request-Method: GET";
        "Access-Control-Request-Headers: X-Garcon-API-Key"]%string
       "HTTP/1.1 204 No Content"
       ["Access-Control-Allow-Origin: http://localhost:3000";
        "Access-Control-Allow-Methods: GET,HEAD,OPTIONS";
        "Access-Control-Allow-Headers: X-Garcon-API-Key,Content-Type"]%string;
     answers default_modules
       ["OPTIONS /api/ping.txt HTTP/1.1"; "Host: localhost"; "Origin: http://evil.example";
        "Access-Control-Request-Method: GET"]%string "HTTP/1.1 403 Forbidden" [];
     answers default_modules
       ["GET /api/ping.txt HTTP/1.1"; "Host: localhost"; "Origin: http://localhost:3000"]%string
       "HTTP/1.1 401 Unauthorized" ["Access-Control-Allow-Origin: http://localhost:3000"]%string]
  = true.
Proof. vm_compute. reflexivity. Qed.

(** [router_smoke.sh] *)
Lemma router_smoke :
  forallb id
    [answers_body router_only ["GET /healthz HTTP/1.1"; "Host: localhost"]%string "HTTP/1.1 200 OK" "ok";
     answers_body router_only ["GET /readyz HTTP/1.1"; "Host: localhost"]%string "HTTP/1.1 200 OK" "ready";
     answers router_only ["HEAD /healthz HTTP/1.1"; "Host: localhost"]%string "HTTP/1.1 404 Not Found" [];
     answers router_only ["GET /users/123 HTTP/1.1"; "Host: localhost"]%string
       "HTTP/1.1 404 Not Found" ["X-Garcon-Route-Param-Id: 123"]%string;
     answers router_only ["GET /api/v2/items/xyz-42 HTTP/1.1"; "Host: localhost"]%string
       "HTTP/1.1 404 Not Found"
       ["X-Garcon-Route-Param-Version: v2"; "X-Garcon-Route-Param-Item-Id: xyz-42"]%string;
     answers router_only ["GET /files/a/b/c.txt HTTP/1.1"; "Host: localhost"]%string
       "HTTP/1.1 404 Not Found" ["X-Garcon-Route-Param-Path: a"]%string;
     answers_body router_only ["POST /echo HTTP/1.1"; "Host: localhost"]%string
       "HTTP/1.1 200 OK" "echoed";
     negb (answers router_only ["GET /no/such/route HTTP/1.1"; "Host: localhost"]%string
       "HTTP/1.1 404 Not Found" ["X-Garcon-Route-Param"]%string)]
  = true.
Proof. vm_compute. reflexivity. Qed.

(** What [read_response] of [keep_alive_smoke.sh] gives: the status and the
    connection line, and the body of each answer. *)
Definition read_answers (n : nat) (s : bytes) : option (list (list bytes * bytes)) :=
  option_map (map (λ r : list bytes * bytes, (take 2 r.1, r.2))) (read_responses (replicate n false) s).

(** [keep_alive_smoke.sh]: two answers on one connection, the first kept open; an
    HTTP/1.0 connection is closed. *)
Lemma keep_alive_smoke :
  read_answers 2 (raw_http default_modules
    [crlf_lines ["GET /healthz HTTP/1.1"; "Host: localhost"; ""]%string;
     crlf_lines ["GET /readyz HTTP/1.1"; "Host: localhost"; "Connection: close"; ""]%string;
     crlf_lines ["GET /healthz HTTP/1.1"; "Host: localhost"; ""]%string])
  = Some [(["HTTP/1.1 200 OK" : bytes; "Connection: keep-alive" : bytes], "ok" : bytes);
          (["HTTP/1.1 200 OK" : bytes; "Connection: close" : bytes], "ready" : bytes)] ∧
  read_answers 1 (raw_http default_modules
    [crlf_lines ["GET /healthz HTTP/1.0"; "Host: localhost"; ""]%string;
     crlf_lines ["GET /healthz HTTP/1.0"; "Host: localhost"; ""]%string])
  = Some [(["HTTP/1.1 200 OK" : bytes; "Connection: close" : bytes], "ok" : bytes)].
Proof. split; vm_compute; reflexivity. Qed.

(** *** [rate_limit_smoke.sh]

    The rate limiter between the route table and the CORS module, and a clock that
    advances by a millisecond with every reading. *)
Definition rate_limit_conf : bytes := config_lines
  ["# Limits are intentionally generous for development; tune for production use.";
   "path=../modules/libgarcon_rate_limit_module.so";
   "rule=*|/api/*|header:X-Garcon-API-Key|100|60s"]%string.

Definition limited_modules : outcome (list (request_module RateLimit.ClockWorld.t)) :=
  route_table ← RouteTable.route_table_module route_table_conf;
  rate_limit ← RateLimit.rate_limit_module rate_limit_conf;
  cors ← Cors.cors_module cors_conf;
  header_guard ← HeaderGuard.header_guard_module header_guard_conf;
  Ret [loaded "route-table" route_table; loaded "rate-limit" rate_limit; loaded "cors" cors;
       loaded "header-guard" header_guard].

(** What [curl] receives when it sends one request on a connection of its own. *)
Definition curl {W} (ms : list (request_module W)) (w : W) (request : list string) : bytes * W :=
  match handle_connection sample_clocks false (pipeline_handle ms) [] peer_create peer_destroy 2
    (Socket 7 "127.0.0.1")
    (PeerApi.Client [crlf_lines (request ++ [""%string])] [Some 40; None] [Some 40] []) w with
  | (Ret (_, w), client) => (PeerApi.out client, w)
  | (_, client) => (PeerApi.out client, w)
  end.

Fixpoint curls {W} (ms : list (request_module W)) (w : W) (requests : list (list string)) : list bytes :=
  match requests with
  | [] => []
  | request :: requests => let '(answer, w) := curl ms w request in answer :: curls ms w requests
  end.

Definition api_request (key : string) : list string :=
  ["GET /api/ping.txt HTTP/1.1"; "Host: localhost"; ("X-Garcon-API-Key: " ++ key)%string]%string.

Definition healthz_request : list string := ["GET /healthz HTTP/1.1"; "Host: localhost"]%string.

(** A key that is used 100 times within the window is refused from then on, before
    the header guard sees it; another key has a bucket of its own. *)
Definition hammer_answers : list bytes :=
  match limited_modules with
  | Ret ms => curls ms (RateLimit.ClockWorld.World ∅ 5000000000)
      (replicate 105 (api_request "rate-smoke-bad-A") ++ [api_request "rate-smoke-bad-B"; healthz_request])
  | _ => []
  end.

Lemma rate_limit_smoke :
  (first_line <$> hammer_answers) =
    replicate 100 ("HTTP/1.1 401 Unauthorized" : bytes) ++
    replicate 5 ("HTTP/1.1 429 Too Many Requests" : bytes) ++
    ["HTTP/1.1 401 Unauthorized" : bytes; "HTTP/1.1 200 OK" : bytes] ∧
  forallb (λ answer, contains "X-RateLimit-Limit: 100" answer && contains "X-RateLimit-Remaining: " answer)
    (take 100 hammer_answers) = true ∧
  forallb (λ answer, contains "X-RateLimit-Limit: 100" answer && contains "Retry-After: 1" answer)
    (take 5 (drop 100 hammer_answers)) = true.
Proof. cbv zeta. repeat apply conj; vm_compute; reflexivity. Qed.

(** *** [ip_limit_smoke.sh] and [concurrency_smoke.sh]

    The clients are sockets of one address; a slow client is one whose worker does
    not move on. *)

(** A connection: accepted, then as far as the limiter and the queue let it, and
    announced to a worker asleep. *)
Definition connect (sv : server) (fd : Z) : server :=
  let step sv e := default sv (server_step sv e) in
  let announce sv := step sv (ev_notify (fst <$> list_find (λ w, asleep w = true) (sv_workers sv))) in
  announce (step (step (step (step sv (ev_accept (inr (Socket fd "127.0.0.1")))) ev_acquire) ev_push)
    ev_release).

Definition serve_all (sv : server) : server :=
  foldl (λ sv i, default sv (run_schedule sv [ev_served i h_returned; ev_finish i])) sv
    (seq 0 (length (sv_workers sv))).

Definition take_all (sv : server) : server :=
  foldl (λ sv i, default sv (server_step sv (ev_pop i))) sv (seq 0 (length (sv_workers sv))).

(** Workers that take a connection as soon as it is queued and announced. *)
Definition clients (queue_capacity worker_count : nat) (fds : list Z) : server :=
  match start_server queue_capacity worker_count with
  | Ret sv => foldl (λ sv fd, take_all (connect sv fd)) sv fds
  | _ => sample_start
  end.

(** Of twelve slow clients of one address, eight are served and four are refused
    with a message that names the address; then the server serves again. *)
Definition slow_clients : server := clients 4 8 (Z.of_nat <$> seq 10 12).

Lemma ip_limit_smoke :
  sv_events slow_clients = replicate 4
    (on_connection_rejected "per-IP concurrent connection limit exceeded: 127.0.0.1") ∧
  (sock_fd <$> omap serving (sv_workers slow_clients)) = (Z.of_nat <$> seq 10 8) ∧
  sv_events (take_all (connect (serve_all slow_clients) 30)) = sv_events slow_clients ∧
  (sock_fd <$> omap serving (sv_workers (take_all (connect (serve_all slow_clients) 30)))) = [30%Z].
Proof. cbv zeta. repeat apply conj; vm_compute; reflexivity. Qed.

(** Two workers make progress with one stalled client; one worker and a queue of
    one reject what does not fit, and recover. *)
Lemma concurrency_smoke :
  (sock_fd <$> omap serving (sv_workers (clients 4 2 [10%Z; 11%Z]))) = [10%Z; 11%Z] ∧
  (let overloaded := clients 1 1 [10%Z; 11%Z; 12%Z; 13%Z] in
   sv_events overloaded = replicate 2 (on_connection_rejected "accepted-connection queue full") ∧
   (sock_fd <$> omap serving (sv_workers overloaded)) = [10%Z] ∧
   (let recovered := connect (take_all (serve_all (take_all (serve_all overloaded)))) 14 in
    sv_events recovered = sv_events overloaded ∧
    (sock_fd <$> omap serving (sv_workers (take_all recovered))) = [14%Z])).
Proof. cbv zeta. repeat apply conj; vm_compute; reflexivity. Qed.

(** *** Request bodies

    [request.cpp] ignores request bodies, but nothing skips their bytes: a body that
    arrives after the header block of a kept connection is read as the next
    request, whatever [Content-Length] says of it. *)
Definition request_body : list string := ["GET /readyz HTTP/1.1"; "Host: localhost"; ""]%string.

Lemma body_read_as_request :
  length (crlf_lines request_body) = 41 ∧
  read_answers 2 (raw_http default_modules
    [crlf_lines ["POST /echo HTTP/1.1"; "Host: localhost";
                 "Content-Length: 41"; ""]%string;
     crlf_lines request_body])
  = Some [(["HTTP/1.1 404 Not Found" : bytes; "Connection: keep-alive" : bytes],
           ("not found" : bytes) ++ ["010"%char]);
          (["HTTP/1.1 200 OK" : bytes; "Connection: keep-alive" : bytes], "ready" : bytes)].
Proof. split; vm_compute; reflexivity. Qed.
