(* ===== verification/Deployment.v ===== *)
(** * The shipped configuration ([src/modules.d], [src/www])

    A machine with the eight module files of the repository, the document root and
    a file [www/api/ping.txt].  The server starts on it with the eight modules in
    order; what the theorems of [Protection] say of its requests is evaluated from
    bytes to bytes. *)

From S2P Require Import Prelude.
From S2P Require Import StringView.
From S2P Require Import HttpHeader.
From S2P Require Import HttpRequest.
From S2P Require Import HttpResponse.
From S2P Require Import Pipeline.
From S2P Require Import ModuleAbi.
From S2P Require Import ConfigText.
From S2P Require Import Guard.
From S2P Require Import FsPath.
From S2P Require Import StaticFiles.
From S2P Require Import Environment.
From S2P Require Import Machine.
From S2P Require Import Protection.
From S2P Require Import CommandLine.
From S2P Require Import ModuleConfig.
From S2P Require Import DynamicModule.
From S2P Require Import Shipped.
From S2P Require Import Totality.
From S2P Require Import Tests.
From S2P Require HeaderGuard.
From S2P Require HostGuard.
From S2P Require RouteTable.
From S2P Require Router.
From S2P Require RateLimit.
From S2P Require JwtAuth.
From S2P Require Cors.

(** ** The machine *)

(** The text of a module file: the line of the library and the rules. *)
Definition module_file (library : string) (rules : bytes) : bytes :=
  config_lines ["path=../modules/libgarcon_" +:+ library +:+ "_module.so"]%string ++ rules.

Definition jwt_auth_conf : bytes := config_lines
  ["secret=0123456789abcdef0123456789abcdef0123456789abcdef0123456789abcdef"; "alg=HS256";
   "# issuer=garcon"; "# audience=api"; "rule=*|/jwt/*"]%string.

(** [modules.d], by file name. *)
Definition module_files : list (bytes * bytes) :=
  [ ("10-static-files.conf" : bytes, module_file "static_files" []);
    ("03-host-guard.conf" : bytes, module_file "host_guard" host_guard_conf);
    ("04-router.conf" : bytes, module_file "router" router_conf);
    ("05-route-table.conf" : bytes, module_file "route_table" route_table_conf);
    ("06-rate-limit.conf" : bytes, rate_limit_conf);
    ("07-cors.conf" : bytes, module_file "cors" cors_conf);
    ("08-header-guard.conf" : bytes, module_file "header_guard" header_guard_conf);
    ("09-jwt-auth.conf" : bytes, module_file "jwt_auth" jwt_auth_conf) ].

Definition names (s : list string) : list bytes := of_string <$> s.

Definition default_files : MapFs.t :=
  [ (names ["srv"], MapFs.Directory); (names ["srv"; "www"], MapFs.Directory);
    (names ["srv"; "www"; "index.html"], MapFs.File "<p>hi</p>");
    (names ["srv"; "www"; "api"], MapFs.Directory);
    (names ["srv"; "www"; "api"; "ping.txt"], MapFs.File "pong");
    (names ["srv"; "modules.d"], MapFs.Directory) ]%string
  ++ ((λ f, (names ["srv"; "modules.d"]%string ++ [fst f], MapFs.File (snd f))) <$> module_files).

Definition default_machine : machine := Machine default_files RateLimit.sample_world 1000.

Definition default_config : server_config :=
  ServerConfig "127.0.0.1" 8080 "/srv/www" "/srv/modules.d" 4 128 None.

(** ** The start *)

#[local] Existing Instances HeaderGuard.header_guard HeaderGuard.header_guard_laws.

Definition linker : DynamicLinker machine path (cpp_module machine) := cpp_linker [] shipped_library.

Definition start : outcome (list (request_module machine)) * machine :=
  let '(r, w) := create_request_handler (DynamicLinker0 := linker) [] default_config default_machine in
  (pipeline_of <$> r, w).

Definition started : list (request_module machine) :=
  match start with (Ret ms, _) => ms | _ => [] end.

(** The modules, in the order of the file names; starting changes nothing. *)
Example start_names :
  module_name <$> started
  = names ["host-guard"; "router"; "route-table"; "rate-limit"; "cors"; "header-guard"; "jwt-auth";
           "static-files"]%string
  ∧ snd start = default_machine.
Proof. split; vm_compute; reflexivity. Qed.

(** ** The pipeline *)

(** The rules of the texts. *)
Definition parsed {A} (o : outcome (list A)) : list A := match o with Ret rules => rules | _ => [] end.

Definition limit_rules : list RateLimit.rule :=
  [RateLimit.Rule "*" "/api/" pk_prefix RateLimit.kk_header "X-Garcon-API-Key" 100 60 100].
Definition key_rules : list HeaderGuard.guard_rule :=
  [HeaderGuard.GuardRule "*" "/api/" pk_prefix "X-Garcon-API-Key" (Some ("dev-key" : bytes)) 401
     "missing or invalid api key"].
Definition jwt : JwtAuth.jwt_auth :=
  JwtAuth.JwtAuth "0123456789abcdef0123456789abcdef0123456789abcdef0123456789abcdef" "HS256" None None
    [JwtAuth.AuthRule "*" "/jwt/" pk_prefix].

Definition the_limiter : request_module machine := loaded "rate-limit" (RateLimit.handle limit_rules).
Definition the_header_guard : request_module machine := guard_module "header-guard" key_rules.
Definition the_jwt_auth : request_module machine := loaded "jwt-auth" (JwtAuth.handle jwt).
Definition the_files : request_module machine :=
  loaded "static-files" (http_terminal_handle (handle "/srv/www")).

Definition default_pipeline : list (request_module machine) :=
  [ loaded "host-guard" (λ req, lift (HostGuard.handle (parsed (HostGuard.parse_rules host_guard_conf)) req));
    loaded "router" (λ req, lift (Router.handle (parsed (Router.parse_routes router_conf)) req));
    loaded "route-table"
      (λ req, lift (Ret (RouteTable.handle (parsed (RouteTable.parse_routes route_table_conf)) req)));
    the_limiter;
    loaded "cors" (λ req, lift (Cors.handle (parsed (Cors.parse_rules cors_conf)) req));
    the_header_guard; the_jwt_auth; the_files ].

(** The entries that are loaded. *)
Definition default_entries : list configured_module :=
  (λ f : bytes * bytes,
     ConfiguredModule (("/srv/modules.d/../modules/libgarcon_" : bytes) ++ fst f ++ "_module.so")
       "/srv/modules.d" (snd f)) <$>
  [ ("host_guard" : bytes, module_file "host_guard" host_guard_conf);
    ("router" : bytes, module_file "router" router_conf);
    ("route_table" : bytes, module_file "route_table" route_table_conf);
    ("rate_limit" : bytes, rate_limit_conf);
    ("cors" : bytes, module_file "cors" cors_conf);
    ("header_guard" : bytes, module_file "header_guard" header_guard_conf);
    ("jwt_auth" : bytes, module_file "jwt_auth" jwt_auth_conf);
    ("static_files" : bytes, module_file "static_files" []) ].

Lemma default_entries_loaded :
  load_configured_modules [] "/srv/modules.d" default_machine
  = (Ret (Expect default_entries), default_machine).
Proof. vm_compute. reflexivity. Qed.

Lemma default_modules_exported :
  exported_modules shipped_library default_config default_entries default_machine default_pipeline
    default_machine.
Proof.
  unfold default_entries, default_pipeline. cbn [fmap list_fmap fst snd].
  shipped_entry HostGuard.parse_rules (λ rules req, lift (W := machine) (HostGuard.handle rules req)).
  shipped_entry Router.parse_routes (λ routes req, lift (W := machine) (Router.handle routes req)).
  shipped_entry RouteTable.parse_routes (λ routes req, lift (W := machine) (Ret (RouteTable.handle routes req))).
  shipped_entry RateLimit.parse_rules (RateLimit.handle (W := machine)).
  shipped_entry Cors.parse_rules (λ rules req, lift (W := machine) (Cors.handle rules req)).
  shipped_entry HeaderGuard.parse_rules (λ rules req, lift (W := machine) (HeaderGuard.handle rules req)).
  shipped_entry JwtAuth.jwt_auth_config (JwtAuth.handle (W := machine)).
  eapply exported_cons; [|constructor].
  eexists "static-files", static_files_module, _.
  split; [reflexivity|]. split; [|reflexivity]. cbn [ModuleConfig.config_directory config_text].
  unfold static_files_module. erewrite prog_bind_ret by (vm_compute; reflexivity).
  erewrite prog_bind_ret by (vm_compute; reflexivity). reflexivity.
Qed.

(** The start: the eight modules in the order of their files, with the rules of
    their texts; nothing else of the machine changes. *)
Theorem default_start :
  ∃ built, create_request_handler (DynamicLinker0 := linker) [] default_config default_machine
           = (Ret built, default_machine) ∧ pipeline_of built = default_pipeline.
Proof.
  destruct (add_modules_cpp_complete [] shipped_library default_config default_entries []
    default_machine default_pipeline default_machine default_modules_exported) as (built & Hb & Hp).
  exists built. split; [|exact Hp]. unfold create_request_handler.
  rewrite (prog_bind_ret _ _ _ _ _ default_entries_loaded). exact Hb.
Qed.

(** ** Files below [/api/] *)

(** A request that reaches the static files of the shipped configuration and names
    a file below [api] with single slashes carries the key, and the rate limiter
    gave a token for it, in the state that the modules before it left. *)
Theorem default_api_files req w hs w1 rest :
  passes (take 7 default_pipeline) req w hs w1 → names_file_below req ["api" : bytes] rest →
  header_value req "X-Garcon-API-Key" = Some ("dev-key" : bytes) ∧
  ∃ hs2 w2 k r w3, passes (take 3 default_pipeline) req w hs2 w2 ∧
    limit_rules !! k = Some r ∧ RateLimit.rule_applies r req = true ∧
    RateLimit.check_and_consume r k (RateLimit.extract_subject req r) w2 = (Ret None, w3).
Proof.
  intros Hp Hb. split.
  - destruct (header_guard_protects _ _ _ _ _ _ _ "header-guard" key_rules
      (HeaderGuard.GuardRule "*" "/api/" pk_prefix "X-Garcon-API-Key" (Some ("dev-key" : bytes)) 401
         "missing or invalid api key") Hp Hb) as (v & Hv & He).
    + do 5 right. left.
    + left.
    + split; [by left|done].
    + by rewrite <- (He "dev-key" eq_refl).
  - eapply (limiter_protects (take 3 default_pipeline) (drop 4 (take 7 default_pipeline)) req w hs w1
      _ _ "rate-limit" limit_rules _ Hp Hb).
    + left.
    + split; [by left|done].
Qed.

(** ** Every request *)

Lemma limit_rules_wf : Forall RateLimit.wf_rule limit_rules.
Proof.
  assert (Hp : RateLimit.parse_rules rate_limit_conf = Ret limit_rules) by (vm_compute; reflexivity).
  destruct (RateLimit.rate_limit_rules_image limit_rules) as [[Hi _] _].
  destruct Hi as [HF _]; [by eexists|]. exact HF.
Qed.

(** The shipped configuration answers every request with a response, whatever the
    buckets and the files hold, unless a token signed with its secret has an expiry
    that overflows. *)
Theorem default_answers req (w : machine) :
  RateLimit.wf_store limit_rules (RateLimit.get_buckets w) →
  (∃ resp w', pipeline_handle default_pipeline req w = (Ret resp, w') ∧
     RateLimit.wf_store limit_rules (RateLimit.get_buckets w')) ∨
  (expiry_overflow default_entries req ∧ (pipeline_handle default_pipeline req w).1 = Undef).
Proof.
  assert (Hf : FilesStay (λ w : machine, RateLimit.wf_store limit_rules (RateLimit.get_buckets w)))
    by (by apply machine_files_stay).
  apply (pipeline_answered (λ w : machine, RateLimit.wf_store limit_rules (RateLimit.get_buckets w))).
  apply (shipped_answered limit_rules limit_rules_wf (machine_clock_stays _) _ _ _ _ _
    default_modules_exported).
  intros c Hc. unfold default_entries in Hc. cbn [fmap list_fmap fst snd] in Hc.
  rewrite !elem_of_cons, elem_of_nil in Hc.
  by repeat destruct Hc as [->|Hc].
Qed.

(** From bytes to bytes: without the key the file is refused, with it it is served;
    with a slash more in front of the target it is served without it, and no bucket
    is touched. *)
Definition get (target : string) (headers : list string) : (bytes * bytes) * machine :=
  let '(answer, w) := curl default_pipeline default_machine
    (("GET " +:+ target +:+ " HTTP/1.1")%string :: "Host: localhost"%string :: headers) in
  ((first_line answer, body_of answer), w).

Lemma default_session :
  fst (get "/api/ping.txt" [])
  = ("HTTP/1.1 401 Unauthorized" : bytes, "missing or invalid api key" : bytes) ∧
  fst (get "/api/ping.txt" ["X-Garcon-API-Key: dev-key"%string])
  = ("HTTP/1.1 200 OK" : bytes, "pong" : bytes) ∧
  get "//api/ping.txt" [] = (("HTTP/1.1 200 OK" : bytes, "pong" : bytes), default_machine) ∧
  fst (get "/" []) = ("HTTP/1.1 200 OK" : bytes, "<p>hi</p>" : bytes).
Proof. split_and!; vm_compute; reflexivity. Qed.
